(* ===== verification/_CoqProject ===== *)
-Q . S2P
Prelude.v
Cursor.v
Protocol.v
Crypto.v
Directory.v
DirectoryTool.v
Manager.v
Sql.v
LocalDb.v
LocalStore.v
Outbox.v
Changes.v
Locks.v
Identity.v
CoreDb.v
CoreApi.v
CoreSessions.v
CoreDelivery.v
Concurrent.v
Overlaps.v
Dispatch.v
Service.v
Server.v
Membership.v
Network.v
Routes.v
EndToEnd.v
Delivery.v
Mls.v
ReferenceMls.v
Conversation.v
Messaging.v
Ffi.v
Text.v
DirectoryCli.v
Lab.v
Conformance.v
