(* ===== verification/Prelude.v ===== *)
(** * A verification development of Resilient Messenger

    This library models the Rust code of the repository, executably, and
    proves what makes it correct.  This file holds, after this overview, what
    the other files share: bytes, fixed-size arrays, results, machine integers,
    sorting, lists.

    ** The program

    A message travels through these parts:

    - [messenger-core] keeps a device's conversations, outbox and inbox in an
      SQLite database whose texts are encrypted under a master key;
    - [messenger-crypto] encrypts for a group with OpenMLS and exports its
      state as encrypted snapshots; [messenger-identity] makes the account and
      device keys, certificates, invitations and recovery packages;
    - [messenger-uniffi] offers both to the Swift and Kotlin applications;
    - [messenger-protocol] is the wire format, canonical CBOR frames;
    - [messenger-transport] queues frames and sends them to the relays of a
      signed directory, over WebSocket or HTTPS, with backoff and failover;
    - [services/relay] forwards frames to core-api without keeping anything;
    - [services/core-api] authenticates devices and stores the encrypted
      events, groups, welcomes, key packages and usernames in PostgreSQL;
    - [tools] sign the relay directory, demonstrate the failover and measure
      the codec.

    ** The files and the code they model

    Paths are relative to the src directory.  Rust paths are kept as module
    paths: [TransportFrame::decode] is [TransportFrame.decode], the methods of
    [Backend] are in the module CoreApi, those of [MessengerCore] in
    LocalStore.  A struct is a [Record], an enum an [Inductive], a method a
    function that takes the state and returns it with the result.

    - [Cursor]: the reader that three crates share, as a state-and-error monad,
      and the interface [Codec] between an encoder and a reader.
    - [Protocol]: crates/messenger-protocol/src/lib.rs.
    - [Crypto]: the interface of the cryptographic libraries with its laws, and
      a toy instance for the witnesses.
    - [Directory] and [Manager]: crates/messenger-transport/src/lib.rs, the
      signed relay directory and the [TransportManager] over an
      [EndpointSender]; [Network]: the [NetworkSender] of the same file and
      services/relay/src/main.rs.
    - [Sql]: statements, transactions and schedules of I/O failures.
    - [LocalDb], [LocalStore], [Outbox], [Changes], [Locks]:
      crates/messenger-core/src/lib.rs, its schema, its operations, what its
      outbox promises to an upload loop and its revision to an observer, and its
      two locks under any interleaving.
    - [Identity]: crates/messenger-identity/src/lib.rs.
    - [CoreDb], [CoreApi]: services/core-api/src/lib.rs and its migration, the
      schema and the operations; [CoreSessions] and [CoreDelivery] hold the
      theorems on them; [Concurrent] interleaves the six transactions that
      begin by locking a row, with the row locks they take; [Overlaps] has the
      transactions that read before they lock.
    - [Dispatch]: services/core-api/src/main.rs; [Service] is the abstract
      service that it refines; [Server] has the theorems on whole requests and
      [Membership] says who may change the members of a group.
    - [Routes]: the [main] functions of core-api and of the relay, their routes,
      limits and timeouts.
    - [EndToEnd]: the manager, the sender, the relay and the server composed,
      over a network that may lose any request or response on either hop;
      [Delivery] continues to the members that poll core-api.
    - [Mls]: crates/messenger-crypto/src/lib.rs over the interface [OpenMls];
      [ReferenceMls] is a symbolic group protocol that keeps its laws.
    - [Conversation]: the engines of several devices that share a group, over
      the interface [MlsEpochs]; [Messaging]: the same conversation with
      core-api as its log, composing Mls, CoreApi and CoreDelivery.  The client
      that uploads and pulls there is the applications' part, which is outside
      the Rust code: its steps are those two files' own definitions.
    - [Ffi]: crates/messenger-uniffi/src/lib.rs over LocalStore and Mls, with
      the devices of several applications in one conversation.
    - [DirectoryTool] and [DirectoryCli]:
      tools/network-lab/src/bin/relay-directory.rs; [Text] has the string
      functions of the Rust standard library that it uses.
    - [Lab]: tools/network-lab/src/main.rs and
      tools/load-generator/src/main.rs.
    - [Conformance]: the repository's tests and its three examples, run on the
      definitions of the other files.

    ** What the theorems show

    - Codecs: a frame, an envelope, a directory, a QR payload and a snapshot
      decode to exactly the value that was encoded, and nothing else is
      accepted ([frame_decode_exact], [directory_roundtrip], [qr_roundtrip],
      [sync_page_roundtrip], [snapshot_roundtrip], [read_endpoints_exact]).
    - The client's store: a message and its outbox entry are stored together
      or not at all, wherever an I/O failure strikes; events are ingested
      once; a key rotation keeps every text readable; what is committed is
      always well formed, also when opening, or a wipe, fails midway; such a
      wipe leaves the connection inside its transaction until the store is
      reopened ([create_message_atomic], [ingest_exactly_once],
      [rotate_master_key_preserves], [store_invariant]).  Messages written
      offline are all kept, a failed upload is put off exponentially up to
      a limit, and a loop of accepted uploads drains the outbox
      ([offline_messages_kept], [retry_backs_off], [upload_loop_drains]).
      But for a connection inside a failed wipe, an observer of the revision
      misses no change ([no_change_goes_unseen]).
      Threads that use it finish unless a listing meets a key rotation
      ([operations_terminate]).
      Two interleavings that go wrong are stated as such
      ([listing_rotation_deadlock], [create_rotate_race]).
    - The transport: a frame leaves the outbox only after a relay answered it,
      in order; a failing relay is left alone until its backoff ends; with a
      relay that answers, [flush] empties the outbox; only directories signed
      by the configured key and no older than the current one are used
      ([flush_delivery], [flush_backs_off], [flush_progress],
      [manager_directory_trust]).
    - The backend: challenges, refresh tokens and key packages are single use;
      an upload repeated is the same upload; paging delivers every visible
      event once and in order; the members of groups change only by those who
      may, and once per signed operation; every operation keeps the database
      well formed ([challenge_single_use], [refresh_reuse_revokes_family],
      [upload_event_idempotent], [sync_pages_complete],
      [members_change_by_authority], [membership_operation_once],
      [backend_invariant]).
      Overlapping requests that begin by locking rows refine a service of whole
      requests, in which a fetch may miss a package that another holds, and they
      spend once; administrators cannot remove each other
      ([locking_requests_refine_service], [overlapping_requests_spend_once],
      [removed_admin_is_refused]).  Three overlaps that go wrong are stated as
      such ([late_commit_is_skipped], [first_acknowledgements_regress],
      [change_takes_cooling_name]).
    - The server: [dispatch] refines the abstract service; every response is a
      frame for its request ([dispatch_refines_service], [server_history]).
      Only a POST of a frame to two paths reaches it ([core_http_surface]); a
      long poll that nothing interrupts outlasts the timeout of the relay
      ([idle_long_poll_closes]).
    - Composition: what leaves the client's outbox with an acceptance is stored
      once in core-api, over any pattern of losses, and read once by an active
      member that polls in time from a cursor before it, event by event
      ([accepted_upload_stored_once], [accepted_message_reaches_members]); the
      relay changes nothing ([relay_transparent]); a frame that makes no call
      blocks the outbox ([unserved_frame_blocks]).
    - MLS and the bindings: open groups and storage agree in an engine unless
      an import left other groups open, snapshots restore what they were
      exported for, arguments of the wrong width are refused without effect, and
      the devices that applications put together through the bindings hear each
      other ([engine_in_sync], [import_orphans_conversations],
      [snapshot_roundtrip], [local_calls_typed], [devices_meet]).
    - Conversations: through any epochs that the devices go through, the members
      follow every commit, hear each other in order and completely, and a
      removed device, named by its credential, hears nothing of any later
      epoch ([conversation_hears], [removed_member_hears_nothing]).  Within an
      epoch so they do when core-api stores and pages the events and serves
      others in between, with uploads that fail or lose their answer
      ([conversation_over_core_api]).  Two commits in one epoch part the
      members for good ([competing_commits_split]).
    - The tools: generate, sign and verify fit together, and the demonstration
      of the failover succeeds ([operator_commands_chain], [lab_failover]).
    - The model: the repository's own tests, as far as Conformance has them,
      pass on it with toy cryptography ([repository_tests_pass]).

    ** Conventions, bounds and fuel

    A machine integer is a [Z]; where the code wraps, saturates or checks, the
    model does ([as_u64], [saturating_add], [in_u]); integer operations wrap as
    in a release build.  Clocks and random bytes are arguments.  Fallible code
    returns [result]; a panic or a failed [expect] is a value of its own where
    the code can reach it.  Loops are structural recursions over the data they
    consume.  Fuel appears where a client asks for pages until one is empty, in
    [CoreDelivery.follow], [Delivery.poll_all], [Messaging.pulls] and
    [Outbox.upload_loop]; [sync_pages_complete],
    [accepted_message_reaches_members], [conversation_over_core_api] and
    [upload_loop_drains] show that any fuel above the number of stored events
    or outbox entries gives the complete result.

    Every SQL statement, BEGIN and COMMIT consumes one entry of a schedule of
    failures, and the theorems quantify over the schedule.  A failed COMMIT
    has not committed.  SQLite and PostgreSQL return rows without an ORDER BY
    that decides in the order of insertion.

    Libraries whose code is not in the repository are interfaces with the
    documented behaviour the code relies on as laws: [Crypto]/[CryptoLaws],
    [Unicode]/[UnicodeLaws], [Bip39]/[Bip39Laws], [OpenMls]/[OpenMlsLaws],
    [MlsEpochs]/[MlsEpochLaws] (the epochs of OpenMLS, for Conversation),
    [Network], [Core], [Router]/[RouterLaws] (axum), and
    [HttpClient]/[HttpClientLaws] (reqwest).  Each has a concrete instance, so
    every theorem with a law as hypothesis has a witness.  No theorem assumes
    unforgeability or collision resistance, but that the laws of [MlsEpochs]
    are symbolic: epochs of different numbers, and those of competing commits,
    have different secrets.

    ** What is not modelled

    - Plumbing: the tracing, request-id and panic layers, the database pool,
      binding and shutdown, sockets, TLS.
    - Overlaps of core-api requests beyond those of [Concurrent], [Overlaps] and
      [late_commit_is_skipped]: every other request is a single step there, also
      [change_username], whose overlap with others [Overlaps] shows to differ
      from any sequence of whole requests.
    - The memory that [import_conversation_state] reserves for the count of
      entries that a snapshot claims.
    - OpenMLS itself and the lock of its storage, which only a panic poisons.
    - Paths that are not UTF-8 and partial writes in the tools.
    - Messages that are decrypted out of order: the laws of [MlsEpochs] speak of
      the next message of each sender, so in [conversation_over_core_api] a
      device encrypts a text only after its last upload was acknowledged, and
      pulls before an event that it has not seen expires.
    - The Swift and Kotlin applications, containers and scripts, the fuzz target,
      and the tests that [Conformance] leaves out.

    ** What remains

    Every operation of the Rust crates, services and tools has its definition;
    what the map does not cover are imports, attributes, the plumbing above and
    the tests left out.  The path of a text from an engine through the outbox of
    LocalStore to another engine is put together by the applications, outside the
    Rust code; its parts are [upload_loop_drains], [accepted_message_reaches_members]
    and [conversation_over_core_api].  Two claims of one username are ordered by
    the unique index, on which the second INSERT waits, so they are a sequence of
    whole requests, which CoreSessions covers. *)
From Stdlib Require Import ZArith Lia.
From Stdlib Require Strings.Byte.
From Stdlib Require Import Sorting.Sorted.
From stdpp Require Import base gmap sets list strings.
#[export] Set Default Goal Selector "!".

#[global] Open Scope Z_scope.

(** Lemmas that close the common side conditions of the components. *)
Create HintDb messenger.

(** ** Bytes

    A Rust [u8] is Stdlib's 256-element [byte]; [b2z] and [z2b] are the
    widening and the truncating ([as u8]) conversions. *)
Abbreviation byte := Init.Byte.byte.
Abbreviation bytes := (list byte).

(** [Vec::len] *)
Definition len (b : bytes) : Z := Z.of_nat (length b).

Definition b2z (b : byte) : Z := Z.of_N (Strings.Byte.to_N b).
Definition z2b (z : Z) : byte :=
  default Init.Byte.x00 (Strings.Byte.of_N (Z.to_N (z mod 256))).

#[export] Instance byte_eq_dec : EqDecision byte := Strings.Byte.byte_eq_dec.

Lemma byte_of_to_N (b : byte) : Strings.Byte.of_N (Strings.Byte.to_N b) = Some b.
Proof. by destruct b. Qed.

#[export] Instance byte_countable : Countable byte :=
  inj_countable Strings.Byte.to_N Strings.Byte.of_N byte_of_to_N.

Lemma b2z_range b : 0 ≤ b2z b < 256.
Proof. destruct b; vm_compute; split; congruence. Qed.

Lemma z2b_b2z b : z2b (b2z b) = b.
Proof. by destruct b. Qed.

Lemma b2z_inj b1 b2 : b2z b1 = b2z b2 → b1 = b2.
Proof. intros H. by rewrite <- (z2b_b2z b1), H, z2b_b2z. Qed.

Lemma b2z_z2b z : b2z (z2b z) = z mod 256.
Proof.
  unfold z2b, b2z.
  pose proof (Z.mod_pos_bound z 256 ltac:(lia)) as Hb.
  destruct (Strings.Byte.of_N (Z.to_N (z mod 256))) eqn:E; simpl.
  - apply Strings.Byte.to_of_N in E. rewrite E. lia.
  - apply Strings.Byte.of_N_None_iff in E. lia.
Qed.

Lemma b2z_z2b_small z : 0 ≤ z < 256 → b2z (z2b z) = z.
Proof. intros. rewrite b2z_z2b. by apply Z.mod_small. Qed.

(** ** Big-endian integers: [to_be_bytes] and [from_be_bytes] *)

Fixpoint be_bytes (n : nat) (z : Z) : bytes :=
  match n with
  | O => []
  | S n' => z2b (z / 256 ^ Z.of_nat n') :: be_bytes n' z
  end.

Fixpoint from_be (l : bytes) : Z :=
  match l with
  | [] => 0
  | b :: l' => b2z b * 256 ^ Z.of_nat (length l') + from_be l'
  end.

Lemma length_be_bytes n z : length (be_bytes n z) = n.
Proof. induction n; simpl; auto. Qed.

Lemma from_be_bound l : 0 ≤ from_be l < 256 ^ Z.of_nat (length l).
Proof.
  induction l as [|b l IH]; cbn [length from_be]; [lia|].
  pose proof (b2z_range b).
  rewrite Nat2Z.inj_succ, Z.pow_succ_r by lia. nia.
Qed.

Lemma from_be_be_bytes n z : from_be (be_bytes n z) = z mod 256 ^ Z.of_nat n.
Proof.
  induction n as [|n IH]; cbn [be_bytes from_be].
  - by rewrite Z.pow_0_r, Z.mod_1_r.
  - rewrite IH, length_be_bytes, b2z_z2b, Nat2Z.inj_succ, Z.pow_succ_r by lia.
    assert (0 < 256 ^ Z.of_nat n) by (apply Z.pow_pos_nonneg; lia).
    rewrite (Z.mul_comm 256), Z.rem_mul_r by lia. lia.
Qed.

Lemma from_be_be_bytes_small n z :
  0 ≤ z < 256 ^ Z.of_nat n → from_be (be_bytes n z) = z.
Proof. intros. rewrite from_be_be_bytes. by apply Z.mod_small. Qed.

Lemma be_bytes_from_be l : be_bytes (length l) (from_be l) = l.
Proof.
  assert (Hgen : ∀ l k, be_bytes (length l) (k * 256 ^ Z.of_nat (length l) + from_be l) = l).
  { clear l. induction l as [|b l IH]; intros k; [done|].
    cbn [length be_bytes from_be].
    assert (0 < 256 ^ Z.of_nat (length l)) by (apply Z.pow_pos_nonneg; lia).
    pose proof (from_be_bound l). pose proof (b2z_range b).
    rewrite Nat2Z.inj_succ, Z.pow_succ_r by lia.
    replace (k * (256 * 256 ^ Z.of_nat (length l))
             + (b2z b * 256 ^ Z.of_nat (length l) + from_be l))
      with ((k * 256 + b2z b) * 256 ^ Z.of_nat (length l) + from_be l) by lia.
    f_equal; [|apply IH].
    rewrite Z.div_add_l by lia. rewrite (Z.div_small (from_be l)) by lia.
    rewrite Z.add_0_r. apply b2z_inj. rewrite b2z_z2b.
    rewrite Z.add_comm, Z.mod_add by lia. by apply Z.mod_small. }
  specialize (Hgen l 0). by rewrite Z.mul_0_l, Z.add_0_l in Hgen.
Qed.

Lemma be_bytes_from_be_len n l : length l = n → be_bytes n (from_be l) = l.
Proof. intros <-. apply be_bytes_from_be. Qed.

Lemma from_be_inj l1 l2 : length l1 = length l2 → from_be l1 = from_be l2 → l1 = l2.
Proof.
  intros Hl He. rewrite <- (be_bytes_from_be l1), <- (be_bytes_from_be l2), Hl, He. done.
Qed.

Lemma be_bytes_inj n z1 z2 :
  0 ≤ z1 < 256 ^ Z.of_nat n → 0 ≤ z2 < 256 ^ Z.of_nat n →
  be_bytes n z1 = be_bytes n z2 → z1 = z2.
Proof.
  intros H1 H2 He. apply (f_equal from_be) in He.
  by rewrite !from_be_be_bytes_small in He.
Qed.

Lemma be_bytes_mod n z : be_bytes n (z mod 256 ^ Z.of_nat n) = be_bytes n z.
Proof.
  assert (0 < 256 ^ Z.of_nat n) by (apply Z.pow_pos_nonneg; lia).
  apply from_be_inj; [by rewrite !length_be_bytes|].
  rewrite !from_be_be_bytes. by rewrite Z.mod_mod by lia.
Qed.

(** ** Machine integers

    Unsigned [w]-bit integers are [Z] in [0, 2^w); [as u64] / [as i64] casts
    reduce modulo [2^64] into the unsigned or the two's-complement range. *)
Definition u16_max : Z := 65535.
Definition u32_max : Z := 4294967295.
Definition u64_max : Z := 18446744073709551615.
Definition i64_max : Z := 9223372036854775807.

Definition wrap (w : Z) (z : Z) : Z := z mod 2 ^ w.
Definition as_u16 (z : Z) : Z := wrap 16 z.
Definition as_u32 (z : Z) : Z := wrap 32 z.
Definition as_u64 (z : Z) : Z := wrap 64 z.
Definition as_i64 (z : Z) : Z := (z + 2 ^ 63) mod 2 ^ 64 - 2 ^ 63.
Definition as_i16 (z : Z) : Z := (z + 2 ^ 15) mod 2 ^ 16 - 2 ^ 15.

Definition in_u (w z : Z) : Prop := 0 ≤ z < 2 ^ w.
Definition in_i64 (z : Z) : Prop := - 2 ^ 63 ≤ z < 2 ^ 63.

Definition saturating_add (maximum a b : Z) : Z := Z.min maximum (a + b).

Lemma as_u64_small z : in_u 64 z → as_u64 z = z.
Proof. apply Z.mod_small. Qed.
Lemma as_u32_small z : in_u 32 z → as_u32 z = z.
Proof. apply Z.mod_small. Qed.
Lemma as_u16_small z : in_u 16 z → as_u16 z = z.
Proof. apply Z.mod_small. Qed.

Lemma as_i64_small z : in_i64 z → as_i64 z = z.
Proof. unfold in_i64, as_i64. intros. rewrite Z.mod_small; lia. Qed.

Lemma as_u64_as_i64 z : in_u 64 z → as_u64 (as_i64 z) = z.
Proof.
  unfold in_u, as_u64, as_i64, wrap. intros Hz.
  rewrite <- Zminus_mod_idemp_l, Z.mod_mod, Zminus_mod_idemp_l by lia.
  rewrite Z.mod_small; lia.
Qed.

Lemma as_i64_range z : in_i64 (as_i64 z).
Proof.
  unfold in_i64, as_i64. pose proof (Z.mod_pos_bound (z + 2^63) (2^64)). lia.
Qed.

Lemma as_i64_nonneg_iff z : in_u 64 z → (0 ≤ as_i64 z ↔ z < 2 ^ 63).
Proof.
  unfold in_u, as_i64. intros Hz. destruct (decide (z < 2 ^ 63)) as [Hlt|Hge].
  - rewrite Z.mod_small by lia. lia.
  - replace (z + 2^63) with ((z - 2^63) + 1 * 2^64) by lia.
    rewrite Z.mod_add by lia. rewrite Z.mod_small by lia. lia.
Qed.

(** ** Fixed-size byte arrays: Rust's [[u8; N]]

    The length is part of the value, as it is part of the Rust type; the
    proof is a boolean equation, hence unique, so arrays with the same bytes
    are equal and [reflexivity] evaluates [try_array] on concrete input. *)
Record array (n : nat) : Type := Array {
  arr :> bytes;
  arr_length : Nat.eqb (length arr) n = true
}.
Arguments Array {n} _ _.
Arguments arr {n} _.
Arguments arr_length {n} _.

Definition try_array (n : nat) (l : bytes) : option (array n) :=
  (if Nat.eqb (length l) n as b return Nat.eqb (length l) n = b → option (array n)
   then λ H, Some (Array l H) else λ _, None) eq_refl.

(** The proof of a true boolean, computing to [eq_refl]. *)
Definition canonical {b : bool} : b = true → b = true :=
  match b return b = true → b = true with true => λ _, eq_refl | false => λ H, H end.
Definition make {n : nat} (l : bytes) (H : length l = n) : array n :=
  Array l (canonical (proj2 (Nat.eqb_eq _ _) H)).

(** [[b; n]], the array of [n] copies of [b]. *)
Definition fill (n : nat) (b : Z) : array n :=
  make (replicate n (z2b b)) (length_replicate n (z2b b)).

Lemma array_length {n} (a : array n) : length (arr a) = n.
Proof. apply Nat.eqb_eq, arr_length. Qed.

Lemma array_eq {n} (a1 a2 : array n) : arr a1 = arr a2 → a1 = a2.
Proof.
  destruct a1 as [l1 H1], a2 as [l2 H2]; simpl. intros ->.
  f_equal. apply (proof_irrel (A := Nat.eqb (length l2) n = true)).
Qed.

#[export] Instance array_eq_dec n : EqDecision (array n).
Proof.
  intros a1 a2. refine (cast_if (decide (arr a1 = arr a2))); [by apply array_eq|congruence].
Defined.

Lemma try_array_spec n l :
  match try_array n l with Some a => arr a = l | None => length l ≠ n end.
Proof.
  unfold try_array.
  exact (match Nat.eqb (length l) n as b
    return (∀ e : Nat.eqb (length l) n = b,
      match (if b as b0 return (Nat.eqb (length l) n = b0 → option (array n))
             then λ H, Some (Array l H) else λ _, None) e
      with Some a => arr a = l | None => length l ≠ n end)
    with true => λ e, eq_refl | false => λ e, proj1 (Nat.eqb_neq _ _) e end eq_refl).
Qed.

Lemma try_array_Some n l (H : length l = n) :
  ∃ a, try_array n l = Some a ∧ arr a = l.
Proof. pose proof (try_array_spec n l). destruct (try_array n l); [eauto|done]. Qed.

Lemma try_array_None n l : length l ≠ n → try_array n l = None.
Proof.
  intros H. pose proof (try_array_spec n l) as Hs.
  destruct (try_array n l) as [a|]; [|done].
  pose proof (array_length a). congruence.
Qed.

Lemma try_array_arr {n} (a : array n) : try_array n (arr a) = Some a.
Proof.
  destruct (try_array_Some n (arr a) (array_length a)) as (a' & -> & Ha).
  f_equal. by apply array_eq.
Qed.

Lemma try_array_inv {n l} {a : array n} : try_array n l = Some a → l = arr a.
Proof.
  intros H. destruct (decide (length l = n)) as [Hl|Hl].
  - destruct (try_array_Some n l Hl) as (a' & Ha & <-). congruence.
  - by rewrite try_array_None in H.
Qed.

#[export] Instance array_countable n : Countable (array n) :=
  inj_countable arr (try_array n) try_array_arr.

(** ** Results: Rust's [Result<T, E>] with [?] as the monadic bind *)
Inductive result (E A : Type) : Type :=
| Ok (a : A)
| Err (e : E).
Arguments Ok {E A} _.
Arguments Err {E A} _.

#[export] Instance result_ret E : MRet (result E) := λ A a, Ok a.
#[export] Instance result_bind E : MBind (result E) := λ A B f r,
  match r with Ok a => f a | Err e => Err e end.
#[export] Instance result_fmap E : FMap (result E) := λ A B f r,
  match r with Ok a => Ok (f a) | Err e => Err e end.

(** [Option::ok_or] and [Result::map_err]. *)
Definition ok_or {E A} (o : option A) (e : E) : result E A :=
  match o with Some a => Ok a | None => Err e end.
Definition map_err {E F A} (f : E → F) (r : result E A) : result F A :=
  match r with Ok a => Ok a | Err e => Err (f e) end.
Definition is_ok {E A} (r : result E A) : bool :=
  match r with Ok _ => true | Err _ => false end.
(** A Rust guard [if !cond { return Err(e) }]. *)
Definition ensure {E} (c : bool) (e : E) : result E unit :=
  if c then Ok tt else Err e.

(** [iter().map(f).collect::<Result<Vec<_>, _>>()]: the first error wins. *)
Fixpoint collect {E A B} (f : A → result E B) (l : list A) : result E (list B) :=
  match l with
  | [] => Ok []
  | x :: l' => y ← f x; ys ← collect f l'; Ok (y :: ys)
  end.

(** Close arithmetic and first-order leftovers of a case analysis. *)
Ltac crush_arith := intuition (try congruence; try lia).

Lemma bind_Ok {E A B} (f : A → result E B) (r : result E A) b :
  (r ≫= f) = Ok b → ∃ a, r = Ok a ∧ f a = Ok b.
Proof. destruct r; [eauto|discriminate]. Qed.

Lemma ok_or_Ok {E A} (o : option A) (e : E) a : ok_or o e = Ok a ↔ o = Some a.
Proof. destruct o; simpl; split; congruence. Qed.

Lemma ensure_Ok {E} c (e : E) u : ensure c e = Ok u → c = true.
Proof. by destruct c. Qed.

Lemma map_err_Ok {E F A} (f : E → F) (r : result E A) a :
  map_err f r = Ok a ↔ r = Ok a.
Proof. destruct r; simpl; split; congruence. Qed.

Lemma collect_Ok {E A B} (f : A → result E B) l ys :
  collect f l = Ok ys ↔ Forall2 (λ x y, f x = Ok y) l ys.
Proof.
  revert ys. induction l as [|x l IH]; intros ys; simpl.
  - split; [intros [= <-]; constructor|inversion 1; done].
  - split.
    + intros (y & Hy & (ys' & Hys & [= <-])%bind_Ok)%bind_Ok.
      constructor; [done|]. by apply IH.
    + inversion 1 as [|? ? ? ys' Hy Hys]; subst. rewrite Hy. simpl.
      by rewrite (proj2 (IH _) Hys).
Qed.

Lemma collect_map_Ok {E A B} (f : A → result E B) (g : A → B) l :
  (∀ x, x ∈ l → f x = Ok (g x)) → collect f l = Ok (g <$> l).
Proof.
  intros H. apply collect_Ok. induction l as [|x l IH]; [constructor|].
  constructor; [apply H; left|]. apply IH. intros y Hy. apply H. by right.
Qed.

(** A key without duplicates identifies its element. *)
Lemma NoDup_key_inj {A K} (f : A → K) l x y :
  NoDup (f <$> l) → x ∈ l → y ∈ l → f x = f y → x = y.
Proof.
  induction l as [|z l IH]; intros Hn Hx Hy Hf; [by apply not_elem_of_nil in Hx|].
  rewrite fmap_cons in Hn. apply NoDup_cons in Hn as [Hz Hn].
  apply elem_of_cons in Hx as [->|Hx], Hy as [->|Hy]; [done| | |by apply IH].
  - destruct Hz. rewrite Hf. by apply list_elem_of_fmap_2.
  - destruct Hz. rewrite <- Hf. by apply list_elem_of_fmap_2.
Qed.

(** Pointwise relations between lists. *)
Lemma Forall2_same {A} (R : A → A → Prop) l : (∀ x, x ∈ l → R x x) → Forall2 R l l.
Proof.
  induction l as [|x l IH]; intros H; constructor; [apply H; left|].
  apply IH. intros y Hy. apply H. by right.
Qed.

Lemma Forall2_elem_l {A B} (R : A → B → Prop) l k :
  Forall2 R l k → Forall2 (λ x y, x ∈ l ∧ R x y) l k.
Proof.
  induction 1 as [|x y l k Hxy Hlk IH]; constructor; [split; [left|done]|].
  eapply Forall2_impl; [exact IH|]. intros a b [? ?]. split; [by right|done].
Qed.

(** ** UTF-8: [std::str::from_utf8] and [String]

    [utf8_valid] is the validity check of the standard library (RFC 3629: no
    overlong forms, no surrogates, nothing above U+10FFFF).  A Rust [String] or
    [&str] is a byte string with that check's proof. *)
Definition in_range (lo hi : Z) (b : byte) : bool :=
  (lo <=? b2z b) && (b2z b <=? hi).
Definition continuation (b : byte) : bool := in_range 128 191 b.

Fixpoint utf8_valid (l : bytes) : bool :=
  match l with
  | [] => true
  | b0 :: l1 =>
      if in_range 0 127 b0 then utf8_valid l1
      else match l1 with
      | [] => false
      | b1 :: l2 =>
          if in_range 194 223 b0 then continuation b1 && utf8_valid l2
          else match l2 with
          | [] => false
          | b2 :: l3 =>
              if in_range 224 239 b0 then
                (if b2z b0 =? 224 then in_range 160 191 b1
                 else if b2z b0 =? 237 then in_range 128 159 b1
                 else continuation b1) && continuation b2 && utf8_valid l3
              else match l3 with
              | [] => false
              | b3 :: l4 =>
                  in_range 240 244 b0
                  && (if b2z b0 =? 240 then in_range 144 191 b1
                      else if b2z b0 =? 244 then in_range 128 143 b1
                      else continuation b1)
                  && continuation b2 && continuation b3 && utf8_valid l4
              end
          end
      end
  end.

Record str : Type := Str { str_bytes :> bytes; str_valid : utf8_valid str_bytes = true }.

Definition from_utf8 (l : bytes) : option str :=
  (if utf8_valid l as b return utf8_valid l = b → option str
   then λ H, Some (Str l H) else λ _, None) eq_refl.

Lemma str_eq (s1 s2 : str) : str_bytes s1 = str_bytes s2 → s1 = s2.
Proof.
  destruct s1 as [l1 H1], s2 as [l2 H2]; simpl. intros ->.
  f_equal. apply (proof_irrel (A := utf8_valid l2 = true)).
Qed.

#[export] Instance str_eq_dec : EqDecision str.
Proof.
  intros s1 s2. refine (cast_if (decide (str_bytes s1 = str_bytes s2)));
    [by apply str_eq|congruence].
Defined.

Lemma from_utf8_spec l :
  match from_utf8 l with Some s => str_bytes s = l | None => utf8_valid l = false end.
Proof.
  unfold from_utf8.
  exact (match utf8_valid l as b
    return (∀ e : utf8_valid l = b,
      match (if b as b0 return (utf8_valid l = b0 → option str)
             then λ H, Some (Str l H) else λ _, None) e
      with Some s => str_bytes s = l | None => utf8_valid l = false end)
    with true => λ e, eq_refl | false => λ e, e end eq_refl).
Qed.

Lemma from_utf8_str (s : str) : from_utf8 (str_bytes s) = Some s.
Proof.
  pose proof (from_utf8_spec (str_bytes s)) as Hs.
  destruct (from_utf8 (str_bytes s)); [f_equal; by apply str_eq|].
  by rewrite str_valid in Hs.
Qed.

Lemma from_utf8_inv {l s} : from_utf8 l = Some s → str_bytes s = l.
Proof. intros H. pose proof (from_utf8_spec l) as Hs. by rewrite H in Hs. Qed.

(** [str::starts_with] on the byte representation. *)
Fixpoint starts_with (prefix l : bytes) : bool :=
  match prefix, l with
  | [], _ => true
  | _, [] => false
  | p :: prefix', b :: l' => bool_decide (p = b) && starts_with prefix' l'
  end.

Lemma starts_with_app prefix l : starts_with prefix l = true ↔ ∃ r, l = prefix ++ r.
Proof.
  revert l. induction prefix as [|p prefix IH]; intros l; simpl; [by split; eauto|].
  destruct l as [|b l]; [by split; [|intros [? ?]]|].
  rewrite andb_true_iff, bool_decide_eq_true, IH. split.
  - intros (-> & r & ->). by exists r.
  - intros (r & [= -> ->]). by split; [|exists r].
Qed.

(** Byte-string literals [b"..."] of the source. *)
Definition lit (s : string) : bytes := String.list_byte_of_string s.
Arguments lit s%_string.

(** ** Stable sorting: [slice::sort_by_key]

    Rust's sort is stable, so it computes the same list as insertion sort. *)
Section StableSort.
Context {A : Type} (leb : A → A → bool).

Fixpoint insert_sorted (x : A) (l : list A) : list A :=
  match l with
  | [] => [x]
  | y :: l' => if leb x y then x :: y :: l' else y :: insert_sorted x l'
  end.
Definition stable_sort (l : list A) : list A := foldr insert_sorted [] l.

Definition sorted_by : list A → Prop := StronglySorted (λ x y, leb x y = true).

Lemma insert_sorted_perm x l : insert_sorted x l ≡ₚ x :: l.
Proof.
  induction l as [|y l IH]; simpl; [done|].
  case_match; [done|]. rewrite IH. apply Permutation_swap.
Qed.

Lemma stable_sort_perm l : stable_sort l ≡ₚ l.
Proof.
  induction l as [|x l IH]; simpl; [done|]. by rewrite insert_sorted_perm, IH.
Qed.

Lemma stable_sort_sorted_id l : sorted_by l → stable_sort l = l.
Proof.
  induction 1 as [|x l Hl IH Hx]; simpl; [done|]. rewrite IH.
  destruct l as [|y l]; simpl; [done|].
  by rewrite (proj1 (proj1 (Forall_cons _ _ _) Hx)).
Qed.

(** What is sorted and comes after everything stays at the end. *)
Lemma insert_sorted_app x l k :
  Forall (λ y, leb x y = true) k → insert_sorted x (l ++ k) = insert_sorted x l ++ k.
Proof.
  intros Hk. induction l as [|y l IH]; cbn.
  - destruct k as [|y k]; [done|]. cbn. apply Forall_cons in Hk as [-> _]. done.
  - destruct (leb x y); [done|]. by rewrite IH.
Qed.
Lemma stable_sort_app l k :
  sorted_by k → (∀ x y, x ∈ l → y ∈ k → leb x y = true) → stable_sort (l ++ k) = stable_sort l ++ k.
Proof.
  intros Hk. induction l as [|x l IH]; intros H; [by apply stable_sort_sorted_id|].
  change (stable_sort ((x :: l) ++ k)) with (insert_sorted x (stable_sort (l ++ k))).
  rewrite IH by (intros y z Hy; apply H; by right). apply insert_sorted_app.
  apply Forall_forall. intros y Hy. apply H; [left|done].
Qed.

Context (leb_total : ∀ x y, leb x y = true ∨ leb y x = true).
Context (leb_trans : ∀ x y z, leb x y = true → leb y z = true → leb x z = true).

Lemma insert_sorted_sorted x l : sorted_by l → sorted_by (insert_sorted x l).
Proof.
  induction 1 as [|y l Hl IH Hy]; simpl; [repeat constructor|].
  destruct (leb x y) eqn:E.
  - constructor; [by constructor|]. constructor; [done|].
    eapply Forall_impl; [exact Hy|]. intros z Hz. by eapply leb_trans.
  - constructor; [done|]. rewrite insert_sorted_perm. constructor; [|done].
    destruct (leb_total x y); congruence.
Qed.

Lemma stable_sort_sorted l : sorted_by (stable_sort l).
Proof. induction l; simpl; [constructor|]. by apply insert_sorted_sorted. Qed.

Lemma stable_sort_idemp l : stable_sort (stable_sort l) = stable_sort l.
Proof. apply stable_sort_sorted_id, stable_sort_sorted. Qed.

(** Without ties a sorted permutation is unique, so the order of the input
    does not matter. *)
Lemma sorted_perm_unique l1 l2 :
  sorted_by l1 → sorted_by l2 → l1 ≡ₚ l2 →
  (∀ x y, x ∈ l1 → y ∈ l1 → leb x y = true → leb y x = true → x = y) → l1 = l2.
Proof.
  intros H1. revert l2. induction H1 as [|x l1 Hl IH Hx]; intros l2 H2 Hp Hanti.
  - by apply Permutation_nil_l in Hp.
  - destruct l2 as [|y l2]; [by apply Permutation_nil_r in Hp|].
    inversion H2 as [|? ? Hl2 Hy]; subst.
    assert (x = y) as <-.
    { assert (Hxy : x ∈ y :: l2) by (rewrite <- Hp; left).
      assert (Hyx : y ∈ x :: l1) by (rewrite Hp; left).
      apply elem_of_cons in Hxy as [->|Hxy]; [done|].
      pose proof Hyx as Hyx'. apply elem_of_cons in Hyx' as [->|Hyx']; [done|].
      rewrite Forall_forall in Hx, Hy.
      apply Hanti; [left|done|by apply Hx|by apply Hy]. }
    f_equal. apply IH; [done|by eapply Permutation_cons_inv|].
    intros a b Ha Hb. apply Hanti; by right.
Qed.
End StableSort.

(** Sorting pointwise related lists by related orders. *)
Section StableSortRelated.
Context {A B : Type} (R : A → B → Prop) (leb : A → A → bool) (leb' : B → B → bool).
Context (Hleb : ∀ x y x' y', R x x' → R y y' → leb x y = leb' x' y').

Lemma insert_sorted_Forall2 x x' l l' :
  R x x' → Forall2 R l l' → Forall2 R (insert_sorted leb x l) (insert_sorted leb' x' l').
Proof using Hleb.
  intros Hx. induction 1 as [|y y' l l' Hy Hl IH]; cbn; [by repeat constructor|].
  rewrite <- (Hleb x y x' y') by done. destruct (leb x y); by repeat constructor.
Qed.
Lemma stable_sort_Forall2 l l' :
  Forall2 R l l' → Forall2 R (stable_sort leb l) (stable_sort leb' l').
Proof using Hleb. induction 1; cbn; [constructor|]. by apply insert_sorted_Forall2. Qed.
End StableSortRelated.

Lemma filter_Forall2 {A B} (R : A → B → Prop) (p : A → bool) (q : B → bool) l k :
  (∀ x y, R x y → p x = q y) → Forall2 R l k → Forall2 R (List.filter p l) (List.filter q k).
Proof.
  intros Hpq. induction 1 as [|x y l k Hxy Hlk IH]; cbn; [constructor|].
  rewrite (Hpq x y Hxy). destruct (q y); [by constructor|done].
Qed.

Lemma collect_Forall2 {E A B C} (R : A → B → Prop) (f : A → result E C) (g : B → result E C) l k :
  (∀ x y, R x y → f x = g y) → Forall2 R l k → collect f l = collect g k.
Proof.
  intros Hfg. induction 1 as [|x y l k Hxy Hlk IH]; cbn; [done|]. by rewrite (Hfg x y Hxy), IH.
Qed.

Lemma collect_Err {E A B} (f : A → result E B) l x e :
  x ∈ l → f x = Err e → (∀ y e', y ∈ l → f y = Err e' → e' = e) → collect f l = Err e.
Proof.
  induction l as [|y l IH]; intros Hx Hf Hall; [by apply not_elem_of_nil in Hx|]. cbn.
  destruct (f y) as [b|e'] eqn:E'; cbn.
  - apply elem_of_cons in Hx as [->|Hx]; [congruence|].
    rewrite IH; [done..|]. intros z e' Hz. apply Hall. by right.
  - f_equal. eapply Hall; [left|done].
Qed.

(** What comes first is least. *)
Lemma stable_sort_head_least {A} (leb : A → A → bool) l x :
  (∀ y z, leb y z = true ∨ leb z y = true) →
  (∀ y z w, leb y z = true → leb z w = true → leb y w = true) →
  head (stable_sort leb l) = Some x → x ∈ l ∧ ∀ y, y ∈ l → leb x y = true.
Proof.
  intros Htot Htr Hx. pose proof (stable_sort_sorted leb Htot Htr l) as Hs.
  pose proof (stable_sort_perm leb l) as Hp.
  destruct (stable_sort leb l) as [|y k]; [done|]. injection Hx as ->. split; [rewrite <- Hp; left|].
  intros y Hy. rewrite <- Hp in Hy. apply elem_of_cons in Hy as [->|Hy]; [by destruct (Htot x x)|].
  inversion Hs as [|? ? _ Hall]; subst. rewrite Forall_forall in Hall. by apply Hall.
Qed.

(** The unique least element comes first. *)
Lemma stable_sort_head {A} (leb : A → A → bool) l x :
  (∀ y z, leb y z = true ∨ leb z y = true) →
  (∀ y z w, leb y z = true → leb z w = true → leb y w = true) →
  x ∈ l → (∀ y, y ∈ l → leb y x = true → y = x) → head (stable_sort leb l) = Some x.
Proof.
  intros Htot Htr Hx Hmin. pose proof (stable_sort_sorted leb Htot Htr l) as Hs.
  pose proof (stable_sort_perm leb l) as Hp. rewrite <- Hp in Hx.
  destruct (stable_sort leb l) as [|y k]; [by apply not_elem_of_nil in Hx|]. cbn. f_equal.
  apply Hmin; [rewrite <- Hp; left|]. apply elem_of_cons in Hx as [->|Hx].
  - by destruct (Htot y y).
  - inversion Hs as [|? ? _ Hall]; subst. rewrite Forall_forall in Hall. by apply Hall.
Qed.

(** Lexicographic comparison of byte arrays ([Ord] of [[u8; N]]). *)
Fixpoint bytes_leb (l1 l2 : bytes) : bool :=
  match l1, l2 with
  | [], _ => true
  | _ :: _, [] => false
  | b1 :: l1', b2 :: l2' =>
      (b2z b1 <? b2z b2) || ((b2z b1 =? b2z b2) && bytes_leb l1' l2')
  end.

Lemma bytes_leb_total l1 l2 : bytes_leb l1 l2 = true ∨ bytes_leb l2 l1 = true.
Proof.
  revert l2. induction l1 as [|b1 l1 IH]; intros [|b2 l2]; simpl; [tauto..|].
  destruct (IH l2) as [H|H]; rewrite H; pose proof (Z.lt_trichotomy (b2z b1) (b2z b2)); lia.
Qed.

Lemma bytes_leb_trans l1 l2 l3 :
  bytes_leb l1 l2 = true → bytes_leb l2 l3 = true → bytes_leb l1 l3 = true.
Proof.
  revert l2 l3. induction l1 as [|b1 l1 IH]; intros [|b2 l2] [|b3 l3]; simpl; try done.
  intros H1 H2. specialize (IH l2 l3).
  destruct (bytes_leb l1 l2), (bytes_leb l2 l3), (bytes_leb l1 l3); lia.
Qed.

Lemma bytes_leb_antisym l1 l2 :
  bytes_leb l1 l2 = true → bytes_leb l2 l1 = true → l1 = l2.
Proof.
  revert l2. induction l1 as [|b1 l1 IH]; intros [|b2 l2]; simpl; try done.
  intros H1 H2. assert (b2z b1 = b2z b2) as Hb by lia.
  f_equal; [by apply b2z_inj|].
  apply IH; [destruct (bytes_leb l1 l2)|destruct (bytes_leb l2 l1)]; lia.
Qed.
