(* ===== verification/Cursor.v ===== *)
(** * Cursor: the byte readers of the code

    Three crates carry the same reader: [Decoder] of messenger-protocol,
    [DirectoryReader] of messenger-transport and [Reader] of core-api, each a
    borrowed slice with a position whose [take] is
    [position.checked_add(n)] followed by [bytes.get(position..end)].  They
    differ in the error they return.  This file models that reader once, for
    any error, as a state-and-error monad, proves that it refines the parser
    that works on the remaining suffix, and states as a type class what an
    encoder and a reader promise to each other ([Codec]). *)
From Stdlib Require Import ZArith Lia.
From stdpp Require Import base gmap sets list strings.
From S2P Require Import Prelude.

Record cursor : Type := Cursor { cbytes : bytes; cpos : Z }.

(** [slice.get(i..j)] *)
Definition slice (b : bytes) (i j : Z) : option bytes :=
  if (i <=? j) && (j <=? Z.of_nat (length b))
  then Some (take (Z.to_nat (j - i)) (drop (Z.to_nat i) b)) else None.

(** [usize::checked_add] on a 64-bit target. *)
Definition checked_add (a b : Z) : option Z :=
  if a + b <=? u64_max then Some (a + b) else None.

Definition parser (E A : Type) : Type := cursor → result E (A * cursor).

#[export] Instance parser_ret E : MRet (parser E) := λ A a c, Ok (a, c).
#[export] Instance parser_bind E : MBind (parser E) := λ A B f p c,
  match p c with Ok (a, c') => f a c' | Err e => Err e end.

(** A result used inside a reader function with [?]. *)
Definition plift {E A} (r : result E A) : parser E A := λ c,
  match r with Ok a => Ok (a, c) | Err e => Err e end.

(** A whole decoding function: run the reader on an input, keep the value. *)
Definition run_parser {E A} (p : parser E A) (input : bytes) : result E A :=
  match p (Cursor input 0) with Ok (a, _) => Ok a | Err e => Err e end.

Section Take.
Context {E : Type} (overrun : E).

Definition ptake (n : Z) : parser E bytes := λ c,
  match checked_add (cpos c) n with
  | None => Err overrun
  | Some stop =>
      match slice (cbytes c) (cpos c) stop with
      | None => Err overrun
      | Some r => Ok (r, Cursor (cbytes c) stop)
      end
  end.

(** [finish]: the reader must have consumed everything. *)
Definition pfinish (trailing : E) : parser E unit := λ c,
  if cpos c =? Z.of_nat (length (cbytes c)) then Ok (tt, c) else Err trailing.

(** [self.take(N)?.try_into()] *)
Definition parray (bad : E) (n : nat) : parser E (array n) :=
  l ← ptake (Z.of_nat n); plift (ok_or (try_array n l) bad).
End Take.

(** ** The suffix view *)

(** A Rust slice holds at most [isize::MAX] bytes. *)
Definition fits (b : bytes) : Prop := Z.of_nat (length b) ≤ i64_max.

(** The cursor that has read [pre] and has [rest] ahead of it. *)
Definition at_ (pre rest : bytes) : cursor :=
  Cursor (pre ++ rest) (Z.of_nat (length pre)).

Lemma at_start b : Cursor b 0 = at_ [] b.
Proof. done. Qed.

Lemma fits_app_r pre a b : fits (pre ++ a ++ b) → fits ((pre ++ a) ++ b).
Proof. by rewrite app_assoc. Qed.

Lemma fits_app_l pre a b : fits ((pre ++ a) ++ b) → fits (pre ++ a ++ b).
Proof. by rewrite app_assoc. Qed.

(** [take] on the positioned slice is splitting the remaining suffix. *)
Lemma ptake_at {E} (e : E) n pre s :
  fits (pre ++ s) → 0 ≤ n ≤ i64_max →
  ptake e n (at_ pre s) =
    if n <=? Z.of_nat (length s)
    then Ok (take (Z.to_nat n) s, at_ (pre ++ take (Z.to_nat n) s) (drop (Z.to_nat n) s))
    else Err e.
Proof.
  unfold fits, ptake, checked_add, slice, at_, i64_max, u64_max. cbn [cpos cbytes].
  rewrite length_app. intros Hf Hn.
  destruct (Z.leb_spec (Z.of_nat (length pre) + n) 18446744073709551615); [|lia].
  rewrite length_app.
  destruct (Z.leb_spec (Z.of_nat (length pre)) (Z.of_nat (length pre) + n)); [|lia].
  destruct (Z.leb_spec (Z.of_nat (length pre) + n) (Z.of_nat (length pre + length s))),
    (Z.leb_spec n (Z.of_nat (length s))); try lia; [|done]; cbn [andb].
  rewrite Nat2Z.id, drop_app_length.
  replace (Z.to_nat (Z.of_nat (length pre) + n - Z.of_nat (length pre)))
    with (Z.to_nat n) by lia.
  assert (Z.of_nat (length pre) + n = Z.of_nat (length (pre ++ take (Z.to_nat n) s)))
    as -> by (rewrite length_app, length_take; lia).
  by rewrite length_app, <- app_assoc, take_drop.
Qed.

Lemma ptake_app {E} (e : E) n pre r rest :
  fits (pre ++ r ++ rest) → n = Z.of_nat (length r) →
  ptake e n (at_ pre (r ++ rest)) = Ok (r, at_ (pre ++ r) rest).
Proof.
  intros Hf ->. assert (Z.of_nat (length r) ≤ i64_max).
  { unfold fits in Hf. rewrite !length_app in Hf. lia. }
  rewrite ptake_at by (done || lia). rewrite length_app.
  rewrite (proj2 (Z.leb_le _ _)) by lia.
  by rewrite Nat2Z.id, take_app_length, drop_app_length.
Qed.

Lemma ptake_at_Ok {E} (e : E) n pre s r c :
  0 ≤ n → ptake e n (at_ pre s) = Ok (r, c) →
  ∃ rest, s = r ++ rest ∧ c = at_ (pre ++ r) rest ∧ Z.of_nat (length r) = n.
Proof.
  unfold ptake, checked_add, slice, at_. cbn [cpos cbytes]. intros Hn H.
  destruct (_ <=? u64_max); [|done]. rewrite length_app in H.
  destruct (_ && _) eqn:Hle in H; [|done].
  apply andb_true_iff in Hle as [_ Hle%Z.leb_le].
  rewrite Nat2Z.id, drop_app_length in H.
  replace (Z.to_nat (Z.of_nat (length pre) + n - Z.of_nat (length pre)))
    with (Z.to_nat n) in H by lia.
  injection H as <- <-. exists (drop (Z.to_nat n) s).
  split_and!.
  - by rewrite take_drop.
  - f_equal; [by rewrite <- app_assoc, take_drop|].
    rewrite length_app, length_take. lia.
  - rewrite length_take. lia.
Qed.

Lemma parray_app {E} (e bad : E) {n} (a : array n) pre rest :
  fits (pre ++ arr a ++ rest) →
  parray e bad n (at_ pre (arr a ++ rest)) = Ok (a, at_ (pre ++ arr a) rest).
Proof.
  intros Hf. unfold parray, mbind, parser_bind.
  rewrite ptake_app by (done || by rewrite array_length).
  unfold plift. by rewrite try_array_arr.
Qed.

Lemma pfinish_at {E} (e : E) pre rest :
  pfinish e (at_ pre rest) = match rest with [] => Ok (tt, at_ pre rest) | _ => Err e end.
Proof.
  unfold pfinish, at_. cbn [cpos cbytes]. rewrite length_app.
  destruct rest; simpl.
  - by rewrite (proj2 (Z.eqb_eq _ _)) by lia.
  - by rewrite (proj2 (Z.eqb_neq _ _)) by lia.
Qed.

Lemma pbind_Ok {E A B} (f : A → parser E B) (p : parser E A) c b c' :
  (p ≫= f) c = Ok (b, c') → ∃ a c1, p c = Ok (a, c1) ∧ f a c1 = Ok (b, c').
Proof. unfold mbind, parser_bind. destruct (p c) as [[a c1]|]; [eauto|done]. Qed.

Lemma plift_Ok {E A} (r : result E A) c a c' :
  plift r c = Ok (a, c') ↔ r = Ok a ∧ c' = c.
Proof. destruct r; simpl; split; [intros [= -> ->]|intros [[= ->] ->]|done|intros [? _]]; done. Qed.

(** ** Codecs: what an encoder and a reader promise to each other

    [codec_decode]: reading back what was written gives the value and leaves
    the rest.  [codec_canonical]: the reader accepts a value only in the form
    the encoder writes, so every accepted input is the encoding of its value. *)
Class Codec {E A} (enc : A → bytes) (dec : parser E A) (valid : A → Prop) : Prop := {
  codec_decode pre a rest :
    valid a → fits (pre ++ enc a ++ rest) →
    dec (at_ pre (enc a ++ rest)) = Ok (a, at_ (pre ++ enc a) rest);
  codec_canonical pre s a c :
    dec (at_ pre s) = Ok (a, c) →
    valid a ∧ ∃ rest, s = enc a ++ rest ∧ c = at_ (pre ++ enc a) rest
}.

#[export] Instance array_codec {E} (e bad : E) n :
  Codec (arr (n := n)) (parray e bad n) (λ _, True).
Proof.
  constructor.
  - intros. by apply parray_app.
  - intros pre s a c (l & c1 & Ht & Hp)%pbind_Ok.
    apply ptake_at_Ok in Ht as (rest & -> & -> & _); [|lia].
    apply plift_Ok in Hp as [Ha ->]. rewrite ok_or_Ok in Ha.
    apply try_array_inv in Ha as ->. eauto.
Qed.

(** [uN::from_be_bytes(self.array()?)] for an [n]-byte integer. *)
Definition pbe {E} (e bad : E) (n : nat) : parser E Z :=
  a ← parray e bad n; mret (from_be (arr a)).

#[export] Instance be_codec {E} (e bad : E) n :
  Codec (be_bytes n) (pbe e bad n) (λ z, 0 ≤ z < 256 ^ Z.of_nat n).
Proof.
  constructor.
  - intros pre z rest Hz Hf.
    destruct (try_array_Some n (be_bytes n z) (length_be_bytes n z)) as (a & _ & Ha).
    unfold pbe, mbind, parser_bind. rewrite <- Ha in Hf |- *.
    rewrite parray_app by done. unfold mret, parser_ret.
    rewrite Ha. by rewrite from_be_be_bytes_small.
  - intros pre s z c (a & c1 & Ha & [= <- <-])%pbind_Ok.
    apply codec_canonical in Ha as (_ & rest & -> & ->).
    rewrite be_bytes_from_be_len by apply array_length.
    split; [|by eauto]. pose proof (from_be_bound a) as Hb.
    by rewrite array_length in Hb.
Qed.

(** One reader step on a cursor known to start with an encoding; the reader is
    named explicitly, the instance gives its encoder. *)
Lemma pbind_codec {E A B} enc (dec : parser E A) valid `{!Codec enc dec valid}
    (k : A → parser E B) pre a rest :
  valid a → fits (pre ++ enc a ++ rest) →
  (dec ≫= k) (at_ pre (enc a ++ rest)) = k a (at_ (pre ++ enc a) rest).
Proof.
  intros Hv Hf. unfold mbind, parser_bind. by rewrite codec_decode by done.
Qed.

Lemma plift_bind {E A B} (r : result E A) (k : A → parser E B) c :
  (plift r ≫= k) c = match r with Ok a => k a c | Err e => Err e end.
Proof. by destruct r. Qed.

Lemma pfinish_bind {E B} (e : E) (k : unit → parser E B) pre :
  (pfinish e ≫= k) (at_ pre []) = k tt (at_ pre []).
Proof. unfold mbind, parser_bind. by rewrite pfinish_at. Qed.

Lemma pfinish_bind_Ok {E B} (e : E) (k : unit → parser E B) pre s b c :
  (pfinish e ≫= k) (at_ pre s) = Ok (b, c) → s = [] ∧ k tt (at_ pre s) = Ok (b, c).
Proof. unfold mbind, parser_bind. rewrite pfinish_at. by destruct s. Qed.

Lemma run_parser_Ok {E A} (p : parser E A) input a :
  run_parser p input = Ok a ↔ ∃ c, p (at_ [] input) = Ok (a, c).
Proof.
  unfold run_parser. rewrite at_start. destruct (p _) as [[a' c]|].
  - split; [intros [= ->]; eauto|by intros (c' & [= -> _])].
  - split; [done|by intros (c' & ?)].
Qed.

Ltac solve_fits := unfold fits in *; rewrite ?length_app in *; simpl length in *; lia.

(** [parse_read dec a]: the next item is the encoding of [a]. *)
Tactic Notation "parse_read" constr(dec) constr(a) :=
  let inst := constr:(_ : Codec _ dec _) in
  rewrite (pbind_codec _ dec _ (Codec0 := inst) _ _ a); [|first [done|unfold in_u, len in *; lia]|solve_fits].

(** [parse_inv H dec]: in [H] the reader [dec] succeeded; learn what it read. *)
Ltac parse_inv H :=
  let a := fresh "a" in let c := fresh "c" in let Ha := fresh "Ha" in
  let Hv := fresh "Hv" in let rest := fresh "rest" in
  apply pbind_Ok in H as (a & c & Ha & H);
  first
    [ apply codec_canonical in Ha as (Hv & rest & -> & ->)
    | apply plift_Ok in Ha as [Ha ->] ].

(** ** Truncated input

    A reader given a proper prefix of an encoding runs out of bytes. *)
Class Truncating {E A} (enc : A → bytes) (dec : parser E A) (valid : A → Prop) (e : E) : Prop :=
  truncating pre p q a :
    valid a → enc a = p ++ q → q ≠ [] → fits (pre ++ p) → dec (at_ pre p) = Err e.

Lemma ptake_short {E} (e : E) n pre s :
  fits (pre ++ s) → Z.of_nat (length s) < n ≤ i64_max → ptake e n (at_ pre s) = Err e.
Proof.
  intros Hf Hn. rewrite ptake_at by (done || lia).
  by destruct (Z.leb_spec n (Z.of_nat (length s))); [lia|].
Qed.

Lemma app_proper_prefix {A} (x p q : list A) :
  x = p ++ q → q ≠ [] → (length p < length x)%nat.
Proof. intros -> Hq. rewrite length_app. destruct q; [done|]. simpl. lia. Qed.

(** A prefix of [x ++ rest] stops inside [x] or goes past it. *)
Lemma prefix_cases {A} (x rest p q : list A) :
  x ++ rest = p ++ q →
  (∃ q', x = p ++ q' ∧ q' ≠ []) ∨ (∃ p', p = x ++ p' ∧ rest = p' ++ q).
Proof.
  revert x. induction p as [|b p IH]; intros x H.
  - destruct x as [|a x]; [right; by exists []|left; by exists (a :: x)].
  - destruct x as [|a x]; [right; by exists (b :: p)|].
    injection H as -> H. destruct (IH x H) as [(q' & -> & Hq)|(p' & -> & ->)];
      [left; by exists q'|right; by exists p'].
Qed.

Lemma pbind_truncating {E A B} enc (dec : parser E A) valid e `{!Truncating enc dec valid e}
    (k : A → parser E B) pre p q a :
  valid a → enc a = p ++ q → q ≠ [] → fits (pre ++ p) → (dec ≫= k) (at_ pre p) = Err e.
Proof. intros. unfold mbind, parser_bind. by erewrite truncating. Qed.

#[export] Instance array_truncating {E} (e bad : E) n :
  Z.of_nat n ≤ i64_max → Truncating (arr (n := n)) (parray e bad n) (λ _, True) e.
Proof.
  intros Hn pre p q a _ Ha Hq Hf. unfold parray, mbind, parser_bind.
  pose proof (app_proper_prefix _ _ _ Ha Hq). rewrite array_length in *.
  by rewrite ptake_short by (done || lia).
Qed.

Lemma pbe_short {E} (e bad : E) n pre s :
  fits (pre ++ s) → (length s < n)%nat → Z.of_nat n ≤ i64_max →
  pbe e bad n (at_ pre s) = Err e.
Proof.
  intros Hf Hs Hn. unfold pbe, parray, mbind, parser_bind.
  by rewrite ptake_short by (done || lia).
Qed.

(** [parse_trunc Hp dec a]: in [Hp : enc a ++ rest = p ++ q] either the input
    ends inside [a], which closes the goal, or [dec] reads [a] and the proof
    goes on with what follows. *)
Tactic Notation "parse_trunc" hyp(Hp) constr(dec) constr(a) :=
  let inst := constr:(_ : Truncating _ dec _ _) in
  let q' := fresh "q'" in let p' := fresh "p'" in
  let Hin := fresh "Hin" in let Hq' := fresh "Hq'" in let Hrest := fresh "Hrest" in
  apply prefix_cases in Hp as [(q' & Hin & Hq')|(p' & -> & Hrest)];
  [ apply (pbind_truncating _ dec _ _ (Truncating0 := inst) _ _ _ q' a);
    [first [done|unfold in_u, len in *; lia]|exact Hin|exact Hq'|solve_fits]
  | parse_read dec a; rename Hrest into Hp ].

(** ** Repetition: [for _ in 0..count] *)
Fixpoint prepeat {E A} (p : parser E A) (n : nat) : parser E (list A) :=
  match n with
  | O => mret []
  | S n' => x ← p; xs ← prepeat p n'; mret (x :: xs)
  end.

#[export] Instance repeat_codec {E A} enc (dec : parser E A) valid n
    `{!Codec enc dec valid} :
  Codec (λ l, concat (enc <$> l)) (prepeat dec n) (λ l, length l = n ∧ Forall valid l).
Proof.
  constructor.
  - induction n as [|n IH]; intros pre l rest [Hl Hv] Hf;
      (destruct l as [|x l]; try discriminate Hl; cbn [fmap list_fmap concat] in *).
    + by rewrite app_nil_r.
    + apply Forall_cons in Hv as [Hx Hv]. injection Hl as Hl.
      cbn [prepeat]. rewrite <- app_assoc in Hf |- *.
      rewrite (pbind_codec enc dec valid) by done.
      unfold mbind, parser_bind. rewrite IH; [|done|by rewrite <- app_assoc].
      by rewrite <- app_assoc.
  - induction n as [|n IH]; intros pre s l c H.
    + injection H as <- <-. cbn. split; [by split|]. exists s. by rewrite app_nil_r.
    + cbn [prepeat] in H. parse_inv H.
      apply pbind_Ok in H as (l' & c' & Hl & [= <- <-]).
      apply IH in Hl as ([<- Hl] & rest' & -> & ->). cbn [fmap list_fmap concat length].
      split; [by split; [|constructor]|]. exists rest'. by rewrite <- !app_assoc.
Qed.
