(* ===== verification/Protocol.v ===== *)
(** * Protocol: the v1 wire format of messenger-protocol

    Models crates/messenger-protocol/src/lib.rs: the frame and application
    type tags, the canonical-CBOR [Encoder] and [Decoder], [TransportFrame] and
    [ApplicationEnvelope].  The Rust paths are kept as module paths:
    [TransportFrame::decode] is [TransportFrame.decode]. *)
From Stdlib Require Import ZArith Lia.
From stdpp Require Import base gmap sets list strings.
From S2P Require Import Prelude Cursor.

Definition PROTOCOL_VERSION : Z := 1.
Definition MAX_FRAME_SIZE : Z := 64 * 1024.
Definition MAX_ENCRYPTED_TEXT_EVENT_SIZE : Z := 4 * 1024.
Definition DEFAULT_TTL_SECONDS : Z := 7 * 24 * 60 * 60.
Definition MAX_TTL_SECONDS : Z := 30 * 24 * 60 * 60.

Abbreviation Id := (array 16).

Module Error.
Inductive t :=
| Malformed | Truncated | TooLarge | NonCanonical | UnsupportedVersion
| UnknownFrameType | UnknownApplicationType | TrailingBytes | FieldOutOfRange.
End Error.

Module ErrorCode.
Inductive t :=
| Malformed | UnsupportedVersion | TooLarge | Replay | Duplicate
| RateLimited | CursorRegression.
(** [code as u8] *)
Definition as_u8 (c : t) : Z :=
  match c with
  | Malformed => 1 | UnsupportedVersion => 2 | TooLarge => 3 | Replay => 4
  | Duplicate => 5 | RateLimited => 6 | CursorRegression => 7
  end.
End ErrorCode.

Module FrameType.
Inductive t :=
| ClientHello | ServerHello | AuthChallenge | AuthResponse | AuthAccepted
| UploadEnvelope | UploadAccepted | SyncRequest | SyncBatch
| DeliveryReceiptBatch | ReadReceiptBatch | RelayDirectoryRequest
| RelayDirectoryResponse | Ping | Pong | RateLimit | Error.

(** [kind as u64]: [#[repr(u8)]] with the first discriminant 1. *)
Definition as_u64 (k : t) : Z :=
  match k with
  | ClientHello => 1 | ServerHello => 2 | AuthChallenge => 3 | AuthResponse => 4
  | AuthAccepted => 5 | UploadEnvelope => 6 | UploadAccepted => 7
  | SyncRequest => 8 | SyncBatch => 9 | DeliveryReceiptBatch => 10
  | ReadReceiptBatch => 11 | RelayDirectoryRequest => 12
  | RelayDirectoryResponse => 13 | Ping => 14 | Pong => 15 | RateLimit => 16
  | Error => 17
  end.

Definition parse (n : Z) : result Error.t t :=
  match n with
  | 1 => Ok ClientHello | 2 => Ok ServerHello | 3 => Ok AuthChallenge
  | 4 => Ok AuthResponse | 5 => Ok AuthAccepted | 6 => Ok UploadEnvelope
  | 7 => Ok UploadAccepted | 8 => Ok SyncRequest | 9 => Ok SyncBatch
  | 10 => Ok DeliveryReceiptBatch | 11 => Ok ReadReceiptBatch
  | 12 => Ok RelayDirectoryRequest | 13 => Ok RelayDirectoryResponse
  | 14 => Ok Ping | 15 => Ok Pong | 16 => Ok RateLimit | 17 => Ok Error
  | _ => Err Error.UnknownFrameType
  end.

#[export] Instance t_eq_dec : EqDecision t.
Proof. solve_decision. Defined.

Lemma frame_parse_as_u64 k : parse (as_u64 k) = Ok k.
Proof. by destruct k. Qed.

Lemma frame_as_u64_range k : 1 ≤ as_u64 k ≤ 17.
Proof. destruct k; simpl; lia. Qed.

Lemma frame_parse_Ok n k : parse n = Ok k → n = as_u64 k.
Proof.
  intros H. destruct n as [|p|p]; try discriminate H.
  repeat (match goal with q : positive |- _ => destruct q; try discriminate H end);
    by injection H as <-.
Qed.
End FrameType.

Module ApplicationType.
Inductive t :=
| TextMessage | MessageRequest | MessageRequestAccepted | DeliveryReceipt
| ReadReceipt | GroupMetadataUpdate | GroupMemberEvent | GroupInvite
| GroupInviteAccepted | DeviceLinked | DeviceRemoved.

Definition as_u64 (k : t) : Z :=
  match k with
  | TextMessage => 1 | MessageRequest => 2 | MessageRequestAccepted => 3
  | DeliveryReceipt => 4 | ReadReceipt => 5 | GroupMetadataUpdate => 6
  | GroupMemberEvent => 7 | GroupInvite => 8 | GroupInviteAccepted => 9
  | DeviceLinked => 10 | DeviceRemoved => 11
  end.

Definition parse (n : Z) : result Error.t t :=
  match n with
  | 1 => Ok TextMessage | 2 => Ok MessageRequest | 3 => Ok MessageRequestAccepted
  | 4 => Ok DeliveryReceipt | 5 => Ok ReadReceipt | 6 => Ok GroupMetadataUpdate
  | 7 => Ok GroupMemberEvent | 8 => Ok GroupInvite | 9 => Ok GroupInviteAccepted
  | 10 => Ok DeviceLinked | 11 => Ok DeviceRemoved
  | _ => Err Error.UnknownApplicationType
  end.

Lemma application_parse_as_u64 k : parse (as_u64 k) = Ok k.
Proof. by destruct k. Qed.

Lemma application_as_u64_range k : 1 ≤ as_u64 k ≤ 11.
Proof. destruct k; simpl; lia. Qed.

Lemma application_parse_Ok n k : parse n = Ok k → n = as_u64 k.
Proof.
  intros H. destruct n as [|p|p]; try discriminate H.
  repeat (match goal with q : positive |- _ => destruct q; try discriminate H end);
    by injection H as <-.
Qed.
End ApplicationType.

(** ** The encoder *)
Module Encoder.
(** The bytes [major] appends: type and argument in the shortest form; an
    argument above [u32::MAX] would be truncated. *)
Definition head_bytes (m n : Z) : bytes :=
  if n <? 24 then [z2b (Z.lor (Z.shiftl m 5) n)]
  else if n <=? 255 then [z2b (Z.lor (Z.shiftl m 5) 24); z2b n]
  else if n <=? u16_max then z2b (Z.lor (Z.shiftl m 5) 25) :: be_bytes 2 (as_u16 n)
  else z2b (Z.lor (Z.shiftl m 5) 26) :: be_bytes 4 (as_u32 n).

Definition new : bytes := [].
Definition major (out : bytes) (m n : Z) : bytes := out ++ head_bytes m n.
Definition array (out : bytes) (n : Z) : bytes := major out 4 n.
Definition uint (out : bytes) (n : Z) : bytes := major out 0 n.
Definition bytes_ (out b : bytes) : bytes := major out 2 (len b) ++ b.
End Encoder.

(** ** The decoder *)
Module Decoder.
Definition t (A : Type) : Type := parser Error.t A.

Definition take : Z → t bytes := ptake Error.Truncated.

(** [*self.b.get(self.p).ok_or(Truncated)?; self.p += 1] *)
Definition next : t byte := λ c,
  match cbytes c !! Z.to_nat (cpos c) with
  | None => Err Error.Truncated
  | Some x => Ok (x, Cursor (cbytes c) (cpos c + 1))
  end.

(** [uN::from_be_bytes(self.take(n)?.try_into()...)]; [take(1)?[0]] is the
    one-byte case. *)
Definition argument (n : nat) : t Z := pbe Error.Truncated Error.Truncated n.

Definition head : parser Error.t (Z * Z) :=
  x ← next;
  let m := Z.shiftr (b2z x) 5 in
  let a := Z.land (b2z x) 31 in
  n ← (if a <=? 23 then mret a
       else if a =? 24 then argument 1
       else if a =? 25 then argument 2
       else if a =? 26 then argument 4
       else plift (Err Error.NonCanonical) : parser Error.t Z);
  if ((a =? 24) && (n <? 24)) || ((a =? 25) && (n <=? 255))
     || ((a =? 26) && (n <=? u16_max))
  then plift (Err Error.NonCanonical)
  else mret (m, n).

Definition uint : parser Error.t Z :=
  h ← head; if h.1 =? 0 then mret h.2 else plift (Err Error.Malformed).

Definition array_len (n : Z) : parser Error.t unit :=
  h ← head; if (h.1 =? 4) && (h.2 =? n) then mret tt else plift (Err Error.Malformed).

Definition bytes_ : parser Error.t bytes :=
  h ← head;
  if negb (h.1 =? 2) then plift (Err Error.Malformed) else take h.2.

Definition id : parser Error.t Id :=
  b ← bytes_; plift (ok_or (try_array 16 b) Error.FieldOutOfRange).

Definition finish : parser Error.t unit := pfinish Error.TrailingBytes.
End Decoder.

Definition choose_compressed_body (original compressed_body : bytes) : option bytes :=
  if len compressed_body <? len original then Some compressed_body else None.

(** ** Codecs of the CBOR items *)

Lemma split_head_byte x :
  z2b (Z.lor (Z.shiftl (Z.shiftr (b2z x) 5) 5) (Z.land (b2z x) 31)) = x
  ∧ 0 ≤ Z.shiftr (b2z x) 5 < 8 ∧ 0 ≤ Z.land (b2z x) 31 < 32.
Proof. by destruct x; vm_compute. Qed.

Lemma join_head_byte m a :
  0 ≤ m < 8 → 0 ≤ a < 32 →
  Z.shiftr (b2z (z2b (Z.lor (Z.shiftl m 5) a))) 5 = m
  ∧ Z.land (b2z (z2b (Z.lor (Z.shiftl m 5) a))) 31 = a.
Proof.
  intros Hm Ha. set (x := z2b (m * 32 + a)).
  assert (Hx : b2z x = m * 32 + a) by (unfold x; rewrite b2z_z2b_small; lia).
  assert (Hs : Z.shiftr (b2z x) 5 = m).
  { rewrite Z.shiftr_div_pow2, Hx by lia. change (2 ^ 5) with 32.
    rewrite Z.div_add_l by lia. rewrite Z.div_small; lia. }
  assert (Hl : Z.land (b2z x) 31 = a).
  { change 31 with (Z.ones 5). rewrite Z.land_ones, Hx by lia. change (2 ^ 5) with 32.
    rewrite Z.add_comm, Z.mod_add by lia. apply Z.mod_small. lia. }
  destruct (split_head_byte x) as [Hj _]. rewrite Hs, Hl in Hj. by rewrite Hj.
Qed.

Lemma next_at pre x s : Decoder.next (at_ pre (x :: s)) = Ok (x, at_ (pre ++ [x]) s).
Proof.
  unfold Decoder.next, at_. cbn [cpos cbytes].
  rewrite Nat2Z.id, list_lookup_middle by done. do 3 f_equal.
  - by rewrite <- app_assoc.
  - rewrite length_app. simpl. lia.
Qed.

Lemma next_Ok pre s x c :
  Decoder.next (at_ pre s) = Ok (x, c) → ∃ s', s = x :: s' ∧ c = at_ (pre ++ [x]) s'.
Proof.
  destruct s as [|y s].
  - unfold Decoder.next, at_. cbn [cpos cbytes].
    by rewrite Nat2Z.id, app_nil_r, lookup_ge_None_2.
  - rewrite next_at. intros [= -> <-]. eauto.
Qed.

(** Arguments above 31 bits never occur; an item head is a pair of a major
    type below 8 and a 32-bit argument. *)
Definition head_valid (h : Z * Z) : Prop := 0 ≤ h.1 < 8 ∧ in_u 32 h.2.

(** The part of [head] after the initial byte. *)
Definition head_tail (m a : Z) : parser Error.t (Z * Z) :=
  n ← (if a <=? 23 then mret a
       else if a =? 24 then Decoder.argument 1
       else if a =? 25 then Decoder.argument 2
       else if a =? 26 then Decoder.argument 4
       else plift (Err Error.NonCanonical) : parser Error.t Z);
  if ((a =? 24) && (n <? 24)) || ((a =? 25) && (n <=? 255))
     || ((a =? 26) && (n <=? u16_max))
  then plift (Err Error.NonCanonical)
  else mret (m, n).

Lemma head_at_byte m a pre s :
  0 ≤ m < 8 → 0 ≤ a < 32 →
  Decoder.head (at_ pre (z2b (Z.lor (Z.shiftl m 5) a) :: s)) =
  head_tail m a (at_ (pre ++ [z2b (Z.lor (Z.shiftl m 5) a)]) s).
Proof.
  intros Hm Ha. unfold Decoder.head. unfold mbind at 1, parser_bind at 1.
  rewrite next_at. by destruct (join_head_byte m a Hm Ha) as [-> ->].
Qed.

Lemma be_bytes_1 n : be_bytes 1 n = [z2b n].
Proof. simpl. by rewrite Z.div_1_r. Qed.

(** [head_tail] with an argument of [k] following bytes. *)
Lemma head_tail_argument k m a n pre rest :
  (a = 24 ∧ k = 1%nat ∧ 24 ≤ n) ∨ (a = 25 ∧ k = 2%nat ∧ 255 < n)
  ∨ (a = 26 ∧ k = 4%nat ∧ u16_max < n) →
  n < 256 ^ Z.of_nat k → fits (pre ++ be_bytes k n ++ rest) →
  head_tail m a (at_ pre (be_bytes k n ++ rest)) =
    Ok ((m, n), at_ (pre ++ be_bytes k n) rest).
Proof.
  unfold u16_max. intros Hc Hn Hf. unfold head_tail, mbind, parser_bind.
  destruct Hc as [(-> & -> & Hlo)|[(-> & -> & Hlo)|(-> & -> & Hlo)]];
    cbn -[be_bytes at_]; unfold Decoder.argument, u16_max in *;
    (rewrite codec_decode by (done || lia)).
  - by destruct (Z.ltb_spec n 24); [lia|].
  - by destruct (Z.leb_spec n 255); [lia|].
  - by destruct (Z.leb_spec n 65535); [lia|].
Qed.

Lemma head_decode m n pre rest :
  head_valid (m, n) → fits (pre ++ Encoder.head_bytes m n ++ rest) →
  Decoder.head (at_ pre (Encoder.head_bytes m n ++ rest)) =
    Ok ((m, n), at_ (pre ++ Encoder.head_bytes m n) rest).
Proof.
  intros [Hm Hn] Hf. cbn [fst snd] in *. unfold in_u in Hn. unfold Encoder.head_bytes in *.
  assert (Hlong : ∀ x b, fits (pre ++ (x :: b) ++ rest) → fits ((pre ++ [x]) ++ b ++ rest))
    by (intros x b; by rewrite <- !app_assoc).
  destruct (Z.ltb_spec n 24); [|destruct (Z.leb_spec n 255)];
    [| |destruct (Z.leb_spec n u16_max)]; cbn [app]; rewrite head_at_byte by lia.
  - unfold head_tail, mbind, parser_bind. destruct (Z.leb_spec n 23); [|lia].
    unfold mret at 1, parser_ret at 1. destruct (Z.eqb_spec n 24); [lia|].
    destruct (Z.eqb_spec n 25); [lia|]. by destruct (Z.eqb_spec n 26); [lia|].
  - change (z2b n :: rest) with ([z2b n] ++ rest). rewrite <- (be_bytes_1 n) in Hf |- *.
    rewrite (head_tail_argument 1) by (auto || lia). by rewrite <- app_assoc.
  - unfold u16_max in *. rewrite as_u16_small in Hf |- * by (unfold in_u; lia).
    rewrite (head_tail_argument 2) by (auto || unfold u16_max; lia).
    by rewrite <- app_assoc.
  - unfold u16_max in *. rewrite as_u32_small in Hf |- * by (unfold in_u; lia).
    rewrite (head_tail_argument 4) by (auto || unfold u16_max; lia).
    by rewrite <- app_assoc.
Qed.

Lemma head_tail_Ok m a pre s h c :
  0 ≤ a < 32 → head_tail m a (at_ pre s) = Ok (h, c) →
  ∃ n b rest, h = (m, n) ∧ in_u 32 n ∧ s = b ++ rest ∧ c = at_ (pre ++ b) rest
    ∧ Encoder.head_bytes m n = z2b (Z.lor (Z.shiftl m 5) a) :: b.
Proof.
  unfold head_tail. intros Ha (n & c1 & Hn & H)%pbind_Ok.
  destruct (_ || _) eqn:Hcanon in H; [by apply plift_Ok in H as []|].
  injection H as <- <-. exists n.
  unfold Encoder.head_bytes, in_u.
  destruct (Z.leb_spec a 23).
  { injection Hn as <- <-. exists [], s. destruct (Z.ltb_spec a 24); [|lia].
    split_and!; try done; [lia..|]. by rewrite app_nil_r. }
  destruct (Z.eqb_spec a 24) as [->|]; [|destruct (Z.eqb_spec a 25) as [->|]];
    [| |destruct (Z.eqb_spec a 26) as [->|]]; [| | |by apply plift_Ok in Hn as []];
    apply codec_canonical in Hn as (Hb & rest & -> & ->); cbn [andb orb Z.eqb Pos.eqb] in Hcanon.
  - exists [z2b n], rest. rewrite be_bytes_1.
    destruct (Z.ltb_spec n 24); [done|]. destruct (Z.leb_spec n 255); [|lia].
    split_and!; [done|lia..|done|done|done].
  - exists (be_bytes 2 n), rest.
    destruct (Z.leb_spec n 255); [done|]. destruct (Z.ltb_spec n 24); [lia|].
    unfold u16_max. destruct (Z.leb_spec n 65535); [|lia].
    rewrite as_u16_small by (unfold in_u; lia). split_and!; [done|lia..|done|done|done].
  - exists (be_bytes 4 n), rest. unfold u16_max in *.
    destruct (Z.leb_spec n 65535); [done|]. destruct (Z.ltb_spec n 24); [lia|].
    destruct (Z.leb_spec n 255); [lia|].
    rewrite as_u32_small by (unfold in_u; lia). split_and!; [done|lia..|done|done|done].
Qed.

#[export] Instance head_codec :
  Codec (λ h, Encoder.head_bytes h.1 h.2) Decoder.head head_valid.
Proof.
  constructor.
  - intros pre [m n] rest. apply head_decode.
  - intros pre s h c (x & c1 & Hx & H)%pbind_Ok.
    apply next_Ok in Hx as (s' & -> & ->).
    destruct (split_head_byte x) as (Hx & Hm & Ha).
    apply head_tail_Ok in H as (n & b & rest & -> & Hn & -> & -> & Hb); [|done].
    split; [done|]. exists rest. cbn [fst snd]. rewrite Hb, Hx.
    by rewrite <- app_assoc.
Qed.

#[export] Instance uint_codec : Codec (Encoder.head_bytes 0) Decoder.uint (in_u 32).
Proof.
  constructor.
  - intros pre n rest Hn Hf. unfold Decoder.uint, mbind, parser_bind.
    by rewrite head_decode by done.
  - intros pre s n c ([m n'] & c1 & Hh & H)%pbind_Ok.
    apply codec_canonical in Hh as ([_ Hn] & rest & -> & ->). cbn [fst snd] in *.
    destruct (Z.eqb_spec m 0) as [->|]; [|by apply plift_Ok in H as []].
    injection H as <- <-. eauto.
Qed.

#[export] Instance array_len_codec n :
  Codec (λ _ : unit, Encoder.head_bytes 4 n) (Decoder.array_len n) (λ _, in_u 32 n).
Proof.
  constructor.
  - intros pre [] rest Hn Hf. unfold Decoder.array_len, mbind, parser_bind.
    rewrite head_decode by done. cbn [fst snd]. by rewrite !Z.eqb_refl.
  - intros pre s [] c ([m n'] & c1 & Hh & H)%pbind_Ok.
    apply codec_canonical in Hh as ([_ Hn] & rest & -> & ->). cbn [fst snd] in *.
    destruct (Z.eqb_spec m 4) as [->|]; [|by apply plift_Ok in H as []].
    destruct (Z.eqb_spec n' n) as [->|]; [|by apply plift_Ok in H as []].
    injection H as <-. eauto.
Qed.

#[export] Instance bytes_codec :
  Codec (λ b, Encoder.head_bytes 2 (len b) ++ b) Decoder.bytes_ (λ b, in_u 32 (len b)).
Proof.
  constructor.
  - intros pre b rest Hb Hf. unfold Decoder.bytes_, mbind, parser_bind.
    rewrite <- app_assoc in Hf |- *.
    rewrite head_decode by done. cbn [fst snd negb Z.eqb Pos.eqb]. unfold Decoder.take.
    rewrite app_assoc in Hf.
    rewrite ptake_app by done. by rewrite <- app_assoc.
  - intros pre s b c ([m n'] & c1 & Hh & H)%pbind_Ok.
    apply codec_canonical in Hh as ([_ Hn] & rest & -> & ->). cbn [fst snd] in *.
    destruct (Z.eqb_spec m 2) as [->|]; [|by apply plift_Ok in H as []].
    unfold in_u in Hn. apply ptake_at_Ok in H as (rest' & -> & -> & Hl); [|lia].
    unfold len. rewrite Hl. split; [done|]. exists rest'. by rewrite <- !app_assoc.
Qed.

#[export] Instance id_codec :
  Codec (λ i : Id, Encoder.head_bytes 2 (len (arr i)) ++ arr i) Decoder.id (λ _, True).
Proof.
  constructor.
  - intros pre i rest _ Hf. unfold Decoder.id, mbind, parser_bind.
    rewrite (codec_decode (Codec := bytes_codec) _ (arr i))
      by (done || (unfold len; by rewrite array_length)).
    unfold plift. by rewrite try_array_arr.
  - intros pre s i c (b & c1 & Hb & H)%pbind_Ok.
    apply codec_canonical in Hb as (_ & rest & -> & ->).
    apply plift_Ok in H as [H%ok_or_Ok ->]. apply try_array_inv in H as ->. eauto.
Qed.

(** ** Transport frames *)
Module TransportFrame.
Record t := Make {
  version : Z;
  kind : FrameType.t;
  client_message_id : Id;
  ttl_seconds : Z;
  body : bytes
}.

(** What the field types [u16] and [u32] guarantee. *)
Definition typed (f : t) : Prop := in_u 16 (version f) ∧ in_u 32 (ttl_seconds f).

Definition encode (f : t) : result Error.t bytes :=
  if MAX_TTL_SECONDS <? ttl_seconds f then Err Error.FieldOutOfRange
  else if MAX_FRAME_SIZE <? len (body f) then Err Error.TooLarge
  else
    let e := Encoder.new in
    let e := Encoder.array e 6 in
    let e := Encoder.uint e 1 in
    let e := Encoder.uint e (version f) in
    let e := Encoder.uint e (FrameType.as_u64 (kind f)) in
    let e := Encoder.bytes_ e (arr (client_message_id f)) in
    let e := Encoder.uint e (ttl_seconds f) in
    let e := Encoder.bytes_ e (body f) in
    if MAX_FRAME_SIZE <? len e then Err Error.TooLarge else Ok e.

Definition decode_body : parser Error.t t :=
  _ ← Decoder.array_len 6;
  tag ← Decoder.uint;
  _ ← plift (ensure (tag =? 1) Error.Malformed);
  v ← Decoder.uint;
  _ ← plift (ensure (v =? PROTOCOL_VERSION) Error.UnsupportedVersion);
  k ← Decoder.uint;
  k ← plift (FrameType.parse k);
  i ← Decoder.id;
  ttl ← Decoder.uint;
  _ ← plift (ensure (ttl <=? MAX_TTL_SECONDS) Error.FieldOutOfRange);
  b ← Decoder.bytes_;
  _ ← Decoder.finish;
  mret (Make (as_u16 v) k i (as_u32 ttl) b).

Definition decode (input : bytes) : result Error.t t :=
  if MAX_FRAME_SIZE <? len input then Err Error.TooLarge
  else run_parser decode_body input.
End TransportFrame.

(** ** Encrypted application envelopes *)
Module ApplicationEnvelope.
Record t := Make {
  kind : ApplicationType.t;
  event_id : Id;
  conversation_id : Id;
  encrypted_content : bytes
}.

Definition encode (a : t) : result Error.t bytes :=
  if MAX_ENCRYPTED_TEXT_EVENT_SIZE <? len (encrypted_content a) then Err Error.TooLarge
  else
    let e := Encoder.new in
    let e := Encoder.array e 5 in
    let e := Encoder.uint e 2 in
    let e := Encoder.uint e (ApplicationType.as_u64 (kind a)) in
    let e := Encoder.bytes_ e (arr (event_id a)) in
    let e := Encoder.bytes_ e (arr (conversation_id a)) in
    let e := Encoder.bytes_ e (encrypted_content a) in
    Ok e.

Definition decode_body : parser Error.t t :=
  _ ← Decoder.array_len 5;
  tag ← Decoder.uint;
  _ ← plift (ensure (tag =? 2) Error.Malformed);
  k ← Decoder.uint;
  k ← plift (ApplicationType.parse k);
  ev ← Decoder.id;
  conv ← Decoder.id;
  content ← Decoder.bytes_;
  _ ← plift (ensure (len content <=? MAX_ENCRYPTED_TEXT_EVENT_SIZE) Error.TooLarge);
  _ ← Decoder.finish;
  mret (Make k ev conv content).

Definition decode (input : bytes) : result Error.t t := run_parser decode_body input.
End ApplicationEnvelope.

(** The bytes both encoders build, item by item. *)
Definition frame_bytes (f : TransportFrame.t) : bytes :=
  Encoder.head_bytes 4 6 ++ Encoder.head_bytes 0 1
  ++ Encoder.head_bytes 0 (TransportFrame.version f)
  ++ Encoder.head_bytes 0 (FrameType.as_u64 (TransportFrame.kind f))
  ++ (Encoder.head_bytes 2 (len (arr (TransportFrame.client_message_id f)))
      ++ arr (TransportFrame.client_message_id f))
  ++ Encoder.head_bytes 0 (TransportFrame.ttl_seconds f)
  ++ (Encoder.head_bytes 2 (len (TransportFrame.body f)) ++ TransportFrame.body f).

Definition envelope_bytes (a : ApplicationEnvelope.t) : bytes :=
  Encoder.head_bytes 4 5 ++ Encoder.head_bytes 0 2
  ++ Encoder.head_bytes 0 (ApplicationType.as_u64 (ApplicationEnvelope.kind a))
  ++ (Encoder.head_bytes 2 (len (arr (ApplicationEnvelope.event_id a)))
      ++ arr (ApplicationEnvelope.event_id a))
  ++ (Encoder.head_bytes 2 (len (arr (ApplicationEnvelope.conversation_id a)))
      ++ arr (ApplicationEnvelope.conversation_id a))
  ++ (Encoder.head_bytes 2 (len (ApplicationEnvelope.encrypted_content a))
      ++ ApplicationEnvelope.encrypted_content a).

Lemma frame_encode_eq f :
  TransportFrame.encode f =
    if MAX_TTL_SECONDS <? TransportFrame.ttl_seconds f then Err Error.FieldOutOfRange
    else if MAX_FRAME_SIZE <? len (TransportFrame.body f) then Err Error.TooLarge
    else if MAX_FRAME_SIZE <? len (frame_bytes f) then Err Error.TooLarge
    else Ok (frame_bytes f).
Proof.
  unfold TransportFrame.encode, Encoder.new, Encoder.array, Encoder.uint,
    Encoder.bytes_, Encoder.major, frame_bytes. by rewrite <- !app_assoc, app_nil_l.
Qed.

Lemma envelope_encode_eq a :
  ApplicationEnvelope.encode a =
    if MAX_ENCRYPTED_TEXT_EVENT_SIZE <? len (ApplicationEnvelope.encrypted_content a)
    then Err Error.TooLarge else Ok (envelope_bytes a).
Proof.
  unfold ApplicationEnvelope.encode, Encoder.new, Encoder.array, Encoder.uint,
    Encoder.bytes_, Encoder.major, envelope_bytes. by rewrite <- !app_assoc, app_nil_l.
Qed.

(** Sizes of the encodings. *)
Lemma head_bytes_length m n : (1 ≤ length (Encoder.head_bytes m n) ≤ 5)%nat.
Proof. unfold Encoder.head_bytes. repeat case_match; simpl; lia. Qed.

Lemma head_bytes_length_24 m n : n < 24 → length (Encoder.head_bytes m n) = 1%nat.
Proof. intros. unfold Encoder.head_bytes. by destruct (Z.ltb_spec n 24); [|lia]. Qed.

Lemma head_bytes_length_16 m n : n ≤ u16_max → (length (Encoder.head_bytes m n) ≤ 3)%nat.
Proof.
  intros. unfold Encoder.head_bytes. repeat case_match; simpl; lia.
Qed.

Lemma envelope_length a :
  (38 ≤ length (envelope_bytes a) - length (ApplicationEnvelope.encrypted_content a) ≤ 62)%nat.
Proof.
  unfold envelope_bytes. rewrite !length_app, !array_length.
  pose proof head_bytes_length as H.
  pose proof (H 4 5). pose proof (H 0 2). pose proof (H 0 (ApplicationType.as_u64 (ApplicationEnvelope.kind a))).
  pose proof (H 2 (len (ApplicationEnvelope.event_id a))).
  pose proof (H 2 (len (ApplicationEnvelope.conversation_id a))).
  pose proof (H 2 (len (ApplicationEnvelope.encrypted_content a))). lia.
Qed.

Lemma envelope_fits a :
  len (ApplicationEnvelope.encrypted_content a) ≤ MAX_ENCRYPTED_TEXT_EVENT_SIZE →
  fits (envelope_bytes a).
Proof.
  unfold len, fits, MAX_ENCRYPTED_TEXT_EVENT_SIZE, i64_max.
  pose proof (envelope_length a). lia.
Qed.

(** The item decoders read a frame and stop before whatever follows it. *)
Lemma frame_decode_items f rest :
  TransportFrame.version f = PROTOCOL_VERSION →
  0 ≤ TransportFrame.ttl_seconds f ≤ MAX_TTL_SECONDS → fits (frame_bytes f ++ rest) →
  in_u 32 (len (TransportFrame.body f)) →
  TransportFrame.decode_body (at_ [] (frame_bytes f ++ rest)) =
    (_ ← Decoder.finish; mret f) (at_ (frame_bytes f) rest).
Proof.
  destruct f as [v k i ttl b]. unfold frame_bytes, TransportFrame.decode_body.
  cbn [TransportFrame.version TransportFrame.kind TransportFrame.client_message_id
       TransportFrame.ttl_seconds TransportFrame.body].
  intros -> Httl Hf Hb. pose proof (FrameType.frame_as_u64_range k) as Hk.
  unfold MAX_TTL_SECONDS in *.
  do 6 rewrite <- (app_assoc _ _ rest) in Hf |- *.
  parse_read (Decoder.array_len 6) tt.
  parse_read Decoder.uint 1. rewrite plift_bind. cbn [ensure Z.eqb Pos.eqb].
  parse_read Decoder.uint PROTOCOL_VERSION. rewrite plift_bind.
  cbn [ensure PROTOCOL_VERSION Z.eqb Pos.eqb].
  parse_read Decoder.uint (FrameType.as_u64 k).
  rewrite plift_bind, FrameType.frame_parse_as_u64.
  parse_read Decoder.id i.
  parse_read Decoder.uint ttl.
  rewrite plift_bind. unfold ensure. destruct (Z.leb_spec ttl (30 * 24 * 60 * 60)); [|lia].
  parse_read Decoder.bytes_ b.
  rewrite (as_u32_small ttl) by (unfold in_u; lia).
  by rewrite app_nil_l, <- !app_assoc.
Qed.

Lemma frame_decode_body f :
  TransportFrame.version f = PROTOCOL_VERSION →
  0 ≤ TransportFrame.ttl_seconds f ≤ MAX_TTL_SECONDS → fits (frame_bytes f) →
  in_u 32 (len (TransportFrame.body f)) →
  TransportFrame.decode_body (at_ [] (frame_bytes f)) = Ok (f, at_ (frame_bytes f) []).
Proof.
  intros Hv Ht Hf Hb. rewrite <- (app_nil_r (frame_bytes f)) at 1.
  rewrite frame_decode_items by (done || by rewrite app_nil_r).
  unfold Decoder.finish. by rewrite pfinish_bind.
Qed.


Lemma frame_canonical_body input f c :
  TransportFrame.decode_body (at_ [] input) = Ok (f, c) →
  input = frame_bytes f ∧ TransportFrame.version f = PROTOCOL_VERSION
  ∧ 0 ≤ TransportFrame.ttl_seconds f ≤ MAX_TTL_SECONDS.
Proof.
  unfold TransportFrame.decode_body. intros H.
  parse_inv H. parse_inv H. parse_inv H. apply ensure_Ok, Z.eqb_eq in Ha as ->.
  parse_inv H. parse_inv H. apply ensure_Ok, Z.eqb_eq in Ha as ->.
  parse_inv H. parse_inv H. apply FrameType.frame_parse_Ok in Ha as ->.
  parse_inv H. parse_inv H. parse_inv H. apply ensure_Ok, Z.leb_le in Ha.
  parse_inv H. apply pfinish_bind_Ok in H as [-> [= <- <-]]. unfold in_u, MAX_TTL_SECONDS in *.
  rewrite !as_u32_small by (unfold in_u; lia). unfold frame_bytes.
  cbn [TransportFrame.version TransportFrame.kind TransportFrame.client_message_id
       TransportFrame.ttl_seconds TransportFrame.body].
  rewrite !app_nil_r. split; [done|]. split; [done|]. lia.
Qed.

Lemma envelope_decode_body a :
  len (ApplicationEnvelope.encrypted_content a) ≤ MAX_ENCRYPTED_TEXT_EVENT_SIZE →
  ApplicationEnvelope.decode_body (at_ [] (envelope_bytes a)) =
    Ok (a, at_ (envelope_bytes a) []).
Proof.
  destruct a as [k ev conv b]. unfold envelope_bytes, ApplicationEnvelope.decode_body.
  cbn [ApplicationEnvelope.kind ApplicationEnvelope.event_id
       ApplicationEnvelope.conversation_id ApplicationEnvelope.encrypted_content].
  intros Hb. pose proof (ApplicationType.application_as_u64_range k) as Hk.
  unfold MAX_ENCRYPTED_TEXT_EVENT_SIZE in *.
  assert (Hf : fits (envelope_bytes (ApplicationEnvelope.Make k ev conv b))).
  { apply envelope_fits. done. }
  unfold envelope_bytes in Hf.
  cbn [ApplicationEnvelope.kind ApplicationEnvelope.event_id
       ApplicationEnvelope.conversation_id ApplicationEnvelope.encrypted_content] in Hf.
  rewrite <- (app_nil_r (Encoder.head_bytes 2 (len b) ++ b)) in Hf |- * at 1.
  parse_read (Decoder.array_len 5) tt.
  parse_read Decoder.uint 2. rewrite plift_bind. cbn [ensure Z.eqb Pos.eqb].
  parse_read Decoder.uint (ApplicationType.as_u64 k).
  rewrite plift_bind, ApplicationType.application_parse_as_u64.
  parse_read Decoder.id ev. parse_read Decoder.id conv.
  parse_read Decoder.bytes_ b. rewrite plift_bind. unfold ensure.
  destruct (Z.leb_spec (len b) (4 * 1024)); [|lia].
  unfold Decoder.finish. rewrite pfinish_bind.
  by rewrite app_nil_l, <- !app_assoc.
Qed.

Lemma envelope_canonical_body input a c :
  ApplicationEnvelope.decode_body (at_ [] input) = Ok (a, c) →
  input = envelope_bytes a
  ∧ len (ApplicationEnvelope.encrypted_content a) ≤ MAX_ENCRYPTED_TEXT_EVENT_SIZE.
Proof.
  unfold ApplicationEnvelope.decode_body. intros H.
  parse_inv H. parse_inv H. parse_inv H. apply ensure_Ok, Z.eqb_eq in Ha as ->.
  parse_inv H. parse_inv H. apply ApplicationType.application_parse_Ok in Ha as ->.
  parse_inv H. parse_inv H. parse_inv H. parse_inv H. apply ensure_Ok, Z.leb_le in Ha.
  apply pfinish_bind_Ok in H as [-> [= <- <-]]. unfold envelope_bytes.
  cbn [ApplicationEnvelope.kind ApplicationEnvelope.event_id
       ApplicationEnvelope.conversation_id ApplicationEnvelope.encrypted_content].
  by rewrite !app_nil_r.
Qed.

(** ** Encoding and decoding are inverse *)

Lemma frame_length f :
  (21 ≤ length (frame_bytes f) - length (TransportFrame.body f))%nat
  ∧ (in_u 16 (TransportFrame.version f) → (len (TransportFrame.body f) ≤ u16_max)%Z →
     length (frame_bytes f) - length (TransportFrame.body f) ≤ 31)%nat.
Proof.
  unfold frame_bytes. rewrite !length_app, !array_length.
  pose proof head_bytes_length as H.
  pose proof (H 4 6). pose proof (H 0 1). pose proof (H 0 (TransportFrame.version f)).
  pose proof (H 0 (FrameType.as_u64 (TransportFrame.kind f))).
  pose proof (H 2 (len (TransportFrame.client_message_id f))).
  pose proof (H 0 (TransportFrame.ttl_seconds f)).
  pose proof (H 2 (len (TransportFrame.body f))). split; [lia|].
  intros Hv Hb. unfold in_u, u16_max, len in *. rewrite array_length in *.
  pose proof (FrameType.frame_as_u64_range (TransportFrame.kind f)).
  rewrite (head_bytes_length_24 4 6), (head_bytes_length_24 0 1),
    (head_bytes_length_24 2 (Z.of_nat 16)),
    (head_bytes_length_24 0 (FrameType.as_u64 _)) by lia.
  pose proof (head_bytes_length_16 0 (TransportFrame.version f)).
  pose proof (head_bytes_length_16 2 (Z.of_nat (length (TransportFrame.body f)))).
  unfold u16_max in *. lia.
Qed.

Lemma frame_decode_Ok input f :
  TransportFrame.decode input = Ok f ↔
  len input ≤ MAX_FRAME_SIZE ∧ ∃ c, TransportFrame.decode_body (at_ [] input) = Ok (f, c).
Proof.
  unfold TransportFrame.decode. destruct (Z.ltb_spec MAX_FRAME_SIZE (len input)).
  - split; [done|lia].
  - rewrite run_parser_Ok. crush_arith.
Qed.

Lemma frame_encode_Ok f b :
  TransportFrame.encode f = Ok b ↔
  b = frame_bytes f ∧ TransportFrame.ttl_seconds f ≤ MAX_TTL_SECONDS
  ∧ len (frame_bytes f) ≤ MAX_FRAME_SIZE.
Proof.
  rewrite frame_encode_eq.
  destruct (frame_length f) as [Hl _]. unfold len.
  destruct (Z.ltb_spec MAX_TTL_SECONDS (TransportFrame.ttl_seconds f)); [crush_arith|].
  destruct (Z.ltb_spec MAX_FRAME_SIZE (Z.of_nat (length (TransportFrame.body f))));
    [crush_arith|].
  destruct (Z.ltb_spec MAX_FRAME_SIZE (Z.of_nat (length (frame_bytes f)))); crush_arith.
Qed.

Lemma frame_decode_iff_encode input f :
  TransportFrame.typed f →
  TransportFrame.decode input = Ok f ↔
  TransportFrame.encode f = Ok input ∧ TransportFrame.version f = PROTOCOL_VERSION.
Proof.
  intros [_ Ht]. rewrite frame_decode_Ok, frame_encode_Ok. split.
  - intros (Hl & c & (-> & Hv & Httl)%frame_canonical_body). auto with lia.
  - intros ((-> & Httl & Hl) & Hv). split; [done|].
    destruct (frame_length f) as [Hb _]. unfold in_u, len, MAX_FRAME_SIZE in *.
    exists (at_ (frame_bytes f) []). apply frame_decode_body; [done|lia| |].
    + unfold fits, i64_max. lia.
    + unfold in_u, len. lia.
Qed.

(** ** Truncated frames *)

Lemma head_truncated m n pre p q :
  head_valid (m, n) → Encoder.head_bytes m n = p ++ q → q ≠ [] → fits (pre ++ p) →
  Decoder.head (at_ pre p) = Err Error.Truncated.
Proof.
  intros [Hm Hn] Hp Hq Hf. cbn [fst snd] in *. unfold in_u in Hn. destruct p as [|x p].
  { unfold Decoder.head, mbind, parser_bind, Decoder.next, at_. cbn [cpos cbytes].
    by rewrite Nat2Z.id, app_nil_r, lookup_ge_None_2. }
  assert (Hl : fits ((pre ++ [x]) ++ p)) by (by rewrite <- app_assoc).
  assert (Hshort : ∀ k a, (length p < k)%nat → (k ≤ 4)%nat →
    a = 24 ∧ k = 1%nat ∨ a = 25 ∧ k = 2%nat ∨ a = 26 ∧ k = 4%nat →
    head_tail m a (at_ (pre ++ [x]) p) = Err Error.Truncated).
  { intros k a Hk Hk4 Ha. unfold head_tail, mbind, parser_bind, Decoder.argument.
    destruct Ha as [[-> ->]|[[-> ->]|[-> ->]]]; cbn -[pbe at_];
      by rewrite pbe_short by (done || unfold i64_max; lia). }
  pose proof (app_proper_prefix _ _ _ Hp Hq) as Hlen. simpl length in Hlen.
  unfold Encoder.head_bytes in Hp, Hlen.
  repeat case_match; injection Hp as <- Hp; rewrite head_at_byte by lia;
    simpl length in Hlen; rewrite ?length_be_bytes in Hlen.
  - destruct p, q; simplify_list_eq.
  - apply (Hshort 1%nat); [lia..|auto].
  - apply (Hshort 2%nat); [lia..|auto].
  - apply (Hshort 4%nat); [lia..|auto].
Qed.

#[export] Instance uint_truncating :
  Truncating (Encoder.head_bytes 0) Decoder.uint (in_u 32) Error.Truncated.
Proof.
  intros pre p q n Hn Hp Hq Hf. unfold Decoder.uint, mbind, parser_bind.
  by rewrite (head_truncated 0 n _ _ q).
Qed.

#[export] Instance array_len_truncating n :
  Truncating (λ _ : unit, Encoder.head_bytes 4 n) (Decoder.array_len n) (λ _, in_u 32 n)
    Error.Truncated.
Proof.
  intros pre p q [] Hn Hp Hq Hf. unfold Decoder.array_len, mbind, parser_bind.
  by rewrite (head_truncated 4 n _ _ q).
Qed.

#[export] Instance bytes_truncating :
  Truncating (λ b, Encoder.head_bytes 2 (len b) ++ b) Decoder.bytes_ (λ b, in_u 32 (len b))
    Error.Truncated.
Proof.
  intros pre p q b Hb Hp Hq Hf. unfold Decoder.bytes_.
  destruct (prefix_cases _ _ _ _ Hp) as [(q' & Hh & Hq')|(p' & -> & ->)].
  - unfold mbind, parser_bind. by rewrite (head_truncated 2 (len b) _ _ q').
  - unfold mbind, parser_bind. rewrite head_decode by done.
    cbn [fst snd negb Z.eqb Pos.eqb]. unfold Decoder.take.
    apply ptake_short; [by rewrite <- app_assoc|]. unfold len, in_u, i64_max in *.
    rewrite length_app in *. destruct q; [done|]. simpl length in *. lia.
Qed.

#[export] Instance id_truncating :
  Truncating (λ i : Id, Encoder.head_bytes 2 (len (arr i)) ++ arr i) Decoder.id (λ _, True)
    Error.Truncated.
Proof.
  intros pre p q i _ Hp Hq Hf. unfold Decoder.id.
  rewrite (pbind_truncating _ Decoder.bytes_ _ Error.Truncated (Truncating0 := bytes_truncating) _ _ _ q (arr i)); try done.
  unfold len. by rewrite array_length.
Qed.

Lemma frame_truncated_body f p q :
  TransportFrame.version f = PROTOCOL_VERSION →
  0 ≤ TransportFrame.ttl_seconds f ≤ MAX_TTL_SECONDS →
  in_u 32 (len (TransportFrame.body f)) →
  frame_bytes f = p ++ q → q ≠ [] → fits p →
  TransportFrame.decode_body (at_ [] p) = Err Error.Truncated.
Proof.
  destruct f as [v k i ttl b]. unfold frame_bytes, TransportFrame.decode_body.
  cbn [TransportFrame.version TransportFrame.kind TransportFrame.client_message_id
       TransportFrame.ttl_seconds TransportFrame.body].
  intros -> Httl Hb Hp Hq Hf. pose proof (FrameType.frame_as_u64_range k) as Hk.
  unfold MAX_TTL_SECONDS in *.
  rewrite <- (app_nil_r (Encoder.head_bytes 2 (len b) ++ b)) in Hp.
  parse_trunc Hp (Decoder.array_len 6) tt.
  parse_trunc Hp Decoder.uint 1. rewrite plift_bind. cbn [ensure Z.eqb Pos.eqb].
  parse_trunc Hp Decoder.uint PROTOCOL_VERSION. rewrite plift_bind.
  cbn [ensure PROTOCOL_VERSION Z.eqb Pos.eqb].
  parse_trunc Hp Decoder.uint (FrameType.as_u64 k).
  rewrite plift_bind, FrameType.frame_parse_as_u64.
  parse_trunc Hp Decoder.id i.
  parse_trunc Hp Decoder.uint ttl.
  rewrite plift_bind. unfold ensure. destruct (Z.leb_spec ttl (30 * 24 * 60 * 60)); [|lia].
  parse_trunc Hp Decoder.bytes_ b.
  symmetry in Hp. apply app_eq_nil in Hp as [_ ->]. done.
Qed.

(** With bytes left over, the item decoders succeed and [finish] fails. *)
Lemma frame_decode_body_extra f extra :
  TransportFrame.version f = PROTOCOL_VERSION →
  0 ≤ TransportFrame.ttl_seconds f ≤ MAX_TTL_SECONDS → fits (frame_bytes f ++ extra) →
  in_u 32 (len (TransportFrame.body f)) → extra ≠ [] →
  TransportFrame.decode_body (at_ [] (frame_bytes f ++ extra)) = Err Error.TrailingBytes.
Proof.
  intros. rewrite frame_decode_items by done. destruct extra; [done|].
  unfold Decoder.finish, mbind, parser_bind. by rewrite pfinish_at.
Qed.

(** ** Properties of the wire format *)

(** A short ping, the frame of docs/protocol-vectors/v1-ping.hex. *)
Definition ping_frame : TransportFrame.t :=
  TransportFrame.Make 1 FrameType.Ping (fill 16 7) 0 [].
Definition ping_bytes : bytes :=
  z2b <$> [134; 1; 1; 14; 80; 7; 7; 7; 7; 7; 7; 7; 7; 7; 7; 7; 7; 7; 7; 7; 7; 0; 64].

(** C17: the decoder accepts exactly the encodings of version-1 frames, one byte
    string per frame: [decode] returns a frame if and only if [encode] produces
    the input from it.  Round trip and canonicity in one statement. *)
Theorem frame_decode_exact input f :
  TransportFrame.typed f →
  TransportFrame.decode input = Ok f ↔
  TransportFrame.encode f = Ok input ∧ TransportFrame.version f = PROTOCOL_VERSION.
Proof. apply frame_decode_iff_encode. Qed.

Theorem frame_decode_exact_witness :
  TransportFrame.typed ping_frame ∧
  TransportFrame.decode ping_bytes = Ok ping_frame.
Proof.
  assert (H : TransportFrame.typed ping_frame) by (by vm_compute).
  split; [exact H|]. apply (frame_decode_exact ping_bytes ping_frame H).
  split; vm_compute; reflexivity.
Defined.

(** The application envelope codec is a bijection between envelopes whose
    content fits and the byte strings the decoder accepts. *)
Theorem envelope_decode_exact input a :
  ApplicationEnvelope.decode input = Ok a ↔ ApplicationEnvelope.encode a = Ok input.
Proof.
  unfold ApplicationEnvelope.decode. rewrite run_parser_Ok, envelope_encode_eq. split.
  - intros (c & [-> Hl]%envelope_canonical_body).
    by destruct (Z.ltb_spec MAX_ENCRYPTED_TEXT_EVENT_SIZE
      (len (ApplicationEnvelope.encrypted_content a))); [lia|].
  - destruct (Z.ltb_spec MAX_ENCRYPTED_TEXT_EVENT_SIZE
      (len (ApplicationEnvelope.encrypted_content a))); [done|]. intros [= <-].
    eexists. by apply envelope_decode_body.
Qed.

(** Input cut off inside a frame is reported as [Truncated]: no proper
    prefix of an encoded frame is mistaken for a shorter frame or for another
    error. *)
Theorem frame_prefix_truncated f p q :
  TransportFrame.typed f → TransportFrame.version f = PROTOCOL_VERSION →
  TransportFrame.encode f = Ok (p ++ q) → q ≠ [] →
  TransportFrame.decode p = Err Error.Truncated.
Proof.
  intros [_ Ht] Hv (Hb & Httl & Hl)%frame_encode_Ok Hq. rewrite <- Hb in Hl.
  destruct (frame_length f) as [Hlen _]. rewrite <- Hb in Hlen.
  unfold in_u, len, MAX_FRAME_SIZE in *. rewrite length_app in *.
  unfold TransportFrame.decode, run_parser, len, MAX_FRAME_SIZE.
  destruct (Z.ltb_spec (64 * 1024) (Z.of_nat (length p))); [lia|].
  rewrite at_start, (frame_truncated_body f p q); try done; [lia|..].
  - unfold in_u, len. lia.
  - unfold fits, i64_max. lia.
Qed.

Theorem frame_prefix_truncated_witness :
  TransportFrame.decode (take 20 ping_bytes) = Err Error.Truncated.
Proof.
  apply (frame_prefix_truncated ping_frame (take 20 ping_bytes) (drop 20 ping_bytes));
    [by vm_compute|reflexivity|vm_compute; reflexivity|by vm_compute].
Defined.

(** Bytes after a complete frame are rejected as [TrailingBytes], as long as
    the input is within the frame limit. *)
Theorem frame_trailing_rejected f b extra :
  TransportFrame.typed f → TransportFrame.version f = PROTOCOL_VERSION →
  TransportFrame.encode f = Ok b → extra ≠ [] → len (b ++ extra) ≤ MAX_FRAME_SIZE →
  TransportFrame.decode (b ++ extra) = Err Error.TrailingBytes.
Proof.
  intros [_ Ht] Hv (-> & Httl & Hl)%frame_encode_Ok Hx Hlen.
  unfold TransportFrame.decode, run_parser.
  destruct (Z.ltb_spec MAX_FRAME_SIZE (len (frame_bytes f ++ extra))); [lia|].
  rewrite at_start, frame_decode_body_extra; try done.
  - unfold in_u in Ht. lia.
  - unfold fits, i64_max, len, MAX_FRAME_SIZE in *. lia.
  - destruct (frame_length f) as [Hb _]. unfold in_u, len, MAX_FRAME_SIZE in *. lia.
Qed.

Theorem frame_trailing_rejected_witness :
  TransportFrame.decode (ping_bytes ++ [z2b 0]) = Err Error.TrailingBytes.
Proof.
  apply (frame_trailing_rejected ping_frame ping_bytes [z2b 0]);
    [by vm_compute|reflexivity|vm_compute; reflexivity|done|by vm_compute].
Defined.

(** The encoder's limits: a TTL over the maximum is reported first, a body
    over 64 KiB is [TooLarge], and the overhead of at most 31 bytes leaves room
    for every body of up to 65 505 bytes, which encodes within the limit. *)
Theorem frame_encode_limits f :
  TransportFrame.typed f →
  (MAX_TTL_SECONDS < TransportFrame.ttl_seconds f →
   TransportFrame.encode f = Err Error.FieldOutOfRange)
  ∧ (TransportFrame.ttl_seconds f ≤ MAX_TTL_SECONDS →
     MAX_FRAME_SIZE < len (TransportFrame.body f) →
     TransportFrame.encode f = Err Error.TooLarge)
  ∧ (TransportFrame.ttl_seconds f ≤ MAX_TTL_SECONDS →
     len (TransportFrame.body f) ≤ MAX_FRAME_SIZE - 31 →
     ∃ b, TransportFrame.encode f = Ok b
       ∧ len b ≤ len (TransportFrame.body f) + 31).
Proof.
  intros [Hv Ht]. rewrite frame_encode_eq. destruct (frame_length f) as [Hlo Hhi].
  unfold MAX_FRAME_SIZE, len, u16_max in *.
  split_and!.
  - intros. by destruct (Z.ltb_spec MAX_TTL_SECONDS (TransportFrame.ttl_seconds f)); [|lia].
  - intros. destruct (Z.ltb_spec MAX_TTL_SECONDS (TransportFrame.ttl_seconds f)); [lia|].
    by case_match; [|lia].
  - intros Httl Hb. specialize (Hhi Hv ltac:(lia)).
    destruct (Z.ltb_spec MAX_TTL_SECONDS (TransportFrame.ttl_seconds f)); [lia|].
    destruct (Z.ltb_spec (64 * 1024) (Z.of_nat (length (TransportFrame.body f)))); [lia|].
    destruct (Z.ltb_spec (64 * 1024) (Z.of_nat (length (frame_bytes f)))); [lia|].
    eexists. split; [done|]. lia.
Qed.

Theorem frame_encode_limits_witness :
  ∃ b, TransportFrame.encode ping_frame = Ok b
    ∧ len b ≤ len (TransportFrame.body ping_frame) + 31.
Proof.
  apply (frame_encode_limits ping_frame); by vm_compute.
Defined.
