(* ===== verification/Crypto.v ===== *)
(** * Crypto: the cryptographic libraries as an interface

    The code calls sha2, ed25519-dalek, hkdf and chacha20poly1305; none of them
    is in the repository.  [Crypto] lists the operations the code calls and
    [CryptoLaws] the documented behaviour it relies on: a signature verifies
    under the signer's key, and authenticated decryption inverts encryption.
    No theorem of the development assumes unforgeability or collision
    resistance.  [toy_crypto] is a concrete instance, used by the witnesses. *)
From Stdlib Require Import ZArith Lia.
From stdpp Require Import base gmap sets list strings.
From S2P Require Import Prelude.

Class Crypto : Type := {
  (** [Sha256::digest] of the concatenated updates *)
  sha256 : bytes → array 32;
  (** [VerifyingKey::from_bytes(k).is_ok()] *)
  vk_valid : array 32 → bool;
  (** [VerifyingKey::verify(message, signature).is_ok()] for a valid key *)
  vk_verify : array 32 → bytes → array 64 → bool;
  (** [SigningKey::verifying_key().to_bytes()]; a signing key is its 32 bytes *)
  sk_public : array 32 → array 32;
  (** [SigningKey::sign(message).to_bytes()] *)
  sk_sign : array 32 → bytes → array 64;
  (** XChaCha20-Poly1305: key, nonce, associated data, message *)
  aead_encrypt : array 32 → array 24 → bytes → bytes → option bytes;
  aead_decrypt : array 32 → array 24 → bytes → bytes → option bytes;
  (** [Hkdf::<Sha256>::new(Some(salt), ikm).expand(info, 32 bytes)] *)
  hkdf_sha256 : bytes → bytes → bytes → array 32
}.

Class CryptoLaws {C : Crypto} : Prop := {
  sk_public_valid sk : vk_valid (sk_public sk) = true;
  sk_sign_verify sk m : vk_verify (sk_public sk) m (sk_sign sk m) = true;
  aead_round_trip k n aad m c :
    aead_encrypt k n aad m = Some c → aead_decrypt k n aad c = Some m;
  aead_length k n aad m c : aead_encrypt k n aad m = Some c → len c = len m + 16
}.
Arguments CryptoLaws C : clear implicits.

(** ** A concrete instance *)

Definition make_array (n : nat) (z : Z) : array n :=
  make (be_bytes n z) (length_be_bytes n z).

Lemma concat_array_length {n m} (a : array n) (b : array m) :
  length (arr a ++ arr b) = (n + m)%nat.
Proof. by rewrite length_app, !array_length. Qed.

Definition concat_array {n m} (a : array n) (b : array m) : array (n + m) :=
  make (arr a ++ arr b) (concat_array_length a b).

Definition toy_hash (m : bytes) : array 32 :=
  let mask := Z.ones 64 in
  let h := make_array 8 (foldl (λ h b, Z.land (h * 257 + b2z b + 1) mask) 7 m) in
  concat_array (concat_array h h) (concat_array h h).
Definition toy_tag (k : array 32) (n : array 24) (aad m : bytes) : bytes :=
  take 8 (arr k) ++ take 8 (arr n).

#[export] Instance toy_crypto : Crypto := {|
  sha256 := toy_hash;
  vk_valid _ := true;
  vk_verify k m s := bool_decide (arr s = arr k ++ arr (toy_hash m));
  sk_public k := k;
  sk_sign k m := concat_array k (toy_hash m);
  aead_encrypt k n aad m := Some (m ++ toy_tag k n aad m);
  aead_decrypt k n aad c :=
    let m := take (length c - 16) c in
    if bool_decide (c = m ++ toy_tag k n aad m) then Some m else None;
  hkdf_sha256 salt ikm info := toy_hash (salt ++ ikm ++ info)
|}.

Lemma toy_tag_length k n aad m : length (toy_tag k n aad m) = 16%nat.
Proof. unfold toy_tag. by rewrite length_app, !length_take, !array_length. Qed.

#[export] Instance toy_crypto_laws : CryptoLaws toy_crypto.
Proof.
  constructor; simpl.
  - done.
  - intros. by apply bool_decide_eq_true.
  - intros k n aad m c [= <-]. rewrite length_app, toy_tag_length, Nat.add_sub.
    rewrite take_app_length. by rewrite bool_decide_eq_true_2.
  - intros k n aad m c [= <-]. unfold len. rewrite length_app, toy_tag_length. lia.
Qed.
