(* ===== verification/Directory.v ===== *)
(** * Directory: the signed relay directory of messenger-transport

    Models the first half of crates/messenger-transport/src/lib.rs:
    [RelayEndpoint], [SignedRelayDirectory] with its canonical signing form,
    verification, encoding and decoding, and the [DirectoryReader]. *)
From Stdlib Require Import ZArith Lia.
From stdpp Require Import base gmap sets list strings.
From S2P Require Import Prelude Cursor Crypto.

Module TransportError.
Inductive t :=
| InvalidDirectorySignature | ExpiredDirectory | DirectoryRollback
| FrameTooLarge | Unavailable | InvalidResponse.
#[export] Instance t_eq_dec : EqDecision t.
Proof. solve_decision. Defined.
End TransportError.

Module RelayEndpoint.
Record t := Make {
  endpoint_id : array 16;
  websocket_url : str;
  https_url : str;
  priority : Z
}.
#[export] Instance t_eq_dec : EqDecision t.
Proof. solve_decision. Defined.
End RelayEndpoint.

Module DirectoryReader.
Definition t (A : Type) : Type := parser TransportError.t A.
Definition take : Z → t bytes := ptake TransportError.InvalidResponse.
Definition array (n : nat) : t (array n) :=
  parray TransportError.InvalidResponse TransportError.InvalidResponse n.
Definition u16 : t Z :=
  pbe TransportError.InvalidResponse TransportError.InvalidResponse 2.
Definition u64 : t Z :=
  pbe TransportError.InvalidResponse TransportError.InvalidResponse 8.
Definition string : parser TransportError.t str :=
  length ← (u16 : parser TransportError.t Z);
  if 2048 <? length then plift (Err TransportError.InvalidResponse)
  else
    b ← (take length : parser TransportError.t bytes);
    plift (ok_or (from_utf8 b) TransportError.InvalidResponse).
Definition finish : t unit := pfinish TransportError.InvalidResponse.
End DirectoryReader.

Definition put_string (out : bytes) (value : str) : result TransportError.t bytes :=
  if 2048 <? len (str_bytes value) then Err TransportError.InvalidResponse
  else Ok (out ++ be_bytes 2 (as_u16 (len (str_bytes value))) ++ str_bytes value).

Module SignedRelayDirectory.
Import RelayEndpoint.

Record t := Make {
  version : Z;
  issued_at : Z;
  expires_at : Z;
  endpoints : list RelayEndpoint.t;
  signature : array 64
}.

Definition domain : bytes := lit "resilient/relay-directory/v1".

(** The comparison of [sort_by_key(|value| (value.priority, value.endpoint_id))]. *)
Definition key_leb (e1 e2 : RelayEndpoint.t) : bool :=
  (priority e1 <? priority e2)
  || ((priority e1 =? priority e2)
      && bytes_leb (arr (endpoint_id e1)) (arr (endpoint_id e2))).

Definition put_endpoint (out : bytes) (e : RelayEndpoint.t) : result TransportError.t bytes :=
  let out := out ++ arr (endpoint_id e) in
  let out := out ++ be_bytes 2 (priority e) in
  out ← put_string out (websocket_url e);
  put_string out (https_url e).

Fixpoint put_endpoints (out : bytes) (es : list RelayEndpoint.t) : result TransportError.t bytes :=
  match es with
  | [] => Ok out
  | e :: es' => out ← put_endpoint out e; put_endpoints out es'
  end.

Definition signing_bytes (d : t) : result TransportError.t bytes :=
  if 32 <? Z.of_nat (length (endpoints d)) then Err TransportError.InvalidResponse
  else
    let out := domain in
    let out := out ++ be_bytes 8 (version d) in
    let out := out ++ be_bytes 8 (issued_at d) in
    let out := out ++ be_bytes 8 (expires_at d) in
    let out := out ++ be_bytes 2 (as_u16 (Z.of_nat (length (endpoints d)))) in
    put_endpoints out (stable_sort key_leb (endpoints d)).

Definition encode (d : t) : result TransportError.t bytes :=
  value ← signing_bytes d; Ok (value ++ arr (signature d)).

Definition url_ok (e : RelayEndpoint.t) : bool :=
  (starts_with (lit "wss://") (str_bytes (websocket_url e))
   || starts_with (lit "ws://") (str_bytes (websocket_url e)))
  && (starts_with (lit "https://") (str_bytes (https_url e))
      || starts_with (lit "http://") (str_bytes (https_url e))).

(** One round of the decoding loop. *)
Definition decode_endpoint : parser TransportError.t RelayEndpoint.t :=
  endpoint_id ← (DirectoryReader.array 16 : parser TransportError.t (array 16));
  priority ← (DirectoryReader.u16 : parser TransportError.t Z);
  websocket_url ← DirectoryReader.string;
  https_url ← DirectoryReader.string;
  let e := RelayEndpoint.Make endpoint_id websocket_url https_url priority in
  if url_ok e then mret e else plift (Err TransportError.InvalidResponse).

Definition decode_body : parser TransportError.t t :=
  tag ← (DirectoryReader.take (len domain) : parser TransportError.t bytes);
  _ ← plift (ensure (bool_decide (tag = domain)) TransportError.InvalidResponse);
  version ← (DirectoryReader.u64 : parser TransportError.t Z);
  issued_at ← (DirectoryReader.u64 : parser TransportError.t Z);
  expires_at ← (DirectoryReader.u64 : parser TransportError.t Z);
  count ← (DirectoryReader.u16 : parser TransportError.t Z);
  _ ← plift (ensure (count <=? 32) TransportError.InvalidResponse);
  endpoints ← prepeat decode_endpoint (Z.to_nat count);
  signature ← (DirectoryReader.array 64 : parser TransportError.t (array 64));
  _ ← (DirectoryReader.finish : parser TransportError.t unit);
  mret (Make version issued_at expires_at endpoints signature).

Definition decode (value : bytes) : result TransportError.t t :=
  run_parser decode_body value.

Section Verify.
Context `{C : Crypto}.

Definition verify (d : t) (public_key : array 32) (now minimum_version : Z)
    : result TransportError.t unit :=
  if version d <? minimum_version then Err TransportError.DirectoryRollback
  else if (saturating_add u64_max now 300 <? issued_at d)
          || (expires_at d <=? now) || (expires_at d <=? issued_at d)
  then Err TransportError.ExpiredDirectory
  else if negb (vk_valid public_key) then Err TransportError.InvalidDirectorySignature
  else
    message ← signing_bytes d;
    if vk_verify public_key message (signature d) then Ok tt
    else Err TransportError.InvalidDirectorySignature.
End Verify.

(** What the Rust field types guarantee. *)
Definition typed (d : t) : Prop :=
  in_u 64 (version d) ∧ in_u 64 (issued_at d) ∧ in_u 64 (expires_at d)
  ∧ Forall (λ e, in_u 16 (priority e)) (endpoints d).
End SignedRelayDirectory.
Import SignedRelayDirectory.

(** ** Codecs of the directory records *)

Definition string_bytes (s : str) : bytes :=
  be_bytes 2 (len (str_bytes s)) ++ str_bytes s.
Definition string_valid (s : str) : Prop := len (str_bytes s) ≤ 2048.

#[export] Instance u16_codec :
  Codec (be_bytes 2) DirectoryReader.u16 (λ z, 0 ≤ z < 256 ^ Z.of_nat 2) := be_codec _ _ 2.
#[export] Instance u64_codec :
  Codec (be_bytes 8) DirectoryReader.u64 (λ z, 0 ≤ z < 256 ^ Z.of_nat 8) := be_codec _ _ 8.
#[export] Instance reader_array_codec n :
  Codec (arr (n := n)) (DirectoryReader.array n) (λ _, True) := array_codec _ _ n.

#[export] Instance string_codec : Codec string_bytes DirectoryReader.string string_valid.
Proof.
  unfold string_bytes, string_valid. constructor.
  - intros pre s rest Hs Hf. unfold DirectoryReader.string.
    rewrite <- app_assoc in Hf |- *.
    parse_read DirectoryReader.u16 (len (str_bytes s)).
    destruct (Z.ltb_spec 2048 (len (str_bytes s))); [lia|].
    unfold mbind, parser_bind, DirectoryReader.take.
    rewrite ptake_app by (done || by rewrite <- app_assoc).
    unfold plift. rewrite from_utf8_str. simpl. by rewrite <- app_assoc.
  - intros pre s x c H. unfold DirectoryReader.string in H. parse_inv H.
    destruct (Z.ltb_spec 2048 a); [by apply plift_Ok in H as []|].
    apply pbind_Ok in H as (b & c1 & Ht & H).
    apply ptake_at_Ok in Ht as (rest' & -> & -> & Hl); [|lia].
    apply plift_Ok in H as [H%ok_or_Ok ->]. apply from_utf8_inv in H as <-.
    unfold len. rewrite Hl. split; [done|]. exists rest'. by rewrite <- !app_assoc.
Qed.

Definition endpoint_bytes (e : RelayEndpoint.t) : bytes :=
  arr (RelayEndpoint.endpoint_id e) ++ be_bytes 2 (RelayEndpoint.priority e)
  ++ string_bytes (RelayEndpoint.websocket_url e)
  ++ string_bytes (RelayEndpoint.https_url e).

Definition endpoint_valid (e : RelayEndpoint.t) : Prop :=
  in_u 16 (RelayEndpoint.priority e)
  ∧ string_valid (RelayEndpoint.websocket_url e)
  ∧ string_valid (RelayEndpoint.https_url e) ∧ url_ok e = true.

#[export] Instance endpoint_codec : Codec endpoint_bytes decode_endpoint endpoint_valid.
Proof.
  constructor.
  - intros pre [i w h p] rest (Hp & Hw & Hh & Hu) Hf.
    unfold decode_endpoint, endpoint_bytes in *.
    cbn [RelayEndpoint.endpoint_id RelayEndpoint.websocket_url
         RelayEndpoint.https_url RelayEndpoint.priority] in *.
    rewrite <- !app_assoc in Hf |- *.
    parse_read (DirectoryReader.array 16) i. parse_read DirectoryReader.u16 p.
    parse_read DirectoryReader.string w. parse_read DirectoryReader.string h.
    rewrite Hu. by rewrite <- !app_assoc.
  - intros pre s e c H. unfold decode_endpoint in H.
    parse_inv H. parse_inv H. parse_inv H. parse_inv H.
    destruct (url_ok _) eqn:Hu; [|by apply plift_Ok in H as []].
    injection H as <- <-. unfold endpoint_bytes, endpoint_valid.
    cbn [RelayEndpoint.endpoint_id RelayEndpoint.websocket_url
         RelayEndpoint.https_url RelayEndpoint.priority].
    split; [by split_and!|]. eexists. by rewrite <- !app_assoc.
Qed.

(** The wire form of a directory with its endpoints in the given order. *)
Definition raw_bytes (d : SignedRelayDirectory.t) : bytes :=
  domain ++ be_bytes 8 (version d) ++ be_bytes 8 (issued_at d)
  ++ be_bytes 8 (expires_at d) ++ be_bytes 2 (Z.of_nat (length (endpoints d)))
  ++ concat (endpoint_bytes <$> endpoints d) ++ arr (signature d).

Definition valid_directory (d : SignedRelayDirectory.t) : Prop :=
  typed d ∧ (length (endpoints d) ≤ 32)%nat ∧ Forall endpoint_valid (endpoints d).

Lemma endpoint_length e : endpoint_valid e → (length (endpoint_bytes e) ≤ 4118)%nat.
Proof.
  intros (_ & Hw & Hh & _). unfold endpoint_bytes, string_bytes, string_valid, len in *.
  rewrite !length_app, array_length, !length_be_bytes. lia.
Qed.

Lemma endpoints_length es :
  Forall endpoint_valid es →
  (length (concat (endpoint_bytes <$> es)) ≤ length es * 4118)%nat.
Proof.
  induction 1 as [|e es He _ IH]; cbn [fmap list_fmap concat length]; [lia|].
  rewrite length_app. pose proof (endpoint_length e He). lia.
Qed.

Lemma raw_fits d : valid_directory d → fits (raw_bytes d).
Proof.
  intros (_ & Hl & Hv). apply endpoints_length in Hv.
  unfold fits, i64_max, raw_bytes. rewrite !length_app, !length_be_bytes, array_length.
  change (length domain) with 28%nat. lia.
Qed.

Lemma decode_exact b d :
  SignedRelayDirectory.decode b = Ok d ↔ valid_directory d ∧ b = raw_bytes d.
Proof.
  unfold SignedRelayDirectory.decode. rewrite run_parser_Ok. split.
  - intros (c & H). unfold decode_body in H.
    apply pbind_Ok in H as (tag & c1 & Ht & H).
    apply ptake_at_Ok in Ht as (rest & -> & -> & _); [|vm_compute; congruence].
    parse_inv H. apply ensure_Ok, bool_decide_eq_true in Ha as ->.
    parse_inv H. parse_inv H. parse_inv H. parse_inv H.
    parse_inv H. apply ensure_Ok, Z.leb_le in Ha.
    parse_inv H. parse_inv H. apply pfinish_bind_Ok in H as [-> [= <- <-]].
    destruct Hv3 as [Hl Hes]. unfold valid_directory, raw_bytes, typed, in_u.
    cbn [version issued_at expires_at endpoints signature].
    rewrite Hl, Z2Nat.id by lia. rewrite app_nil_r. split; [|done].
    split_and!; try (simpl in *; lia); [|done].
    eapply Forall_impl; [exact Hes|]. by intros e [? _].
  - intros [Hd ->]. pose proof (raw_fits d Hd) as Hf.
    destruct d as [v i x es sg], Hd as ((Hv & Hi & Hx & _) & Hl & Hes).
    unfold raw_bytes, decode_body in *. cbn [version issued_at expires_at endpoints signature] in *.
    rewrite <- (app_nil_r (arr sg)) in Hf |- *.
    unfold mbind at 1, parser_bind at 1. unfold DirectoryReader.take.
    rewrite ptake_app by done. rewrite plift_bind.
    rewrite bool_decide_eq_true_2 by done. cbn [ensure]. unfold in_u in *.
    parse_read DirectoryReader.u64 v. parse_read DirectoryReader.u64 i.
    parse_read DirectoryReader.u64 x.
    parse_read DirectoryReader.u16 (Z.of_nat (length es)).
    rewrite plift_bind. destruct (Z.leb_spec (Z.of_nat (length es)) 32); [|lia].
    cbn [ensure]. rewrite Nat2Z.id.
    parse_read (prepeat decode_endpoint (length es)) es.
    parse_read (DirectoryReader.array 64) sg.
    unfold DirectoryReader.finish. rewrite pfinish_bind. eauto.
Qed.

(** ** Encoding *)

(** The directory as the signer orders it. *)
Definition sorted_directory (d : SignedRelayDirectory.t) : SignedRelayDirectory.t :=
  SignedRelayDirectory.Make (version d) (issued_at d) (expires_at d)
    (stable_sort key_leb (endpoints d)) (signature d).

Definition strings_valid (e : RelayEndpoint.t) : Prop :=
  string_valid (RelayEndpoint.websocket_url e) ∧ string_valid (RelayEndpoint.https_url e).

Definition encodable (d : SignedRelayDirectory.t) : Prop :=
  (length (endpoints d) ≤ 32)%nat ∧ Forall strings_valid (endpoints d).

(** The signed part: everything but the signature. *)
Definition signed_part (d : SignedRelayDirectory.t) : bytes :=
  domain ++ be_bytes 8 (version d) ++ be_bytes 8 (issued_at d)
  ++ be_bytes 8 (expires_at d) ++ be_bytes 2 (Z.of_nat (length (endpoints d)))
  ++ concat (endpoint_bytes <$> endpoints d).

Lemma raw_bytes_signed d : raw_bytes d = signed_part d ++ arr (signature d).
Proof. unfold raw_bytes, signed_part. by rewrite <- !app_assoc. Qed.

Lemma put_string_Ok out s b :
  put_string out s = Ok b ↔ string_valid s ∧ b = out ++ string_bytes s.
Proof.
  unfold put_string, string_valid, string_bytes.
  destruct (Z.ltb_spec 2048 (len (str_bytes s))).
  - split; [done|lia].
  - rewrite as_u16_small by (unfold in_u, len in *; lia).
    split; [intros [= <-]; by split; [lia|]|by intros [_ ->]].
Qed.

Lemma put_endpoints_Ok es out b :
  put_endpoints out es = Ok b
  ↔ Forall strings_valid es ∧ b = out ++ concat (endpoint_bytes <$> es).
Proof.
  revert out b. induction es as [|e es IH]; intros out b; cbn [put_endpoints fmap list_fmap concat].
  - rewrite app_nil_r. split; [intros [= <-]; done|by intros [_ ->]].
  - split.
    + intros (o & Ho & H)%bind_Ok. unfold put_endpoint in Ho.
      apply bind_Ok in Ho as (o' & [Hw ->]%put_string_Ok & [Hh ->]%put_string_Ok).
      apply IH in H as [Hes ->]. split; [by constructor|].
      unfold endpoint_bytes. by rewrite <- !app_assoc.
    + intros [[[Hw Hh] Hes]%Forall_cons ->]. unfold put_endpoint.
      set (o' := (out ++ _) ++ _).
      rewrite (proj2 (put_string_Ok o' _ _) (conj Hw eq_refl)). cbn [mbind result_bind].
      rewrite (proj2 (put_string_Ok _ _ _) (conj Hh eq_refl)). cbn [mbind result_bind].
      apply IH. split; [done|]. unfold o', endpoint_bytes. by rewrite <- !app_assoc.
Qed.

Lemma sort_length es : length (stable_sort key_leb es) = length es.
Proof. apply Permutation_length, stable_sort_perm. Qed.

Lemma signing_bytes_Ok d m :
  signing_bytes d = Ok m ↔ encodable d ∧ m = signed_part (sorted_directory d).
Proof.
  unfold signing_bytes, encodable, signed_part, sorted_directory.
  cbn [version issued_at expires_at endpoints]. rewrite sort_length.
  destruct (Z.ltb_spec 32 (Z.of_nat (length (endpoints d)))); [split; [done|lia]|].
  rewrite put_endpoints_Ok, as_u16_small by (unfold in_u; lia).
  rewrite (stable_sort_perm key_leb (endpoints d)) at 1. rewrite <- !app_assoc.
  split; [intros [? ->]; split; [by split; [lia|]|done]|by intros [[_ ?] ->]].
Qed.

Lemma encode_Ok d b :
  SignedRelayDirectory.encode d = Ok b ↔ encodable d ∧ b = raw_bytes (sorted_directory d).
Proof.
  unfold SignedRelayDirectory.encode. rewrite raw_bytes_signed. split.
  - intros (m & [He ->]%signing_bytes_Ok & [= <-])%bind_Ok. done.
  - intros [He ->]. by rewrite (proj2 (signing_bytes_Ok d _) (conj He eq_refl)).
Qed.

Lemma valid_encodable d : valid_directory d → encodable d.
Proof.
  intros (_ & Hl & He). split; [done|]. eapply Forall_impl; [exact He|].
  intros e (_ & ? & ? & _). by split.
Qed.

Lemma sorted_valid d : valid_directory d ↔ valid_directory (sorted_directory d).
Proof.
  unfold valid_directory, typed, sorted_directory.
  cbn [version issued_at expires_at endpoints]. rewrite sort_length.
  by rewrite (stable_sort_perm key_leb (endpoints d)).
Qed.

Lemma key_leb_total e1 e2 : key_leb e1 e2 = true ∨ key_leb e2 e1 = true.
Proof.
  unfold key_leb.
  destruct (bytes_leb_total (arr (RelayEndpoint.endpoint_id e1)) (arr (RelayEndpoint.endpoint_id e2)))
    as [H|H]; rewrite H; lia.
Qed.

Lemma key_leb_trans e1 e2 e3 :
  key_leb e1 e2 = true → key_leb e2 e3 = true → key_leb e1 e3 = true.
Proof.
  unfold key_leb. pose proof (bytes_leb_trans (arr (RelayEndpoint.endpoint_id e1))
    (arr (RelayEndpoint.endpoint_id e2)) (arr (RelayEndpoint.endpoint_id e3))) as Ht.
  destruct (bytes_leb _ _), (bytes_leb _ _), (bytes_leb _ _); intros; lia.
Qed.

Lemma key_leb_antisym e1 e2 :
  key_leb e1 e2 = true → key_leb e2 e1 = true →
  (RelayEndpoint.priority e1, RelayEndpoint.endpoint_id e1)
  = (RelayEndpoint.priority e2, RelayEndpoint.endpoint_id e2).
Proof.
  unfold key_leb. intros H1 H2.
  assert (RelayEndpoint.priority e1 = RelayEndpoint.priority e2) as Hp
    by (destruct (bytes_leb _ _), (bytes_leb _ _); lia).
  rewrite Hp, Z.ltb_irrefl, Z.eqb_refl in *. f_equal.
  by apply array_eq, bytes_leb_antisym.
Qed.

Lemma sorted_directory_idemp d : sorted_directory (sorted_directory d) = sorted_directory d.
Proof.
  unfold sorted_directory. cbn [version issued_at expires_at endpoints signature].
  by rewrite (stable_sort_idemp _ key_leb_total key_leb_trans).
Qed.

(** Directories that differ only in what their wire forms forget verify alike. *)
Lemma verify_sorted_eq `{C : Crypto} d1 d2 pk now minimum :
  sorted_directory d1 = sorted_directory d2 →
  verify d1 pk now minimum = verify d2 pk now minimum.
Proof.
  intros H. pose proof H as H'. unfold sorted_directory in H'. injection H' as Hv Hi Hx Hs Hg.
  assert (signing_bytes d1 = signing_bytes d2) as Hm.
  { assert (length (endpoints d1) = length (endpoints d2)) as Hl
      by by rewrite <- (sort_length (endpoints d1)), Hs, sort_length.
    unfold signing_bytes. by rewrite Hl, Hv, Hi, Hx, Hs. }
  unfold verify. by rewrite Hv, Hi, Hx, Hm, Hg.
Qed.

(** ** Properties *)

(** C23: publishing a directory and reading it back loses nothing that matters:
    a well-typed directory of at most 32 endpoints with acceptable URLs encodes,
    the encoding decodes to the same directory with its endpoints in the
    canonical order, and that directory passes or fails verification exactly
    as the original does, for every key, clock and minimum version. *)
Theorem directory_roundtrip `{C : Crypto} d (Hd : valid_directory d) :
  ∃ b, SignedRelayDirectory.encode d = Ok b
    ∧ SignedRelayDirectory.decode b = Ok (sorted_directory d)
    ∧ endpoints (sorted_directory d) ≡ₚ endpoints d
    ∧ ∀ pk now minimum,
        verify (sorted_directory d) pk now minimum = verify d pk now minimum.
Proof.
  exists (raw_bytes (sorted_directory d)). split_and!.
  - apply encode_Ok. split; [by apply valid_encodable|done].
  - apply decode_exact. split; [by apply sorted_valid in Hd|done].
  - apply stable_sort_perm.
  - intros. apply verify_sorted_eq, sorted_directory_idemp.
Qed.

(** Decoding accepts only canonical input up to the order of the endpoints:
    what is decoded has at most 32 endpoints with ws(s)/http(s) URLs, and, when
    the endpoints arrive in signing order, re-encoding gives the input bytes
    back, so such a directory has a single wire form. *)
Theorem directory_decode_canonical b d
    (H : SignedRelayDirectory.decode b = Ok d)
    (Hs : sorted_by key_leb (endpoints d)) :
  valid_directory d ∧ SignedRelayDirectory.encode d = Ok b.
Proof.
  apply decode_exact in H as [Hd ->]. split; [done|].
  apply encode_Ok. split; [by apply valid_encodable|].
  unfold sorted_directory. rewrite stable_sort_sorted_id by done. by destruct d.
Qed.

(** The signature covers every field: two well-typed encodable directories
    with the same signing bytes have the same version, validity window and
    endpoints (up to the order in which the endpoints are listed), so a
    signature cannot be moved to a directory with other contents. *)
Theorem directory_signing_injective d1 d2 m
    (H1 : valid_directory d1) (H2 : valid_directory d2)
    (Hm1 : signing_bytes d1 = Ok m) (Hm2 : signing_bytes d2 = Ok m) :
  version d1 = version d2 ∧ issued_at d1 = issued_at d2
  ∧ expires_at d1 = expires_at d2 ∧ endpoints d1 ≡ₚ endpoints d2.
Proof.
  apply signing_bytes_Ok in Hm1 as [_ ->], Hm2 as [_ Hm].
  pose (e1 := sorted_directory d1).
  pose (e2 := SignedRelayDirectory.Make (version d2) (issued_at d2) (expires_at d2)
    (stable_sort key_leb (endpoints d2)) (signature d1)).
  assert (e1 = e2) as He.
  { assert (SignedRelayDirectory.decode (raw_bytes e1) = Ok e1) as D1
      by (apply decode_exact; split; [by apply sorted_valid in H1|done]).
    assert (SignedRelayDirectory.decode (raw_bytes e2) = Ok e2) as D2
      by (apply decode_exact; split; [by apply sorted_valid in H2|done]).
    assert (raw_bytes e1 = raw_bytes e2) as Hr
      by (rewrite !raw_bytes_signed; unfold e1; rewrite Hm; done).
    congruence. }
  injection He as Hv Hi Hx Hs. split_and!; try done.
  by rewrite <- (stable_sort_perm key_leb (endpoints d1)), Hs, stable_sort_perm.
Qed.

(** The order in which endpoints are listed is not part of the verdict:
    permuting the endpoints of a directory whose (priority, id) keys are
    distinct leaves [verify] unchanged. *)
Theorem verify_order_irrelevant `{C : Crypto} d es pk now minimum
    (Hp : es ≡ₚ endpoints d)
    (Hk : NoDup ((λ e, (RelayEndpoint.priority e, RelayEndpoint.endpoint_id e)) <$> endpoints d)) :
  verify (SignedRelayDirectory.Make (version d) (issued_at d) (expires_at d) es (signature d))
    pk now minimum = verify d pk now minimum.
Proof.
  apply verify_sorted_eq. unfold sorted_directory.
  cbn [version issued_at expires_at endpoints signature]. f_equal.
  apply (sorted_perm_unique key_leb);
    [by apply stable_sort_sorted; eauto using key_leb_total, key_leb_trans..| |].
  - by rewrite !stable_sort_perm.
  - intros x y. rewrite stable_sort_perm, Hp. intros Hx Hy Hxy Hyx.
    apply (NoDup_key_inj _ _ x y Hk); [done..|].
    by apply key_leb_antisym.
Qed.

(** *** Witnesses *)
Definition sample_endpoint (n p : Z) : RelayEndpoint.t :=
  RelayEndpoint.Make (make_array 16 n) (Str (lit "wss://relay") eq_refl)
    (Str (lit "https://relay") eq_refl) p.
Definition sample_directory : SignedRelayDirectory.t :=
  SignedRelayDirectory.Make 3 100 900 [sample_endpoint 1 4; sample_endpoint 2 7] (fill 64 0).

Lemma sample_directory_valid : valid_directory sample_directory.
Proof.
  unfold valid_directory, typed, in_u, endpoint_valid, string_valid.
  split_and!; repeat constructor; done.
Qed.

Lemma sample_directory_sorted : sorted_by key_leb (endpoints sample_directory).
Proof. repeat constructor. Qed.

Lemma directory_roundtrip_witness :
  ∃ b, SignedRelayDirectory.encode sample_directory = Ok b ∧ len b = 210.
Proof.
  destruct (directory_roundtrip sample_directory sample_directory_valid) as (b & Hb & _).
  exists b. split; [exact Hb|]. vm_compute in Hb. injection Hb as <-. reflexivity.
Defined.

Lemma directory_decode_canonical_witness :
  ∃ b, valid_directory sample_directory ∧ SignedRelayDirectory.encode sample_directory = Ok b.
Proof.
  exists (raw_bytes sample_directory).
  apply (directory_decode_canonical (raw_bytes sample_directory) sample_directory).
  - vm_compute. reflexivity.
  - exact sample_directory_sorted.
Defined.

Lemma directory_signing_injective_witness :
  endpoints sample_directory ≡ₚ rev (endpoints sample_directory).
Proof.
  apply (directory_signing_injective sample_directory
    (SignedRelayDirectory.Make 3 100 900 (rev (endpoints sample_directory)) (fill 64 1))
    (signed_part sample_directory)).
  - exact sample_directory_valid.
  - unfold valid_directory, typed, in_u, endpoint_valid, string_valid.
    split_and!; repeat constructor; done.
  - vm_compute. reflexivity.
  - vm_compute. reflexivity.
Defined.

Lemma verify_order_irrelevant_witness :
  verify (SignedRelayDirectory.Make 3 100 900 (rev (endpoints sample_directory)) (fill 64 0))
    (fill 32 0) 500 0 = Err TransportError.InvalidDirectorySignature.
Proof.
  rewrite (verify_order_irrelevant sample_directory (rev (endpoints sample_directory))
    (fill 32 0) 500 0).
  - vm_compute. reflexivity.
  - apply Permutation_swap.
  - apply (bool_decide_unpack _). vm_compute. exact I.
Defined.
