(* ===== verification/DirectoryTool.v ===== *)
(** * DirectoryTool: the relay-directory command of the network lab

    Models tools/network-lab/src/bin/relay-directory.rs: the hexadecimal codec,
    the [sign] command from the parsed arguments on and the [verify] command
    on the bytes of its input file.  DirectoryCli models the argument strings and
    the files around them. *)
From Stdlib Require Import ZArith Lia.
From stdpp Require Import base list strings.
From S2P Require Import Prelude Cursor Crypto Directory.
Import SignedRelayDirectory.

Module HexError.
Inductive t := OddLength | InvalidHex.
End HexError.

Definition hex_nibble (value : byte) : result HexError.t Z :=
  let v := b2z value in
  if (48 <=? v) && (v <=? 57) then Ok (v - 48)
  else if (97 <=? v) && (v <=? 102) then Ok (v - 97 + 10)
  else if (65 <=? v) && (v <=? 70) then Ok (v - 65 + 10)
  else Err HexError.InvalidHex.

(** The map over [as_chunks::<2>().0]; a last lone byte is not a chunk. *)
Fixpoint decode_chunks (value : bytes) : result HexError.t bytes :=
  match value with
  | h :: l :: rest =>
      high ← hex_nibble h;
      low ← hex_nibble l;
      tail ← decode_chunks rest;
      Ok (z2b (Z.lor (wrap 8 (Z.shiftl high 4)) low) :: tail)
  | _ => Ok []
  end.

Definition decode_hex (value : bytes) : result HexError.t bytes :=
  if negb (len value mod 2 =? 0) then Err HexError.OddLength else decode_chunks value.

Definition HEX : bytes := lit "0123456789abcdef".
Definition hex_digit (n : Z) : byte := nth (Z.to_nat n) HEX Init.Byte.x00.

Definition encode_hex (value : bytes) : bytes :=
  concat ((λ b, [hex_digit (Z.shiftr (b2z b) 4); hex_digit (Z.land (b2z b) 15)]) <$> value).

Section Commands.
Context `{C : Crypto}.

(** The [sign] command: the directory file for a signing key. *)
Definition sign_command (key : array 32) (version issued_at expires_at : Z)
    (endpoints : list RelayEndpoint.t) : result TransportError.t bytes :=
  let directory :=
    SignedRelayDirectory.Make version issued_at expires_at endpoints (fill 64 0) in
  message ← signing_bytes directory;
  SignedRelayDirectory.encode
    (SignedRelayDirectory.Make version issued_at expires_at endpoints (sk_sign key message)).

(** The [verify] command: the version it reports. *)
Definition verify_command (public_key : array 32) (input : bytes) (now minimum : Z)
    : result TransportError.t Z :=
  directory ← SignedRelayDirectory.decode input;
  _ ← verify directory public_key now minimum;
  Ok (version directory).
End Commands.

(** ** Hexadecimal *)

(** ASCII lower case of a hexadecimal digit. *)
Definition lower_hex (b : byte) : byte :=
  if (65 <=? b2z b) && (b2z b <=? 70) then z2b (b2z b + 32) else b.

Lemma encode_decode_byte b :
  hex_nibble (hex_digit (Z.shiftr (b2z b) 4)) = Ok (Z.shiftr (b2z b) 4)
  ∧ hex_nibble (hex_digit (Z.land (b2z b) 15)) = Ok (Z.land (b2z b) 15)
  ∧ z2b (Z.lor (wrap 8 (Z.shiftl (Z.shiftr (b2z b) 4) 4)) (Z.land (b2z b) 15)) = b.
Proof. destruct b; vm_compute; done. Qed.

Lemma decode_encode_pair h l x y :
  hex_nibble h = Ok x → hex_nibble l = Ok y →
  [hex_digit (Z.shiftr (b2z (z2b (Z.lor (wrap 8 (Z.shiftl x 4)) y))) 4);
   hex_digit (Z.land (b2z (z2b (Z.lor (wrap 8 (Z.shiftl x 4)) y))) 15)]
  = [lower_hex h; lower_hex l].
Proof.
  intros Hh Hl.
  assert (∀ n z, hex_nibble n = Ok z → 0 ≤ z < 16 ∧ hex_digit z = lower_hex n) as Hn.
  { clear. intros n z H. destruct n; vm_compute in H; first [discriminate H|injection H as <-];
      (split; [lia|reflexivity]). }
  apply Hn in Hh as [Hx <-], Hl as [Hy <-].
  assert (∀ z, 0 ≤ z < 16 → z ∈ seqZ 0 16) as Hin by (intros; apply elem_of_seqZ; lia).
  apply Hin in Hx, Hy. clear Hn Hin h l.
  assert (Forall (λ x, Forall (λ y,
    [hex_digit (Z.shiftr (b2z (z2b (Z.lor (wrap 8 (Z.shiftl x 4)) y))) 4);
     hex_digit (Z.land (b2z (z2b (Z.lor (wrap 8 (Z.shiftl x 4)) y))) 15)]
    = [hex_digit x; hex_digit y]) (seqZ 0 16)) (seqZ 0 16)) as H
    by (apply (bool_decide_unpack _); vm_compute; exact I).
  rewrite Forall_forall in H. specialize (H x Hx). rewrite Forall_forall in H. by apply H.
Qed.

Lemma decode_chunks_encode value : decode_chunks (encode_hex value) = Ok value.
Proof.
  induction value as [|b value IH]; [done|]. unfold encode_hex in *.
  cbn [fmap list_fmap concat app decode_chunks].
  destruct (encode_decode_byte b) as (-> & -> & Hb). cbn [mbind result_bind].
  rewrite IH. cbn [mbind result_bind]. by rewrite Hb.
Qed.

Lemma encode_hex_length value : length (encode_hex value) = (2 * length value)%nat.
Proof.
  induction value as [|b value IH]; [done|]. unfold encode_hex in *.
  cbn [fmap list_fmap concat app length]. lia.
Qed.

Lemma encode_decode_chunks value b :
  Z.of_nat (length value) mod 2 = 0 → decode_chunks value = Ok b → encode_hex b = lower_hex <$> value.
Proof.
  assert (∀ n value b, (length value ≤ n)%nat → Z.of_nat (length value) mod 2 = 0 →
    decode_chunks value = Ok b → encode_hex b = lower_hex <$> value) as Hgen; [|by eauto].
  clear. intros n. induction n as [|n IH]; intros value b Hn Hm H.
  - destruct value; [|simpl in Hn; lia]. by injection H as <-.
  - destruct value as [|h [|l value]]; [by injection H as <-|by vm_compute in Hm|].
    cbn [decode_chunks] in H.
    apply bind_Ok in H as (x & Hx & (y & Hy & (t & Ht & [= <-])%bind_Ok)%bind_Ok).
    pose proof (decode_encode_pair h l x y Hx Hy) as Hp.
    unfold encode_hex in *. cbn [fmap list_fmap concat]. rewrite Hp. cbn [app].
    do 2 f_equal. apply IH; [simpl in Hn; lia| |done].
    cbn [length] in Hm. rewrite <- Hm.
    replace (Z.of_nat (S (S (length value)))) with (Z.of_nat (length value) + 1 * 2) by lia.
    by rewrite Z.mod_add by lia.
Qed.

(** ** Properties *)

(** The hexadecimal codec is a round trip both ways: decoding the encoding
    of any bytes gives them back, and whatever decodes re-encodes to the same
    text in lower case, so odd lengths and other characters are the only
    rejected inputs and no two byte strings share a text. *)
Theorem hex_roundtrip value :
  decode_hex (encode_hex value) = Ok value
  ∧ ∀ b, decode_hex value = Ok b → encode_hex b = lower_hex <$> value.
Proof.
  unfold decode_hex, len. split.
  - rewrite encode_hex_length, Nat2Z.inj_mul.
    replace (_ mod 2) with 0 by (rewrite Z.mul_comm, Z.mod_mul; lia).
    apply decode_chunks_encode.
  - intros b H. destruct (Z.eqb_spec (Z.of_nat (length value) mod 2) 0); [|done].
    by apply encode_decode_chunks.
Qed.

(** A directory produced by the [sign] command is accepted by the [verify]
    command under the signer's public key exactly when its version is not
    below the minimum and the clock is inside its window (with 300 s of
    tolerance before it): the only verdicts are rollback, expired, and success
    with the signed version; the signature itself always checks. *)
Theorem sign_then_verify `{C : Crypto} (L : CryptoLaws C) key v i x es now minimum
    (Hv : in_u 64 v) (Hi : in_u 64 i) (Hx : in_u 64 x)
    (Hl : (length es ≤ 32)%nat) (He : Forall endpoint_valid es) :
  ∃ file, sign_command key v i x es = Ok file
    ∧ verify_command (sk_public key) file now minimum
      = if v <? minimum then Err TransportError.DirectoryRollback
        else if (saturating_add u64_max now 300 <? i) || (x <=? now) || (x <=? i)
        then Err TransportError.ExpiredDirectory
        else Ok v.
Proof.
  set (m := signed_part (sorted_directory (SignedRelayDirectory.Make v i x es (fill 64 0)))).
  set (d := SignedRelayDirectory.Make v i x es (sk_sign key m)).
  assert (valid_directory d) as Hd.
  { unfold valid_directory, typed. cbn [version issued_at expires_at endpoints d].
    split_and!; try done. eapply Forall_impl; [exact He|]. by intros e [? _]. }
  assert (∀ s, signing_bytes (SignedRelayDirectory.Make v i x es s) = Ok m) as Hm
    by (intros s; apply signing_bytes_Ok; split; [exact (valid_encodable _ Hd)|done]).
  exists (raw_bytes (sorted_directory d)). split.
  - unfold sign_command. rewrite Hm. cbn [mbind result_bind].
    apply encode_Ok. split; [by apply valid_encodable|done].
  - unfold verify_command.
    rewrite (proj2 (decode_exact _ _) (conj (proj1 (sorted_valid d) Hd) eq_refl)).
    cbn [mbind result_bind].
    rewrite (verify_sorted_eq _ d _ _ _ (sorted_directory_idemp d)).
    unfold verify. rewrite sk_public_valid.
    rewrite (Hm _ : signing_bytes d = Ok m). cbn [version issued_at expires_at d].
    destruct (v <? minimum); [done|].
    destruct (_ || _); [done|]. cbn [negb mbind result_bind signature d].
    by rewrite sk_sign_verify.
Qed.

Lemma sign_then_verify_witness :
  ∃ file, sign_command (fill 32 5) 3 100 900 (endpoints sample_directory) = Ok file
    ∧ verify_command (C := toy_crypto) (fill 32 5) file 500 2 = Ok 3.
Proof.
  apply (sign_then_verify toy_crypto_laws (fill 32 5) 3 100 900
    (endpoints sample_directory) 500 2).
  - unfold in_u; lia.
  - unfold in_u; lia.
  - unfold in_u; lia.
  - simpl; lia.
  - exact (proj2 (proj2 sample_directory_valid)).
Defined.
