(* ===== verification/Manager.v ===== *)
(** * Manager: the TransportManager of messenger-transport

    Models the second half of crates/messenger-transport/src/lib.rs: the
    in-memory outbox, the per-relay health and backoff, the byte counters and
    [flush], with the network as an [EndpointSender] that carries a state of
    its own.  The sender the program uses, [NetworkSender], is modelled in Network. *)
From Stdlib Require Import ZArith Lia.
From Stdlib Require Import Sorting.Sorted.
From stdpp Require Import base gmap list strings.
From S2P Require Import Prelude Cursor Protocol Crypto Directory.
Import SignedRelayDirectory.

(** The trait [EndpointSender]: what the network, in state [S], answers. *)
Class EndpointSender (S : Type) := {
  send_websocket : S → RelayEndpoint.t → bytes → result TransportError.t bytes * S;
  send_https : S → RelayEndpoint.t → bytes → result TransportError.t bytes * S
}.

Module QueuedFrame.
Record t := Make { client_message_id : Id; contents : bytes }.
End QueuedFrame.

Module Health.
Record t := Make { failures : Z; retry_after : Z }.
Definition default_health : t := Make 0 0.
End Health.

Module ByteCounters.
Record t := Make {
  sent : Z; received : Z; attempts : Z;
  websocket_failures : Z; https_failures : Z; relay_switches : Z
}.
Definition zero : t := Make 0 0 0 0 0 0.
(** [+=] on u64 fields, wrapping as release builds do. *)
Definition add (c d : t) : t :=
  Make (as_u64 (sent c + sent d)) (as_u64 (received c + received d))
    (as_u64 (attempts c + attempts d))
    (as_u64 (websocket_failures c + websocket_failures d))
    (as_u64 (https_failures c + https_failures d))
    (as_u64 (relay_switches c + relay_switches d)).
Definition attempt (n : Z) : t := Make n 0 1 0 0 0.
Definition websocket_failure : t := Make 0 0 0 1 0 0.
Definition https_failure : t := Make 0 0 0 0 1 0.
Definition receipt (n : Z) : t := Make 0 n 0 0 0 0.
Definition relay_switch : t := Make 0 0 0 0 0 1.
End ByteCounters.

Module TransportManager.
Section Manager.
Context `{C : Crypto} {S : Type} `{N : EndpointSender S}.

Record t := Make {
  sender : S;
  directory : SignedRelayDirectory.t;
  verification_key : array 32;
  outbox : list QueuedFrame.t;
  health : gmap (array 16) Health.t;
  counters : ByteCounters.t;
  preferred_endpoint : option (array 16)
}.

Definition set_sender (s : S) (m : t) : t :=
  Make s (directory m) (verification_key m) (outbox m) (health m) (counters m)
    (preferred_endpoint m).
Definition set_outbox (q : list QueuedFrame.t) (m : t) : t :=
  Make (sender m) (directory m) (verification_key m) q (health m) (counters m)
    (preferred_endpoint m).
Definition set_health (h : gmap (array 16) Health.t) (m : t) : t :=
  Make (sender m) (directory m) (verification_key m) (outbox m) h (counters m)
    (preferred_endpoint m).
Definition count (c : ByteCounters.t) (m : t) : t :=
  Make (sender m) (directory m) (verification_key m) (outbox m) (health m)
    (ByteCounters.add (counters m) c) (preferred_endpoint m).
Definition set_preferred (p : array 16) (m : t) : t :=
  Make (sender m) (directory m) (verification_key m) (outbox m) (health m)
    (counters m) (Some p).

Definition new (s : S) (d : SignedRelayDirectory.t) (key : array 32) (now : Z)
    : result TransportError.t t :=
  _ ← verify d key now 0;
  Ok (Make s d key [] ∅ ByteCounters.zero None).

Definition update_directory (next : SignedRelayDirectory.t) (now : Z) (m : t)
    : result TransportError.t unit * t :=
  match verify next (verification_key m) now (version (directory m)) with
  | Ok _ =>
      (Ok tt, Make (sender m) next (verification_key m) (outbox m) (health m)
                (counters m) (preferred_endpoint m))
  | Err e => (Err e, m)
  end.

Definition enqueue (frame : TransportFrame.t) (m : t) : result TransportError.t unit * t :=
  match TransportFrame.encode frame with
  | Err _ => (Err TransportError.FrameTooLarge, m)
  | Ok b =>
      let i := TransportFrame.client_message_id frame in
      if existsb (λ q, bool_decide (QueuedFrame.client_message_id q = i)) (outbox m)
      then (Ok tt, m)
      else (Ok tt, set_outbox (outbox m ++ [QueuedFrame.Make i b]) m)
  end.

Definition pending_count (m : t) : nat := length (outbox m).

Definition notify_network_change (m : t) : t :=
  set_health ((λ h, Health.Make (Health.failures h) 0) <$> health m) m.

(** [values().filter(..).map(..).min()] *)
Definition next_retry_at (m : t) : option Z :=
  map_fold (λ _ h acc,
    if 0 <? Health.retry_after h
    then Some (match acc with Some a => Z.min a (Health.retry_after h)
               | None => Health.retry_after h end)
    else acc) None (health m).

(** The sort key [(preferred != Some(id), priority)], compared as a tuple. *)
Definition order_leb (preferred : option (array 16)) (e1 e2 : RelayEndpoint.t) : bool :=
  let k e := negb (bool_decide (preferred = Some (RelayEndpoint.endpoint_id e))) in
  match k e1, k e2 with
  | false, true => true
  | true, false => false
  | _, _ => RelayEndpoint.priority e1 <=? RelayEndpoint.priority e2
  end.

(** The state of a relay after one more failure. *)
Definition backoff (now : Z) (e : RelayEndpoint.t) (h : Health.t) : Health.t :=
  let failures := saturating_add u32_max (Health.failures h) 1 in
  let base := Z.shiftl 1 (Z.min failures 8) in
  let jitter := b2z (nth 0 (arr (RelayEndpoint.endpoint_id e)) Init.Byte.x00) mod Z.max base 1 in
  Health.Make failures (saturating_add u64_max now (base + jitter)).

(** One exchange with a relay: WebSocket, then HTTPS if that fails. *)
Definition exchange (e : RelayEndpoint.t) (frame : bytes) (m : t)
    : result TransportError.t bytes * t :=
  let m := count (ByteCounters.attempt (len frame)) m in
  let '(r, s) := send_websocket (sender m) e frame in
  let m := set_sender s m in
  match r with
  | Ok value => (Ok value, m)
  | Err _ =>
      let m := count ByteCounters.websocket_failure m in
      let m := count (ByteCounters.attempt (len frame)) m in
      let '(r, s) := send_https (sender m) e frame in
      (r, set_sender s m)
  end.

(** [self.health.entry(id).or_default()] *)
Definition health_of (i : array 16) (m : t) : Health.t :=
  default Health.default_health (health m !! i).

(** The [Ok] arm of a round: the relay is healthy and preferred from now on. *)
Definition record_success (highest_priority : option (array 16)) (i : array 16)
    (value : bytes) (m : t) : t :=
  let m := set_health (<[i := Health.Make 0 0]> (health m)) m in
  let m := count (ByteCounters.receipt (len value)) m in
  let m :=
    if bool_decide (preferred_endpoint m ≠ Some i)
       && (bool_decide (preferred_endpoint m ≠ None)
           || bool_decide (highest_priority ≠ Some i))
    then count ByteCounters.relay_switch m else m in
  set_preferred i m.

(** The [Err] arm: [h] is the entry borrowed before the exchange. *)
Definition record_failure (now : Z) (e : RelayEndpoint.t) (h : Health.t) (m : t) : t :=
  let m := count ByteCounters.https_failure m in
  set_health (<[RelayEndpoint.endpoint_id e := backoff now e h]> (health m)) m.

(** One round of the loop over endpoints; [Some] is the [break]. *)
Definition try_endpoint (now : Z) (highest_priority : option (array 16))
    (frame : bytes) (e : RelayEndpoint.t) (m : t) : option bytes * t :=
  let i := RelayEndpoint.endpoint_id e in
  let h := health_of i m in
  let m := set_health (<[i := h]> (health m)) m in
  if now <? Health.retry_after h then (None, m)
  else
    match exchange e frame m with
    | (Ok value, m) => (Some value, record_success highest_priority i value m)
    | (Err _, m) => (None, record_failure now e h m)
    end.

Fixpoint try_endpoints (now : Z) (highest_priority : option (array 16))
    (frame : bytes) (es : list RelayEndpoint.t) (m : t) : option bytes * t :=
  match es with
  | [] => (None, m)
  | e :: es' =>
      match try_endpoint now highest_priority frame e m with
      | (Some value, m) => (Some value, m)
      | (None, m) => try_endpoints now highest_priority frame es' m
      end
  end.

Definition ordered_endpoints (m : t) : list RelayEndpoint.t :=
  stable_sort (order_leb (preferred_endpoint m)) (endpoints (directory m)).

(** The [while let Some(frame) = self.outbox.front()] loop: [q] is the outbox. *)
Fixpoint flush_loop (now : Z) (q : list QueuedFrame.t) (responses : list bytes) (m : t)
    : result TransportError.t (list bytes) * t :=
  match q with
  | [] => (Ok responses, m)
  | frame :: q' =>
      let es := ordered_endpoints m in
      let highest_priority := RelayEndpoint.endpoint_id <$> head es in
      match try_endpoints now highest_priority (QueuedFrame.contents frame) es m with
      | (Some value, m) => flush_loop now q' (responses ++ [value]) (set_outbox q' m)
      | (None, m) => (Err TransportError.Unavailable, m)
      end
  end.

Definition flush (now : Z) (m : t) : result TransportError.t (list bytes) * t :=
  flush_loop now (outbox m) [] m.
End Manager.
Arguments t S : clear implicits.
End TransportManager.
Import TransportManager.

(** ** Observing the network

    [logged] wraps a sender so that its state also records every call; the
    theorems about what [flush] sends read the log.  [forget_flush] states
    that logging changes nothing else. *)
Module Log.
Inductive entry :=
| Websocket (e : RelayEndpoint.t) (frame : bytes) (r : result TransportError.t bytes)
| Https (e : RelayEndpoint.t) (frame : bytes) (r : result TransportError.t bytes).

Definition frame (x : entry) : bytes :=
  match x with Websocket _ f _ | Https _ f _ => f end.
Definition endpoint (x : entry) : RelayEndpoint.t :=
  match x with Websocket e _ _ | Https e _ _ => e end.
Definition answer (x : entry) : result TransportError.t bytes :=
  match x with Websocket _ _ r | Https _ _ r => r end.
(** The frame of an answered exchange, with the answer. *)
Definition success (x : entry) : option (bytes * bytes) :=
  match answer x with Ok v => Some (frame x, v) | Err _ => None end.
Definition failed_id (x : entry) : option (array 16) :=
  match x with Https e _ (Err _) => Some (RelayEndpoint.endpoint_id e) | _ => None end.
Definition websocket_failed (x : entry) : bool :=
  match x with Websocket _ _ (Err _) => true | _ => false end.

Definition successes (l : list entry) : list (bytes * bytes) := omap success l.
Definition failed_ids (l : list entry) : list (array 16) := omap failed_id l.
Definition total (f : entry → Z) (l : list entry) : Z := foldr (λ x z, f x + z) 0 l.

Definition received (x : entry) : Z := match answer x with Ok v => len v | Err _ => 0 end.

#[global] Instance logged {S} `{EndpointSender S} : EndpointSender (S * list entry) := {|
  send_websocket '(s, l) e f :=
    let '(r, s) := send_websocket s e f in (r, (s, l ++ [Websocket e f r]));
  send_https '(s, l) e f :=
    let '(r, s) := send_https s e f in (r, (s, l ++ [Https e f r]))
|}.

Definition trace {S} (m : TransportManager.t (S * list entry)) : list entry := snd (sender m).

Lemma total_app f l1 l2 : total f (l1 ++ l2) = total f l1 + total f l2.
Proof. induction l1; simpl; lia. Qed.
Lemma total_snoc f l x : total f (l ++ [x]) = total f l + f x.
Proof. rewrite total_app. cbn. lia. Qed.
Lemma failed_snoc l x :
  Z.of_nat (length (failed_ids (l ++ [x])))
  = Z.of_nat (length (failed_ids l)) + (if failed_id x is Some _ then 1 else 0).
Proof. unfold failed_ids. rewrite omap_app, length_app. cbn. destruct (failed_id x); cbn; lia. Qed.
Lemma length_snoc (l : list entry) x : Z.of_nat (length (l ++ [x])) = Z.of_nat (length l) + 1.
Proof. rewrite length_app. cbn. lia. Qed.
Lemma successes_app l1 l2 : successes (l1 ++ l2) = successes l1 ++ successes l2.
Proof. apply omap_app. Qed.
Lemma failed_ids_app l1 l2 : failed_ids (l1 ++ l2) = failed_ids l1 ++ failed_ids l2.
Proof. apply omap_app. Qed.
End Log.


(** ** One endpoint *)

Section Endpoint.
Context {S : Type} `{N : EndpointSender S}.
Implicit Types m : TransportManager.t S.

(** A relay is cooling down: [flush] at time [now] skips it. *)
Definition cooling (now : Z) (i : array 16) m : Prop := now < Health.retry_after (health_of i m).

(** What [flush] never changes. *)
Definition same_identity m m' : Prop :=
  directory m' = directory m ∧ verification_key m' = verification_key m.

Lemma exchange_frame e f m r m' :
  exchange e f m = (r, m') →
  same_identity m m' ∧ outbox m' = outbox m ∧ health m' = health m
  ∧ preferred_endpoint m' = preferred_endpoint m.
Proof.
  unfold exchange. destruct (send_websocket _ e f) as [[v|x] s]; [by intros [= <- <-]|].
  destruct (send_https _ e f) as [r' s']. by intros [= <- <-].
Qed.

Lemma record_success_frame hp i v m :
  let m' := record_success hp i v m in
  same_identity m m' ∧ outbox m' = outbox m ∧ sender m' = sender m
  ∧ health m' = <[i := Health.Make 0 0]> (health m) ∧ preferred_endpoint m' = Some i.
Proof. unfold record_success. by destruct (_ && _). Qed.

Lemma try_endpoint_frame now hp f e m :
  let m' := (try_endpoint now hp f e m).2 in
  same_identity m m' ∧ outbox m' = outbox m.
Proof.
  unfold try_endpoint. destruct (now <? _); [done|].
  destruct (exchange _ _ _) as [[v|x] m1] eqn:He; apply exchange_frame in He as ([] & Ho & _).
  - cbn [snd]. destruct (record_success_frame hp (RelayEndpoint.endpoint_id e) v m1)
      as ([] & -> & _). split; [split|]; simpl in *; congruence.
  - done.
Qed.

(** The health map after a round, at every relay id. *)
Lemma try_endpoint_health now hp f e m i :
  let r := try_endpoint now hp f e m in
  health_of i r.2 =
    if decide (i = RelayEndpoint.endpoint_id e) then
      match r.1 with
      | Some _ => Health.Make 0 0
      | None => if now <? Health.retry_after (health_of i m) then health_of i m
                else backoff now e (health_of i m)
      end
    else health_of i m.
Proof.
  unfold try_endpoint. set (j := RelayEndpoint.endpoint_id e).
  assert (∀ h (g : gmap (array 16) Health.t), default Health.default_health (<[j := h]> g !! i)
    = if decide (i = j) then h else default Health.default_health (g !! i)) as Hins.
  { intros h g. destruct (decide (i = j)) as [->|]; [by rewrite lookup_insert_eq|].
    by rewrite lookup_insert_ne. }
  destruct (Z.ltb_spec now (Health.retry_after (health_of j m))).
  - cbn [fst snd]. unfold health_of at 1. cbn [health set_health]. rewrite Hins.
    destruct (decide _) as [->|]; [|done].
    by destruct (Z.ltb_spec now (Health.retry_after (health_of j m))); [|lia].
  - destruct (exchange _ _ _) as [[v|x] m1] eqn:He;
      apply exchange_frame in He as (_ & _ & Hh & _); cbn [fst snd] in *.
    + destruct (record_success_frame hp j v m1) as (_ & _ & _ & Hh' & _).
      unfold health_of. rewrite Hh', Hh. cbn [health set_health]. rewrite !Hins.
      by destruct (decide _).
    + unfold record_failure, health_of at 1. cbn [health set_health count].
      rewrite Hins, Hh. cbn [health set_health]. rewrite Hins.
      destruct (decide _) as [->|]; [|done].
      by destruct (Z.ltb_spec now (Health.retry_after (health_of j m))); [lia|].
Qed.

Lemma backoff_bounds now e h :
  in_u 64 now → 0 ≤ Health.failures h ≤ u32_max →
  let h' := backoff now e h in
  Health.failures h' = Z.min u32_max (Health.failures h + 1)
  ∧ Z.min u64_max (now + 2 ^ Z.min (Health.failures h') 8) ≤ Health.retry_after h'
  ∧ Health.retry_after h' < now + 2 * 2 ^ Z.min (Health.failures h') 8
  ∧ Health.retry_after h' ≤ now + 511.
Proof.
  unfold backoff, saturating_add, in_u. cbn [Health.failures Health.retry_after].
  set (f := Z.min u32_max _). intros Hn Hf.
  assert (1 ≤ f) by (unfold f, u32_max in *; lia).
  rewrite Z.shiftl_1_l. set (k := Z.min f 8).
  assert (1 ≤ k ≤ 8) as Hk by (unfold k; lia).
  assert (2 ^ k ≤ 2 ^ 8) by (apply Z.pow_le_mono_r; lia).
  assert (2 ^ 1 ≤ 2 ^ k) by (apply Z.pow_le_mono_r; lia).
  rewrite Z.max_l by lia.
  pose proof (Z.mod_pos_bound (b2z (nth 0 (arr (RelayEndpoint.endpoint_id e)) Init.Byte.x00)) (2 ^ k)).
  unfold u64_max. split_and!; lia.
Qed.
End Endpoint.

(** ** Invariants of a flush *)

Section Flush.
Context {S : Type} `{N : EndpointSender S}.
Implicit Types m : TransportManager.t S.

Lemma try_endpoints_frame now hp f es m :
  let m' := (try_endpoints now hp f es m).2 in
  same_identity m m' ∧ outbox m' = outbox m.
Proof.
  revert m. induction es as [|e es IH]; intros m; [done|]. cbn [try_endpoints].
  pose proof (try_endpoint_frame now hp f e m) as H.
  destruct (try_endpoint now hp f e m) as [[v|] m1]; [done|]. cbn [snd] in H.
  specialize (IH m1) as [[Hd Hk] Ho]. destruct H as [[Hd' Hk'] Ho'].
  split; [split|]; simpl in *; congruence.
Qed.

(** A property that every round preserves is preserved by the whole loop. *)
Lemma try_endpoints_preserves (P : TransportManager.t S → Prop) now hp f es m :
  (∀ e m, e ∈ es → P m → P (try_endpoint now hp f e m).2) → P m →
  P (try_endpoints now hp f es m).2.
Proof.
  revert m. induction es as [|e es IH]; intros m Hstep HP; [done|]. cbn [try_endpoints].
  pose proof (Hstep e m ltac:(left) HP) as H.
  destruct (try_endpoint now hp f e m) as [[v|] m1]; [done|].
  apply IH; [|done]. intros e' m' He'. apply Hstep. by right.
Qed.

Lemma ordered_endpoints_perm m : ordered_endpoints m ≡ₚ endpoints (directory m).
Proof. apply stable_sort_perm. Qed.

Lemma flush_loop_preserves (P : TransportManager.t S → Prop) now q rs m :
  (∀ hp f e m, f ∈ (QueuedFrame.contents <$> q) → e ∈ endpoints (directory m) → P m →
     P (try_endpoint now hp f e m).2) →
  (∀ q m, P m → P (set_outbox q m)) → P m →
  P (flush_loop now q rs m).2.
Proof.
  intros Hstep Hq. revert rs m. induction q as [|x q IH]; intros rs m HP; [done|].
  cbn [flush_loop].
  assert (P (try_endpoints now (RelayEndpoint.endpoint_id <$> head (ordered_endpoints m))
    (QueuedFrame.contents x) (ordered_endpoints m) m).2) as HP'.
  { assert (∀ m0, directory m0 = directory m → P m0 →
      directory (try_endpoints now (RelayEndpoint.endpoint_id <$> head (ordered_endpoints m))
        (QueuedFrame.contents x) (ordered_endpoints m) m0).2 = directory m ∧
      P (try_endpoints now (RelayEndpoint.endpoint_id <$> head (ordered_endpoints m))
        (QueuedFrame.contents x) (ordered_endpoints m) m0).2) as H; [|by apply H].
    intros m0 Hd0 HP0.
    apply (try_endpoints_preserves (λ m1, directory m1 = directory m ∧ P m1)); [|done].
    intros e m1 He [Hd1 HP1]. rewrite ordered_endpoints_perm in He. split.
    - pose proof (try_endpoint_frame now
        (RelayEndpoint.endpoint_id <$> head (ordered_endpoints m)) (QueuedFrame.contents x) e m1)
        as [[-> _] _]. done.
    - apply Hstep; [left|by rewrite Hd1|done]. }
  destruct (try_endpoints _ _ _ _ m) as [[v|] m1]; [|done].
  apply IH; [|by apply Hq]. intros. apply Hstep; [by right|done..].
Qed.

Lemma flush_identity now m : same_identity m (flush now m).2.
Proof.
  unfold flush. apply (flush_loop_preserves (λ m', same_identity m m')).
  - intros hp f e m' _ _ [Hd Hk].
    pose proof (try_endpoint_frame now hp f e m') as [[] _]. split; congruence.
  - done.
  - done.
Qed.
End Flush.

(** ** What the log says *)

Section Logged.
Context {S : Type} `{N : EndpointSender S}.
Implicit Types m : TransportManager.t (S * list Log.entry).

Lemma exchange_log e f m r m' :
  exchange e f m = (r, m') →
  ∃ l, Log.trace m' = Log.trace m ++ l
    ∧ Log.successes l = match r with Ok v => [(f, v)] | Err _ => [] end
    ∧ Log.failed_ids l = match r with Ok _ => [] | Err _ => [RelayEndpoint.endpoint_id e] end
    ∧ Forall (λ x, Log.endpoint x = e) l.
Proof.
  unfold exchange, Log.trace. destruct m as [[s tr] d key q h c p]. cbn.
  destruct (send_websocket s e f) as [[v|x] s1]; cbn.
  - intros [= <- <-]. eexists. split; [done|]. by repeat constructor.
  - destruct (send_https s1 e f) as [[v|y] s2]; cbn; intros [= <- <-]; cbn;
      rewrite <- app_assoc; eexists; (split; [done|]); by repeat constructor.
Qed.

(** A round adds to the log one answered exchange, one failed exchange, or
    nothing; nothing is added for a relay that is cooling down. *)
Lemma try_endpoint_log now hp f e m :
  let r := try_endpoint now hp f e m in
  ∃ l, Log.trace r.2 = Log.trace m ++ l
    ∧ Log.successes l = match r.1 with Some v => [(f, v)] | None => [] end
    ∧ Forall (λ x, Log.endpoint x = e) l
    ∧ (cooling now (RelayEndpoint.endpoint_id e) m → l = [])
    ∧ (Log.failed_ids l = []
       ∨ Log.failed_ids l = [RelayEndpoint.endpoint_id e]
         ∧ r.1 = None ∧ ¬ cooling now (RelayEndpoint.endpoint_id e) m).
Proof.
  unfold try_endpoint, cooling. destruct (Z.ltb_spec now (Health.retry_after
    (health_of (RelayEndpoint.endpoint_id e) m))).
  - exists []. rewrite app_nil_r. split_and!; [done..|by left].
  - destruct (exchange _ _ _) as [[v|x] m1] eqn:He;
      apply exchange_log in He as (l & Ht & Hs & Hf & Hl); exists l; cbn [fst snd].
    + split_and!; [|done..|lia|by left].
      destruct (record_success_frame hp (RelayEndpoint.endpoint_id e) v m1)
        as (_ & _ & Hse & _). unfold Log.trace in *. by rewrite Hse.
    + split_and!; [done..|lia|right]. split_and!; [done..|lia].
Qed.

Lemma try_endpoints_log now hp f es m :
  let r := try_endpoints now hp f es m in
  ∃ l, Log.trace r.2 = Log.trace m ++ l
    ∧ Log.successes l = match r.1 with Some v => [(f, v)] | None => [] end.
Proof.
  revert m. induction es as [|e es IH]; intros m.
  - exists []. by rewrite app_nil_r.
  - cbn [try_endpoints]. destruct (try_endpoint_log now hp f e m) as (l & Ht & Hs & _).
    destruct (try_endpoint now hp f e m) as [[v|] m1]; cbn [fst snd] in *; [by exists l|].
    destruct (IH m1) as (l' & Ht' & Hs'). exists (l ++ l').
    rewrite Ht', Ht, app_assoc, Log.successes_app, Hs, Hs'. done.
Qed.

(** Delivery, generalised over the responses collected so far. *)
Lemma flush_loop_log now q rs m :
  outbox m = q →
  let r := flush_loop now q rs m in
  ∃ l k, Log.trace r.2 = Log.trace m ++ l
    ∧ outbox r.2 = drop k q
    ∧ (Log.successes l).*1 = QueuedFrame.contents <$> take k q
    ∧ match r.1 with
      | Ok rs' => outbox r.2 = [] ∧ rs' = rs ++ (Log.successes l).*2
      | Err x => x = TransportError.Unavailable ∧ outbox r.2 ≠ []
      end.
Proof.
  revert rs m. induction q as [|x q IH]; intros rs m Hq; cbn [flush_loop].
  - exists [], 0%nat. rewrite !app_nil_r. by split_and!.
  - set (hp := RelayEndpoint.endpoint_id <$> head (ordered_endpoints m)).
    pose proof (try_endpoints_frame now hp (QueuedFrame.contents x) (ordered_endpoints m) m)
      as [_ Ho].
    destruct (try_endpoints_log now hp (QueuedFrame.contents x) (ordered_endpoints m) m)
      as (l & Ht & Hs).
    destruct (try_endpoints now hp _ _ m) as [[v|] m1]; cbn [fst snd] in *.
    + destruct (IH (rs ++ [v]) (set_outbox q m1) eq_refl) as (l' & k & Ht' & Ho' & Hs' & Hr).
      exists (l ++ l'), (Datatypes.S k).
      change (Log.trace (set_outbox q m1)) with (Log.trace m1) in Ht'.
      rewrite Ht', Ht, app_assoc, Log.successes_app, Hs. split_and!; [done..| |].
      * cbn. by rewrite Hs'.
      * destruct (flush_loop _ _ _ _) as [[rs'|y] m2]; cbn [fst snd] in *; [|done].
        destruct Hr as [? ->]. split; [done|]. cbn. by rewrite <- app_assoc.
    + exists l, 0%nat. rewrite Hs. rewrite Ho, Hq. by split_and!.
Qed.

(** Failures of one flush: each relay fails at most once, relays that were
    cooling down are not contacted. *)
Definition one_failure (now : Z) (m0 m : TransportManager.t (S * list Log.entry)) : Prop :=
  ∃ l, Log.trace m = Log.trace m0 ++ l
    ∧ NoDup (Log.failed_ids l)
    ∧ (∀ x, x ∈ l → ¬ cooling now (RelayEndpoint.endpoint_id (Log.endpoint x)) m0)
    ∧ (∀ i, cooling now i m0 ∨ i ∈ Log.failed_ids l → cooling now i m).

Lemma backoff_cooling now e h :
  0 ≤ now < u64_max → 0 ≤ Health.failures h ≤ u32_max →
  now < Health.retry_after (backoff now e h).
Proof.
  intros Hn Hf. destruct (backoff_bounds now e h) as (_ & Hb & _).
  - unfold in_u, u64_max in *. lia.
  - done.
  - assert (0 < 2 ^ Z.min (Health.failures (backoff now e h)) 8); [|lia].
    apply Z.pow_pos_nonneg; [lia|]. unfold backoff, saturating_add. cbn. unfold u32_max in *. lia.
Qed.

Definition health_typed (h : Health.t) : Prop :=
  0 ≤ Health.failures h ≤ u32_max ∧ in_u 64 (Health.retry_after h).

Lemma try_endpoint_health_typed {T} `{EndpointSender T} now hp f e (m : TransportManager.t T) :
  in_u 64 now → (∀ i, health_typed (health_of i m)) →
  ∀ i, health_typed (health_of i (try_endpoint now hp f e m).2).
Proof.
  intros Hn Hm i. rewrite try_endpoint_health. specialize (Hm i).
  destruct (decide _) as [->|]; [|done].
  destruct (try_endpoint now hp f e m).1; [by split|].
  destruct (now <? _); [done|]. destruct Hm as [Hf Hr].
  destruct (backoff_bounds now e (health_of (RelayEndpoint.endpoint_id e) m) Hn Hf)
    as (Hf' & Hlo & _ & _).
  unfold health_typed. rewrite Hf'. unfold in_u, u64_max, u32_max in *. split; [lia|].
  split.
  - pose proof (Z.pow_nonneg 2 (Z.min (Health.failures (backoff now e
      (health_of (RelayEndpoint.endpoint_id e) m))) 8)). lia.
  - unfold backoff, saturating_add, u64_max. cbn. lia.
Qed.

Lemma try_endpoint_one_failure now hp f e m0 m :
  0 ≤ now < u64_max → (∀ i, health_typed (health_of i m)) →
  one_failure now m0 m → one_failure now m0 (try_endpoint now hp f e m).2.
Proof.
  intros Hn Hh (l & Ht & Hd & Hc & Hk).
  destruct (try_endpoint_log now hp f e m) as (l' & Ht' & _ & He & Hcool & Hf).
  exists (l ++ l'). rewrite Ht', Ht, app_assoc, Log.failed_ids_app.
  assert (Hkeep : ∀ i, cooling now i m → cooling now i (try_endpoint now hp f e m).2).
  { intros i Hi. unfold cooling. rewrite try_endpoint_health.
    destruct (decide _) as [->|]; [|done]. unfold cooling in Hi.
    destruct (try_endpoint now hp f e m) as [[v|] m'] eqn:E; cbn [fst].
    - unfold try_endpoint in E. apply Z.ltb_lt in Hi. rewrite Hi in E. done.
    - apply Z.ltb_lt in Hi as Hi'. by rewrite Hi'. }
  split_and!; [done| | |].
  - destruct Hf as [->|(-> & _ & Hn')]; [by rewrite app_nil_r|].
    apply NoDup_app. split_and!; [done| |by apply NoDup_singleton].
    intros i Hi ->%list_elem_of_singleton. apply Hn', Hk. by right.
  - intros x [Hx|Hx]%elem_of_app; [by apply Hc|]. intros Hx0.
    rewrite Forall_forall in He. rewrite (He x Hx) in Hx0.
    rewrite Hcool in Hx; [by apply not_elem_of_nil in Hx|]. apply Hk. by left.
  - intros i [Hi|[Hi|Hi]%elem_of_app]; [by apply Hkeep, Hk; left|by apply Hkeep, Hk; right|].
    destruct Hf as [Hf|(Hf & Hr & Hn')]; rewrite Hf in Hi; [by apply not_elem_of_nil in Hi|].
    apply list_elem_of_singleton in Hi as ->.
    unfold cooling. rewrite try_endpoint_health, decide_True, Hr by done.
    unfold cooling in Hn'. destruct (Z.ltb_spec now (Health.retry_after
      (health_of (RelayEndpoint.endpoint_id e) m))); [done|].
    apply backoff_cooling; [done|]. apply Hh.
Qed.
End Logged.

(** ** Logging is transparent *)

Section Forget.
Context {S : Type} `{N : EndpointSender S}.

Definition forget (m : TransportManager.t (S * list Log.entry)) : TransportManager.t S :=
  TransportManager.Make (fst (sender m)) (directory m) (verification_key m) (outbox m)
    (health m) (counters m) (preferred_endpoint m).

Lemma forget_exchange e f m :
  exchange e f (forget m) = ((exchange e f m).1, forget (exchange e f m).2).
Proof.
  destruct m as [[s tr] d key q h c p]. unfold exchange, forget. cbn.
  destruct (send_websocket s e f) as [[v|x] s1]; cbn; [done|].
  by destruct (send_https s1 e f) as [[v|y] s2]; cbn.
Qed.

Lemma forget_try_endpoint now hp f e m :
  try_endpoint now hp f e (forget m)
  = ((try_endpoint now hp f e m).1, forget (try_endpoint now hp f e m).2).
Proof.
  unfold try_endpoint. change (health_of ?i (forget m)) with (health_of i m).
  destruct (now <? _); [done|].
  change (set_health ?h (forget m)) with (forget (set_health h m)).
  rewrite forget_exchange. destruct (exchange _ _ _) as [[v|x] m1]; cbn [fst snd]; [|done].
  unfold record_success. cbn. by destruct (_ && _).
Qed.

Lemma forget_try_endpoints now hp f es m :
  try_endpoints now hp f es (forget m)
  = ((try_endpoints now hp f es m).1, forget (try_endpoints now hp f es m).2).
Proof.
  revert m. induction es as [|e es IH]; intros m; [done|]. cbn [try_endpoints].
  rewrite forget_try_endpoint.
  destruct (try_endpoint now hp f e m) as [[v|] m1]; cbn [fst snd]; [done|apply IH].
Qed.

Lemma forget_flush_loop now q rs m :
  flush_loop now q rs (forget m)
  = ((flush_loop now q rs m).1, forget (flush_loop now q rs m).2).
Proof.
  revert rs m. induction q as [|x q IH]; intros rs m; [done|]. cbn [flush_loop].
  change (ordered_endpoints (forget m)) with (ordered_endpoints m).
  rewrite forget_try_endpoints.
  destruct (try_endpoints _ _ _ _ m) as [[v|] m1]; cbn [fst snd]; [|done].
  apply (IH _ (set_outbox q m1)).
Qed.
End Forget.

(** ** The life of a manager *)

Section Life.
Context `{C : Crypto} {S : Type} `{N : EndpointSender S}.
Implicit Types m : TransportManager.t S.

Inductive step : TransportManager.t S → TransportManager.t S → Prop :=
| step_update next now m : in_u 64 now → step m (update_directory next now m).2
| step_enqueue f m : TransportFrame.typed f → step m (enqueue f m).2
| step_notify m : step m (notify_network_change m)
| step_flush now m : in_u 64 now → step m (flush now m).2.

(** The public operations of the manager, in any order and number. *)
Definition steps : TransportManager.t S → TransportManager.t S → Prop := rtc step.

Definition frame_of (q : QueuedFrame.t) (f : TransportFrame.t) : Prop :=
  TransportFrame.typed f ∧ TransportFrame.encode f = Ok (QueuedFrame.contents q)
  ∧ TransportFrame.client_message_id f = QueuedFrame.client_message_id q.

Definition outbox_ok (q : list QueuedFrame.t) : Prop :=
  NoDup (QueuedFrame.client_message_id <$> q) ∧ Forall (λ x, ∃ f, frame_of x f) q.

Definition trusted m : Prop :=
  ∃ now minimum, verify (directory m) (verification_key m) now minimum = Ok tt.

Lemma flush_loop_outbox now q rs m :
  outbox m = q → ∃ k, outbox (flush_loop now q rs m).2 = drop k q.
Proof.
  revert rs m. induction q as [|x q IH]; intros rs m Hq; cbn [flush_loop]; [by exists 0%nat|].
  set (hp := _ <$> _).
  pose proof (try_endpoints_frame now hp (QueuedFrame.contents x) (ordered_endpoints m) m)
    as [_ Ho].
  destruct (try_endpoints _ _ _ _ m) as [[v|] m1]; cbn [snd] in *.
  - destruct (IH (rs ++ [v]) (set_outbox q m1) eq_refl) as (k & Hk). by exists (Datatypes.S k).
  - exists 0%nat. by rewrite Ho, Hq.
Qed.

Lemma outbox_ok_drop k q : outbox_ok q → outbox_ok (drop k q).
Proof.
  intros [Hn Hf]. split; [|by apply Forall_drop]. rewrite fmap_drop.
  eapply sublist_NoDup; [exact Hn|]. apply sublist_drop.
Qed.

Lemma enqueue_ok f m :
  TransportFrame.typed f → outbox_ok (outbox m) → outbox_ok (outbox (enqueue f m).2).
Proof.
  intros Hf [Hn Ho]. unfold enqueue.
  destruct (TransportFrame.encode f) as [b|x] eqn:He; [|done].
  destruct (existsb _ _) eqn:Hx; [done|]. cbn [snd outbox set_outbox]. split.
  - rewrite fmap_app. apply NoDup_app. split_and!; [done| |apply NoDup_singleton].
    intros i Hi ->%list_elem_of_singleton.
    apply list_elem_of_fmap in Hi as (q & Hq & Hi).
    apply not_true_iff_false in Hx. apply Hx, existsb_exists.
    exists q. split; [by apply list_elem_of_In|]. apply bool_decide_eq_true. by rewrite <- Hq.
  - apply Forall_app. split; [done|]. constructor; [|done]. by exists f.
Qed.

Lemma verify_version d key now minimum :
  verify d key now minimum = Ok tt → minimum ≤ version d.
Proof. unfold verify. destruct (Z.ltb_spec (version d) minimum); [done|lia]. Qed.

Lemma step_facts m m' :
  step m m' →
  (outbox_ok (outbox m) → outbox_ok (outbox m'))
  ∧ verification_key m' = verification_key m
  ∧ version (directory m) ≤ version (directory m')
  ∧ (trusted m → trusted m')
  ∧ ((∀ i, health_typed (health_of i m)) → ∀ i, health_typed (health_of i m')).
Proof.
  intros [next now m0 Hn|f m0 Hf|m0|now m0 Hn].
  - unfold update_directory, trusted, health_of.
    destruct (verify next _ now _) as [[]|x] eqn:Hv; cbn [snd directory verification_key outbox health].
    + apply verify_version in Hv as Hle. split_and!; eauto.
    + by split_and!.
  - pose proof (enqueue_ok f m0 Hf) as Ho. unfold trusted, health_of.
    unfold enqueue in *. destruct (TransportFrame.encode f) as [b|x];
      [destruct (existsb _ _)|]; cbn in *; split_and!; done || lia.
  - split_and!; try done. intros Hh i. specialize (Hh i). unfold health_of in *.
    cbn [health notify_network_change set_health]. rewrite lookup_fmap.
    destruct (health m0 !! i) as [[f r]|]; cbn in *; [|done].
    destruct Hh as [Hf _]. split; [done|]. unfold in_u. cbn. lia.
  - destruct (flush_identity now m0) as [Hd Hk]. unfold trusted. rewrite Hd, Hk.
    split_and!; try done.
    + intros Ho. destruct (flush_loop_outbox now (outbox m0) [] m0 eq_refl) as (k & Hk').
      unfold flush. rewrite Hk'. by apply outbox_ok_drop.
    + intros Hh. unfold flush.
      apply (flush_loop_preserves (λ m, ∀ i, health_typed (health_of i m))); [|done..].
      intros. by apply try_endpoint_health_typed.
Qed.

Lemma steps_facts m m' :
  steps m m' →
  (outbox_ok (outbox m) → outbox_ok (outbox m'))
  ∧ verification_key m' = verification_key m
  ∧ version (directory m) ≤ version (directory m')
  ∧ (trusted m → trusted m')
  ∧ ((∀ i, health_typed (health_of i m)) → ∀ i, health_typed (health_of i m')).
Proof.
  induction 1 as [m|m m1 m' Hs _ IH]; [split_and!; done || lia|].
  apply step_facts in Hs as (H1 & H2 & H3 & H4 & H5).
  destruct IH as (I1 & I2 & I3 & I4 & I5).
  split_and!; [tauto|congruence|lia|tauto|tauto].
Qed.

Lemma new_Ok s d key now m :
  TransportManager.new s d key now = Ok m →
  verify d key now 0 = Ok tt
  ∧ m = TransportManager.Make s d key [] ∅ ByteCounters.zero None.
Proof.
  unfold TransportManager.new. intros ([] & Hv & [= <-])%bind_Ok. done.
Qed.

Lemma new_health s d key now m :
  TransportManager.new s d key now = Ok m → ∀ i, health_typed (health_of i m).
Proof.
  intros [_ ->]%new_Ok i. unfold health_of. cbn. by rewrite lookup_empty.
Qed.
End Life.

(** ** Counters *)

Section Counters.
Context `{C : Crypto} {S : Type} `{N : EndpointSender S}.
Implicit Types m : TransportManager.t (S * list Log.entry).

(** The counters are the log's totals, modulo 2^64. *)
Definition counted (l : list Log.entry) (c : ByteCounters.t) : Prop :=
  ByteCounters.sent c = as_u64 (Log.total (λ x, len (Log.frame x)) l)
  ∧ ByteCounters.received c = as_u64 (Log.total Log.received l)
  ∧ ByteCounters.attempts c = as_u64 (Z.of_nat (length l))
  ∧ ByteCounters.websocket_failures c
    = as_u64 (Log.total (λ x, if Log.websocket_failed x then 1 else 0) l)
  ∧ ByteCounters.https_failures c = as_u64 (Z.of_nat (length (Log.failed_ids l))).

Lemma as_u64_add a b : as_u64 (as_u64 a + b) = as_u64 (a + b).
Proof. unfold as_u64, wrap. by rewrite Zplus_mod_idemp_l. Qed.
Lemma as_u64_add2 a b c : as_u64 (as_u64 a + b + c) = as_u64 (a + b + c).
Proof. by rewrite <- Z.add_assoc, as_u64_add, Z.add_assoc. Qed.
Lemma as_u64_zero a : as_u64 (as_u64 a + 0) = as_u64 a.
Proof. by rewrite as_u64_add, Z.add_0_r. Qed.

Lemma try_endpoint_counted now hp f e m :
  counted (Log.trace m) (counters m) →
  counted (Log.trace (try_endpoint now hp f e m).2) (counters (try_endpoint now hp f e m).2).
Proof.
  intros Hc. unfold try_endpoint. destruct (now <? _); [done|].
  destruct m as [[s tr] d key q h [cs cr ca cw ch cx] p], Hc as (H1 & H2 & H3 & H4 & H5).
  unfold exchange, Log.trace in *.
  cbn -[Log.total Log.failed_ids] in H1, H2, H3, H4, H5 |- *. subst.
  destruct (send_websocket s e f) as [[v|x] s1]; cbn -[Log.total Log.failed_ids];
    [|destruct (send_https s1 e f) as [[v|y] s2]; cbn -[Log.total Log.failed_ids]].
  all: unfold record_success, record_failure; cbn -[Log.total Log.failed_ids];
    try destruct (_ && _); cbn -[Log.total Log.failed_ids];
    unfold counted; cbn -[Log.total Log.failed_ids];
    rewrite ?as_u64_zero, ?as_u64_add, ?as_u64_add2, ?Log.total_snoc, ?Log.failed_snoc, ?Log.length_snoc;
    cbn -[Log.total Log.failed_ids]; split_and!; f_equal; lia.
Qed.

Lemma step_counted m m' :
  step m m' → counted (Log.trace m) (counters m) → counted (Log.trace m') (counters m').
Proof.
  intros [next now m0 Hn|f m0 Hf|m0|now m0 Hn] Hc.
  - unfold update_directory. by destruct (verify _ _ _ _).
  - unfold enqueue. destruct (TransportFrame.encode f) as [b|x]; [|done].
    by destruct (existsb _ _).
  - done.
  - unfold flush. apply (flush_loop_preserves (λ m, counted (Log.trace m) (counters m)));
      [|done..]. intros. by apply try_endpoint_counted.
Qed.

Lemma steps_counted m m' :
  steps m m' → counted (Log.trace m) (counters m) → counted (Log.trace m') (counters m').
Proof. induction 1 as [|x y z Hs _ IH]; [done|]. intros Hc. by eapply IH, step_counted. Qed.
End Counters.

(** ** Progress *)

Section Progress.
Context {S : Type} `{N : EndpointSender S}.
Implicit Types m : TransportManager.t S.

(** A relay that always answers, over WebSocket or over HTTPS. *)
Definition answers (i : array 16) : Prop :=
  ∀ s e f, RelayEndpoint.endpoint_id e = i →
    is_ok (send_websocket s e f).1 = true
    ∨ is_ok (send_https (send_websocket s e f).2 e f).1 = true.

Lemma exchange_answers i e f m :
  answers i → RelayEndpoint.endpoint_id e = i → ∃ v m', exchange e f m = (Ok v, m').
Proof.
  intros Ha He. unfold exchange. specialize (Ha (sender m) e f He).
  cbn [sender count]. destruct (send_websocket (sender m) e f) as [[v|x] s]; [eauto|].
  cbn [fst snd sender count set_sender] in *. destruct (send_https s e f) as [[v|y] s']; [eauto|].
  by destruct Ha.
Qed.

Lemma try_endpoint_answers now hp f e m :
  answers (RelayEndpoint.endpoint_id e) → ¬ cooling now (RelayEndpoint.endpoint_id e) m →
  ∃ v m', try_endpoint now hp f e m = (Some v, m').
Proof.
  intros Ha Hc. unfold try_endpoint, cooling in *.
  destruct (Z.ltb_spec now (Health.retry_after (health_of (RelayEndpoint.endpoint_id e) m)));
    [lia|].
  edestruct (exchange_answers _ e f (set_health (<[RelayEndpoint.endpoint_id e :=
    health_of (RelayEndpoint.endpoint_id e) m]> (health m)) m) Ha eq_refl) as (v & m' & ->).
  eauto.
Qed.

(** A round with another relay, or one answered, does not put [i] to sleep. *)
Lemma try_endpoint_awake now hp f e m i :
  0 ≤ now → ¬ cooling now i m →
  (RelayEndpoint.endpoint_id e = i → (try_endpoint now hp f e m).1 ≠ None) →
  ¬ cooling now i (try_endpoint now hp f e m).2.
Proof.
  intros Hn Hc He. unfold cooling. rewrite try_endpoint_health.
  destruct (decide _) as [->|]; [|done].
  destruct (try_endpoint now hp f e m).1; [cbn; lia|]. by destruct He.
Qed.

Lemma try_endpoints_answers now hp f es m e :
  0 ≤ now → e ∈ es → answers (RelayEndpoint.endpoint_id e) →
  ¬ cooling now (RelayEndpoint.endpoint_id e) m →
  ∃ v m', try_endpoints now hp f es m = (Some v, m')
    ∧ ¬ cooling now (RelayEndpoint.endpoint_id e) m'.
Proof.
  intros Hn He Ha. revert m. induction es as [|x es IH]; intros m Hc;
    [by apply not_elem_of_nil in He|].
  cbn [try_endpoints].
  assert (¬ cooling now (RelayEndpoint.endpoint_id e) (try_endpoint now hp f x m).2) as Hc'.
  { apply try_endpoint_awake; [done..|]. intros Hx.
    destruct (try_endpoint_answers now hp f x m) as (v & m' & ->); by rewrite ?Hx. }
  destruct (try_endpoint now hp f x m) as [[v|] m1] eqn:Ht; cbn [snd] in Hc'; [eauto|].
  apply elem_of_cons in He as [->|He]; [|by apply IH].
  destruct (try_endpoint_answers now hp f x m Ha Hc) as (v & m' & E). congruence.
Qed.

Lemma flush_loop_answers now q rs m e :
  0 ≤ now → e ∈ endpoints (directory m) → answers (RelayEndpoint.endpoint_id e) →
  ¬ cooling now (RelayEndpoint.endpoint_id e) m →
  ∃ rs', (flush_loop now q rs m).1 = Ok rs' ∧ length rs' = (length rs + length q)%nat.
Proof.
  intros Hn He Ha. revert rs m He. induction q as [|x q IH]; intros rs m He Hc;
    cbn [flush_loop length].
  - exists rs. split; [done|lia].
  - set (hp := _ <$> _).
    pose proof (try_endpoints_frame now hp (QueuedFrame.contents x) (ordered_endpoints m) m)
      as [[Hd _] _].
    destruct (try_endpoints_answers now hp (QueuedFrame.contents x) (ordered_endpoints m) m e)
      as (v & m' & E & Hc'); [done|by rewrite ordered_endpoints_perm|done..|].
    rewrite E in *. cbn [snd] in Hd.
    destruct (IH (rs ++ [v]) (set_outbox q m')) as (rs' & Hr & Hl).
    + cbn. by rewrite Hd.
    + done.
    + exists rs'. split; [done|]. rewrite Hl, length_app. cbn. lia.
Qed.
End Progress.

(** ** Properties *)

(** C10: flushing loses and duplicates no frame: it contacts relays for the queued
    frames strictly in order, each delivered frame has exactly one answered
    exchange, the frames still queued are exactly those without one, and the
    result is either all the answers in queue order with an empty outbox or
    [Unavailable] with a nonempty outbox that starts at the refused frame. *)
Theorem flush_delivery {S} `{EndpointSender S} now (m : TransportManager.t (S * list Log.entry)) :
  let r := flush now m in
  ∃ l k, Log.trace r.2 = Log.trace m ++ l
    ∧ outbox r.2 = drop k (outbox m)
    ∧ (Log.successes l).*1 = QueuedFrame.contents <$> take k (outbox m)
    ∧ match r.1 with
      | Ok responses => outbox r.2 = [] ∧ responses = (Log.successes l).*2
      | Err e => e = TransportError.Unavailable ∧ outbox r.2 ≠ []
      end.
Proof. exact (flush_loop_log now (outbox m) [] m eq_refl). Qed.

(** Observing the network does not disturb it: a flush over the recording
    sender returns the same responses and leaves the same manager as a flush
    over the plain sender, so the theorems about the log describe the manager
    itself. *)
Theorem flush_log_transparent {S} `{EndpointSender S} now
    (m : TransportManager.t (S * list Log.entry)) :
  flush now (forget m) = ((flush now m).1, forget (flush now m).2).
Proof. exact (forget_flush_loop now (outbox m) [] m). Qed.

(** The outbox invariant: whatever sequence of directory updates, enqueues,
    network changes and flushes follows [new], no two queued frames share a
    client message id, and every queued entry is the encoding, within the frame
    limit, of a frame with the id it is filed under. *)
Theorem manager_outbox_invariant `{C : Crypto} {S} `{EndpointSender S} s d key now m0 m
    (Hnew : TransportManager.new s d key now = Ok m0) (Hsteps : steps m0 m) :
  NoDup (QueuedFrame.client_message_id <$> outbox m)
  ∧ Forall (λ q, (∃ f, frame_of q f) ∧ len (QueuedFrame.contents q) ≤ MAX_FRAME_SIZE) (outbox m).
Proof.
  apply new_Ok in Hnew as [_ ->]. apply steps_facts in Hsteps as (Ho & _).
  destruct Ho as [Hn Hf]; [by split; [apply NoDup_nil_2|]|]. split; [done|].
  eapply Forall_impl; [exact Hf|]. intros q (f & Hq). split; [by exists f|].
  destruct Hq as (_ & (-> & _ & Hl)%frame_encode_Ok & _). done.
Qed.

(** C31: the directory in use was always verified under the manager's own key,
    which never changes, and its version never goes back, whatever the manager
    is asked to do and whatever directories it is offered. *)
Theorem manager_directory_trust `{C : Crypto} {S} `{EndpointSender S} s d key now m0 m1 m2
    (Hnew : TransportManager.new s d key now = Ok m0)
    (H1 : steps m0 m1) (H2 : steps m1 m2) :
  verification_key m2 = key ∧ trusted m2
  ∧ version (directory m1) ≤ version (directory m2).
Proof.
  apply new_Ok in Hnew as [Hv ->].
  apply steps_facts in H1 as (_ & Hk1 & _ & Ht1 & _), H2 as (_ & Hk2 & Hle & Ht2 & _).
  split_and!; [by rewrite Hk2, Hk1| |done]. apply Ht2, Ht1. by exists now, 0.
Qed.

(** The byte counters are exact: after any sequence of operations they are
    the number of exchanges attempted, the bytes handed to the network and
    received from it, and the failures on each transport, modulo 2^64. *)
Theorem manager_counters_exact `{C : Crypto} {S} `{EndpointSender S} s d key now
    (m0 m : TransportManager.t (S * list Log.entry))
    (Hnew : TransportManager.new (s, []) d key now = Ok m0) (Hsteps : steps m0 m) :
  counted (Log.trace m) (counters m).
Proof.
  apply new_Ok in Hnew as [_ ->].
  by eapply steps_counted.
Qed.

(** C30: no relay is hammered: in one flush, however many frames are queued, a
    relay that is cooling down is never contacted, a relay fails at most once,
    and a relay that failed is cooling down afterwards. *)
Theorem flush_backs_off `{C : Crypto} {S} `{EndpointSender S} s d key t0 now
    (m0 m : TransportManager.t (S * list Log.entry))
    (Hnew : TransportManager.new s d key t0 = Ok m0) (Hsteps : steps m0 m)
    (Hn : 0 ≤ now < u64_max) :
  let m' := (flush now m).2 in
  ∃ l, Log.trace m' = Log.trace m ++ l
    ∧ NoDup (Log.failed_ids l)
    ∧ (∀ x, x ∈ l → ¬ cooling now (RelayEndpoint.endpoint_id (Log.endpoint x)) m)
    ∧ (∀ i, cooling now i m ∨ i ∈ Log.failed_ids l → cooling now i m').
Proof.
  apply steps_facts in Hsteps as (_ & _ & _ & _ & Hh).
  pose proof (Hh (new_health _ _ _ _ _ Hnew)) as Ht.
  apply (flush_loop_preserves (λ m', one_failure now m m' ∧ ∀ i, health_typed (health_of i m'))).
  - intros hp f e m1 _ _ [Ho Hm1]. split; [by apply try_endpoint_one_failure|].
    apply try_endpoint_health_typed; [unfold in_u, u64_max in *; lia|done].
  - done.
  - split; [|done]. exists []. rewrite app_nil_r. split_and!; [done|by apply NoDup_nil_2| |].
    + intros x Hx. by apply not_elem_of_nil in Hx.
    + intros i [Hi|Hi]; [done|]. by apply not_elem_of_nil in Hi.
Qed.

(** Exponential backoff with bounds: a round with a relay that is not cooling
    down either resets its health (answered) or adds one failure, capped at
    2^32 - 1, and silences it for at least 2^min(failures,8) seconds and less
    than twice that, never more than 511 seconds, without overflowing u64;
    every other relay keeps its health. *)
Theorem try_endpoint_backoff {S} `{EndpointSender S} now hp f e (m : TransportManager.t S)
    (Hn : in_u 64 now) (Hh : ∀ i, health_typed (health_of i m))
    (Hc : ¬ cooling now (RelayEndpoint.endpoint_id e) m) :
  let i := RelayEndpoint.endpoint_id e in
  let r := try_endpoint now hp f e m in
  let h := health_of i m in
  let h' := health_of i r.2 in
  (∀ j, j ≠ i → health_of j r.2 = health_of j m)
  ∧ match r.1 with
    | Some _ => h' = Health.Make 0 0 ∧ preferred_endpoint r.2 = Some i
    | None =>
        Health.failures h' = Z.min u32_max (Health.failures h + 1)
        ∧ Z.min u64_max (now + 2 ^ Z.min (Health.failures h') 8) ≤ Health.retry_after h'
        ∧ Health.retry_after h' < now + 2 * 2 ^ Z.min (Health.failures h') 8
        ∧ Health.retry_after h' ≤ now + 511
        ∧ health_typed h'
    end.
Proof.
  intros i r h h'. split.
  - intros j Hj. unfold r. rewrite try_endpoint_health. by rewrite decide_False.
  - pose proof (try_endpoint_health_typed now hp f e m Hn Hh i) as Ht.
    assert (h' = match r.1 with Some _ => Health.Make 0 0 | None => backoff now e h end) as Hh'.
    { unfold h', r. rewrite try_endpoint_health, decide_True by done.
      unfold cooling in Hc. destruct (Z.ltb_spec now (Health.retry_after (health_of i m))); [|done].
      unfold i in *. lia. }
    destruct r.1 as [v|] eqn:Hr.
    + split; [done|]. unfold r in *. unfold try_endpoint in *.
      destruct (now <? _); [done|]. destruct (exchange _ _ _) as [[w|x] m1]; [|done].
      apply record_success_frame.
    + rewrite Hh'. destruct (backoff_bounds now e h Hn (proj1 (Hh i))) as (? & ? & ? & ?).
      split_and!; [done..|]. fold r in Ht. fold h' in Ht. by rewrite Hh' in Ht.
Qed.

(** Delivery succeeds when it can: if some relay of the directory answers
    (over either transport) and is not cooling down, the flush delivers every
    queued frame and empties the outbox, whatever the other relays do; a network
    change makes this so for every relay that answers, cooling down or not. *)
Theorem flush_progress {S} `{EndpointSender S} now e (m : TransportManager.t S)
    (Hn : 0 ≤ now) (He : e ∈ endpoints (directory m))
    (Ha : answers (RelayEndpoint.endpoint_id e)) :
  (¬ cooling now (RelayEndpoint.endpoint_id e) m →
   ∃ responses, (flush now m).1 = Ok responses ∧ length responses = length (outbox m))
  ∧ (∃ responses, (flush now (notify_network_change m)).1 = Ok responses
       ∧ length responses = length (outbox m)).
Proof.
  split.
  - intros Hc. destruct (flush_loop_answers now (outbox m) [] m e) as (rs & Hr & Hl);
      [done..|]. exists rs. split; [done|]. by rewrite Hl.
  - destruct (flush_loop_answers now (outbox m) [] (notify_network_change m) e) as (rs & Hr & Hl);
      [done..| |].
    + unfold cooling, health_of. cbn [health notify_network_change set_health].
      rewrite lookup_fmap. destruct (health m !! _); cbn; lia.
    + exists rs. split; [done|]. by rewrite Hl.
Qed.

(** The minimum of the positive retry times, as a specification. *)
Definition earliest_retry (h : gmap (array 16) Health.t) (r : option Z) : Prop :=
  match r with
  | Some t => 0 < t ∧ (∃ i x, h !! i = Some x ∧ Health.retry_after x = t)
      ∧ ∀ i x, h !! i = Some x → 0 < Health.retry_after x → t ≤ Health.retry_after x
  | None => ∀ i x, h !! i = Some x → Health.retry_after x ≤ 0
  end.

Lemma earliest_retry_insert h r i x :
  h !! i = None → earliest_retry h r →
  earliest_retry (<[i:=x]> h)
    (if 0 <? Health.retry_after x
     then Some (match r with Some a => Z.min a (Health.retry_after x)
                | None => Health.retry_after x end)
     else r).
Proof.
  intros Hi Hr.
  assert (Hnew : <[i:=x]> h !! i = Some x) by apply lookup_insert_eq.
  assert (Hold : ∀ j y, h !! j = Some y → <[i:=x]> h !! j = Some y)
    by (intros; rewrite lookup_insert_ne; congruence).
  assert (Hinv : ∀ j y, <[i:=x]> h !! j = Some y → x = y ∨ h !! j = Some y)
    by (intros j y [[_ ?]|[_ ?]]%lookup_insert_Some; eauto).
  destruct (Z.ltb_spec 0 (Health.retry_after x)); destruct r as [t|]; cbn in *.
  - destruct Hr as (Ht & (j & y & Hj & Hy) & Hmin). split_and!; [lia| |].
    + destruct (Z.le_gt_cases t (Health.retry_after x)).
      * exists j, y. split; [by apply Hold|lia].
      * exists i, x. split; [done|lia].
    + intros k z [<-|Hk]%Hinv Hz; [lia|]. specialize (Hmin k z Hk Hz). lia.
  - split_and!; [done|by exists i, x|].
    intros k z [<-|Hk]%Hinv Hz; [done|]. specialize (Hr k z Hk). lia.
  - destruct Hr as (Ht & (j & y & Hj & Hy) & Hmin). split_and!; [done|by eauto|].
    intros k z [<-|Hk]%Hinv Hz; [lia|eauto].
  - intros k z [<-|Hk]%Hinv; [done|eauto].
Qed.

Lemma next_retry_earliest {S} (m : TransportManager.t S) :
  earliest_retry (health m) (next_retry_at m).
Proof.
  unfold next_retry_at. apply (map_fold_weak_ind (λ r h, earliest_retry h r)).
  - intros i x Hx. by rewrite lookup_empty in Hx.
  - intros i x h r Hi Hr. by apply earliest_retry_insert.
Qed.

(** [next_retry_at] is the earliest pending retry time of any known relay,
    and nothing exactly when no relay is waiting; in particular there is none
    right after a network change. *)
Theorem next_retry_at_earliest {S} (m : TransportManager.t S) :
  earliest_retry (health m) (next_retry_at m)
  ∧ next_retry_at (notify_network_change m) = None.
Proof.
  split; [apply next_retry_earliest|].
  pose proof (next_retry_earliest (notify_network_change m)) as H.
  destruct (next_retry_at _) as [t|]; [|done]. destruct H as (Ht & (i & x & Hi & <-) & _).
  cbn in Hi. rewrite lookup_fmap in Hi. apply fmap_Some in Hi as (y & _ & ->). cbn in Ht. lia.
Qed.

(** ** Sticky selection *)

Section Sticky.
Context {S : Type} `{N : EndpointSender S}.

Lemma order_leb_total p e1 e2 : order_leb p e1 e2 = true ∨ order_leb p e2 e1 = true.
Proof. unfold order_leb. destruct (negb _), (negb _); lia. Qed.

Lemma order_leb_trans p e1 e2 e3 :
  order_leb p e1 e2 = true → order_leb p e2 e3 = true → order_leb p e1 e3 = true.
Proof. unfold order_leb. destruct (negb _), (negb _), (negb _); lia. Qed.

(** The preferred relay, when the directory has it, comes first. *)
Lemma ordered_endpoints_preferred (m : TransportManager.t S) e :
  e ∈ endpoints (directory m) →
  NoDup (RelayEndpoint.endpoint_id <$> endpoints (directory m)) →
  preferred_endpoint m = Some (RelayEndpoint.endpoint_id e) →
  head (ordered_endpoints m) = Some e.
Proof.
  intros He Hn Hp. pose proof (ordered_endpoints_perm m) as Hperm.
  pose proof (stable_sort_sorted _ (order_leb_total (preferred_endpoint m))
    (order_leb_trans (preferred_endpoint m)) (endpoints (directory m))) as Hs.
  unfold ordered_endpoints in *. rewrite <- Hperm in He.
  destruct (stable_sort _ _) as [|x l]; [by apply not_elem_of_nil in He|].
  cbn. f_equal. apply elem_of_cons in He as Hx. destruct Hx as [->|Hx]; [done|].
  inversion Hs as [|? ? _ Hall]; subst. rewrite Forall_forall in Hall.
  specialize (Hall e Hx). unfold order_leb in Hall. rewrite Hp in Hall.
  rewrite (bool_decide_eq_true_2 (Some (RelayEndpoint.endpoint_id e) = Some (RelayEndpoint.endpoint_id e)))
    in Hall by done.
  case_bool_decide as Hid; [|done]. injection Hid as Hid.
  apply (NoDup_key_inj RelayEndpoint.endpoint_id (endpoints (directory m)));
    [done|rewrite <- Hperm; left|by rewrite <- Hperm|done].
Qed.

Lemma try_endpoint_sticky now hp f e (m : TransportManager.t (S * list Log.entry)) :
  answers (S := S) (RelayEndpoint.endpoint_id e) →
  ¬ cooling now (RelayEndpoint.endpoint_id e) m → 0 ≤ now →
  preferred_endpoint m = Some (RelayEndpoint.endpoint_id e) →
  let r := try_endpoint now hp f e m in
  r.1 ≠ None ∧ preferred_endpoint r.2 = Some (RelayEndpoint.endpoint_id e)
  ∧ ¬ cooling now (RelayEndpoint.endpoint_id e) r.2
  ∧ ByteCounters.relay_switches (counters r.2) = as_u64 (ByteCounters.relay_switches (counters m))
  ∧ ∃ l, Log.trace r.2 = Log.trace m ++ l ∧ Forall (λ x, Log.endpoint x = e) l.
Proof.
  intros Ha Hc Hn Hp.
  assert (answers (S := S * list Log.entry) (RelayEndpoint.endpoint_id e)) as Ha'.
  { intros [s l] e' f' He. specialize (Ha s e' f' He). cbn.
    destruct (send_websocket s e' f') as [[v|x] s1]; cbn in *; [by left|].
    right. destruct (send_https s1 e' f') as [[v|x'] s2]; cbn in *; [done|by destruct Ha]. }
  destruct (try_endpoint_answers now hp f e m Ha' Hc) as (v & m' & E).
  pose proof (try_endpoint_log now hp f e m) as (l & Ht & _ & Hl & _).
  pose proof (try_endpoint_awake now hp f e m _ Hn Hc ltac:(intros _; by rewrite E)) as Hc'.
  cbn zeta. split_and!; [by rewrite E| |done| |by exists l].
  all: unfold try_endpoint in *; destruct (now <? _); [done|];
    destruct (exchange _ _ _) as [[w|x] m1] eqn:He; [|done]; cbn [fst snd].
  - apply record_success_frame.
  - apply exchange_frame in He as Hf. destruct Hf as (_ & _ & _ & Hp').
    unfold record_success. cbn. rewrite Hp'. cbn. rewrite Hp, bool_decide_eq_false_2 by (intros Hx; by apply Hx).
    cbn. unfold exchange in He. destruct m as [[s tr] d key q h c p]. cbn in He.
    destruct (send_websocket s e f) as [[y|y] s1]; cbn in He.
    + injection He as _ <-. cbn. by rewrite ?as_u64_zero, ?Z.add_0_r.
    + destruct (send_https s1 e f) as [[z|z] s2]; [|done]. injection He as _ <-.
      cbn. by rewrite ?as_u64_zero, ?Z.add_0_r.
Qed.
End Sticky.

(** Selection is sticky: while the preferred relay is in the directory, is
    not cooling down and answers, a flush delivers every frame through it alone
    and switches to no other relay, even one of better priority. *)
Theorem flush_sticky {S} `{EndpointSender S} now e (m : TransportManager.t (S * list Log.entry))
    (Hn : 0 ≤ now) (He : e ∈ endpoints (directory m))
    (Hu : NoDup (RelayEndpoint.endpoint_id <$> endpoints (directory m)))
    (Hp : preferred_endpoint m = Some (RelayEndpoint.endpoint_id e))
    (Ha : answers (S := S) (RelayEndpoint.endpoint_id e))
    (Hc : ¬ cooling now (RelayEndpoint.endpoint_id e) m)
    (Hs : in_u 64 (ByteCounters.relay_switches (counters m))) :
  let m' := (flush now m).2 in
  preferred_endpoint m' = preferred_endpoint m
  ∧ ByteCounters.relay_switches (counters m') = ByteCounters.relay_switches (counters m)
  ∧ ∃ l, Log.trace m' = Log.trace m ++ l ∧ Forall (λ x, Log.endpoint x = e) l.
Proof.
  unfold flush. generalize (@nil bytes) as rs. generalize (outbox m) as q.
  intros q. revert m He Hu Hp Hc Hs. induction q as [|x q IH]; intros m He Hu Hp Hc Hs rs.
  - split_and!; [done..|]. exists []. by rewrite app_nil_r.
  - cbn [flush_loop].
    pose proof (ordered_endpoints_preferred m e He Hu Hp) as Hhead.
    destruct (ordered_endpoints m) as [|e' es] eqn:Ho; [done|]. injection Hhead as ->.
    cbn [try_endpoints]. set (hp := RelayEndpoint.endpoint_id <$> head (e :: es)).
    destruct (try_endpoint_sticky now hp (QueuedFrame.contents x) e m Ha Hc Hn Hp)
      as (Hr & Hp' & Hc' & Hs' & l & Ht & Hl).
    destruct (try_endpoint_frame now hp (QueuedFrame.contents x) e m) as [[Hd _] _].
    destruct (try_endpoint now hp (QueuedFrame.contents x) e m) as [[v|] m1]; cbn [fst snd] in *;
      [|done]. rewrite as_u64_small in Hs' by done.
    destruct (IH (set_outbox q m1)) with (rs := rs ++ [v]) as (I1 & I2 & l' & I3 & I4);
      cbn [directory preferred_endpoint counters set_outbox]; rewrite ?Hd, ?Hs'; try done.
    cbn zeta. rewrite I1, I2. cbn [preferred_endpoint counters set_outbox]. rewrite Hp, Hp', Hs'.
    split_and!; [done..|]. exists (l ++ l'). split; [|by apply Forall_app].
    rewrite I3. change (Log.trace (set_outbox q m1)) with (Log.trace m1). by rewrite Ht, app_assoc.
Qed.

(** *** Witnesses

    A network with the two relays of [sample_directory]: the first never
    answers, the second answers over HTTPS only.  Its state counts the calls. *)
#[local] Instance sample_network : EndpointSender nat := {|
  send_websocket s e f := (Err TransportError.Unavailable, S s);
  send_https s e f :=
    (if decide (RelayEndpoint.endpoint_id e = make_array 16 2) then Ok (lit "ok")
     else Err TransportError.Unavailable, S s)
|}.

Definition sample_signed : SignedRelayDirectory.t :=
  SignedRelayDirectory.Make 3 100 900 (endpoints sample_directory)
    (toy_crypto.(sk_sign) (fill 32 5) (signed_part sample_directory)).
Definition sample_manager : TransportManager.t (nat * list Log.entry) :=
  TransportManager.Make (0%nat, []) sample_signed (fill 32 5) [] ∅ ByteCounters.zero None.

Lemma sample_manager_new :
  TransportManager.new (C := toy_crypto) (0%nat, []) sample_signed (fill 32 5) 500 = Ok sample_manager.
Proof. vm_compute. reflexivity. Qed.

Definition sample_queued : TransportManager.t (nat * list Log.entry) :=
  (enqueue ping_frame sample_manager).2.
Definition sample_flushed : TransportManager.t (nat * list Log.entry) :=
  (flush 500 sample_queued).2.

Lemma sample_steps : steps sample_manager sample_queued.
Proof. apply rtc_once. apply step_enqueue. by vm_compute. Qed.
Lemma sample_flush_steps : steps sample_queued sample_flushed.
Proof. apply rtc_once. apply step_flush. unfold in_u. lia. Qed.


Lemma sample_awake i : health_of i sample_queued = Health.default_health.
Proof.
  unfold health_of. replace (health sample_queued) with (∅ : gmap (array 16) Health.t) by reflexivity.
  by rewrite lookup_empty.
Qed.

Lemma sample_relay_answers : answers (S := nat) (make_array 16 2).
Proof. intros s e f He. right. cbn. by rewrite decide_True. Qed.

Lemma manager_outbox_invariant_witness :
  NoDup (QueuedFrame.client_message_id <$> outbox sample_queued)
  ∧ pending_count sample_queued = 1%nat.
Proof.
  split; [|vm_compute; reflexivity].
  apply (manager_outbox_invariant (0%nat, []) sample_signed (fill 32 5) 500
    sample_manager sample_queued sample_manager_new sample_steps).
Defined.

Lemma manager_directory_trust_witness :
  verification_key sample_flushed = fill 32 5.
Proof.
  apply (manager_directory_trust (0%nat, []) sample_signed (fill 32 5) 500
    sample_manager sample_queued sample_flushed sample_manager_new sample_steps sample_flush_steps).
Defined.

Lemma manager_counters_exact_witness :
  counted (Log.trace sample_queued) (counters sample_queued).
Proof.
  apply (manager_counters_exact 0%nat sample_signed (fill 32 5) 500
    sample_manager sample_queued sample_manager_new sample_steps).
Defined.

Lemma flush_backs_off_witness :
  ∃ l, Log.trace sample_flushed = Log.trace sample_queued ++ l ∧ NoDup (Log.failed_ids l).
Proof.
  destruct (flush_backs_off (0%nat, []) sample_signed (fill 32 5) 500 500 sample_manager
    sample_queued sample_manager_new sample_steps) as (l & H1 & H2 & _).
  - unfold u64_max. lia.
  - exists l. split; [exact H1|exact H2].
Defined.

Lemma try_endpoint_backoff_witness :
  Health.retry_after (health_of (make_array 16 1)
    (try_endpoint 500 None ping_bytes (sample_endpoint 1 4) sample_queued).2) ≤ 1011.
Proof.
  destruct (try_endpoint_backoff 500 None ping_bytes (sample_endpoint 1 4) sample_queued)
    as (_ & H).
  - unfold in_u. lia.
  - intros i. rewrite sample_awake. by vm_compute.
  - unfold cooling. rewrite sample_awake. by vm_compute.
  - revert H. vm_compute. intuition congruence.
Defined.

Lemma flush_progress_witness :
  ∃ responses, (flush 500 (forget sample_queued)).1 = Ok responses ∧ length responses = 1%nat.
Proof.
  destruct (flush_progress 500 (sample_endpoint 2 7) (forget sample_queued)) as (H & _).
  - lia.
  - right. left.
  - exact sample_relay_answers.
  - apply H. unfold cooling. change (health_of ?i (forget ?m)) with (health_of i m).
    rewrite sample_awake. by vm_compute.
Defined.

(** After the first flush the second relay is preferred. *)
Definition sample_again : TransportManager.t (nat * list Log.entry) :=
  (enqueue ping_frame sample_flushed).2.

Lemma flush_sticky_witness :
  preferred_endpoint (flush 600 sample_again).2 = Some (make_array 16 2).
Proof.
  destruct (flush_sticky 600 (sample_endpoint 2 7) sample_again) as (H & _).
  - lia.
  - right. left.
  - apply (bool_decide_unpack _). vm_compute. exact I.
  - vm_compute. reflexivity.
  - exact sample_relay_answers.
  - vm_compute. intros H. discriminate H.
  - unfold in_u. vm_compute. split; [intros H; discriminate H|reflexivity].
  - rewrite H. vm_compute. reflexivity.
Defined.
