(* ===== verification/Sql.v ===== *)
(** * Sql: tables, statements and transactions

    The two databases of the program (SQLite under messenger-core, PostgreSQL
    under core-api) as far as the source relies on them: a table is the list
    of its rows in insertion order; a statement either takes effect or fails
    with no effect; statements outside a transaction are committed at once;
    a transaction is committed or rolled back as a whole.  Every statement,
    BEGIN and COMMIT consumes one entry of a schedule of I/O failures, so the
    theorems about atomicity quantify over every place where a failure can
    strike. *)
From Stdlib Require Import ZArith Lia.
From stdpp Require Import base list.
From S2P Require Import Prelude.

(** ** Statements

    [dbm D E A] is a sequence of statements on a database [D]: a state monad
    over the visible database and the failure schedule ([true] fails the next
    statement, an exhausted schedule fails nothing), with [?] as its bind. *)
Definition dbm (D E A : Type) : Type := D → list bool → result E A * D * list bool.

#[export] Instance dbm_ret D E : MRet (dbm D E) := λ A a d fl, (Ok a, d, fl).
#[export] Instance dbm_bind D E : MBind (dbm D E) := λ A B f m d fl,
  match m d fl with
  | (Ok a, d, fl) => f a d fl
  | (Err e, d, fl) => (Err e, d, fl)
  end.

(** A pure [Result] under [?]. *)
Definition dlift {D E A} (r : result E A) : dbm D E A := λ d fl, (r, d, fl).

Section Statements.
Context {D E : Type} (db_error : E).

(** One SQL statement: [f] is its result and effect when the disk works; a
    constraint violation is an [Err] of [f] and has no effect either. *)
Definition execute {A} (f : D → result E (A * D)) : dbm D E A := λ d fl,
  if default false (head fl) then (Err db_error, d, tail fl)
  else match f d with
       | Ok (a, d') => (Ok a, d', tail fl)
       | Err e => (Err e, d, tail fl)
       end.

(** A statement that only reads. *)
Definition query {A} (f : D → result E A) : dbm D E A := λ d fl,
  if default false (head fl) then (Err db_error, d, tail fl) else (f d, d, tail fl).
End Statements.

(** [for x in l { .. }] with [?] in the body. *)
Fixpoint dfold {D E A X} (f : A → X → dbm D E A) (a : A) (l : list X) : dbm D E A :=
  match l with
  | [] => mret a
  | x :: l' => a ← f a x; dfold f a l'
  end.

(** The result and the final database when nothing fails. *)
Definition run {D E A} (m : dbm D E A) (d : D) : result E A * D := (m d []).1.

(** ** Connections and transactions *)

(** [committed] is what survives a restart, [current] what the connection sees. *)
Record world (D : Type) : Type := World {
  committed : D;
  current : D;
  in_tx : bool;
  faults : list bool
}.
Arguments World {D} _ _ _ _.
Arguments committed {D} _.
Arguments current {D} _.
Arguments in_tx {D} _.
Arguments faults {D} _.

Section Connection.
Context {D E A : Type} (db_error : E).

(** Statements issued directly on the connection: each is committed at once,
    unless a transaction was left open on it. *)
Definition autocommit (body : dbm D E A) (w : world D) : result E A * world D :=
  let '(r, d, fl) := body (current w) (faults w) in
  (r, World (if in_tx w then committed w else d) d (in_tx w) fl).

Definition rollback (w : world D) : world D :=
  World (committed w) (committed w) false (faults w).

(** [BEGIN] fails inside a transaction. *)
Definition begin_ (w : world D) : result E unit * world D :=
  if default false (head (faults w)) || in_tx w
  then (Err db_error, World (committed w) (current w) (in_tx w) (tail (faults w)))
  else (Ok tt, World (committed w) (current w) true (tail (faults w))).

Definition commit (w : world D) : result E unit * world D :=
  if default false (head (faults w))
  then (Err db_error, World (committed w) (current w) (in_tx w) (tail (faults w)))
  else (Ok tt, World (current w) (current w) false (tail (faults w))).

(** A [Transaction] value: dropped without [commit], it rolls back. *)
Definition transaction (body : dbm D E A) (w : world D) : result E A * world D :=
  match begin_ w with
  | (Err e, w) => (Err e, w)
  | (Ok _, w) =>
      match autocommit body w with
      | (Err e, w) => (Err e, rollback w)
      | (Ok a, w) =>
          match commit w with
          | (Err e, w) => (Err e, rollback w)
          | (Ok _, w) => (Ok a, w)
          end
      end
  end.

(** [execute_batch("BEGIN; ..; COMMIT;")]: a failure leaves the transaction open. *)
Definition batch (body : dbm D E A) (w : world D) : result E A * world D :=
  match begin_ w with
  | (Err e, w) => (Err e, w)
  | (Ok _, w) =>
      match autocommit body w with
      | (Err e, w) => (Err e, w)
      | (Ok a, w) =>
          match commit w with
          | (Err e, w) => (Err e, w)
          | (Ok _, w) => (Ok a, w)
          end
      end
  end.
End Connection.

(** No transaction is open, and everything seen is committed. *)
Definition clean {D} (w : world D) : Prop := in_tx w = false ∧ committed w = current w.
Definition quiet {D} (d : D) (fl : list bool) : world D := World d d false fl.

(** ** Statements on a table *)

Section Tables.
Context {R : Type}.
Implicit Types (p : R → bool) (t : list R).

Definition update_where p (f : R → R) t : list R := (λ r, if p r then f r else r) <$> t.
Definition select_where p t : list R := List.filter p t.
Definition delete_where p t : list R := List.filter (λ r, negb (p r)) t.
(** [changes()]: the number of rows a statement touched. *)
Definition count_where p t : Z := Z.of_nat (length (select_where p t)).
Definition exists_where p t : bool := existsb p t.
(** A query for at most one row. *)
Definition find_where p t : option R := head (select_where p t).
(** [MAX(column)], NULL on no rows. *)
Definition max_of (f : R → Z) t : option Z :=
  foldr (λ r acc, Some (match acc with Some a => Z.max (f r) a | None => f r end)) None t.

Lemma elem_of_select p t r : r ∈ select_where p t ↔ r ∈ t ∧ p r = true.
Proof. unfold select_where. rewrite !list_elem_of_In, filter_In. done. Qed.
Lemma elem_of_delete p t r : r ∈ delete_where p t ↔ r ∈ t ∧ p r = false.
Proof. unfold delete_where. by rewrite !list_elem_of_In, filter_In, negb_true_iff. Qed.
Lemma elem_of_update p f t r :
  r ∈ update_where p f t ↔ ∃ r0, r0 ∈ t ∧ r = if p r0 then f r0 else r0.
Proof. unfold update_where. rewrite list_elem_of_fmap.
  split; intros (r0 & H1 & H2); by exists r0. Qed.

Lemma exists_where_true p t : exists_where p t = true ↔ ∃ r, r ∈ t ∧ p r = true.
Proof.
  unfold exists_where. rewrite existsb_exists.
  split; intros (r & H & ?); exists r; by rewrite ?list_elem_of_In in *.
Qed.
Lemma exists_where_false p t : exists_where p t = false ↔ ∀ r, r ∈ t → p r = false.
Proof.
  rewrite <- not_true_iff_false, exists_where_true. split.
  - intros H r Hr. destruct (p r) eqn:E; [|done]. destruct H. eauto.
  - intros H (r & Hr & Hp). rewrite H in Hp by done. done.
Qed.

Lemma count_where_zero p t : count_where p t = 0 ↔ exists_where p t = false.
Proof.
  rewrite exists_where_false. unfold count_where.
  destruct (select_where p t) as [|r l] eqn:E; cbn.
  - split; [|done]. intros _ r Hr. destruct (p r) eqn:Hp; [|done].
    assert (Hin : r ∈ select_where p t) by by apply elem_of_select.
    rewrite E in Hin. by apply not_elem_of_nil in Hin.
  - split; [lia|]. intros H. assert (Hin : r ∈ select_where p t) by (rewrite E; left).
    apply elem_of_select in Hin as [Hr Hp]. by rewrite H in Hp.
Qed.

Lemma find_where_Some p t r : find_where p t = Some r → r ∈ t ∧ p r = true.
Proof.
  unfold find_where. destruct (select_where p t) as [|r' l] eqn:E; [done|]. intros [= ->].
  apply elem_of_select. rewrite E. left.
Qed.
Lemma find_where_None p t : find_where p t = None ↔ exists_where p t = false.
Proof.
  rewrite <- count_where_zero. unfold find_where, count_where.
  destruct (select_where p t); cbn; [done|]. split; [done|lia].
Qed.

Lemma update_where_none p f t : exists_where p t = false → update_where p f t = t.
Proof.
  rewrite exists_where_false. unfold update_where.
  induction t as [|r t IH]; intros H; [done|]. cbn. rewrite H by left. f_equal.
  apply IH. intros x Hx. apply H. by right.
Qed.

Lemma find_where_cons p r t : find_where p (r :: t) = if p r then Some r else find_where p t.
Proof. unfold find_where, select_where. cbn. by destruct (p r). Qed.

Lemma find_where_snoc p t r :
  find_where p (t ++ [r]) =
    match find_where p t with Some x => Some x | None => if p r then Some r else None end.
Proof.
  induction t as [|x t IH]; cbn [app]; rewrite find_where_cons; [done|].
  rewrite find_where_cons, IH. by destruct (p x).
Qed.

Lemma find_where_replaced p r t :
  p r = true → exists_where p t = true → find_where p (update_where p (λ _, r) t) = Some r.
Proof.
  intros Hr. induction t as [|x t IH]; [done|].
  change (update_where p (λ _, r) (x :: t))
    with ((if p x then r else x) :: update_where p (λ _, r) t).
  unfold exists_where. cbn [existsb]. rewrite find_where_cons.
  destruct (p x) eqn:Hx; cbn; [by rewrite Hr|]. rewrite Hx. apply IH.
Qed.

Lemma find_where_other p q r t :
  q r = false → (∀ x, p x = true → q x = false) →
  find_where q (update_where p (λ _, r) t) = find_where q t.
Proof.
  intros Hr Hpq. induction t as [|x t IH]; [done|].
  change (update_where p (λ _, r) (x :: t))
    with ((if p x then r else x) :: update_where p (λ _, r) t).
  rewrite !find_where_cons. destruct (p x) eqn:Hx; [rewrite Hr, (Hpq x Hx)|]; by rewrite IH.
Qed.

(** Keys: the value of a column that identifies rows. *)
Lemma update_key {K} (k : R → K) p f t :
  (∀ r, k (f r) = k r) → k <$> update_where p f t = k <$> t.
Proof.
  intros Hf. unfold update_where. rewrite <- list_fmap_compose. apply list_fmap_ext.
  intros _ r _. cbn. destruct (p r); [apply Hf|done].
Qed.
Lemma delete_key_sublist {K} (k : R → K) p t : k <$> delete_where p t `sublist_of` k <$> t.
Proof.
  unfold delete_where. induction t as [|r t IH]; cbn; [constructor|].
  destruct (negb (p r)); cbn; [by constructor|by apply sublist_cons].
Qed.
Lemma delete_key_NoDup {K} (k : R → K) p t : NoDup (k <$> t) → NoDup (k <$> delete_where p t).
Proof. intros H. eapply sublist_NoDup; [exact H|apply delete_key_sublist]. Qed.

Lemma max_of_spec (f : R → Z) t :
  match max_of f t with
  | Some z => (∃ r, r ∈ t ∧ f r = z) ∧ ∀ r, r ∈ t → f r ≤ z
  | None => t = []
  end.
Proof.
  induction t as [|r t IH]; [done|].
  change (max_of f (r :: t)) with
    (Some (match max_of f t with Some a => Z.max (f r) a | None => f r end)).
  destruct (max_of f t) as [z|].
  - destruct IH as [(r' & Hr' & Hz) Hmax]. split.
    + destruct (Z.max_spec (f r) z) as [[_ ->]|[_ ->]]; [exists r'; split; [by right|done]|].
      exists r. split; [left|done].
    + intros x [->|Hx]%elem_of_cons; [lia|]. specialize (Hmax x Hx). lia.
  - subst t. split; [exists r; split; [left|done]|].
    intros x [->|Hx]%elem_of_cons; [lia|]. by apply not_elem_of_nil in Hx.
Qed.
End Tables.

(** *** Unique keys *)

Definition unique {R K} (k : R → K) (t : list R) : Prop := NoDup (k <$> t).

Lemma unique_snoc {R K} (k : R → K) t r : k r ∉ k <$> t → unique k t → unique k (t ++ [r]).
Proof.
  intros Hr Ht. unfold unique in *. rewrite fmap_app. apply NoDup_app. split_and!; [done| |].
  - intros x Hx ->%list_elem_of_singleton. done.
  - apply NoDup_singleton.
Qed.

Lemma unique_delete {R K} (k : R → K) p t : unique k t → unique k (delete_where p t).
Proof. apply delete_key_NoDup. Qed.

Lemma unique_select {R K} (k : R → K) p t : unique k t → unique k (select_where p t).
Proof.
  intros Hu. replace (select_where p t) with (delete_where (λ r, negb (p r)) t).
  - by apply unique_delete.
  - apply List.filter_ext. intros r. apply negb_involutive.
Qed.

Lemma find_where_and {R} (p q : R → bool) t r :
  find_where p t = Some r → q r = true → find_where (λ r, p r && q r) t = Some r.
Proof.
  induction t as [|r' t IH]; [done|]. rewrite !find_where_cons. intros H Hq.
  destruct (p r') eqn:E; cbn [andb]; [injection H as ->; by rewrite Hq|by apply IH].
Qed.

(** [p] tests a key. *)
Definition keyed {R K} (k : R → K) (p : R → bool) (i : K) : Prop := ∀ r, p r = true ↔ k r = i.

Lemma exists_key {R K} (k : R → K) p i t :
  keyed k p i → exists_where p t = true ↔ i ∈ k <$> t.
Proof.
  intros Hp. rewrite exists_where_true, list_elem_of_fmap.
  split; intros (r & H1 & H2); exists r; [by apply Hp in H2 as <-|].
  split; [done|]. by apply Hp.
Qed.

Lemma not_exists_key {R K} (k : R → K) p i t :
  keyed k p i → exists_where p t = false ↔ i ∉ k <$> t.
Proof. intros Hp. rewrite <- not_true_iff_false. by rewrite (exists_key k p i). Qed.

(** Replacing the row of a key by one with the same key keeps the keys. *)
Lemma replace_key {R K} (k : R → K) p i r t :
  keyed k p i → k r = i → k <$> update_where p (λ _, r) t = k <$> t.
Proof.
  intros Hp Hr. unfold update_where. rewrite <- list_fmap_compose. apply list_fmap_ext.
  intros _ x _. cbn. destruct (p x) eqn:E; [|done]. apply Hp in E. congruence.
Qed.

Lemma upsert_unique {R K} (k : R → K) p i r t :
  keyed k p i → k r = i → unique k t →
  unique k (if exists_where p t then update_where p (λ _, r) t else t ++ [r]).
Proof.
  intros Hp Hr Ht. destruct (exists_where p t) eqn:E.
  - unfold unique. by rewrite (replace_key k p i).
  - apply unique_snoc; [|done]. rewrite Hr. by apply (not_exists_key k p i).
Qed.

Lemma select_key {R K} (k : R → K) p i t r :
  keyed k p i → unique k t → r ∈ t → k r = i → select_where p t = [r].
Proof.
  intros Hp Hu Hr Hk.
  assert (Hnone : ∀ l, i ∉ k <$> l → select_where p l = []).
  { induction l as [|x l IH]; [done|]. cbn. intros [Hx Hl]%not_elem_of_cons.
    destruct (p x) eqn:E; [|by apply IH]. by apply Hp in E as <-. }
  apply list_elem_of_split in Hr as (l1 & l2 & ->). unfold unique in Hu. rewrite fmap_app, fmap_cons in Hu.
  apply NoDup_app in Hu as (_ & Hd & [Hn _]%NoDup_cons). unfold select_where in *.
  rewrite List.filter_app. cbn [List.filter]. rewrite (proj2 (Hp r) Hk), Hnone, Hnone; [done| |].
  - by rewrite <- Hk.
  - intros Hin. apply (Hd i Hin). rewrite Hk. left.
Qed.
Lemma find_key {R K} (k : R → K) p i t r :
  keyed k p i → unique k t → r ∈ t → k r = i → find_where p t = Some r.
Proof.
  intros Hp Hu Hr Hk. destruct (find_where p t) as [r'|] eqn:E.
  - apply find_where_Some in E as [Hr' Hp']. apply Hp in Hp'. f_equal.
    apply (NoDup_key_inj k t); [done..|congruence].
  - apply find_where_None in E. rewrite exists_where_false in E.
    specialize (E r Hr). apply Hp in Hk. congruence.
Qed.

(** ** Failures only fail

    [Faithful m]: under any failure schedule [m] either reports the database
    error or does exactly what it does on a working disk. *)
Class Faithful {D E A} (db_error : E) (m : dbm D E A) : Prop := {
  faithful_run d fl :
    let '(r, d', _) := m d fl in r = Err db_error ∨ (r, d') = run m d;
  faithful_quiet d : (m d []).2 = []
}.
#[export] Hint Mode Faithful - - - - ! : typeclass_instances.

Section FaithfulInstances.
Context {D E : Type} (db_error : E).

#[export] Instance faithful_ret {A} (a : A) :
  Faithful (D := D) db_error (mret a : dbm D E A).
Proof. constructor; [by right|done]. Qed.

#[export] Instance faithful_lift {A} (r : result E A) :
  Faithful (D := D) db_error (dlift r).
Proof. constructor; [by right|done]. Qed.

#[export] Instance faithful_execute {A} (f : D → result E (A * D)) :
  Faithful db_error (execute db_error f).
Proof.
  constructor.
  - intros d fl. unfold run, execute. destruct (default false (head fl)); [by left|].
    cbn. destruct (f d) as [[a d']|e]; by right.
  - intros d. unfold execute. cbn. by destruct (f d) as [[a d']|e].
Qed.

#[export] Instance faithful_query {A} (f : D → result E A) :
  Faithful db_error (query db_error f).
Proof.
  constructor; [|done]. intros d fl. unfold run, query.
  destruct (default false (head fl)); [by left|by right].
Qed.

#[export] Instance faithful_bind {A B} (m : dbm D E A) (f : A → dbm D E B) :
  Faithful db_error m → (∀ a, Faithful db_error (f a)) → Faithful db_error (m ≫= f).
Proof.
  intros Hm Hf. constructor.
  - intros d fl. pose proof (faithful_run (m := m) (db_error := db_error) d fl) as H.
    pose proof (faithful_quiet (m := m) (db_error := db_error) d) as Hq.
    unfold run, mbind, dbm_bind in *. destruct (m d fl) as [[[a|e] d1] fl1].
    + destruct H as [H|H]; [done|]. destruct (m d []) as [[r0 d0] fl0]. cbn in H, Hq.
      injection H as <- <-. subst fl0. apply (faithful_run (m := f a) (db_error := db_error)).
    + destruct H as [[= ->]|H]; [by left|]. destruct (m d []) as [[r0 d0] fl0]. cbn in H.
      injection H as <- <-. by right.
  - intros d. pose proof (faithful_quiet (m := m) (db_error := db_error) d) as Hq.
    unfold mbind, dbm_bind. destruct (m d []) as [[[a|e] d1] fl1]; cbn in *; [|done].
    subst fl1. apply (faithful_quiet (m := f a) (db_error := db_error)).
Qed.

Lemma faithful_dfold {A X} (f : A → X → dbm D E A) a l :
  (∀ a x, Faithful db_error (f a x)) → Faithful db_error (dfold f a l).
Proof.
  intros Hf. revert a. induction l as [|x l IH]; intros a; cbn [dfold]; apply _.
Qed.
End FaithfulInstances.
#[export] Hint Extern 0 (Faithful _ (dfold _ _ _)) =>
  (apply faithful_dfold; intros) : typeclass_instances.

(** A single statement has no partial effect even on the connection itself. *)
Lemma run_bind {D E A B} db_error (m : dbm D E A) (f : A → dbm D E B) d :
  Faithful db_error m →
  run (m ≫= f) d =
    match run m d with (Ok a, d') => run (f a) d' | (Err e, d') => (Err e, d') end.
Proof.
  intros Hm. pose proof (faithful_quiet (m := m) (db_error := db_error) d) as Hq.
  unfold run, mbind, dbm_bind. destruct (m d []) as [[[a|e] d1] fl1]; cbn in *; by subst.
Qed.

(** ** Atomicity *)

Section Atomic.
Context {D E A : Type} (db_error : E).

(** A transaction on a clean connection is all or nothing, whatever fails. *)
Lemma transaction_atomic (body : dbm D E A) `{!Faithful db_error body} w :
  clean w →
  let '(r, w') := transaction db_error body w in
  clean w' ∧
  ((∃ e, r = Err e ∧ current w' = current w
      ∧ (e = db_error ∨ (run body (current w)).1 = Err e))
   ∨ ∃ a, r = Ok a ∧ run body (current w) = (Ok a, current w')).
Proof.
  intros [Htx Hc]. destruct w as [c d tx fl]. cbn in Htx, Hc. subst.
  unfold transaction, begin_. cbn [current committed in_tx faults].
  rewrite orb_false_r. destruct (default false (head fl)).
  { split; [done|]. left. exists db_error. auto. }
  unfold autocommit. cbn [current committed in_tx faults].
  pose proof (faithful_run (m := body) (db_error := db_error) d (tail fl)) as H.
  destruct (body d (tail fl)) as [[[a|e] d1] fl1].
  - destruct H as [H|H]; [done|]. unfold commit. cbn [faults].
    destruct (default false (head fl1)); (split; [done|]).
    + left. exists db_error. auto.
    + right. exists a. cbn. auto.
  - split; [done|]. left. exists e. split_and!; [done..|].
    destruct H as [[= ->]|H]; [by left|right]. by rewrite <- H.
Qed.

Lemma transaction_run (body : dbm D E A) d :
  Faithful db_error body →
  transaction db_error body (quiet d []) =
    match run body d with
    | (Ok a, d') => (Ok a, quiet d' [])
    | (Err e, _) => (Err e, quiet d [])
    end.
Proof.
  intros Hb. pose proof (faithful_quiet (m := body) (db_error := db_error) d) as Hq.
  unfold transaction, begin_, autocommit, run, quiet. cbn.
  destruct (body d []) as [[[a|e] d1] fl1]; cbn in *; by subst.
Qed.

(** A batch does everything or leaves what is committed alone; when it fails
    after its BEGIN the connection stays inside the transaction. *)
Lemma batch_cases (body : dbm D E A) `{!Faithful db_error body} w :
  clean w →
  let '(r, w') := batch db_error body w in
  match r with
  | Ok a => clean w' ∧ run body (current w) = (Ok a, current w')
  | Err e => committed w' = committed w ∧ (in_tx w' = false → current w' = current w)
      ∧ (e = db_error ∨ (run body (current w)).1 = Err e)
  end.
Proof.
  intros [Htx Hc]. destruct w as [c d tx fl]. cbn in Htx, Hc. subst.
  unfold batch, begin_. cbn [current committed in_tx faults]. rewrite orb_false_r.
  destruct (default false (head fl)); [by split_and!; [..|left]|].
  unfold autocommit. cbn [current committed in_tx faults].
  pose proof (faithful_run (m := body) (db_error := db_error) d (tail fl)) as H.
  destruct (body d (tail fl)) as [[[a|e] d1] fl1].
  - destruct H as [H|H]; [done|]. unfold commit. cbn [faults].
    destruct (default false (head fl1)); cbn [committed current in_tx]; [by split_and!; [..|left]|].
    split; [done|]. by rewrite <- H.
  - split_and!; [done..|]. destruct H as [[= ->]|H]; [by left|right]. by rewrite <- H.
Qed.

Lemma autocommit_clean (body : dbm D E A) w : clean w → clean (autocommit body w).2.
Proof.
  intros [Htx Hc]. unfold autocommit. destruct (body _ _) as [[r d'] fl]. cbn. by rewrite Htx.
Qed.

Lemma autocommit_run (body : dbm D E A) `{!Faithful db_error body} d :
  autocommit body (quiet d []) = let '(r, d') := run body d in (r, quiet d' []).
Proof.
  pose proof (faithful_quiet (m := body) (db_error := db_error) d) as Hq. unfold autocommit, run, quiet. cbn.
  destruct (body d []) as [[r d'] fl]. cbn in *. by subst.
Qed.

(** Inside a transaction nothing is committed, and it stays open. *)
Lemma autocommit_stuck (body : dbm D E A) w :
  in_tx w = true →
  in_tx (autocommit body w).2 = true ∧ committed (autocommit body w).2 = committed w.
Proof. intros H. unfold autocommit. destruct (body _ _) as [[r d'] fl]. cbn. by rewrite H. Qed.
Lemma transaction_stuck (body : dbm D E A) w :
  in_tx w = true →
  in_tx (transaction db_error body w).2 = true
  ∧ committed (transaction db_error body w).2 = committed w.
Proof. intros H. unfold transaction, begin_. rewrite H, orb_true_r. done. Qed.
Lemma batch_stuck (body : dbm D E A) w :
  in_tx w = true →
  in_tx (batch db_error body w).2 = true ∧ committed (batch db_error body w).2 = committed w.
Proof. intros H. unfold batch, begin_. rewrite H, orb_true_r. done. Qed.

Lemma autocommit_current (body : dbm D E A) w :
  (autocommit body w).1 = (body (current w) (faults w)).1.1
  ∧ current (autocommit body w).2 = (body (current w) (faults w)).1.2.
Proof. unfold autocommit. by destruct (body _ _) as [[r d'] fl]. Qed.
End Atomic.

(** Hoare-style preservation: every intermediate database satisfies [P]. *)
Class Preserves {D E A} (P : D → Prop) (m : dbm D E A) : Prop :=
  preserves d fl : P d → P (m d fl).1.2.
#[export] Hint Mode Preserves - - - - ! : typeclass_instances.

Section PreservesInstances.
Context {D E : Type} (P : D → Prop) (db_error : E).

#[export] Instance preserves_ret {A} (a : A) : Preserves P (mret a : dbm D E A).
Proof. by intros d fl. Qed.
#[export] Instance preserves_lift {A} (r : result E A) : Preserves P (dlift r).
Proof. by intros d fl. Qed.
#[export] Instance preserves_query {A} (f : D → result E A) :
  Preserves P (query db_error f).
Proof. intros d fl H. unfold query. by destruct (default false (head fl)). Qed.
#[export] Instance preserves_bind {A B} (m : dbm D E A) (f : A → dbm D E B) :
  Preserves P m → (∀ a, Preserves P (f a)) → Preserves P (m ≫= f).
Proof.
  intros Hm Hf d fl H. specialize (Hm d fl H). unfold mbind, dbm_bind.
  destruct (m d fl) as [[[a|e] d1] fl1]; [by apply Hf|done].
Qed.
Lemma preserves_execute {A} (f : D → result E (A * D)) :
  (∀ d a d', f d = Ok (a, d') → P d → P d') → Preserves P (execute db_error f).
Proof.
  intros Hf d fl H. unfold execute. destruct (default false (head fl)); [done|].
  destruct (f d) as [[a d']|e] eqn:E'; [|done]. cbn. by eapply Hf.
Qed.
Lemma preserves_dfold {A X} (f : A → X → dbm D E A) a l :
  (∀ a x, Preserves P (f a x)) → Preserves P (dfold f a l).
Proof. intros Hf. revert a. induction l as [|x l IH]; intros a; cbn [dfold]; apply _. Qed.
End PreservesInstances.

(** A body that changes nothing leaves a clean connection as it was. *)
Lemma autocommit_idle {D E A} (body : dbm D E A) w :
  (∀ d, Preserves (eq d) body) → clean w →
  clean (autocommit body w).2 ∧ current (autocommit body w).2 = current w.
Proof.
  intros Hb Hc. split; [by apply autocommit_clean|].
  destruct (autocommit_current body w) as [_ ->]. symmetry. by apply (Hb (current w)).
Qed.

(** *** Reading a successful run *)

Section Runs.
Context {D E : Type} (db_error : E).

Lemma run_bind_Ok {A B} (m : dbm D E A) (f : A → dbm D E B) d b d' :
  Faithful db_error m →
  run (m ≫= f) d = (Ok b, d') ↔ ∃ a d1, run m d = (Ok a, d1) ∧ run (f a) d1 = (Ok b, d').
Proof.
  intros Hm. rewrite (run_bind db_error) by done. split.
  - destruct (run m d) as [[a|e] d1]; [eauto|done].
  - intros (a & d1 & -> & H). done.
Qed.
Lemma run_execute {A} (f : D → result E (A * D)) d :
  run (execute db_error f) d =
    match f d with Ok (a, d') => (Ok a, d') | Err e => (Err e, d) end.
Proof. unfold run, execute. cbn. by destruct (f d) as [[a d']|e]. Qed.
Lemma run_execute_Ok {A} (f : D → result E (A * D)) d a d' :
  run (execute db_error f) d = (Ok a, d') ↔ f d = Ok (a, d').
Proof. rewrite run_execute. destruct (f d) as [[x y]|e]; split; congruence. Qed.
Lemma run_query {A} (f : D → result E A) d : run (query db_error f) d = (f d, d).
Proof. done. Qed.
Lemma run_query_Ok {A} (f : D → result E A) d a d' :
  run (query db_error f) d = (Ok a, d') ↔ f d = Ok a ∧ d' = d.
Proof. rewrite run_query. split; [by intros [= -> ->]|by intros [-> ->]]. Qed.
Lemma run_lift {A} (r : result E A) d : run (dlift (D := D) r) d = (r, d).
Proof. done. Qed.
Lemma run_lift_Ok {A} (r : result E A) d a d' :
  run (dlift (D := D) r) d = (Ok a, d') ↔ r = Ok a ∧ d' = d.
Proof. rewrite run_lift. split; [by intros [= -> ->]|by intros [-> ->]]. Qed.
Lemma run_ret {A} (a : A) d : run (mret a : dbm D E A) d = (Ok a, d).
Proof. done. Qed.
End Runs.

(** [run_inv err H]: take apart a successful run, statement by statement. *)
Ltac run_inv err H :=
  let a := fresh "a" in let d := fresh "d" in let Ha := fresh "Ha" in
  apply (run_bind_Ok err) in H; [|apply _]; destruct H as (a & d & Ha & H);
  first
    [ apply run_execute_Ok in Ha
    | apply run_query_Ok in Ha; destruct Ha as [Ha ->]
    | apply run_lift_Ok in Ha; destruct Ha as [Ha ->]
    | idtac ].

Create Rewrite HintDb run.
#[export] Hint Rewrite @run_execute @run_query @run_lift @run_ret : run.
