(* ===== verification/LocalDb.v ===== *)
(** * LocalDb: the SQLite schema of messenger-core

    The tables that [migrate] creates in crates/messenger-core/src/lib.rs, with
    their constraints and triggers, and the statements the operations of
    [MessengerCore] issue.  BLOB keys with a length CHECK are arrays of that
    length.  The well-formedness invariant of the store is at the end. *)
From Stdlib Require Import ZArith Lia.
From stdpp Require Import base list.
From S2P Require Import Prelude Protocol Sql.

Module CoreError.
Inductive t := Database | Authentication | InvalidTransition | NotFound | InvalidMasterKey.
#[export] Instance t_eq_dec : EqDecision t.
Proof. solve_decision. Defined.
End CoreError.

Module MessageStatus.
Inductive t :=
| Draft | Queued | Encrypting | ReadyToUpload | Uploading | ServerAccepted
| Delivered | Read | RetryScheduled | FailedPermanent | Cancelled.
#[export] Instance t_eq_dec : EqDecision t.
Proof. solve_decision. Defined.

Definition as_i64 (s : t) : Z :=
  match s with
  | Draft => 0 | Queued => 1 | Encrypting => 2 | ReadyToUpload => 3 | Uploading => 4
  | ServerAccepted => 5 | Delivered => 6 | Read => 7 | RetryScheduled => 8
  | FailedPermanent => 9 | Cancelled => 10
  end.

Definition try_from (value : Z) : result CoreError.t t :=
  match value with
  | 0 => Ok Draft | 1 => Ok Queued | 2 => Ok Encrypting | 3 => Ok ReadyToUpload
  | 4 => Ok Uploading | 5 => Ok ServerAccepted | 6 => Ok Delivered | 7 => Ok Read
  | 8 => Ok RetryScheduled | 9 => Ok FailedPermanent | 10 => Ok Cancelled
  | _ => Err CoreError.InvalidTransition
  end.

Lemma try_from_as_i64 s : try_from (as_i64 s) = Ok s.
Proof. by destruct s. Qed.
Lemma try_from_range z : 0 ≤ z ≤ 10 → ∃ s, try_from z = Ok s ∧ as_i64 s = z.
Proof.
  intros Hz.
  assert (z = 0 ∨ z = 1 ∨ z = 2 ∨ z = 3 ∨ z = 4 ∨ z = 5 ∨ z = 6 ∨ z = 7 ∨ z = 8 ∨ z = 9 ∨ z = 10)
    as Hcases by lia.
  destruct_or! Hcases; subst z; eexists; (split; [reflexivity|reflexivity]).
Qed.
End MessageStatus.

(** ** Rows *)
Module Conversation.
Record t := Make { conversation_id : Id; updated_at_ms : Z }.
End Conversation.
Module Message.
Record t := Make {
  client_message_id : Id; conversation_id : Id; body_ciphertext : bytes;
  status : Z; created_at_ms : Z
}.
Definition set_status (s : Z) (m : t) : t :=
  Make (client_message_id m) (conversation_id m) (body_ciphertext m) s (created_at_ms m).
Definition set_body (b : bytes) (m : t) : t :=
  Make (client_message_id m) (conversation_id m) b (status m) (created_at_ms m).
End Message.
Module Outbox.
Record t := Make { client_message_id : Id; next_attempt_at_ms : Z; attempts : Z }.
End Outbox.
Module Inbox.
Record t := Make {
  event_id : Id; conversation_id : Id; event_ciphertext : bytes; received_at_ms : Z
}.
End Inbox.
Module Cursor.
Record t := Make { scope : Id; cursor : Z }.
End Cursor.
Module Member.
Record t := Make {
  conversation_id : Id; device_id : Id; account_id : array 32; removed_at_ms : option Z
}.
Definition key (m : t) : Id * Id := (conversation_id m, device_id m).
End Member.
Module Blocked.
Record t := Make { account_id : array 32; blocked_at_ms : Z }.
End Blocked.
Module RelayCache.
Record t := Make { version : Z; signed_directory : bytes; expires_at_ms : Z }.
End RelayCache.

(** ** The database *)
Module Db.
Record t := Make {
  conversations : list Conversation.t;
  messages : list Message.t;
  outbox : list Outbox.t;
  inbox : list Inbox.t;
  sync_cursors : list Cursor.t;
  conversation_members : list Member.t;
  blocked_accounts : list Blocked.t;
  relay_directory_cache : list RelayCache.t;
  network_state : option Z;
  key_metadata : option Z;
  change_counter : option Z;
  user_version : Z;
  receipts : list (Id * Z * Z);
  contact_requests : list (Id * bytes * Z);
  crypto_state : list (Id * bytes * Z);
  account_state : option bytes;
  device_state : list (Id * bytes);
  tombstones : list (bytes * Z * Z)
}.

Definition set_conversations (v : list Conversation.t) (d : t) : t :=
  Make v (messages d) (outbox d) (inbox d) (sync_cursors d) (conversation_members d)
    (blocked_accounts d) (relay_directory_cache d) (network_state d) (key_metadata d)
    (change_counter d) (user_version d) (receipts d) (contact_requests d) (crypto_state
    d) (account_state d) (device_state d) (tombstones d).
Definition set_messages (v : list Message.t) (d : t) : t :=
  Make (conversations d) v (outbox d) (inbox d) (sync_cursors d) (conversation_members
    d) (blocked_accounts d) (relay_directory_cache d) (network_state d) (key_metadata d)
    (change_counter d) (user_version d) (receipts d) (contact_requests d) (crypto_state
    d) (account_state d) (device_state d) (tombstones d).
Definition set_outbox (v : list Outbox.t) (d : t) : t :=
  Make (conversations d) (messages d) v (inbox d) (sync_cursors d)
    (conversation_members d) (blocked_accounts d) (relay_directory_cache d)
    (network_state d) (key_metadata d) (change_counter d) (user_version d) (receipts d)
    (contact_requests d) (crypto_state d) (account_state d) (device_state d) (tombstones
    d).
Definition set_inbox (v : list Inbox.t) (d : t) : t :=
  Make (conversations d) (messages d) (outbox d) v (sync_cursors d)
    (conversation_members d) (blocked_accounts d) (relay_directory_cache d)
    (network_state d) (key_metadata d) (change_counter d) (user_version d) (receipts d)
    (contact_requests d) (crypto_state d) (account_state d) (device_state d) (tombstones
    d).
Definition set_sync_cursors (v : list Cursor.t) (d : t) : t :=
  Make (conversations d) (messages d) (outbox d) (inbox d) v (conversation_members d)
    (blocked_accounts d) (relay_directory_cache d) (network_state d) (key_metadata d)
    (change_counter d) (user_version d) (receipts d) (contact_requests d) (crypto_state
    d) (account_state d) (device_state d) (tombstones d).
Definition set_conversation_members (v : list Member.t) (d : t) : t :=
  Make (conversations d) (messages d) (outbox d) (inbox d) (sync_cursors d) v
    (blocked_accounts d) (relay_directory_cache d) (network_state d) (key_metadata d)
    (change_counter d) (user_version d) (receipts d) (contact_requests d) (crypto_state
    d) (account_state d) (device_state d) (tombstones d).
Definition set_blocked_accounts (v : list Blocked.t) (d : t) : t :=
  Make (conversations d) (messages d) (outbox d) (inbox d) (sync_cursors d)
    (conversation_members d) v (relay_directory_cache d) (network_state d) (key_metadata
    d) (change_counter d) (user_version d) (receipts d) (contact_requests d)
    (crypto_state d) (account_state d) (device_state d) (tombstones d).
Definition set_relay_directory_cache (v : list RelayCache.t) (d : t) : t :=
  Make (conversations d) (messages d) (outbox d) (inbox d) (sync_cursors d)
    (conversation_members d) (blocked_accounts d) v (network_state d) (key_metadata d)
    (change_counter d) (user_version d) (receipts d) (contact_requests d) (crypto_state
    d) (account_state d) (device_state d) (tombstones d).
Definition set_network_state (v : option Z) (d : t) : t :=
  Make (conversations d) (messages d) (outbox d) (inbox d) (sync_cursors d)
    (conversation_members d) (blocked_accounts d) (relay_directory_cache d) v
    (key_metadata d) (change_counter d) (user_version d) (receipts d) (contact_requests
    d) (crypto_state d) (account_state d) (device_state d) (tombstones d).
Definition set_key_metadata (v : option Z) (d : t) : t :=
  Make (conversations d) (messages d) (outbox d) (inbox d) (sync_cursors d)
    (conversation_members d) (blocked_accounts d) (relay_directory_cache d)
    (network_state d) v (change_counter d) (user_version d) (receipts d)
    (contact_requests d) (crypto_state d) (account_state d) (device_state d) (tombstones
    d).
Definition set_change_counter (v : option Z) (d : t) : t :=
  Make (conversations d) (messages d) (outbox d) (inbox d) (sync_cursors d)
    (conversation_members d) (blocked_accounts d) (relay_directory_cache d)
    (network_state d) (key_metadata d) v (user_version d) (receipts d) (contact_requests
    d) (crypto_state d) (account_state d) (device_state d) (tombstones d).
Definition set_user_version (v : Z) (d : t) : t :=
  Make (conversations d) (messages d) (outbox d) (inbox d) (sync_cursors d)
    (conversation_members d) (blocked_accounts d) (relay_directory_cache d)
    (network_state d) (key_metadata d) (change_counter d) v (receipts d)
    (contact_requests d) (crypto_state d) (account_state d) (device_state d) (tombstones
    d).
Definition set_receipts (v : list (Id * Z * Z)) (d : t) : t :=
  Make (conversations d) (messages d) (outbox d) (inbox d) (sync_cursors d)
    (conversation_members d) (blocked_accounts d) (relay_directory_cache d)
    (network_state d) (key_metadata d) (change_counter d) (user_version d) v
    (contact_requests d) (crypto_state d) (account_state d) (device_state d) (tombstones
    d).
Definition set_contact_requests (v : list (Id * bytes * Z)) (d : t) : t :=
  Make (conversations d) (messages d) (outbox d) (inbox d) (sync_cursors d)
    (conversation_members d) (blocked_accounts d) (relay_directory_cache d)
    (network_state d) (key_metadata d) (change_counter d) (user_version d) (receipts d)
    v (crypto_state d) (account_state d) (device_state d) (tombstones d).
Definition set_crypto_state (v : list (Id * bytes * Z)) (d : t) : t :=
  Make (conversations d) (messages d) (outbox d) (inbox d) (sync_cursors d)
    (conversation_members d) (blocked_accounts d) (relay_directory_cache d)
    (network_state d) (key_metadata d) (change_counter d) (user_version d) (receipts d)
    (contact_requests d) v (account_state d) (device_state d) (tombstones d).

(** The triggers: every affected row of a watched table bumps the revision. *)
Definition bump (n : Z) (d : t) : t :=
  set_change_counter ((λ r, r + n) <$> change_counter d) d.

(** A database file before its first migration. *)
Definition empty : t :=
  Make [] [] [] [] [] [] [] [] None None None 0 [] [] [] None [] [].
End Db.
Import Db.

(** ** Statements

    Each is the effect and the result of one SQL statement of the source;
    constraint violations are [Database] errors without effect. *)

Definition conversation_is (i : Id) (c : Conversation.t) : bool :=
  bool_decide (Conversation.conversation_id c = i).
Definition message_is (i : Id) (m : Message.t) : bool :=
  bool_decide (Message.client_message_id m = i).
Definition outbox_is (i : Id) (o : Outbox.t) : bool :=
  bool_decide (Outbox.client_message_id o = i).
Definition inbox_is (i : Id) (x : Inbox.t) : bool := bool_decide (Inbox.event_id x = i).
Definition cursor_is (i : Id) (c : Cursor.t) : bool := bool_decide (Cursor.scope c = i).
Definition member_is (c i : Id) (m : Member.t) : bool := bool_decide (Member.key m = (c, i)).
Definition blocked_is (a : array 32) (b : Blocked.t) : bool :=
  bool_decide (Blocked.account_id b = a).
Definition relay_is (v : Z) (r : RelayCache.t) : bool := RelayCache.version r =? v.

Definition insert_conversation_ignore (i : Id) (now : Z) (d : Db.t) : result CoreError.t (Z * Db.t) :=
  if exists_where (conversation_is i) (conversations d) then Ok (0, d)
  else Ok (1, bump 1 (set_conversations (conversations d ++ [Conversation.Make i now]) d)).

Definition touch_conversation (i : Id) (now : Z) (d : Db.t) : result CoreError.t (Z * Db.t) :=
  Ok (count_where (conversation_is i) (conversations d),
      set_conversations (update_where (conversation_is i) (λ _, Conversation.Make i now)
        (conversations d)) d).

Definition insert_message (m : Message.t) (d : Db.t) : result CoreError.t (Z * Db.t) :=
  if exists_where (message_is (Message.client_message_id m)) (messages d)
     || negb (exists_where (conversation_is (Message.conversation_id m)) (conversations d))
  then Err CoreError.Database
  else Ok (1, bump 1 (set_messages (messages d ++ [m]) d)).

Definition insert_outbox (o : Outbox.t) (d : Db.t) : result CoreError.t (Z * Db.t) :=
  if exists_where (outbox_is (Outbox.client_message_id o)) (outbox d)
     || negb (exists_where (message_is (Outbox.client_message_id o)) (messages d))
     || (Outbox.attempts o <? 0)
  then Err CoreError.Database
  else Ok (1, set_outbox (outbox d ++ [o]) d).

(** The rows of [WHERE client_message_id=i AND p(status)]. *)
Definition status_hit (i : Id) (p : Z → bool) (m : Message.t) : bool :=
  message_is i m && p (Message.status m).

(** [UPDATE messages SET status=s WHERE client_message_id=i AND p(status)] *)
Definition update_status (i : Id) (p : Z → bool) (s : Z) (d : Db.t) : result CoreError.t (Z * Db.t) :=
  let n := count_where (status_hit i p) (messages d) in
  Ok (n, bump n (set_messages (update_where (status_hit i p) (Message.set_status s) (messages d)) d)).

Definition select_status (i : Id) (d : Db.t) : result CoreError.t (option Z) :=
  Ok (Message.status <$> find_where (message_is i) (messages d)).

Definition delete_outbox (i : Id) (d : Db.t) : result CoreError.t (Z * Db.t) :=
  Ok (count_where (outbox_is i) (outbox d), set_outbox (delete_where (outbox_is i) (outbox d)) d).

(** Reading an INTEGER column as [u32] fails out of range. *)
Definition get_u32 (z : Z) : result CoreError.t Z :=
  if (0 <=? z) && (z <=? u32_max) then Ok z else Err CoreError.Database.

Definition select_attempts (i : Id) (d : Db.t) : result CoreError.t (option Z) :=
  match find_where (outbox_is i) (outbox d) with
  | None => Ok None
  | Some o => a ← get_u32 (Outbox.attempts o); Ok (Some a)
  end.

Definition schedule_retry (i : Id) (at_ms : Z) (d : Db.t) : result CoreError.t (Z * Db.t) :=
  Ok (count_where (outbox_is i) (outbox d),
      set_outbox (update_where (outbox_is i)
        (λ o, Outbox.Make (Outbox.client_message_id o) at_ms (Outbox.attempts o + 1)) (outbox d)) d).

Definition insert_inbox_ignore (x : Inbox.t) (d : Db.t) : result CoreError.t (Z * Db.t) :=
  if exists_where (inbox_is (Inbox.event_id x)) (inbox d) then Ok (0, d)
  else Ok (1, bump 1 (set_inbox (inbox d ++ [x]) d)).

Definition select_cursor (i : Id) (d : Db.t) : result CoreError.t (option Z) :=
  Ok (Cursor.cursor <$> find_where (cursor_is i) (sync_cursors d)).

Definition upsert_cursor (i : Id) (cursor : Z) (d : Db.t) : result CoreError.t (Z * Db.t) :=
  if cursor <? 0 then Err CoreError.Database
  else if exists_where (cursor_is i) (sync_cursors d)
  then Ok (1, set_sync_cursors (update_where (cursor_is i) (λ _, Cursor.Make i cursor) (sync_cursors d)) d)
  else Ok (1, set_sync_cursors (sync_cursors d ++ [Cursor.Make i cursor]) d).

Definition upsert_member (m : Member.t) (d : Db.t) : result CoreError.t (Z * Db.t) :=
  let hit := member_is (Member.conversation_id m) (Member.device_id m) in
  if exists_where hit (conversation_members d)
  then Ok (1, bump 1 (set_conversation_members (update_where hit (λ _, m) (conversation_members d)) d))
  else if negb (exists_where (conversation_is (Member.conversation_id m)) (conversations d))
  then Err CoreError.Database
  else Ok (1, bump 1 (set_conversation_members (conversation_members d ++ [m]) d)).

Definition mark_removed (c i : Id) (now : Z) (d : Db.t) : result CoreError.t (Z * Db.t) :=
  let hit m := member_is c i m && bool_decide (Member.removed_at_ms m = None) in
  let n := count_where hit (conversation_members d) in
  Ok (n, bump n (set_conversation_members (update_where hit
    (λ m, Member.Make (Member.conversation_id m) (Member.device_id m) (Member.account_id m) (Some now))
    (conversation_members d)) d)).

Definition insert_blocked_ignore (b : Blocked.t) (d : Db.t) : result CoreError.t (Z * Db.t) :=
  if exists_where (blocked_is (Blocked.account_id b)) (blocked_accounts d) then Ok (0, d)
  else Ok (1, set_blocked_accounts (blocked_accounts d ++ [b]) d).

Definition delete_blocked (a : array 32) (d : Db.t) : result CoreError.t (Z * Db.t) :=
  Ok (count_where (blocked_is a) (blocked_accounts d),
      set_blocked_accounts (delete_where (blocked_is a) (blocked_accounts d)) d).

Definition update_mode (mode : Z) (d : Db.t) : result CoreError.t (Z * Db.t) :=
  if (0 <=? mode) && (mode <=? 2)
  then Ok (if network_state d is Some _ then 1 else 0,
           set_network_state ((λ _, mode) <$> network_state d) d)
  else Err CoreError.Database.

(** A query for exactly one row. *)
Definition one_row {A} (o : option A) : result CoreError.t A := ok_or o CoreError.Database.

Definition upsert_relay (r : RelayCache.t) (d : Db.t) : result CoreError.t (Z * Db.t) :=
  let hit := relay_is (RelayCache.version r) in
  if RelayCache.version r <? 0 then Err CoreError.Database
  else if exists_where hit (relay_directory_cache d)
  then Ok (1, set_relay_directory_cache (update_where hit (λ _, r) (relay_directory_cache d)) d)
  else Ok (1, set_relay_directory_cache (relay_directory_cache d ++ [r]) d).

Definition update_body (i : Id) (b : bytes) (d : Db.t) : result CoreError.t (Z * Db.t) :=
  let n := count_where (message_is i) (messages d) in
  Ok (n, bump n (set_messages (update_where (message_is i) (Message.set_body b) (messages d)) d)).

Definition update_key_version (v : Z) (d : Db.t) : result CoreError.t (Z * Db.t) :=
  if v <=? 0 then Err CoreError.Database
  else Ok (if key_metadata d is Some _ then 1 else 0,
           set_key_metadata ((λ _, v) <$> key_metadata d) d).

(** ** Well-formed stores *)

Definition outbox_ids (o : list Outbox.t) : list Id := Outbox.client_message_id <$> o.
Definition message_ids (m : list Message.t) : list Id := Message.client_message_id <$> m.
Definition conversation_ids (c : list Conversation.t) : list Id :=
  Conversation.conversation_id <$> c.

(** Statuses that wait for an upload, and statuses that must not be uploaded. *)
Definition waiting (s : Z) : Prop := s = 3 ∨ s = 8.
Definition settled (s : Z) : Prop := s = 5 ∨ s = 10.

(** Conversations, messages and outbox fit together: keys are unique, foreign
    keys point to rows, statuses are legal, a message that waits for an upload
    has its outbox entry and one that is accepted or cancelled has none. *)
Record wf_mail (c : list Conversation.t) (m : list Message.t) (o : list Outbox.t) : Prop := {
  wf_conversation_key : unique Conversation.conversation_id c;
  wf_message_key : unique Message.client_message_id m;
  wf_outbox_key : unique Outbox.client_message_id o;
  wf_message_fk x : x ∈ m → Message.conversation_id x ∈ conversation_ids c;
  wf_outbox_fk i : i ∈ outbox_ids o → i ∈ message_ids m;
  wf_status x : x ∈ m → 0 ≤ Message.status x ≤ 10;
  wf_waiting x : x ∈ m → waiting (Message.status x) → Message.client_message_id x ∈ outbox_ids o;
  wf_settled x : x ∈ m → settled (Message.status x) → Message.client_message_id x ∉ outbox_ids o;
  wf_attempts x : x ∈ o → 0 ≤ Outbox.attempts x
}.

Record wf_members (c : list Conversation.t) (m : list Member.t) : Prop := {
  wf_member_key : unique Member.key m;
  wf_member_fk x : x ∈ m → Member.conversation_id x ∈ conversation_ids c
}.

Record wf_caches (d : Db.t) : Prop := {
  wf_inbox_key : unique Inbox.event_id (inbox d);
  wf_cursor_key : unique Cursor.scope (sync_cursors d);
  wf_cursor x : x ∈ sync_cursors d → 0 ≤ Cursor.cursor x < 2 ^ 63;
  wf_blocked_key : unique Blocked.account_id (blocked_accounts d);
  wf_relay_key : unique RelayCache.version (relay_directory_cache d);
  wf_relay_version x : x ∈ relay_directory_cache d → 0 ≤ RelayCache.version x < 2 ^ 63
}.

Record wf_singletons (d : Db.t) : Prop := {
  wf_mode : ∃ z, network_state d = Some z ∧ 0 ≤ z ≤ 2;
  wf_key_version : ∃ z, key_metadata d = Some z ∧ 0 < z;
  wf_revision : ∃ z, change_counter d = Some z ∧ 0 ≤ z
}.

Definition wf (d : Db.t) : Prop :=
  wf_mail (conversations d) (messages d) (outbox d)
  ∧ wf_members (conversations d) (conversation_members d)
  ∧ wf_caches d ∧ wf_singletons d.

(** *** Keys of the tables *)

Lemma conversation_keyed i : keyed Conversation.conversation_id (conversation_is i) i.
Proof. intros r. apply bool_decide_eq_true. Qed.
Lemma message_keyed i : keyed Message.client_message_id (message_is i) i.
Proof. intros r. apply bool_decide_eq_true. Qed.
Lemma outbox_keyed i : keyed Outbox.client_message_id (outbox_is i) i.
Proof. intros r. apply bool_decide_eq_true. Qed.
Lemma inbox_keyed i : keyed Inbox.event_id (inbox_is i) i.
Proof. intros r. apply bool_decide_eq_true. Qed.
Lemma cursor_keyed i : keyed Cursor.scope (cursor_is i) i.
Proof. intros r. apply bool_decide_eq_true. Qed.
Lemma conversation_member_keyed c i : keyed Member.key (member_is c i) (c, i).
Proof. intros r. apply bool_decide_eq_true. Qed.
Lemma blocked_keyed a : keyed Blocked.account_id (blocked_is a) a.
Proof. intros r. apply bool_decide_eq_true. Qed.
Lemma relay_keyed v : keyed RelayCache.version (relay_is v) v.
Proof. intros r. apply Z.eqb_eq. Qed.
#[export] Hint Resolve conversation_keyed message_keyed outbox_keyed inbox_keyed cursor_keyed
  conversation_member_keyed blocked_keyed relay_keyed : messenger.

Lemma delete_outbox_ids i j o : j ∈ outbox_ids (delete_where (outbox_is i) o) ↔ j ∈ outbox_ids o ∧ j ≠ i.
Proof.
  unfold outbox_ids. rewrite !list_elem_of_fmap. split.
  - intros (x & -> & [Hx Hp]%elem_of_delete). unfold outbox_is in Hp.
    apply bool_decide_eq_false in Hp. eauto.
  - intros [(x & -> & Hx) Hne]. exists x. split; [done|]. apply elem_of_delete. split; [done|].
    by apply bool_decide_eq_false.
Qed.

(** *** What statements do to the invariant *)

Lemma bump_fields n d :
  conversations (bump n d) = conversations d ∧ messages (bump n d) = messages d
  ∧ outbox (bump n d) = outbox d ∧ conversation_members (bump n d) = conversation_members d
  ∧ inbox (bump n d) = inbox d ∧ sync_cursors (bump n d) = sync_cursors d
  ∧ blocked_accounts (bump n d) = blocked_accounts d
  ∧ relay_directory_cache (bump n d) = relay_directory_cache d
  ∧ network_state (bump n d) = network_state d ∧ key_metadata (bump n d) = key_metadata d.
Proof. done. Qed.

Lemma wf_bump n d : 0 ≤ n → wf d → wf (bump n d).
Proof.
  intros Hn (H1 & H2 & [] & [Hm Hk (z & Hz & Hz0)]). split_and!; [done|done|by split|].
  split; [done|done|]. exists (z + n). cbn. rewrite Hz. cbn. split; [done|lia].
Qed.

Lemma count_nonneg {R} (p : R → bool) t : 0 ≤ count_where p t.
Proof. unfold count_where. lia. Qed.

(** A new conversation. *)
Lemma wf_mail_conversation c m o i now :
  i ∉ conversation_ids c → wf_mail c m o → wf_mail (c ++ [Conversation.Make i now]) m o.
Proof.
  intros Hi []. split; try done.
  - by apply unique_snoc.
  - intros x Hx. unfold conversation_ids. rewrite fmap_app, elem_of_app. left. by apply wf_message_fk0.
Qed.

Lemma wf_members_conversation c m i now :
  wf_members c m → wf_members (c ++ [Conversation.Make i now]) m.
Proof.
  intros []. split; [done|]. intros x Hx. unfold conversation_ids.
  rewrite fmap_app, elem_of_app. left. by apply wf_member_fk0.
Qed.

(** Conversations with the same ids serve the same references. *)
Lemma wf_mail_same_ids c c' m o :
  conversation_ids c' = conversation_ids c → wf_mail c m o → wf_mail c' m o.
Proof.
  intros Hc []. split; try done.
  - unfold unique, conversation_ids in *. by rewrite Hc.
  - intros x Hx. rewrite Hc. by apply wf_message_fk0.
Qed.
Lemma wf_members_same_ids c c' m :
  conversation_ids c' = conversation_ids c → wf_members c m → wf_members c' m.
Proof. intros Hc []. split; [done|]. intros x Hx. rewrite Hc. by apply wf_member_fk0. Qed.

(** A queued message with its outbox entry. *)
Lemma wf_mail_create c m o x now :
  Message.client_message_id x ∉ message_ids m →
  Message.conversation_id x ∈ conversation_ids c →
  Message.status x = 3 →
  wf_mail c m o →
  wf_mail c (m ++ [x]) (o ++ [Outbox.Make (Message.client_message_id x) now 0]).
Proof.
  intros Hi Hc Hs [].
  assert (Hio : Message.client_message_id x ∉ outbox_ids o) by (intros H; by apply Hi, wf_outbox_fk0).
  assert (Hids : ∀ j, j ∈ outbox_ids (o ++ [Outbox.Make (Message.client_message_id x) now 0])
    ↔ j ∈ outbox_ids o ∨ j = Message.client_message_id x).
  { intros j. unfold outbox_ids. rewrite fmap_app, elem_of_app.
    cbn. by rewrite list_elem_of_singleton. }
  assert (Hm : ∀ y, y ∈ m ++ [x] ↔ y ∈ m ∨ y = x)
    by (intros y; by rewrite elem_of_app, list_elem_of_singleton).
  split; try done.
  - by apply unique_snoc.
  - by apply unique_snoc.
  - intros y [Hy| ->]%Hm; [by apply wf_message_fk0|done].
  - intros j. rewrite Hids. unfold message_ids. rewrite fmap_app, elem_of_app. cbn.
    rewrite list_elem_of_singleton. intros [Hj| ->]; [left; by apply wf_outbox_fk0|by right].
  - intros y [Hy| ->]%Hm; [by apply wf_status0|lia].
  - intros y [Hy| ->]%Hm Hw; apply Hids; [left; by apply wf_waiting0|by right].
  - intros y [Hy| ->]%Hm Hw; [|unfold settled in Hw; lia].
    rewrite Hids. intros [H|H]; [by eapply wf_settled0|].
    apply Hi. rewrite <- H. by apply list_elem_of_fmap_2.
  - intros y [Hy|Hy]%elem_of_app; [by apply wf_attempts0|].
    apply list_elem_of_singleton in Hy as ->. done.
Qed.

Lemma elem_of_update_status i p s m x :
  x ∈ update_where (status_hit i p) (Message.set_status s) m →
  ∃ y, y ∈ m ∧ Message.client_message_id x = Message.client_message_id y
    ∧ Message.conversation_id x = Message.conversation_id y
    ∧ (status_hit i p y = true ∧ Message.client_message_id y = i ∧ Message.status x = s
       ∨ status_hit i p y = false ∧ x = y).
Proof.
  intros (y & Hy & ->)%elem_of_update. exists y. destruct (status_hit i p y) eqn:E.
  - split_and!; [done..|]. left. split_and!; [done| |done].
    apply andb_true_iff in E as [E _]. by apply bool_decide_eq_true in E.
  - split_and!; auto.
Qed.

(** The outbox stays: legal when the new status does not contradict it. *)
Lemma wf_mail_status c m o i p s :
  0 ≤ s ≤ 10 → ¬ settled s → (waiting s → i ∈ outbox_ids o) →
  wf_mail c m o → wf_mail c (update_where (status_hit i p) (Message.set_status s) m) o.
Proof.
  intros Hs Hns Hw []. split; try done.
  - unfold unique. by rewrite update_key.
  - intros x (y & Hy & _ & -> & _)%elem_of_update_status. by apply wf_message_fk0.
  - intros j Hj. unfold message_ids. rewrite update_key by done. by apply wf_outbox_fk0.
  - intros x (y & Hy & _ & _ & [(_ & _ & ->)|(_ & ->)])%elem_of_update_status; [done|].
    by apply wf_status0.
  - intros x (y & Hy & Hi & _ & [(_ & Hyi & Hx)|(_ & ->)])%elem_of_update_status Hwx.
    + rewrite Hi, Hyi. apply Hw. by rewrite <- Hx.
    + by apply wf_waiting0.
  - intros x (y & Hy & Hi & _ & [(_ & Hyi & Hx)|(_ & ->)])%elem_of_update_status Hwx.
    + by rewrite Hx in Hwx.
    + by apply wf_settled0.
Qed.

(** The outbox entry goes: legal when no row of the message still waits. *)
Lemma wf_mail_settle c m o i p s :
  0 ≤ s ≤ 10 → ¬ waiting s → (∀ z, waiting z → p z = true) →
  wf_mail c m o →
  wf_mail c (update_where (status_hit i p) (Message.set_status s) m) (delete_where (outbox_is i) o).
Proof.
  intros Hs Hns Hp []. split; try done.
  - unfold unique. by rewrite update_key.
  - by apply unique_delete.
  - intros x (y & Hy & _ & -> & _)%elem_of_update_status. by apply wf_message_fk0.
  - intros j [Hj _]%delete_outbox_ids. unfold message_ids. rewrite update_key by done.
    by apply wf_outbox_fk0.
  - intros x (y & Hy & _ & _ & [(_ & _ & ->)|(_ & ->)])%elem_of_update_status; [done|].
    by apply wf_status0.
  - intros x (y & Hy & Hi & _ & [(_ & Hyi & Hx)|(Hhit & ->)])%elem_of_update_status Hwx;
      [by rewrite Hx in Hwx|].
    apply delete_outbox_ids. split; [by apply wf_waiting0|]. intros Hyi.
    apply andb_false_iff in Hhit as [H|H]; [by apply bool_decide_eq_false in H|].
    by rewrite Hp in H.
  - intros x (y & Hy & Hi & _ & [(_ & Hyi & Hx)|(_ & ->)])%elem_of_update_status Hwx.
    + rewrite delete_outbox_ids, Hi. by intros [].
    + rewrite delete_outbox_ids. intros [? _]. by eapply wf_settled0.
  - intros x [Hx _]%elem_of_delete. by apply wf_attempts0.
Qed.

(** Rescheduling keeps ids and adds attempts. *)
Lemma wf_mail_reschedule c m o i at_ms :
  wf_mail c m o →
  wf_mail c m (update_where (outbox_is i)
    (λ x, Outbox.Make (Outbox.client_message_id x) at_ms (Outbox.attempts x + 1)) o).
Proof.
  intros []. set (o' := update_where _ _ o).
  assert (Hids : outbox_ids o' = outbox_ids o) by (by apply update_key).
  split; try done.
  - unfold unique. change (outbox_ids o' = outbox_ids o) in Hids. unfold outbox_ids in Hids. by rewrite Hids.
  - intros j. rewrite Hids. apply wf_outbox_fk0.
  - intros x Hx Hw. rewrite Hids. by apply wf_waiting0.
  - intros x Hx Hw. rewrite Hids. by apply wf_settled0.
  - intros x (y & Hy & ->)%elem_of_update. specialize (wf_attempts0 y Hy).
    destruct (outbox_is i y); cbn; lia.
Qed.

(** New bodies for existing messages. *)
Lemma wf_mail_bodies c m m' o :
  (Message.client_message_id <$> m') = (Message.client_message_id <$> m) →
  (∀ x, x ∈ m' → ∃ y, y ∈ m ∧ Message.client_message_id x = Message.client_message_id y
     ∧ Message.conversation_id x = Message.conversation_id y ∧ Message.status x = Message.status y) →
  wf_mail c m o → wf_mail c m' o.
Proof.
  intros Hids Hrows []. split; try done.
  - unfold unique. by rewrite Hids.
  - intros x (y & Hy & _ & -> & _)%Hrows. by apply wf_message_fk0.
  - intros i Hi. unfold message_ids. rewrite Hids. by apply wf_outbox_fk0.
  - intros x (y & Hy & _ & _ & ->)%Hrows. by apply wf_status0.
  - intros x (y & Hy & -> & _ & ->)%Hrows. by apply wf_waiting0.
  - intros x (y & Hy & -> & _ & ->)%Hrows. by apply wf_settled0.
Qed.
