(* ===== verification/LocalStore.v ===== *)
(** * LocalStore: the MessengerCore operations of messenger-core

    Models crates/messenger-core/src/lib.rs: every public operation of
    [MessengerCore] over the schema of LocalDb, with the clock and the random
    bytes as arguments and the AEAD as the [Crypto] parameter.  The mutex makes
    operations sequential; what the two locks allow between operations is the
    subject of the file Locks. *)
From Stdlib Require Import ZArith Lia.
From stdpp Require Import base list strings relations.
From S2P Require Import Prelude Protocol Crypto Sql LocalDb.
Import Db.

Definition SCHEMA_VERSION : Z := 2.
Definition MESSAGE_AAD : bytes := lit "resilient/local-message/v1".

Module LocalMessage.
Record t := Make {
  client_message_id : Id; conversation_id : Id; plaintext : str;
  status : MessageStatus.t; created_at_ms : Z
}.
End LocalMessage.
Module PendingUpload.
Record t := Make {
  client_message_id : Id; conversation_id : Id; encrypted_payload : bytes; attempts : Z
}.
End PendingUpload.
Module IncomingEvent.
Record t := Make { event_id : Id; conversation_id : Id; encrypted_event : bytes }.
End IncomingEvent.
Module NetworkMode.
Inductive t := Normal | Limited | Survival.
Definition as_i64 (m : t) : Z := match m with Normal => 0 | Limited => 1 | Survival => 2 end.
End NetworkMode.
Module NetworkDiagnostics.
Record t := Make { mode : NetworkMode.t; pending_uploads : Z; last_cursor : Z }.
End NetworkDiagnostics.

(** ** Message encryption *)
Section Encryption.
Context `{C : Crypto}.

Definition encrypt (key : array 32) (nonce : array 24) (plaintext : bytes)
    : result CoreError.t bytes :=
  c ← ok_or (aead_encrypt key nonce MESSAGE_AAD plaintext) CoreError.Authentication;
  Ok (arr nonce ++ c).

Definition decrypt (key : array 32) (blob : bytes) : result CoreError.t bytes :=
  if len blob <? 40 then Err CoreError.Authentication
  else
    match try_array 24 (take 24 blob) with
    | None => Err CoreError.Authentication
    | Some nonce =>
        ok_or (aead_decrypt key nonce MESSAGE_AAD (drop 24 blob)) CoreError.Authentication
    end.
End Encryption.

(** ** The connection *)

Module MessengerCore.
Record t := Make { db : world Db.t; master_key : array 32 }.
End MessengerCore.
Import MessengerCore.

(** Run a database action of an operation. *)
Definition on_db {A} (f : world Db.t → result CoreError.t A * world Db.t) (c : MessengerCore.t)
    : result CoreError.t A * MessengerCore.t :=
  let '(r, w) := f (db c) in (r, MessengerCore.Make w (master_key c)).

Abbreviation stmt := (dbm Db.t CoreError.t).
Abbreviation exec := (execute CoreError.Database).
Abbreviation ask := (query CoreError.Database).
Definition in_transaction {A} (body : stmt A) : MessengerCore.t → result CoreError.t A * MessengerCore.t :=
  on_db (transaction CoreError.Database body).
Definition direct {A} (body : stmt A) : MessengerCore.t → result CoreError.t A * MessengerCore.t :=
  on_db (autocommit body).

(** ** Opening

    A CREATE .. IF NOT EXISTS changes no row: the tables of [Db.t] are always
    there, empty.  It is a statement at which the disk can fail. *)
Definition create_if_missing (n : nat) : stmt unit :=
  dfold (λ _ _, exec (λ d, Ok (tt, d))) tt (seq 0 n).
Definition insert_network_state_ignore (d : Db.t) : result CoreError.t (unit * Db.t) :=
  Ok (tt, set_network_state (Some (default 0 (network_state d))) d).
Definition insert_key_metadata_ignore (d : Db.t) : result CoreError.t (unit * Db.t) :=
  Ok (tt, set_key_metadata (Some (default 1 (key_metadata d))) d).
Definition insert_change_counter_ignore (d : Db.t) : result CoreError.t (unit * Db.t) :=
  Ok (tt, set_change_counter (Some (default 0 (change_counter d))) d).

(** The batch of [migrate]: twelve tables and two indexes up to network_state,
    one table, four tables, six triggers. *)
Definition schema_body : stmt unit :=
  _ ← create_if_missing 14;
  _ ← exec insert_network_state_ignore;
  _ ← create_if_missing 1;
  _ ← exec insert_key_metadata_ignore;
  _ ← create_if_missing 4;
  _ ← exec insert_change_counter_ignore;
  _ ← create_if_missing 6;
  exec (λ d, Ok (tt, set_user_version SCHEMA_VERSION d)).
Definition read_version : stmt Z := ask (λ d, Ok (user_version d)).

Definition migrate (w : world Db.t) : result CoreError.t unit * world Db.t :=
  match autocommit read_version w with
  | (Err e, w) => (Err e, w)
  | (Ok version, w) =>
      if SCHEMA_VERSION <? version then (Err CoreError.Database, w)
      else match batch CoreError.Database schema_body w with
           | (Err e, w) => (Err e, w)
           | (Ok _, w) =>
               match autocommit read_version w with
               | (Err e, w) => (Err e, w)
               | (Ok version, w) =>
                   (if version =? SCHEMA_VERSION then Ok tt else Err CoreError.Database, w)
               end
           end
  end.

(** Open the connection with [settings] statements (the file itself and its
    pragmas), then migrate: the result, and the file as it is afterwards.  When
    opening fails the connection is dropped, and what it had not committed
    is gone. *)
Definition open_with (settings : nat) (fl : list bool) (d : Db.t) (key : bytes)
    : result CoreError.t MessengerCore.t * Db.t :=
  match try_array 32 key with
  | None => (Err CoreError.InvalidMasterKey, d)
  | Some key =>
      match autocommit (create_if_missing settings) (quiet d fl) with
      | (Err e, w) => (Err e, committed w)
      | (Ok _, w) =>
          let '(r, w) := migrate w in
          ((_ ← r; Ok (MessengerCore.Make w key)), committed w)
      end
  end.

(** [open] on the file that holds [d]: the file, journal_mode, foreign_keys. *)
Definition open_ : list bool → Db.t → bytes → result CoreError.t MessengerCore.t * Db.t := open_with 3.
Definition open_in_memory (fl : list bool) (key : bytes) : result CoreError.t MessengerCore.t :=
  (open_with 2 fl Db.empty key).1.

(** ** Operations *)

Definition create_body (client_message_id conversation_id : Id) (encrypted : bytes) (now : Z) : stmt Id :=
  _ ← exec (insert_conversation_ignore conversation_id now);
  _ ← exec (insert_message (Message.Make client_message_id conversation_id encrypted
        (MessageStatus.as_i64 MessageStatus.ReadyToUpload) now));
  _ ← exec (insert_outbox (Outbox.Make client_message_id now 0));
  _ ← exec (touch_conversation conversation_id now);
  mret client_message_id.

(** The database half of [create_message], from the ciphertext on. *)
Definition create_encrypted (client_message_id conversation_id : Id) (encrypted : bytes) (now : Z)
    : MessengerCore.t → result CoreError.t Id * MessengerCore.t :=
  in_transaction (create_body client_message_id conversation_id encrypted now).

Definition create_message `{C : Crypto} (client_message_id : Id) (nonce : array 24) (now : Z)
    (conversation_id : Id) (plaintext : str) (c : MessengerCore.t)
    : result CoreError.t Id * MessengerCore.t :=
  match encrypt (master_key c) nonce (str_bytes plaintext) with
  | Err e => (Err e, c)
  | Ok encrypted => create_encrypted client_message_id conversation_id encrypted now c
  end.

(** [String::from_utf8(decrypt(..)?)] *)
Definition read_plaintext `{C : Crypto} (key : array 32) (m : Message.t) : result CoreError.t str :=
  p ← decrypt key (Message.body_ciphertext m);
  ok_or (from_utf8 p) CoreError.Authentication.

Definition read_message `{C : Crypto} (key : array 32) (conversation_id : Id) (m : Message.t)
    : result CoreError.t LocalMessage.t :=
  plaintext ← read_plaintext key m;
  status ← MessageStatus.try_from (Message.status m);
  Ok (LocalMessage.Make (Message.client_message_id m) conversation_id plaintext status
        (Message.created_at_ms m)).

(** Rows are in rowid order, so a stable sort on the first column is
    [ORDER BY created_at_ms, rowid]. *)
Definition created_leb (m1 m2 : Message.t) : bool :=
  Message.created_at_ms m1 <=? Message.created_at_ms m2.

Definition select_messages (conversation_id : Id) (d : Db.t) : list Message.t :=
  stable_sort created_leb
    (select_where (λ m, bool_decide (Message.conversation_id m = conversation_id)) (messages d)).

Definition list_messages `{C : Crypto} (conversation_id : Id) (c : MessengerCore.t)
    : result CoreError.t (list LocalMessage.t) * MessengerCore.t :=
  direct (rows ← ask (λ d, Ok (select_messages conversation_id d));
          dlift (collect (read_message (master_key c) conversation_id) rows)) c.

(** [ORDER BY updated_at_ms DESC,conversation_id] *)
Definition recent_leb (c1 c2 : Conversation.t) : bool :=
  (Conversation.updated_at_ms c2 <? Conversation.updated_at_ms c1)
  || ((Conversation.updated_at_ms c1 =? Conversation.updated_at_ms c2)
      && bytes_leb (arr (Conversation.conversation_id c1)) (arr (Conversation.conversation_id c2))).

Definition list_conversations : MessengerCore.t → result CoreError.t (list Conversation.t) * MessengerCore.t :=
  direct (ask (λ d, Ok (stable_sort recent_leb (conversations d)))).

Definition observe_conversation_changes (after_revision : Z)
    : MessengerCore.t → result CoreError.t Z * MessengerCore.t :=
  direct (revision ← ask (λ d, one_row (change_counter d));
          mret (Z.max (as_u64 revision) after_revision)).

Definition create_group (group_id : Id) (now : Z) : MessengerCore.t → result CoreError.t unit * MessengerCore.t :=
  direct (_ ← exec (insert_conversation_ignore group_id now); mret tt).

Definition add_member (group_id device_id : Id) (account_id : array 32)
    : MessengerCore.t → result CoreError.t unit * MessengerCore.t :=
  direct (_ ← exec (upsert_member (Member.Make group_id device_id account_id None)); mret tt).

Definition remove_member (group_id device_id : Id) (now : Z)
    : MessengerCore.t → result CoreError.t unit * MessengerCore.t :=
  direct (changed ← exec (mark_removed group_id device_id now);
          dlift (ensure (changed =? 1) CoreError.NotFound)).

(** The join of the outbox with its messages, due rows first.  The order of
    equal times is the engine's choice; rowid order is taken here. *)
Definition due_leb (x y : Outbox.t * Message.t) : bool :=
  Outbox.next_attempt_at_ms (fst x) <=? Outbox.next_attempt_at_ms (fst y).

Definition select_pending (now limit : Z) (d : Db.t) : list (Outbox.t * Message.t) :=
  let joined := flat_map (λ o, (λ m, (o, m)) <$>
      select_where (message_is (Outbox.client_message_id o)) (messages d)) (outbox d) in
  take (Z.to_nat limit)
    (stable_sort due_leb (select_where (λ x, Outbox.next_attempt_at_ms (fst x) <=? now) joined)).

Definition read_pending (x : Outbox.t * Message.t) : result CoreError.t PendingUpload.t :=
  attempts ← get_u32 (Outbox.attempts (fst x));
  Ok (PendingUpload.Make (Message.client_message_id (snd x)) (Message.conversation_id (snd x))
        (Message.body_ciphertext (snd x)) attempts).

Definition get_pending_uploads (limit now : Z)
    : MessengerCore.t → result CoreError.t (list PendingUpload.t) * MessengerCore.t :=
  direct (rows ← ask (λ d, Ok (select_pending now (Z.min limit 50) d));
          dlift (collect read_pending rows)).

(** [status IN (..)] *)
Definition status_in (l : list MessageStatus.t) (s : Z) : bool :=
  existsb (λ x, MessageStatus.as_i64 x =? s) l.

Definition accepted_body (i : Id) : stmt unit :=
  changed ← exec (update_status i
    (status_in [MessageStatus.ReadyToUpload; MessageStatus.Uploading; MessageStatus.RetryScheduled])
    (MessageStatus.as_i64 MessageStatus.ServerAccepted));
  already ← ask (select_status i);
  _ ← dlift (if (changed =? 0)
                && negb (bool_decide (already = Some (MessageStatus.as_i64 MessageStatus.ServerAccepted)))
             then Err (if already is Some _ then CoreError.InvalidTransition else CoreError.NotFound)
             else Ok tt);
  _ ← exec (delete_outbox i);
  mret tt.

Definition mark_upload_accepted (i : Id) : MessengerCore.t → result CoreError.t unit * MessengerCore.t :=
  in_transaction (accepted_body i).

Definition retry_delay (attempts : Z) : Z :=
  Z.min i64_max (1000 * Z.shiftl 1 (Z.min attempts 10)).

Definition retry_body (i : Id) (now : Z) : stmt unit :=
  attempts ← ask (select_attempts i);
  attempts ← dlift (ok_or attempts CoreError.NotFound);
  _ ← exec (schedule_retry i (as_i64 (now + retry_delay attempts)));
  _ ← exec (update_status i (λ _, true) (MessageStatus.as_i64 MessageStatus.RetryScheduled));
  mret tt.

(** Two statements without a transaction. *)
Definition retry_message (i : Id) (now : Z) : MessengerCore.t → result CoreError.t unit * MessengerCore.t :=
  direct (retry_body i now).

Definition cancel_body (i : Id) : stmt unit :=
  changed ← exec (update_status i
    (status_in [MessageStatus.Queued; MessageStatus.ReadyToUpload; MessageStatus.RetryScheduled])
    (MessageStatus.as_i64 MessageStatus.Cancelled));
  _ ← dlift (ensure (negb (changed =? 0)) CoreError.InvalidTransition);
  _ ← exec (delete_outbox i);
  mret tt.

Definition cancel_pending_message (i : Id) : MessengerCore.t → result CoreError.t unit * MessengerCore.t :=
  in_transaction (cancel_body i).

Definition inbox_row (e : IncomingEvent.t) (now : Z) : Inbox.t :=
  Inbox.Make (IncomingEvent.event_id e) (IncomingEvent.conversation_id e)
    (IncomingEvent.encrypted_event e) now.

Definition ingest_server_event (e : IncomingEvent.t) (now : Z)
    : MessengerCore.t → result CoreError.t bool * MessengerCore.t :=
  direct (changed ← exec (insert_inbox_ignore (inbox_row e now)); mret (changed =? 1)).

(** One round of the batch loop. *)
Definition ingest_one (inserted : Z) (x : IncomingEvent.t * Z) : stmt Z :=
  changed ← exec (insert_inbox_ignore (inbox_row (fst x) (snd x)));
  mret (inserted + changed).

(** Each event carries the reading of the clock at its insertion. *)
Definition ingest_body (events : list (IncomingEvent.t * Z)) : stmt Z :=
  dfold ingest_one 0 events.

Definition ingest_server_batch (events : list (IncomingEvent.t * Z)) (c : MessengerCore.t)
    : result CoreError.t Z * MessengerCore.t :=
  if 50 <? Z.of_nat (length events) then (Err CoreError.InvalidTransition, c)
  else in_transaction (ingest_body events) c.

Definition cursor_body (scope : Id) (cursor : Z) : stmt unit :=
  current ← ask (select_cursor scope);
  _ ← dlift (match current with
             | Some v => ensure (negb (cursor <? as_u64 v)) CoreError.InvalidTransition
             | None => Ok tt
             end);
  _ ← exec (upsert_cursor scope (as_i64 cursor));
  mret tt.

Definition set_sync_cursor (scope : Id) (cursor : Z)
    : MessengerCore.t → result CoreError.t unit * MessengerCore.t :=
  direct (cursor_body scope cursor).

Definition advance_body (i : Id) (s : MessageStatus.t) : stmt unit :=
  changed ← exec (update_status i (λ z, z <? MessageStatus.as_i64 s) (MessageStatus.as_i64 s));
  if changed =? 0 then
    present ← ask (λ d, Ok (exists_where (message_is i) (messages d)));
    dlift (ensure present CoreError.NotFound)
  else mret tt.

Definition advance_message_status (i : Id) (s : MessageStatus.t)
    : MessengerCore.t → result CoreError.t unit * MessengerCore.t := direct (advance_body i s).
Definition apply_delivery_receipt (i : Id) := advance_message_status i MessageStatus.Delivered.
Definition apply_read_receipt (i : Id) := advance_message_status i MessageStatus.Read.

Definition block_account (a : array 32) (now : Z)
    : MessengerCore.t → result CoreError.t unit * MessengerCore.t :=
  direct (_ ← exec (insert_blocked_ignore (Blocked.Make a now)); mret tt).
Definition unblock_account (a : array 32)
    : MessengerCore.t → result CoreError.t unit * MessengerCore.t :=
  direct (_ ← exec (delete_blocked a); mret tt).

Definition set_network_mode (m : NetworkMode.t)
    : MessengerCore.t → result CoreError.t unit * MessengerCore.t :=
  direct (_ ← exec (update_mode (NetworkMode.as_i64 m)); mret tt).

Definition get_network_diagnostics
    : MessengerCore.t → result CoreError.t NetworkDiagnostics.t * MessengerCore.t :=
  direct (mode ← ask (λ d, one_row (network_state d));
          pending_uploads ← ask (λ d, Ok (Z.of_nat (length (outbox d))));
          last_cursor ← ask (λ d, Ok (default 0 (max_of Cursor.cursor (sync_cursors d))));
          mode ← dlift (match mode with
                        | 0 => Ok NetworkMode.Normal
                        | 1 => Ok NetworkMode.Limited
                        | 2 => Ok NetworkMode.Survival
                        | _ => Err CoreError.Authentication
                        end);
          mret (NetworkDiagnostics.Make mode (as_u64 pending_uploads) (as_u64 last_cursor))).

(** [CachedRelayDirectory]: a cache row whose version is a u64. *)
Definition cache_body (r : RelayCache.t) : stmt unit :=
  current ← ask (λ d, Ok (max_of RelayCache.version (relay_directory_cache d)));
  _ ← dlift (match current with
             | Some v => ensure (negb (RelayCache.version r <? as_u64 v)) CoreError.InvalidTransition
             | None => Ok tt
             end);
  _ ← exec (upsert_relay (RelayCache.Make (as_i64 (RelayCache.version r))
        (RelayCache.signed_directory r) (RelayCache.expires_at_ms r)));
  mret tt.

Definition cache_relay_directory (r : RelayCache.t)
    : MessengerCore.t → result CoreError.t unit * MessengerCore.t := direct (cache_body r).

(** [ORDER BY version DESC LIMIT 1] *)
Definition newer_leb (r1 r2 : RelayCache.t) : bool := RelayCache.version r2 <=? RelayCache.version r1.
Definition select_relay (d : Db.t) : option RelayCache.t :=
  (λ r, RelayCache.Make (as_u64 (RelayCache.version r)) (RelayCache.signed_directory r)
          (RelayCache.expires_at_ms r))
  <$> head (stable_sort newer_leb (relay_directory_cache d)).
Definition last_relay_directory
    : MessengerCore.t → result CoreError.t (option RelayCache.t) * MessengerCore.t :=
  direct (ask (λ d, Ok (select_relay d))).

(** [str::contains] *)
Fixpoint contains (needle l : bytes) : bool :=
  starts_with needle l || match l with [] => false | _ :: l' => contains needle l' end.

(** [lower] is [str::to_lowercase], which the standard library defines by
    Unicode tables. *)
Fixpoint search_rows `{C : Crypto} (lower : bytes → bytes) (key : array 32) (q : str)
    (rows : list Message.t) : result CoreError.t (list LocalMessage.t) :=
  match rows with
  | [] => Ok []
  | m :: rows' =>
      plaintext ← read_plaintext key m;
      if contains (lower (str_bytes q)) (lower (str_bytes plaintext)) then
        status ← MessageStatus.try_from (Message.status m);
        found ← search_rows lower key q rows';
        Ok (LocalMessage.Make (Message.client_message_id m) (Message.conversation_id m) plaintext
              status (Message.created_at_ms m) :: found)
      else search_rows lower key q rows'
  end.

Definition newest_leb (m1 m2 : Message.t) : bool := created_leb m2 m1.
Definition local_search `{C : Crypto} (lower : bytes → bytes) (q : str) (c : MessengerCore.t)
    : result CoreError.t (list LocalMessage.t) * MessengerCore.t :=
  if bool_decide (str_bytes q = []) then (Ok [], c)
  else direct (rows ← ask (λ d, Ok (stable_sort newest_leb (messages d)));
               dlift (search_rows lower (master_key c) q rows)) c.

(** Re-encrypt the rows one by one; [nonces] are the random nonces drawn. *)
Fixpoint rotate_rows `{C : Crypto} (active replacement : array 32) (nonces : nat → array 24)
    (rows : list Message.t) : stmt unit :=
  match rows with
  | [] => mret tt
  | m :: rows' =>
      plaintext ← dlift (decrypt active (Message.body_ciphertext m));
      reencrypted ← dlift (encrypt replacement (nonces (length rows')) plaintext);
      _ ← exec (update_body (Message.client_message_id m) reencrypted);
      rotate_rows active replacement nonces rows'
  end.

Definition rotate_body `{C : Crypto} (active replacement : array 32) (new_version : Z)
    (nonces : nat → array 24) : stmt unit :=
  current ← ask (λ d, one_row (key_metadata d));
  _ ← dlift (ensure (new_version =? current + 1) CoreError.InvalidTransition);
  rows ← ask (λ d, Ok (messages d));
  _ ← rotate_rows active replacement nonces rows;
  _ ← exec (update_key_version new_version);
  mret tt.

Definition rotate_master_key `{C : Crypto} (new_key : bytes) (new_version : Z)
    (nonces : nat → array 24) (c : MessengerCore.t) : result CoreError.t unit * MessengerCore.t :=
  match try_array 32 new_key with
  | None => (Err CoreError.InvalidMasterKey, c)
  | Some replacement =>
      let '(r, c') :=
        in_transaction (rotate_body (master_key c) replacement new_version nonces) c in
      match r with
      | Err e => (Err e, c')
      | Ok _ => (Ok tt, MessengerCore.Make (db c') replacement)
      end
  end.

Definition wipe_body : stmt unit :=
  _ ← exec (λ d, Ok (tt, set_outbox [] d));
  _ ← exec (λ d, Ok (tt, set_inbox [] d));
  _ ← exec (λ d, Ok (tt, set_messages [] (set_outbox [] d)));
  _ ← exec (λ d, Ok (tt, set_conversation_members [] d));
  _ ← exec (λ d, if bool_decide (messages d = [])
                 then Ok (tt, set_conversations [] (set_conversation_members [] d))
                 else Err CoreError.Database);
  _ ← exec (λ d, Ok (tt, set_sync_cursors [] d));
  _ ← exec (λ d, Ok (tt, set_receipts [] d));
  _ ← exec (λ d, Ok (tt, set_contact_requests [] d));
  _ ← exec (λ d, Ok (tt, set_blocked_accounts [] d));
  _ ← exec (λ d, Ok (tt, set_relay_directory_cache [] d));
  _ ← exec (λ d, Ok (tt, set_crypto_state [] d));
  exec (λ d, Ok (tt, bump 1 d)).

(** [execute_batch]: a failing statement leaves the transaction open. *)
Definition wipe_local_account : MessengerCore.t → result CoreError.t unit * MessengerCore.t :=
  on_db (batch CoreError.Database wipe_body).

Definition schema_version : MessengerCore.t → result CoreError.t Z * MessengerCore.t :=
  direct (ask (λ d, Ok (user_version d))).

(** ** Histories of a store *)

Module Op.
Inductive t :=
| Create (i : Id) (nonce : array 24) (now : Z) (conversation : Id) (plaintext : str)
| CreateGroup (i : Id) (now : Z)
| AddMember (g i : Id) (a : array 32)
| RemoveMember (g i : Id) (now : Z)
| Accepted (i : Id)
| Retry (i : Id) (now : Z)
| Cancel (i : Id)
| Ingest (e : IncomingEvent.t) (now : Z)
| IngestBatch (events : list (IncomingEvent.t * Z))
| SetCursor (scope : Id) (cursor : Z)
| Receipt (i : Id) (read : bool)
| Block (a : array 32) (now : Z)
| Unblock (a : array 32)
| SetMode (m : NetworkMode.t)
| CacheRelay (r : RelayCache.t)
| Rotate (key : bytes) (version : Z) (nonces : nat → array 24)
| Wipe.
End Op.

(** Every operation that writes, its result dropped. *)
Definition perform `{C : Crypto} (o : Op.t) (c : MessengerCore.t) : MessengerCore.t :=
  match o with
  | Op.Create i nonce now conv p => (create_message i nonce now conv p c).2
  | Op.CreateGroup i now => (create_group i now c).2
  | Op.AddMember g i a => (add_member g i a c).2
  | Op.RemoveMember g i now => (remove_member g i now c).2
  | Op.Accepted i => (mark_upload_accepted i c).2
  | Op.Retry i now => (retry_message i now c).2
  | Op.Cancel i => (cancel_pending_message i c).2
  | Op.Ingest e now => (ingest_server_event e now c).2
  | Op.IngestBatch events => (ingest_server_batch events c).2
  | Op.SetCursor scope cursor => (set_sync_cursor scope cursor c).2
  | Op.Receipt i read =>
      ((if read then apply_read_receipt i else apply_delivery_receipt i) c).2
  | Op.Block a now => (block_account a now c).2
  | Op.Unblock a => (unblock_account a c).2
  | Op.SetMode m => (set_network_mode m c).2
  | Op.CacheRelay r => (cache_relay_directory r c).2
  | Op.Rotate key version nonces => (rotate_master_key key version nonces c).2
  | Op.Wipe => (wipe_local_account c).2
  end.

(** The failures that will strike next. *)
Definition with_faults (fl : list bool) (c : MessengerCore.t) : MessengerCore.t :=
  MessengerCore.Make (World (committed (db c)) (current (db c)) (in_tx (db c)) fl) (master_key c).

(** The file between two sessions: any number of attempts to open it. *)
Definition reopened : Db.t → Db.t → Prop := rtc (λ d d', ∃ fl key, (open_ fl d key).2 = d').

(** One step of a store's life: any operation under any failures, or a restart
    from what is committed, after any attempts to open that failed. *)
Inductive step `{C : Crypto} : MessengerCore.t → MessengerCore.t → Prop :=
| step_op o fl c : step c (perform o (with_faults fl c))
| step_restart fl key c d c' :
    reopened (committed (db c)) d → (open_ fl d key).1 = Ok c' → step c c'.
Definition steps `{C : Crypto} : MessengerCore.t → MessengerCore.t → Prop := rtc step.

Definition sound (c : MessengerCore.t) : Prop := clean (db c) ∧ wf (current (db c)).

Lemma in_transaction_sound {A} (body : stmt A) c :
  Faithful CoreError.Database body →
  (∀ d a d', wf d → run body d = (Ok a, d') → wf d') →
  sound c → sound (in_transaction body c).2.
Proof.
  intros Hb Hwf [Hc Hw]. unfold in_transaction, on_db.
  pose proof (transaction_atomic CoreError.Database body (db c) Hc) as H.
  destruct (transaction _ body (db c)) as [r w]. unfold sound. cbn. destruct H as [Hc' H].
  split; [done|]. destruct H as [(e & _ & -> & _)|(a & _ & Hr)]; [done|by eapply Hwf].
Qed.

Lemma direct_sound {A} (body : stmt A) c :
  Preserves wf body → sound c → sound (direct body c).2.
Proof.
  intros Hb [Hc Hw]. unfold direct, on_db.
  pose proof (autocommit_clean body (db c) Hc) as Hc'.
  pose proof (autocommit_current body (db c)) as [_ Hcur].
  destruct (autocommit body (db c)) as [r w]. unfold sound. cbn in *. split; [done|].
  rewrite Hcur. by apply Hb.
Qed.

Ltac db_inv H := run_inv CoreError.Database H.

(** ** Each statement keeps the store well formed *)

Section Statements.
Implicit Types d : Db.t.

Lemma insert_conversation_wf i now d n d' :
  insert_conversation_ignore i now d = Ok (n, d') → wf d →
  wf d' ∧ i ∈ conversation_ids (conversations d')
  ∧ messages d' = messages d ∧ outbox d' = outbox d.
Proof.
  unfold insert_conversation_ignore. destruct (exists_where _ _) eqn:E; intros [= <- <-] Hw.
  - split_and!; try done. by apply (exists_key _ _ _ _ (conversation_keyed i)).
  - apply (not_exists_key _ _ _ _ (conversation_keyed i)) in E.
    split_and!; [|cbn; unfold conversation_ids; rewrite fmap_app, elem_of_app; right; left|done..].
    apply wf_bump; [lia|]. destruct Hw as (H1 & H2 & [] & []).
    split_and!; [by apply wf_mail_conversation|by apply wf_members_conversation|by split..].
Qed.

Lemma touch_conversation_wf i now d n d' :
  touch_conversation i now d = Ok (n, d') → wf d → wf d'.
Proof.
  intros [= <- <-] (H1 & H2 & [] & []).
  assert (Hids : conversation_ids (update_where (conversation_is i)
    (λ _, Conversation.Make i now) (conversations d)) = conversation_ids (conversations d))
    by (by apply (replace_key _ _ i); auto with messenger).
  split_and!; [by eapply wf_mail_same_ids|by eapply wf_members_same_ids|by split..].
Qed.

Lemma upsert_cursor_wf i z d n d' :
  z < 2 ^ 63 → upsert_cursor i z d = Ok (n, d') → wf d → wf d'.
Proof.
  unfold upsert_cursor. intros Hz. destruct (Z.ltb_spec z 0); [done|]. intros H0 (H1 & H2 & [] & []).
  pose proof (upsert_unique Cursor.scope (cursor_is i) i (Cursor.Make i z) (sync_cursors d)
    (cursor_keyed i) eq_refl wf_cursor_key) as Hu.
  assert (Hrows : ∀ x, x ∈ sync_cursors d' → x ∈ sync_cursors d ∨ x = Cursor.Make i z).
  { intros x. destruct (exists_where _ _) in H0; injection H0 as <- <-; cbn.
    - intros (y & Hy & ->)%elem_of_update. destruct (cursor_is i y); eauto.
    - rewrite elem_of_app, list_elem_of_singleton. eauto. }
  destruct (exists_where _ _); injection H0 as <- <-;
    (split_and!; [done|done| |by split]); (split; try done);
    intros x [Hx|Hx]%Hrows; auto; subst; cbn; lia.
Qed.

Lemma upsert_relay_wf r d n d' :
  RelayCache.version r < 2 ^ 63 → upsert_relay r d = Ok (n, d') → wf d → wf d'.
Proof.
  unfold upsert_relay. intros Hz. destruct (Z.ltb_spec (RelayCache.version r) 0); [done|].
  intros H0 (H1 & H2 & [] & []).
  pose proof (upsert_unique RelayCache.version (relay_is (RelayCache.version r)) _ r
    (relay_directory_cache d) (relay_keyed _) eq_refl wf_relay_key) as Hu.
  assert (Hrows : ∀ x, x ∈ relay_directory_cache d' → x ∈ relay_directory_cache d ∨ x = r).
  { intros x. destruct (exists_where _ _) in H0; injection H0 as <- <-; cbn.
    - intros (y & Hy & ->)%elem_of_update. destruct (relay_is _ y); eauto.
    - rewrite elem_of_app, list_elem_of_singleton. eauto. }
  destruct (exists_where _ _); injection H0 as <- <-;
    (split_and!; [done|done| |by split]); (split; try done);
    intros x [Hx|Hx]%Hrows; auto; subst; cbn; lia.
Qed.

Lemma upsert_member_wf m d n d' : upsert_member m d = Ok (n, d') → wf d → wf d'.
Proof.
  unfold upsert_member. set (hit := member_is _ _).
  assert (Hk : keyed Member.key hit (Member.key m)) by apply conversation_member_keyed.
  intros H0 (H1 & [] & [] & []). pose proof (upsert_unique Member.key hit _ m
    (conversation_members d) Hk eq_refl wf_member_key) as Hu.
  destruct (exists_where hit _) eqn:E.
  - injection H0 as <- <-. apply wf_bump; [lia|]. split_and!; [done| |by split..].
    split; [done|]. intros x (y & Hy & ->)%elem_of_update.
    destruct (hit y) eqn:Ey; [|by apply wf_member_fk].
    apply Hk in Ey. injection Ey as Ey _. rewrite <- Ey. by apply wf_member_fk.
  - destruct (exists_where (conversation_is _) _) eqn:Ec; [|done]. injection H0 as <- <-.
    apply (exists_key _ _ _ _ (conversation_keyed _)) in Ec.
    apply wf_bump; [lia|]. split_and!; [done| |by split..].
    split; [done|]. intros x [Hx|Hx]%elem_of_app; [by apply wf_member_fk|].
    by apply list_elem_of_singleton in Hx as ->.
Qed.

Lemma mark_removed_wf c i now d n d' : mark_removed c i now d = Ok (n, d') → wf d → wf d'.
Proof.
  intros [= <- <-] (H1 & [] & [] & []). apply wf_bump; [apply count_nonneg|].
  split_and!; [done| |by split..]. split.
  - unfold unique. cbn [conversation_members set_conversation_members]. by rewrite update_key.
  - intros x (y & Hy & ->)%elem_of_update. destruct (_ && _); by apply (wf_member_fk y).
Qed.

Lemma insert_inbox_wf x d n d' : insert_inbox_ignore x d = Ok (n, d') → wf d → wf d'.
Proof.
  unfold insert_inbox_ignore. destruct (exists_where _ _) eqn:E; intros [= <- <-]; [done|].
  intros (H1 & H2 & [] & []). apply wf_bump; [lia|].
  split_and!; [done|done| |by split]. split; try done. apply unique_snoc; [|done].
  by apply (not_exists_key _ _ _ _ (inbox_keyed _)).
Qed.

Lemma insert_blocked_wf b d n d' : insert_blocked_ignore b d = Ok (n, d') → wf d → wf d'.
Proof.
  unfold insert_blocked_ignore. destruct (exists_where _ _) eqn:E; intros [= <- <-]; [done|].
  intros (H1 & H2 & [] & []).
  split_and!; [done|done| |by split]. split; try done. apply unique_snoc; [|done].
  by apply (not_exists_key _ _ _ _ (blocked_keyed _)).
Qed.

Lemma delete_blocked_wf a d n d' : delete_blocked a d = Ok (n, d') → wf d → wf d'.
Proof.
  intros [= <- <-] (H1 & H2 & [] & []).
  split_and!; [done|done| |by split]. split; try done. by apply unique_delete.
Qed.

Lemma update_mode_wf z d n d' : update_mode z d = Ok (n, d') → wf d → wf d'.
Proof.
  unfold update_mode. destruct (_ && _) eqn:E; [|done]. intros [= <- <-] (H1 & H2 & [] & [Hm ? ?]).
  split_and!; [done|done|by split|]. split; [|done..]. destruct Hm as (y & Hy & _).
  exists z. cbn. rewrite Hy. split; [done|lia].
Qed.

Lemma update_status_wf i p s d n d' :
  0 ≤ s ≤ 10 → ¬ settled s → (waiting s → i ∈ outbox_ids (outbox d)) →
  update_status i p s d = Ok (n, d') → wf d → wf d'.
Proof.
  intros Hs Hns Hw [= <- <-] (H1 & H2 & [] & []). apply wf_bump; [apply count_nonneg|].
  split_and!; [by apply wf_mail_status|done|by split..].
Qed.

Lemma schedule_retry_wf i t d n d' : schedule_retry i t d = Ok (n, d') → wf d → wf d'.
Proof.
  intros [= <- <-] (H1 & H2 & [] & []).
  split_and!; [by apply wf_mail_reschedule|done|by split..].
Qed.
End Statements.

(** ** Each operation keeps the store sound *)

Section Operations.
Implicit Types d : Db.t.

Lemma create_body_wf i conv enc now d a d' :
  wf d → run (create_body i conv enc now) d = (Ok a, d') → wf d'.
Proof.
  intros Hw H. unfold create_body in H. db_inv H. db_inv H. db_inv H. db_inv H.
  injection H as _ <-. apply insert_conversation_wf in Ha as (Hw0 & Hin & Hm & Ho); [|done].
  eapply touch_conversation_wf; [exact Ha2|]. clear Ha2 Hw.
  unfold insert_message in Ha0.
  destruct (_ || _) eqn:E in Ha0; [done|]. injection Ha0 as <- <-.
  apply orb_false_iff in E as [E _]. cbn in E.
  apply (not_exists_key _ _ _ _ (message_keyed i)) in E.
  unfold insert_outbox in Ha1. destruct (_ || _) in Ha1; [done|]. injection Ha1 as <- <-.
  destruct Hw0 as (H1 & H2 & H3 & H4).
  pose proof (wf_mail_create _ _ _ (Message.Make i conv enc 3 now) now E Hin eq_refl H1) as H1'.
  destruct (wf_bump 1 d0 ltac:(lia)) as (_ & _ & _ & H4'); [done|].
  split_and!; [exact H1'|exact H2|destruct H3; by split|destruct H4'; by split].
Qed.

(** Acceptance and cancellation: the status settles and the outbox entry goes. *)
Lemma settle_wf i p s d n d0 n' d' :
  0 ≤ s ≤ 10 → ¬ waiting s → (∀ z, waiting z → p z = true) →
  update_status i p s d = Ok (n, d0) → delete_outbox i d0 = Ok (n', d') → wf d → wf d'.
Proof.
  intros Hs Hns Hp [= <- <-] [= <- <-] (H1 & H2 & [] & Hsing).
  destruct (wf_bump (count_where (status_hit i p) (messages d)) d (count_nonneg _ _))
    as (_ & _ & _ & []); [done|].
  split_and!; [by apply wf_mail_settle|done|by split|by split].
Qed.

Lemma accepted_body_wf i d a d' : wf d → run (accepted_body i) d = (Ok a, d') → wf d'.
Proof.
  intros Hw H. unfold accepted_body in H. db_inv H. db_inv H. db_inv H. db_inv H.
  injection H as _ <-. eapply settle_wf; [..|exact Ha|exact Ha2|exact Hw]; [done| |].
  - unfold waiting. cbn. lia.
  - by intros z [-> | ->].
Qed.

Lemma cancel_body_wf i d a d' : wf d → run (cancel_body i) d = (Ok a, d') → wf d'.
Proof.
  intros Hw H. unfold cancel_body in H. db_inv H. db_inv H. db_inv H.
  injection H as _ <-. eapply settle_wf; [..|exact Ha|exact Ha1|exact Hw]; [done| |].
  - unfold waiting. cbn. lia.
  - by intros z [-> | ->].
Qed.

#[local] Instance ingest_preserves events : Preserves wf (ingest_body events).
Proof.
  apply preserves_dfold. intros n x. apply preserves_bind; [|apply _].
  apply preserves_execute. intros. by eapply insert_inbox_wf.
Qed.

Lemma preserves_run {A} (P : Db.t → Prop) (body : stmt A) d r d' :
  Preserves P body → P d → run body d = (r, d') → P d'.
Proof. intros Hb Hd Hr. specialize (Hb d [] Hd). unfold run in Hr. by rewrite Hr in Hb. Qed.

#[local] Instance cursor_preserves scope z : Preserves wf (cursor_body scope z).
Proof.
  unfold cursor_body. apply preserves_bind; [apply _|intros current].
  apply preserves_bind; [apply _|intros _]. apply preserves_bind; [|intros _; apply _].
  apply preserves_execute. intros d n d' H Hw. eapply upsert_cursor_wf; [|exact H|exact Hw].
  apply as_i64_range.
Qed.

#[local] Instance cache_preserves r : Preserves wf (cache_body r).
Proof.
  unfold cache_body. apply preserves_bind; [apply _|intros current].
  apply preserves_bind; [apply _|intros _]. apply preserves_bind; [|intros _; apply _].
  apply preserves_execute. intros d n d' H Hw. eapply upsert_relay_wf; [|exact H|exact Hw].
  apply as_i64_range.
Qed.

#[local] Instance advance_preserves i (s : MessageStatus.t) :
  s = MessageStatus.Delivered ∨ s = MessageStatus.Read → Preserves wf (advance_body i s).
Proof.
  intros Hs. unfold advance_body. apply preserves_bind.
  - apply preserves_execute. intros d n d' H.
    eapply update_status_wf; [..|exact H]; destruct Hs as [-> | ->]; cbn;
      unfold settled, waiting; lia.
  - intros n. destruct (n =? 0); apply _.
Qed.

(** The second statement of a retry may only follow the first. *)
#[local] Instance retry_preserves i now : Preserves wf (retry_body i now).
Proof.
  intros d fl Hw. unfold retry_body, mbind, dbm_bind, query, dlift.
  destruct (default false (head fl)); [done|]. unfold select_attempts.
  destruct (find_where _ _) as [o|] eqn:Ho; [|done].
  destruct (get_u32 _) as [n|]; [|done]. cbn [mbind result_bind ok_or].
  apply find_where_Some in Ho as [Hin Hid]. apply outbox_keyed in Hid.
  assert (Hi : i ∈ outbox_ids (outbox d)) by (rewrite <- Hid; by apply list_elem_of_fmap_2).
  unfold execute. destruct (default false _); [done|].
  destruct (schedule_retry i _ d) as [[n1 d1]|] eqn:E1; [|done].
  pose proof (schedule_retry_wf _ _ _ _ _ E1 Hw) as Hw1.
  destruct (default false _); [done|].
  destruct (update_status i _ _ d1) as [[n2 d2]|] eqn:E2; [|done].
  eapply update_status_wf; [..|exact E2|exact Hw1]; [done| |].
  - unfold settled. cbn. lia.
  - intros _. injection E1 as _ <-. cbn. unfold outbox_ids. by rewrite update_key.
Qed.
End Operations.
#[export] Existing Instances ingest_preserves cursor_preserves cache_preserves retry_preserves.

(** ** Message encryption round trip *)

Section Cipher.
Context `{C : Crypto} (L : CryptoLaws C).

Lemma decrypt_encrypt key nonce p b : encrypt key nonce p = Ok b → decrypt key b = Ok p.
Proof using L.
  unfold encrypt. intros (c & Hc & [= <-])%bind_Ok. apply ok_or_Ok in Hc.
  unfold decrypt, len. rewrite length_app, array_length.
  pose proof (aead_length _ _ _ _ _ Hc) as Hl. unfold len in Hl.
  destruct (Z.ltb_spec (Z.of_nat (24 + length c)) 40); [lia|].
  rewrite take_app_length' by (by rewrite array_length). rewrite try_array_arr.
  rewrite drop_app_length' by (by rewrite array_length).
  by rewrite (aead_round_trip _ _ _ _ _ Hc).
Qed.

Lemma decrypt_short key b : len b < 40 → decrypt key b = Err CoreError.Authentication.
Proof. unfold decrypt. intros H. by destruct (Z.ltb_spec (len b) 40); [|lia]. Qed.
End Cipher.

(** ** Rotation *)

Section Rotation.
Context `{C : Crypto}.

(** What a rotation may do to a row: keep it, or replace the ciphertext by
    one of the same plaintext under the new key. *)
Definition rekeyed (active replacement : array 32) (ids : list Id) (m m' : Message.t) : Prop :=
  m' = Message.set_body (Message.body_ciphertext m') m
  ∧ ((Message.client_message_id m ∉ ids) ∧ m' = m
     ∨ Message.client_message_id m ∈ ids
       ∧ (∃ p nonce, decrypt active (Message.body_ciphertext m) = Ok p
           ∧ encrypt replacement nonce p = Ok (Message.body_ciphertext m'))).

(** Only messages and the revision differ. *)
Definition same_but_messages (d d' : Db.t) : Prop :=
  ∃ n, 0 ≤ n ∧ d' = bump n (set_messages (messages d') d).

Lemma rotate_rows_spec active replacement nonces rows d d' :
  unique Message.client_message_id rows →
  (∀ x m, x ∈ rows → m ∈ messages d →
     Message.client_message_id m = Message.client_message_id x → m = x) →
  run (rotate_rows active replacement nonces rows) d = (Ok tt, d') →
  same_but_messages d d'
  ∧ Forall2 (rekeyed active replacement (message_ids rows)) (messages d) (messages d').
Proof.
  revert d. induction rows as [|x rows IH]; intros d Hu Hrows H; cbn [rotate_rows] in H.
  - injection H as <-. split.
    + exists 0. split; [done|]. destruct d as [? ? ? ? ? ? ? ? ? ? ch ? ? ? ? ? ? ?].
      unfold bump, set_change_counter, set_messages. cbn. f_equal.
      destruct ch as [z|]; cbn; [by rewrite Z.add_0_r|done].
    + apply Forall2_same. intros m _. split; [by destruct m|].
      left. split; [apply not_elem_of_nil|done].
  - db_inv H. db_inv H. db_inv H. injection Ha1 as <- <-.
    unfold unique in Hu. apply NoDup_cons in Hu as [Hx Hu].
    set (i := Message.client_message_id x) in *.
    apply IH in H as [(n & Hn & Hd) Hf]; [|done|].
    2: { intros y m Hy (m0 & Hm0 & ->)%elem_of_update Hid.
         destruct (message_is i m0) eqn:E; [|by apply Hrows; [right|..]].
         apply bool_decide_eq_true in E. destruct Hx.
         cbn in Hid. rewrite <- E, Hid. by apply list_elem_of_fmap_2. }
    split.
    + exists (count_where (message_is i) (messages d) + n).
      split; [pose proof (count_nonneg (message_is i) (messages d)); lia|].
      rewrite Hd at 1. unfold bump, set_change_counter, set_messages. cbn. f_equal.
      destruct (change_counter d); cbn; [f_equal; lia|done].
    + cbn [messages set_messages bump set_change_counter] in Hf. unfold update_where in Hf.
      rewrite Forall2_fmap_l in Hf.
      assert (Hlk : ∀ m, m ∈ messages d → message_is i m = true → m = x).
      { intros m Hm Hi. apply Hrows; [left|done|]. by apply bool_decide_eq_true in Hi. }
      eapply Forall2_impl; [exact (Forall2_elem_l _ _ _ Hf)|]. clear Hf.
      intros m m' [Hm [He Hcase]]. cbn beta in He, Hcase.
      unfold message_ids in *. cbn [fmap list_fmap].
      destruct (message_is i m) eqn:E.
      * pose proof (Hlk m Hm E) as ->. destruct Hcase as [[_ ->]|[Hin _]]; [|done].
        split; [done|]. right. split; [left|]. eauto.
      * split; [done|]. apply bool_decide_eq_false in E.
        destruct Hcase as [[Hni ->]|[Hi Hp]].
        -- left. split; [|done]. apply not_elem_of_cons. done.
        -- right. split; [by right|done].
Qed.
End Rotation.

(** ** Soundness of a store's life *)

Section Soundness.
Context `{C : Crypto}.

#[export] Instance rotate_rows_faithful active replacement nonces rows :
  Faithful CoreError.Database (rotate_rows active replacement nonces rows).
Proof. induction rows; cbn [rotate_rows]; apply _. Qed.

Lemma same_but_messages_wf active replacement ids d d' :
  same_but_messages d d' → Forall2 (rekeyed active replacement ids) (messages d) (messages d') →
  wf d → wf d'.
Proof.
  intros (n & Hn & ->) Hf (H1 & H2 & H3 & H4). cbn in Hf. apply wf_bump; [done|].
  split_and!; [|done|destruct H3; by split|destruct H4; by split].
  eapply wf_mail_bodies; [..|exact H1]; cbn.
  - clear H1. induction Hf as [|m m' l l' [Hm _] _ IH]; [done|].
    rewrite !fmap_cons. f_equal; [by rewrite Hm|done].
  - intros x (i & Hi)%list_elem_of_lookup.
    destruct (Forall2_lookup_r _ _ _ _ _ Hf Hi) as (y & Hy & [Hx _]).
    exists y. rewrite Hx. split; [by eapply list_elem_of_lookup_2|done].
Qed.

(** What a successful rotation did to the database. *)
Lemma rotate_body_spec active replacement v nonces d d' :
  wf d → run (rotate_body active replacement v nonces) d = (Ok tt, d') →
  Forall2 (λ m m', rekeyed active replacement (message_ids (messages d)) m m') (messages d) (messages d')
  ∧ wf d' ∧ key_metadata d = Some (v - 1) ∧ key_metadata d' = Some v.
Proof.
  intros Hw H. unfold rotate_body in H. db_inv H. db_inv H. db_inv H.
  apply (run_bind_Ok CoreError.Database) in H; [|apply _].
  destruct H as ([] & d1 & Hrows & H). db_inv H. injection H as <-.
  apply ok_or_Ok in Ha. apply ensure_Ok, Z.eqb_eq in Ha0. injection Ha1 as <-.
  pose proof (wf_message_key _ _ _ (proj1 Hw)) as Hkey.
  apply rotate_rows_spec in Hrows as [Hs Hf]; [|done|].
  2: { intros x m Hx Hm Hid. by eapply (NoDup_key_inj _ _ _ _ Hkey). }
  pose proof (same_but_messages_wf _ _ _ _ _ Hs Hf Hw) as (W1 & W2 & W3 & W4).
  assert (Hk : key_metadata d1 = Some a) by (destruct Hs as (n & _ & Hd); by rewrite Hd).
  unfold update_key_version in Ha2.
  destruct (Z.leb_spec v 0); [done|]. injection Ha2 as _ <-. cbn in *. split_and!.
  - done.
  - split_and!; [exact W1|exact W2|destruct W3; by split|].
    destruct W4 as [Hm _ Hr]. split; [exact Hm| |exact Hr].
    exists v. cbn. rewrite Hk. split; [done|lia].
  - rewrite Ha. f_equal. lia.
  - by rewrite Hk.
Qed.

Lemma wipe_body_wf d a d' : wf d → run wipe_body d = (Ok a, d') → wf d'.
Proof.
  intros Hw H. unfold wipe_body in H. do 11 (db_inv H). apply run_execute_Ok in H.
  repeat match goal with
    | H : Ok _ = Ok _ |- _ => injection H as <- <-
    | H : (if _ then _ else _) = Ok _ |- _ => destruct (bool_decide _) in H; [|done]
    end.
  destruct Hw as (_ & _ & _ & [Hm Hk (z & Hz & ?)]).
  split_and!; split; cbn; try (by apply NoDup_nil_2);
    try (intros x Hx; by apply not_elem_of_nil in Hx); try done.
  exists (z + 1). rewrite Hz. split; [done|lia].
Qed.

Lemma wipe_sound c :
  sound c →
  in_tx (db (wipe_local_account c).2) = false → sound (wipe_local_account c).2.
Proof.
  intros [Hc Hw] Htx. unfold wipe_local_account, on_db in *.
  assert (Faithful CoreError.Database wipe_body) as Hf by (unfold wipe_body; apply _).
  pose proof (batch_cases CoreError.Database wipe_body (db c) Hc) as H.
  destruct (batch _ _ _) as [[[]|e] w]; cbn in *.
  - destruct H as [Hcw Hr]. split; [done|]. by eapply wipe_body_wf.
  - destruct H as (Hcm & Hcu & _). specialize (Hcu Htx). destruct Hc as [_ Hcc].
    split; cbn; [split; [done|congruence]|by rewrite Hcu].
Qed.

(** *** Opening *)

Definition migrated (d : Db.t) : Db.t :=
  set_user_version SCHEMA_VERSION
    (set_change_counter (Some (default 0 (change_counter d)))
      (set_key_metadata (Some (default 1 (key_metadata d)))
        (set_network_state (Some (default 0 (network_state d))) d))).

#[local] Instance create_if_missing_faithful n : Faithful CoreError.Database (create_if_missing n).
Proof. unfold create_if_missing. apply _. Qed.
Lemma create_if_missing_idle n d : Preserves (eq d) (create_if_missing n).
Proof.
  apply preserves_dfold. intros _ _. apply preserves_execute. by intros d0 [] d1 [= <-].
Qed.
Lemma create_if_missing_run n d : run (create_if_missing n) d = (Ok tt, d).
Proof.
  unfold create_if_missing. generalize (seq 0 n). induction l as [|x l IH]; [done|].
  cbn [dfold]. rewrite (run_bind CoreError.Database) by apply _. autorewrite with run. apply IH.
Qed.
Lemma read_version_idle d : Preserves (eq d) read_version.
Proof. apply preserves_query. Qed.

#[local] Instance schema_body_faithful : Faithful CoreError.Database schema_body.
Proof. unfold schema_body. apply _. Qed.
Lemma schema_body_run d : run schema_body d = (Ok tt, migrated d).
Proof.
  unfold schema_body.
  repeat (rewrite (run_bind CoreError.Database) by apply _;
    first [rewrite create_if_missing_run|rewrite run_execute]; cbn [insert_network_state_ignore
      insert_key_metadata_ignore insert_change_counter_ignore]).
  by rewrite run_execute.
Qed.

(** Where a migration leaves the file, and when it succeeds. *)
Lemma migrate_cases w :
  clean w →
  let '(r, w') := migrate w in
  (committed w' = current w
   ∨ user_version (current w) ≤ SCHEMA_VERSION ∧ committed w' = migrated (current w))
  ∧ match r with
    | Ok _ => user_version (current w) ≤ SCHEMA_VERSION ∧ clean w'
        ∧ current w' = migrated (current w)
    | Err e => e = CoreError.Database
    end.
Proof.
  intros Hc. unfold migrate.
  pose proof (autocommit_idle read_version w read_version_idle Hc) as [Hc1 Hd1].
  pose proof (autocommit_current read_version w) as [Hr1 _].
  destruct (autocommit read_version w) as [r1 w1]. cbn in Hc1, Hd1, Hr1.
  unfold read_version, query in Hr1. destruct (default false _); cbn in Hr1; subst r1.
  { split; [left; destruct Hc1; congruence|done]. }
  destruct (SCHEMA_VERSION <? user_version (current w)) eqn:Hv.
  { split; [left; destruct Hc1; congruence|done]. }
  apply Z.ltb_ge in Hv.
  pose proof (batch_cases CoreError.Database schema_body w1 Hc1) as H2.
  destruct (batch _ _ w1) as [[[]|e] w2]; rewrite schema_body_run, Hd1 in H2.
  2: { destruct H2 as (-> & _ & He). split; [left; destruct Hc1; congruence|].
    destruct He as [He|He]; [done|discriminate He]. }
  destruct H2 as [Hc2 [= Hd2]]. symmetry in Hd2.
  pose proof (autocommit_idle read_version w2 read_version_idle Hc2) as [Hc3 Hd3].
  pose proof (autocommit_current read_version w2) as [Hr3 _].
  destruct (autocommit read_version w2) as [r3 w3]. cbn in Hc3, Hd3, Hr3.
  unfold read_version, query in Hr3.
  assert (committed w3 = migrated (current w)) as Hm by (destruct Hc3; congruence).
  destruct (default false _); cbn in Hr3; subst r3; [by split; [right|]|].
  rewrite Hd2. cbn. split; [by right|]. split_and!; [done..|congruence].
Qed.

(** Opening under any failures: the file is as it was or migrated, never in
    between, and a store that opens is clean and migrated. *)
Lemma open_cases n fl d key :
  let '(r, d') := open_with n fl d key in
  (d' = d ∨ user_version d ≤ SCHEMA_VERSION ∧ d' = migrated d)
  ∧ match r with
    | Ok c => user_version d ≤ SCHEMA_VERSION ∧ clean (db c) ∧ current (db c) = migrated d
        ∧ d' = migrated d ∧ try_array 32 key = Some (master_key c)
    | Err e => e = (if try_array 32 key is Some _ then CoreError.Database
                    else CoreError.InvalidMasterKey)
    end.
Proof.
  unfold open_with. destruct (try_array 32 key) as [k|]; [|by split; [left|]].
  assert (clean (quiet d fl)) as Hc by done.
  pose proof (autocommit_idle (create_if_missing n) _ (create_if_missing_idle n) Hc) as [Hc1 Hd1].
  pose proof (autocommit_current (create_if_missing n) (quiet d fl)) as [Hr1 _].
  pose proof (faithful_run (m := create_if_missing n) (db_error := CoreError.Database) d fl) as Hf.
  destruct (autocommit _ _) as [r1 w1]. cbn in Hc1, Hd1, Hr1.
  destruct (create_if_missing n d fl) as [[r0 d0] f0]. cbn in Hr1. subst r0.
  rewrite create_if_missing_run in Hf. destruct r1 as [[]|e].
  2: { split; [left; destruct Hc1; congruence|]. destruct Hf as [[= ->]|Hf]; [done|discriminate Hf]. }
  pose proof (migrate_cases w1 Hc1) as Hm. rewrite Hd1 in Hm. cbn in Hm.
  destruct (migrate w1) as [[[]|e] w2]; cbn; [|done].
  destruct Hm as (Hm & Hv & Hc2 & Hd2). split_and!; [exact Hm|done..| |done].
  destruct Hc2; congruence.
Qed.

(** On a disk that works. *)
Lemma open_run n d key :
  (open_with n [] d key).1 =
    match try_array 32 key with
    | None => Err CoreError.InvalidMasterKey
    | Some k => if SCHEMA_VERSION <? user_version d then Err CoreError.Database
                else Ok (MessengerCore.Make (quiet (migrated d) []) k)
    end.
Proof.
  unfold open_with. destruct (try_array 32 key) as [k|]; [|done].
  unfold quiet at 1. change (World d d false []) with (quiet d []).
  rewrite (autocommit_run CoreError.Database), create_if_missing_run by apply _.
  unfold migrate. rewrite (autocommit_run CoreError.Database) by (unfold read_version; apply _).
  unfold read_version at 1. rewrite run_query. destruct (_ <? _); [done|].
  unfold batch, begin_, quiet at 1. cbn [default head faults in_tx orb committed current tail].
  unfold autocommit at 1. cbn [current faults].
  pose proof (faithful_quiet (m := schema_body) (db_error := CoreError.Database) d) as Hq.
  pose proof (schema_body_run d) as Hr. unfold run in Hr.
  destruct (schema_body d []) as [[r d'] fl]. cbn in Hq, Hr. injection Hr as -> ->. by subst fl.
Qed.

Lemma migrated_wf d : wf d → wf (migrated d).
Proof.
  intros (H1 & H2 & [] & [(m & Hm & Hm') (k & Hk & Hk') (r & Hr & Hr')]).
  split_and!; [done|done|by split|]. split; cbn; eexists; rewrite ?Hm, ?Hk, ?Hr; eauto.
Qed.
Lemma migrated_empty : wf (migrated Db.empty).
Proof.
  split_and!; split; cbn; try (by apply NoDup_nil_2);
    try (intros x Hx; by apply not_elem_of_nil in Hx); eexists; (split; [done|lia]).
Qed.

Lemma open_sound n fl d key c :
  wf d ∨ d = Db.empty → (open_with n fl d key).1 = Ok c → sound c.
Proof.
  intros Hd Ho. pose proof (open_cases n fl d key) as H.
  destruct (open_with n fl d key) as [r d']. cbn in Ho. subst r.
  destruct H as (_ & _ & Hc & Hm & _). split; [done|]. rewrite Hm.
  destruct Hd as [Hd| ->]; [by apply migrated_wf|exact migrated_empty].
Qed.
Lemma reopened_wf d d' : reopened d d' → wf d → wf d'.
Proof.
  induction 1 as [d|d d1 d' (fl & key & H) _ IH]; intros Hw; [done|]. apply IH.
  pose proof (open_cases 3 fl d key) as Hc. unfold open_ in H.
  destruct (open_with 3 fl d key) as [r d0]. cbn in H. subst d0.
  destruct Hc as [[-> |[_ ->]] _]; [done|by apply migrated_wf].
Qed.

Lemma perform_returned o c :
  (o = Op.Wipe → in_tx (db (perform o c)) = false) → sound c → sound (perform o c).
Proof.
  intros Hwipe Hs. destruct o; cbn [perform].
  - unfold create_message. destruct (encrypt _ _ _); [|done].
    apply in_transaction_sound; [unfold create_body; apply _|apply create_body_wf|done].
  - apply direct_sound; [|done]. apply preserves_bind; [|apply _].
    apply preserves_execute. intros d a d' H Hw. by apply insert_conversation_wf in H as [? _].
  - apply direct_sound; [|done]. apply preserves_bind; [|apply _].
    apply preserves_execute. intros d n d' H. by eapply upsert_member_wf.
  - apply direct_sound; [|done]. apply preserves_bind; [|apply _].
    apply preserves_execute. intros d n d' H. by eapply mark_removed_wf.
  - apply in_transaction_sound; [unfold accepted_body; apply _|apply accepted_body_wf|done].
  - apply direct_sound; [apply _|done].
  - apply in_transaction_sound; [unfold cancel_body; apply _|apply cancel_body_wf|done].
  - apply direct_sound; [|done]. apply preserves_bind; [|apply _].
    apply preserves_execute. intros d n d' H. by eapply insert_inbox_wf.
  - unfold ingest_server_batch. destruct (_ <? _); [done|].
    apply in_transaction_sound; [unfold ingest_body; apply _| |done].
    intros d a d' Hw H. eapply (preserves_run wf (ingest_body events)); [apply _|exact Hw|exact H].
  - apply direct_sound; [apply _|done].
  - destruct read; (apply direct_sound; [apply advance_preserves; auto|done]).
  - apply direct_sound; [|done]. apply preserves_bind; [|apply _].
    apply preserves_execute. intros d n d' H. by eapply insert_blocked_wf.
  - apply direct_sound; [|done]. apply preserves_bind; [|apply _].
    apply preserves_execute. intros d n d' H. by eapply delete_blocked_wf.
  - apply direct_sound; [|done]. apply preserves_bind; [|apply _].
    apply preserves_execute. intros d n d' H. by eapply update_mode_wf.
  - apply direct_sound; [apply _|done].
  - unfold rotate_master_key. destruct (try_array 32 key) as [replacement|]; [|done].
    pose proof (in_transaction_sound (rotate_body (master_key c) replacement version nonces) c
      ltac:(unfold rotate_body; apply _)) as H.
    destruct (in_transaction _ c) as [[u|e] c']; cbn in *; apply H; try done;
      intros d [] d' Hw Hr; by eapply rotate_body_spec.
  - apply wipe_sound; [done|by apply Hwipe].
Qed.

(** Only a wipe can leave the connection inside its transaction, and then
    nothing has been committed. *)
Lemma perform_sound o c :
  sound c →
  sound (perform o c)
  ∨ o = Op.Wipe ∧ in_tx (db (perform o c)) = true
    ∧ committed (db (perform o c)) = committed (db c).
Proof.
  intros Hs. destruct (in_tx (db (perform o c))) eqn:Htx.
  2: { left. by apply perform_returned. }
  destruct o; try (left; apply perform_returned; [intros ?; discriminate|exact Hs]).
  right. split; [done|]. split; [done|]. revert Htx. cbn [perform].
  unfold wipe_local_account, on_db. destruct Hs as [Hc _].
  assert (Faithful CoreError.Database wipe_body) as Hf by (unfold wipe_body; apply _).
  pose proof (batch_cases CoreError.Database wipe_body (db c) Hc) as H.
  destruct (batch _ _ _) as [[[]|e] w]; cbn in *; [destruct H as [[? _] _]; congruence|].
  by intros _; destruct H as [? _].
Qed.

(** Inside an open transaction no operation commits anything or closes it. *)
Lemma perform_stuck o c :
  in_tx (db c) = true →
  in_tx (db (perform o c)) = true ∧ committed (db (perform o c)) = committed (db c).
Proof.
  intros H.
  assert (∀ A (body : stmt A), in_tx (db (direct body c).2) = true
    ∧ committed (db (direct body c).2) = committed (db c)) as Hd.
  { intros A body. unfold direct, on_db. pose proof (autocommit_stuck body (db c) H) as Hs.
    by destruct (autocommit _ _). }
  assert (∀ A (body : stmt A), in_tx (db (in_transaction body c).2) = true
    ∧ committed (db (in_transaction body c).2) = committed (db c)) as Ht.
  { intros A body. unfold in_transaction, on_db.
    pose proof (transaction_stuck CoreError.Database body (db c) H) as Hs.
    by destruct (transaction _ _ _). }
  destruct o; cbn [perform]; try apply Hd; try apply Ht.
  - unfold create_message. destruct (encrypt _ _ _); [apply Ht|done].
  - unfold ingest_server_batch. destruct (_ <? _); [done|apply Ht].
  - destruct read; apply Hd.
  - unfold rotate_master_key. destruct (try_array 32 key); [|done].
    specialize (Ht _ (rotate_body (master_key c) a version nonces)).
    by destruct (in_transaction _ c) as [[u|e] c'].
  - unfold wipe_local_account, on_db.
    pose proof (batch_stuck CoreError.Database wipe_body (db c) H) as Hs.
    by destruct (batch _ _ _).
Qed.

(** What every history keeps: the file is well formed, and so is the connection
    unless it was left inside a transaction. *)
Definition safe (c : MessengerCore.t) : Prop :=
  wf (committed (db c)) ∧ (in_tx (db c) = false → sound c).
Lemma sound_safe c : sound c → safe c.
Proof. intros [[Ht Hc] Hw]. split; [by rewrite Hc|done]. Qed.

Lemma step_safe c c' : step c c' → safe c → safe c'.
Proof.
  intros [o fl c0|fl key c0 d c1 Hd Ho] [Hw Hs].
  - destruct (in_tx (db c0)) eqn:Htx.
    + destruct (perform_stuck o (with_faults fl c0) Htx) as [H1 H2].
      split; [by rewrite H2|congruence].
    + destruct (perform_sound o (with_faults fl c0) (Hs eq_refl)) as [H|(_ & H1 & H2)];
        [by apply sound_safe|]. split; [by rewrite H2|congruence].
  - apply sound_safe. eapply open_sound; [|exact Ho]. left. by eapply reopened_wf.
Qed.

Lemma steps_safe c c' : steps c c' → safe c → safe c'.
Proof. induction 1; eauto using step_safe. Qed.
End Soundness.

(** ** Functional behaviour, statement by statement *)

Definition quiet_core (d : Db.t) (key : array 32) : MessengerCore.t :=
  MessengerCore.Make (quiet d []) key.

Lemma direct_run {A} (body : stmt A) d key :
  Faithful CoreError.Database body →
  direct body (quiet_core d key) = let '(r, d') := run body d in (r, quiet_core d' key).
Proof.
  intros Hb. unfold direct, on_db, quiet_core. cbn.
  rewrite (autocommit_run CoreError.Database) by done. by destruct (run body d).
Qed.

Lemma in_transaction_run {A} (body : stmt A) d key :
  Faithful CoreError.Database body →
  in_transaction body (quiet_core d key) =
    match run body d with
    | (Ok a, d') => (Ok a, quiet_core d' key)
    | (Err e, _) => (Err e, quiet_core d key)
    end.
Proof.
  intros Hb. unfold in_transaction, on_db, quiet_core. cbn [db master_key].
  rewrite transaction_run by done. destruct (run body d) as [[a|e] d']; done.
Qed.

(** The message row of an id. *)
Lemma message_row d m i :
  wf d → m ∈ messages d → Message.client_message_id m = i →
  find_where (message_is i) (messages d) = Some m.
Proof.
  intros ([] & _) Hm Hi. apply (find_key Message.client_message_id _ i); auto with messenger.
Qed.

(** [update_status] on the row of [i]: one change or none. *)
Lemma update_status_row d m i p s :
  wf d → m ∈ messages d → Message.client_message_id m = i →
  update_status i p s d =
    Ok (if p (Message.status m) then 1 else 0,
        bump (if p (Message.status m) then 1 else 0)
          (set_messages (update_where (status_hit i p) (Message.set_status s) (messages d)) d)).
Proof.
  intros Hw Hm Hi. unfold update_status.
  assert (Hc : count_where (status_hit i p) (messages d) = if p (Message.status m) then 1 else 0).
  { pose proof (wf_message_key _ _ _ (proj1 Hw)) as Hu. unfold count_where, select_where.
    apply list_elem_of_split in Hm as (l1 & l2 & E). rewrite E in *.
    unfold unique in Hu. rewrite fmap_app, fmap_cons in Hu.
    apply NoDup_app in Hu as (_ & Hd & Hu). apply NoDup_cons in Hu as [Hn _].
    assert (Hnone : ∀ l, (∀ x, x ∈ l → Message.client_message_id x ≠ i) →
      List.filter (status_hit i p) l = []).
    { clear. intros l H. induction l as [|x l IH]; [done|]. cbn.
      unfold status_hit at 1, message_is. rewrite bool_decide_eq_false_2 by (apply H; left).
      apply IH. intros y Hy. apply H. by right. }
    rewrite List.filter_app. cbn [List.filter]. rewrite !Hnone.
    - unfold status_hit, message_is. rewrite bool_decide_eq_true_2 by done. cbn.
      by destruct (p (Message.status m)).
    - intros x Hx Hxi. apply Hn. rewrite Hi, <- Hxi. by apply list_elem_of_fmap_2.
    - intros x Hx Hxi. apply (Hd i); [rewrite <- Hxi; by apply list_elem_of_fmap_2|].
      rewrite Hi. left. }
  by rewrite Hc.
Qed.

(** Rewriting the row of [i] gives the row the new status. *)
Lemma updated_row i p s (m : Message.t) l :
  m ∈ l → Message.client_message_id m = i → p (Message.status m) = true →
  Message.set_status s m ∈ update_where (status_hit i p) (Message.set_status s) l.
Proof.
  intros Hm Hi Hp. apply elem_of_update. exists m. split; [done|].
  unfold status_hit, message_is. by rewrite bool_decide_eq_true_2, Hp.
Qed.

Lemma no_message d i :
  i ∉ message_ids (messages d) →
  find_where (message_is i) (messages d) = None
  ∧ ∀ p s, update_status i p s d = Ok (0, bump 0 (set_messages (messages d) d)).
Proof.
  intros Hi. apply (not_exists_key _ _ _ _ (message_keyed i)) in Hi.
  split; [by apply find_where_None|]. intros p s. unfold update_status.
  rewrite exists_where_false in Hi.
  assert (Hno : exists_where (status_hit i p) (messages d) = false).
  { apply exists_where_false. intros x Hx. unfold status_hit. by rewrite Hi. }
  rewrite update_where_none by done. by apply count_where_zero in Hno as ->.
Qed.

Lemma bump_zero_messages d : bump 0 (set_messages (messages d) d) = d.
Proof.
  destruct d as [? ? ? ? ? ? ? ? ? ? ch ? ? ? ? ? ? ?].
  unfold bump, set_change_counter, set_messages. cbn. f_equal.
  destruct ch; cbn; [by rewrite Z.add_0_r|done].
Qed.

(** ** Properties *)

(** C14: the store invariant: starting from a new store, after any sequence of
    operations, with the disk failing at any statements, and any restarts and
    attempts to restart, what is committed is well formed: keys are unique,
    references resolve, statuses are legal, every message that waits for an
    upload has its outbox entry and every accepted or cancelled one has none.
    Unless the connection is inside a transaction, it sees exactly what is
    committed.  Only a wipe that fails leaves it inside one; then no operation
    commits anything until the store is opened again, and every successful
    reopening sees the well-formed file. *)
Theorem store_invariant `{C : Crypto} fl key c0 c
    (Hopen : (open_ fl Db.empty key).1 = Ok c0) (Hsteps : steps c0 c) :
  wf (committed (db c))
  ∧ (in_tx (db c) = false → clean (db c)
      ∧ ∀ o fl, in_tx (db (perform o (with_faults fl c))) = true → o = Op.Wipe)
  ∧ (in_tx (db c) = true →
      ∀ o fl, let c' := perform o (with_faults fl c) in
        in_tx (db c') = true ∧ committed (db c') = committed (db c))
  ∧ (∀ fl key c', (open_ fl (committed (db c)) key).1 = Ok c' →
       clean (db c') ∧ wf (current (db c'))).
Proof.
  assert (safe c) as [Hw Hs].
  { eapply steps_safe; [exact Hsteps|]. apply sound_safe. eapply open_sound; [|exact Hopen]. by right. }
  split_and!; [done| | |].
  - intros Htx. specialize (Hs Htx). split; [apply Hs|]. intros o fl' Ho.
    destruct (perform_sound o (with_faults fl' c) Hs) as [[[H _] _]|[H _]]; congruence.
  - intros Htx o fl'. by apply (perform_stuck o (with_faults fl' c)).
  - intros fl' key' c' Ho. eapply open_sound; [left; exact Hw|exact Ho].
Qed.

(** C1: sending is durable and atomic: whichever statement fails, [create_message]
    either commits the encrypted message together with its outbox entry, ready
    to upload and readable again as the text that was sent, or reports an error
    and leaves both the visible and the committed store as they were. *)
Theorem create_message_atomic `{C : Crypto} (L : CryptoLaws C) i nonce now conv text c
    (Hc : clean (db c)) :
  let '(r, c') := create_message i nonce now conv text c in
  clean (db c') ∧ master_key c' = master_key c ∧
  match r with
  | Ok j => j = i ∧ ∃ m, messages (committed (db c')) = messages (committed (db c)) ++ [m]
      ∧ outbox (committed (db c')) = outbox (committed (db c)) ++ [Outbox.Make i now 0]
      ∧ Message.client_message_id m = i ∧ Message.conversation_id m = conv
      ∧ MessageStatus.try_from (Message.status m) = Ok MessageStatus.ReadyToUpload
      ∧ read_plaintext (master_key c') m = Ok text
  | Err e => committed (db c') = committed (db c) ∧ current (db c') = current (db c)
  end.
Proof.
  unfold create_message. destruct (encrypt _ _ _) as [enc|e] eqn:He; [|done].
  unfold create_encrypted, in_transaction, on_db.
  pose proof (transaction_atomic CoreError.Database (create_body i conv enc now)
    (Faithful0 := ltac:(unfold create_body; apply _)) (db c) Hc) as H.
  destruct (transaction _ _ (db c)) as [r w]. cbn. destruct H as [Hc' H].
  split; [done|]. split; [done|]. destruct Hc as [_ Hc]. pose proof Hc' as [_ Hcw].
  rewrite Hc, Hcw. destruct H as [(e & -> & Hw & _)|(a & -> & H)]; [done|].
  unfold create_body in H. do 4 (run_inv CoreError.Database H). injection H as <- <-.
  unfold insert_conversation_ignore in Ha. unfold insert_message in Ha0.
  unfold insert_outbox in Ha1. injection Ha2 as <- <-.
  destruct (_ || _) in Ha1; [done|]. injection Ha1 as <- <-.
  destruct (_ || _) in Ha0; [done|]. injection Ha0 as <- <-.
  split; [done|].
  exists (Message.Make i conv enc (MessageStatus.as_i64 MessageStatus.ReadyToUpload) now).
  split_and!; [..|unfold read_plaintext; cbn; rewrite (decrypt_encrypt L _ _ _ _ He);
    cbn; by rewrite from_utf8_str]; try done;
    by destruct (exists_where _ _) in Ha; injection Ha as <- <-.
Qed.

(** [run_next]: evaluate the next statement of a run. *)
Ltac run_next :=
  rewrite (run_bind CoreError.Database) by apply _;
  rewrite ?run_execute, ?run_query, ?run_lift, ?run_ret.

Abbreviation uploadable := (status_in
  [MessageStatus.ReadyToUpload; MessageStatus.Uploading; MessageStatus.RetryScheduled]).

(** The status of a row after [update_status]. *)
Lemma select_status_updated d m i p s n :
  wf d → m ∈ messages d → Message.client_message_id m = i →
  select_status i (bump n (set_messages
    (update_where (status_hit i p) (Message.set_status s) (messages d)) d))
  = Ok (Some (if p (Message.status m) then s else Message.status m)).
Proof.
  intros Hw Hin Hid. unfold select_status. do 2 f_equal.
  cbn [messages bump set_change_counter set_messages].
  rewrite (find_key Message.client_message_id (message_is i) i _
    (if p (Message.status m) then Message.set_status s m else m)); auto with messenger.
  - by destruct (p (Message.status m)).
  - unfold unique. rewrite update_key by done. apply (wf_message_key _ _ _ (proj1 Hw)).
  - apply elem_of_update. exists m. split; [done|]. unfold status_hit, message_is.
    rewrite bool_decide_eq_true_2 by done. by destruct (p (Message.status m)).
  - by destruct (p (Message.status m)).
Qed.

Lemma accepted_run d m i :
  wf d → m ∈ messages d → Message.client_message_id m = i →
  let hit := uploadable (Message.status m) in
  let d1 := bump (if hit then 1 else 0) (set_messages
    (update_where (status_hit i uploadable) (Message.set_status 5) (messages d)) d) in
  run (accepted_body i) d =
    if hit || (Message.status m =? 5)
    then (Ok tt, set_outbox (delete_where (outbox_is i) (outbox d)) d1)
    else (Err CoreError.InvalidTransition, d1).
Proof.
  intros Hw Hin Hid hit d1. unfold accepted_body.
  run_next. rewrite (update_status_row d m i) by done. fold hit. fold d1.
  run_next. unfold d1. rewrite (select_status_updated d m i) by done. fold hit. fold d1.
  run_next. cbn [MessageStatus.as_i64]. destruct hit.
  - cbn [Z.eqb andb orb]. run_next. done.
  - cbn [Z.eqb andb orb]. destruct (Z.eqb_spec (Message.status m) 5) as [->|H5].
    + rewrite bool_decide_eq_true_2 by done. cbn [negb]. run_next. done.
    + rewrite bool_decide_eq_false_2 by congruence. done.
Qed.

Lemma accepted_run_missing d i :
  i ∉ message_ids (messages d) → run (accepted_body i) d = (Err CoreError.NotFound, d).
Proof.
  intros Hm. destruct (no_message d i Hm) as [Hf Hu]. unfold accepted_body.
  run_next. rewrite Hu, bump_zero_messages. run_next. unfold select_status. by rewrite Hf.
Qed.

(** Acceptance: for a stored message the acknowledgement succeeds exactly in
    the statuses ready, uploading, retry-scheduled and (repeated) accepted, and
    then the message is accepted and its outbox entry is gone; in any other
    status it is an invalid transition, and for an unknown id not-found, both
    without effect. *)
Theorem mark_upload_accepted_spec d key i (Hw : wf d) :
  let '(r, c') := mark_upload_accepted i (quiet_core d key) in
  match find_where (message_is i) (messages d) with
  | None => r = Err CoreError.NotFound ∧ c' = quiet_core d key
  | Some m =>
      if uploadable (Message.status m) || (Message.status m =? 5)
      then r = Ok tt ∧ (i ∉ outbox_ids (outbox (current (db c'))))
        ∧ Message.set_status 5 m ∈ messages (committed (db c'))
        ∧ length (messages (committed (db c'))) = length (messages d)
      else r = Err CoreError.InvalidTransition ∧ c' = quiet_core d key
  end.
Proof.
  unfold mark_upload_accepted. rewrite in_transaction_run by (unfold accepted_body; apply _).
  destruct (find_where (message_is i) (messages d)) as [m|] eqn:Hm.
  - apply find_where_Some in Hm as [Hin Hid]. apply message_keyed in Hid.
    rewrite (accepted_run d m i) by done. destruct (_ || _) eqn:E; [|done].
    split_and!; [done| | |apply length_fmap].
    + cbn. rewrite delete_outbox_ids. by intros [].
    + cbn. destruct (uploadable (Message.status m)) eqn:Eu; [by apply updated_row|].
      apply elem_of_update. exists m. split; [done|]. unfold status_hit.
      rewrite Eu, andb_false_r. apply Z.eqb_eq in E. destruct m. cbn in *. by subst.
  - apply find_where_None, (not_exists_key _ _ _ _ (message_keyed i)) in Hm.
    by rewrite accepted_run_missing.
Qed.

Lemma advance_body_run d m i s :
  wf d → m ∈ messages d → Message.client_message_id m = i →
  run (advance_body i s) d =
    (Ok tt, bump (if Message.status m <? MessageStatus.as_i64 s then 1 else 0) (set_messages
      (update_where (status_hit i (λ z, z <? MessageStatus.as_i64 s))
        (Message.set_status (MessageStatus.as_i64 s)) (messages d)) d)).
Proof.
  intros Hw Hin Hid. unfold advance_body. run_next.
  rewrite (update_status_row d m i) by done.
  destruct (_ <? _); cbn [Z.eqb]; [done|].
  run_next. cbn [messages bump set_change_counter set_messages].
  rewrite (proj2 (exists_key _ _ _ _ (message_keyed i))); [done|].
  unfold update_where. change (i ∈ message_ids (update_where (status_hit i (λ z, z <? MessageStatus.as_i64 s))
    (Message.set_status (MessageStatus.as_i64 s)) (messages d))).
  unfold message_ids. rewrite update_key by done. rewrite <- Hid. by apply list_elem_of_fmap_2.
Qed.

(** Receipts are monotone: a delivery or read receipt for a stored message
    always succeeds, never lowers a status, raises it exactly to delivered (read)
    when it was below, and touches no other message and no outbox entry; a
    receipt for an unknown message is not-found and changes nothing. *)
Theorem receipt_monotone d key i (read : bool) (Hw : wf d) :
  let s := if read then 7 else 6 in
  let '(r, c') :=
    (if read then apply_read_receipt i else apply_delivery_receipt i) (quiet_core d key) in
  let d' := committed (db c') in
  outbox d' = outbox d ∧
  match find_where (message_is i) (messages d) with
  | None => r = Err CoreError.NotFound ∧ d' = d
  | Some m =>
      r = Ok tt ∧ Forall2 (λ x y,
        y = Message.set_status (Message.status y) x ∧ Message.status x ≤ Message.status y
        ∧ (Message.client_message_id x ≠ i → y = x)
        ∧ (Message.client_message_id x = i → Message.status y = Z.max (Message.status x) s))
        (messages d) (messages d')
  end.
Proof.
  set (s := if read then MessageStatus.Read else MessageStatus.Delivered).
  replace (if read then apply_read_receipt i else apply_delivery_receipt i)
    with (direct (advance_body i s)) by (by destruct read).
  replace (if read then 7 else 6) with (MessageStatus.as_i64 s) by (by destruct read).
  rewrite direct_run by (unfold advance_body; apply faithful_bind; [apply _|];
    intros n; destruct (n =? 0); apply _).
  destruct (find_where (message_is i) (messages d)) as [m|] eqn:Hm.
  - apply find_where_Some in Hm as [Hin Hid]. apply message_keyed in Hid.
    rewrite (advance_body_run d m i) by done. cbn. split; [done|]. split; [done|].
    unfold update_where. apply Forall2_fmap_r, Forall2_same. intros x Hx.
    unfold compose, status_hit, message_is.
    case_bool_decide as Hxi; cbn; [destruct (Z.ltb_spec (Message.status x) (MessageStatus.as_i64 s))|].
    + cbn. split_and!; [done|lia|done|lia].
    + split_and!; [by destruct x|lia|done|lia].
    + split_and!; [by destruct x|lia|done|done].
  - apply find_where_None in Hm. pose proof Hm as Hn.
    apply (not_exists_key _ _ _ _ (message_keyed i)) in Hn.
    destruct (no_message d i Hn) as [_ Hu]. unfold advance_body.
    run_next. rewrite Hu, bump_zero_messages. cbn [Z.eqb]. run_next. by rewrite Hm.
Qed.

(** A receipt that overtakes the acknowledgement wedges the message: once a
    message with an outbox entry is marked delivered or read, the server's
    acknowledgement and a cancellation are both invalid transitions, and the
    entry stays in the outbox to be uploaded again; a retry is accepted and
    takes the delivered message back to retry-scheduled. *)
Theorem receipt_before_acceptance d key i now m o (Hw : wf d)
    (Hm : m ∈ messages d) (Hi : Message.client_message_id m = i)
    (Ho : find_where (outbox_is i) (outbox d) = Some o)
    (Hs : Message.status m = 6 ∨ Message.status m = 7)
    (Ha : Outbox.attempts o ≤ u32_max) :
  mark_upload_accepted i (quiet_core d key) = (Err CoreError.InvalidTransition, quiet_core d key)
  ∧ cancel_pending_message i (quiet_core d key) = (Err CoreError.InvalidTransition, quiet_core d key)
  ∧ let '(r, c') := retry_message i now (quiet_core d key) in
    r = Ok tt ∧ Message.set_status 8 m ∈ messages (committed (db c'))
    ∧ i ∈ outbox_ids (outbox (committed (db c'))).
Proof.
  split_and!.
  - unfold mark_upload_accepted. rewrite in_transaction_run by (unfold accepted_body; apply _).
    rewrite (accepted_run d m i) by done. by destruct Hs as [-> | ->].
  - unfold cancel_pending_message. rewrite in_transaction_run by (unfold cancel_body; apply _).
    unfold cancel_body. run_next. rewrite (update_status_row d m i) by done.
    run_next. by destruct Hs as [-> | ->].
  - unfold retry_message. rewrite direct_run by (unfold retry_body; apply _).
    unfold retry_body. run_next. unfold select_attempts. rewrite Ho.
    apply find_where_Some in Ho as [Hino Hido]. apply outbox_keyed in Hido.
    pose proof (wf_attempts _ _ _ (proj1 Hw) o Hino).
    unfold get_u32. destruct (Z.leb_spec 0 (Outbox.attempts o)); [|lia].
    destruct (Z.leb_spec (Outbox.attempts o) u32_max); [|lia]. cbn [andb mbind result_bind].
    run_next. cbn [ok_or]. run_next. unfold schedule_retry at 1. run_next.
    unfold update_status. cbn -[update_where list_fmap]. split_and!; [done| |].
    + by apply updated_row.
    + unfold outbox_ids. rewrite update_key by done. rewrite <- Hido. by apply list_elem_of_fmap_2.
Qed.

(** What [list_messages] shows of a conversation. *)
Definition view `{C : Crypto} (key : array 32) (d : Db.t) (conv : Id)
    : result CoreError.t (list LocalMessage.t) :=
  collect (read_message key conv) (select_messages conv d).

(** Rows with the same metadata and the same plaintext under their keys. *)
Definition same_content `{C : Crypto} (key key' : array 32) (m m' : Message.t) : Prop :=
  m' = Message.set_body (Message.body_ciphertext m') m
  ∧ ∃ p, decrypt key (Message.body_ciphertext m) = Ok p
    ∧ decrypt key' (Message.body_ciphertext m') = Ok p.

Lemma view_same_content `{C : Crypto} key key' d d' conv :
  Forall2 (same_content key key') (messages d) (messages d') → view key' d' conv = view key d conv.
Proof.
  intros H. symmetry. unfold view. apply (collect_Forall2 (same_content key key')).
  - intros m m' (Hm & p & Hp & Hp'). unfold read_message, read_plaintext.
    rewrite Hp, Hp'. cbn. destruct (from_utf8 p); [|done]. cbn. by rewrite Hm.
  - apply stable_sort_Forall2.
    + intros x y x' y' (Hx & _) (Hy & _). unfold created_leb. by rewrite Hx, Hy.
    + apply filter_Forall2; [|done]. intros m m' (Hm & _). by rewrite Hm.
Qed.

(** C19: rotating the master key keeps every message: a successful rotation to
    version v requires version v-1, commits every row re-encrypted under the
    new key, and shows the same conversations as before; a rotation that fails
    anywhere leaves the database and the key in memory as they were. *)
Theorem rotate_master_key_preserves `{C : Crypto} (L : CryptoLaws C) new_key v nonces c
    (Hc : clean (db c)) (Hw : wf (current (db c))) :
  let '(r, c') := rotate_master_key new_key v nonces c in
  clean (db c') ∧
  match r with
  | Ok _ =>
      Some (master_key c') = try_array 32 new_key
      ∧ key_metadata (committed (db c)) = Some (v - 1)
      ∧ key_metadata (committed (db c')) = Some v
      ∧ Forall2 (same_content (master_key c) (master_key c'))
          (messages (committed (db c))) (messages (committed (db c')))
      ∧ ∀ conv, view (master_key c') (committed (db c')) conv
          = view (master_key c) (committed (db c)) conv
  | Err _ => committed (db c') = committed (db c) ∧ current (db c') = current (db c)
      ∧ master_key c' = master_key c
  end.
Proof.
  unfold rotate_master_key. destruct (try_array 32 new_key) as [key'|]; [|done].
  unfold in_transaction, on_db.
  pose proof (transaction_atomic CoreError.Database (rotate_body (master_key c) key' v nonces)
    (Faithful0 := ltac:(unfold rotate_body; apply _)) (db c) Hc) as H.
  destruct (transaction _ _ (db c)) as [r w]. cbn. destruct H as [Hc' H].
  destruct Hc as [_ Hc]. pose proof Hc' as [_ Hcw].
  destruct H as [(e & -> & Hcur & _)|([] & -> & H)]; cbn.
  - split; [done|]. rewrite Hc, Hcw. done.
  - apply rotate_body_spec in H as (Hf & _ & Hv & Hv'); [|done].
    assert (Hs : Forall2 (same_content (master_key c) key') (messages (committed (db c)))
      (messages (committed w))).
    { rewrite Hc, Hcw. eapply Forall2_impl; [exact (Forall2_elem_l _ _ _ Hf)|].
      intros m m' [Hm [He [[Hn _]|[_ (p & nonce & Hp & Hp')]]]].
      - destruct Hn. by apply list_elem_of_fmap_2.
      - split; [done|]. exists p. split; [done|]. by eapply (decrypt_encrypt L). }
    split; [done|]. split_and!; [done|by rewrite Hc|by rewrite Hcw|exact Hs|].
    intros conv. by apply view_same_content.
Qed.

(** ** Incoming events *)

Definition inbox_ids (l : list Inbox.t) : list Id := Inbox.event_id <$> l.

Lemma ingest_one_run n e d :
  let row := inbox_row (fst e) (snd e) in
  run (ingest_one n e) d =
    if exists_where (inbox_is (Inbox.event_id row)) (inbox d) then (Ok (n + 0), d)
    else (Ok (n + 1), bump 1 (set_inbox (inbox d ++ [row]) d)).
Proof.
  unfold ingest_one. run_next. unfold insert_inbox_ignore. by destruct (exists_where _ _).
Qed.

Lemma ingest_run events n d :
  ∃ added d', run (dfold ingest_one n events) d = (Ok (n + Z.of_nat (length added)), d')
    ∧ inbox d' = inbox d ++ added
    ∧ messages d' = messages d ∧ outbox d' = outbox d ∧ sync_cursors d' = sync_cursors d
    ∧ (∀ x, x ∈ added → ∃ e, e ∈ events ∧ x = inbox_row (fst e) (snd e))
    ∧ (∀ e, e ∈ events → IncomingEvent.event_id (fst e) ∈ inbox_ids (inbox d'))
    ∧ ((∀ e, e ∈ events → IncomingEvent.event_id (fst e) ∈ inbox_ids (inbox d)) → d' = d)
    ∧ (unique Inbox.event_id (inbox d) → unique Inbox.event_id (inbox d')).
Proof.
  revert n d. induction events as [|e events IH]; intros n d; cbn [dfold].
  - exists [], d. rewrite run_ret, app_nil_r, Z.add_0_r.
    split_and!; try done; intros x Hx; by apply not_elem_of_nil in Hx.
  - rewrite (run_bind CoreError.Database) by (unfold ingest_one; apply _).
    rewrite ingest_one_run. set (i := Inbox.event_id (inbox_row (fst e) (snd e))).
    destruct (exists_where (inbox_is i) (inbox d)) eqn:E.
    + apply (exists_key _ _ _ _ (inbox_keyed i)) in E.
      destruct (IH (n + 0) d) as (added & d' & -> & Hin & H1 & H2 & H3 & Ha & He & Hid & Hu).
      exists added, d'. rewrite Z.add_0_r. split_and!; try done.
      * intros x Hx. destruct (Ha x Hx) as (e' & He' & ->). exists e'. split; [by right|done].
      * intros e' [->|He']%elem_of_cons; [|by apply He]. rewrite Hin. unfold inbox_ids.
        rewrite fmap_app, elem_of_app. by left.
      * intros Hall. apply Hid. intros e' He'. apply Hall. by right.
    + set (row := inbox_row (fst e) (snd e)).
      apply (not_exists_key _ _ _ _ (inbox_keyed i)) in E.
      destruct (IH (n + 1) (bump 1 (set_inbox (inbox d ++ [row]) d)))
        as (added & d' & -> & Hin & H1 & H2 & H3 & Ha & He & Hid & Hu).
      exists (row :: added), d'. cbn [inbox bump set_change_counter set_inbox] in Hin, Hid, Hu.
      rewrite <- app_assoc in Hin. split_and!; try done.
      * f_equal. f_equal. cbn [length]. lia.
      * intros x [->|Hx]%elem_of_cons; [exists e; split; [left|done]|].
        destruct (Ha x Hx) as (e' & He' & ->). exists e'. split; [by right|done].
      * intros e' [->|He']%elem_of_cons; [|by apply He]. rewrite Hin. unfold inbox_ids.
        rewrite fmap_app, elem_of_app. right. left.
      * intros Hall. destruct E. apply (Hall e). left.
      * intros Hd. apply Hu. by apply unique_snoc.
Qed.

(** C21: incoming events are stored exactly once: a batch of at most 50 adds one
    inbox row for each event id not seen before and reports how many it added,
    whatever repetitions it contains; delivering the same batch again adds
    nothing and changes nothing; a larger batch is refused without effect. *)
Theorem ingest_exactly_once d key events (Hw : wf d) :
  let '(r, c') := ingest_server_batch events (quiet_core d key) in
  let d' := committed (db c') in
  if 50 <? Z.of_nat (length events)
  then r = Err CoreError.InvalidTransition ∧ c' = quiet_core d key
  else ∃ added, r = Ok (Z.of_nat (length added)) ∧ inbox d' = inbox d ++ added
    ∧ NoDup (inbox_ids (inbox d'))
    ∧ (∀ i, i ∈ inbox_ids (inbox d')
         ↔ i ∈ inbox_ids (inbox d) ∨ i ∈ (λ e, IncomingEvent.event_id (fst e)) <$> events)
    ∧ messages d' = messages d ∧ outbox d' = outbox d
    ∧ ingest_server_batch events c' = (Ok 0, c').
Proof.
  unfold ingest_server_batch. destruct (50 <? _); [done|].
  rewrite in_transaction_run by (unfold ingest_body; apply _).
  change (ingest_body events) with (dfold ingest_one 0 events).
  destruct (ingest_run events 0 d) as (added & d' & -> & Hin & Hm & Ho & _ & Ha & He & _ & Hu).
  cbn [fst snd db quiet_core quiet committed]. exists added.
  pose proof (Hu (wf_inbox_key _ (proj1 (proj2 (proj2 Hw))))) as Hu'. split_and!; try done.
  - intros i. split.
    + rewrite Hin. unfold inbox_ids. rewrite fmap_app, elem_of_app. intros [Hi|Hi]; [by left|right].
      apply list_elem_of_fmap in Hi as (x & -> & (e & He' & ->)%Ha). apply list_elem_of_fmap. by exists e.
    + intros [Hi|(e & -> & He')%list_elem_of_fmap]; [|by apply He].
      rewrite Hin. unfold inbox_ids. rewrite fmap_app, elem_of_app. by left.
  - rewrite in_transaction_run by (unfold ingest_one; apply _).
    destruct (ingest_run events 0 d') as (added2 & d2 & -> & Hin2 & _ & _ & _ & _ & _ & Hsame & _).
    rewrite (Hsame He) in *. destruct added2 as [|x l]; [done|].
    apply (f_equal length) in Hin2. rewrite length_app in Hin2. cbn in Hin2. lia.
Qed.
(** The guard both monotone caches share: an absent maximum counts as zero. *)
Lemma version_guard (cur : option Z) v :
  0 ≤ v → match cur with Some z => 0 ≤ z < 2 ^ 63 | None => True end →
  match cur with
  | Some z => ensure (negb (v <? as_u64 z)) CoreError.InvalidTransition
  | None => Ok tt
  end = if v <? default 0 cur then Err CoreError.InvalidTransition else Ok tt.
Proof.
  intros Hv Hcur. destruct cur as [z|]; cbn.
  - rewrite as_u64_small by (unfold in_u; lia). by destruct (v <? z).
  - by destruct (Z.ltb_spec v 0); [lia|].
Qed.


(** Sync cursors only move forward, per scope: a cursor below the stored one
    is refused, one beyond the signed 64-bit range of the column is a database
    error, both without effect; otherwise it is stored and every other scope
    keeps its cursor. *)
Theorem set_sync_cursor_monotone d key scope cursor (Hw : wf d) (Hc : in_u 64 cursor) :
  let '(r, c') := set_sync_cursor scope cursor (quiet_core d key) in
  let d' := committed (db c') in
  let stored := default 0 (Cursor.cursor <$> find_where (cursor_is scope) (sync_cursors d)) in
  if cursor <? stored then r = Err CoreError.InvalidTransition ∧ d' = d
  else if 2 ^ 63 <=? cursor then r = Err CoreError.Database ∧ d' = d
  else r = Ok tt
    ∧ find_where (cursor_is scope) (sync_cursors d') = Some (Cursor.Make scope cursor)
    ∧ ∀ other, other ≠ scope →
        find_where (cursor_is other) (sync_cursors d') = find_where (cursor_is other) (sync_cursors d).
Proof.
  unfold set_sync_cursor. rewrite direct_run by (unfold cursor_body; apply _).
  unfold cursor_body. run_next. unfold select_cursor. run_next.
  rewrite version_guard.
  2: { unfold in_u in Hc. lia. }
  2: { destruct (find_where _ _) as [x|] eqn:E; [|done]. apply find_where_Some in E as [Hx _].
       by apply (wf_cursor _ (proj1 (proj2 (proj2 Hw)))). }
  destruct (cursor <? _); [done|]. cbv beta iota.
  run_next. unfold upsert_cursor.
  assert (Hneg : (as_i64 cursor <? 0) = (2 ^ 63 <=? cursor)).
  { pose proof (as_i64_nonneg_iff cursor Hc). lia. }
  rewrite Hneg. destruct (Z.leb_spec (2 ^ 63) cursor); [done|].
  rewrite as_i64_small by (unfold in_i64, in_u in *; lia).
  assert (Hp : cursor_is scope (Cursor.Make scope cursor) = true) by (by apply bool_decide_eq_true).
  assert (Hq : ∀ other, other ≠ scope → cursor_is other (Cursor.Make scope cursor) = false)
    by (intros o Ho; by apply bool_decide_eq_false).
  destruct (exists_where (cursor_is scope) (sync_cursors d)) eqn:E; cbn -[find_where update_where];
    (split; [done|split]).
  - by apply find_where_replaced.
  - intros other Ho. apply find_where_other; [by apply Hq|]. intros x Hx.
    apply bool_decide_eq_true in Hx. apply bool_decide_eq_false. congruence.
  - rewrite find_where_snoc, Hp. apply find_where_None in E. by rewrite E.
  - intros other Ho. rewrite find_where_snoc, (Hq other Ho).
    by destruct (find_where (cursor_is other) (sync_cursors d)).
Qed.

(** ** The relay directory cache *)

Lemma newest_relay d r :
  wf d → r ∈ relay_directory_cache d →
  (∀ x, x ∈ relay_directory_cache d → RelayCache.version x ≤ RelayCache.version r) →
  select_relay d = Some r.
Proof.
  intros Hw Hr Hmax. destruct Hw as (_ & _ & [] & _). unfold select_relay.
  rewrite (stable_sort_head _ _ r); [..|done|].
  - cbn. specialize (wf_relay_version r Hr).
    rewrite as_u64_small by (unfold in_u; lia). by destruct r.
  - intros x y. unfold newer_leb. lia.
  - intros x y z. unfold newer_leb. lia.
  - intros x Hx Hle. unfold newer_leb in Hle. apply Z.leb_le in Hle. specialize (Hmax x Hx).
    apply (NoDup_key_inj RelayCache.version (relay_directory_cache d)); [done..|lia].
Qed.

Lemma upsert_relay_rows r d n d' :
  upsert_relay r d = Ok (n, d') →
  r ∈ relay_directory_cache d'
  ∧ ∀ x, x ∈ relay_directory_cache d' → x = r ∨ x ∈ relay_directory_cache d.
Proof.
  unfold upsert_relay. destruct (_ <? 0); [done|]. destruct (exists_where _ _) eqn:E; intros [= <- <-].
  - split.
    + apply exists_where_true in E as (x & Hx & Hp). apply elem_of_update. exists x. by rewrite Hp.
    + intros x (y & Hy & ->)%elem_of_update. destruct (relay_is _ y); auto.
  - cbn. setoid_rewrite elem_of_app. setoid_rewrite list_elem_of_singleton.
    split; [by right|]. intros x [Hx|Hx]; auto.
Qed.

(** The cached relay directory never rolls back: a directory older than the
    newest cached one is refused and nothing changes (so does one whose version
    does not fit the signed column); any other becomes the directory that
    [last_relay_directory] returns. *)
Theorem relay_cache_no_rollback d key r (Hw : wf d) (Hr : in_u 64 (RelayCache.version r)) :
  let '(res, c') := cache_relay_directory r (quiet_core d key) in
  match res with
  | Ok _ => (last_relay_directory c').1 = Ok (Some r)
      ∧ ∀ x, x ∈ relay_directory_cache d → RelayCache.version x ≤ RelayCache.version r
  | Err e => c' = quiet_core d key
      ∧ (e = CoreError.InvalidTransition
         ∧ (∃ x, x ∈ relay_directory_cache d ∧ RelayCache.version r < RelayCache.version x)
         ∨ e = CoreError.Database ∧ 2 ^ 63 ≤ RelayCache.version r)
  end.
Proof.
  unfold cache_relay_directory.
  pose proof (preserves_run wf (cache_body r) d) as Hpres.
  rewrite direct_run by (unfold cache_body; apply _).
  destruct (run (cache_body r) d) as [res d'] eqn:H.
  specialize (Hpres res d' ltac:(apply _) Hw eq_refl). revert H.
  unfold cache_body. run_next. run_next.
  pose proof (max_of_spec RelayCache.version (relay_directory_cache d)) as Hmax.
  pose proof (wf_relay_version _ (proj1 (proj2 (proj2 Hw)))) as Hrange.
  set (cur := max_of _ _) in *. rewrite version_guard.
  2: { unfold in_u in Hr. lia. }
  2: { destruct cur as [v|]; [|done]. destruct Hmax as [(x & Hx & <-) _]. by apply Hrange. }
  destruct (Z.ltb_spec (RelayCache.version r) (default 0 cur)) as [Hlt|Hge].
  { intros [= <- <-]. split; [done|]. left. split; [done|].
    destruct cur as [v|]; cbn in Hlt; [|unfold in_u in Hr; lia].
    destruct Hmax as [(x & Hx & <-) _]. eauto. }
  cbv beta iota. run_next. pose proof (as_i64_nonneg_iff (RelayCache.version r) Hr) as Hsign.
  destruct (Z.ltb_spec (as_i64 (RelayCache.version r)) 0).
  { unfold upsert_relay. cbn [RelayCache.version].
    destruct (Z.ltb_spec (as_i64 (RelayCache.version r)) 0); [|lia].
    intros [= <- <-]. split; [done|]. right. split; [done|lia]. }
  rewrite as_i64_small by (unfold in_i64, in_u in *; lia).
  replace (RelayCache.Make (RelayCache.version r) (RelayCache.signed_directory r)
    (RelayCache.expires_at_ms r)) with r by (by destruct r).
  assert (Hle : ∀ x, x ∈ relay_directory_cache d → RelayCache.version x ≤ RelayCache.version r).
  { intros x Hx. destruct cur as [v|].
    - destruct Hmax as [_ Hall]. specialize (Hall x Hx). cbn in Hge. lia.
    - rewrite Hmax in Hx. by apply not_elem_of_nil in Hx. }
  destruct (upsert_relay r d) as [[n d1]|e] eqn:Hup; cbn [mbind]; rewrite ?run_ret.
  - intros [= <- <-]. split; [|done]. apply upsert_relay_rows in Hup as [Hin Hrows].
    cbn. rewrite (newest_relay d1 r Hpres Hin); [done|]. intros x [->|Hx]%Hrows; [lia|by apply Hle].
  - unfold upsert_relay in Hup. destruct (Z.ltb_spec (RelayCache.version r) 0).
    + unfold in_u in Hr. lia.
    + by destruct (exists_where _ _).
Qed.

(** ** Wiping *)

(** What a wipe removes and what it leaves. *)
Definition wiped (d d' : Db.t) : Prop :=
  outbox d' = [] ∧ inbox d' = [] ∧ messages d' = [] ∧ conversation_members d' = []
  ∧ conversations d' = [] ∧ sync_cursors d' = [] ∧ receipts d' = []
  ∧ contact_requests d' = [] ∧ blocked_accounts d' = [] ∧ relay_directory_cache d' = []
  ∧ crypto_state d' = []
  ∧ change_counter d' = (λ z, z + 1) <$> change_counter d
  ∧ account_state d' = account_state d ∧ device_state d' = device_state d
  ∧ tombstones d' = tombstones d ∧ network_state d' = network_state d
  ∧ key_metadata d' = key_metadata d ∧ user_version d' = user_version d.

Lemma wipe_body_run d : ∃ d', run wipe_body d = (Ok tt, d') ∧ wiped d d'.
Proof. eexists. split; [reflexivity|]. by split_and!. Qed.

(** A wipe that succeeds commits the removal of all messages, events,
    conversations, members, cursors, receipts, requests, blocks, cached
    directories and group states, and nothing else (account, device and
    tombstone rows stay); one that fails commits nothing, but unless its BEGIN
    failed it leaves the connection inside the transaction, where no message
    can be created and no single-statement write is committed any more. *)
Theorem wipe_local_account_spec `{C : Crypto} c (Hc : clean (db c)) :
  let '(r, c') := wipe_local_account c in
  match r with
  | Ok _ => clean (db c') ∧ wiped (committed (db c)) (committed (db c'))
  | Err _ => committed (db c') = committed (db c)
      ∧ (clean (db c')
         ∨ in_tx (db c') = true
           ∧ (∀ i nonce now conv text, let '(r1, c1) := create_message i nonce now conv text c' in
                is_ok r1 = false ∧ committed (db c1) = committed (db c))
           ∧ (∀ A (body : stmt A), committed (db (direct body c').2) = committed (db c)))
  end.
Proof.
  destruct c as [[cm cu tx fl] key], Hc as [Htx Hcur]. cbn in Htx, Hcur. subst.
  assert (Hopen : ∀ w, in_tx w = true → committed w = cu →
    (∀ i nonce now conv text,
       let '(r1, c1) := create_message i nonce now conv text (MessengerCore.Make w key) in
       is_ok r1 = false ∧ committed (db c1) = cu)
    ∧ (∀ A (body : stmt A), committed (db (direct body (MessengerCore.Make w key)).2) = cu)).
  { intros [c1 d1 t1 f1] H1 H2. cbn in H1, H2. subst. split.
    - intros. unfold create_message. destruct (encrypt _ _ _); [|done].
      unfold create_encrypted, in_transaction, on_db, transaction, begin_. cbn.
      by rewrite orb_true_r.
    - intros A body. unfold direct, on_db, autocommit. cbn. by destruct (body d1 f1) as [[r d2] f2]. }
  unfold wipe_local_account, on_db, batch, begin_. cbn [db in_tx faults committed current master_key].
  rewrite orb_false_r. destruct (default false (head fl)); [by split; [|left]|].
  unfold autocommit. cbn [current committed in_tx faults].
  assert (Faithful CoreError.Database wipe_body) as Hf by (unfold wipe_body; apply _).
  pose proof (faithful_run (m := wipe_body) (db_error := CoreError.Database) cu (tail fl)) as Hr.
  destruct (wipe_body_run cu) as (d0 & Hrun & Hd0). rewrite Hrun in Hr.
  destruct (wipe_body cu (tail fl)) as [[[a|e] d'] fl'].
  - destruct Hr as [Hr|[= -> ->]]; [done|]. unfold commit. cbn [faults].
    destruct (default false (head fl')); cbn [db committed current in_tx].
    + split; [done|]. right. split; [done|]. by apply Hopen.
    + split; [done|]. exact Hd0.
  - cbn [db committed current in_tx]. split; [done|]. right. split; [done|]. by apply Hopen.
Qed.

(** ** What happens between encryption and insertion

    [create_message] reads the key, encrypts, and only then takes the database
    lock; [rotate_master_key] may run in between. *)

Lemma view_unreadable `{C : Crypto} key d conv m :
  wf d → m ∈ messages d → Message.conversation_id m = conv →
  decrypt key (Message.body_ciphertext m) = Err CoreError.Authentication →
  view key d conv = Err CoreError.Authentication.
Proof.
  intros Hw Hm Hconv Hd. unfold view. apply (collect_Err _ _ m).
  - unfold select_messages. rewrite stable_sort_perm. apply elem_of_select.
    split; [done|]. by apply bool_decide_eq_true.
  - unfold read_message, read_plaintext. by rewrite Hd.
  - intros y e Hy. unfold select_messages in Hy. rewrite stable_sort_perm in Hy.
    apply elem_of_select in Hy as [Hy _].
    pose proof (wf_status _ _ _ (proj1 Hw) y Hy) as Hs.
    apply MessageStatus.try_from_range in Hs as (s & Hs & _).
    unfold read_message, read_plaintext.
    destruct (decrypt key (Message.body_ciphertext y)) as [p|e'] eqn:Ey; cbn.
    + destruct (from_utf8 p); cbn; [by rewrite Hs|congruence].
    + intros He. injection He as <-. unfold decrypt in Ey. destruct (_ <? _); [congruence|].
      destruct (try_array _ _); [|congruence]. destruct (aead_decrypt _ _ _ _); cbn in Ey; congruence.
Qed.

(** C33: the race between sending and key rotation: if the key is rotated after
    [create_message] encrypted its text and before it inserted the row, the
    message is committed under the old key; from then on its conversation can
    no longer be listed and every later rotation fails. *)
Theorem create_rotate_race `{C : Crypto} c c1 c2 text nonce enc new_key v nonces i conv now
    (Hs : sound c)
    (Henc : encrypt (master_key c) nonce (str_bytes text) = Ok enc)
    (Hrot : rotate_master_key new_key v nonces c = (Ok tt, c1))
    (Hins : create_encrypted i conv enc now c1 = (Ok i, c2))
    (Hauth : decrypt (master_key c2) enc = Err CoreError.Authentication) :
  view (master_key c2) (committed (db c2)) conv = Err CoreError.Authentication
  ∧ ∀ key' v' nonces', is_ok (rotate_master_key key' v' nonces' c2).1 = false.
Proof.
  assert (Hs1 : sound c1).
  { pose proof (perform_returned (Op.Rotate new_key v nonces) c ltac:(done) Hs) as H.
    cbn in H. by rewrite Hrot in H. }
  assert (Hm : ∃ m, m ∈ messages (current (db c2)) ∧ Message.conversation_id m = conv
    ∧ Message.body_ciphertext m = enc).
  { unfold create_encrypted, in_transaction, on_db in Hins.
    pose proof (transaction_atomic CoreError.Database (create_body i conv enc now)
      (Faithful0 := ltac:(unfold create_body; apply _)) (db c1) (proj1 Hs1)) as H.
    destruct (transaction _ _ (db c1)) as [r w]. injection Hins as -> <-. cbn.
    destruct H as [_ [(e & ? & _)|(a & _ & H)]]; [done|].
    unfold create_body in H. do 4 (run_inv CoreError.Database H). injection H as _ <-.
    injection Ha2 as _ <-. unfold insert_outbox in Ha1.
    destruct (_ || _) in Ha1; [done|]. injection Ha1 as _ <-.
    unfold insert_message in Ha0. destruct (_ || _) in Ha0; [done|]. injection Ha0 as _ <-. cbn.
    eexists. split; [apply elem_of_app; right; apply list_elem_of_singleton; reflexivity|done]. }
  assert (Hs2 : sound c2).
  { unfold create_encrypted in Hins.
    pose proof (in_transaction_sound (create_body i conv enc now) c1
      ltac:(unfold create_body; apply _) (create_body_wf i conv enc now) Hs1) as H.
    by rewrite Hins in H. }
  destruct Hm as (m & Hm & Hconv & Hbody), Hs2 as [[Htx Hcl] Hw]. split.
  - rewrite Hcl. apply (view_unreadable _ _ _ m); [done..|]. by rewrite Hbody.
  - intros key' v' nonces'. unfold rotate_master_key. destruct (try_array 32 key'); [|done].
    unfold in_transaction, on_db.
    pose proof (transaction_atomic CoreError.Database (rotate_body (master_key c2) a v' nonces')
      (Faithful0 := ltac:(unfold rotate_body; apply _)) (db c2) (conj Htx Hcl)) as H.
    destruct (transaction _ _ (db c2)) as [[[]|e] w]; [|done]. exfalso.
    destruct H as [_ [(e & ? & _)|([] & _ & H)]]; [done|].
    apply rotate_body_spec in H as (Hf & _); [|done].
    apply list_elem_of_lookup in Hm as (k & Hk).
    destruct (Forall2_lookup_l _ _ _ _ _ Hf Hk) as (m' & _ & _ & Hcase).
    apply list_elem_of_lookup_2 in Hk. destruct Hcase as [[Hn _]|[_ (p & n & Hp & _)]].
    + apply Hn. by apply list_elem_of_fmap_2.
    + rewrite Hbody in Hp. congruence.
Qed.

(** *** Witnesses: a store with one queued message *)

Definition fresh_db : Db.t :=
  Db.Make [] [] [] [] [] [] [] [] (Some 0) (Some 1) (Some 0) 2 [] [] [] None [] [].
Definition fresh_store : MessengerCore.t := quiet_core fresh_db (fill 32 7).
Definition sample_text : str := Str (lit "hello") eq_refl.
Definition sample_id : Id := make_array 16 1.
Definition sample_conversation : Id := make_array 16 9.
Definition sample_create : Op.t :=
  Op.Create sample_id (fill 24 3) 1000 sample_conversation sample_text.
Definition sample_store : MessengerCore.t := perform (C := toy_crypto) sample_create fresh_store.
Definition sample_db : Db.t := current (db sample_store).

Lemma fresh_store_open : (open_ [] Db.empty (replicate 32 (z2b 7))).1 = Ok fresh_store.
Proof. vm_compute. reflexivity. Qed.
Lemma fresh_store_sound : sound fresh_store.
Proof. eapply open_sound; [by right|exact fresh_store_open]. Qed.
Lemma sample_store_sound : sound sample_store.
Proof. apply perform_returned; [done|exact fresh_store_sound]. Qed.
Lemma sample_db_wf : wf sample_db.
Proof. apply sample_store_sound. Qed.

(** The same store after a delivery receipt. *)
Definition delivered_db : Db.t :=
  current (db (perform (C := toy_crypto) (Op.Receipt sample_id false) sample_store)).
Lemma delivered_db_wf : wf delivered_db.
Proof. apply (perform_returned (C := toy_crypto) (Op.Receipt sample_id false) sample_store); [done|].
  exact sample_store_sound. Qed.

Lemma sample_row : ∃ m, find_where (message_is sample_id) (messages sample_db) = Some m
  ∧ Message.status m = 3.
Proof.
  destruct (find_where (message_is sample_id) (messages sample_db)) as [m|] eqn:Hm;
    vm_compute in Hm; [|discriminate Hm].
  exists m. split; [done|]. by injection Hm as <-.
Qed.

#[local] Opaque sample_db delivered_db.

(** A first attempt to open fails, a message is written, and a wipe fails. *)
Lemma store_invariant_witness :
  wf (committed (db (perform (C := toy_crypto) Op.Wipe (with_faults [false; true] sample_store)))).
Proof.
  apply (store_invariant (C := toy_crypto) [] (replicate 32 (z2b 7)) fresh_store _
    fresh_store_open).
  eapply rtc_l; [apply (step_op sample_create [])|].
  apply rtc_once. apply (step_op Op.Wipe [false; true]).
Defined.

Lemma create_message_atomic_witness :
  ∃ m, messages (committed (db sample_store)) = [m]
    ∧ read_plaintext (C := toy_crypto) (fill 32 7) m = Ok sample_text.
Proof.
  assert (Hok : is_ok (create_message (C := toy_crypto) sample_id (fill 24 3) 1000
    sample_conversation sample_text fresh_store).1 = true) by (vm_compute; reflexivity).
  pose proof (create_message_atomic toy_crypto_laws sample_id (fill 24 3) 1000
    sample_conversation sample_text fresh_store (proj1 fresh_store_sound)) as H.
  unfold sample_store, perform, sample_create.
  destruct (create_message _ _ _ _ _ _) as [[j|e] c']; [|discriminate Hok].
  destruct H as (_ & Hkey & _ & m & H1 & _ & _ & _ & _ & H2). exists m.
  split; [exact H1|]. rewrite Hkey in H2. exact H2.
Defined.

Lemma mark_upload_accepted_spec_witness :
  (mark_upload_accepted sample_id (quiet_core sample_db (fill 32 7))).1 = Ok tt.
Proof.
  pose proof (mark_upload_accepted_spec sample_db (fill 32 7) sample_id sample_db_wf) as H.
  destruct sample_row as (m & Hm & Hs). rewrite Hm, Hs in H.
  destruct (mark_upload_accepted _ _) as [r c']. exact (proj1 H).
Defined.

Lemma receipt_monotone_witness :
  (apply_delivery_receipt sample_id (quiet_core sample_db (fill 32 7))).1 = Ok tt.
Proof.
  pose proof (receipt_monotone sample_db (fill 32 7) sample_id false sample_db_wf) as H.
  destruct sample_row as (m & Hm & _). rewrite Hm in H. cbv zeta beta iota in H.
  destruct (apply_delivery_receipt _ _) as [r c']. exact (proj1 (proj2 H)).
Defined.

Lemma receipt_before_acceptance_witness :
  mark_upload_accepted sample_id (quiet_core delivered_db (fill 32 7))
  = (Err CoreError.InvalidTransition, quiet_core delivered_db (fill 32 7)).
Proof.
  destruct (find_where (message_is sample_id) (messages delivered_db)) as [m|] eqn:Hm;
    [|vm_compute in Hm; discriminate Hm].
  refine (proj1 (receipt_before_acceptance delivered_db (fill 32 7) sample_id 2000 m
    (Outbox.Make sample_id 1000 0) _ _ _ _ _ _)).
  - exact delivered_db_wf.
  - exact (proj1 (find_where_Some _ _ _ Hm)).
  - exact (proj1 (message_keyed sample_id m) (proj2 (find_where_Some _ _ _ Hm))).
  - vm_compute. reflexivity.
  - left. vm_compute in Hm. injection Hm as <-. reflexivity.
  - vm_compute. intros H. discriminate H.
Defined.

Lemma rotate_master_key_preserves_witness :
  key_metadata (committed (db (rotate_master_key (C := toy_crypto) (replicate 32 (z2b 8)) 2
    (λ n, make_array 24 (Z.of_nat n)) sample_store).2)) = Some 2.
Proof.
  pose proof (rotate_master_key_preserves toy_crypto_laws (replicate 32 (z2b 8)) 2
    (λ n, make_array 24 (Z.of_nat n)) sample_store (proj1 sample_store_sound) (proj2 sample_store_sound)) as H.
  destruct (rotate_master_key _ _ _ _) as [r c'] eqn:E. cbn [snd].
  destruct H as [_ H]. destruct r as [u|e]; [exact (proj1 (proj2 (proj2 H)))|].
  exfalso. vm_compute in E. discriminate E.
Defined.

Lemma ingest_exactly_once_witness :
  ∃ n, (ingest_server_batch [(IncomingEvent.Make sample_id sample_conversation [], 5);
      (IncomingEvent.Make sample_id sample_conversation [], 6)] (quiet_core sample_db (fill 32 7))).1
    = Ok n.
Proof.
  pose proof (ingest_exactly_once sample_db (fill 32 7)
    [(IncomingEvent.Make sample_id sample_conversation [], 5);
     (IncomingEvent.Make sample_id sample_conversation [], 6)] sample_db_wf) as H.
  destruct (ingest_server_batch _ _) as [r c']. destruct H as (added & -> & _). eexists. reflexivity.
Defined.

Lemma set_sync_cursor_monotone_witness :
  (set_sync_cursor sample_conversation 42 (quiet_core sample_db (fill 32 7))).1 = Ok tt.
Proof.
  assert (Hv : in_u 64 42) by (by vm_compute).
  pose proof (set_sync_cursor_monotone sample_db (fill 32 7) sample_conversation 42 sample_db_wf
    Hv) as H.
  assert (Hnone : find_where (cursor_is sample_conversation) (sync_cursors sample_db) = None)
    by (vm_compute; reflexivity).
  rewrite Hnone in H. destruct (set_sync_cursor _ _ _) as [r c']. exact (proj1 H).
Defined.

Lemma relay_cache_no_rollback_witness :
  (cache_relay_directory (RelayCache.Make 5 [] 0) (quiet_core sample_db (fill 32 7))).1 = Ok tt.
Proof.
  assert (Hv : in_u 64 (RelayCache.version (RelayCache.Make 5 [] 0))) by (by vm_compute).
  pose proof (relay_cache_no_rollback sample_db (fill 32 7) (RelayCache.Make 5 [] 0) sample_db_wf
    Hv) as H.
  destruct (cache_relay_directory _ _) as [[[]|e] c'] eqn:E; [reflexivity|].
  exfalso. vm_compute in E. discriminate E.
Defined.

Lemma wipe_local_account_spec_witness :
  wiped (committed (db sample_store)) (committed (db (wipe_local_account sample_store).2)).
Proof.
  pose proof (wipe_local_account_spec (C := toy_crypto) sample_store (proj1 sample_store_sound)) as H.
  destruct (wipe_local_account _) as [r c'] eqn:E. destruct r as [u|e]; [exact (proj2 H)|].
  exfalso. vm_compute in E. discriminate E.
Defined.

(** The race on the toy cipher: the second message is encrypted, the key is
    rotated, the message is inserted. *)
Definition raced_cipher : bytes :=
  default [] (match encrypt (C := toy_crypto) (fill 32 7) (fill 24 4) (str_bytes sample_text) with
              | Ok b => Some b | Err _ => None end).
Definition rotated_store : MessengerCore.t :=
  (rotate_master_key (C := toy_crypto) (replicate 32 (z2b 8)) 2 (λ n, make_array 24 (Z.of_nat n))
    sample_store).2.
Definition raced_store : MessengerCore.t :=
  (create_encrypted (make_array 16 2) sample_conversation raced_cipher 1001 rotated_store).2.

Lemma create_rotate_race_witness :
  view (C := toy_crypto) (master_key raced_store) (committed (db raced_store)) sample_conversation
  = Err CoreError.Authentication.
Proof.
  apply (create_rotate_race (C := toy_crypto) sample_store rotated_store raced_store sample_text
    (fill 24 4) raced_cipher (replicate 32 (z2b 8)) 2 (λ n, make_array 24 (Z.of_nat n))
    (make_array 16 2) sample_conversation 1001).
  - exact sample_store_sound.
  - vm_compute. reflexivity.
  - vm_compute. reflexivity.
  - vm_compute. reflexivity.
  - vm_compute. reflexivity.
Defined.
