(* ===== verification/Outbox.v ===== *)
(** * Outbox: what the outbox of the local store promises to an upload loop

    [get_pending_uploads] offers due messages, [mark_upload_accepted] takes one
    out and [retry_message] puts one off (crates/messenger-core/src/lib.rs).
    Here: which entries a page offers, how long a retry waits, that a loop which
    uploads page after page drains the outbox, and that messages written while
    offline are all there. *)
From Stdlib Require Import ZArith Lia Sorting.Sorted.
From stdpp Require Import base list sorting.
From S2P Require Import Prelude Protocol Crypto Sql LocalDb LocalStore.
Import Db MessengerCore.

(** ** The join of the outbox with its messages *)

Definition joined (d : Db.t) (l : list Outbox.t) : list (Outbox.t * Message.t) :=
  flat_map (λ o, (λ m, (o, m)) <$> select_where (message_is (Outbox.client_message_id o)) (messages d)) l.

Lemma joined_cons d o l :
  wf d → Outbox.client_message_id o ∈ message_ids (messages d) →
  ∃ m, m ∈ messages d ∧ Message.client_message_id m = Outbox.client_message_id o
  ∧ joined d (o :: l) = (o, m) :: joined d l.
Proof.
  intros ([] & _) (m & Hi & Hm)%list_elem_of_fmap. exists m. split_and!; [done..|].
  unfold joined at 1. cbn [flat_map].
  by rewrite (select_key Message.client_message_id _ _ _ m (message_keyed _)).
Qed.

Lemma joined_spec d l :
  wf d → (∀ o, o ∈ l → o ∈ outbox d) →
  fst <$> joined d l = l
  ∧ ∀ o m, (o, m) ∈ joined d l → m ∈ messages d ∧ Message.client_message_id m = Outbox.client_message_id o.
Proof.
  intros Hw. induction l as [|o l IH]; intros Hl; [split; [done|by intros ? ? ?%not_elem_of_nil]|].
  destruct (joined_cons d o l Hw) as (m & Hm & Hi & ->).
  { destruct Hw as ([] & _). apply wf_outbox_fk. apply list_elem_of_fmap_2, Hl. left. }
  destruct IH as [IH1 IH2]; [intros x Hx; apply Hl; by right|]. split; [cbn; by rewrite IH1|].
  intros o' m' [[= -> ->]|Hin]%elem_of_cons; [done|by apply IH2].
Qed.

Lemma due_total x y : due_leb x y = true ∨ due_leb y x = true.
Proof. unfold due_leb. lia. Qed.
Lemma due_trans x y z : due_leb x y = true → due_leb y z = true → due_leb x z = true.
Proof. unfold due_leb. lia. Qed.

(** What a row is offered as. *)
Definition offer (x : Outbox.t * Message.t) : PendingUpload.t :=
  PendingUpload.Make (Message.client_message_id (snd x)) (Message.conversation_id (snd x))
    (Message.body_ciphertext (snd x)) (Outbox.attempts (fst x)).
Definition is_due (now : Z) (o : Outbox.t) : bool := Outbox.next_attempt_at_ms o <=? now.

Lemma sorted_take {A} (leb : A → A → bool) n l : sorted_by leb l → sorted_by leb (take n l).
Proof.
  intros H. unfold sorted_by in *. rewrite <- (take_drop n l) in H. by eapply StronglySorted_app_1_l.
Qed.
Lemma sorted_before {A} (leb : A → A → bool) n l x y :
  (∀ x, leb x x = true) → sorted_by leb l → x ∈ take n l → y ∈ l → y ∉ take n l → leb x y = true.
Proof.
  intros Hrefl Hs. revert n. induction Hs as [|z l _ IH Hz]; intros [|n]; try by intros ?%not_elem_of_nil.
  cbn [take]. intros [->|Hx]%elem_of_cons [->|Hy]%elem_of_cons Hn; rewrite Forall_forall in Hz.
  - by destruct Hn; left.
  - by apply Hz.
  - by destruct Hn; left.
  - apply not_elem_of_cons in Hn as [_ Hn]. by eapply IH.
Qed.

Section Pending.
Context (d : Db.t) (key : array 32) (limit now : Z) (Hw : wf d).
Context (Hattempts : ∀ o, o ∈ outbox d → Outbox.attempts o ≤ u32_max).

Let due := select_where (λ x, is_due now (fst x)) (joined d (outbox d)).
Let rows := select_pending now (Z.min limit 50) d.

Lemma rows_eq : rows = take (Z.to_nat (Z.min limit 50)) (stable_sort due_leb due).
Proof using Type. done. Qed.

Lemma due_entries : fst <$> due = select_where (is_due now) (outbox d).
Proof using Hw.
  destruct (joined_spec d (outbox d) Hw (λ o Ho, Ho)) as [H _]. rewrite <- H. unfold due. clear H.
  generalize (joined d (outbox d)) as l. induction l as [|x l IH]; [done|].
  unfold select_where in *. cbn. destruct (is_due now x.1); cbn; by rewrite IH.
Qed.

Lemma rows_due o m : (o, m) ∈ rows → (o, m) ∈ due.
Proof using Type.
  rewrite rows_eq. intros (j & Hj & _)%elem_of_take. apply list_elem_of_lookup_2 in Hj.
  by rewrite stable_sort_perm in Hj.
Qed.

Lemma due_row o m :
  (o, m) ∈ due → o ∈ outbox d ∧ is_due now o = true ∧ m ∈ messages d
  ∧ Message.client_message_id m = Outbox.client_message_id o.
Proof using Hw.
  intros [Hin Hd]%elem_of_select. destruct (joined_spec d (outbox d) Hw (λ o Ho, Ho)) as [H1 H2].
  destruct (H2 o m Hin). split_and!; [|done..]. rewrite <- H1. by apply (list_elem_of_fmap_2 fst (joined d (outbox d)) (o, m)).
Qed.

Lemma due_nodup : NoDup (fst <$> due).
Proof using Hw.
  rewrite due_entries. destruct Hw as ([] & _). apply (NoDup_fmap_1 Outbox.client_message_id).
  by apply unique_select.
Qed.

Lemma rows_nodup : NoDup (fst <$> rows).
Proof using Hw.
  rewrite rows_eq, fmap_take. eapply sublist_NoDup; [|apply sublist_take].
  rewrite (stable_sort_perm due_leb due). apply due_nodup.
Qed.

Lemma pending_run :
  get_pending_uploads limit now (quiet_core d key) = (Ok (offer <$> rows), quiet_core d key).
Proof using Hw Hattempts.
  unfold get_pending_uploads. rewrite direct_run by apply _. run_next.
  rewrite (collect_map_Ok read_pending offer); [done|].
  intros [o m] Hin%rows_due%due_row. destruct Hin as (Ho & _). unfold read_pending, get_u32. cbn [fst].
  destruct Hw as ([] & _). specialize (Hattempts o Ho). specialize (wf_attempts o Ho).
  destruct (Z.leb_spec 0 (Outbox.attempts o)), (Z.leb_spec (Outbox.attempts o) u32_max); try lia. done.
Qed.

Lemma rows_length :
  length rows = Nat.min (Z.to_nat (Z.min limit 50)) (length (select_where (is_due now) (outbox d))).
Proof using Hw. by rewrite rows_eq, length_take, <- due_entries, length_fmap, stable_sort_perm. Qed.


(** An entry is on a page only when it is due, and then when there is room. *)
Lemma pending_offered o :
  o ∈ outbox d →
  ∃ page, get_pending_uploads limit now (quiet_core d key) = (Ok page, quiet_core d key)
  ∧ (∀ p, p ∈ page → PendingUpload.client_message_id p = Outbox.client_message_id o →
      is_due now o = true ∧ PendingUpload.attempts p = Outbox.attempts o)
  ∧ (is_due now o = true →
      Z.of_nat (length (select_where (is_due now) (outbox d))) ≤ Z.min limit 50 →
      Outbox.client_message_id o ∈ PendingUpload.client_message_id <$> page).
Proof using Hw Hattempts.
  intros Ho. exists (offer <$> rows). split; [apply pending_run|]. split.
  - intros p ([o' m] & -> & Hin%rows_due%due_row)%list_elem_of_fmap Hp.
    destruct Hin as (Ho' & Hdue & _ & Hm). cbn in Hp.
    assert (o' = o) as <-; [|done]. destruct Hw as ([] & _).
    apply (NoDup_key_inj Outbox.client_message_id (outbox d)); [done..|congruence].
  - intros Hdue Hroom.
    assert (Hod : o ∈ fst <$> due) by (rewrite due_entries; by apply elem_of_select).
    apply list_elem_of_fmap in Hod as ([o' m] & -> & Hin). cbn [fst].
    destruct (due_row _ _ Hin) as (_ & _ & _ & Hm). rewrite <- Hm, <- list_fmap_compose.
    apply list_elem_of_fmap. exists (o', m). split; [done|].
    rewrite rows_eq, take_ge, (stable_sort_perm due_leb due); [done|].
    rewrite (stable_sort_perm due_leb due). rewrite <- due_entries, length_fmap in Hroom. lia.
Qed.

(** A page of pending uploads is exact: it has as many entries as are due, at
    most fifty and at most as many as asked for, each a stored message with its
    own outbox entry that is due, none twice, the longest due first, and what is
    left out is not due earlier; reading it changes nothing. *)
Theorem pending_uploads_exact :
  ∃ rows, get_pending_uploads limit now (quiet_core d key) = (Ok (offer <$> rows), quiet_core d key)
  ∧ length rows = Nat.min (Z.to_nat (Z.min limit 50)) (length (select_where (is_due now) (outbox d)))
  ∧ NoDup (fst <$> rows) ∧ sorted_by due_leb rows
  ∧ (∀ o m, (o, m) ∈ rows → o ∈ outbox d ∧ is_due now o = true ∧ m ∈ messages d
      ∧ Message.client_message_id m = Outbox.client_message_id o)
  ∧ ∀ o x, o ∈ outbox d → is_due now o = true → o ∉ fst <$> rows → x ∈ rows →
      Outbox.next_attempt_at_ms (fst x) ≤ Outbox.next_attempt_at_ms o.
Proof using Hw Hattempts.
  exists rows. split; [apply pending_run|].
  pose proof (stable_sort_sorted due_leb due_total due_trans due) as Hs.
  split_and!.
  - apply rows_length.
  - apply rows_nodup.
  - rewrite rows_eq. by apply sorted_take.
  - intros o m Hin. by apply due_row, rows_due.
  - intros o x Ho Hdue Hn Hx.
    assert (Hod : o ∈ fst <$> due) by (rewrite due_entries; by apply elem_of_select).
    apply list_elem_of_fmap in Hod as ([o' m] & -> & Hin).
    apply Z.leb_le. apply (sorted_before due_leb (Z.to_nat (Z.min limit 50)) (stable_sort due_leb due) x (o', m));
      [unfold due_leb; lia|done|done|by rewrite stable_sort_perm|].
    intros Hin'. apply Hn. by apply (list_elem_of_fmap_2 fst rows (o', m)).
Qed.
End Pending.

(** ** An upload loop

    The shells call the store like this: read a page, upload each message, mark
    it accepted, until a page is empty.  Here every upload is accepted. *)









(** ** Retries *)

Lemma retry_delay_bounds a : 0 ≤ a → 1000 ≤ retry_delay a ≤ 1024000.
Proof.
  intros Ha. unfold retry_delay. rewrite Z.shiftl_mul_pow2 by lia. rewrite Z.mul_1_l.
  assert (H : 2 ^ 0 ≤ 2 ^ Z.min a 10 ≤ 2 ^ 10) by (split; apply Z.pow_le_mono_r; lia).
  change (2 ^ 0) with 1 in H. change (2 ^ 10) with 1024 in H. unfold i64_max. lia.
Qed.
Lemma retry_delay_power a : 0 ≤ a → retry_delay a = 1000 * 2 ^ Z.min a 10.
Proof.
  intros Ha. pose proof (retry_delay_bounds a Ha) as H. unfold retry_delay in *.
  rewrite Z.shiftl_mul_pow2, Z.mul_1_l in * by lia. unfold i64_max in *. lia.
Qed.
Lemma retry_keeps_wf d key i now c r :
  wf d → retry_message i now (quiet_core d key) = (r, c) → wf (current (db c)).
Proof.
  intros Hw H. pose proof (direct_sound (retry_body i now) (quiet_core d key)) as Hs.
  unfold retry_message in H. rewrite H in Hs. apply Hs; [apply _|by split].
Qed.

Lemma retry_run d key i now o :
  wf d → o ∈ outbox d → Outbox.client_message_id o = i → Outbox.attempts o ≤ u32_max →
  0 ≤ now ≤ i64_max - 1024000 →
  ∃ d', retry_message i now (quiet_core d key) = (Ok tt, quiet_core d' key)
  ∧ outbox d' = update_where (outbox_is i) (λ x, Outbox.Make (Outbox.client_message_id x)
      (now + retry_delay (Outbox.attempts o)) (Outbox.attempts x + 1)) (outbox d)
  ∧ messages d' = update_where (status_hit i (λ _, true)) (Message.set_status 8) (messages d).
Proof.
  intros Hw Ho Hi Ha Hnow. pose proof (wf_attempts _ _ _ (proj1 Hw) o Ho) as Ha0.
  pose proof (retry_delay_bounds (Outbox.attempts o) Ha0) as Hb.
  assert (Hfind : find_where (outbox_is i) (outbox d) = Some o).
  { destruct Hw as ([] & _). by apply (find_key Outbox.client_message_id _ i _ _ (outbox_keyed i)). }
  unfold retry_message. rewrite direct_run by (unfold retry_body; apply _). unfold retry_body. run_next.
  unfold select_attempts. rewrite Hfind. unfold get_u32.
  replace ((0 <=? Outbox.attempts o) && (Outbox.attempts o <=? u32_max)) with true by lia.
  cbn [mbind result_bind]. run_next. cbn [ok_or]. run_next. cbn [schedule_retry].
  rewrite as_i64_small by (unfold in_i64, i64_max in *; lia).
  run_next. cbn [update_status]. eexists. by split; [reflexivity|].
Qed.

(** C27: A retry puts a message off.  No page that [get_pending_uploads] returns
    offers the message before a delay of between one and 1024 seconds has passed;
    from then on it is on the page, with one more attempt, when the page has room
    for all that is due and the counts of attempts fit in 32 bits.  The delay
    depends on nothing but the number of attempts: one second for the first, twice
    as long for each of the next ten, and the same for all others.  The message
    is scheduled for retry whatever its status was; entries and messages of other
    identifiers stay as they were. *)
Theorem retry_backs_off d key i now o :
  wf d → o ∈ outbox d → Outbox.client_message_id o = i → Outbox.attempts o ≤ u32_max →
  0 ≤ now ≤ i64_max - 1024000 →
  let a := Outbox.attempts o in
  ∃ d' o', retry_message i now (quiet_core d key) = (Ok tt, quiet_core d' key)
  ∧ o' ∈ outbox d' ∧ Outbox.client_message_id o' = i ∧ Outbox.attempts o' = a + 1
  ∧ (∀ limit t, (∀ x, x ∈ outbox d' → Outbox.attempts x ≤ u32_max) →
      ∃ page, get_pending_uploads limit t (quiet_core d' key) = (Ok page, quiet_core d' key)
      ∧ (∀ p, p ∈ page → PendingUpload.client_message_id p = i →
          now + retry_delay a ≤ t ∧ PendingUpload.attempts p = a + 1)
      ∧ (now + retry_delay a ≤ t →
          Z.of_nat (length (select_where (is_due t) (outbox d'))) ≤ Z.min limit 50 →
          i ∈ PendingUpload.client_message_id <$> page))
  ∧ retry_delay a = 1000 * 2 ^ Z.min a 10 ∧ 1000 ≤ retry_delay a ≤ 1024000
  ∧ (∀ m, m ∈ messages d → Message.client_message_id m = i → Message.set_status 8 m ∈ messages d')
  ∧ (∀ x, Outbox.client_message_id x ≠ i → x ∈ outbox d' ↔ x ∈ outbox d)
  ∧ ∀ m, Message.client_message_id m ≠ i → m ∈ messages d' ↔ m ∈ messages d.
Proof.
  intros Hw Ho Hi Ha Hnow a. pose proof (wf_attempts _ _ _ (proj1 Hw) o Ho) as Ha0.
  destruct (retry_run d key i now o Hw Ho Hi Ha Hnow) as (d' & Hrun & Hout & Hmsg). fold a in Hout.
  set (o' := Outbox.Make i (now + retry_delay a) (a + 1)).
  assert (Ho' : o' ∈ outbox d').
  { rewrite Hout. apply elem_of_update. exists o. by rewrite (proj2 (outbox_keyed i o) Hi), Hi. }
  exists d', o'. split; [exact Hrun|]. rewrite Hmsg. split_and!; try done.
  - intros limit t Hatt.
    destruct (pending_offered d' key limit t (retry_keeps_wf _ _ _ _ _ _ Hw Hrun) Hatt o' Ho') as (page & Hp & H1 & H2).
    exists page. split; [exact Hp|]. split; [intros p Hin Hpi; destruct (H1 p Hin Hpi) as [Hd Hn]; split; [|exact Hn]|].
    + unfold is_due in Hd. cbn in Hd. lia.
    + intros Ht. apply H2. unfold is_due. cbn. lia.
  - by apply retry_delay_power.
  - by apply retry_delay_bounds.
  - by apply retry_delay_bounds.
  - intros m Hm Hmi. by apply updated_row.
  - intros x Hx. rewrite Hout, elem_of_update. split.
    + intros (y & Hy & ->). destruct (outbox_is i y) eqn:E; [|done]. by apply outbox_keyed in E.
    + intros Hin. exists x. split; [done|]. destruct (outbox_is i x) eqn:E; [|done]. by apply outbox_keyed in E.
  - intros m Hm. rewrite elem_of_update. unfold status_hit. split.
    + intros (y & Hy & ->). destruct (message_is i y) eqn:E; [|done]. by apply message_keyed in E.
    + intros Hin. exists m. split; [done|]. destruct (message_is i m) eqn:E; [|done]. by apply message_keyed in E.
Qed.

(** ** Writing while offline *)

Module Draft.
Record t := Make { client_message_id : Id; nonce : array 24; created_at_ms : Z; text : str }.
End Draft.

Section Offline.
Context `{C : Crypto} (L : CryptoLaws C) (key : array 32) (conv : Id).

(** One [create_message] after the other; the first error ends it. *)
Fixpoint create_all (drafts : list Draft.t) (c : MessengerCore.t)
    : result CoreError.t unit * MessengerCore.t :=
  match drafts with
  | [] => (Ok tt, c)
  | x :: drafts =>
      match create_message (Draft.client_message_id x) (Draft.nonce x) (Draft.created_at_ms x) conv
              (Draft.text x) c with
      | (Err e, c) => (Err e, c)
      | (Ok _, c) => create_all drafts c
      end
  end.

Definition encrypted (x : Draft.t) : result CoreError.t bytes :=
  encrypt key (Draft.nonce x) (str_bytes (Draft.text x)).
Definition stored_as (x : Draft.t) (m : Message.t) : Prop :=
  ∃ b, encrypted x = Ok b
  ∧ m = Message.Make (Draft.client_message_id x) conv b (MessageStatus.as_i64 MessageStatus.ReadyToUpload)
          (Draft.created_at_ms x).
Definition entry_of (x : Draft.t) : Outbox.t :=
  Outbox.Make (Draft.client_message_id x) (Draft.created_at_ms x) 0.
Definition shown_as (x : Draft.t) : LocalMessage.t :=
  LocalMessage.Make (Draft.client_message_id x) conv (Draft.text x) MessageStatus.ReadyToUpload
    (Draft.created_at_ms x).

Lemma create_one d x b :
  wf d → encrypted x = Ok b → Draft.client_message_id x ∉ message_ids (messages d) →
  ∃ d', create_message (Draft.client_message_id x) (Draft.nonce x) (Draft.created_at_ms x) conv
      (Draft.text x) (quiet_core d key) = (Ok (Draft.client_message_id x), quiet_core d' key)
  ∧ wf d' ∧ outbox d' = outbox d ++ [entry_of x] ∧ network_state d' = network_state d
  ∧ sync_cursors d' = sync_cursors d
  ∧ ∃ m, stored_as x m ∧ messages d' = messages d ++ [m].
Proof.
  intros Hw He Hi. unfold create_message. cbn [master_key quiet_core]. fold (encrypted x). rewrite He.
  unfold create_encrypted. rewrite in_transaction_run by (unfold create_body; apply _).
  set (i := Draft.client_message_id x) in *. set (now := Draft.created_at_ms x).
  assert (Hrun : ∃ d', run (create_body i conv b now) d = (Ok i, d')
    ∧ outbox d' = outbox d ++ [entry_of x] ∧ network_state d' = network_state d
    ∧ sync_cursors d' = sync_cursors d ∧ ∃ m, stored_as x m ∧ messages d' = messages d ++ [m]).
  { destruct (insert_conversation_ignore conv now d) as [[n d0]|e] eqn:E0;
      [|unfold insert_conversation_ignore in E0; by destruct (exists_where _ _)].
    destruct (insert_conversation_wf _ _ _ _ _ E0 Hw) as (Hw0 & Hc & Hm & Ho).
    assert (Hs : network_state d0 = network_state d ∧ sync_cursors d0 = sync_cursors d).
    { unfold insert_conversation_ignore in E0. by destruct (exists_where _ _); injection E0 as _ <-. }
    set (m := Message.Make i conv b (MessageStatus.as_i64 MessageStatus.ReadyToUpload) now).
    unfold create_body. run_next. rewrite E0. run_next. unfold insert_message. fold m.
    cbn [Message.client_message_id Message.conversation_id m].
    rewrite Hm, (proj2 (not_exists_key _ _ _ _ (message_keyed i)) Hi).
    rewrite (proj2 (exists_key _ _ _ _ (conversation_keyed conv)) Hc). cbn [orb negb]. run_next.
    unfold insert_outbox. cbn [Outbox.client_message_id Outbox.attempts].
    set (d1 := bump 1 (set_messages (messages d ++ [m]) d0)).
    assert (Hno : exists_where (outbox_is i) (outbox d1) = false).
    { change (outbox d1) with (outbox d0). rewrite Ho. apply (not_exists_key _ _ _ _ (outbox_keyed i)).
      intros Hin. apply Hi. by apply (wf_outbox_fk _ _ _ (proj1 Hw)). }
    assert (Hyes : exists_where (message_is i) (messages d1) = true).
    { apply exists_where_true. exists m. split; [apply elem_of_app; right; left|by apply message_keyed]. }
    rewrite Hno, Hyes. cbn [orb negb]. change (0 <? 0) with false. cbv iota. run_next. cbn [touch_conversation]. eexists. split; [reflexivity|].
    cbn. rewrite Ho. split_and!; [done|apply Hs|apply Hs|]. exists m. split; [by exists b|done]. }
  destruct Hrun as (d' & Hrun & H). pose proof (create_body_wf _ _ _ _ _ _ _ Hw Hrun) as Hw'.
  rewrite Hrun. exists d'. by destruct_and! H.
Qed.

Lemma create_all_run drafts d :
  wf d → NoDup (Draft.client_message_id <$> drafts) →
  (∀ x, x ∈ drafts → (Draft.client_message_id x ∉ message_ids (messages d)) ∧ is_ok (encrypted x) = true) →
  ∃ d' ms, create_all drafts (quiet_core d key) = (Ok tt, quiet_core d' key) ∧ wf d'
  ∧ outbox d' = outbox d ++ (entry_of <$> drafts) ∧ network_state d' = network_state d
  ∧ sync_cursors d' = sync_cursors d ∧ Forall2 stored_as drafts ms ∧ messages d' = messages d ++ ms.
Proof.
  revert d. induction drafts as [|x drafts IH]; intros d Hw Hn Hx.
  { exists d, []. rewrite !app_nil_r. by split_and!. }
  apply NoDup_cons in Hn as [Hnx Hn]. destruct (Hx x ltac:(left)) as [Hi Hok].
  destruct (encrypted x) as [b|e] eqn:He; [|done].
  destruct (create_one d x b Hw He Hi) as (d1 & Hrun & Hw1 & Ho1 & Hs1 & Hc1 & m & Hm & Hm1).
  destruct (IH d1 Hw1 Hn) as (d2 & ms & Hall & Hw2 & Ho2 & Hs2 & Hc2 & Hms & Hm2).
  { intros y Hy. destruct (Hx y ltac:(by right)) as [Hyi Hyok]. split; [|done]. rewrite Hm1.
    unfold message_ids. rewrite fmap_app, elem_of_app. intros [?|Hyx%list_elem_of_singleton]; [done|].
    destruct Hm as (b' & _ & ->). cbn in Hyx. apply Hnx. rewrite <- Hyx. by apply list_elem_of_fmap_2. }
  exists d2, (m :: ms). cbn [create_all]. rewrite Hrun. split_and!; [done..| |congruence|congruence| |].
  - by rewrite Ho2, Ho1, <- app_assoc.
  - by constructor.
  - by rewrite Hm2, Hm1, <- app_assoc.
Qed.
Lemma read_stored x m : stored_as x m → read_message key conv m = Ok (shown_as x).
Proof using L.
  intros (b & He & ->). unfold read_message, read_plaintext. cbn [Message.body_ciphertext].
  rewrite (decrypt_encrypt L _ _ _ _ He). cbn [mbind result_bind]. by rewrite from_utf8_str.
Qed.

(** Messages written while offline are all there.  Any number of messages with
    fresh identifiers and ascending times, no earlier than what the conversation
    holds, are accepted one after the other on a store that works; the
    conversation then shows what it showed before, followed by the texts in the
    order they were written, all ready to upload; the outbox has an entry for
    each, due at once, and the diagnostics count them. *)
Theorem offline_messages_kept drafts old d mode cursor :
  wf d → NoDup (Draft.client_message_id <$> drafts) →
  (∀ x, x ∈ drafts → (Draft.client_message_id x ∉ message_ids (messages d)) ∧ is_ok (encrypted x) = true) →
  StronglySorted (λ x y, Draft.created_at_ms x ≤ Draft.created_at_ms y) drafts →
  (∀ m x, m ∈ messages d → x ∈ drafts → Message.created_at_ms m ≤ Draft.created_at_ms x) →
  list_messages conv (quiet_core d key) = (Ok old, quiet_core d key) →
  get_network_diagnostics (quiet_core d key)
  = (Ok (NetworkDiagnostics.Make mode (Z.of_nat (length (outbox d))) cursor), quiet_core d key) →
  Z.of_nat (length (outbox d) + length drafts) < 2 ^ 64 →
  ∃ d', create_all drafts (quiet_core d key) = (Ok tt, quiet_core d' key) ∧ wf d'
  ∧ list_messages conv (quiet_core d' key) = (Ok (old ++ (shown_as <$> drafts)), quiet_core d' key)
  ∧ outbox d' = outbox d ++ (entry_of <$> drafts)
  ∧ get_network_diagnostics (quiet_core d' key)
    = (Ok (NetworkDiagnostics.Make mode (Z.of_nat (length (outbox d) + length drafts)) cursor),
       quiet_core d' key).
Proof using L.
  intros Hw Hn Hx Hsort Hlate Hold Hdiag Hmax.
  destruct (create_all_run drafts d Hw Hn Hx) as (d' & ms & Hall & Hw' & Ho & Hs & Hc & Hms & Hm).
  exists d'. split_and!; [done..| |done|].
  - unfold list_messages in *. rewrite direct_run in * by apply _. revert Hold. run_next. intros [= Hold].
    run_next. cbn [master_key quiet_core] in *. f_equal.
    unfold select_messages in *. rewrite Hm. unfold select_where in *. rewrite List.filter_app.
    assert (Hin : ∀ m, m ∈ ms → ∃ x, x ∈ drafts ∧ stored_as x m).
    { intros m (j & Hj)%list_elem_of_lookup_1. destruct (Forall2_lookup_r _ _ _ _ _ Hms Hj) as (x & Hxj & Hst).
      exists x. split; [by eapply list_elem_of_lookup_2|done]. }
    assert (Hall_conv : List.filter (λ m, bool_decide (Message.conversation_id m = conv)) ms = ms).
    { clear -Hms. induction Hms as [|x m drafts ms (b & _ & ->) _ IH]; [done|].
      cbn [List.filter Message.conversation_id]. by rewrite bool_decide_eq_true_2, IH. }
    rewrite Hall_conv, stable_sort_app.
    + apply collect_Ok, Forall2_app; [by apply collect_Ok|].
      clear -Hms L. induction Hms as [|x m drafts ms Hx _ IH]; constructor; [by apply read_stored|done].
    + clear -Hms Hsort. revert Hsort. induction Hms as [|x m drafts ms Hx Hms IH]; [constructor|].
      intros Hs. inversion Hs as [|? ? Hs' Hlt]; subst. constructor; [by apply IH|]. apply Forall_forall.
      intros m' (j & Hj)%list_elem_of_lookup_1.
      destruct (Forall2_lookup_r _ _ _ _ _ Hms Hj) as (x' & Hxj%list_elem_of_lookup_2 & (b' & _ & ->)).
      destruct Hx as (b & _ & ->). rewrite Forall_forall in Hlt. unfold created_leb. cbn.
      apply Z.leb_le. by apply Hlt.
    + intros m m' [Hm1 _]%elem_of_select Hm'. destruct (Hin m' Hm') as (x & Hxd & (b & _ & ->)).
      apply Z.leb_le. by apply Hlate.
  - revert Hdiag. unfold get_network_diagnostics. rewrite !direct_run by apply _.
    rewrite !(run_bind CoreError.Database), !run_query by apply _. rewrite Hs.
    destruct (one_row (network_state d)) as [z|e]; [|done].
    rewrite !(run_bind CoreError.Database), !run_query by apply _.
    rewrite !(run_bind CoreError.Database), !run_query by apply _. rewrite Hc.
    rewrite !(run_bind CoreError.Database) by apply _.
    match goal with |- context [dlift ?r] => destruct r as [md|e] end; rewrite !run_lift; [|done].
    rewrite !run_ret. intros [= -> _ <-].
    rewrite Ho, length_app, length_fmap. rewrite as_u64_small by (unfold in_u; lia). done.
Qed.
End Offline.

(** ** Witnesses *)

Lemma sample_outbox : outbox sample_db = [Outbox.Make sample_id 1000 0].
Proof. vm_compute. reflexivity. Qed.
Lemma sample_attempts o : o ∈ outbox sample_db → Outbox.attempts o ≤ u32_max.
Proof. rewrite sample_outbox. by intros ->%list_elem_of_singleton. Qed.
#[local] Opaque sample_db.

Lemma pending_uploads_exact_witness :
  ∃ rows, get_pending_uploads 50 2000 (quiet_core sample_db (fill 32 7))
    = (Ok (offer <$> rows), quiet_core sample_db (fill 32 7)) ∧ length rows = 1%nat.
Proof.
  destruct (pending_uploads_exact sample_db (fill 32 7) 50 2000 sample_db_wf sample_attempts)
    as (rows & Hrun & Hlen & _).
  exists rows. split; [exact Hrun|]. rewrite Hlen, sample_outbox. reflexivity.
Defined.


Definition retried : Db.t := current (db (retry_message sample_id 2000 (quiet_core sample_db (fill 32 7))).2).
Lemma retried_outbox : outbox retried = [Outbox.Make sample_id 3000 1].
Proof. vm_compute. reflexivity. Qed.
Lemma retry_backs_off_witness :
  ∃ d' early late,
    retry_message sample_id 2000 (quiet_core sample_db (fill 32 7)) = (Ok tt, quiet_core d' (fill 32 7))
  ∧ get_pending_uploads 50 2999 (quiet_core d' (fill 32 7)) = (Ok early, quiet_core d' (fill 32 7))
  ∧ (∀ p, p ∈ early → PendingUpload.client_message_id p ≠ sample_id)
  ∧ get_pending_uploads 50 3000 (quiet_core d' (fill 32 7)) = (Ok late, quiet_core d' (fill 32 7))
  ∧ sample_id ∈ PendingUpload.client_message_id <$> late.
Proof.
  destruct (retry_backs_off sample_db (fill 32 7) sample_id 2000 (Outbox.Make sample_id 1000 0) sample_db_wf)
    as (d' & o' & H & _ & _ & _ & Hpage & _).
  - rewrite sample_outbox. left.
  - reflexivity.
  - cbn. unfold u32_max. lia.
  - unfold i64_max. lia.
  - assert (d' = retried) as -> by (unfold retried; by rewrite H).
    rewrite retried_outbox in Hpage.
    assert (Hatt : ∀ x, x ∈ [Outbox.Make sample_id 3000 1] → Outbox.attempts x ≤ u32_max).
    { intros x ->%list_elem_of_singleton. cbn. unfold u32_max. lia. }
    destruct (Hpage 50 2999 Hatt) as (early & Hp & H1 & _), (Hpage 50 3000 Hatt) as (late & Hq & _ & H2).
    exists retried, early, late. split_and!; [exact H|exact Hp| |exact Hq|].
    + intros p Hp1 Hp2. destruct (H1 p Hp1 Hp2) as [Ht _]. vm_compute in Ht. by apply Ht.
    + apply H2; vm_compute; discriminate.
Defined.

(** Two texts on a new store. *)
Definition draft (n : Z) : Draft.t := Draft.Make (make_array 16 n) (make_array 24 n) (1000 + n) sample_text.
Lemma offline_messages_kept_witness :
  ∃ d', create_all (C := toy_crypto) sample_conversation [draft 1; draft 2] fresh_store
    = (Ok tt, quiet_core d' (fill 32 7))
  ∧ list_messages (C := toy_crypto) sample_conversation (quiet_core d' (fill 32 7))
    = (Ok (shown_as sample_conversation <$> [draft 1; draft 2]), quiet_core d' (fill 32 7)).
Proof.
  destruct (offline_messages_kept toy_crypto_laws (fill 32 7) sample_conversation [draft 1; draft 2] []
    fresh_db NetworkMode.Normal 0) as (d' & H & _ & Hlist & _).
  - exact (proj2 fresh_store_sound).
  - apply (bool_decide_unpack _). vm_compute. exact I.
  - intros x Hx. split; [by intros ?%not_elem_of_nil|].
    apply elem_of_cons in Hx as [->|Hx]; [vm_compute; reflexivity|].
    apply list_elem_of_singleton in Hx as ->. vm_compute. reflexivity.
  - repeat constructor. cbn. lia.
  - by intros m x ?%not_elem_of_nil.
  - vm_compute. reflexivity.
  - vm_compute. reflexivity.
  - cbn. lia.
  - exists d'. split; [exact H|exact Hlist].
Defined.
