(* ===== verification/Changes.v ===== *)
(** * Changes: what the revision of the local store promises to an observer

    A client remembers the revision that [observe_conversation_changes] gave it
    and reads again when the revision has grown (crates/messenger-core/src/lib.rs).
    The triggers of the schema count inserted and updated messages, inbox events,
    conversations and members; a conversation that is only touched and a wipe are
    not covered by a trigger.  Here: no operation, failing or not, changes what
    the triggers watch without raising the revision. *)
From Stdlib Require Import ZArith Lia.
From stdpp Require Import base list relations.
From S2P Require Import Prelude Protocol Crypto Sql LocalDb LocalStore.
Import Db MessengerCore.

(** What an observer of conversations sees. *)
Definition watched (d : Db.t) : list Message.t * list Inbox.t * list Member.t * list Conversation.t :=
  (messages d, inbox d, conversation_members d, conversations d).

(** The revision grew by the changes that were made, and by nothing only if
    nothing that is watched has changed. *)
Definition advances (d d' : Db.t) : Prop :=
  ∃ n, 0 ≤ n ∧ change_counter d' = (λ r, r + n) <$> change_counter d ∧ (n = 0 → watched d' = watched d).

Lemma add_zero (o : option Z) : (λ r, r + 0) <$> o = o.
Proof. destruct o; cbn; f_equal; lia. Qed.

Lemma advances_refl d : advances d d.
Proof. exists 0. rewrite add_zero. done. Qed.
Lemma advances_trans d1 d2 d3 : advances d1 d2 → advances d2 d3 → advances d1 d3.
Proof.
  intros (n & Hn & Hc & Hw) (k & Hk & Hc' & Hw'). exists (n + k). split_and!; [lia| |].
  - rewrite Hc', Hc. destruct (change_counter d1); cbn; f_equal; lia.
  - intros H. rewrite Hw', Hw by lia. done.
Qed.
#[export] Instance advances_preorder : PreOrder advances.
Proof. split; [exact advances_refl|exact advances_trans]. Qed.

(** Statements that leave the watched tables and the revision alone. *)
Definition unwatched (d d' : Db.t) : Prop :=
  change_counter d' = change_counter d ∧ watched d' = watched d.
Lemma unwatched_advances d d' : unwatched d d' → advances d d'.
Proof. intros [Hc Hw]. exists 0. by rewrite add_zero. Qed.

(** A statement under a trigger: as many bumps as rows. *)
Lemma bump_advances n d d' :
  0 ≤ n → change_counter d' = change_counter d → (n = 0 → watched d' = watched d) →
  advances d (bump n d').
Proof. intros Hn Hc Hw. exists n. split_and!; [done| |done]. cbn. by rewrite Hc. Qed.

Lemma update_advances {R} (p : R → bool) f (t : list R) :
  count_where p t = 0 → update_where p f t = t.
Proof. rewrite count_where_zero. apply update_where_none. Qed.

Lemma update_status_advances i p s d n d' : update_status i p s d = Ok (n, d') → advances d d'.
Proof.
  intros [= <- <-]. apply bump_advances; [apply count_nonneg|done|]. intros H.
  unfold watched. cbn. by rewrite update_advances.
Qed.
Lemma update_body_advances i b d n d' : update_body i b d = Ok (n, d') → advances d d'.
Proof.
  intros [= <- <-]. apply bump_advances; [apply count_nonneg|done|]. intros H.
  unfold watched. cbn. by rewrite update_advances.
Qed.
Lemma mark_removed_advances c i now d n d' : mark_removed c i now d = Ok (n, d') → advances d d'.
Proof.
  intros [= <- <-]. apply bump_advances; [apply count_nonneg|done|]. intros H.
  unfold watched. cbn. by rewrite update_advances.
Qed.
Lemma insert_conversation_advances i now d n d' :
  insert_conversation_ignore i now d = Ok (n, d') → advances d d'.
Proof. unfold insert_conversation_ignore. case_match; intros [= <- <-]; [done|by apply bump_advances]. Qed.
Lemma insert_inbox_advances x d n d' : insert_inbox_ignore x d = Ok (n, d') → advances d d'.
Proof. unfold insert_inbox_ignore. case_match; intros [= <- <-]; [done|by apply bump_advances]. Qed.
Lemma upsert_member_advances m d n d' : upsert_member m d = Ok (n, d') → advances d d'.
Proof.
  unfold upsert_member. case_match; [|case_match; [done|]]; intros [= <- <-]; by apply bump_advances.
Qed.

(** The other statements are unwatched. *)
Ltac solve_unwatched :=
  repeat first
    [ progress case_match
    | done
    | match goal with H : Ok _ = Ok _ |- _ => injection H as <- <- end ];
  try done; try (apply unwatched_advances; done).

Lemma delete_outbox_advances i d n d' : delete_outbox i d = Ok (n, d') → advances d d'.
Proof. unfold delete_outbox. intros H. solve_unwatched. Qed.
Lemma schedule_retry_advances i t d n d' : schedule_retry i t d = Ok (n, d') → advances d d'.
Proof. unfold schedule_retry. intros H. solve_unwatched. Qed.
Lemma upsert_cursor_advances i z d n d' : upsert_cursor i z d = Ok (n, d') → advances d d'.
Proof. unfold upsert_cursor. intros H. solve_unwatched. Qed.
Lemma insert_blocked_advances b d n d' : insert_blocked_ignore b d = Ok (n, d') → advances d d'.
Proof. unfold insert_blocked_ignore. intros H. solve_unwatched. Qed.
Lemma delete_blocked_advances a d n d' : delete_blocked a d = Ok (n, d') → advances d d'.
Proof. unfold delete_blocked. intros H. solve_unwatched. Qed.
Lemma update_mode_advances z d n d' : update_mode z d = Ok (n, d') → advances d d'.
Proof. unfold update_mode. intros H. solve_unwatched. Qed.
Lemma upsert_relay_advances r d n d' : upsert_relay r d = Ok (n, d') → advances d d'.
Proof. unfold upsert_relay. intros H. solve_unwatched. Qed.
Lemma update_key_version_advances v d n d' : update_key_version v d = Ok (n, d') → advances d d'.
Proof. unfold update_key_version. intros H. solve_unwatched. Qed.

Create HintDb advancing.
#[export] Hint Resolve update_status_advances update_body_advances mark_removed_advances
  insert_conversation_advances insert_inbox_advances upsert_member_advances delete_outbox_advances
  schedule_retry_advances upsert_cursor_advances insert_blocked_advances delete_blocked_advances
  update_mode_advances upsert_relay_advances update_key_version_advances : advancing.

(** ** Operations *)

(** Every sequence of these statements advances, cut short by a failure or not. *)
Ltac keep_advancing :=
  repeat first
    [ apply _
    | apply preserves_bind; [|intros ?]
    | apply preserves_dfold; intros ? ?
    | case_match
    | apply preserves_execute; intros ? ? ? ? Hbefore; transitivity_advances Hbefore ]
with transitivity_advances H := (eapply advances_trans; [exact H|eauto with advancing]).

(** What an operation did to the visible database. *)
Definition moves (c c' : MessengerCore.t) : Prop := advances (current (db c)) (current (db c')).

Lemma direct_moves {A} (body : stmt A) c :
  (∀ d0, Preserves (advances d0) body) → moves c (direct body c).2.
Proof.
  intros Hb. unfold moves, direct, on_db. pose proof (autocommit_current body (db c)) as [_ Hcur].
  destruct (autocommit body (db c)) as [r w]. cbn in *. rewrite Hcur. by apply Hb.
Qed.

Lemma in_transaction_moves {A} (body : stmt A) `{!Faithful CoreError.Database body} c :
  (∀ d a d', run body d = (Ok a, d') → advances d d') → sound c → moves c (in_transaction body c).2.
Proof.
  intros Hb [Hc _]. unfold moves, in_transaction, on_db.
  pose proof (transaction_atomic CoreError.Database body (db c) Hc) as H.
  destruct (transaction _ body (db c)) as [r w]. cbn in *.
  destruct H as [_ [(e & _ & -> & _)|(a & _ & Hr)]]; [done|by eapply Hb].
Qed.
Lemma preserved_moves {A} (body : stmt A) `{!Faithful CoreError.Database body} c :
  (∀ d0, Preserves (advances d0) body) → sound c → moves c (in_transaction body c).2.
Proof.
  intros Hb. apply in_transaction_moves; [done|]. intros d a d' H.
  apply (preserves_run (advances d) body d (Ok a) d'); done.
Qed.

(** The update of the conversation is not under a trigger, but the message before it is. *)
Lemma create_body_advances i conv enc now d a d' :
  run (create_body i conv enc now) d = (Ok a, d') → advances d d'.
Proof.
  intros H. unfold create_body in H. db_inv H. db_inv H. db_inv H. db_inv H. injection H as _ <-.
  apply insert_conversation_advances in Ha as (n & Hn & Hc & _).
  unfold insert_message in Ha0. destruct (_ || _) in Ha0; [done|]. injection Ha0 as <- <-.
  unfold insert_outbox in Ha1. destruct (_ || _) in Ha1; [done|]. injection Ha1 as <- <-. injection Ha2 as <- <-.
  exists (n + 1). split_and!; [lia| |lia]. cbn. rewrite Hc. destruct (change_counter d); cbn; f_equal; lia.
Qed.
Lemma wipe_body_advances d a d' : run wipe_body d = (Ok a, d') → advances d d'.
Proof.
  intros H. unfold wipe_body in H. do 11 (db_inv H). apply run_execute_Ok in H.
  repeat match goal with
    | H : Ok _ = Ok _ |- _ => injection H as <- <-
    | H : (if _ then _ else _) = Ok _ |- _ => destruct (bool_decide _) in H; [|done]
    end.
  by exists 1.
Qed.

Lemma wipe_moves c :
  in_tx (db (wipe_local_account c).2) = false → sound c → moves c (wipe_local_account c).2.
Proof.
  unfold wipe_local_account, on_db, moves, batch, begin_. intros Htx [[Hin Hcur] _].
  destruct c as [[cm cu tx fl] key]. cbn in Hin, Hcur. subst. cbn in *. revert Htx.
  destruct (default false (head fl)); cbn; [done|]. unfold autocommit. cbn.
  assert (Faithful CoreError.Database wipe_body) as Hf by (unfold wipe_body; apply _).
  pose proof (faithful_run (m := wipe_body) (db_error := CoreError.Database) cu (tail fl)) as Hr.
  destruct (wipe_body cu (tail fl)) as [[[a|e] d'] fl']; cbn; [|done].
  destruct Hr as [Hr|Hr]; [done|]. unfold commit. cbn.
  destruct (default false (head fl')); cbn; [done|]. intros _. by eapply wipe_body_advances.
Qed.

Section Histories.
Context `{C : Crypto}.

Lemma rotate_rows_advances active replacement nonces rows d0 :
  Preserves (advances d0) (rotate_rows active replacement nonces rows).
Proof. induction rows; cbn [rotate_rows]; keep_advancing. Qed.
#[local] Existing Instance rotate_rows_advances.

Lemma perform_moves o c :
  (o = Op.Wipe → in_tx (db (perform o c)) = false) → sound c → moves c (perform o c).
Proof.
  intros Hwipe Hs. destruct o; cbn [perform];
    try (apply direct_moves; intros d0; unfold retry_body, cursor_body, cache_body; keep_advancing).
  - unfold create_message. destruct (encrypt _ _ _); [|apply advances_refl].
    apply in_transaction_moves; [unfold create_body; apply _|apply create_body_advances|done].
  - apply preserved_moves; [unfold accepted_body; apply _| |done].
    intros d0. unfold accepted_body. keep_advancing.
  - apply preserved_moves; [unfold cancel_body; apply _| |done].
    intros d0. unfold cancel_body. keep_advancing.
  - unfold ingest_server_batch. destruct (_ <? _); [apply advances_refl|].
    apply preserved_moves; [unfold ingest_body; apply _| |done].
    intros d0. unfold ingest_body, ingest_one. keep_advancing.
  - destruct read; apply direct_moves; intros d0; unfold advance_body; keep_advancing.
  - unfold rotate_master_key. destruct (try_array 32 key) as [replacement|]; [|apply advances_refl].
    assert (Faithful CoreError.Database (rotate_body (master_key c) replacement version nonces))
      by (unfold rotate_body; apply _).
    pose proof (preserved_moves (rotate_body (master_key c) replacement version nonces) c) as H1.
    destruct (in_transaction _ c) as [[u|e] c']; cbn in *; (apply H1; [|done]);
      intros d0; unfold rotate_body; keep_advancing.
  - apply wipe_moves; [by apply Hwipe|done].
Qed.

Lemma migrated_advances d : wf d → advances d (migrated d).
Proof.
  intros (_ & _ & _ & [_ _ (r & Hr & _)]). apply unwatched_advances. split; [|done].
  cbn. by rewrite Hr.
Qed.
Lemma reopened_advances d d' : reopened d d' → wf d → advances d d'.
Proof.
  induction 1 as [d|d d1 d' (fl & key & H) _ IH]; intros Hw; [apply advances_refl|].
  pose proof (open_cases 3 fl d key) as Hc. unfold open_ in H.
  destruct (open_with 3 fl d key) as [r d0]. cbn in H. subst d0.
  destruct Hc as [[-> |[_ ->]] _]; [by apply IH|].
  eapply advances_trans; [by apply migrated_advances|]. by apply IH, migrated_wf.
Qed.
Lemma open_advances fl d key c :
  wf d → (open_ fl d key).1 = Ok c → advances d (current (db c)).
Proof.
  intros Hw Ho. pose proof (open_cases 3 fl d key) as H. unfold open_ in Ho.
  destruct (open_with 3 fl d key) as [r d']. cbn in Ho. subst r.
  destruct H as (_ & _ & _ & -> & _). by apply migrated_advances.
Qed.

(** What a history adds to the file; the connection agrees with the file
    unless it is inside a transaction. *)
Lemma step_moves c c' :
  step c c' → safe c → advances (committed (db c)) (committed (db c')).
Proof.
  intros H Hsafe. pose proof (step_safe _ _ H Hsafe) as [_ Hs']. destruct Hsafe as [Hw Hs].
  destruct H as [o fl c0|fl key c0 d c1 Hd Ho].
  - destruct (in_tx (db c0)) eqn:Htx.
    { destruct (perform_stuck o (with_faults fl c0) Htx) as [_ ->]. apply advances_refl. }
    specialize (Hs eq_refl).
    destruct (perform_sound o (with_faults fl c0) Hs) as [H|(_ & _ & ->)]; [|apply advances_refl].
    pose proof (perform_moves o (with_faults fl c0) (λ _, proj1 (proj1 H)) Hs) as Hm.
    destruct H as [[_ ->] _], Hs as [[_ ->] _]. exact Hm.
  - eapply advances_trans; [by eapply reopened_advances|].
    assert (wf d) as Hwd by by eapply reopened_wf.
    assert (sound c1) as [[_ ->] _] by (eapply open_sound; [by left|exact Ho]).
    by eapply open_advances.
Qed.
Lemma steps_move c c' : steps c c' → safe c → advances (committed (db c)) (committed (db c')).
Proof.
  intros H. induction H as [c|c c1 c' H1 _ IH]; intros Hs; [apply advances_refl|].
  eapply advances_trans; [by apply step_moves|]. by apply IH, (step_safe c).
Qed.

Lemma direct_result {A} (body : stmt A) c :
  (direct body (with_faults [] c)).1 = (run body (current (db c))).1.
Proof.
  unfold direct, on_db. pose proof (autocommit_current body (db (with_faults [] c))) as [H _].
  by destruct (autocommit body _).
Qed.
Lemma observe_run after s c :
  change_counter (current (db c)) = Some s → 0 ≤ s < 2 ^ 63 →
  (observe_conversation_changes after (with_faults [] c)).1 = Ok (Z.max s after).
Proof.
  intros Hs Hb. unfold observe_conversation_changes. rewrite direct_result. unfold run, mbind, dbm_bind, query.
  cbn [head default from_option]. rewrite Hs. cbn -[Z.max as_u64].
  by rewrite as_u64_small by (unfold in_u; lia).
Qed.

(** C25: no change goes unseen.  An observer that asks with a revision it was given
    before is given the current one.  Whatever the store then lives through (any
    operations under any failures, wipes, restarts), asking again gives a revision
    that is no lower, and only if it is the same may the observer keep what it
    shows: the messages, the inbox, the members and the conversations are then the
    same.  The one exception is a connection that a failed wipe has left inside
    its transaction ([in_tx]): it shows rows that are half wiped, and the promise
    is about what is asked before it or after the next restart. *)
Theorem no_change_goes_unseen c c' after s r :
  sound c → steps c c' → in_tx (db c') = false →
  change_counter (current (db c)) = Some s → after ≤ s →
  change_counter (current (db c')) = Some r → r < 2 ^ 63 →
  (observe_conversation_changes after (with_faults [] c)).1 = Ok s
  ∧ (observe_conversation_changes s (with_faults [] c')).1 = Ok r
  ∧ s ≤ r ∧ (r = s → watched (current (db c')) = watched (current (db c))).
Proof.
  intros Hsound Hsteps Htx Hs Ha Hr Hmax.
  assert (sound c') as [[_ Hcc'] _] by (eapply steps_safe; [exact Hsteps|by apply sound_safe|done]).
  destruct (steps_move _ _ Hsteps (sound_safe _ Hsound)) as (n & Hn & Hc & Hw).
  destruct Hsound as [[_ Hcc] (_ & _ & _ & [_ _ (z & Hz & Hz0)])].
  rewrite Hcc, Hcc' in Hc, Hw. rewrite Hs, Hr in Hc. injection Hc as ->.
  rewrite Hs in Hz. injection Hz as <-.
  rewrite (observe_run after s), (observe_run s (s + n)) by (done || lia).
  rewrite !Z.max_l by lia. split_and!; [done|done|lia|]. intros H. apply Hw. lia.
Qed.
End Histories.

(** A message is written, a wipe fails half way, and the store is opened again,
    the first attempt failing. *)
Definition reopened_store : MessengerCore.t :=
  quiet_core (committed (db sample_store)) (fill 32 7).

Lemma no_change_goes_unseen_witness :
  (observe_conversation_changes 0 (with_faults [] fresh_store)).1 = Ok 0
  ∧ (observe_conversation_changes 0 (with_faults [] reopened_store)).1 = Ok 2
  ∧ 0 ≤ 2.
Proof.
  destruct (no_change_goes_unseen (C := toy_crypto) fresh_store reopened_store 0 0 2)
    as (H1 & H2 & H3 & _).
  - apply fresh_store_sound.
  - eapply rtc_l; [apply (step_op (C := toy_crypto) sample_create [] fresh_store)|].
    eapply rtc_l; [apply (step_op (C := toy_crypto) Op.Wipe [false; true])|].
    apply rtc_once. eapply (step_restart (C := toy_crypto) [] (replicate 32 (z2b 7))).
    + apply rtc_once. by exists [true], (replicate 32 (z2b 7)).
    + by vm_compute.
  - done.
  - reflexivity.
  - done.
  - by vm_compute.
  - done.
  - done.
Defined.
