(* ===== verification/Locks.v ===== *)
(** * Locks: the two locks of MessengerCore

    [MessengerCore] guards its connection with a [Mutex] and its key with an
    [RwLock].  This file models the lock actions of the operations of
    crates/messenger-core/src/lib.rs, in program order, and the interleavings
    of any number of threads that run them. *)
From Stdlib Require Import ZArith Lia.
From stdpp Require Import base list relations.
From S2P Require Import Prelude.

Inductive action := LockDb | UnlockDb | ReadKey | UnreadKey | WriteKey | UnwriteKey.

Inductive key_guard := NoGuard | ReadGuard | WriteGuard.
#[export] Instance key_guard_eq_dec : EqDecision key_guard.
Proof. solve_decision. Defined.

(** A thread: the guards it holds and the actions it still has to do. *)
Record thread := Thread { holds_db : bool; holds_key : key_guard; todo : list action }.

Definition start (program : list action) : thread := Thread false NoGuard program.
Definition finished (t : thread) : Prop := todo t = [].

(** May a thread do the action, given the guards the others hold? *)
Definition enabled (others : list thread) (a : action) : bool :=
  match a with
  | LockDb => forallb (λ t, negb (holds_db t)) others
  | ReadKey => forallb (λ t, match holds_key t with WriteGuard => false | _ => true end) others
  | WriteKey => forallb (λ t, match holds_key t with NoGuard => true | _ => false end) others
  | UnlockDb | UnreadKey | UnwriteKey => true
  end.

Definition perform_action (a : action) (t : thread) (rest : list action) : thread :=
  match a with
  | LockDb => Thread true (holds_key t) rest
  | UnlockDb => Thread false (holds_key t) rest
  | ReadKey => Thread (holds_db t) ReadGuard rest
  | WriteKey => Thread (holds_db t) WriteGuard rest
  | UnreadKey | UnwriteKey => Thread (holds_db t) NoGuard rest
  end.

(** One thread takes its next action. *)
Inductive step : list thread → list thread → Prop :=
| step_thread l t r a rest :
    todo t = a :: rest → enabled (l ++ r) a = true →
    step (l ++ t :: r) (l ++ perform_action a t rest :: r).
Definition steps : list thread → list thread → Prop := rtc step.

Definition stuck (s : list thread) : Prop :=
  (∃ t, t ∈ s ∧ ¬ finished t) ∧ ∀ s', ¬ step s s'.

(** ** The operations

    [create_message] drops its read guard when the encryption statement ends;
    [list_messages] and [local_search] take the read guard per row, inside the
    database guard; [rotate_master_key] takes the database guard inside the
    write guard; every other operation takes the database guard alone. *)
Definition create_message_locks : list action := [ReadKey; UnreadKey; LockDb; UnlockDb].
Definition list_messages_locks (rows : nat) : list action :=
  [LockDb] ++ concat (replicate rows [ReadKey; UnreadKey]) ++ [UnlockDb].
Definition local_search_locks (rows : nat) : list action := list_messages_locks rows.
Definition rotate_master_key_locks : list action := [WriteKey; LockDb; UnlockDb; UnwriteKey].
Definition database_locks : list action := [LockDb; UnlockDb].

(** ** Lock order *)

(** The rest of a program is well bracketed from the guards held and never asks
    for the key while holding the database. *)
Fixpoint ordered (db : bool) (key : key_guard) (p : list action) : bool :=
  match p with
  | [] => negb db && match key with NoGuard => true | _ => false end
  | LockDb :: p' => negb db && ordered true key p'
  | UnlockDb :: p' => db && ordered false key p'
  | ReadKey :: p' =>
      negb db && match key with NoGuard => ordered db ReadGuard p' | _ => false end
  | WriteKey :: p' =>
      negb db && match key with NoGuard => ordered db WriteGuard p' | _ => false end
  | UnreadKey :: p' => match key with ReadGuard => ordered db NoGuard p' | _ => false end
  | UnwriteKey :: p' => match key with WriteGuard => ordered db NoGuard p' | _ => false end
  end.
Definition well_ordered (t : thread) : Prop := ordered (holds_db t) (holds_key t) (todo t) = true.

Lemma step_well_ordered s s' : step s s' → Forall well_ordered s → Forall well_ordered s'.
Proof.
  intros [l t r a rest Ht _] Hs. rewrite !Forall_app, !Forall_cons in *.
  destruct Hs as (Hl & Hw & Hr). split_and!; [done| |done].
  unfold well_ordered in *. rewrite Ht in Hw.
  destruct t as [db key p], a; cbn in *; destruct db, key; done.
Qed.

Lemma steps_well_ordered s s' : steps s s' → Forall well_ordered s → Forall well_ordered s'.
Proof. induction 1; eauto using step_well_ordered. Qed.

(** A guard holder has something left to do. *)
Lemma holder_unfinished t :
  well_ordered t → holds_db t = true ∨ holds_key t ≠ NoGuard → ¬ finished t.
Proof.
  unfold well_ordered, finished. intros Hw Hh Hf. rewrite Hf in Hw. cbn in Hw.
  destruct t as [db key p]. cbn in *. destruct db, key; try done. by destruct Hh.
Qed.

Lemma can_step s t a rest :
  t ∈ s → todo t = a :: rest → (∀ others, others ⊆ s → enabled others a = true) → ∃ s', step s s'.
Proof.
  intros (l & r & ->)%list_elem_of_split Ht Hen. eexists. apply (step_thread _ _ _ a rest Ht).
  apply Hen. intros x. rewrite !elem_of_app, elem_of_cons. tauto.
Qed.

(** With every thread well ordered, some unfinished thread can always move. *)
Lemma ordered_progress s :
  Forall well_ordered s → (∃ t, t ∈ s ∧ ¬ finished t) → ∃ s', step s s'.
Proof.
  intros Hs (t & Ht & Hf). rewrite Forall_forall in Hs.
  assert (Hrelease : ∀ x a rest, x ∈ s → todo x = a :: rest →
    a = UnlockDb ∨ a = UnreadKey ∨ a = UnwriteKey → ∃ s', step s s').
  { intros x a rest Hx Ha Hr. apply (can_step s x a rest); [done..|].
    intros others _. by destruct_or! Hr; subst a. }
  destruct (decide (Exists (λ x, holds_db x = true) s)) as [Hdb|Hdb].
  - (* the holder of the database can release something *)
    apply Exists_exists in Hdb as (x & Hx & Hh). specialize (Hs x Hx).
    destruct (todo x) as [|a rest] eqn:Ha.
    { exfalso. eapply holder_unfinished; [exact Hs|by left|done]. }
    apply (Hrelease x a rest); [done..|]. unfold well_ordered in Hs. rewrite Ha, Hh in Hs.
    destruct a; cbn in Hs; auto; done.
  - (* nobody holds the database *)
    assert (Hfree : ∀ x, x ∈ s → holds_db x = false).
    { intros x Hx. destruct (holds_db x) eqn:E; [|done]. destruct Hdb.
      apply Exists_exists. by exists x. }
    destruct (decide (Exists (λ x, holds_key x ≠ NoGuard) s)) as [Hkey|Hkey].
    + (* a holder of the key asks for the database or releases *)
      apply Exists_exists in Hkey as (x & Hx & Hh). pose proof (Hs x Hx) as Hw.
      destruct (todo x) as [|a rest] eqn:Ha.
      { exfalso. eapply holder_unfinished; [exact Hw|by right|done]. }
      unfold well_ordered in Hw. rewrite Ha, (Hfree x Hx) in Hw.
      destruct a; cbn in Hw; try done; try (by destruct (holds_key x));
        try (by apply (Hrelease x _ rest Hx Ha); auto).
      apply (can_step s x LockDb rest); [done..|]. intros others Ho.
      apply forallb_forall. intros y Hy. rewrite Hfree; [done|]. by apply Ho, list_elem_of_In.
    + (* nobody holds anything *)
      assert (Hnone : ∀ x, x ∈ s → holds_key x = NoGuard).
      { intros x Hx. destruct (holds_key x) eqn:E; [done|..]; destruct Hkey;
          apply Exists_exists; exists x; by rewrite E. }
      destruct (todo t) as [|a rest] eqn:Ha; [by destruct Hf|].
      apply (can_step s t a rest); [done..|]. intros others Ho.
      destruct a; try done; apply forallb_forall; intros y Hy;
        apply list_elem_of_In, Ho in Hy; by rewrite ?Hfree, ?Hnone.
Qed.

(** ** Without a rotation *)

(** The rest of a program is well bracketed for the database and never writes the
    key. *)
Fixpoint reading (db : bool) (p : list action) : bool :=
  match p with
  | [] => negb db
  | LockDb :: p' => negb db && reading true p'
  | UnlockDb :: p' => db && reading false p'
  | (ReadKey | UnreadKey) :: p' => reading db p'
  | (WriteKey | UnwriteKey) :: p' => false
  end.
Definition reader (t : thread) : Prop :=
  reading (holds_db t) (todo t) = true ∧ holds_key t ≠ WriteGuard.

Lemma step_reader s s' : step s s' → Forall reader s → Forall reader s'.
Proof.
  intros [l t r a rest Ht _] Hs. rewrite !Forall_app, !Forall_cons in *.
  destruct Hs as (Hl & (Hw & Hk) & Hr). split_and!; [done| |done].
  unfold reader in *. rewrite Ht in Hw. destruct t as [db key p], a; cbn in *; destruct db, key; done.
Qed.

Lemma reader_progress s : Forall reader s → (∃ t, t ∈ s ∧ ¬ finished t) → ∃ s', step s s'.
Proof.
  intros Hs (t & Ht & Hf). rewrite Forall_forall in Hs.
  assert (Hkey : ∀ others, others ⊆ s → enabled others ReadKey = true).
  { intros others Ho. apply forallb_forall. intros y Hy%list_elem_of_In%Ho.
    destruct (Hs y Hy) as [_ Hk]. by destruct (holds_key y). }
  destruct (decide (Exists (λ x, holds_db x = true) s)) as [Hdb|Hdb].
  - apply Exists_exists in Hdb as (x & Hx & Hh). destruct (Hs x Hx) as [Hr _]. rewrite Hh in Hr.
    destruct (todo x) as [|a rest] eqn:Ha; [done|].
    apply (can_step s x a rest); [done..|]. intros others Ho. destruct a; try done. by apply Hkey.
  - destruct (todo t) as [|a rest] eqn:Ha; [by destruct Hf|]. destruct (Hs t Ht) as [Hr _].
    apply (can_step s t a rest); [done..|]. intros others Ho. rewrite Ha in Hr.
    destruct a; try done; [|by apply Hkey].
    apply forallb_forall. intros y Hy%list_elem_of_In%Ho.
    destruct (holds_db y) eqn:E; [|done]. destruct Hdb. apply Exists_exists. by exists y.
Qed.

(** ** Every action is done once *)

Definition remaining (s : list thread) : nat := sum_list_with (length ∘ todo) s.

Lemma step_remaining s s' : step s s' → remaining s = S (remaining s').
Proof.
  intros [l t r a rest Ht _]. unfold remaining. rewrite !sum_list_with_app. cbn. rewrite Ht. destruct a; cbn; lia.
Qed.

(** ** Properties *)

Inductive operation := CreateMessage | ListMessages (rows : nat) | LocalSearch (rows : nat)
| RotateMasterKey | DatabaseOnly.
Definition locks_of (o : operation) : list action :=
  match o with
  | CreateMessage => create_message_locks
  | ListMessages rows => list_messages_locks rows
  | LocalSearch rows => local_search_locks rows
  | RotateMasterKey => rotate_master_key_locks
  | DatabaseOnly => database_locks
  end.
(** Does it take the key while it holds the database? *)
Definition reads_rows (o : operation) : bool :=
  match o with ListMessages (S _) | LocalSearch (S _) => true | _ => false end.

Lemma list_messages_reading rows : reading false (list_messages_locks rows) = true.
Proof. cbn. induction rows; done. Qed.

Lemma locks_of_reader o : o ≠ RotateMasterKey → reader (start (locks_of o)).
Proof. intros Ho. split; [|done]. destruct o; try done; apply list_messages_reading. Qed.
Lemma locks_of_ordered o : reads_rows o = false → well_ordered (start (locks_of o)).
Proof. by destruct o as [|[]|[]| |]. Qed.

(** C12: The operations of the core terminate on any number of threads and under any
    schedule, unless one of them lists or searches messages while another rotates
    the key: each step of a run leaves one action less to do, and as long as some
    thread is not finished, some thread can move. *)
Theorem operations_terminate (ops : list operation) (n : nat) s :
  RotateMasterKey ∉ ops ∨ (∀ o, o ∈ ops → reads_rows o = false) →
  nsteps step n (start ∘ locks_of <$> ops) s →
  (n + remaining s = sum_list_with (length ∘ locks_of) ops)%nat
  ∧ (Forall finished s ∧ n = sum_list_with (length ∘ locks_of) ops ∨ ∃ s', step s s').
Proof.
  intros Hops Hrun.
  assert (Hsum : remaining (start ∘ locks_of <$> ops) = sum_list_with (length ∘ locks_of) ops)
    by (clear; induction ops as [|o ops IH]; [done|cbn in *; by rewrite <- IH]).
  assert (Hn : (n + remaining s = sum_list_with (length ∘ locks_of) ops)%nat).
  { rewrite <- Hsum. clear Hsum Hops. induction Hrun as [s|n s s1 s' Hs _ IH]; [done|].
    rewrite (step_remaining _ _ Hs). lia. }
  split; [done|].
  destruct (decide (Forall (λ t, todo t = []) s)) as [Hf|Hf].
  { left. split; [done|]. rewrite <- Hn. replace (remaining s) with 0%nat; [lia|]. clear -Hf.
    induction Hf as [|t s Ht _ IH]; [done|]. unfold remaining in *. cbn. by rewrite Ht, <- IH. }
  right. apply not_Forall_Exists, Exists_exists in Hf as (t & Ht & Hnf); [|apply _].
  assert (Hs : steps (start ∘ locks_of <$> ops) s) by (apply rtc_nsteps; eauto).
  destruct Hops as [Hno|Hno].
  - apply reader_progress; [|by exists t]. revert Hs. 
    assert (H0 : Forall reader (start ∘ locks_of <$> ops)).
    { apply Forall_fmap, Forall_forall. intros o Ho. apply locks_of_reader. by intros ->. }
    intros Hs. clear -Hs H0. induction Hs; eauto using step_reader.
  - apply ordered_progress; [|by exists t]. apply (steps_well_ordered _ _ Hs).
    apply Forall_fmap, Forall_forall. intros o Ho. by apply locks_of_ordered, Hno.
Qed.

(** C32: listing (or searching) a conversation with at least one message while
    another thread rotates the key can deadlock: the listing holds the database
    and waits for the key, the rotation holds the key and waits for the
    database, and neither can ever move again. *)
Theorem listing_rotation_deadlock rows :
  ∃ s, steps [start (list_messages_locks (S rows)); start rotate_master_key_locks] s ∧ stuck s.
Proof.
  set (p := [ReadKey; UnreadKey] ++ concat (replicate rows [ReadKey; UnreadKey]) ++ [UnlockDb]).
  exists [Thread true NoGuard p; Thread false WriteGuard [LockDb; UnlockDb; UnwriteKey]].
  split; [|split].
  - eapply rtc_l.
    + apply (step_thread [] (start (list_messages_locks (S rows))) [start rotate_master_key_locks]
        LockDb p); reflexivity.
    + apply rtc_once.
      apply (step_thread [Thread true NoGuard p] (start rotate_master_key_locks) []
        WriteKey [LockDb; UnlockDb; UnwriteKey]); reflexivity.
  - eexists. split; [left|]. done.
  - intros s' Hs'. inversion Hs' as [l t r a rest Ht Hen E Es']. subst s'.
    destruct l as [|t1 [|t2 l]]; cbn in E.
    + injection E as -> ->. cbn in Ht. injection Ht as <- <-. done.
    + injection E as -> -> ->. cbn in Ht. injection Ht as <- <-. done.
    + injection E as _ _ E. by destruct l.
Qed.

(** A thread of the witness takes its next action. *)
Ltac take l t r :=
  eapply nsteps_l; [eapply (step_thread l t r); reflexivity|cbn [app perform_action]].

(** A rotation waits for a message that is being encrypted. *)
Lemma operations_terminate_witness :
  ∃ s, nsteps step 8 (start ∘ locks_of <$> [CreateMessage; RotateMasterKey]) s ∧ Forall finished s.
Proof.
  assert (H : nsteps step 8 (start ∘ locks_of <$> [CreateMessage; RotateMasterKey]) [start []; start []]).
  { pose (rotation := start rotate_master_key_locks).
    take (@nil thread) (start create_message_locks) [rotation].
    take (@nil thread) (Thread false ReadGuard [UnreadKey; LockDb; UnlockDb]) [rotation].
    take [start [LockDb; UnlockDb]] rotation (@nil thread).
    pose (rotating := Thread false WriteGuard [LockDb; UnlockDb; UnwriteKey]).
    take (@nil thread) (start [LockDb; UnlockDb]) [rotating].
    take (@nil thread) (Thread true NoGuard [UnlockDb]) [rotating].
    take [start []] rotating (@nil thread).
    take [start []] (Thread true WriteGuard [UnlockDb; UnwriteKey]) (@nil thread).
    take [start []] (Thread false WriteGuard [UnwriteKey]) (@nil thread). constructor. }
  exists [start []; start []]. split; [exact H|].
  destruct (operations_terminate [CreateMessage; RotateMasterKey] 8 [start []; start []]) as [Hn [[Hf _]|(s' & Hs)]].
  - right. intros o Ho. repeat (apply elem_of_cons in Ho as [->|Ho]; [reflexivity|]).
    by apply not_elem_of_nil in Ho.
  - exact H.
  - exact Hf.
  - by apply step_remaining in Hs.
Defined.
