(* ===== verification/Identity.v ===== *)
(** * Identity: accounts, device certificates, invitations and recovery

    Models crates/messenger-identity/src/lib.rs.  A signing key is its 32
    secret bytes; random bytes and the clock are arguments.  The unicode
    tables and the BIP-39 word list are not in the repository: they are the
    interfaces [Unicode] and [Bip39], with the documented behaviour the code
    relies on as [UnicodeLaws] and [Bip39Laws]. *)
From Stdlib Require Import ZArith Lia.
From stdpp Require Import base list strings.
From S2P Require Import Prelude Protocol Crypto.

Definition ACCOUNT_ID_DOMAIN : bytes := lit "resilient/account-id/v1".

Module IdentityError.
Inductive t := InvalidInput | CryptographicFailure.
#[export] Instance t_eq_dec : EqDecision t.
Proof. solve_decision. Defined.
End IdentityError.

Module DeviceCertificate.
Record t := Make {
  device_id : Id; device_public_key : array 32; issued_at : Z; signature : array 64
}.
End DeviceCertificate.
Module SignedInvite.
Record t := Make {
  version : Z; account_id : array 32; fingerprint : array 16; expires_at : option Z;
  signature : array 64
}.
Definition set_expires_at (e : option Z) (i : t) : t :=
  Make (version i) (account_id i) (fingerprint i) e (signature i).
End SignedInvite.

(** ** Text *)

(** A string as its sequence of Unicode scalar values. *)
Abbreviation text := (list Z).
Definition chars (s : string) : text := b2z <$> lit s.
Arguments chars s%_string.

Class Unicode : Type := {
  (** [str::nfkc] *)
  nfkc : text → text;
  (** [char::to_lowercase] *)
  to_lowercase : Z → text
}.
Class UnicodeLaws {U : Unicode} : Prop := {
  nfkc_ascii t : Forall (λ c, 0 ≤ c < 128) t → nfkc t = t;
  to_lowercase_ascii c :
    0 ≤ c < 128 → to_lowercase c = if (65 <=? c) && (c <=? 90) then [c + 32] else [c];
  to_lowercase_lower c x : x ∈ to_lowercase c → ¬ 65 ≤ x ≤ 90
}.
Arguments UnicodeLaws U : clear implicits.

(** [char::is_control] and [char::is_ascii_alphanumeric]. *)
Definition is_control (c : Z) : bool :=
  ((0 <=? c) && (c <=? 31)) || ((127 <=? c) && (c <=? 159)).
Definition is_ascii_alphanumeric (c : Z) : bool :=
  ((48 <=? c) && (c <=? 57)) || ((65 <=? c) && (c <=? 90)) || ((97 <=? c) && (c <=? 122)).

Definition username_char (c : Z) : bool :=
  negb (is_control c || negb (is_ascii_alphanumeric c || (c =? 95) || (c =? 46))).

Definition canonical_username `{U : Unicode} (input : text) : result IdentityError.t text :=
  let v := flat_map to_lowercase (nfkc input) in
  let count := Z.of_nat (length v) in
  if negb ((3 <=? count) && (count <=? 32)) || existsb (λ c, negb (username_char c)) v
  then Err IdentityError.InvalidInput
  else Ok v.

(** ** Accounts and device certificates *)
Section Certificates.
Context `{C : Crypto}.

Definition account_id_from_root_public (root_public : array 32) : array 32 :=
  sha256 (ACCOUNT_ID_DOMAIN ++ arr root_public).
Definition account_id (root : array 32) : array 32 := account_id_from_root_public (sk_public root).

Definition device_certificate_signing_payload (cert : DeviceCertificate.t) : bytes :=
  arr (DeviceCertificate.device_id cert) ++ arr (DeviceCertificate.device_public_key cert)
  ++ be_bytes 8 (DeviceCertificate.issued_at cert).

Definition sign_device_certificate (root device : array 32) (id : Id) (issued : Z)
    : DeviceCertificate.t :=
  let v := arr id ++ arr (sk_public device) ++ be_bytes 8 issued in
  DeviceCertificate.Make id (sk_public device) issued (sk_sign root v).

Definition verify_device_certificate (root_public : array 32) (cert : DeviceCertificate.t) : bool :=
  if vk_valid root_public then
    let v := arr (DeviceCertificate.device_id cert)
             ++ arr (DeviceCertificate.device_public_key cert)
             ++ be_bytes 8 (DeviceCertificate.issued_at cert) in
    vk_verify root_public v (DeviceCertificate.signature cert)
  else false.

(** [create_account] with the generated keys, device id and time. *)
Definition create_account (root device : array 32) (id : Id) (issued : Z)
    : array 32 * array 32 * DeviceCertificate.t :=
  (root, device, sign_device_certificate root device id issued).

(** The first 16 bytes of an array of 32. *)
Lemma take_16_length (a : array 32) : length (take 16 (arr a)) = 16%nat.
Proof. by rewrite length_take, array_length. Qed.
Definition first_16 (a : array 32) : array 16 := make (take 16 (arr a)) (take_16_length a).

Definition device_certificate_fingerprint (cert : DeviceCertificate.t) : array 16 :=
  first_16 (sha256 (lit "resilient/device-certificate-fingerprint/v1"
    ++ device_certificate_signing_payload cert ++ arr (DeviceCertificate.signature cert))).

Definition auth_challenge_payload (challenge_id : Id) (challenge : array 32) : bytes :=
  lit "resilient/auth-challenge/v1" ++ arr challenge_id ++ arr challenge.
Definition refresh_proof_payload (refresh_token : array 32) : bytes :=
  lit "resilient/refresh-proof/v1" ++ arr refresh_token.
End Certificates.

(** ** Recovery *)

(** The bip39 crate: mnemonics, their entropy, and their English text. *)
Class Bip39 : Type := {
  mnemonic : Type;
  to_entropy : mnemonic → bytes;
  (** [Mnemonic::generate_in(English, 24)] on its 32 random bytes *)
  generate : array 32 → mnemonic;
  to_string : mnemonic → text;
  parse_in_normalized : text → option mnemonic
}.
Class Bip39Laws {B : Bip39} : Prop := {
  parse_to_string m : parse_in_normalized (to_string m) = Some m
}.
Arguments Bip39Laws B : clear implicits.

Section Recovery.
Context `{C : Crypto} `{B : Bip39}.

Definition generate_recovery_phrase (entropy : array 32) : mnemonic := generate entropy.

Definition recovery_identifier (phrase : mnemonic) : array 32 :=
  sha256 (lit "resilient/recovery-id/v1" ++ to_entropy phrase).

Definition recovery_key (phrase : mnemonic) : array 32 :=
  hkdf_sha256 (lit "resilient/recovery/salt/v1") (to_entropy phrase) (lit "recovery-blob").

Definition encrypt_recovery_blob (nonce : array 24) (phrase : mnemonic) (plaintext : bytes)
    : result IdentityError.t bytes :=
  c ← ok_or (aead_encrypt (recovery_key phrase) nonce [] plaintext)
    IdentityError.CryptographicFailure;
  Ok (arr nonce ++ c).

Definition decrypt_recovery_blob (phrase : mnemonic) (blob : bytes)
    : result IdentityError.t bytes :=
  if len blob <? 24 then Err IdentityError.InvalidInput
  else
    match try_array 24 (take 24 blob) with
    | None => Err IdentityError.InvalidInput
    | Some nonce =>
        ok_or (aead_decrypt (recovery_key phrase) nonce [] (drop 24 blob))
          IdentityError.CryptographicFailure
    end.

Record RecoveryPackage := MakeRecoveryPackage {
  phrase : mnemonic; package_identifier : array 32; encrypted_root : bytes
}.

Definition create_recovery_package (entropy : array 32) (nonce : array 24) (root : array 32)
    : result IdentityError.t RecoveryPackage :=
  let phrase := generate_recovery_phrase entropy in
  encrypted_root ← encrypt_recovery_blob nonce phrase (arr root);
  Ok (MakeRecoveryPackage phrase (recovery_identifier phrase) encrypted_root).

Definition restore_account_root (phrase : text) (encrypted_root : bytes)
    : result IdentityError.t (array 32) :=
  phrase ← ok_or (parse_in_normalized phrase) IdentityError.InvalidInput;
  bytes ← decrypt_recovery_blob phrase encrypted_root;
  ok_or (try_array 32 bytes) IdentityError.InvalidInput.
End Recovery.

(** ** Invitations *)
Section Invites.
Context `{C : Crypto}.

Definition sign_invite (root : array 32) (expires_at : option Z) : SignedInvite.t :=
  let id := account_id root in
  let fp := first_16 (sk_public root) in
  let v := [z2b 1] ++ arr id ++ arr fp ++ be_bytes 8 (default 0 expires_at) in
  SignedInvite.Make 1 id fp expires_at (sk_sign root v).

Definition verify_invite (root_public : array 32) (invite : SignedInvite.t) (at_ : Z) : bool :=
  if negb (SignedInvite.version invite =? 1)
     || match SignedInvite.expires_at invite with Some x => x <? at_ | None => false end
  then false
  else if vk_valid root_public then
    let v := [z2b (SignedInvite.version invite)] ++ arr (SignedInvite.account_id invite)
             ++ arr (SignedInvite.fingerprint invite)
             ++ be_bytes 8 (default 0 (SignedInvite.expires_at invite)) in
    vk_verify root_public v (SignedInvite.signature invite)
  else false.

Definition QR_MAGIC : bytes := lit "RMQ1".

Definition encode_qr_payload (root : array 32) (invite : SignedInvite.t)
    : result IdentityError.t bytes :=
  let public := sk_public root in
  if negb (verify_invite public invite 0)
     || negb (bool_decide (account_id root = SignedInvite.account_id invite))
  then Err IdentityError.InvalidInput
  else Ok (QR_MAGIC ++ arr public ++ [z2b (SignedInvite.version invite)]
           ++ arr (SignedInvite.account_id invite) ++ arr (SignedInvite.fingerprint invite)
           ++ [z2b (if SignedInvite.expires_at invite is Some _ then 1 else 0)]
           ++ be_bytes 8 (default 0 (SignedInvite.expires_at invite))
           ++ arr (SignedInvite.signature invite)).

(** [value[from..to].try_into()] *)
Definition slice (n from : nat) (value : bytes) : result IdentityError.t (array n) :=
  ok_or (try_array n (take n (drop from value))) IdentityError.InvalidInput.
(** [value[i]], the index being in bounds. *)
Definition byte_at (i : nat) (value : bytes) : Z := from_be (take 1 (drop i value)).

Definition decode_and_verify_qr_payload (value : bytes) (at_ : Z)
    : result IdentityError.t (array 32 * SignedInvite.t) :=
  if negb (len value =? 158) || negb (bool_decide (take 4 value = QR_MAGIC))
  then Err IdentityError.InvalidInput
  else
    root_public ← slice 32 4 value;
    let has_expiry := byte_at 85 value in
    if 1 <? has_expiry then Err IdentityError.InvalidInput
    else
      expiry ← slice 8 86 value;
      account_id ← slice 32 37 value;
      fingerprint ← slice 16 69 value;
      signature ← slice 64 94 value;
      let invite := SignedInvite.Make (byte_at 36 value) account_id fingerprint
        (if has_expiry =? 1 then Some (from_be (arr (n := 8) expiry)) else None) signature in
      if verify_invite root_public invite at_
         && bool_decide (account_id_from_root_public root_public = SignedInvite.account_id invite)
      then Ok (root_public, invite)
      else Err IdentityError.InvalidInput.
End Invites.

(** ** Theorems *)

Lemma username_char_spec c :
  username_char c = true ↔
  48 ≤ c ≤ 57 ∨ 65 ≤ c ≤ 90 ∨ 97 ≤ c ≤ 122 ∨ c = 95 ∨ c = 46.
Proof. unfold username_char, is_control, is_ascii_alphanumeric. lia. Qed.

Lemma to_lowercase_fixed `{U : Unicode} (L : UnicodeLaws U) v :
  Forall (λ c, 0 ≤ c < 128 ∧ ¬ 65 ≤ c ≤ 90) v → flat_map to_lowercase v = v.
Proof.
  induction 1 as [|c v [Hc Hu] _ IH]; [done|]. cbn [flat_map].
  rewrite to_lowercase_ascii, IH by done.
  by destruct (Z.leb_spec 65 c), (Z.leb_spec c 90); try lia.
Qed.

(** A canonical username has 3 to 32 characters, each a lower-case ASCII
    letter, a digit, an underscore or a dot, and is its own canonical form: the
    spellings of a name form one class with one representative, so uniqueness
    of the stored names is uniqueness up to spelling. *)
Theorem canonical_username_canonical `{U : Unicode} (L : UnicodeLaws U) input v :
  canonical_username input = Ok v →
  3 ≤ Z.of_nat (length v) ≤ 32
  ∧ Forall (λ c, 48 ≤ c ≤ 57 ∨ 97 ≤ c ≤ 122 ∨ c = 95 ∨ c = 46) v
  ∧ canonical_username v = Ok v.
Proof.
  unfold canonical_username. set (w := flat_map to_lowercase (nfkc input)).
  destruct (_ || _) eqn:E; [done|]. intros [= <-].
  apply orb_false_iff in E as [Hn Hc].
  assert (Hv : Forall (λ c, 48 ≤ c ≤ 57 ∨ 97 ≤ c ≤ 122 ∨ c = 95 ∨ c = 46) w).
  { apply Forall_forall. intros c Hin.
    assert (Hl : ¬ 65 ≤ c ≤ 90).
    { subst w. rewrite list_elem_of_In in Hin. apply in_flat_map in Hin as (x & _ & Hx).
      apply (to_lowercase_lower x). by rewrite list_elem_of_In. }
    assert (Hu : username_char c = true).
    { destruct (username_char c) eqn:E; [done|]. apply not_true_iff_false in Hc.
      destruct Hc. apply existsb_exists. exists c. rewrite <- list_elem_of_In, E. done. }
    apply username_char_spec in Hu. lia. }
  split_and!; [lia|lia|done|].
  rewrite nfkc_ascii by (eapply Forall_impl; [exact Hv|]; cbn; lia).
  rewrite to_lowercase_fixed by (done || (eapply Forall_impl; [exact Hv|]; cbn; lia)).
  by rewrite Hn, Hc.
Qed.

(** The ASCII fragment of the tables. *)
#[export] Instance ascii_unicode : Unicode := {|
  nfkc t := t;
  to_lowercase c := if (65 <=? c) && (c <=? 90) then [c + 32] else [c]
|}.
#[export] Instance ascii_unicode_laws : UnicodeLaws ascii_unicode.
Proof.
  constructor; [done|done|]. cbn. intros c x.
  destruct (_ && _) eqn:E; rewrite list_elem_of_singleton; intros ->; lia.
Qed.

Lemma canonical_username_canonical_witness :
  canonical_username (chars "teSt") = Ok (chars "test")
  ∧ canonical_username (chars "test") = Ok (chars "test").
Proof.
  assert (H : canonical_username (chars "teSt") = Ok (chars "test")) by reflexivity.
  split; [exact H|]. exact (proj2 (proj2 (canonical_username_canonical _ _ _ H))).
Defined.

Section CertificateTheorems.
Context `{C : Crypto} (L : CryptoLaws C).

Lemma sign_verify_device_certificate root device id issued :
  verify_device_certificate (sk_public root) (sign_device_certificate root device id issued) = true.
Proof using L.
  unfold verify_device_certificate, sign_device_certificate.
  rewrite sk_public_valid. apply sk_sign_verify.
Qed.
End CertificateTheorems.

Section RecoveryTheorems.
Context `{C : Crypto} (L : CryptoLaws C) `{B : Bip39} (BL : Bip39Laws B).

Lemma recovery_blob_roundtrip nonce phrase p b :
  encrypt_recovery_blob nonce phrase p = Ok b → decrypt_recovery_blob phrase b = Ok p.
Proof using L.
  unfold encrypt_recovery_blob. intros (c & Hc & [= <-])%bind_Ok. apply ok_or_Ok in Hc.
  unfold decrypt_recovery_blob, len. rewrite length_app, array_length.
  destruct (Z.ltb_spec (Z.of_nat (24 + length c)) 24); [lia|].
  rewrite take_app_length' by (by rewrite array_length). rewrite try_array_arr.
  rewrite drop_app_length' by (by rewrite array_length).
  by rewrite (aead_round_trip _ _ _ _ _ Hc).
Qed.

(** A recovery package restores the account: the printed phrase and the
    encrypted blob give back the root key, hence the same account id, and the
    package is filed under the identifier of that phrase. *)
Theorem recovery_roundtrip entropy nonce root p :
  create_recovery_package entropy nonce root = Ok p →
  restore_account_root (to_string (phrase p)) (encrypted_root p) = Ok root
  ∧ package_identifier p = recovery_identifier (phrase p)
  ∧ (∀ words, parse_in_normalized words = None →
       restore_account_root words (encrypted_root p) = Err IdentityError.InvalidInput)
  ∧ ∀ words blob, parse_in_normalized words = Some (phrase p) → len blob < 24 →
      restore_account_root words blob = Err IdentityError.InvalidInput.
Proof using L BL.
  unfold create_recovery_package. intros (b & Hb & [= <-])%bind_Ok. cbn.
  pose proof (recovery_blob_roundtrip _ _ _ _ Hb) as Hd.
  unfold restore_account_root. split_and!; [|done|..].
  - rewrite parse_to_string. cbn. rewrite Hd. cbn. by rewrite try_array_arr.
  - intros words ->. done.
  - intros words blob -> Hl. cbn. unfold decrypt_recovery_blob.
    by destruct (Z.ltb_spec (len blob) 24); [|lia].
Qed.
End RecoveryTheorems.

(** *** A concrete recovery: mnemonics are 32 bytes of entropy *)
Section ToyBip39.
Definition toy_print (m : array 32) : text := b2z <$> arr m.
Definition toy_parse (t : text) : option (array 32) :=
  if bool_decide (Forall (λ c, 0 ≤ c < 256) t) then try_array 32 (z2b <$> t) else None.

Lemma toy_parse_print m : toy_parse (toy_print m) = Some m.
Proof.
  unfold toy_parse, toy_print. rewrite bool_decide_eq_true_2.
  - rewrite <- list_fmap_compose. rewrite (list_fmap_ext _ id) by (intros _ b _; apply z2b_b2z).
    rewrite list_fmap_id. apply try_array_arr.
  - apply Forall_fmap, Forall_forall. intros b _. apply b2z_range.
Qed.
End ToyBip39.

#[export] Instance toy_bip39 : Bip39 := {|
  mnemonic := array 32; to_entropy := arr; generate e := e;
  to_string := toy_print; parse_in_normalized := toy_parse
|}.
#[export] Instance toy_bip39_laws : Bip39Laws toy_bip39.
Proof. constructor. apply toy_parse_print. Qed.

Lemma recovery_roundtrip_witness :
  ∃ p, create_recovery_package (fill 32 1) (fill 24 2) (fill 32 3) = Ok p
  ∧ restore_account_root (to_string (phrase p)) (encrypted_root p) = Ok (fill 32 3).
Proof.
  eexists. split; [reflexivity|].
  refine (proj1 (recovery_roundtrip toy_crypto_laws toy_bip39_laws
    (fill 32 1) (fill 24 2) (fill 32 3) _ _)). reflexivity.
Defined.

(** *** QR payloads *)

Lemma slice_head n (a : array n) v : slice n 0 (arr a ++ v) = Ok a.
Proof.
  unfold slice. rewrite drop_0, take_app_length' by (by rewrite array_length).
  by rewrite try_array_arr.
Qed.
Lemma slice_skip n from p v :
  (length p ≤ from)%nat → slice n from (p ++ v) = slice n (from - length p) v.
Proof. intros H. unfold slice. by rewrite drop_app_ge. Qed.
Lemma byte_at_head z v : 0 ≤ z < 256 → byte_at 0 (z2b z :: v) = z.
Proof.
  intros H. unfold byte_at. change (take 1 (drop 0 (z2b z :: v))) with [z2b z].
  cbn [from_be length]. rewrite b2z_z2b_small by done. change (256 ^ Z.of_nat 0) with 1. lia.
Qed.
Lemma byte_at_skip i p v :
  (length p ≤ i)%nat → byte_at i (p ++ v) = byte_at (i - length p) v.
Proof. intros H. unfold byte_at. by rewrite drop_app_ge. Qed.

Ltac qr_length := rewrite ?length_app, ?array_length; reflexivity.

Section InviteTheorems.
Context `{C : Crypto}.

Definition not_expired (i : SignedInvite.t) (at_ : Z) : bool :=
  match SignedInvite.expires_at i with Some x => at_ <=? x | None => true end.

Lemma verify_invite_at pk i at_ :
  verify_invite pk i at_ = true →
  ∀ at', verify_invite pk i at' = not_expired i at'.
Proof.
  unfold verify_invite, not_expired. intros H at'.
  destruct (SignedInvite.version i =? 1); [|done]. cbn in *.
  destruct (SignedInvite.expires_at i) as [x|]; [|done].
  destruct (Z.ltb_spec x at_); [done|]. destruct (Z.ltb_spec x at'), (Z.leb_spec at' x); done || lia.
Qed.

Lemma verify_invite_version pk i at_ : verify_invite pk i at_ = true → SignedInvite.version i = 1.
Proof. unfold verify_invite. by destruct (Z.eqb_spec (SignedInvite.version i) 1). Qed.

(** Reading the fields of a laid-out payload. *)
Lemma decode_layout pk ver aid fp flag (e : array 8) sig at_ :
  0 ≤ ver < 256 → 0 ≤ flag ≤ 1 →
  let v := QR_MAGIC ++ arr pk ++ [z2b ver] ++ arr aid ++ arr fp ++ [z2b flag] ++ arr e ++ arr sig in
  let i := SignedInvite.Make ver aid fp (if flag =? 1 then Some (from_be e) else None) sig in
  len v = 158
  ∧ decode_and_verify_qr_payload v at_ =
      if verify_invite pk i at_ && bool_decide (account_id_from_root_public pk = aid)
      then Ok (pk, i) else Err IdentityError.InvalidInput.
Proof.
  intros Hver Hflag v i.
  assert (Hlen : len v = 158).
  { subst v. unfold len. rewrite !length_app, !array_length. reflexivity. }
  split; [done|]. unfold decode_and_verify_qr_payload. rewrite Hlen.
  assert (Ht : take 4 v = QR_MAGIC) by (by apply take_app_length').
  rewrite (bool_decide_eq_true_2 _ Ht). cbn [negb orb Z.eqb Pos.eqb].
  assert (Hskip : ∀ n (a : array n) from p r, (from = length p)%nat →
    slice n from (p ++ arr a ++ r) = Ok a).
  { intros n a from p r ->. rewrite slice_skip, Nat.sub_diag by done. apply slice_head. }
  assert (Hbyte : ∀ z i p r, (i = length p)%nat → 0 ≤ z < 256 → byte_at i (p ++ [z2b z] ++ r) = z).
  { intros z j p r -> Hz. rewrite byte_at_skip, Nat.sub_diag by done. by apply byte_at_head. }
  pose proof (Hskip _ pk 4%nat QR_MAGIC ([z2b ver] ++ arr aid ++ arr fp ++ [z2b flag]
    ++ arr e ++ arr sig) eq_refl) as H1.
  pose proof (Hbyte ver 36%nat (QR_MAGIC ++ arr pk) (arr aid ++ arr fp ++ [z2b flag]
    ++ arr e ++ arr sig) ltac:(qr_length) Hver) as H2.
  pose proof (Hskip _ aid 37%nat (QR_MAGIC ++ arr pk ++ [z2b ver])
    (arr fp ++ [z2b flag] ++ arr e ++ arr sig) ltac:(qr_length)) as H3.
  pose proof (Hskip _ fp 69%nat (QR_MAGIC ++ arr pk ++ [z2b ver] ++ arr aid)
    ([z2b flag] ++ arr e ++ arr sig) ltac:(qr_length)) as H4.
  pose proof (Hbyte flag 85%nat (QR_MAGIC ++ arr pk ++ [z2b ver] ++ arr aid ++ arr fp)
    (arr e ++ arr sig) ltac:(qr_length) ltac:(lia)) as H5.
  pose proof (Hskip _ e 86%nat (QR_MAGIC ++ arr pk ++ [z2b ver] ++ arr aid ++ arr fp
    ++ [z2b flag]) (arr sig) ltac:(qr_length)) as H6.
  pose proof (Hskip _ sig 94%nat (QR_MAGIC ++ arr pk ++ [z2b ver] ++ arr aid ++ arr fp
    ++ [z2b flag] ++ arr e) [] ltac:(qr_length)) as H7.
  rewrite <- !app_assoc in H2. rewrite <- !app_assoc in H3. rewrite <- !app_assoc in H4.
  rewrite <- !app_assoc in H5. rewrite <- !app_assoc in H6. rewrite <- !app_assoc, app_nil_r in H7.
  fold v in H1, H2, H3, H4, H5, H6, H7.
  rewrite H1. cbn [mbind result_bind]. rewrite H5.
  destruct (Z.ltb_spec 1 flag); [lia|]. by rewrite H6, H3, H4, H7, H2.
Qed.

(** An invitation that can be put in a QR code reads back as itself, under
    the root key it names, at every time up to its expiry, and is refused
    afterwards. *)
Theorem qr_roundtrip root invite v :
  in_u 64 (default 0 (SignedInvite.expires_at invite)) →
  encode_qr_payload root invite = Ok v →
  len v = 158
  ∧ ∀ at_, decode_and_verify_qr_payload v at_ =
      if not_expired invite at_ then Ok (sk_public root, invite) else Err IdentityError.InvalidInput.
Proof.
  intros Hx. unfold encode_qr_payload.
  destruct (verify_invite _ _ _) eqn:Hv; [|done].
  destruct (bool_decide_reflect (account_id root = SignedInvite.account_id invite)) as [Ha|]; [|done].
  cbn [negb orb]. intros [= <-]. pose proof (verify_invite_version _ _ _ Hv) as H1.
  destruct invite as [version aid fp expiry sig]. cbn in Hx, Ha, H1 |- *. subst version.
  set (e := make (n := 8) (be_bytes 8 (default 0 expiry)) (length_be_bytes 8 _)).
  change (be_bytes 8 (default 0 expiry)) with (arr e).
  assert (He : from_be (arr e) = default 0 expiry) by (by apply from_be_be_bytes_small).
  pose proof (λ at_, decode_layout (sk_public root) 1 aid fp (if expiry is Some _ then 1 else 0) e
    sig at_ ltac:(lia) ltac:(by destruct expiry)) as H. cbv zeta in H.
  split; [exact (proj1 (H 0))|]. intros at_. refine (eq_trans (proj2 (H at_)) _). rewrite He.
  replace (if (if expiry is Some _ then 1 else 0) =? 1 then Some (default 0 expiry) else None)
    with expiry by (by destruct expiry).
  change (account_id_from_root_public (sk_public root)) with (account_id root).
  rewrite (bool_decide_eq_true_2 _ Ha), andb_true_r. by rewrite (verify_invite_at _ _ _ Hv at_).
Qed.

(** The signature of an invitation does not cover whether it expires: one
    issued with expiry 0 verifies at no later time, and the same signature
    verifies for ever once the expiry is left out. *)
Theorem invite_expiry_presence_unsigned (L : CryptoLaws C) root :
  let invite := sign_invite root (Some 0) in
  (∀ at_, 0 < at_ → verify_invite (sk_public root) invite at_ = false)
  ∧ ∀ at_, verify_invite (sk_public root) (SignedInvite.set_expires_at None invite) at_ = true.
Proof.
  assert (H : verify_invite (sk_public root) (sign_invite root (Some 0)) 0 = true).
  { unfold verify_invite, sign_invite. cbn. rewrite sk_public_valid. apply sk_sign_verify. }
  split.
  - intros at_ Hat. rewrite (verify_invite_at _ _ _ H). cbn. lia.
  - intros at_. unfold verify_invite, sign_invite. cbn. rewrite sk_public_valid. apply sk_sign_verify.
Qed.

Lemma sign_invite_encodes (L : CryptoLaws C) root expiry :
  default 0 expiry >= 0 →
  ∃ v, encode_qr_payload root (sign_invite root expiry) = Ok v.
Proof.
  intros Hx. unfold encode_qr_payload, verify_invite, sign_invite. cbn.
  replace (if expiry is Some x then x <? 0 else false) with false
    by (destruct expiry; cbn in *; [symmetry; lia|done]).
  rewrite sk_public_valid, sk_sign_verify, bool_decide_eq_true_2 by done. cbn. eauto.
Qed.
End InviteTheorems.

Lemma qr_roundtrip_witness :
  ∃ v, encode_qr_payload (fill 32 7) (sign_invite (fill 32 7) (Some 60)) = Ok v
  ∧ decode_and_verify_qr_payload v 60
    = Ok (sk_public (fill 32 7), sign_invite (fill 32 7) (Some 60))
  ∧ decode_and_verify_qr_payload v 61 = Err IdentityError.InvalidInput.
Proof.
  destruct (sign_invite_encodes toy_crypto_laws (fill 32 7) (Some 60) ltac:(cbn; lia)) as [v Hv].
  exists v. split; [exact Hv|].
  pose proof (proj2 (qr_roundtrip (fill 32 7) (sign_invite (fill 32 7) (Some 60)) v
    ltac:(cbn; unfold in_u; lia) Hv)) as H.
  split; [exact (H 60)|exact (H 61)].
Defined.

Lemma invite_expiry_presence_unsigned_witness :
  verify_invite (fill 32 7)
    (SignedInvite.set_expires_at None (sign_invite (fill 32 7) (Some 0))) 1000 = true.
Proof. exact (proj2 (invite_expiry_presence_unsigned toy_crypto_laws (fill 32 7)) 1000). Defined.
