(* ===== verification/CoreDb.v ===== *)
(** * CoreDb: the PostgreSQL schema of core-api

    The tables of services/core-api/migrations/0001_foundation.sql that
    services/core-api/src/lib.rs uses, with their constraints, the statements
    the operations issue, and transactions as PostgreSQL runs them: a rollback
    undoes everything but the identity sequence of [group_events].  Times are
    microseconds; a BYTEA column with a length CHECK is an array.  The
    operations are in the file CoreApi. *)
From Stdlib Require Import ZArith Lia.
From stdpp Require Import base list strings.
From S2P Require Import Prelude Protocol Crypto DirectoryTool Sql Identity.

Module ApiError.
Inductive t :=
| InvalidCredentials | Expired | Replay | TokenReuse | Conflict | Unauthorized
| CursorRegression | InvalidInput | Database.
#[export] Instance t_eq_dec : EqDecision t.
Proof. solve_decision. Defined.
End ApiError.

(** ** Rows *)
Module Account.
Record t := Make {
  account_id : array 32; root_public_key : array 32;
  recovery_identifier : option (array 32); recovery_blob : option bytes
}.
Definition set_recovery (i : array 32) (blob : bytes) (a : t) : t :=
  Make (account_id a) (root_public_key a) (Some i) (Some blob).
End Account.
Module Device.
Record t := Make {
  device_id : Id; account_id : array 32; device_public_key : array 32; revoked_at : option Z
}.
End Device.
Module Certificate.
Record t := Make { device_id : Id; certificate_signature : array 64; issued_at : Z }.
End Certificate.
Module Username.
Record t := Make { canonical_username : text; account_id : array 32; released_at : option Z }.
Definition set_released (now : Z) (u : t) : t :=
  Make (canonical_username u) (account_id u) (Some now).
End Username.
Module Cooldown.
Record t := Make {
  canonical_username : text; previous_account_id : array 32; release_after : Z
}.
End Cooldown.
Module AuthChallenge.
Record t := Make {
  challenge_id : Id; device_id : Id; challenge : array 32; expires_at : Z;
  consumed_at : option Z
}.
Definition set_consumed (now : Z) (c : t) : t :=
  Make (challenge_id c) (device_id c) (challenge c) (expires_at c) (Some now).
End AuthChallenge.
Module AccessSession.
Record t := Make { token_hash : array 32; device_id : Id; expires_at : Z }.
End AccessSession.
Module RefreshSession.
Record t := Make {
  token_hash : array 32; family_id : Id; device_id : Id;
  replaced_by_hash : option (array 32); expires_at : Z;
  used_at : option Z; revoked_at : option Z
}.
Definition set_revoked (now : Z) (r : t) : t :=
  Make (token_hash r) (family_id r) (device_id r) (replaced_by_hash r) (expires_at r)
    (used_at r) (Some (default now (revoked_at r))).
Definition set_used (now : Z) (next : array 32) (r : t) : t :=
  Make (token_hash r) (family_id r) (device_id r) (Some next) (expires_at r)
    (Some now) (revoked_at r).
End RefreshSession.
Module KeyPackage.
Record t := Make {
  package_id : Id; device_id : Id; package : bytes; consumed_at : option Z; created_at : Z
}.
Definition set_consumed (now : Z) (k : t) : t :=
  Make (package_id k) (device_id k) (package k) (Some now) (created_at k).
End KeyPackage.
Module Group.
Record t := Make { group_id : Id; created_by_device_id : Id }.
End Group.
Module GroupMember.
Record t := Make {
  group_id : Id; device_id : Id; account_id : array 32; role : Z; removed_at : option Z
}.
Definition key (m : t) : Id * Id := (group_id m, device_id m).
Definition set_removed (now : Z) (m : t) : t :=
  Make (group_id m) (device_id m) (account_id m) (role m) (Some now).
End GroupMember.
Module MembershipRow.
Record t := Make {
  correlation_id : Id; group_id : Id; author_device_id : Id; operation : bytes;
  signature : bytes; applied_at : option Z
}.
Definition set_applied (now : Z) (m : t) : t :=
  Make (correlation_id m) (group_id m) (author_device_id m) (operation m) (signature m)
    (Some now).
End MembershipRow.
Module GroupEvent.
Record t := Make {
  event_cursor : Z; event_id : Id; group_id : Id; author_device_id : Id;
  client_message_id : Id; correlation_id : option Id; event_kind : Z;
  ciphertext : bytes; expires_at : Z
}.
Definition dedup_key (e : t) : Id * Id := (author_device_id e, client_message_id e).
End GroupEvent.
Module Welcome.
Record t := Make {
  welcome_id : Id; target_device_id : Id; group_id : Id; welcome : bytes;
  expires_at : Z; consumed_at : option Z
}.
Definition set_consumed (now : Z) (w : t) : t :=
  Make (welcome_id w) (target_device_id w) (group_id w) (welcome w) (expires_at w) (Some now).
End Welcome.
Module GroupCursor.
Record t := Make { device_id : Id; group_id : Id; cursor : Z }.
Definition key (c : t) : Id * Id := (device_id c, group_id c).
End GroupCursor.
Module Receipt.
Record t := Make { event_id : Id; device_id : Id; receipt_type : Z }.
End Receipt.
#[export] Instance receipt_eq_dec : EqDecision Receipt.t.
Proof. solve_decision. Defined.
Module AbuseCounter.
Record t := Make { scope : bytes; window_start : Z; count : Z }.
End AbuseCounter.

(** ** The database *)
Module Db.
Record t := Make {
  accounts : list Account.t;
  devices : list Device.t;
  device_certificates : list Certificate.t;
  usernames : list Username.t;
  username_cooldowns : list Cooldown.t;
  auth_challenges : list AuthChallenge.t;
  access_sessions : list AccessSession.t;
  refresh_sessions : list RefreshSession.t;
  key_packages : list KeyPackage.t;
  groups : list Group.t;
  group_members : list GroupMember.t;
  membership_operations : list MembershipRow.t;
  group_events : list GroupEvent.t;
  event_seq : Z;
  welcome_mailbox : list Welcome.t;
  device_group_cursors : list GroupCursor.t;
  message_receipts : list Receipt.t;
  abuse_counters : list AbuseCounter.t;
  notifications : list bytes;
  schema_created : bool;
  schema_migrations : list (Z * bytes)
}.

Definition set_accounts (v : list Account.t) (d : t) : t :=
  Make v (devices d) (device_certificates d) (usernames d) (username_cooldowns d)
    (auth_challenges d) (access_sessions d) (refresh_sessions d) (key_packages d)
    (groups d) (group_members d) (membership_operations d) (group_events d) (event_seq
    d) (welcome_mailbox d) (device_group_cursors d) (message_receipts d) (abuse_counters
    d) (notifications d) (schema_created d) (schema_migrations d).
Definition set_devices (v : list Device.t) (d : t) : t :=
  Make (accounts d) v (device_certificates d) (usernames d) (username_cooldowns d)
    (auth_challenges d) (access_sessions d) (refresh_sessions d) (key_packages d)
    (groups d) (group_members d) (membership_operations d) (group_events d) (event_seq
    d) (welcome_mailbox d) (device_group_cursors d) (message_receipts d) (abuse_counters
    d) (notifications d) (schema_created d) (schema_migrations d).
Definition set_device_certificates (v : list Certificate.t) (d : t) : t :=
  Make (accounts d) (devices d) v (usernames d) (username_cooldowns d)
    (auth_challenges d) (access_sessions d) (refresh_sessions d) (key_packages d)
    (groups d) (group_members d) (membership_operations d) (group_events d) (event_seq
    d) (welcome_mailbox d) (device_group_cursors d) (message_receipts d) (abuse_counters
    d) (notifications d) (schema_created d) (schema_migrations d).
Definition set_usernames (v : list Username.t) (d : t) : t :=
  Make (accounts d) (devices d) (device_certificates d) v (username_cooldowns d)
    (auth_challenges d) (access_sessions d) (refresh_sessions d) (key_packages d)
    (groups d) (group_members d) (membership_operations d) (group_events d) (event_seq
    d) (welcome_mailbox d) (device_group_cursors d) (message_receipts d) (abuse_counters
    d) (notifications d) (schema_created d) (schema_migrations d).
Definition set_username_cooldowns (v : list Cooldown.t) (d : t) : t :=
  Make (accounts d) (devices d) (device_certificates d) (usernames d) v
    (auth_challenges d) (access_sessions d) (refresh_sessions d) (key_packages d)
    (groups d) (group_members d) (membership_operations d) (group_events d) (event_seq
    d) (welcome_mailbox d) (device_group_cursors d) (message_receipts d) (abuse_counters
    d) (notifications d) (schema_created d) (schema_migrations d).
Definition set_auth_challenges (v : list AuthChallenge.t) (d : t) : t :=
  Make (accounts d) (devices d) (device_certificates d) (usernames d)
    (username_cooldowns d) v (access_sessions d) (refresh_sessions d) (key_packages d)
    (groups d) (group_members d) (membership_operations d) (group_events d) (event_seq
    d) (welcome_mailbox d) (device_group_cursors d) (message_receipts d) (abuse_counters
    d) (notifications d) (schema_created d) (schema_migrations d).
Definition set_access_sessions (v : list AccessSession.t) (d : t) : t :=
  Make (accounts d) (devices d) (device_certificates d) (usernames d)
    (username_cooldowns d) (auth_challenges d) v (refresh_sessions d) (key_packages d)
    (groups d) (group_members d) (membership_operations d) (group_events d) (event_seq
    d) (welcome_mailbox d) (device_group_cursors d) (message_receipts d) (abuse_counters
    d) (notifications d) (schema_created d) (schema_migrations d).
Definition set_refresh_sessions (v : list RefreshSession.t) (d : t) : t :=
  Make (accounts d) (devices d) (device_certificates d) (usernames d)
    (username_cooldowns d) (auth_challenges d) (access_sessions d) v (key_packages d)
    (groups d) (group_members d) (membership_operations d) (group_events d) (event_seq
    d) (welcome_mailbox d) (device_group_cursors d) (message_receipts d) (abuse_counters
    d) (notifications d) (schema_created d) (schema_migrations d).
Definition set_key_packages (v : list KeyPackage.t) (d : t) : t :=
  Make (accounts d) (devices d) (device_certificates d) (usernames d)
    (username_cooldowns d) (auth_challenges d) (access_sessions d) (refresh_sessions d)
    v (groups d) (group_members d) (membership_operations d) (group_events d) (event_seq
    d) (welcome_mailbox d) (device_group_cursors d) (message_receipts d) (abuse_counters
    d) (notifications d) (schema_created d) (schema_migrations d).
Definition set_groups (v : list Group.t) (d : t) : t :=
  Make (accounts d) (devices d) (device_certificates d) (usernames d)
    (username_cooldowns d) (auth_challenges d) (access_sessions d) (refresh_sessions d)
    (key_packages d) v (group_members d) (membership_operations d) (group_events d)
    (event_seq d) (welcome_mailbox d) (device_group_cursors d) (message_receipts d)
    (abuse_counters d) (notifications d) (schema_created d) (schema_migrations d).
Definition set_group_members (v : list GroupMember.t) (d : t) : t :=
  Make (accounts d) (devices d) (device_certificates d) (usernames d)
    (username_cooldowns d) (auth_challenges d) (access_sessions d) (refresh_sessions d)
    (key_packages d) (groups d) v (membership_operations d) (group_events d) (event_seq
    d) (welcome_mailbox d) (device_group_cursors d) (message_receipts d) (abuse_counters
    d) (notifications d) (schema_created d) (schema_migrations d).
Definition set_membership_operations (v : list MembershipRow.t) (d : t) : t :=
  Make (accounts d) (devices d) (device_certificates d) (usernames d)
    (username_cooldowns d) (auth_challenges d) (access_sessions d) (refresh_sessions d)
    (key_packages d) (groups d) (group_members d) v (group_events d) (event_seq d)
    (welcome_mailbox d) (device_group_cursors d) (message_receipts d) (abuse_counters d)
    (notifications d) (schema_created d) (schema_migrations d).
Definition set_group_events (v : list GroupEvent.t) (d : t) : t :=
  Make (accounts d) (devices d) (device_certificates d) (usernames d)
    (username_cooldowns d) (auth_challenges d) (access_sessions d) (refresh_sessions d)
    (key_packages d) (groups d) (group_members d) (membership_operations d) v (event_seq
    d) (welcome_mailbox d) (device_group_cursors d) (message_receipts d) (abuse_counters
    d) (notifications d) (schema_created d) (schema_migrations d).
Definition set_event_seq (v : Z) (d : t) : t :=
  Make (accounts d) (devices d) (device_certificates d) (usernames d)
    (username_cooldowns d) (auth_challenges d) (access_sessions d) (refresh_sessions d)
    (key_packages d) (groups d) (group_members d) (membership_operations d)
    (group_events d) v (welcome_mailbox d) (device_group_cursors d) (message_receipts d)
    (abuse_counters d) (notifications d) (schema_created d) (schema_migrations d).
Definition set_welcome_mailbox (v : list Welcome.t) (d : t) : t :=
  Make (accounts d) (devices d) (device_certificates d) (usernames d)
    (username_cooldowns d) (auth_challenges d) (access_sessions d) (refresh_sessions d)
    (key_packages d) (groups d) (group_members d) (membership_operations d)
    (group_events d) (event_seq d) v (device_group_cursors d) (message_receipts d)
    (abuse_counters d) (notifications d) (schema_created d) (schema_migrations d).
Definition set_device_group_cursors (v : list GroupCursor.t) (d : t) : t :=
  Make (accounts d) (devices d) (device_certificates d) (usernames d)
    (username_cooldowns d) (auth_challenges d) (access_sessions d) (refresh_sessions d)
    (key_packages d) (groups d) (group_members d) (membership_operations d)
    (group_events d) (event_seq d) (welcome_mailbox d) v (message_receipts d)
    (abuse_counters d) (notifications d) (schema_created d) (schema_migrations d).
Definition set_message_receipts (v : list Receipt.t) (d : t) : t :=
  Make (accounts d) (devices d) (device_certificates d) (usernames d)
    (username_cooldowns d) (auth_challenges d) (access_sessions d) (refresh_sessions d)
    (key_packages d) (groups d) (group_members d) (membership_operations d)
    (group_events d) (event_seq d) (welcome_mailbox d) (device_group_cursors d) v
    (abuse_counters d) (notifications d) (schema_created d) (schema_migrations d).
Definition set_abuse_counters (v : list AbuseCounter.t) (d : t) : t :=
  Make (accounts d) (devices d) (device_certificates d) (usernames d)
    (username_cooldowns d) (auth_challenges d) (access_sessions d) (refresh_sessions d)
    (key_packages d) (groups d) (group_members d) (membership_operations d)
    (group_events d) (event_seq d) (welcome_mailbox d) (device_group_cursors d)
    (message_receipts d) v (notifications d) (schema_created d) (schema_migrations d).
Definition set_notifications (v : list bytes) (d : t) : t :=
  Make (accounts d) (devices d) (device_certificates d) (usernames d)
    (username_cooldowns d) (auth_challenges d) (access_sessions d) (refresh_sessions d)
    (key_packages d) (groups d) (group_members d) (membership_operations d)
    (group_events d) (event_seq d) (welcome_mailbox d) (device_group_cursors d)
    (message_receipts d) (abuse_counters d) v (schema_created d) (schema_migrations d).
Definition set_schema_created (v : bool) (d : t) : t :=
  Make (accounts d) (devices d) (device_certificates d) (usernames d)
    (username_cooldowns d) (auth_challenges d) (access_sessions d) (refresh_sessions d)
    (key_packages d) (groups d) (group_members d) (membership_operations d)
    (group_events d) (event_seq d) (welcome_mailbox d) (device_group_cursors d)
    (message_receipts d) (abuse_counters d) (notifications d) v (schema_migrations d).
Definition set_schema_migrations (v : list (Z * bytes)) (d : t) : t :=
  Make (accounts d) (devices d) (device_certificates d) (usernames d)
    (username_cooldowns d) (auth_challenges d) (access_sessions d) (refresh_sessions d)
    (key_packages d) (groups d) (group_members d) (membership_operations d)
    (group_events d) (event_seq d) (welcome_mailbox d) (device_group_cursors d)
    (message_receipts d) (abuse_counters d) (notifications d) (schema_created d) v.

(** A cluster before its first migration; identity columns start at 1. *)
Definition empty : t :=
  Make [] [] [] [] [] [] [] [] [] [] [] [] [] 1 [] [] [] [] [] false [].
End Db.
Import Db.

Abbreviation stmt := (dbm Db.t ApiError.t).
Abbreviation exec := (execute ApiError.Database).
Abbreviation ask := (query ApiError.Database).
Abbreviation write := (result ApiError.t (Z * Db.t)).

(** [make_interval(secs=>s)] *)
Definition seconds (s : Z) : Z := s * 1000000.

(** ** Transactions *)

(** How the code leaves an open transaction: [tx.commit()] and then the
    result, or a [return] that drops it. *)
Inductive outcome (A : Type) : Type :=
| Commit (r : result ApiError.t A)
| Drop (r : result ApiError.t A).
Arguments Commit {A} _.
Arguments Drop {A} _.

(** Identity values are not given back by a rollback. *)
Definition pg_rollback (w : world Db.t) : world Db.t :=
  let d := set_event_seq (event_seq (current w)) (committed w) in World d d false (faults w).

Definition pg_transaction {A} (body : stmt (outcome A)) (w : world Db.t)
    : result ApiError.t A * world Db.t :=
  match begin_ ApiError.Database w with
  | (Err e, w) => (Err e, w)
  | (Ok _, w) =>
      match autocommit body w with
      | (Err e, w) => (Err e, pg_rollback w)
      | (Ok (Drop r), w) => (r, pg_rollback w)
      | (Ok (Commit r), w) =>
          match commit ApiError.Database w with
          | (Err e, w) => (Err e, pg_rollback w)
          | (Ok _, w) => (r, w)
          end
      end
  end.

(** ** Statements *)

Definition is_none {A} (o : option A) : bool := if o is None then true else false.
(** A write that affects one row or violates a constraint. *)
Definition guarded (ok : bool) (d : Db.t) : write :=
  if ok then Ok (1, d) else Err ApiError.Database.

Definition account_is (i : array 32) (a : Account.t) : bool := bool_decide (Account.account_id a = i).
Definition device_is (i : Id) (x : Device.t) : bool := bool_decide (Device.device_id x = i).
Definition certificate_is (i : Id) (c : Certificate.t) : bool :=
  bool_decide (Certificate.device_id c = i).
Definition username_is (n : text) (u : Username.t) : bool :=
  bool_decide (Username.canonical_username u = n).
Definition cooldown_is (n : text) (c : Cooldown.t) : bool :=
  bool_decide (Cooldown.canonical_username c = n).
Definition challenge_is (i : Id) (c : AuthChallenge.t) : bool :=
  bool_decide (AuthChallenge.challenge_id c = i).
Definition access_is (h : array 32) (a : AccessSession.t) : bool :=
  bool_decide (AccessSession.token_hash a = h).
Definition refresh_is (h : array 32) (r : RefreshSession.t) : bool :=
  bool_decide (RefreshSession.token_hash r = h).
Definition package_is (i : Id) (k : KeyPackage.t) : bool := bool_decide (KeyPackage.package_id k = i).
Definition group_is (i : Id) (g : Group.t) : bool := bool_decide (Group.group_id g = i).
Definition member_is (g i : Id) (m : GroupMember.t) : bool :=
  bool_decide (GroupMember.key m = (g, i)).
Definition operation_is (i : Id) (m : MembershipRow.t) : bool :=
  bool_decide (MembershipRow.correlation_id m = i).
Definition event_is (i : Id) (e : GroupEvent.t) : bool := bool_decide (GroupEvent.event_id e = i).
Definition dedup_is (a c : Id) (e : GroupEvent.t) : bool :=
  bool_decide (GroupEvent.dedup_key e = (a, c)).
Definition welcome_is (i : Id) (w : Welcome.t) : bool := bool_decide (Welcome.welcome_id w = i).
Definition cursor_is (x g : Id) (c : GroupCursor.t) : bool :=
  bool_decide (GroupCursor.key c = (x, g)).
Definition counter_is (s : bytes) (c : AbuseCounter.t) : bool :=
  bool_decide (AbuseCounter.scope c = s).

Definition has_account (i : array 32) (d : Db.t) : bool := exists_where (account_is i) (accounts d).
Definition has_device (i : Id) (d : Db.t) : bool := exists_where (device_is i) (devices d).
Definition has_group (i : Id) (d : Db.t) : bool := exists_where (group_is i) (groups d).

(** [device_id=$1 AND revoked_at IS NULL] *)
Definition active_device (i : Id) (x : Device.t) : bool :=
  device_is i x && is_none (Device.revoked_at x).
(** [group_id=$1 AND device_id=$2 AND removed_at IS NULL] *)
Definition active_member (g i : Id) (m : GroupMember.t) : bool :=
  member_is g i m && is_none (GroupMember.removed_at m).

(** *** Accounts and devices *)

(** [ON CONFLICT(account_id) DO NOTHING]: the UNIQUE root key still fails. *)
Definition insert_account_ignore (i root : array 32) (d : Db.t) : write :=
  if has_account i d then Ok (0, d)
  else guarded (negb (exists_where (λ a, bool_decide (Account.root_public_key a = root)) (accounts d)))
    (set_accounts (accounts d ++ [Account.Make i root None None]) d).

Definition insert_device (i : Id) (account public : array 32) (d : Db.t) : write :=
  guarded (negb (has_device i d) && has_account account d
           && negb (exists_where (λ x, bool_decide (Device.account_id x = account
                ∧ Device.device_public_key x = public)) (devices d)))
    (set_devices (devices d ++ [Device.Make i account public None]) d).

Definition insert_certificate (i : Id) (sig : array 64) (issued : Z) (d : Db.t) : write :=
  guarded (negb (exists_where (certificate_is i) (device_certificates d)) && has_device i d
           && (0 <=? issued))
    (set_device_certificates (device_certificates d ++ [Certificate.Make i sig issued]) d).

Definition recoverable (i recovery : array 32) (a : Account.t) : bool :=
  account_is i a && match Account.recovery_identifier a with
                    | None => true
                    | Some r => bool_decide (r = recovery)
                    end.
Definition update_recovery (i recovery : array 32) (blob : bytes) (d : Db.t) : write :=
  let n := count_where (recoverable i recovery) (accounts d) in
  if (0 <? n) && exists_where (λ a, negb (account_is i a)
       && bool_decide (Account.recovery_identifier a = Some recovery)) (accounts d)
  then Err ApiError.Database
  else Ok (n, set_accounts (update_where (recoverable i recovery)
         (Account.set_recovery recovery blob) (accounts d)) d).

(** *** Sessions *)

Definition insert_challenge (c : AuthChallenge.t) (d : Db.t) : write :=
  guarded (negb (exists_where (challenge_is (AuthChallenge.challenge_id c)) (auth_challenges d))
           && negb (exists_where (λ x, bool_decide (AuthChallenge.challenge x = AuthChallenge.challenge c))
                (auth_challenges d))
           && has_device (AuthChallenge.device_id c) d)
    (set_auth_challenges (auth_challenges d ++ [c]) d).
Definition consume_challenge (i : Id) (now : Z) (d : Db.t) : write :=
  Ok (count_where (challenge_is i) (auth_challenges d),
      set_auth_challenges (update_where (challenge_is i) (AuthChallenge.set_consumed now)
        (auth_challenges d)) d).
Definition select_challenge (i : Id) (d : Db.t)
    : result ApiError.t (option (AuthChallenge.t * Device.t)) :=
  Ok (c ← find_where (challenge_is i) (auth_challenges d);
      x ← find_where (device_is (AuthChallenge.device_id c)) (devices d); Some (c, x)).

Definition insert_access (a : AccessSession.t) (d : Db.t) : write :=
  guarded (negb (exists_where (access_is (AccessSession.token_hash a)) (access_sessions d))
           && has_device (AccessSession.device_id a) d)
    (set_access_sessions (access_sessions d ++ [a]) d).
Definition insert_refresh (r : RefreshSession.t) (d : Db.t) : write :=
  guarded (negb (exists_where (refresh_is (RefreshSession.token_hash r)) (refresh_sessions d))
           && has_device (RefreshSession.device_id r) d)
    (set_refresh_sessions (refresh_sessions d ++ [r]) d).
Definition select_refresh (hash : array 32) (device : Id) (d : Db.t)
    : result ApiError.t (option (RefreshSession.t * Device.t)) :=
  Ok (r ← find_where (λ r, refresh_is hash r && bool_decide (RefreshSession.device_id r = device))
        (refresh_sessions d);
      x ← find_where (device_is (RefreshSession.device_id r)) (devices d); Some (r, x)).
Definition family_is (f : Id) (r : RefreshSession.t) : bool :=
  bool_decide (RefreshSession.family_id r = f).
Definition revoke_family (f : Id) (now : Z) (d : Db.t) : write :=
  Ok (count_where (family_is f) (refresh_sessions d),
      set_refresh_sessions (update_where (family_is f) (RefreshSession.set_revoked now)
        (refresh_sessions d)) d).
Definition use_refresh (hash next : array 32) (now : Z) (d : Db.t) : write :=
  let n := count_where (refresh_is hash) (refresh_sessions d) in
  if (0 <? n) && negb (exists_where (refresh_is next) (refresh_sessions d))
  then Err ApiError.Database
  else Ok (n, set_refresh_sessions (update_where (refresh_is hash)
         (RefreshSession.set_used now next) (refresh_sessions d)) d).

(** [$1] is unexpired and its device is not revoked. *)
Definition select_access (hash : array 32) (now : Z) (d : Db.t) : result ApiError.t (option Id) :=
  Ok (AccessSession.device_id <$>
      find_where (λ a, access_is hash a && (now <? AccessSession.expires_at a)
        && exists_where (active_device (AccessSession.device_id a)) (devices d))
      (access_sessions d)).

(** *** Usernames *)

(** [username_cooldowns] rows of the name that are still running. *)
Definition cooling (n : text) (now : Z) (d : Db.t) : bool :=
  exists_where (λ c, cooldown_is n c && (now <? Cooldown.release_after c)) (username_cooldowns d).
Definition released_name (n : text) (u : Username.t) : bool :=
  username_is n u && negb (is_none (Username.released_at u)).
Definition active_of (a : array 32) (u : Username.t) : bool :=
  bool_decide (Username.account_id u = a) && is_none (Username.released_at u).

Definition delete_released (n : text) (d : Db.t) : write :=
  Ok (count_where (released_name n) (usernames d),
      set_usernames (delete_where (released_name n) (usernames d)) d).
Definition delete_cooled (n : text) (now : Z) (d : Db.t) : write :=
  if cooling n now d then Ok (0, d) else delete_released n d.
Definition name_length_ok (n : text) : bool :=
  (3 <=? Z.of_nat (length n)) && (Z.of_nat (length n) <=? 32).
(** A row of the name, or another active name of the account. *)
Definition username_conflict (n : text) (a : array 32) (d : Db.t) : bool :=
  exists_where (username_is n) (usernames d) || exists_where (active_of a) (usernames d).
(** Without and with [ON CONFLICT DO NOTHING]. *)
Definition insert_username (n : text) (a : array 32) (d : Db.t) : write :=
  guarded (name_length_ok n && negb (username_conflict n a d) && has_account a d)
    (set_usernames (usernames d ++ [Username.Make n a None]) d).
Definition insert_username_ignore (n : text) (a : array 32) (d : Db.t) : write :=
  if name_length_ok n && username_conflict n a d then Ok (0, d) else insert_username n a d.
Definition select_username (a : array 32) (d : Db.t) : result ApiError.t (option text) :=
  Ok (Username.canonical_username <$> find_where (active_of a) (usernames d)).
Definition release_name (n : text) (now : Z) (d : Db.t) : write :=
  Ok (count_where (username_is n) (usernames d),
      set_usernames (update_where (username_is n) (Username.set_released now) (usernames d)) d).
Definition upsert_cooldown (c : Cooldown.t) (d : Db.t) : write :=
  let hit := cooldown_is (Cooldown.canonical_username c) in
  guarded (has_account (Cooldown.previous_account_id c) d)
    (set_username_cooldowns
      (if exists_where hit (username_cooldowns d)
       then update_where hit (λ _, c) (username_cooldowns d)
       else username_cooldowns d ++ [c]) d).
Definition name_available (n : text) (now : Z) (d : Db.t) : bool :=
  negb (exists_where (λ u, username_is n u
          && (is_none (Username.released_at u) || cooling n now d)) (usernames d)).

(** *** Key packages *)

(** [INSERT .. SELECT .. WHERE EXISTS(active device) ON CONFLICT DO NOTHING] *)
Definition insert_package (k : KeyPackage.t) (d : Db.t) : write :=
  if negb (exists_where (active_device (KeyPackage.device_id k)) (devices d))
     || (exists_where (package_is (KeyPackage.package_id k)) (key_packages d)
         && (len (KeyPackage.package k) <=? 65536))
  then Ok (0, d)
  else guarded (len (KeyPackage.package k) <=? 65536)
         (set_key_packages (key_packages d ++ [k]) d).
Definition older_leb (k1 k2 : KeyPackage.t) : bool :=
  KeyPackage.created_at k1 <=? KeyPackage.created_at k2.
Definition available_package (device : Id) (k : KeyPackage.t) : bool :=
  bool_decide (KeyPackage.device_id k = device) && is_none (KeyPackage.consumed_at k).
Definition select_package (device : Id) (d : Db.t) : result ApiError.t (option KeyPackage.t) :=
  Ok (head (stable_sort older_leb (select_where (available_package device) (key_packages d)))).
Definition consume_package (i : Id) (now : Z) (d : Db.t) : write :=
  Ok (count_where (package_is i) (key_packages d),
      set_key_packages (update_where (package_is i) (KeyPackage.set_consumed now)
        (key_packages d)) d).

(** *** Groups *)

Definition insert_group (g creator : Id) (d : Db.t) : write :=
  guarded (negb (has_group g d) && has_device creator d)
    (set_groups (groups d ++ [Group.Make g creator]) d).
Definition member_fk (m : GroupMember.t) (d : Db.t) : bool :=
  has_group (GroupMember.group_id m) d && has_device (GroupMember.device_id m) d
  && has_account (GroupMember.account_id m) d
  && ((0 <=? GroupMember.role m) && (GroupMember.role m <=? 2)).
Definition member_hit (m : GroupMember.t) : GroupMember.t → bool :=
  member_is (GroupMember.group_id m) (GroupMember.device_id m).
Definition insert_member (m : GroupMember.t) (d : Db.t) : write :=
  guarded (negb (exists_where (member_hit m) (group_members d)) && member_fk m d)
    (set_group_members (group_members d ++ [m]) d).
Definition upsert_member (m : GroupMember.t) (d : Db.t) : write :=
  guarded (member_fk m d)
    (set_group_members
      (if exists_where (member_hit m) (group_members d)
       then update_where (member_hit m) (λ _, m) (group_members d)
       else group_members d ++ [m]) d).
Definition remove_member (g i : Id) (now : Z) (d : Db.t) : write :=
  Ok (count_where (active_member g i) (group_members d),
      set_group_members (update_where (active_member g i) (GroupMember.set_removed now)
        (group_members d)) d).
Definition select_admin_key (g i : Id) (d : Db.t) : result ApiError.t (option (array 32)) :=
  Ok (m ← find_where (λ m, active_member g i m && (GroupMember.role m =? 2)) (group_members d);
      x ← find_where (device_is (GroupMember.device_id m)) (devices d);
      Some (Device.device_public_key x)).
Definition select_account (i : Id) (d : Db.t) : result ApiError.t (option (array 32)) :=
  Ok (Device.account_id <$> find_where (active_device i) (devices d)).

Definition insert_operation (m : MembershipRow.t) (d : Db.t) : write :=
  guarded (negb (exists_where (operation_is (MembershipRow.correlation_id m)) (membership_operations d))
           && has_group (MembershipRow.group_id m) d && has_device (MembershipRow.author_device_id m) d)
    (set_membership_operations (membership_operations d ++ [m]) d).
Definition apply_operation (i : Id) (now : Z) (d : Db.t) : write :=
  Ok (count_where (operation_is i) (membership_operations d),
      set_membership_operations (update_where (operation_is i) (MembershipRow.set_applied now)
        (membership_operations d)) d).

(** *** Events *)

(** The DEFAULT of [event_cursor], taken before the row is checked. *)
Definition next_cursor (d : Db.t) : write :=
  if i64_max <? event_seq d then Err ApiError.Database
  else Ok (event_seq d, set_event_seq (event_seq d + 1) d).
Definition insert_event (e : GroupEvent.t) (d : Db.t) : write :=
  guarded (negb (exists_where (event_is (GroupEvent.event_id e)) (group_events d))
           && negb (exists_where (dedup_is (GroupEvent.author_device_id e)
                (GroupEvent.client_message_id e)) (group_events d))
           && negb (exists_where (λ x, GroupEvent.event_cursor x =? GroupEvent.event_cursor e)
                (group_events d))
           && has_group (GroupEvent.group_id e) d && has_device (GroupEvent.author_device_id e) d
           && (len (GroupEvent.ciphertext e) <=? 65536))
    (set_group_events (group_events d ++ [e]) d).
(** The INSERT .. RETURNING event_cursor: a failure between the two halves
    leaves a gap in the cursors. *)
Definition append_event (row : Z → GroupEvent.t) : stmt Z :=
  cursor ← exec next_cursor;
  _ ← exec (insert_event (row cursor));
  mret cursor.
(** [pg_notify($1, encode($2,'hex'))], delivered on commit. *)
Definition notify (g : Id) (d : Db.t) : write :=
  Ok (1, set_notifications (notifications d ++ [encode_hex (arr g)]) d).
Definition cursor_leb (e1 e2 : GroupEvent.t) : bool :=
  GroupEvent.event_cursor e1 <=? GroupEvent.event_cursor e2.
Definition live_after (after now : Z) (e : GroupEvent.t) : bool :=
  (after <? GroupEvent.event_cursor e) && (now <? GroupEvent.expires_at e).
(** [WHERE visible AND event_cursor>after AND expires_at>now() ORDER BY event_cursor LIMIT n] *)
Definition select_events (visible : GroupEvent.t → bool) (after now limit : Z) (d : Db.t)
    : result ApiError.t (list GroupEvent.t) :=
  Ok (take (Z.to_nat limit)
    (stable_sort cursor_leb (select_where (λ e, visible e && live_after after now e) (group_events d)))).
(** A membership row is unique by its key, so the join is a filter. *)
Definition visible_to (device : Id) (d : Db.t) (e : GroupEvent.t) : bool :=
  exists_where (active_member (GroupEvent.group_id e) device) (group_members d).
Definition select_max_cursor (g : Id) (d : Db.t) : result ApiError.t Z :=
  Ok (default 0 (max_of GroupEvent.event_cursor
    (select_where (λ e, bool_decide (GroupEvent.group_id e = g)) (group_events d)))).

(** Receipts of deleted events go with them; which expired rows a bounded
    DELETE takes is the engine's choice, the first ones here. *)
Definition delete_expired (now limit : Z) (d : Db.t) : write :=
  let gone := GroupEvent.event_id
    <$> take (Z.to_nat limit) (select_where (λ e, GroupEvent.expires_at e <=? now) (group_events d)) in
  let hit i := bool_decide (i ∈ gone) in
  Ok (count_where (λ e, hit (GroupEvent.event_id e)) (group_events d),
      set_message_receipts (delete_where (λ r, hit (Receipt.event_id r)) (message_receipts d))
        (set_group_events (delete_where (λ e, hit (GroupEvent.event_id e)) (group_events d)) d)).

Definition insert_receipt (r : Receipt.t) (d : Db.t) : write :=
  if negb (exists_where (λ e, event_is (Receipt.event_id r) e
            && visible_to (Receipt.device_id r) d e) (group_events d))
     || exists_where (λ x, bool_decide (x = r)) (message_receipts d)
  then Ok (0, d)
  else guarded (has_device (Receipt.device_id r) d
                && ((Receipt.receipt_type r =? 1) || (Receipt.receipt_type r =? 2)))
         (set_message_receipts (message_receipts d ++ [r]) d).

(** *** Welcomes and cursors *)

Definition insert_welcome_ignore (w : Welcome.t) (d : Db.t) : write :=
  if exists_where (welcome_is (Welcome.welcome_id w)) (welcome_mailbox d)
     && (len (Welcome.welcome w) <=? 65536)
  then Ok (0, d)
  else guarded (has_device (Welcome.target_device_id w) d && has_group (Welcome.group_id w) d
                && (len (Welcome.welcome w) <=? 65536))
         (set_welcome_mailbox (welcome_mailbox d ++ [w]) d).
Definition sooner_leb (w1 w2 : Welcome.t) : bool := Welcome.expires_at w1 <=? Welcome.expires_at w2.
Definition pending_welcome (device : Id) (now : Z) (w : Welcome.t) : bool :=
  bool_decide (Welcome.target_device_id w = device) && is_none (Welcome.consumed_at w)
  && (now <? Welcome.expires_at w).
Definition select_welcomes (device : Id) (now limit : Z) (d : Db.t)
    : result ApiError.t (list Welcome.t) :=
  Ok (take (Z.to_nat limit)
    (stable_sort sooner_leb (select_where (pending_welcome device now) (welcome_mailbox d)))).
Definition consume_welcome (i : Id) (now : Z) (d : Db.t) : write :=
  Ok (count_where (welcome_is i) (welcome_mailbox d),
      set_welcome_mailbox (update_where (welcome_is i) (Welcome.set_consumed now)
        (welcome_mailbox d)) d).

Definition select_group_cursor (device g : Id) (d : Db.t) : result ApiError.t (option Z) :=
  Ok (GroupCursor.cursor <$> find_where (cursor_is device g) (device_group_cursors d)).
Definition upsert_group_cursor (c : GroupCursor.t) (d : Db.t) : write :=
  let hit := cursor_is (GroupCursor.device_id c) (GroupCursor.group_id c) in
  guarded ((0 <=? GroupCursor.cursor c) && has_device (GroupCursor.device_id c) d
           && has_group (GroupCursor.group_id c) d)
    (set_device_group_cursors
      (if exists_where hit (device_group_cursors d)
       then update_where hit (λ _, c) (device_group_cursors d)
       else device_group_cursors d ++ [c]) d).

(** *** Abuse counters *)

(** The INSERT .. ON CONFLICT(scope) DO UPDATE of [check_rate_limit]. *)
Definition bump_counter (scope : bytes) (window now : Z) (d : Db.t) : write :=
  match find_where (counter_is scope) (abuse_counters d) with
  | None =>
      Ok (1, set_abuse_counters (abuse_counters d ++ [AbuseCounter.Make scope now 1]) d)
  | Some c =>
      let over := AbuseCounter.window_start c <=? now - seconds window in
      let start := if over then now else AbuseCounter.window_start c in
      let count := if over then 1 else AbuseCounter.count c + 1 in
      if 2147483647 <? count then Err ApiError.Database
      else Ok (count, set_abuse_counters (update_where (counter_is scope)
             (λ _, AbuseCounter.Make scope start count) (abuse_counters d)) d)
  end.

(** *** Migrations *)

Definition select_checksum (version : Z) (d : Db.t) : result ApiError.t (option bytes) :=
  Ok (snd <$> find_where (λ x, fst x =? version) (schema_migrations d)).
(** [CREATE TABLE ..]: fails when the tables exist. *)
Definition create_schema (d : Db.t) : write :=
  guarded (negb (schema_created d)) (set_schema_created true d).
Definition insert_migration (version : Z) (checksum : bytes) (d : Db.t) : write :=
  guarded (negb (exists_where (λ x, fst x =? version) (schema_migrations d)))
    (set_schema_migrations (schema_migrations d ++ [(version, checksum)]) d).

(** ** Transactions are atomic up to the sequence *)

(** Everything but the identity sequence. *)
Definition same_rows (d1 d2 : Db.t) : Prop := set_event_seq 0 d1 = set_event_seq 0 d2.

Lemma same_rows_seq n d : same_rows (set_event_seq n d) d.
Proof. done. Qed.

Lemma seq_unchanged d : set_event_seq (event_seq d) d = d.
Proof. by destruct d. Qed.

Lemma pg_transaction_atomic {A} (body : stmt (outcome A)) w :
  Faithful ApiError.Database body → clean w →
  let '(r, w') := pg_transaction body w in
  clean w' ∧
  ((same_rows (current w') (current w)
     ∧ (r = Err ApiError.Database
        ∨ match (run body (current w)).1 with
          | Err e => r = Err e | Ok (Drop r0) => r = r0 | Ok (Commit _) => False
          end))
   ∨ run body (current w) = (Ok (Commit r), current w')).
Proof.
  intros Hb [Htx Hc]. destruct w as [c d tx fl]. cbn in Htx, Hc. subst.
  unfold pg_transaction, begin_. cbn [current committed in_tx faults].
  rewrite orb_false_r. destruct (default false (head fl)).
  { split; [done|]. left. split; [done|]. by left. }
  unfold autocommit. cbn [current committed in_tx faults].
  pose proof (faithful_run (m := body) (db_error := ApiError.Database) d (tail fl)) as H.
  destruct (body d (tail fl)) as [[[[r|r]|e] d1] fl1].
  - destruct H as [H|H]; [done|]. unfold commit. cbn [faults].
    destruct (default false (head fl1)); (split; [done|]); [left|by right].
    split; [done|]. by left.
  - destruct H as [H|H]; [done|]. split; [done|]. left. split; [done|]. right.
    by rewrite <- H.
  - split; [done|]. left. split; [done|]. destruct H as [[= ->]|H]; [by left|right].
    by rewrite <- H.
Qed.

Lemma pg_transaction_run {A} (body : stmt (outcome A)) d :
  Faithful ApiError.Database body →
  pg_transaction body (quiet d []) =
    let '(r, d') := run body d in
    match r with
    | Ok (Commit r) => (r, quiet d' [])
    | Ok (Drop r) => (r, quiet (set_event_seq (event_seq d') d) [])
    | Err e => (Err e, quiet (set_event_seq (event_seq d') d) [])
    end.
Proof.
  intros Hb. pose proof (faithful_quiet (m := body) (db_error := ApiError.Database) d) as Hq.
  unfold pg_transaction, begin_, autocommit, run, quiet. cbn.
  destruct (body d []) as [[[[r|r]|e] d1] fl1]; cbn in *; by subst.
Qed.

(** A property kept by every statement is kept by the transaction, when a
    burnt identity value does not hurt it. *)
Lemma pg_transaction_preserves (P : Db.t → Prop) {A} (body : stmt (outcome A)) w :
  (∀ d n, event_seq d ≤ n → P d → P (set_event_seq n d)) →
  Preserves P body → (∀ m, Preserves (λ d, m ≤ event_seq d) body) →
  clean w ∧ P (current w) →
  clean (pg_transaction body w).2 ∧ P (current (pg_transaction body w).2).
Proof.
  intros Hseq Hb Hm [[Htx Hc] Hw]. destruct w as [c d tx fl]. cbn in Htx, Hc, Hw. subst.
  unfold pg_transaction, begin_. cbn [current committed in_tx faults].
  rewrite orb_false_r. destruct (default false (head fl)); [done|].
  unfold autocommit. cbn [current committed in_tx faults].
  specialize (Hb d (tail fl) Hw). specialize (Hm (event_seq d) d (tail fl) ltac:(cbn; lia)).
  destruct (body d (tail fl)) as [[[[r|r]|e] d1] fl1]; cbn in Hb, Hm |- *.
  - unfold commit. cbn [faults]. destruct (default false (head fl1)); (split; [done|]); cbn; auto.
  - split; [done|]. auto.
  - split; [done|]. auto.
Qed.

(** ** Invariants of the database

    [OtherTables P]: every statement of the requests that does not write
    group_members keeps [P], and so does a rollback that leaves the sequence
    further on.  [Frame P]: the statements on group_members do, too.  [Invariant P]: the cleanup of expired
    events keeps [P] as well.  This is what the schema owes to the operations:
    their theorems assume [Frame P] or [Invariant P] only. *)
Class Stable (P : Db.t → Prop) (f : Db.t → write) : Prop :=
  stable d n d' : f d = Ok (n, d') → P d → P d'.

Class OtherTables (P : Db.t → Prop) : Prop := {
  inv_seq d n : event_seq d ≤ n → P d → P (set_event_seq n d);
  inv_account i r :: Stable P (insert_account_ignore i r);
  inv_device i a k :: Stable P (insert_device i a k);
  inv_certificate i s z :: Stable P (insert_certificate i s z);
  inv_recovery i r b :: Stable P (update_recovery i r b);
  inv_challenge c : AuthChallenge.consumed_at c = None → Stable P (insert_challenge c);
  inv_consume_challenge i now :: Stable P (consume_challenge i now);
  inv_access a :: Stable P (insert_access a);
  inv_refresh r : RefreshSession.used_at r = None → RefreshSession.revoked_at r = None →
    Stable P (insert_refresh r);
  inv_revoke f now :: Stable P (revoke_family f now);
  inv_use h n now :: Stable P (use_refresh h n now);
  inv_delete_released n :: Stable P (delete_released n);
  inv_delete_cooled n now :: Stable P (delete_cooled n now);
  inv_username n a :: Stable P (insert_username n a);
  inv_username_ignore n a :: Stable P (insert_username_ignore n a);
  inv_release n now :: Stable P (release_name n now);
  inv_cooldown c :: Stable P (upsert_cooldown c);
  inv_package k : KeyPackage.consumed_at k = None → Stable P (insert_package k);
  inv_consume_package i now :: Stable P (consume_package i now);
  inv_group g c :: Stable P (insert_group g c);
  inv_operation m :: Stable P (insert_operation m);
  inv_apply i now :: Stable P (apply_operation i now);
  inv_event row : (∀ z, GroupEvent.event_cursor (row z) = z) → Preserves P (append_event row);
  inv_notify g :: Stable P (notify g);
  inv_receipt r :: Stable P (insert_receipt r);
  inv_welcome w : Welcome.consumed_at w = None → Stable P (insert_welcome_ignore w);
  inv_consume_welcome i now :: Stable P (consume_welcome i now);
  inv_cursor c :: Stable P (upsert_group_cursor c);
  inv_counter s w now :: Stable P (bump_counter s w now);
  inv_schema :: Stable P create_schema;
  inv_migration v c :: Stable P (insert_migration v c)
}.
Class Frame (P : Db.t → Prop) : Prop := {
  frame_others :: OtherTables P;
  inv_member m :: Stable P (insert_member m);
  inv_upsert_member m :: Stable P (upsert_member m);
  inv_remove_member g i now :: Stable P (remove_member g i now)
}.
Class Invariant (P : Db.t → Prop) : Prop := {
  invariant_frame :: Frame P;
  inv_delete_expired now n :: Stable P (delete_expired now n)
}.

#[export] Instance stable_preserves P (f : Db.t → write) :
  Stable P f → Preserves P (exec f).
Proof. intros Hf. apply preserves_execute. intros d n d' H Hd. by eapply Hf. Qed.

Lemma guarded_Ok c d n d' : guarded c d = Ok (n, d') → c = true ∧ n = 1 ∧ d' = d.
Proof. unfold guarded. destruct c; [by intros [= <- <-]|done]. Qed.

(** The statements a property of some tables does not depend on: case
    analysis down to the new database, then computation. *)
Ltac frame_statement :=
  let d := fresh "d" in let n := fresh "n" in let d' := fresh "d'" in
  let H := fresh "H" in let Hd := fresh "Hd" in
  intros d n d' H Hd;
  unfold insert_account_ignore, insert_device, insert_certificate, update_recovery,
    insert_challenge, consume_challenge, insert_access, insert_refresh, revoke_family,
    use_refresh, delete_cooled, delete_released, insert_username_ignore, insert_username,
    release_name, upsert_cooldown, insert_package, consume_package, insert_group, insert_member,
    upsert_member, remove_member, insert_operation, apply_operation, notify, delete_expired,
    insert_receipt, insert_welcome_ignore, consume_welcome, upsert_group_cursor, bump_counter,
    create_schema, insert_migration, next_cursor, insert_event, guarded in H;
  repeat (case_match; try discriminate H);
  injection H as <- <-; try exact Hd.

(** The sequence never goes back. *)
Lemma append_event_preserves (P : Db.t → Prop) row :
  (∀ d n d', next_cursor d = Ok (n, d') → P d → P d'
     ∧ ∀ m d'', insert_event (row n) d' = Ok (m, d'') → P d'') →
  Preserves P (append_event row).
Proof.
  intros H d fl Hd. unfold append_event, mbind, dbm_bind, execute.
  destruct (default false (head fl)); [done|].
  destruct (next_cursor d) as [[n d1]|] eqn:E; [|done].
  specialize (H d n d1 E Hd) as [Hd1 Hins].
  destruct (default false (head (tail fl))); [done|].
  destruct (insert_event (row n) d1) as [[m d2]|] eqn:E2; [|done]. by eapply Hins.
Qed.

#[export] Instance seq_invariant m : Invariant (λ d, m ≤ event_seq d).
Proof.
  split; [split; [constructor|..]|]; try (intros; frame_statement).
  - intros d n Hn Hd. cbn. lia.
  - intros row _. apply append_event_preserves. intros d n d'.
    unfold next_cursor. destruct (_ <? _); [done|]. intros [= <- <-] Hd.
    split; [cbn; lia|]. intros n' d''. unfold insert_event. intros (_ & _ & ->)%guarded_Ok.
    cbn. lia.
Qed.

(** ** Well-formed databases *)

Definition is_active (u : Username.t) : bool := is_none (Username.released_at u).

(** What the PRIMARY KEY and UNIQUE constraints say. *)
Record wf_keys (d : Db.t) : Prop := {
  key_account : unique Account.account_id (accounts d);
  key_root : unique Account.root_public_key (accounts d);
  key_device : unique Device.device_id (devices d);
  key_certificate : unique Certificate.device_id (device_certificates d);
  key_username : unique Username.canonical_username (usernames d);
  key_active : unique Username.account_id (select_where is_active (usernames d));
  key_cooldown : unique Cooldown.canonical_username (username_cooldowns d);
  key_challenge : unique AuthChallenge.challenge_id (auth_challenges d);
  key_access : unique AccessSession.token_hash (access_sessions d);
  key_refresh : unique RefreshSession.token_hash (refresh_sessions d);
  key_package : unique KeyPackage.package_id (key_packages d);
  key_group : unique Group.group_id (groups d);
  key_member : unique GroupMember.key (group_members d);
  key_operation : unique MembershipRow.correlation_id (membership_operations d);
  key_event : unique GroupEvent.event_id (group_events d);
  key_dedup : unique GroupEvent.dedup_key (group_events d);
  key_cursor : unique GroupEvent.event_cursor (group_events d);
  key_welcome : unique Welcome.welcome_id (welcome_mailbox d);
  key_group_cursor : unique GroupCursor.key (device_group_cursors d);
  key_receipt : unique id (message_receipts d);
  key_counter : unique AbuseCounter.scope (abuse_counters d)
}.

(** What the REFERENCES clauses say, as far as the operations rely on it. *)
Record wf_refs (d : Db.t) : Prop := {
  ref_device x : x ∈ devices d → has_account (Device.account_id x) d = true;
  ref_username u : u ∈ usernames d → has_account (Username.account_id u) d = true;
  ref_challenge c : c ∈ auth_challenges d → has_device (AuthChallenge.device_id c) d = true;
  ref_access a : a ∈ access_sessions d → has_device (AccessSession.device_id a) d = true;
  ref_refresh r : r ∈ refresh_sessions d → has_device (RefreshSession.device_id r) d = true;
  ref_member m : m ∈ group_members d → member_fk m d = true;
  ref_event e : e ∈ group_events d →
    has_group (GroupEvent.group_id e) d && has_device (GroupEvent.author_device_id e) d = true;
  ref_cursor c : c ∈ device_group_cursors d →
    has_device (GroupCursor.device_id c) d && has_group (GroupCursor.group_id c) d = true;
  ref_receipt r : r ∈ message_receipts d →
    exists_where (event_is (Receipt.event_id r)) (group_events d) = true
}.

(** What the CHECK clauses and the identity column say. *)
Record wf_ranges (d : Db.t) : Prop := {
  range_seq : 1 ≤ event_seq d;
  range_event e : e ∈ group_events d →
    1 ≤ GroupEvent.event_cursor e < event_seq d ∧ len (GroupEvent.ciphertext e) ≤ 65536;
  range_cursor c : c ∈ device_group_cursors d → 0 ≤ GroupCursor.cursor c;
  range_name u : u ∈ usernames d → 3 ≤ Z.of_nat (length (Username.canonical_username u)) ≤ 32;
  range_package k : k ∈ key_packages d → len (KeyPackage.package k) ≤ 65536;
  range_counter c : c ∈ abuse_counters d → 1 ≤ AbuseCounter.count c ≤ 2147483647
}.

Definition wf (d : Db.t) : Prop := wf_keys d ∧ wf_refs d ∧ wf_ranges d.

(** *** Lemmas on tables *)

Ltac solve_keyed := intros ?; apply bool_decide_eq_true.
Lemma account_keyed i : keyed Account.account_id (account_is i) i. Proof. solve_keyed. Qed.
Lemma device_keyed i : keyed Device.device_id (device_is i) i. Proof. solve_keyed. Qed.
Lemma certificate_keyed i : keyed Certificate.device_id (certificate_is i) i. Proof. solve_keyed. Qed.
Lemma username_keyed n : keyed Username.canonical_username (username_is n) n. Proof. solve_keyed. Qed.
Lemma cooldown_keyed n : keyed Cooldown.canonical_username (cooldown_is n) n. Proof. solve_keyed. Qed.
Lemma challenge_keyed i : keyed AuthChallenge.challenge_id (challenge_is i) i. Proof. solve_keyed. Qed.
Lemma access_keyed h : keyed AccessSession.token_hash (access_is h) h. Proof. solve_keyed. Qed.
Lemma refresh_keyed h : keyed RefreshSession.token_hash (refresh_is h) h. Proof. solve_keyed. Qed.
Lemma package_keyed i : keyed KeyPackage.package_id (package_is i) i. Proof. solve_keyed. Qed.
Lemma group_keyed i : keyed Group.group_id (group_is i) i. Proof. solve_keyed. Qed.
Lemma group_member_keyed g i : keyed GroupMember.key (member_is g i) (g, i). Proof. solve_keyed. Qed.
Lemma operation_keyed i : keyed MembershipRow.correlation_id (operation_is i) i. Proof. solve_keyed. Qed.
Lemma event_keyed i : keyed GroupEvent.event_id (event_is i) i. Proof. solve_keyed. Qed.
Lemma dedup_keyed a c : keyed GroupEvent.dedup_key (dedup_is a c) (a, c). Proof. solve_keyed. Qed.
Lemma welcome_keyed i : keyed Welcome.welcome_id (welcome_is i) i. Proof. solve_keyed. Qed.
Lemma group_cursor_keyed x g : keyed GroupCursor.key (cursor_is x g) (x, g). Proof. solve_keyed. Qed.
Lemma counter_keyed s : keyed AbuseCounter.scope (counter_is s) s. Proof. solve_keyed. Qed.
Lemma root_keyed (r : array 32) :
  keyed Account.root_public_key (λ a, bool_decide (Account.root_public_key a = r)) r.
Proof. solve_keyed. Qed.
Lemma event_cursor_keyed z : keyed GroupEvent.event_cursor (λ e, GroupEvent.event_cursor e =? z) z.
Proof. intros e. apply Z.eqb_eq. Qed.
Lemma receipt_keyed (r : Receipt.t) : keyed id (λ x, bool_decide (x = r)) r.
Proof. solve_keyed. Qed.
#[export] Hint Resolve account_keyed device_keyed certificate_keyed username_keyed cooldown_keyed
  challenge_keyed access_keyed refresh_keyed package_keyed group_keyed group_member_keyed operation_keyed
  event_keyed dedup_keyed welcome_keyed group_cursor_keyed counter_keyed root_keyed
  event_cursor_keyed receipt_keyed : messenger.

Lemma unique_new {R K} (k : R → K) p r t :
  keyed k p (k r) → exists_where p t = false → unique k t → unique k (t ++ [r]).
Proof. intros Hp He Ht. apply unique_snoc; [|done]. by apply (not_exists_key k p (k r)). Qed.

Lemma unique_update {R K} (k : R → K) p f t :
  (∀ r, k (f r) = k r) → unique k t → unique k (update_where p f t).
Proof. intros Hf Ht. unfold unique. by rewrite update_key. Qed.

Lemma exists_where_snoc {R} (p : R → bool) t r :
  exists_where p t = true → exists_where p (t ++ [r]) = true.
Proof. unfold exists_where. rewrite existsb_app. by intros ->. Qed.

Lemma exists_where_key {R K} (k : R → K) p i t t' :
  keyed k p i → k <$> t' = k <$> t → exists_where p t = true → exists_where p t' = true.
Proof. intros Hp Hk. rewrite !(exists_key k p i) by done. by rewrite Hk. Qed.

(** *** The constraints hold *)

Ltac split_bools := unfold username_conflict in *; repeat match goal with
  | H : _ && _ = true |- _ => apply andb_true_iff in H as [? ?]
  | H : _ || _ = false |- _ => apply orb_false_iff in H as [? ?]
  | H : negb _ = true |- _ => apply negb_true_iff in H
  | H : negb _ = false |- _ => apply negb_false_iff in H
  | H : ?a && ?b = false, Hb : ?b = true |- _ => rewrite Hb, andb_true_r in H
  | H : ?a && ?b = false, Ha : ?a = true |- _ => rewrite Ha, andb_true_l in H
  | H : _ && true = false |- _ => rewrite andb_true_r in H
  | H : find_where _ _ = None |- _ => apply find_where_None in H
  end.

Lemma active_snoc u t a :
  Username.released_at u = None → a = Username.account_id u →
  exists_where (active_of a) t = false →
  unique Username.account_id (select_where is_active t) →
  unique Username.account_id (select_where is_active (t ++ [u])).
Proof.
  intros Hu -> He Ht. unfold select_where. rewrite List.filter_app. cbn.
  unfold is_active at 2. rewrite Hu. cbn. apply unique_snoc; [|done].
  intros (x & Hx & Hin)%list_elem_of_fmap. apply elem_of_select in Hin as [Hin Ha].
  rewrite exists_where_false in He. specialize (He x Hin). unfold active_of in He.
  rewrite <- Hx, bool_decide_eq_true_2 in He by done. unfold is_active in Ha. by rewrite Ha in He.
Qed.

Lemma active_released p now t :
  unique Username.account_id (select_where is_active t) →
  unique Username.account_id (select_where is_active (update_where p (Username.set_released now) t)).
Proof.
  intros Ht. eapply sublist_NoDup; [exact Ht|]. clear Ht. unfold select_where, update_where.
  induction t as [|u t IH]; cbn; [done|]. destruct (p u); cbn.
  - destruct (is_active u); cbn; [by apply sublist_cons|done].
  - destruct (is_active u); cbn; [by apply sublist_skip|done].
Qed.

Lemma active_deleted p t :
  unique Username.account_id (select_where is_active t) →
  unique Username.account_id (select_where is_active (delete_where p t)).
Proof.
  intros Ht. eapply sublist_NoDup; [exact Ht|]. clear Ht. unfold select_where, delete_where.
  induction t as [|u t IH]; cbn; [done|]. destruct (p u); cbn.
  - destruct (is_active u); cbn; [by apply sublist_cons|done].
  - destruct (is_active u); cbn; [by apply sublist_skip|done].
Qed.

Lemma unique_replaced {R K} (k : R → K) p i r t :
  keyed k p i → k r = i → unique k t → unique k (update_where p (λ _, r) t).
Proof. intros Hp Hr Ht. unfold unique. by rewrite (replace_key k p i). Qed.

Ltac solve_keys :=
  frame_statement; split_bools;
  match goal with Hd : wf_keys _ |- _ => destruct Hd end;
  constructor; cbn; try assumption;
  first
    [ by eapply unique_new; eauto with messenger
    | by apply unique_update
    | by eapply unique_replaced; eauto with messenger
    | by apply unique_delete
    | by eapply upsert_unique; eauto with messenger
    | by eapply active_snoc
    | by apply active_released
    | by apply active_deleted
    | idtac ].

#[export] Instance wf_keys_invariant : Invariant wf_keys.
Proof.
  split; [split; [constructor|..]|]; try (intros; solve_keys).
  - intros d n _ []. by constructor.
  - intros row _. apply append_event_preserves. intros d n d' Hn Hd.
    assert (Hd' : wf_keys d') by (revert Hn Hd; unfold next_cursor; destruct (_ <? _); [done|];
      intros [= _ <-] []; by constructor).
    split; [done|]. intros m d'' (H & _ & ->)%guarded_Ok. split_bools. destruct Hd'.
    constructor; cbn; try assumption; eapply unique_new; eauto with messenger.
Qed.

(** Rows of a changed table: new, changed or old. *)
Ltac split_rows := repeat match goal with
  | H : _ ∈ _ ++ [_] |- _ => apply elem_of_app in H as [H|H%list_elem_of_singleton]; [|subst]
  | H : _ ∈ update_where ?p _ _ |- _ =>
      let y := fresh "y" in let Hp := fresh "Hp" in
      apply elem_of_update in H as (y & H & ->); destruct (p y) eqn:Hp
  | H : _ ∈ delete_where _ _ |- _ => apply elem_of_delete in H as [H ?]
  end.

Lemma has_account_recovery i p r b d :
  has_account i d = true →
  exists_where (account_is i) (update_where p (Account.set_recovery r b) (accounts d)) = true.
Proof. apply (exists_where_key _ _ _ _ _ (account_keyed i)). by apply update_key. Qed.

Ltac solve_refs :=
  frame_statement; unfold member_fk in *; split_bools;
  match goal with Hd : wf_refs _ |- _ => destruct Hd end;
  constructor; cbn; try assumption; intros x Hx; split_rows; cbn;
  repeat match goal with H : ∀ y, y ∈ ?t → _, Hx : ?x ∈ ?t |- _ => specialize (H x Hx) end;
  unfold member_fk, has_account, has_device, has_group in *; cbn in *; split_bools;
  rewrite ?andb_true_iff; split_and?;
  first [assumption | by apply exists_where_snoc | by apply has_account_recovery | idtac].

#[export] Instance wf_refs_invariant : Invariant wf_refs.
Proof.
  split; [split; [constructor|..]|]; try (intros; solve_refs).
  - intros d n _ []. by constructor.
  - intros row _. apply append_event_preserves. intros d n d' Hn Hd.
    assert (Hd' : wf_refs d') by (revert Hn Hd; unfold next_cursor; destruct (_ <? _); [done|];
      intros [= _ <-] []; by constructor).
    split; [done|]. intros m d'' (H & _ & ->)%guarded_Ok. split_bools. destruct Hd'.
    constructor; cbn; try assumption; intros x Hx; split_rows; auto.
    + by apply (ref_event0 x).
    + by apply andb_true_iff.
    + by apply exists_where_snoc, ref_receipt0.
  - apply exists_where_true. match goal with H : exists_where _ (group_events d) = true |- _ =>
      apply exists_where_true in H as (e & He & Hv) end.
    exists e. apply andb_true_iff in Hv as [Hv _]. done.
  - match goal with H : bool_decide _ = false |- _ => rename H into Hgone end.
    apply exists_where_true in ref_receipt0 as (e & He & Hid). apply exists_where_true. exists e.
    split; [|done]. apply elem_of_delete. split; [done|].
    apply bool_decide_eq_true in Hid. by rewrite Hid.
Qed.

Lemma find_where_elem {R} (p : R → bool) t r : find_where p t = Some r → r ∈ t.
Proof. by intros [? _]%find_where_Some. Qed.

Ltac solve_ranges :=
  frame_statement; unfold name_length_ok in *; split_bools;
  match goal with Hd : wf_ranges _ |- _ => destruct Hd end;
  constructor; cbn; try assumption; intros; split_rows; cbn;
  repeat match goal with H : find_where _ _ = Some _ |- _ => apply find_where_elem in H end;
  repeat match goal with H : ∀ y, y ∈ ?t → _, Hx : ?x ∈ ?t |- _ =>
    pose proof (H x Hx); clear Hx end;
  try lia.

#[export] Instance wf_ranges_invariant : Invariant wf_ranges.
Proof.
  split; [split; [constructor|..]|]; try (intros; solve_ranges).
  - intros d n Hn []. constructor; cbn; try assumption; [lia|].
    intros e He. specialize (range_event0 e He). lia.
  - intros row Hrow. apply append_event_preserves. intros d n d' Hn [].
    unfold next_cursor in Hn. destruct (_ <? _); [done|]. injection Hn as <- <-.
    assert (Hev : ∀ e, e ∈ group_events d → 1 ≤ GroupEvent.event_cursor e < event_seq d + 1
      ∧ len (GroupEvent.ciphertext e) ≤ 65536)
      by (intros e He; specialize (range_event0 e He); lia).
    split; [constructor; cbn; try assumption; lia|].
    intros m d'' (H & _ & ->)%guarded_Ok. split_bools. cbn in *.
    constructor; cbn; try assumption; [lia|].
    intros e [He|He%list_elem_of_singleton]%elem_of_app; [by apply Hev|]. subst e.
    rewrite Hrow. lia.
Qed.
