(* ===== verification/CoreApi.v ===== *)
(** * CoreApi: the operations of the core-api backend

    Models services/core-api/src/lib.rs: every operation of [Backend] over the
    schema of CoreDb.  The database clock [now()] (the start of the
    transaction) and the random bytes are arguments.  Requests are sequential
    here; the section on late commits interleaves two uploads. *)
From Stdlib Require Import ZArith Lia Sorting.Sorted.
From stdpp Require Import base list strings relations.
From S2P Require Import Prelude Protocol Crypto DirectoryTool Sql Identity CoreDb.
Import Db.

Definition ACCESS_TTL_SECONDS : Z := 15 * 60.
Definition REFRESH_TTL_SECONDS : Z := 30 * 24 * 60 * 60.
Definition CHALLENGE_TTL_SECONDS : Z := 120.
Definition EVENT_TTL_SECONDS : Z := 7 * 24 * 60 * 60.
Definition MAX_SYNC_BATCH : Z := 50.
Definition MAX_KEY_PACKAGE_SIZE : Z := 64 * 1024.
Definition MAX_RECOVERY_BLOB_SIZE : Z := 256 * 1024.
Definition EVENT_KIND_MLS_COMMIT : Z := 2.

Module Challenge.
Record t := Make { challenge_id : Id; challenge : array 32 }.
End Challenge.
Module SessionTokens.
Record t := Make { access_token : array 32; refresh_token : array 32 }.
End SessionTokens.
Module UploadedEvent.
Record t := Make {
  event_id : Id; group_id : Id; author_device_id : Id; client_message_id : Id;
  event_kind : Z; ciphertext : bytes; correlation_id : option Id
}.
End UploadedEvent.
Module UploadAccepted.
Record t := Make { cursor : Z; duplicate : bool }.
End UploadAccepted.
Module SyncEvent.
Record t := Make { cursor : Z; event_id : Id; event_kind : Z; ciphertext : bytes }.
End SyncEvent.
Module MembershipOperation.
Record t := Make {
  correlation_id : Id; group_id : Id; author_device_id : Id; target_device_id : Id;
  role : Z; remove : bool; signature : array 64
}.
End MembershipOperation.

(** A pool of connections to the database, used by one request at a time. *)
Abbreviation Backend := (world Db.t).
Abbreviation api A := (Backend → result ApiError.t A * Backend).

Definition clamp (lo hi z : Z) : Z := Z.max lo (Z.min hi z).

(** ** Helpers *)
Section Helpers.
Context `{C : Crypto}.

Definition token_hash (domain : bytes) (token : array 32) : array 32 :=
  sha256 (lit "resilient/session/v1" ++ domain ++ arr token).
Definition access_hash (token : array 32) : array 32 := token_hash (lit "access") token.
Definition refresh_hash (token : array 32) : array 32 := token_hash (lit "refresh") token.

(** [VerifyingKey::from_bytes(&public)?.verify(payload, &signature)?] *)
Definition check_signature (public : array 32) (payload : bytes) (signature : array 64)
    : result ApiError.t unit :=
  _ ← ensure (vk_valid public) ApiError.InvalidCredentials;
  ensure (vk_verify public payload signature) ApiError.InvalidCredentials.

Definition membership_operation_payload (correlation_id group_id author_device_id
    target_device_id : Id) (role : Z) (remove : bool) : bytes :=
  lit "resilient/membership-operation/v1" ++ arr correlation_id ++ arr group_id
  ++ arr author_device_id ++ arr target_device_id ++ be_bytes 2 role
  ++ [z2b (if remove then 1 else 0)].

Definition assert_active_member (group device : Id) : stmt unit :=
  allowed ← ask (λ d, Ok (exists_where (active_member group device) (group_members d)));
  dlift (ensure allowed ApiError.Unauthorized).

(** The random values of one call of [issue_tokens]. *)
Record token_seed := TokenSeed {
  seed_access : array 32; seed_refresh : array 32; seed_family : Id
}.

Definition issue_tokens (seed : token_seed) (now : Z) (device_id : Id) (family : option Id)
    : stmt SessionTokens.t :=
  let family_id := default (seed_family seed) family in
  _ ← exec (insert_access (AccessSession.Make (access_hash (seed_access seed)) device_id
        (now + seconds ACCESS_TTL_SECONDS)));
  _ ← exec (insert_refresh (RefreshSession.Make (refresh_hash (seed_refresh seed)) family_id
        device_id None (now + seconds REFRESH_TTL_SECONDS) None None));
  mret (SessionTokens.Make (seed_access seed) (seed_refresh seed)).
End Helpers.

(** ** Migrations *)

(** The advisory lock of [migrate] keeps two migrations apart, which run one
    after the other here; the table of migrations is part of [Db.t].  Both
    statements can fail. *)
Definition advisory_lock : stmt unit := ask (λ _, Ok tt).
Definition create_migrations_table : stmt unit := ask (λ _, Ok tt).
(** [MIGRATION] is the text of 0001_foundation.sql.  It is sent as one batch
    inside the transaction: wherever it fails, all of it is rolled back. *)
Definition migrate_body (checksum : bytes) : stmt (outcome unit) :=
  _ ← advisory_lock;
  _ ← create_migrations_table;
  applied ← ask (select_checksum 1);
  match applied with
  | Some applied =>
      if bool_decide (applied = checksum) then mret (Commit (Ok tt))
      else mret (Drop (Err ApiError.Conflict))
  | None =>
      _ ← exec create_schema;
      _ ← exec (insert_migration 1 checksum);
      mret (Commit (Ok tt))
  end.
Definition migrate `{C : Crypto} (MIGRATION : bytes) : api unit :=
  pg_transaction (migrate_body (arr (sha256 MIGRATION))).

(** ** Identity and sessions *)
Section Sessions.
Context `{C : Crypto}.

Definition authenticate_access (now : Z) (access_token : array 32) : api Id :=
  autocommit (device ← ask (select_access (access_hash access_token) now);
              dlift (ok_or device ApiError.InvalidCredentials)).

Definition device_account_id (device_id : Id) : api (array 32) :=
  autocommit (account_id ← ask (select_account device_id);
              dlift (ok_or account_id ApiError.Unauthorized)).

Definition check_rate_limit (now : Z) (scope : bytes) (maximum window_seconds : Z) : api unit :=
  λ w,
  if (len scope =? 0) || (96 <? len scope) || (maximum <? 1) || (window_seconds <? 1)
  then (Err ApiError.InvalidInput, w)
  else autocommit (count ← exec (bump_counter scope window_seconds now);
                   dlift (ensure (count <=? maximum) ApiError.Unauthorized)) w.

Definition register_body (account_id root_public_key : array 32) (cert : DeviceCertificate.t)
    : stmt (outcome unit) :=
  exists_ ← ask (λ d, Ok (has_device (DeviceCertificate.device_id cert) d));
  _ ← dlift (ensure (negb exists_) ApiError.Replay);
  _ ← exec (insert_account_ignore account_id root_public_key);
  valid ← ask (λ d, Ok (exists_where (λ a, account_is account_id a
            && bool_decide (Account.root_public_key a = root_public_key)) (accounts d)));
  _ ← dlift (ensure valid ApiError.Conflict);
  _ ← exec (insert_device (DeviceCertificate.device_id cert) account_id
        (DeviceCertificate.device_public_key cert));
  _ ← exec (insert_certificate (DeviceCertificate.device_id cert)
        (DeviceCertificate.signature cert) (as_i64 (DeviceCertificate.issued_at cert)));
  mret (Commit (Ok tt)).

Definition register_account_device (account_id root_public_key : array 32)
    (cert : DeviceCertificate.t) : api unit := λ w,
  if negb (bool_decide (account_id_from_root_public root_public_key = account_id))
     || negb (verify_device_certificate root_public_key cert)
  then (Err ApiError.InvalidCredentials, w)
  else pg_transaction (register_body account_id root_public_key cert) w.

(** Two statements on the pool. *)
Definition begin_challenge (now : Z) (challenge_id : Id) (challenge : array 32) (device_id : Id)
    : api Challenge.t :=
  autocommit (active ← ask (λ d, Ok (exists_where (active_device device_id) (devices d)));
              _ ← dlift (ensure active ApiError.InvalidCredentials);
              _ ← exec (insert_challenge (AuthChallenge.Make challenge_id device_id challenge
                    (now + seconds CHALLENGE_TTL_SECONDS) None));
              mret (Challenge.Make challenge_id challenge)).

Definition complete_body (seed : token_seed) (now : Z) (challenge_id : Id) (signature : array 64)
    : stmt (outcome SessionTokens.t) :=
  row ← ask (select_challenge challenge_id);
  row ← dlift (ok_or row ApiError.InvalidCredentials);
  let '(c, x) := row in
  _ ← dlift (ensure (is_none (AuthChallenge.consumed_at c)) ApiError.Replay);
  _ ← dlift (ensure (negb (AuthChallenge.expires_at c <=? now)) ApiError.Expired);
  _ ← dlift (check_signature (Device.device_public_key x)
        (auth_challenge_payload challenge_id (AuthChallenge.challenge c)) signature);
  _ ← exec (consume_challenge challenge_id now);
  tokens ← issue_tokens seed now (AuthChallenge.device_id c) None;
  mret (Commit (Ok tokens)).

Definition complete_challenge (seed : token_seed) (now : Z) (challenge_id : Id)
    (signature : array 64) : api SessionTokens.t :=
  pg_transaction (complete_body seed now challenge_id signature).

Definition rotate_body (seed : token_seed) (now : Z) (device_id : Id) (refresh_token : array 32)
    (device_signature : array 64) : stmt (outcome SessionTokens.t) :=
  let hash := refresh_hash refresh_token in
  row ← ask (select_refresh hash device_id);
  row ← dlift (ok_or row ApiError.InvalidCredentials);
  let '(r, x) := row in
  if negb (is_none (RefreshSession.used_at r)) || negb (is_none (RefreshSession.revoked_at r)) then
    _ ← exec (revoke_family (RefreshSession.family_id r) now);
    mret (Commit (Err ApiError.TokenReuse))
  else
    _ ← dlift (ensure (negb (RefreshSession.expires_at r <=? now)) ApiError.Expired);
    _ ← dlift (check_signature (Device.device_public_key x)
          (refresh_proof_payload refresh_token) device_signature);
    tokens ← issue_tokens seed now device_id (Some (RefreshSession.family_id r));
    _ ← exec (use_refresh hash (refresh_hash (SessionTokens.refresh_token tokens)) now);
    mret (Commit (Ok tokens)).

Definition rotate_refresh (seed : token_seed) (now : Z) (device_id : Id)
    (refresh_token : array 32) (device_signature : array 64) : api SessionTokens.t :=
  pg_transaction (rotate_body seed now device_id refresh_token device_signature).
End Sessions.

(** ** Usernames *)
Section Usernames.
Context `{U : Unicode}.

Definition reserved (n : text) : bool :=
  existsb (λ s, bool_decide (n = s))
    [chars "admin"; chars "support"; chars "security"; chars "resilient"; chars "system"].

(** [canonical_username(requested)] and the reserved names. *)
Definition requested_name (requested : text) : result ApiError.t text :=
  n ← map_err (λ _, ApiError.InvalidInput) (canonical_username requested);
  _ ← ensure (negb (reserved n)) ApiError.InvalidInput;
  Ok n.

Definition claim_body (now : Z) (account_id : array 32) (canonical : text) : stmt (outcome text) :=
  _ ← exec (delete_cooled canonical now);
  changed ← exec (insert_username_ignore canonical account_id);
  _ ← dlift (ensure (changed =? 1) ApiError.Conflict);
  mret (Commit (Ok canonical)).

Definition claim_username (now : Z) (account_id : array 32) (requested : text) : api text := λ w,
  match requested_name requested with
  | Err e => (Err e, w)
  | Ok canonical => pg_transaction (claim_body now account_id canonical) w
  end.

Definition NAME_COOLDOWN_SECONDS : Z := 30 * 24 * 60 * 60.
(** [UPDATE usernames SET released_at ..; INSERT INTO username_cooldowns ..] *)
Definition retire_name (now : Z) (account_id : array 32) (old : text) : stmt unit :=
  _ ← exec (release_name old now);
  _ ← exec (upsert_cooldown (Cooldown.Make old account_id (now + seconds NAME_COOLDOWN_SECONDS)));
  mret tt.

Definition change_body (now : Z) (account_id : array 32) (next : text) : stmt (outcome text) :=
  current ← ask (select_username account_id);
  if bool_decide (current = Some next) then mret (Drop (Ok next))
  else
    available ← ask (λ d, Ok (name_available next now d));
    _ ← dlift (ensure available ApiError.Conflict);
    _ ← exec (delete_released next);
    _ ← match current with
        | Some old => retire_name now account_id old
        | None => mret tt
        end;
    _ ← exec (insert_username next account_id);
    mret (Commit (Ok next)).

Definition change_username (now : Z) (account_id : array 32) (requested : text) : api text := λ w,
  match requested_name requested with
  | Err e => (Err e, w)
  | Ok next => pg_transaction (change_body now account_id next) w
  end.

Definition release_body (now : Z) (account_id : array 32) : stmt (outcome unit) :=
  current ← ask (select_username account_id);
  current ← dlift (ok_or current ApiError.InvalidInput);
  _ ← retire_name now account_id current;
  mret (Commit (Ok tt)).
Definition release_username (now : Z) (account_id : array 32) : api unit :=
  pg_transaction (release_body now account_id).

Definition exact_username_lookup (requested : text) : api (option (array 32)) := λ w,
  match canonical_username requested with
  | Err _ => (Err ApiError.InvalidInput, w)
  | Ok canonical =>
      autocommit (ask (λ d, Ok (Username.account_id <$>
        find_where (λ u, username_is canonical u && is_none (Username.released_at u))
          (usernames d)))) w
  end.
End Usernames.

(** ** Recovery and key packages *)

Definition store_recovery_package (account_id recovery_identifier : array 32)
    (encrypted_blob : bytes) : api unit := λ w,
  if (len encrypted_blob =? 0) || (MAX_RECOVERY_BLOB_SIZE <? len encrypted_blob)
  then (Err ApiError.InvalidInput, w)
  else autocommit (changed ← exec (update_recovery account_id recovery_identifier encrypted_blob);
                   dlift (ensure (changed =? 1) ApiError.Conflict)) w.

Definition fetch_recovery_package (recovery_identifier : array 32) : api (option bytes) :=
  autocommit (ask (λ d, Ok (a ← find_where (λ a,
      bool_decide (Account.recovery_identifier a = Some recovery_identifier)
      && negb (is_none (Account.recovery_blob a))) (accounts d); Account.recovery_blob a))).

Definition publish_key_package (now : Z) (device_id package_id : Id) (package : bytes)
    : api unit := λ w,
  if (len package =? 0) || (MAX_KEY_PACKAGE_SIZE <? len package)
  then (Err ApiError.InvalidInput, w)
  else autocommit (changed ← exec (insert_package (KeyPackage.Make package_id device_id package None now));
                   dlift (ensure (changed =? 1) ApiError.Conflict)) w.

Definition fetch_package_body (now : Z) (target_device_id : Id)
    : stmt (outcome (option (Id * bytes))) :=
  row ← ask (select_package target_device_id);
  match row with
  | None => mret (Commit (Ok None))
  | Some k =>
      _ ← exec (consume_package (KeyPackage.package_id k) now);
      mret (Commit (Ok (Some (KeyPackage.package_id k, KeyPackage.package k))))
  end.
Definition fetch_key_package (now : Z) (target_device_id : Id) : api (option (Id * bytes)) :=
  pg_transaction (fetch_package_body now target_device_id).

(** ** Groups *)

Definition create_group_body (group_id creator_device : Id) (account_id : array 32)
    : stmt (outcome unit) :=
  owns_device ← ask (λ d, Ok (exists_where (λ x, active_device creator_device x
        && bool_decide (Device.account_id x = account_id)) (devices d)));
  _ ← dlift (ensure owns_device ApiError.Unauthorized);
  _ ← exec (insert_group group_id creator_device);
  _ ← exec (insert_member (GroupMember.Make group_id creator_device account_id 2 None));
  mret (Commit (Ok tt)).
Definition create_group (group_id creator_device : Id) (account_id : array 32) : api unit :=
  pg_transaction (create_group_body group_id creator_device account_id).

Definition add_group_member (group_id device_id : Id) (account_id : array 32) (role : Z) : api unit :=
  autocommit (_ ← exec (insert_member (GroupMember.Make group_id device_id account_id role None));
              mret tt).

Section Membership.
Context `{C : Crypto}.
Import MembershipOperation.

Definition operation_payload (o : MembershipOperation.t) : bytes :=
  membership_operation_payload (correlation_id o) (group_id o) (author_device_id o)
    (target_device_id o) (role o) (remove o).

(** The change of [group_members] itself. *)
Definition change_member (now : Z) (o : MembershipOperation.t) : stmt unit :=
  if remove o then
    changed ← exec (remove_member (group_id o) (target_device_id o) now);
    dlift (ensure (changed =? 1) ApiError.InvalidInput)
  else
    account ← ask (select_account (target_device_id o));
    account ← dlift (ok_or account ApiError.InvalidInput);
    _ ← exec (upsert_member (GroupMember.Make (group_id o) (target_device_id o) account (role o) None));
    mret tt.

Definition membership_body (now : Z) (o : MembershipOperation.t) : stmt (outcome bool) :=
  author ← ask (select_admin_key (group_id o) (author_device_id o));
  public ← dlift (ok_or author ApiError.Unauthorized);
  _ ← dlift (check_signature public (operation_payload o) (signature o));
  stored ← ask (λ d, Ok (find_where (operation_is (correlation_id o)) (membership_operations d)));
  match stored with
  | Some m =>
      if bool_decide (MembershipRow.operation m = operation_payload o)
         && bool_decide (MembershipRow.signature m = arr (signature o))
      then mret (Commit (Ok true))
      else mret (Drop (Err ApiError.Conflict))
  | None =>
      _ ← exec (insert_operation (MembershipRow.Make (correlation_id o) (group_id o)
            (author_device_id o) (operation_payload o) (arr (signature o)) None));
      _ ← change_member now o;
      _ ← exec (apply_operation (correlation_id o) now);
      mret (Commit (Ok false))
  end.

Definition apply_membership_operation (now : Z) (o : MembershipOperation.t) : api bool := λ w,
  if negb ((0 <=? role o) && (role o <=? 2)) then (Err ApiError.InvalidInput, w)
  else pg_transaction (membership_body now o) w.
End Membership.

(** ** Delivery *)

Definition welcome_body (now : Z) (author_device_id target_device_id group_id welcome_id : Id)
    (welcome : bytes) : stmt (outcome unit) :=
  _ ← assert_active_member group_id author_device_id;
  target_known ← ask (λ d, Ok (exists_where (member_is group_id target_device_id) (group_members d)));
  _ ← dlift (ensure target_known ApiError.Unauthorized);
  _ ← exec (insert_welcome_ignore (Welcome.Make welcome_id target_device_id group_id welcome
        (now + seconds EVENT_TTL_SECONDS) None));
  mret (Commit (Ok tt)).
Definition upload_welcome (now : Z) (author_device_id target_device_id group_id welcome_id : Id)
    (welcome : bytes) : api unit := λ w,
  if (len welcome =? 0) || (65536 <? len welcome) then (Err ApiError.InvalidInput, w)
  else pg_transaction (welcome_body now author_device_id target_device_id group_id welcome_id welcome) w.

Definition fetch_welcomes_body (now : Z) (target_device_id : Id) (limit : Z)
    : stmt (outcome (list (Id * Id * bytes))) :=
  rows ← ask (select_welcomes target_device_id now (clamp 1 MAX_SYNC_BATCH limit));
  _ ← dfold (λ _ w, _ ← exec (consume_welcome (Welcome.welcome_id w) now); mret tt) tt rows;
  mret (Commit (Ok ((λ w, (Welcome.welcome_id w, Welcome.group_id w, Welcome.welcome w)) <$> rows))).
Definition fetch_welcomes (now : Z) (target_device_id : Id) (limit : Z)
    : api (list (Id * Id * bytes)) :=
  pg_transaction (fetch_welcomes_body now target_device_id limit).

(** What an accepted upload stores, but for its cursor. *)
Definition event_row (now cursor : Z) (e : UploadedEvent.t) : GroupEvent.t :=
  GroupEvent.Make cursor (UploadedEvent.event_id e) (UploadedEvent.group_id e)
    (UploadedEvent.author_device_id e) (UploadedEvent.client_message_id e)
    (UploadedEvent.correlation_id e) (UploadedEvent.event_kind e) (UploadedEvent.ciphertext e)
    (now + seconds EVENT_TTL_SECONDS).

(** The checks before the insert: membership, and the applied operation of a commit. *)
Definition upload_checks (e : UploadedEvent.t) : stmt unit :=
  _ ← assert_active_member (UploadedEvent.group_id e) (UploadedEvent.author_device_id e);
  _ ← dlift (ensure (negb ((UploadedEvent.event_kind e =? EVENT_KIND_MLS_COMMIT)
        && is_none (UploadedEvent.correlation_id e))) ApiError.InvalidInput);
  match UploadedEvent.correlation_id e with
  | None => mret tt
  | Some correlation_id =>
      operation_exists ← ask (λ d, Ok (exists_where (λ m, operation_is correlation_id m
          && bool_decide (MembershipRow.group_id m = UploadedEvent.group_id e)
          && negb (is_none (MembershipRow.applied_at m))) (membership_operations d)));
      dlift (ensure operation_exists ApiError.Conflict)
  end.

Definition upload_body (now : Z) (e : UploadedEvent.t) : stmt (outcome UploadAccepted.t) :=
  _ ← upload_checks e;
  stored ← ask (λ d, Ok (find_where (dedup_is (UploadedEvent.author_device_id e)
      (UploadedEvent.client_message_id e)) (group_events d)));
  match stored with
  | Some x =>
      if bool_decide (GroupEvent.event_id x = UploadedEvent.event_id e)
         && bool_decide (GroupEvent.ciphertext x = UploadedEvent.ciphertext e)
      then mret (Commit (Ok (UploadAccepted.Make (GroupEvent.event_cursor x) true)))
      else mret (Drop (Err ApiError.Conflict))
  | None =>
      cursor ← append_event (λ cursor, event_row now cursor e);
      _ ← exec (notify (UploadedEvent.group_id e));
      mret (Commit (Ok (UploadAccepted.Make cursor false)))
  end.

Definition upload_event (now : Z) (e : UploadedEvent.t) : api UploadAccepted.t := λ w,
  if (len (UploadedEvent.ciphertext e) =? 0) || (65536 <? len (UploadedEvent.ciphertext e))
  then (Err ApiError.InvalidInput, w)
  else pg_transaction (upload_body now e) w.

Definition sync_event (e : GroupEvent.t) : SyncEvent.t :=
  SyncEvent.Make (GroupEvent.event_cursor e) (GroupEvent.event_id e) (GroupEvent.event_kind e)
    (GroupEvent.ciphertext e).
Definition in_group (g : Id) (e : GroupEvent.t) : bool := bool_decide (GroupEvent.group_id e = g).

Definition sync_group_body (now : Z) (device_id group_id : Id) (after limit : Z)
    : stmt (outcome (list SyncEvent.t)) :=
  _ ← assert_active_member group_id device_id;
  rows ← ask (select_events (in_group group_id) (Z.max after 0) now (clamp 1 MAX_SYNC_BATCH limit));
  mret (Commit (Ok (sync_event <$> rows))).
Definition sync_group (now : Z) (device_id group_id : Id) (after limit : Z)
    : api (list SyncEvent.t) :=
  pg_transaction (sync_group_body now device_id group_id after limit).

Definition sync_global (now : Z) (device_id : Id) (after limit : Z) : api (list SyncEvent.t) :=
  autocommit (rows ← ask (λ d, select_events (visible_to device_id d) (Z.max after 0) now
                (clamp 1 MAX_SYNC_BATCH limit) d);
              mret (sync_event <$> rows)).

Definition receipts_body (device_id : Id) (event_ids : list Id) (receipt_type : Z)
    : stmt (outcome Z) :=
  inserted ← dfold (λ inserted i,
      n ← exec (insert_receipt (Receipt.Make i device_id receipt_type)); mret (inserted + n))
    0 event_ids;
  mret (Commit (Ok inserted)).
Definition record_receipts (device_id : Id) (event_ids : list Id) (receipt_type : Z) : api Z := λ w,
  if negb ((receipt_type =? 1) || (receipt_type =? 2))
     || (MAX_SYNC_BATCH <? Z.of_nat (length event_ids))
  then (Err ApiError.InvalidInput, w)
  else pg_transaction (receipts_body device_id event_ids receipt_type) w.

Definition advance_body (device_id group_id : Id) (cursor : Z) : stmt (outcome unit) :=
  _ ← assert_active_member group_id device_id;
  current ← ask (select_group_cursor device_id group_id);
  _ ← dlift (ensure (match current with Some value => negb (cursor <? value) | None => true end)
        ApiError.CursorRegression);
  available ← ask (select_max_cursor group_id);
  _ ← dlift (ensure (negb (available <? cursor)) ApiError.InvalidInput);
  _ ← exec (upsert_group_cursor (GroupCursor.Make device_id group_id cursor));
  mret (Commit (Ok tt)).
Definition advance_group_cursor (device_id group_id : Id) (cursor : Z) : api unit :=
  pg_transaction (advance_body device_id group_id cursor).

Definition cleanup_expired_events (now batch : Z) : api Z :=
  autocommit (exec (delete_expired now (clamp 1 10000 batch))).

(** ** Histories of a backend *)

Module Request.
Inductive t :=
| Migrate (MIGRATION : bytes)
| Authenticate (now : Z) (access_token : array 32)
| RateLimit (now : Z) (scope : bytes) (maximum window_seconds : Z)
| Register (account_id root_public_key : array 32) (cert : DeviceCertificate.t)
| BeginChallenge (now : Z) (challenge_id : Id) (challenge : array 32) (device_id : Id)
| CompleteChallenge (seed : token_seed) (now : Z) (challenge_id : Id) (signature : array 64)
| RotateRefresh (seed : token_seed) (now : Z) (device_id : Id) (refresh_token : array 32)
    (signature : array 64)
| ClaimUsername (now : Z) (account_id : array 32) (requested : text)
| ChangeUsername (now : Z) (account_id : array 32) (requested : text)
| ReleaseUsername (now : Z) (account_id : array 32)
| StoreRecovery (account_id recovery_identifier : array 32) (blob : bytes)
| PublishKeyPackage (now : Z) (device_id package_id : Id) (package : bytes)
| FetchKeyPackage (now : Z) (device_id : Id)
| CreateGroup (group_id creator : Id) (account_id : array 32)
| AddMember (group_id device_id : Id) (account_id : array 32) (role : Z)
| Membership (now : Z) (o : MembershipOperation.t)
| UploadWelcome (now : Z) (author target group_id welcome_id : Id) (welcome : bytes)
| FetchWelcomes (now : Z) (device_id : Id) (limit : Z)
| UploadEvent (now : Z) (e : UploadedEvent.t)
| Receipts (device_id : Id) (event_ids : list Id) (receipt_type : Z)
| AdvanceCursor (device_id group_id : Id) (cursor : Z)
| Cleanup (now batch : Z).
End Request.

(** Every operation that writes, its result dropped. *)
Definition perform `{C : Crypto} `{U : Unicode} (r : Request.t) (w : Backend) : Backend :=
  match r with
  | Request.Migrate m => (migrate m w).2
  | Request.Authenticate now t => (authenticate_access now t w).2
  | Request.RateLimit now s m win => (check_rate_limit now s m win w).2
  | Request.Register a root cert => (register_account_device a root cert w).2
  | Request.BeginChallenge now i c x => (begin_challenge now i c x w).2
  | Request.CompleteChallenge seed now i s => (complete_challenge seed now i s w).2
  | Request.RotateRefresh seed now x t s => (rotate_refresh seed now x t s w).2
  | Request.ClaimUsername now a n => (claim_username now a n w).2
  | Request.ChangeUsername now a n => (change_username now a n w).2
  | Request.ReleaseUsername now a => (release_username now a w).2
  | Request.StoreRecovery a i b => (store_recovery_package a i b w).2
  | Request.PublishKeyPackage now x i p => (publish_key_package now x i p w).2
  | Request.FetchKeyPackage now x => (fetch_key_package now x w).2
  | Request.CreateGroup g x a => (create_group g x a w).2
  | Request.AddMember g x a role => (add_group_member g x a role w).2
  | Request.Membership now o => (apply_membership_operation now o w).2
  | Request.UploadWelcome now a t g i b => (upload_welcome now a t g i b w).2
  | Request.FetchWelcomes now x n => (fetch_welcomes now x n w).2
  | Request.UploadEvent now e => (upload_event now e w).2
  | Request.Receipts x l t => (record_receipts x l t w).2
  | Request.AdvanceCursor x g c => (advance_group_cursor x g c w).2
  | Request.Cleanup now b => (cleanup_expired_events now b w).2
  end.

(** One request under any I/O failures. *)
Definition with_faults (fl : list bool) (w : Backend) : Backend :=
  World (committed w) (current w) (in_tx w) fl.
Inductive step `{C : Crypto} `{U : Unicode} : Backend → Backend → Prop :=
| step_request r fl w : step w (perform r (with_faults fl w)).
Definition steps `{C : Crypto} `{U : Unicode} : Backend → Backend → Prop := rtc step.

(** ** Every request keeps every invariant of the schema *)

Ltac solve_preserves :=
  repeat first
    [ apply _
    | by apply inv_event
    | apply preserves_bind; [|intros ?]
    | apply preserves_dfold; intros ? ?
    | case_match
    | apply stable_preserves; first
        [ by apply inv_challenge | by apply inv_refresh | by apply inv_package | by apply inv_welcome ] ].

Section Preservation.
Context (P : Db.t → Prop) `{!OtherTables P}.

#[export] Instance migrate_preserves c : Preserves P (migrate_body c).
Proof. unfold migrate_body, advisory_lock, create_migrations_table. solve_preserves. Qed.
#[export] Instance register_preserves a r c : Preserves P (register_body a r c).
Proof. unfold register_body. solve_preserves. Qed.
#[export] Instance issue_preserves `{C : Crypto} s now x f : Preserves P (issue_tokens s now x f).
Proof. unfold issue_tokens. solve_preserves. Qed.
#[export] Instance complete_preserves `{C : Crypto} s now i sig :
  Preserves P (complete_body s now i sig).
Proof. unfold complete_body. solve_preserves. Qed.
#[export] Instance rotate_preserves `{C : Crypto} s now x t sig :
  Preserves P (rotate_body s now x t sig).
Proof. unfold rotate_body. solve_preserves. Qed.
#[export] Instance claim_preserves now a n : Preserves P (claim_body now a n).
Proof. unfold claim_body. solve_preserves. Qed.
#[export] Instance retire_preserves now a n : Preserves P (retire_name now a n).
Proof. unfold retire_name. solve_preserves. Qed.
#[export] Instance change_preserves now a n : Preserves P (change_body now a n).
Proof. unfold change_body. solve_preserves. Qed.
#[export] Instance release_preserves now a : Preserves P (release_body now a).
Proof. unfold release_body. solve_preserves. Qed.
#[export] Instance fetch_package_preserves now x : Preserves P (fetch_package_body now x).
Proof. unfold fetch_package_body. solve_preserves. Qed.
#[export] Instance create_group_preserves g x a `{!Frame P} : Preserves P (create_group_body g x a).
Proof. unfold create_group_body. solve_preserves. Qed.
#[export] Instance change_member_preserves now o `{!Frame P} : Preserves P (change_member now o).
Proof. unfold change_member. solve_preserves. Qed.
#[export] Instance membership_preserves `{C : Crypto} now o `{!Frame P} : Preserves P (membership_body now o).
Proof. unfold membership_body. solve_preserves. Qed.
#[export] Instance assert_preserves g x : Preserves P (assert_active_member g x).
Proof. unfold assert_active_member. solve_preserves. Qed.
#[export] Instance welcome_preserves now a t g i b : Preserves P (welcome_body now a t g i b).
Proof. unfold welcome_body. solve_preserves. Qed.
#[export] Instance fetch_welcomes_preserves now x n : Preserves P (fetch_welcomes_body now x n).
Proof. unfold fetch_welcomes_body. solve_preserves. Qed.
#[export] Instance upload_checks_preserves e : Preserves P (upload_checks e).
Proof. unfold upload_checks. solve_preserves. Qed.
#[export] Instance upload_preserves now e : Preserves P (upload_body now e).
Proof. unfold upload_body. solve_preserves. Qed.
#[export] Instance receipts_preserves x l t : Preserves P (receipts_body x l t).
Proof. unfold receipts_body. solve_preserves. Qed.
#[export] Instance advance_preserves x g c : Preserves P (advance_body x g c).
Proof. unfold advance_body. solve_preserves. Qed.
End Preservation.

(** [P] across a request: on a clean connection. *)
Definition keeps (P : Db.t → Prop) (w w' : Backend) : Prop :=
  clean w ∧ P (current w) → clean w' ∧ P (current w').

Lemma transaction_keeps P `{!OtherTables P} {A} (body : stmt (outcome A)) w :
  Preserves P body → (∀ Q, Frame Q → Preserves Q body) → keeps P w (pg_transaction body w).2.
Proof.
  intros Hp Hb Hw. apply pg_transaction_preserves; [by apply inv_seq|done| |done].
  intros m. apply Hb, _.
Qed.

Lemma direct_keeps P {A} (body : stmt A) w : Preserves P body → keeps P w (autocommit body w).2.
Proof.
  intros Hb [Hc Hp]. split; [by apply autocommit_clean|].
  rewrite (proj2 (autocommit_current body w)). by apply Hb.
Qed.

Definition is_cleanup (r : Request.t) : bool :=
  match r with Request.Cleanup _ _ => true | _ => false end.
(** The requests that write group_members. *)
Definition changes_members (r : Request.t) : bool :=
  match r with
  | Request.CreateGroup _ _ _ | Request.AddMember _ _ _ _ | Request.Membership _ _ => true
  | _ => false
  end.
Ltac keep_request Hid :=
  cbn [perform];
  unfold migrate, authenticate_access, check_rate_limit, register_account_device, begin_challenge,
    complete_challenge, rotate_refresh, claim_username, change_username, release_username,
    store_recovery_package, publish_key_package, fetch_key_package, create_group,
    add_group_member, apply_membership_operation, upload_welcome, fetch_welcomes, upload_event,
    record_receipts, advance_group_cursor;
  repeat case_match; try exact Hid;
  first [ apply transaction_keeps; [apply _|apply _|intros; apply _] | apply direct_keeps; solve_preserves ].

Lemma perform_others `{C : Crypto} `{U : Unicode} P `{!OtherTables P} r w :
  is_cleanup r = false → changes_members r = false → keeps P w (perform r w).
Proof.
  intros Hr Hm. assert (Hid : keeps P w w) by (by intros ?). destruct r; try done; keep_request Hid.
Qed.
Lemma perform_frame `{C : Crypto} `{U : Unicode} P `{!Frame P} r w :
  is_cleanup r = false → keeps P w (perform r w).
Proof.
  intros Hr. assert (Hid : keeps P w w) by (by intros ?).
  destruct (changes_members r) eqn:Hm; [|by apply (perform_others P)]. destruct r; try done; keep_request Hid.
Qed.
Lemma perform_keeps `{C : Crypto} `{U : Unicode} P `{!Invariant P} r w :
  keeps P w (perform r w).
Proof.
  destruct (is_cleanup r) eqn:Hr; [|by apply (perform_frame P)].
  destruct r; try done. cbn [perform]. unfold cleanup_expired_events. apply direct_keeps. solve_preserves.
Qed.

Lemma with_faults_keeps P fl w : keeps P w (with_faults fl w).
Proof. by intros [[? ?] ?]. Qed.

Lemma steps_keep `{C : Crypto} `{U : Unicode} P `{!Invariant P} w w' :
  steps w w' → keeps P w w'.
Proof.
  induction 1 as [w|w w1 w' [r fl w0] _ IH]; [by intros ?|]. intros Hw.
  apply IH, perform_keeps; [done|]. by apply with_faults_keeps.
Qed.

(** ** Under failures, a request does all of its work or none of it *)

Abbreviation faithful := (Faithful ApiError.Database).
Ltac solve_faithful :=
  repeat first
    [ apply _ | apply faithful_bind; [|intros ?] | apply faithful_dfold; intros ? ? | case_match ].

#[export] Instance append_faithful row : faithful (append_event row).
Proof. unfold append_event. apply _. Qed.
#[export] Instance migrate_faithful c : faithful (migrate_body c).
Proof. unfold migrate_body, advisory_lock, create_migrations_table. solve_faithful. Qed.
#[export] Instance register_faithful a r c : faithful (register_body a r c).
Proof. unfold register_body. solve_faithful. Qed.
#[export] Instance issue_faithful `{C : Crypto} s now x f : faithful (issue_tokens s now x f).
Proof. unfold issue_tokens. solve_faithful. Qed.
#[export] Instance complete_faithful `{C : Crypto} s now i sig :
  faithful (complete_body s now i sig).
Proof. unfold complete_body. solve_faithful. Qed.
#[export] Instance rotate_faithful `{C : Crypto} s now x t sig : faithful (rotate_body s now x t sig).
Proof. unfold rotate_body. solve_faithful. Qed.
#[export] Instance claim_faithful now a n : faithful (claim_body now a n).
Proof. unfold claim_body. solve_faithful. Qed.
#[export] Instance retire_faithful now a n : faithful (retire_name now a n).
Proof. unfold retire_name. solve_faithful. Qed.
#[export] Instance change_faithful now a n : faithful (change_body now a n).
Proof. unfold change_body. solve_faithful. Qed.
#[export] Instance release_faithful now a : faithful (release_body now a).
Proof. unfold release_body. solve_faithful. Qed.
#[export] Instance fetch_package_faithful now x : faithful (fetch_package_body now x).
Proof. unfold fetch_package_body. solve_faithful. Qed.
#[export] Instance create_group_faithful g x a : faithful (create_group_body g x a).
Proof. unfold create_group_body. solve_faithful. Qed.
#[export] Instance change_member_faithful now o : faithful (change_member now o).
Proof. unfold change_member. solve_faithful. Qed.
#[export] Instance membership_faithful `{C : Crypto} now o : faithful (membership_body now o).
Proof. unfold membership_body. solve_faithful. Qed.
#[export] Instance assert_faithful g x : faithful (assert_active_member g x).
Proof. unfold assert_active_member. solve_faithful. Qed.
#[export] Instance welcome_faithful now a t g i b : faithful (welcome_body now a t g i b).
Proof. unfold welcome_body. solve_faithful. Qed.
#[export] Instance fetch_welcomes_faithful now x n : faithful (fetch_welcomes_body now x n).
Proof. unfold fetch_welcomes_body. solve_faithful. Qed.
#[export] Instance upload_checks_faithful e : faithful (upload_checks e).
Proof. unfold upload_checks. solve_faithful. Qed.
#[export] Instance upload_faithful now e : faithful (upload_body now e).
Proof. unfold upload_body. solve_faithful. Qed.
#[export] Instance sync_group_faithful now x g a n : faithful (sync_group_body now x g a n).
Proof. unfold sync_group_body. solve_faithful. Qed.
#[export] Instance receipts_faithful x l t : faithful (receipts_body x l t).
Proof. unfold receipts_body. solve_faithful. Qed.
#[export] Instance advance_faithful x g c : faithful (advance_body x g c).
Proof. unfold advance_body. solve_faithful. Qed.

Ltac api_inv H := run_inv ApiError.Database H.

(** One statement of a run. *)
Ltac run_next := rewrite (run_bind ApiError.Database) by apply _;
  rewrite ?run_query, ?run_lift, ?run_execute; cbn [ok_or].

(** A successful transaction is a run of its body that ends in a commit, or
    one that chose to drop its work. *)
Lemma transaction_Ok {A} (body : stmt (outcome A)) w a w' :
  faithful body → clean w → pg_transaction body w = (Ok a, w') →
  clean w' ∧
  (run body (current w) = (Ok (Commit (Ok a)), current w')
   ∨ same_rows (current w') (current w) ∧ (run body (current w)).1 = Ok (Drop (Ok a))).
Proof.
  intros Hb Hw H. pose proof (pg_transaction_atomic body w Hb Hw) as Ha. rewrite H in Ha.
  destruct Ha as [Hc [(Hs & Hr)|Hr]]; (split; [done|]); [|by left]. right. split; [done|].
  destruct Hr as [|Hr]; [done|]. destruct (run body (current w)) as [[[r|r]|e] d]; cbn in Hr; done || by subst.
Qed.

(** The result of a transaction, whatever fails: the database error, or that
    of its body. *)
Lemma transaction_result {A} (body : stmt (outcome A)) w :
  faithful body → clean w →
  (pg_transaction body w).1 = Err ApiError.Database
  ∨ match (run body (current w)).1 with
    | Err e => (pg_transaction body w).1 = Err e
    | Ok (Commit r) | Ok (Drop r) => (pg_transaction body w).1 = r
    end.
Proof.
  intros Hb Hw. pose proof (pg_transaction_atomic body w Hb Hw) as Ha.
  destruct (pg_transaction body w) as [r w']. cbn. destruct Ha as [_ [(_ & [Hr|Hr])|Hr]].
  - by left.
  - right. destruct (run body (current w)) as [[[r0|r0]|e] d]; cbn in *; done.
  - right. by rewrite Hr.
Qed.

(** For a body that only ever commits its results. *)
Lemma transaction_committed {A} (body : stmt (outcome A)) w a w' :
  faithful body → clean w → (∀ d' a, run body (current w) ≠ (Ok (Drop (Ok a)), d')) →
  pg_transaction body w = (Ok a, w') →
  clean w' ∧ run body (current w) = (Ok (Commit (Ok a)), current w').
Proof.
  intros Hb Hw Hd [Hc [H|[_ H]]]%transaction_Ok; [done| |done|done].
  destruct (run body (current w)) as [r d'] eqn:E. cbn in H. subst. by destruct (Hd d' a).
Qed.

(** ** Well-formed databases *)

Definition sound (w : Backend) : Prop := clean w ∧ wf (current w).

Lemma empty_wf : wf Db.empty.
Proof.
  split_and!; constructor; cbn; try (apply NoDup_nil_2); try lia;
    by intros ? ?%not_elem_of_nil.
Qed.

Section Soundness.
Context `{C : Crypto} `{U : Unicode}.

Lemma requests_sound w w' : steps w w' → sound w → sound w'.
Proof.
  intros Hs (Hc & Hk & Hr & Hg).
  destruct (steps_keep wf_keys _ _ Hs (conj Hc Hk)) as [Hc' Hk'].
  destruct (steps_keep wf_refs _ _ Hs (conj Hc Hr)) as [_ Hr'].
  destruct (steps_keep wf_ranges _ _ Hs (conj Hc Hg)) as [_ Hg'].
  by split_and!.
Qed.

Lemma perform_step r w : step w (perform r w).
Proof.
  replace w with (with_faults (faults w) w) at 2 by (by destruct w). constructor.
Qed.
Lemma request_sound r w : sound w → sound (perform r w).
Proof. apply requests_sound. by apply rtc_once, perform_step. Qed.

(** Whatever requests core-api serves and whatever statements fail on the
    way, from an empty database on no transaction is left open, every key is
    unique (an account has at most one active username, a name at most one
    owner, an upload at most one event), every reference leads somewhere, and
    every event has a cursor below the next one to be given out. *)
Theorem backend_invariant fl w : steps (quiet Db.empty fl) w → clean w ∧ wf (current w).
Proof. intros Hs. apply (requests_sound _ _ Hs). split; [done|apply empty_wf]. Qed.
End Soundness.

(** *** Properties of rows that only grow *)

(** A row that stays when rows are added or changed in place. *)
Lemma update_where_keeps {R} (Q : R → Prop) p f t :
  (∀ r, Q r → Q (f r)) → (∃ r, r ∈ t ∧ Q r) → ∃ r, r ∈ update_where p f t ∧ Q r.
Proof.
  intros Hf (r & Hr & HQ). exists (if p r then f r else r). split.
  - apply elem_of_update. eauto.
  - destruct (p r); auto.
Qed.
Lemma snoc_keeps {R} (Q : R → Prop) x t : (∃ r, r ∈ t ∧ Q r) → ∃ r, r ∈ t ++ [x] ∧ Q r.
Proof. intros (r & Hr & HQ). exists r. rewrite elem_of_app. auto. Qed.

Lemma append_event_frame P row :
  (∀ d n, P d → P (set_event_seq n d)) → (∀ d l, P d → P (set_group_events l d)) →
  Preserves P (append_event row).
Proof.
  intros H1 H2. apply append_event_preserves. intros d n d'.
  unfold next_cursor. destruct (_ <? _); [done|]. intros [= <- <-] Hd. split; [by apply H1|].
  intros m d'' (_ & _ & ->)%guarded_Ok. by apply H2, H1.
Qed.

(** A property of tables other than [group_events]. *)
Ltac solve_frame :=
  split; [split; [constructor|..]|];
  [ by intros | intros; first [frame_statement | by apply append_event_frame] .. ].

(** ** A concrete backend *)

Module Demo.
Definition alice : array 32 := fill 32 1.
Definition admin_device : Id := fill 16 1.
Definition other_device : Id := fill 16 2.
Definition group : Id := fill 16 9.
Definition seed (n : Z) : token_seed := TokenSeed (fill 32 n) (fill 32 (n + 1)) (fill 16 n).

(** An account with two devices, the administrator and a member of one group, a
    username, an open challenge, a live refresh token and a key package. *)
Definition db : Db.t :=
  set_accounts [Account.Make alice (fill 32 2) None None]
  (set_devices [Device.Make admin_device alice (fill 32 5) None;
                Device.Make other_device alice (fill 32 6) None]
  (set_usernames [Username.Make (chars "alice") alice None]
  (set_auth_challenges [AuthChallenge.Make (fill 16 3) admin_device (fill 32 4) 1000 None]
  (set_refresh_sessions [RefreshSession.Make (refresh_hash (fill 32 7)) (fill 16 8) admin_device
     None 1000 None None]
  (set_key_packages [KeyPackage.Make (fill 16 4) other_device [z2b 1] None 5]
  (set_groups [Group.Make group admin_device]
  (set_group_members [GroupMember.Make group admin_device alice 2 None;
                      GroupMember.Make group other_device alice 0 None] Db.empty))))))).
Definition backend : Backend := quiet db [].

Ltac solve_unique := apply (bool_decide_unpack _); vm_compute; exact I.
Ltac solve_rows := repeat match goal with
  | H : _ ∈ [] |- _ => by apply not_elem_of_nil in H
  | H : _ ∈ _ :: _ |- _ => apply elem_of_cons in H as [->|H]
  end; vm_compute.
Ltac open_rows x Hx := cbn [db accounts devices usernames auth_challenges access_sessions
    refresh_sessions key_packages groups group_members group_events device_group_cursors
    message_receipts abuse_counters event_seq set_accounts set_devices set_usernames
    set_auth_challenges set_refresh_sessions set_key_packages set_groups set_group_members Db.empty];
  intros x Hx; solve_rows.

Lemma db_keys : wf_keys db.
Proof. constructor; solve_unique. Qed.
Lemma db_refs : wf_refs db.
Proof. constructor; open_rows x Hx; reflexivity. Qed.
Lemma db_ranges : wf_ranges db.
Proof.
  constructor; [by vm_compute| | | | |].
  all: open_rows x Hx. all: try (split; congruence). all: try congruence.
Qed.
Lemma db_wf : wf db.
Proof. split_and!; [apply db_keys|apply db_refs|apply db_ranges]. Qed.
Lemma backend_sound : sound backend.
Proof. split; [done|apply db_wf]. Qed.
End Demo.

Lemma pair_of {A B} (p : A * B) a : p.1 = a → p = (a, p.2).
Proof. destruct p. by intros <-. Qed.

Lemma backend_invariant_witness :
  ∃ w, steps (quiet Db.empty []) w ∧ clean w ∧ wf (current w)
  ∧ schema_created (current w) = true.
Proof.
  set (w := perform (Request.Migrate []) (quiet Db.empty [])).
  assert (Hs : steps (quiet Db.empty []) w) by (apply rtc_once, perform_step).
  exists w. split; [exact Hs|]. destruct (backend_invariant [] w Hs) as [H1 H2].
  split; [exact H1|]. split; [exact H2|]. vm_compute. reflexivity.
Defined.
