(* ===== verification/CoreSessions.v ===== *)
(** * CoreSessions: authentication, usernames, key packages and rate limits

    The theorems on the operations of CoreApi that guard who may do what: a
    challenge opens one session, a refresh token rotates once and its reuse
    revokes the family, a released username cools down, a key package is handed
    out once, a rate limit admits its maximum per window. *)
From Stdlib Require Import ZArith Lia Sorting.Sorted.
From stdpp Require Import base list strings relations.
From S2P Require Import Prelude Protocol Crypto DirectoryTool Sql Identity CoreDb CoreApi.
Import Db.

(** ** Challenges and sessions *)

Definition consumed_challenge (i : Id) (d : Db.t) : Prop :=
  ∃ c, c ∈ auth_challenges d ∧ AuthChallenge.challenge_id c = i
    ∧ AuthChallenge.consumed_at c ≠ None.

#[export] Instance consumed_challenge_invariant i : Invariant (consumed_challenge i).
Proof.
  solve_frame.
  - by apply snoc_keeps.
  - apply update_where_keeps; [|done]. by intros c [? _].
Qed.

Section Challenges.
Context `{C : Crypto} `{U : Unicode}.

(** What [issue_tokens] stores. *)
Definition issued (seed : token_seed) (now : Z) (x family : Id) (d : Db.t) : Db.t :=
  set_refresh_sessions (refresh_sessions d ++ [RefreshSession.Make
      (refresh_hash (seed_refresh seed)) family x None
      (now + seconds REFRESH_TTL_SECONDS) None None])
    (set_access_sessions (access_sessions d ++ [AccessSession.Make
      (access_hash (seed_access seed)) x (now + seconds ACCESS_TTL_SECONDS)]) d).

Lemma issue_run_Ok seed now x f d t d' :
  run (issue_tokens seed now x f) d = (Ok t, d') →
  d' = issued seed now x (default (seed_family seed) f) d
  ∧ t = SessionTokens.Make (seed_access seed) (seed_refresh seed)
  ∧ exists_where (access_is (access_hash (seed_access seed))) (access_sessions d) = false
  ∧ exists_where (refresh_is (refresh_hash (seed_refresh seed))) (refresh_sessions d) = false.
Proof.
  unfold issue_tokens. intros H. api_inv H. api_inv H. injection H as <- <-.
  apply guarded_Ok in Ha as (Ha & _ & ->). apply guarded_Ok in Ha0 as (Ha0 & _ & ->).
  split_bools. done.
Qed.

(** Completing a challenge, statement by statement. *)
Lemma complete_run_Ok seed now i sig d o d' :
  run (complete_body seed now i sig) d = (Ok o, d') →
  ∃ c x, find_where (challenge_is i) (auth_challenges d) = Some c
  ∧ find_where (device_is (AuthChallenge.device_id c)) (devices d) = Some x
  ∧ AuthChallenge.consumed_at c = None ∧ now < AuthChallenge.expires_at c
  ∧ check_signature (Device.device_public_key x)
      (auth_challenge_payload i (AuthChallenge.challenge c)) sig = Ok tt
  ∧ d' = issued seed now (AuthChallenge.device_id c) (seed_family seed)
         (set_auth_challenges (update_where (challenge_is i) (AuthChallenge.set_consumed now)
           (auth_challenges d)) d)
  ∧ exists_where (access_is (access_hash (seed_access seed))) (access_sessions d) = false
  ∧ o = Commit (Ok (SessionTokens.Make (seed_access seed) (seed_refresh seed))).
Proof.
  unfold complete_body. intros H. api_inv H. api_inv H. apply ok_or_Ok in Ha0. subst.
  destruct a0 as [c x]. api_inv H. apply ensure_Ok in Ha0. api_inv H. apply ensure_Ok in Ha1.
  api_inv H. api_inv H. apply (run_bind_Ok ApiError.Database) in H; [|apply _].
  destruct H as (tok & d2 & Ht & H). injection H as <- <-.
  apply issue_run_Ok in Ht as (-> & -> & Hacc & _). injection Ha3 as <- <-.
  unfold select_challenge in Ha. injection Ha as Ha.
  destruct (find_where (challenge_is i) _) as [c'|] eqn:Ec; [|done]. cbn in Ha.
  destruct (find_where (device_is _) _) as [x'|] eqn:Ex; [|done]. injection Ha as -> ->.
  exists c, x. destruct a1. split_and!; try done; [|lia].
  by destruct (AuthChallenge.consumed_at c).
Qed.

Lemma complete_consumed seed now i sig d :
  wf d → consumed_challenge i d → (run (complete_body seed now i sig) d).1 = Err ApiError.Replay.
Proof.
  intros (Hk & Hr & _) (c & Hc & Hi & Hne). pose proof (ref_challenge _ Hr _ Hc) as Hd.
  pose proof (find_key _ _ _ _ _ (challenge_keyed i) (key_challenge _ Hk) Hc Hi) as Hf.
  destruct (find_where (device_is (AuthChallenge.device_id c)) (devices d)) as [x|] eqn:Ex;
    [|apply find_where_None in Ex; unfold has_device in Hd; congruence].
  assert (Hsel : select_challenge i d = Ok (Some (c, x))).
  { unfold select_challenge. rewrite Hf. cbn. by rewrite Ex. }
  unfold complete_body. run_next. rewrite Hsel. run_next. run_next.
  by destruct (AuthChallenge.consumed_at c).
Qed.

(** C13: A challenge opens at most one session: tokens are issued only for a
    stored, unconsumed, unexpired challenge answered with a signature of the
    device it was given to, and after that every further answer to it is a
    replay, whatever requests come between and whatever fails. *)
Theorem challenge_single_use w seed now i sig t w1 w2 :
  sound w → complete_challenge seed now i sig w = (Ok t, w1) → steps w1 w2 →
  (∃ c x, c ∈ auth_challenges (current w) ∧ AuthChallenge.challenge_id c = i
     ∧ AuthChallenge.consumed_at c = None ∧ now < AuthChallenge.expires_at c
     ∧ x ∈ devices (current w) ∧ Device.device_id x = AuthChallenge.device_id c
     ∧ vk_verify (Device.device_public_key x)
         (auth_challenge_payload i (AuthChallenge.challenge c)) sig = true)
  ∧ ∀ seed' now' sig',
      (complete_challenge seed' now' i sig' w2).1 = Err ApiError.Replay
      ∨ (complete_challenge seed' now' i sig' w2).1 = Err ApiError.Database.
Proof.
  intros Hw H Hs. pose proof (request_sound (Request.CompleteChallenge seed now i sig) w Hw) as Hw1.
  cbn [perform] in Hw1. rewrite H in Hw1. cbn in Hw1.
  apply transaction_committed in H as (_ & H); [|apply _|apply Hw|]; last first.
  { intros d a E%complete_run_Ok. by destruct E as (c & x & E); destruct_and! E. }
  apply complete_run_Ok in H as (c & x & Hf & Hx & Hcons & Hexp & Hsig & Hd1 & _ & _).
  apply find_where_Some in Hf as [Hin Hid%challenge_keyed].
  apply find_where_Some in Hx as [Hxin Hxid%device_keyed].
  split.
  { exists c, x. split_and!; try done. unfold check_signature in Hsig.
    apply bind_Ok in Hsig as (u & _ & Hsig). by apply ensure_Ok in Hsig. }
  intros seed' now' sig'.
  assert (Hcons1 : consumed_challenge i (current w1)).
  { rewrite Hd1. exists (AuthChallenge.set_consumed now c). cbn. split_and!; try done.
    apply elem_of_update. exists c. by rewrite (proj2 (challenge_keyed i c)). }
  destruct (steps_keep (consumed_challenge i) _ _ Hs (conj (proj1 Hw1) Hcons1)) as [_ Hcons2].
  pose proof (requests_sound _ _ Hs Hw1) as [Hc2 Hwf2].
  destruct (transaction_result (complete_body seed' now' i sig') w2 _ Hc2) as [Hr|Hr]; [by right|].
  left. by rewrite (complete_consumed _ _ _ _ _ Hwf2 Hcons2) in Hr.
Qed.
End Challenges.

(** ** Refresh rotation *)

(** The refresh token of hash [h] was used or revoked. *)
Definition dead_token (x f : Id) (h : array 32) (d : Db.t) : Prop :=
  ∃ r, r ∈ refresh_sessions d ∧ RefreshSession.token_hash r = h ∧ RefreshSession.device_id r = x
    ∧ RefreshSession.family_id r = f
    ∧ (RefreshSession.used_at r ≠ None ∨ RefreshSession.revoked_at r ≠ None).

#[export] Instance dead_token_invariant x f h : Invariant (dead_token x f h).
Proof.
  solve_frame.
  - by apply snoc_keeps.
  - apply update_where_keeps; [|done]. intros r (? & ? & ? & _). split_and!; try done. by right.
  - apply update_where_keeps; [|done]. intros r (? & ? & ? & _). split_and!; try done. by left.
Qed.

(** A refresh token of hash [h] was issued. *)
Definition issued_token (x f : Id) (h : array 32) (d : Db.t) : Prop :=
  ∃ r, r ∈ refresh_sessions d ∧ RefreshSession.token_hash r = h ∧ RefreshSession.device_id r = x
    ∧ RefreshSession.family_id r = f.

#[export] Instance issued_token_invariant x f h : Invariant (issued_token x f h).
Proof. solve_frame; [by apply snoc_keeps|by apply update_where_keeps..]. Qed.

Section Refresh.
Context `{C : Crypto} `{U : Unicode}.

(** The database after a reuse was detected. *)
Definition family_revoked (f : Id) (now : Z) (d : Db.t) : Db.t :=
  set_refresh_sessions (update_where (family_is f) (RefreshSession.set_revoked now)
    (refresh_sessions d)) d.

Lemma select_refresh_found h x d r :
  wf d → r ∈ refresh_sessions d → RefreshSession.token_hash r = h →
  RefreshSession.device_id r = x →
  ∃ dev, select_refresh h x d = Ok (Some (r, dev)) ∧ dev ∈ devices d ∧ Device.device_id dev = x.
Proof.
  intros (Hk & Hr & _) Hin Hh Hx. pose proof (ref_refresh _ Hr _ Hin) as Hd.
  unfold select_refresh. destruct (find_where (λ r, _ && _) _) as [r'|] eqn:Ef.
  - apply find_where_Some in Ef as [Hin' [Hp _]%andb_true_iff]. apply refresh_keyed in Hp.
    assert (r' = r) as -> by (apply (NoDup_key_inj RefreshSession.token_hash (refresh_sessions d));
      [apply Hk|done|done|congruence]).
    cbn. destruct (find_where (device_is _) (devices d)) as [dev|] eqn:Ex;
      [|apply find_where_None in Ex; unfold has_device in Hd; congruence].
    apply find_where_Some in Ex as [? ?%device_keyed]. exists dev. split_and!; congruence || done.
  - apply find_where_None in Ef. rewrite exists_where_false in Ef. specialize (Ef r Hin). cbn in Ef.
    rewrite (proj2 (refresh_keyed h r) Hh), bool_decide_eq_true_2 in Ef; done.
Qed.

Lemma rotate_dead seed now x t sig f d :
  wf d → dead_token x f (refresh_hash t) d →
  run (rotate_body seed now x t sig) d
  = (Ok (Commit (Err ApiError.TokenReuse)), family_revoked f now d).
Proof.
  intros Hwf (r & Hr & Hh & Hx & Hf & Hdead).
  destruct (select_refresh_found _ _ _ _ Hwf Hr Hh Hx) as (dev & Hsel & _).
  unfold rotate_body. run_next. rewrite Hsel. run_next.
  assert (Hb : negb (is_none (RefreshSession.used_at r)) || negb (is_none (RefreshSession.revoked_at r))
    = true).
  { destruct (RefreshSession.used_at r), (RefreshSession.revoked_at r); try done. by destruct Hdead. }
  rewrite Hb. run_next. by rewrite Hf.
Qed.

Lemma rotate_run_Ok seed now x t sig d o d' :
  run (rotate_body seed now x t sig) d = (Ok o, d') →
  ∃ r dev, r ∈ refresh_sessions d ∧ RefreshSession.token_hash r = refresh_hash t
  ∧ RefreshSession.device_id r = x ∧ dev ∈ devices d ∧ Device.device_id dev = x
  ∧ ((RefreshSession.used_at r ≠ None ∨ RefreshSession.revoked_at r ≠ None)
       ∧ o = Commit (Err ApiError.TokenReuse) ∧ d' = family_revoked (RefreshSession.family_id r) now d
     ∨ RefreshSession.used_at r = None ∧ RefreshSession.revoked_at r = None
       ∧ now < RefreshSession.expires_at r
       ∧ vk_verify (Device.device_public_key dev) (refresh_proof_payload t) sig = true
       ∧ o = Commit (Ok (SessionTokens.Make (seed_access seed) (seed_refresh seed)))
       ∧ refresh_hash (seed_refresh seed) ≠ refresh_hash t
       ∧ let d1 := issued seed now x (RefreshSession.family_id r) d in
         d' = set_refresh_sessions (update_where (refresh_is (refresh_hash t))
           (RefreshSession.set_used now (refresh_hash (seed_refresh seed))) (refresh_sessions d1)) d1).
Proof.
  unfold rotate_body. intros H. api_inv H. api_inv H. apply ok_or_Ok in Ha0. subst.
  destruct a0 as [r dev]. unfold select_refresh in Ha. injection Ha as Ha.
  destruct (find_where (λ r, _ && _) _) as [r'|] eqn:Er; [|done]. cbn in Ha.
  destruct (find_where (device_is _) _) as [dev'|] eqn:Ed; [|done]. injection Ha as -> ->.
  apply find_where_Some in Er as [Hin [Hh%refresh_keyed Hx%bool_decide_eq_true]%andb_true_iff].
  apply find_where_Some in Ed as [Hdin Hdx%device_keyed].
  exists r, dev. split_and!; try done; [congruence|].
  destruct (_ || _) eqn:Eb.
  - left. api_inv H. injection H as <- <-. injection Ha as <- <-. split_and!; [|done|done].
    destruct (RefreshSession.used_at r); [by left|]. right. by destruct (RefreshSession.revoked_at r).
  - right. apply orb_false_iff in Eb as [E1 E2]. api_inv H. apply ensure_Ok in Ha. api_inv H.
    apply (run_bind_Ok ApiError.Database) in H; [|apply _].
    destruct H as (tok & d2 & Ht & H). apply issue_run_Ok in Ht as (-> & -> & _ & Hfresh).
    api_inv H. injection H as <- <-. unfold use_refresh in Ha1.
    destruct (_ && _) in Ha1; [done|]. injection Ha1 as <- <-.
    unfold check_signature in Ha0. apply bind_Ok in Ha0 as (u & _ & Hsig). apply ensure_Ok in Hsig.
    split_and!; try done; try lia.
    + by destruct (RefreshSession.used_at r).
    + by destruct (RefreshSession.revoked_at r).
    + intros He. rewrite exists_where_false in Hfresh. specialize (Hfresh r Hin).
      apply bool_decide_eq_false in Hfresh. congruence.
Qed.

(** Presenting a dead token revokes every token of its family, for good. *)
Lemma reuse_revokes w seed now x t sig f r w' :
  sound w → dead_token x f (refresh_hash t) (current w) →
  rotate_refresh seed now x t sig w = (r, w') →
  r = Err ApiError.Database
  ∨ r = Err ApiError.TokenReuse
    ∧ ∀ row, row ∈ refresh_sessions (current w) → RefreshSession.family_id row = f →
        dead_token (RefreshSession.device_id row) f (RefreshSession.token_hash row) (current w').
Proof.
  intros [Hc Hwf] Hdead H. unfold rotate_refresh in H.
  pose proof (pg_transaction_atomic (rotate_body seed now x t sig) w _ Hc) as Ha.
  rewrite H, (rotate_dead seed now x t sig f _ Hwf Hdead) in Ha.
  destruct Ha as [_ [[_ [->|[]]]|[= <- <-]]]; [by left|]. right. split; [done|]. intros row Hrow Hf.
  exists (RefreshSession.set_revoked now row). cbn. split_and!; try done; [|by right].
  apply elem_of_update. exists row. split; [done|]. unfold family_is.
  by rewrite bool_decide_eq_true_2.
Qed.

Lemma dead_refused w w' seed now x t sig f :
  sound w → dead_token x f (refresh_hash t) (current w) → steps w w' →
  let r := (rotate_refresh seed now x t sig w').1 in
  r = Err ApiError.TokenReuse ∨ r = Err ApiError.Database.
Proof.
  intros Hw Hdead Hs. cbn zeta.
  destruct (steps_keep _ _ _ Hs (conj (proj1 Hw) Hdead)) as [Hc Hdead'].
  pose proof (proj2 (requests_sound _ _ Hs Hw)) as Hwf.
  destruct (transaction_result (rotate_body seed now x t sig) w' _ Hc) as [Hr|Hr]; [by right|].
  rewrite (rotate_dead _ _ _ _ _ _ _ Hwf Hdead') in Hr. by left.
Qed.

(** C18: A refresh token rotates once.  When it is presented again, at any later
    time and with any signature, the answer is the reuse error (or that of a
    failing database), and its whole family is revoked: the token belonged to a
    family, the one that replaced it does too, and every token of that family
    that was ever issued, whichever device holds it, is from then on refused
    with the same error. *)
Theorem refresh_reuse_revokes_family w seed now x t sig ts w1 w2 :
  sound w → rotate_refresh seed now x t sig w = (Ok ts, w1) → steps w1 w2 →
  ∃ f, issued_token x f (refresh_hash t) (current w)
  ∧ issued_token x f (refresh_hash (SessionTokens.refresh_token ts)) (current w2)
  ∧ ∀ seed' now' sig' r w3, rotate_refresh seed' now' x t sig' w2 = (r, w3) →
    r = Err ApiError.Database
    ∨ r = Err ApiError.TokenReuse
      ∧ ∀ x'' t'', issued_token x'' f (refresh_hash t'') (current w2) →
          ∀ w4 seed'' now'' sig'', steps w3 w4 →
          let r'' := (rotate_refresh seed'' now'' x'' t'' sig'' w4).1 in
          r'' = Err ApiError.TokenReuse ∨ r'' = Err ApiError.Database.
Proof.
  intros Hw H Hs.
  pose proof (request_sound (Request.RotateRefresh seed now x t sig) w Hw) as Hw1.
  cbn [perform] in Hw1. rewrite H in Hw1. cbn in Hw1.
  pose proof (requests_sound _ _ Hs Hw1) as Hw2.
  apply transaction_committed in H as (_ & H); [|apply _|apply Hw|]; last first.
  { intros d a E%rotate_run_Ok.
    by destruct E as (? & ? & _ & _ & _ & _ & _ & [(_ & ? & _)|(_ & _ & _ & _ & ? & _)]). }
  apply rotate_run_Ok in H as (row & dev & Hin & Hh & Hx & _ & _ &
    [(_ & ? & _)|(Hu & Hrev & _ & _ & Hts & Hne & Hd1)]); [done|]. injection Hts as ->.
  cbn in Hd1. cbn [SessionTokens.refresh_token].
  set (f := RefreshSession.family_id row) in *.
  assert (Hdead : dead_token x f (refresh_hash t) (current w1)).
  { rewrite Hd1. eexists (RefreshSession.set_used now _ row). cbn. split_and!; try done; [|by left].
    apply elem_of_update. exists row. split; [apply elem_of_app; by left|].
    by rewrite (proj2 (refresh_keyed _ row) Hh). }
  assert (Hnew : issued_token x f (refresh_hash (seed_refresh seed)) (current w1)).
  { rewrite Hd1. apply update_where_keeps; [done|]. cbn. eexists. rewrite elem_of_app.
    split; [right; left|done]. }
  destruct (steps_keep _ _ _ Hs (conj (proj1 Hw1) Hdead)) as [Hc2 Hdead2].
  destruct (steps_keep _ _ _ Hs (conj (proj1 Hw1) Hnew)) as [_ Hnew2].
  exists f. split; [by exists row|]. split; [exact Hnew2|]. intros seed' now' sig' r w3 H3.
  pose proof (request_sound (Request.RotateRefresh seed' now' x t sig') w2 Hw2) as Hw3.
  cbn [perform] in Hw3. rewrite H3 in Hw3. cbn in Hw3.
  destruct (reuse_revokes _ _ _ _ _ _ _ _ _ Hw2 Hdead2 H3) as [->|[-> Hall]]; [by left|].
  right. split; [done|]. intros x'' t'' (r'' & Hr & Hrh & Hrx & Hrf) w4 seed'' now'' sig'' Hs4.
  specialize (Hall r'' Hr Hrf). rewrite Hrh, Hrx in Hall. by eapply dead_refused.
Qed.
End Refresh.

(** ** Usernames *)

Section UsernameTheorems.
Context `{U : Unicode}.

Lemma requested_name_length r n : requested_name r = Ok n → name_length_ok n = true.
Proof.
  unfold requested_name. intros (m & Hm & H)%bind_Ok.
  apply bind_Ok in H as (u & _ & [= ->]). apply map_err_Ok in Hm.
  unfold canonical_username in Hm. destruct (_ || _) eqn:E; [done|].
  injection Hm as <-. apply orb_false_iff in E as [E _]. by apply negb_false_iff in E.
Qed.

Lemma claim_run now a n d :
  name_length_ok n = true →
  let d1 := if cooling n now d then d
            else set_usernames (delete_where (released_name n) (usernames d)) d in
  run (claim_body now a n) d =
    if username_conflict n a d1 then (Err ApiError.Conflict, d1)
    else if has_account a d
    then (Ok (Commit (Ok n)), set_usernames (usernames d1 ++ [Username.Make n a None]) d1)
    else (Err ApiError.Database, d1).
Proof.
  intros Hn d1. unfold claim_body. run_next.
  assert (Hd : delete_cooled n now d = Ok (if cooling n now d then 0
    else count_where (released_name n) (usernames d), d1)).
  { unfold delete_cooled, d1. by destruct (cooling n now d). }
  rewrite Hd. run_next. unfold insert_username_ignore, insert_username. rewrite Hn. cbn [andb].
  destruct (username_conflict n a d1) eqn:Ec; [done|].
  replace (has_account a d1) with (has_account a d) by (unfold d1; by destruct (cooling n now d)).
  cbn [andb negb]. by destruct (has_account a d).
Qed.

Lemma exists_where_upsert {R} (p q : R → bool) r t :
  p r = true →
  exists_where (λ x, p x && q x) (if exists_where p t then update_where p (λ _, r) t else t ++ [r])
  = q r.
Proof.
  intros Hr. destruct (exists_where p t) eqn:E.
  - apply eq_true_iff_eq. rewrite exists_where_true. split.
    + intros (x & (y & Hy & ->)%elem_of_update & Hx). destruct (p y) eqn:Ey.
      * by rewrite Hr in Hx.
      * by rewrite Ey in Hx.
    + intros Hq. apply exists_where_true in E as (y & Hy & Ey). exists r. rewrite Hr. split; [|done].
      apply elem_of_update. exists y. by rewrite Ey.
  - unfold exists_where in *. rewrite existsb_app. cbn. rewrite Hr, orb_false_r. cbn.
    replace (existsb (λ x, p x && q x) t) with false; [done|].
    symmetry. apply not_true_iff_false. rewrite existsb_exists. intros (x & Hx & [Hp _]%andb_true_iff).
    apply not_true_iff_false in E. apply E, existsb_exists. eauto.
Qed.

(** A successful release. *)
Lemma release_run_Ok now a d o d' :
  run (release_body now a) d = (Ok o, d') →
  ∃ n u, select_username a d = Ok (Some n) ∧ u ∈ usernames d ∧ Username.canonical_username u = n
  ∧ usernames d' = update_where (username_is n) (Username.set_released now) (usernames d)
  ∧ (∀ t, cooling n t d' = (t <? now + seconds NAME_COOLDOWN_SECONDS))
  ∧ accounts d' = accounts d ∧ o = Commit (Ok tt).
Proof.
  unfold release_body, retire_name. intros H. api_inv H. api_inv H. apply ok_or_Ok in Ha0. subst.
  apply (run_bind_Ok ApiError.Database) in H; [|apply _]. destruct H as (u0 & d2 & Hr & H).
  injection H as <- <-. api_inv Hr. api_inv Hr. injection Hr as <- <-.
  injection Ha0 as <- <-. apply guarded_Ok in Ha1 as (_ & _ & ->).
  pose proof Ha as Hs. injection Ha as Ha.
  destruct (find_where (active_of a) (usernames d)) as [u|] eqn:Eu; [|done]. injection Ha as Hn.
  apply find_where_Some in Eu as [Hu _].
  exists a1, u. split_and!; try done. intros t.
  apply (exists_where_upsert (cooldown_is a1) (λ c, t <? Cooldown.release_after c)
    (Cooldown.Make a1 a (now + seconds NAME_COOLDOWN_SECONDS))). by apply cooldown_keyed.
Qed.

(** An account has one active name. *)
Lemma find_active a u d :
  wf_keys d → u ∈ usernames d → active_of a u = true → find_where (active_of a) (usernames d) = Some u.
Proof.
  intros Hk Hu Ha. destruct (find_where (active_of a) (usernames d)) as [u'|] eqn:E.
  - apply find_where_Some in E as [Hin Ha']. f_equal.
    apply andb_true_iff in Ha as [Ha%bool_decide_eq_true Hn], Ha' as [Ha'%bool_decide_eq_true Hn'].
    apply (NoDup_key_inj Username.account_id (select_where is_active (usernames d))); [apply Hk| | |congruence];
      by apply elem_of_select.
  - apply find_where_None in E. rewrite exists_where_false in E. by rewrite (E u Hu) in Ha.
Qed.

Lemma find_where_ext {R} (p q : R → bool) t : (∀ r, r ∈ t → p r = q r) → find_where p t = find_where q t.
Proof.
  induction t as [|r t IH]; intros H; [done|]. rewrite !find_where_cons, H by left.
  rewrite IH; [done|]. intros x Hx. apply H. by right.
Qed.

Lemma requested_name_canonical r n : requested_name r = Ok n → canonical_username r = Ok n.
Proof.
  unfold requested_name. intros (m & Hm & H)%bind_Ok.
  apply bind_Ok in H as (u & _ & [= ->]). by apply map_err_Ok in Hm.
Qed.

Lemma lookup_run r n d :
  canonical_username r = Ok n →
  (exact_username_lookup r (quiet d [])).1
  = Ok (Username.account_id <$>
      find_where (λ u, username_is n u && is_none (Username.released_at u)) (usernames d)).
Proof. intros Hr. unfold exact_username_lookup. rewrite Hr. done. Qed.

(** [n] was given up and cools down until [until]. *)
Definition retired (n : text) (until : Z) (d : Db.t) : Prop :=
  exists_where (username_is n) (usernames d) = true
  ∧ (∀ x, x ∈ usernames d → username_is n x = true → is_none (Username.released_at x) = false)
  ∧ ∀ t, cooling n t d = (t <? until).

Lemma release_retires now a d o d' :
  run (release_body now a) d = (Ok o, d') →
  o = Commit (Ok tt)
  ∧ ∃ n, select_username a d = Ok (Some n) ∧ retired n (now + seconds NAME_COOLDOWN_SECONDS) d'.
Proof.
  intros (n & u & Hsel & Hu & Hn & Hus & Hcool & _ & Ho)%release_run_Ok.
  split; [done|]. exists n. split; [done|]. split_and!; [| |done].
  - rewrite Hus. apply (exists_where_key _ _ _ (usernames d) _ (username_keyed n)).
    + by apply update_key.
    + apply exists_where_true. exists u. split; [done|]. by apply username_keyed.
  - rewrite Hus. intros x (y & Hy & ->)%elem_of_update.
    destruct (username_is n y) eqn:Ey; [done|]. by rewrite Ey.
Qed.

Section Retired.
Context {n : text} {until : Z} {d : Db.t} (Hret : retired n until d).

Lemma lookup_retired r : requested_name r = Ok n → (exact_username_lookup r (quiet d [])).1 = Ok None.
Proof using Hret.
  intros Hr. rewrite (lookup_run _ n) by (by apply requested_name_canonical).
  destruct Hret as (_ & Hrel & _).
  replace (find_where _ _) with (@None Username.t); [done|]. symmetry.
  apply find_where_None, exists_where_false. intros x Hx.
  destruct (username_is n x) eqn:Ex; [|done]. by apply Hrel.
Qed.

Lemma claim_retired r b t :
  requested_name r = Ok n → t < until →
  (claim_username t b r (quiet d [])).1 = Err ApiError.Conflict.
Proof using Hret.
  intros Hr Ht. destruct Hret as (Hrow & _ & Hcool).
  unfold claim_username. rewrite Hr, pg_transaction_run by apply _.
  rewrite claim_run by (by eapply requested_name_length). rewrite Hcool.
  destruct (Z.ltb_spec t until); [|lia]. unfold username_conflict. by rewrite Hrow.
Qed.

Lemma change_retired r b t :
  requested_name r = Ok n → t < until →
  (change_username t b r (quiet d [])).1 = Err ApiError.Conflict.
Proof using Hret.
  intros Hr Ht. destruct Hret as (Hrow & Hrel & Hcool).
  unfold change_username. rewrite Hr, pg_transaction_run by apply _. unfold change_body. run_next.
  unfold select_username. rewrite bool_decide_eq_false_2.
  - run_next. unfold name_available. replace (exists_where _ (usernames d)) with true; [done|].
    symmetry. apply exists_where_true. apply exists_where_true in Hrow as (x & Hx & Hxn).
    exists x. split; [done|]. rewrite Hxn, Hcool. cbn.
    destruct (Z.ltb_spec t until); [|lia]. apply orb_true_r.
  - intros (x & Hx & Hxn)%fmap_Some. apply find_where_Some in Hx as [Hx Ha].
    apply andb_true_iff in Ha as [_ Ha]. rewrite Hrel in Ha; [done|done|]. by apply username_keyed.
Qed.

Lemma claim_retired_late r b t :
  requested_name r = Ok n → until ≤ t → has_account b d = true → select_username b d = Ok None →
  let '(res, w2) := claim_username t b r (quiet d []) in
  res = Ok n ∧ (exact_username_lookup r w2).1 = Ok (Some b).
Proof using Hret.
  intros Hr Ht Hb Hfree. destruct Hret as (_ & Hrel & Hcool).
  unfold claim_username. rewrite Hr, pg_transaction_run by apply _.
  rewrite claim_run by (by eapply requested_name_length). rewrite Hcool.
  destruct (Z.ltb_spec t until); [lia|]. set (d1 := set_usernames _ d).
  assert (Hgone : exists_where (username_is n) (usernames d1) = false).
  { apply exists_where_false. intros x [Hx Hnr]%elem_of_delete. destruct (username_is n x) eqn:Ex; [|done].
    unfold released_name in Hnr. by rewrite Ex, (Hrel x Hx Ex) in Hnr. }
  assert (Hact : exists_where (active_of b) (usernames d1) = false).
  { injection Hfree as Hfree. apply fmap_None, find_where_None in Hfree.
    rewrite exists_where_false in *. intros x [Hx _]%elem_of_delete. by apply Hfree. }
  unfold username_conflict. rewrite Hgone, Hact, Hb. cbn [orb]. split; [done|].
  rewrite (lookup_run _ n) by (by apply requested_name_canonical). cbn [usernames set_usernames].
  rewrite find_where_snoc.
  replace (find_where _ (usernames d1)) with (@None Username.t).
  - by rewrite (proj2 (username_keyed n (Username.Make n b None))).
  - symmetry. apply find_where_None, exists_where_false. intros x Hx.
    rewrite exists_where_false in Hgone. by rewrite (Hgone x Hx).
Qed.
End Retired.

(** A released username is protected for thirty days and available to all
    afterwards: during the cooldown nobody, the former owner included, can
    claim it or change to it and a lookup finds nobody; when the cooldown is
    over any account without an active name can claim it, and is then the one
    the lookup finds. *)
Theorem username_release_cooldown now a w w1 :
  clean w → release_username now a w = (Ok tt, w1) →
  ∃ n, select_username a (current w) = Ok (Some n) ∧ let d := current w1 in
    (∀ requested b t, requested_name requested = Ok n → t < now + seconds NAME_COOLDOWN_SECONDS →
       (claim_username t b requested (quiet d [])).1 = Err ApiError.Conflict
       ∧ (change_username t b requested (quiet d [])).1 = Err ApiError.Conflict
       ∧ (exact_username_lookup requested (quiet d [])).1 = Ok None)
    ∧ ∀ requested b t, requested_name requested = Ok n →
       now + seconds NAME_COOLDOWN_SECONDS ≤ t →
       has_account b d = true → select_username b d = Ok None →
       let '(r, w2) := claim_username t b requested (quiet d []) in
       r = Ok n ∧ (exact_username_lookup requested w2).1 = Ok (Some b).
Proof.
  intros Hw H. apply transaction_committed in H as (_ & H); [|apply _|done|]; last first.
  { by intros d a' [? _]%release_retires. }
  apply release_retires in H as (_ & n & Hsel & Hret). exists n. split; [done|]. cbv zeta. split.
  - intros requested b t Hr Ht.
    split_and!; [by apply (claim_retired Hret)|by apply (change_retired Hret)|by apply (lookup_retired Hret)].
  - intros requested b t Hr Ht. by apply (claim_retired_late Hret).
Qed.
End UsernameTheorems.

(** ** Key packages *)

Definition consumed_package (i : Id) (d : Db.t) : Prop :=
  ∃ k, k ∈ key_packages d ∧ KeyPackage.package_id k = i ∧ KeyPackage.consumed_at k ≠ None.

#[export] Instance consumed_package_invariant i : Invariant (consumed_package i).
Proof.
  solve_frame; [by apply snoc_keeps|]. apply update_where_keeps; [|done]. by intros k [? _].
Qed.

Section Packages.
Context `{C : Crypto} `{U : Unicode}.

Lemma older_total k1 k2 : older_leb k1 k2 = true ∨ older_leb k2 k1 = true.
Proof. unfold older_leb. lia. Qed.

Lemma fetch_package_run_Ok now x d o d' :
  run (fetch_package_body now x) d = (Ok o, d') →
  (o = Commit (Ok None) ∧ d' = d)
  ∨ ∃ k, k ∈ key_packages d ∧ available_package x k = true
    ∧ (∀ k', k' ∈ key_packages d → available_package x k' = true →
         KeyPackage.created_at k ≤ KeyPackage.created_at k')
    ∧ o = Commit (Ok (Some (KeyPackage.package_id k, KeyPackage.package k)))
    ∧ d' = set_key_packages (update_where (package_is (KeyPackage.package_id k))
        (KeyPackage.set_consumed now) (key_packages d)) d.
Proof.
  unfold fetch_package_body. intros H. api_inv H. injection Ha as Ha.
  set (l := select_where (available_package x) (key_packages d)) in *.
  destruct a as [k|]; [right|left]; [|by injection H as <- <-].
  api_inv H. injection H as <- <-. injection Ha0 as <- <-. exists k.
  apply stable_sort_head_least in Ha as [Hin Hmin]; [|apply older_total|unfold older_leb; lia].
  apply elem_of_select in Hin as [Hin Hav]. split_and!; try done.
  intros k' Hk' Hav'. specialize (Hmin k'). unfold older_leb in Hmin.
  apply Z.leb_le, Hmin, elem_of_select. done.
Qed.

(** A key package is handed out at most once: what is handed out is the
    oldest unconsumed package of the device asked for, and after that no
    request of anyone, at any time, gets a package with its id again. *)
Theorem key_package_delivered_once w now x i p w1 w2 :
  sound w → fetch_key_package now x w = (Ok (Some (i, p)), w1) → steps w1 w2 →
  (∃ k, k ∈ key_packages (current w) ∧ KeyPackage.package_id k = i ∧ KeyPackage.package k = p
     ∧ available_package x k = true
     ∧ ∀ k', k' ∈ key_packages (current w) → available_package x k' = true →
         KeyPackage.created_at k ≤ KeyPackage.created_at k')
  ∧ ∀ now' y p', (fetch_key_package now' y w2).1 ≠ Ok (Some (i, p')).
Proof.
  intros Hw H Hs. pose proof (request_sound (Request.FetchKeyPackage now x) w Hw) as Hw1.
  cbn [perform] in Hw1. rewrite H in Hw1. cbn in Hw1.
  apply transaction_committed in H as (_ & H); [|apply _|apply Hw|]; last first.
  { intros d a E%fetch_package_run_Ok. by destruct E as [[? _]|(? & _ & _ & _ & ? & _)]. }
  apply fetch_package_run_Ok in H as [[? _]|(k & Hk & Hav & Hold & [= -> ->] & Hd1)]; [done|].
  split; [by exists k|]. intros now' y p' H2.
  assert (Hcons : consumed_package (KeyPackage.package_id k) (current w1)).
  { rewrite Hd1. exists (KeyPackage.set_consumed now k). cbn. split_and!; try done.
    apply elem_of_update. exists k. by rewrite (proj2 (package_keyed _ k)). }
  destruct (steps_keep _ _ _ Hs (conj (proj1 Hw1) Hcons)) as [Hc2 (k0 & Hk0 & Hi & Hne)].
  pose proof (requests_sound _ _ Hs Hw1) as (_ & Hkeys & _).
  destruct (fetch_key_package now' y w2) as [r w3] eqn:E. cbn in H2. subst r.
  apply transaction_committed in E as (_ & E); [|apply _|done|]; last first.
  { intros d a E'%fetch_package_run_Ok. by destruct E' as [[? _]|(? & _ & _ & _ & ? & _)]. }
  apply fetch_package_run_Ok in E as [[? _]|(k' & Hk' & Hav' & _ & [= Hid ->] & _)]; [done|].
  assert (k' = k0) as -> by (apply (NoDup_key_inj KeyPackage.package_id (key_packages (current w2)));
    [apply Hkeys|done|done|congruence]).
  apply andb_true_iff in Hav' as [_ Hav']. by destruct (KeyPackage.consumed_at k0).
Qed.
End Packages.

(** ** Rate limits *)

(** The answers to a series of checks of one scope. *)
Fixpoint checks (scope : bytes) (maximum window : Z) (times : list Z) (d : Db.t)
    : list (result ApiError.t unit) * Db.t :=
  match times with
  | [] => ([], d)
  | now :: times =>
      let '(r, w) := check_rate_limit now scope maximum window (quiet d []) in
      let '(rs, d') := checks scope maximum window times (current w) in (r :: rs, d')
  end.

Section RateLimit.
Context (scope : bytes) (maximum window : Z).
Context (Hscope : 1 ≤ len scope ≤ 96) (Hmax : 1 ≤ maximum) (Hwin : 1 ≤ window).

Definition counter (d : Db.t) : option AbuseCounter.t :=
  find_where (counter_is scope) (abuse_counters d).
Definition verdict (n : Z) : result ApiError.t unit :=
  if n <=? maximum then Ok tt else Err ApiError.Unauthorized.

Lemma check_run now d n d' :
  bump_counter scope window now d = Ok (n, d') →
  check_rate_limit now scope maximum window (quiet d []) = (verdict n, quiet d' []).
Proof using Hscope Hmax Hwin.
  intros Hb. unfold check_rate_limit.
  destruct (_ || _) eqn:E; [lia|]. rewrite (autocommit_run ApiError.Database) by apply _.
  run_next. rewrite Hb. unfold verdict, ensure. by destruct (n <=? maximum).
Qed.

(** A check opens a window when there is none or the old one is over. *)
Lemma bump_opens now d :
  (∀ c, counter d = Some c → AbuseCounter.window_start c + seconds window ≤ now) →
  ∃ d', bump_counter scope window now d = Ok (1, d')
    ∧ counter d' = Some (AbuseCounter.Make scope now 1).
Proof using.
  intros Ho. unfold bump_counter, counter in *.
  assert (Hk : ∀ s n, counter_is scope (AbuseCounter.Make scope s n) = true)
    by (intros; by apply counter_keyed).
  destruct (find_where _ _) as [c|] eqn:E.
  - specialize (Ho c eq_refl). destruct (Z.leb_spec (AbuseCounter.window_start c) (now - seconds window)); [|lia].
    cbn. eexists. split; [done|]. cbn. apply find_where_replaced; [done|].
    apply exists_where_true. exists c. by apply find_where_Some in E.
  - eexists. split; [done|]. cbn. rewrite find_where_snoc, E. by rewrite Hk.
Qed.

(** A check inside the window counts on. *)
Lemma bump_counts now start n d :
  counter d = Some (AbuseCounter.Make scope start n) → now < start + seconds window →
  n < 2147483647 →
  ∃ d', bump_counter scope window now d = Ok (n + 1, d')
    ∧ counter d' = Some (AbuseCounter.Make scope start (n + 1)).
Proof using.
  intros Hc Hnow Hn. unfold bump_counter, counter in *. rewrite Hc. cbn.
  destruct (Z.leb_spec start (now - seconds window)); [lia|].
  destruct (Z.ltb_spec 2147483647 (n + 1)); [lia|]. eexists. split; [done|]. cbn.
  apply find_where_replaced; [by apply counter_keyed|]. apply exists_where_true.
  eexists. apply find_where_Some in Hc. exact Hc.
Qed.

Lemma checks_inside times start n d :
  counter d = Some (AbuseCounter.Make scope start n) →
  (∀ now, now ∈ times → now < start + seconds window) →
  n + Z.of_nat (length times) ≤ 2147483647 →
  (checks scope maximum window times d).1
  = (λ k, verdict (n + 1 + Z.of_nat k)) <$> seq 0 (length times)
  ∧ counter (checks scope maximum window times d).2
    = Some (AbuseCounter.Make scope start (n + Z.of_nat (length times))).
Proof using Hscope Hmax Hwin.
  revert n d. induction times as [|now times IH]; intros n d Hc Ht Hn.
  { cbn. by rewrite Z.add_0_r. }
  cbn [length] in *. destruct (bump_counts now start n d Hc) as (d' & Hb & Hc');
    [apply Ht; left|lia|].
  cbn [checks]. rewrite (check_run _ _ _ _ Hb). cbn [current quiet].
  specialize (IH (n + 1) d' Hc' ltac:(intros; apply Ht; by right) ltac:(lia)) as [IH1 IH2].
  destruct (checks scope maximum window times d') as [rs d2]. cbn in IH1, IH2 |- *. subst rs.
  split; [|rewrite IH2; f_equal; f_equal; lia].
  f_equal; [f_equal; lia|]. rewrite <- (fmap_S_seq 0), <- list_fmap_compose.
  apply list_fmap_ext. intros _ k _. cbn. f_equal. lia.
Qed.

(** Within one window a scope is let through exactly [maximum] times: of
    any number of checks, the first opening the window and the rest inside it,
    the first [maximum] pass and all others are refused; the first check after
    the window passes again. *)
Theorem rate_limit_window start times after d :
  (∀ c, counter d = Some c → AbuseCounter.window_start c + seconds window ≤ start) →
  (∀ now, now ∈ times → now < start + seconds window) →
  Z.of_nat (length times) < 2147483647 → start + seconds window ≤ after →
  let '(rs, d') := checks scope maximum window (start :: times) d in
  (∀ k r, rs !! k = Some r →
     r = if Z.of_nat k <? maximum then Ok tt else Err ApiError.Unauthorized)
  ∧ length rs = S (length times)
  ∧ (check_rate_limit after scope maximum window (quiet d' [])).1 = Ok tt.
Proof using Hscope Hmax Hwin.
  intros Hopen Ht Hn Ha. destruct (bump_opens start d Hopen) as (d1 & Hb & Hc).
  cbn [checks]. rewrite (check_run _ _ _ _ Hb). cbn [current quiet].
  destruct (checks_inside times start 1 d1 Hc Ht ltac:(lia)) as [H1 H2].
  destruct (checks scope maximum window times d1) as [rs d']. cbn in H1, H2. subst rs.
  split_and!.
  - intros k r Hk. destruct k as [|k].
    + injection Hk as <-. unfold verdict. destruct (Z.leb_spec 1 maximum), (Z.ltb_spec (Z.of_nat 0) maximum);
        done || lia.
    + change (((λ j, verdict (1 + 1 + Z.of_nat j)) <$> seq 0 (length times)) !! k = Some r) in Hk.
      rewrite list_lookup_fmap in Hk. apply fmap_Some in Hk as (j & Hj & ->).
      apply lookup_seq in Hj as [-> _]. unfold verdict.
      destruct (Z.leb_spec (1 + 1 + Z.of_nat (0 + k)) maximum), (Z.ltb_spec (Z.of_nat (S k)) maximum);
        done || lia.
  - cbn. by rewrite length_fmap, length_seq.
  - destruct (bump_opens after d') as (d3 & Hb3 & _); [rewrite H2; by intros c [= <-]|].
    rewrite (check_run _ _ _ _ Hb3). unfold verdict. cbn.
    destruct (Z.leb_spec 1 maximum); [done|lia].
Qed.
End RateLimit.

(** ** Witnesses *)

Section Witnesses.
Import Demo.

Definition challenge_signature : array 64 :=
  sk_sign (fill 32 5) (auth_challenge_payload (fill 16 3) (fill 32 4)).
Definition completed : result ApiError.t SessionTokens.t * Backend :=
  complete_challenge (seed 20) 500 (fill 16 3) challenge_signature backend.
Lemma completed_eq : complete_challenge (seed 20) 500 (fill 16 3) challenge_signature backend = (Ok (SessionTokens.Make (fill 32 20) (fill 32 21)), completed.2).
Proof. unfold completed. apply pair_of. vm_compute. reflexivity. Qed.
#[local] Opaque completed.

Lemma challenge_single_use_witness :
  complete_challenge (seed 20) 500 (fill 16 3) challenge_signature backend
  = (Ok (SessionTokens.Make (fill 32 20) (fill 32 21)), completed.2)
  ∧ ((complete_challenge (seed 30) 501 (fill 16 3) challenge_signature completed.2).1
       = Err ApiError.Replay
     ∨ (complete_challenge (seed 30) 501 (fill 16 3) challenge_signature completed.2).1
       = Err ApiError.Database).
Proof.
  split; [exact completed_eq|].
  exact (proj2 (challenge_single_use backend (seed 20) 500 (fill 16 3) challenge_signature _ _ _
    backend_sound completed_eq (rtc_refl _ _)) (seed 30) 501 challenge_signature).
Defined.

Definition rotation_signature : array 64 :=
  sk_sign (fill 32 5) (refresh_proof_payload (fill 32 7)).
Definition rotated : result ApiError.t SessionTokens.t * Backend :=
  rotate_refresh (seed 40) 500 admin_device (fill 32 7) rotation_signature backend.
Lemma rotated_eq : rotate_refresh (seed 40) 500 admin_device (fill 32 7) rotation_signature backend = (Ok (SessionTokens.Make (fill 32 40) (fill 32 41)), rotated.2).
Proof. unfold rotated. apply pair_of. vm_compute. reflexivity. Qed.
#[local] Opaque rotated.
Definition reused : result ApiError.t SessionTokens.t * Backend :=
  rotate_refresh (seed 50) 501 admin_device (fill 32 7) rotation_signature rotated.2.
Lemma reused_eq : rotate_refresh (seed 50) 501 admin_device (fill 32 7) rotation_signature rotated.2 = (Err ApiError.TokenReuse, reused.2).
Proof. unfold reused. apply pair_of. vm_compute. reflexivity. Qed.
#[local] Opaque reused.

Lemma refresh_reuse_revokes_family_witness :
  rotate_refresh (seed 40) 500 admin_device (fill 32 7) rotation_signature backend
  = (Ok (SessionTokens.Make (fill 32 40) (fill 32 41)), rotated.2)
  ∧ let next := (rotate_refresh (seed 60) 502 admin_device (fill 32 41) rotation_signature reused.2).1 in
    next = Err ApiError.TokenReuse ∨ next = Err ApiError.Database.
Proof.
  split; [exact rotated_eq|].
  destruct (refresh_reuse_revokes_family backend (seed 40) 500 admin_device (fill 32 7)
    rotation_signature _ _ _ backend_sound rotated_eq (rtc_refl _ _)) as (f & _ & Hnew & Hreuse).
  destruct (Hreuse (seed 50) 501 rotation_signature _ _ reused_eq) as [H|[_ H]].
  - discriminate H.
  - exact (H admin_device (fill 32 41) Hnew reused.2 (seed 60) 502 rotation_signature (rtc_refl _ _)).
Defined.

Definition released : result ApiError.t unit * Backend := release_username 100 alice backend.
Lemma released_eq : release_username 100 alice backend = (Ok tt, released.2).
Proof. unfold released. apply pair_of. vm_compute. reflexivity. Qed.
#[local] Opaque released.

Lemma username_release_cooldown_witness :
  ∃ n, select_username alice (current backend) = Ok (Some n)
  ∧ (requested_name (chars "Alice") = Ok n →
     (claim_username 200 alice (chars "Alice") (quiet (current released.2) [])).1
     = Err ApiError.Conflict).
Proof.
  destruct (username_release_cooldown 100 alice backend released.2 (proj1 backend_sound)
    released_eq) as (n & Hn & H & _).
  exists n. split; [exact Hn|]. intros Hr. refine (proj1 (H _ alice 200 Hr _)). reflexivity.
Defined.

Definition fetched : result ApiError.t (option (Id * bytes)) * Backend :=
  fetch_key_package 10 other_device backend.
Lemma fetched_eq : fetch_key_package 10 other_device backend = (Ok (Some (fill 16 4, [z2b 1])), fetched.2).
Proof. unfold fetched. apply pair_of. vm_compute. reflexivity. Qed.
#[local] Opaque fetched.

Lemma key_package_delivered_once_witness :
  fetch_key_package 10 other_device backend = (Ok (Some (fill 16 4, [z2b 1])), fetched.2)
  ∧ (fetch_key_package 11 other_device fetched.2).1 ≠ Ok (Some (fill 16 4, [z2b 1])).
Proof.
  split; [exact fetched_eq|].
  exact (proj2 (key_package_delivered_once backend 10 other_device _ _ _ _ backend_sound
    fetched_eq (rtc_refl _ _)) 11 other_device [z2b 1]).
Defined.

Lemma rate_limit_window_witness :
  counter [z2b 1] db = None
  ∧ (check_rate_limit 60000000 [z2b 1] 2 60
      (quiet (checks [z2b 1] 2 60 [0; 1; 2] db).2 [])).1 = Ok tt.
Proof.
  split; [vm_compute; reflexivity|].
  assert (H0 : ∀ c, counter [z2b 1] db = Some c → AbuseCounter.window_start c + seconds 60 <= 0)
    by (intros c Hc; vm_compute in Hc; discriminate Hc).
  assert (H1 : ∀ now, now ∈ [1; 2] → now < 0 + seconds 60)
    by (intros now Hn; repeat (apply elem_of_cons in Hn as [->|Hn]; [vm_compute; reflexivity|]);
        by apply not_elem_of_nil in Hn).
  pose proof (rate_limit_window [z2b 1] 2 60 ltac:(vm_compute; split; congruence) ltac:(lia) ltac:(lia)
    0 [1; 2] 60000000 db H0 H1 ltac:(cbn; lia) ltac:(unfold seconds; lia)) as H.
  destruct (checks [z2b 1] 2 60 [0; 1; 2] db) as [rs d'].
  exact (proj2 (proj2 H)).
Defined.
End Witnesses.
