(* ===== verification/CoreDelivery.v ===== *)
(** * CoreDelivery: events, synchronisation, acknowledgements and membership

    The theorems on the delivery side of CoreApi: uploads are idempotent, paging
    delivers every visible event once and in order, acknowledgements only move
    forwards, membership changes once per signed operation; and two limits of
    the design, a commit that comes late and an acknowledgement that comes after
    the cleanup. *)
From Stdlib Require Import ZArith Lia Sorting.Sorted.
From stdpp Require Import base list strings relations.
From S2P Require Import Prelude Protocol Crypto DirectoryTool Sql Identity CoreDb CoreApi.
Import Db.

(** ** Uploads *)

Section Uploads.
Context `{C : Crypto} `{U : Unicode}.

(** The verdict of [upload_checks]. *)
Definition upload_allowed (e : UploadedEvent.t) (d : Db.t) : result ApiError.t unit :=
  _ ← ensure (exists_where (active_member (UploadedEvent.group_id e)
        (UploadedEvent.author_device_id e)) (group_members d)) ApiError.Unauthorized;
  _ ← ensure (negb ((UploadedEvent.event_kind e =? EVENT_KIND_MLS_COMMIT)
        && is_none (UploadedEvent.correlation_id e))) ApiError.InvalidInput;
  match UploadedEvent.correlation_id e with
  | None => Ok tt
  | Some i => ensure (exists_where (λ m, operation_is i m
      && bool_decide (MembershipRow.group_id m = UploadedEvent.group_id e)
      && negb (is_none (MembershipRow.applied_at m))) (membership_operations d)) ApiError.Conflict
  end.

Lemma upload_checks_run e d : run (upload_checks e) d = (upload_allowed e d, d).
Proof.
  unfold upload_checks, upload_allowed, assert_active_member. run_next. run_next.
  destruct (exists_where _ (group_members d)); [|done].
  run_next. destruct (negb _); [|done]. by destruct (UploadedEvent.correlation_id e).
Qed.

Lemma assert_member_run g x d :
  run (assert_active_member g x) d
  = (ensure (exists_where (active_member g x) (group_members d)) ApiError.Unauthorized, d).
Proof. unfold assert_active_member. by run_next. Qed.

(** The stored event an upload repeats. *)
Definition stored_event (e : UploadedEvent.t) (d : Db.t) : option GroupEvent.t :=
  find_where (dedup_is (UploadedEvent.author_device_id e) (UploadedEvent.client_message_id e))
    (group_events d).
Definition same_upload (e : UploadedEvent.t) (x : GroupEvent.t) : bool :=
  bool_decide (GroupEvent.event_id x = UploadedEvent.event_id e)
  && bool_decide (GroupEvent.ciphertext x = UploadedEvent.ciphertext e).
Definition event_appended (row : GroupEvent.t) (d : Db.t) : Db.t :=
  let d1 := set_event_seq (event_seq d + 1) d in
  let d2 := set_group_events (group_events d1 ++ [row]) d1 in
  set_notifications (notifications d2 ++ [encode_hex (arr (GroupEvent.group_id row))]) d2.

(** An upload that repeats a stored event. *)
Lemma upload_run_stored now e d x :
  stored_event e d = Some x →
  run (upload_body now e) d =
    match upload_allowed e d with
    | Err err => (Err err, d)
    | Ok _ =>
        if same_upload e x
        then (Ok (Commit (Ok (UploadAccepted.Make (GroupEvent.event_cursor x) true))), d)
        else (Ok (Drop (Err ApiError.Conflict)), d)
    end.
Proof.
  intros Hx. unfold upload_body. rewrite (run_bind ApiError.Database), upload_checks_run by apply _.
  destruct (upload_allowed e d); [|done]. run_next. unfold stored_event in Hx. rewrite Hx.
  fold (same_upload e x). by destruct (same_upload e x).
Qed.

Lemma append_run_Ok row d z d' :
  run (append_event row) d = (Ok z, d') →
  z = event_seq d ∧ exists_where (event_is (GroupEvent.event_id (row z))) (group_events d) = false
  ∧ d' = set_group_events (group_events d ++ [row z]) (set_event_seq (event_seq d + 1) d).
Proof.
  unfold append_event. intros H. api_inv H. api_inv H. injection H as <- <-.
  unfold next_cursor in Ha. destruct (_ <? _); [done|]. injection Ha as <- <-.
  apply guarded_Ok in Ha0 as (Hg & _ & ->). split_bools. done.
Qed.

Lemma upload_run_Ok now e d o d' :
  run (upload_body now e) d = (Ok o, d') →
  upload_allowed e d = Ok tt ∧
  match stored_event e d with
  | Some x => d' = d ∧ o = if same_upload e x
      then Commit (Ok (UploadAccepted.Make (GroupEvent.event_cursor x) true))
      else Drop (Err ApiError.Conflict)
  | None => o = Commit (Ok (UploadAccepted.Make (event_seq d) false))
      ∧ d' = event_appended (event_row now (event_seq d) e) d
  end.
Proof.
  intros H. destruct (stored_event e d) as [x|] eqn:Ex.
  - rewrite (upload_run_stored _ _ _ _ Ex) in H. destruct (upload_allowed e d) as [[]|]; [|done].
    split; [done|]. destruct (same_upload e x); by injection H as <- <-.
  - unfold upload_body in H. apply (run_bind_Ok ApiError.Database) in H; [|apply _].
    destruct H as (u & d0 & Hc & H). rewrite upload_checks_run in Hc. injection Hc as Hc <-.
    destruct u. split; [done|]. api_inv H. injection Ha as <-. unfold stored_event in Ex. rewrite Ex in H.
    apply (run_bind_Ok ApiError.Database) in H; [|apply _]. destruct H as (z & d1 & Hz & H).
    apply append_run_Ok in Hz as (-> & _ & ->). api_inv H. injection Ha as <- <-.
    injection H as <- <-. done.
Qed.

Lemma upload_nodrop now e d d' a : run (upload_body now e) d ≠ (Ok (Drop (Ok a)), d').
Proof.
  intros H%upload_run_Ok. destruct (stored_event e d) as [x|]; [|by destruct H as (_ & ? & _)].
  destruct H as (_ & _ & H). by destruct (same_upload e x).
Qed.

Lemma upload_Ok now e w acc w1 :
  clean w → upload_event now e w = (Ok acc, w1) →
  clean w1 ∧ 1 ≤ len (UploadedEvent.ciphertext e) ≤ 65536
  ∧ run (upload_body now e) (current w) = (Ok (Commit (Ok acc)), current w1).
Proof.
  intros Hw. unfold upload_event. destruct (_ || _) eqn:Eg; [done|]. intros H.
  apply transaction_committed in H as [Hc H]; [|apply _|done|intros ? ?; apply upload_nodrop].
  apply orb_false_iff in Eg as [? ?]. split_and!; try done; unfold len in *; lia.
Qed.

(** After an accepted upload the event is stored, and the upload still allowed. *)
Lemma upload_stores now e d acc d' :
  run (upload_body now e) d = (Ok (Commit (Ok acc)), d') →
  upload_allowed e d' = Ok tt
  ∧ ∃ x, stored_event e d' = Some x ∧ same_upload e x = true
    ∧ GroupEvent.event_cursor x = UploadAccepted.cursor acc.
Proof.
  intros [Hal H]%upload_run_Ok. destruct (stored_event e d) as [x|] eqn:Ex.
  - destruct H as [-> H]. split; [done|]. exists x. destruct (same_upload e x); [|done].
    by injection H as ->.
  - destruct H as [[= ->] ->]. split; [exact Hal|].
    exists (event_row now (event_seq d) e). split_and!; [|by apply andb_true_iff; rewrite !bool_decide_eq_true|done].
    unfold stored_event, event_appended in *. cbn. rewrite find_where_snoc, Ex.
    by rewrite (proj2 (dedup_keyed _ _ (event_row now (event_seq d) e))).
Qed.

(** An upload whose author and client message id are stored. *)
Lemma upload_repeated now e x d :
  stored_event e d = Some x →
  upload_event now e (quiet d [])
  = (if bool_decide (1 ≤ len (UploadedEvent.ciphertext e) ≤ 65536) then
       _ ← upload_allowed e d;
       if bool_decide (UploadedEvent.event_id e = GroupEvent.event_id x
                       ∧ UploadedEvent.ciphertext e = GroupEvent.ciphertext x)
       then Ok (UploadAccepted.Make (GroupEvent.event_cursor x) true) else Err ApiError.Conflict
     else Err ApiError.InvalidInput,
     quiet d []).
Proof.
  intros Hx. unfold upload_event. case_bool_decide as Hlen.
  2: { destruct (_ || _) eqn:Eg; [done|]. unfold len in *. lia. }
  destruct (_ || _) eqn:Eg; [unfold len in *; lia|].
  rewrite pg_transaction_run by apply _. rewrite (upload_run_stored _ _ _ _ Hx).
  destruct (upload_allowed e d) as [[]|err]; cbn [mbind result_bind]; [|by rewrite seq_unchanged].
  destruct (same_upload e x) eqn:Es; unfold same_upload in Es.
  - apply andb_true_iff in Es as [S1%bool_decide_eq_true S2%bool_decide_eq_true].
    by rewrite bool_decide_eq_true_2.
  - rewrite bool_decide_eq_false_2; [by rewrite seq_unchanged|]. intros [S1 S2].
    rewrite S1, S2, !bool_decide_eq_true_2 in Es; done.
Qed.

(** C2: Uploads are idempotent on the author and the client message id.  An
    accepted upload that is new is stored as one event whose cursor is above
    every cursor of the database, and announced once; one that repeats a stored
    event changes nothing and answers the stored cursor.  Sending the same
    upload again, whatever the time, is accepted as a duplicate with the same
    cursor and changes nothing.  Any upload with the same author and client
    message id changes nothing either, and its answer is settled by its size,
    by whether its author may post it where it says, and then by the event id
    and the ciphertext alone: both equal to the stored ones make it a duplicate,
    whatever its group, kind and correlation id are, and anything else a
    conflict. *)
Theorem upload_event_idempotent now e w acc w1 :
  sound w → upload_event now e w = (Ok acc, w1) →
  (if UploadAccepted.duplicate acc
   then current w1 = current w
   else current w1 = event_appended (event_row now (UploadAccepted.cursor acc) e) (current w)
     ∧ ∀ x, x ∈ group_events (current w) → GroupEvent.event_cursor x < UploadAccepted.cursor acc)
  ∧ (∀ now', upload_event now' e (quiet (current w1) [])
      = (Ok (UploadAccepted.Make (UploadAccepted.cursor acc) true), quiet (current w1) []))
  ∧ (∀ now' e',
      UploadedEvent.author_device_id e' = UploadedEvent.author_device_id e →
      UploadedEvent.client_message_id e' = UploadedEvent.client_message_id e →
      upload_event now' e' (quiet (current w1) [])
      = (if bool_decide (1 ≤ len (UploadedEvent.ciphertext e') ≤ 65536) then
           _ ← upload_allowed e' (current w1);
           if bool_decide (UploadedEvent.event_id e' = UploadedEvent.event_id e
                           ∧ UploadedEvent.ciphertext e' = UploadedEvent.ciphertext e)
           then Ok (UploadAccepted.Make (UploadAccepted.cursor acc) true) else Err ApiError.Conflict
         else Err ApiError.InvalidInput,
         quiet (current w1) []))
  ∧ ∀ now' e' acc' w2,
      UploadedEvent.author_device_id e' = UploadedEvent.author_device_id e →
      UploadedEvent.client_message_id e' = UploadedEvent.client_message_id e →
      upload_event now' e' w1 = (Ok acc', w2) →
      UploadedEvent.event_id e' = UploadedEvent.event_id e
      ∧ UploadedEvent.ciphertext e' = UploadedEvent.ciphertext e
      ∧ acc' = UploadAccepted.Make (UploadAccepted.cursor acc) true ∧ current w2 = current w1.
Proof.
  intros [Hc (Hk & _ & Hg)] H. apply (upload_Ok _ _ _ _ _ Hc) in H as (Hc1 & Hlen & H).
  destruct (upload_stores _ _ _ _ _ H) as (Hal & x & Hx & Hsame & Hcur).
  apply upload_run_Ok in H as [_ H]. split_and!.
  - destruct (stored_event e (current w)) as [y|] eqn:Ey.
    + destruct H as [H Hacc]. destruct (same_upload e y); [|done]. by injection Hacc as ->.
    + destruct H as [[= ->] H]. split; [done|]. intros y Hy. apply (range_event _ Hg y Hy).
  - intros now'. unfold upload_event. destruct (_ || _) eqn:Eg; [unfold len in *; lia|].
    rewrite pg_transaction_run by apply _. rewrite (upload_run_stored _ _ _ _ Hx), Hal, Hsame.
    by rewrite Hcur.
  - intros now' e' Ha Hm. rewrite (upload_repeated now' e' x).
    2: { unfold stored_event in *. by rewrite Ha, Hm. }
    apply andb_true_iff in Hsame as [<-%bool_decide_eq_true <-%bool_decide_eq_true].
    by rewrite Hcur.
  - intros now' e' acc' w2 Ha Hm H2. apply (upload_Ok _ _ _ _ _ Hc1) in H2 as (_ & _ & H2).
    assert (Hx' : stored_event e' (current w1) = Some x)
      by (unfold stored_event in *; by rewrite Ha, Hm).
    apply upload_run_Ok in H2 as [_ H2]. rewrite Hx' in H2. destruct H2 as [H2 Hacc].
    destruct (same_upload e' x) eqn:Es'; [|done]. injection Hacc as ->.
    apply andb_true_iff in Hsame as [S1%bool_decide_eq_true S2%bool_decide_eq_true].
    apply andb_true_iff in Es' as [S3%bool_decide_eq_true S4%bool_decide_eq_true].
    split_and!; congruence.
Qed.
End Uploads.

(** ** Synchronisation *)

(** The live events after a cursor, in cursor order: what paging is to deliver. *)
Definition live_events (visible : GroupEvent.t → bool) (after now : Z) (d : Db.t) : list GroupEvent.t :=
  stable_sort cursor_leb (select_where (λ e, visible e && live_after after now e) (group_events d)).
Definition ascending : list GroupEvent.t → Prop :=
  StronglySorted (λ e1 e2, GroupEvent.event_cursor e1 < GroupEvent.event_cursor e2).

Section Paging.
Implicit Types (l : list GroupEvent.t) (e : GroupEvent.t).

Lemma cursor_leb_total e1 e2 : cursor_leb e1 e2 = true ∨ cursor_leb e2 e1 = true.
Proof. unfold cursor_leb. lia. Qed.
Lemma cursor_leb_trans e1 e2 e3 :
  cursor_leb e1 e2 = true → cursor_leb e2 e3 = true → cursor_leb e1 e3 = true.
Proof. unfold cursor_leb. lia. Qed.

Lemma sorted_ascending l :
  sorted_by cursor_leb l → NoDup (GroupEvent.event_cursor <$> l) → ascending l.
Proof.
  induction 1 as [|e l Hl IH He]; [constructor|]. rewrite fmap_cons, NoDup_cons.
  intros [Hn Hd]. constructor; [by apply IH|]. rewrite Forall_forall in *.
  intros x Hx. specialize (He x Hx). unfold cursor_leb in He.
  assert (GroupEvent.event_cursor e ≠ GroupEvent.event_cursor x); [|lia].
  intros Heq. apply Hn. rewrite Heq. by apply list_elem_of_fmap_2.
Qed.

Lemma elem_of_live_events visible after now d e :
  e ∈ live_events visible after now d
  ↔ e ∈ group_events d ∧ visible e = true ∧ after < GroupEvent.event_cursor e
    ∧ now < GroupEvent.expires_at e.
Proof.
  unfold live_events. rewrite stable_sort_perm, elem_of_select. unfold live_after.
  rewrite !andb_true_iff, !Z.ltb_lt. done.
Qed.

Lemma live_events_ascending visible after now d :
  unique GroupEvent.event_cursor (group_events d) → ascending (live_events visible after now d).
Proof.
  intros Hu. apply sorted_ascending.
  - apply stable_sort_sorted; [apply cursor_leb_total|apply cursor_leb_trans].
  - unfold live_events. rewrite stable_sort_perm. unfold select_where.
    eapply sublist_NoDup; [exact Hu|]. clear Hu. induction (group_events d) as [|e l IH]; [done|]. cbn.
    destruct (visible e && _); cbn; [by apply sublist_skip|by apply sublist_cons].
Qed.

(** Later events are the later part of the list. *)
Lemma ascending_after p e l :
  ascending (p ++ e :: l) →
  select_where (λ x, GroupEvent.event_cursor e <? GroupEvent.event_cursor x) (p ++ e :: l) = l.
Proof.
  unfold select_where. induction p as [|x p IH]; cbn [app]; intros Hs; inversion Hs as [|? ? Hs' Hx]; subst.
  - cbn. rewrite Z.ltb_irrefl. apply forallb_filter_id, forallb_forall.
    intros x Hin. rewrite Forall_forall in Hx. apply Z.ltb_lt, Hx. by apply list_elem_of_In.
  - cbn. rewrite Forall_forall in Hx. specialize (Hx e ltac:(apply elem_of_app; right; left)).
    destruct (Z.ltb_spec (GroupEvent.event_cursor e) (GroupEvent.event_cursor x)); [lia|]. by apply IH.
Qed.

Lemma ascending_NoDup l : ascending l → NoDup l.
Proof.
  induction 1 as [|e l _ IH He]; constructor; [|done]. intros Hin.
  rewrite Forall_forall in He. specialize (He e Hin). lia.
Qed.

Lemma ascending_select p l : ascending l → ascending (select_where p l).
Proof.
  unfold select_where. induction 1 as [|e l Hl IH He]; cbn; [constructor|].
  destruct (p e); [|done]. constructor; [done|]. rewrite Forall_forall in *.
  intros x Hx. apply He. apply (elem_of_select p l x) in Hx. by destruct Hx.
Qed.

(** An ascending list is determined by its elements. *)
Lemma ascending_unique l1 l2 :
  ascending l1 → ascending l2 → (∀ e, e ∈ l1 ↔ e ∈ l2) → l1 = l2.
Proof.
  assert (Hs : ∀ l, ascending l → sorted_by cursor_leb l).
  { induction 1 as [|e l _ IH He]; constructor; [done|]. eapply Forall_impl; [exact He|].
    intros x Hx. apply Z.leb_le. cbn in Hx. lia. }
  intros H1 H2 He. apply (sorted_perm_unique cursor_leb); [by apply Hs|by apply Hs| |].
  - apply NoDup_Permutation; [by apply ascending_NoDup..|done].
  - intros x y Hx Hy Hxy Hyx. apply (NoDup_key_inj GroupEvent.event_cursor l1); [|done|done|].
    + clear -H1. induction H1 as [|e l _ IH He]; [constructor|]. rewrite fmap_cons. constructor; [|done].
      intros (x & Hx & Hin)%list_elem_of_fmap. rewrite Forall_forall in He.
      specialize (He x Hin). cbn in He. lia.
    + unfold cursor_leb in *. lia.
Qed.

Lemma live_events_after visible after now d p e l :
  unique GroupEvent.event_cursor (group_events d) →
  live_events visible after now d = p ++ e :: l →
  live_events visible (GroupEvent.event_cursor e) now d = l.
Proof.
  intros Hu Hl. pose proof (live_events_ascending visible after now d Hu) as Ha.
  pose proof (proj1 (elem_of_live_events visible after now d e)
    ltac:(rewrite Hl; apply elem_of_app; right; left)) as (_ & _ & Hafter & _).
  set (c := GroupEvent.event_cursor e) in *.
  rewrite <- (ascending_after p e l) by (by rewrite <- Hl). rewrite <- Hl.
  apply ascending_unique; [by apply live_events_ascending|by apply ascending_select|].
  intros x. rewrite elem_of_select, !elem_of_live_events. subst c.
  rewrite Z.ltb_lt. intuition lia.
Qed.
End Paging.

(** One page. *)
Lemma sync_body_run now x g after limit d :
  run (sync_group_body now x g after limit) d =
    (if exists_where (active_member g x) (group_members d)
     then Ok (Commit (Ok (sync_event <$> take (Z.to_nat (clamp 1 MAX_SYNC_BATCH limit))
                            (live_events (in_group g) (Z.max after 0) now d))))
     else Err ApiError.Unauthorized, d).
Proof.
  unfold sync_group_body. rewrite (run_bind ApiError.Database), assert_member_run by apply _.
  by destruct (exists_where (active_member g x) _).
Qed.
Lemma sync_group_run now x g after limit d :
  sync_group now x g after limit (quiet d []) =
    (if exists_where (active_member g x) (group_members d)
     then Ok (sync_event <$> take (Z.to_nat (clamp 1 MAX_SYNC_BATCH limit))
                (live_events (in_group g) (Z.max after 0) now d))
     else Err ApiError.Unauthorized, quiet d []).
Proof.
  unfold sync_group. rewrite pg_transaction_run, sync_body_run by apply _.
  destruct (exists_where (active_member g x) _); [done|]. by rewrite seq_unchanged.
Qed.

(** A client that asks for page after page, each from the last cursor it saw,
    until a page is empty; [None] when the rounds do not suffice. *)
Fixpoint follow (fuel : nat) (now : Z) (x g : Id) (after limit : Z) (d : Db.t)
    : option (list SyncEvent.t) :=
  match fuel with
  | O => None
  | S fuel =>
      match (sync_group now x g after limit (quiet d [])).1 with
      | Err _ => None
      | Ok page =>
          match last page with
          | None => Some []
          | Some e => rest ← follow fuel now x g (SyncEvent.cursor e) limit d; Some (page ++ rest)
          end
      end
  end.

Lemma follow_complete fuel now x g after limit d :
  wf d → exists_where (active_member g x) (group_members d) = true →
  (length (live_events (in_group g) (Z.max after 0) now d) < fuel)%nat →
  follow fuel now x g after limit d
  = Some (sync_event <$> live_events (in_group g) (Z.max after 0) now d).
Proof.
  intros (Hk & _ & Hg) Hm. revert after. induction fuel as [|fuel IH]; intros after Hf; [lia|].
  cbn [follow]. rewrite sync_group_run, Hm. cbn [fst].
  set (L := live_events (in_group g) (Z.max after 0) now d) in *.
  set (n := Z.to_nat (clamp 1 MAX_SYNC_BATCH limit)).
  assert (Hn : (1 ≤ n)%nat) by (subst n; unfold clamp; lia).
  rewrite fmap_last. destruct (last (take n L)) as [e|] eqn:El; cbn [fmap option_fmap option_map].
  - apply last_Some in El as [p Hp].
    assert (HL : L = p ++ e :: drop n L).
    { rewrite <- (take_drop n L) at 1. rewrite Hp. by rewrite <- app_assoc. }
    pose proof (live_events_after _ _ _ _ _ _ _ (key_cursor _ Hk) HL) as Hrest.
    assert (He : 1 ≤ GroupEvent.event_cursor e).
    { apply (range_event _ Hg). apply (elem_of_live_events (in_group g) (Z.max after 0) now).
      fold L. rewrite HL. apply elem_of_app. right. left. }
    cbn [SyncEvent.cursor sync_event]. specialize (IH (GroupEvent.event_cursor e)).
    replace (Z.max (GroupEvent.event_cursor e) 0) with (GroupEvent.event_cursor e) in IH by lia.
    rewrite Hrest in IH. rewrite IH.
    + cbn. rewrite <- fmap_app. by rewrite take_drop.
    + rewrite HL, length_app in Hf. cbn in Hf. lia.
  - apply last_None in El. assert (L = []) as ->; [|done].
    apply length_zero_iff_nil. apply (f_equal length) in El. rewrite length_take in El. cbn in El. lia.
Qed.

(** C15: Paging delivers every event exactly once and in order.  An active member
    that asks again from the last cursor it received, whatever page size it
    asks for, ends after finitely many rounds with all unexpired events of the
    group above its starting cursor, in strictly ascending cursor order; no
    page has more than fifty events; a device that is not an active member of
    the group gets nothing. *)
Theorem sync_pages_complete now x g after limit d :
  wf d →
  if exists_where (active_member g x) (group_members d) then
    (∀ page, (sync_group now x g after limit (quiet d [])).1 = Ok page → (length page ≤ 50)%nat)
    ∧ ∃ l, (∀ fuel, (length (group_events d) < fuel)%nat →
              follow fuel now x g after limit d = Some (sync_event <$> l))
      ∧ ascending l
      ∧ ∀ e, e ∈ l ↔ e ∈ group_events d ∧ GroupEvent.group_id e = g
          ∧ Z.max after 0 < GroupEvent.event_cursor e ∧ now < GroupEvent.expires_at e
  else (sync_group now x g after limit (quiet d [])).1 = Err ApiError.Unauthorized.
Proof.
  intros Hwf. destruct (exists_where _ _) eqn:Hm; [|by rewrite sync_group_run, Hm]. split.
  - intros page. rewrite sync_group_run, Hm. intros [= <-]. rewrite length_fmap, length_take.
    unfold clamp, MAX_SYNC_BATCH. lia.
  - exists (live_events (in_group g) (Z.max after 0) now d). split_and!.
    + intros fuel Hf. apply follow_complete; [done|done|]. eapply Nat.le_lt_trans; [|exact Hf].
      unfold live_events. rewrite stable_sort_perm. apply List.filter_length_le.
    + apply live_events_ascending, Hwf.
    + intros e. rewrite elem_of_live_events. unfold in_group. by rewrite bool_decide_eq_true.
Qed.

(** ** Late commits *)

(** The two halves of an upload that is new: up to the cursor the INSERT takes,
    and from the row it stores to the answer. *)
Definition upload_begin (e : UploadedEvent.t) : stmt Z :=
  _ ← upload_checks e;
  stored ← ask (λ d, Ok (stored_event e d));
  _ ← dlift (ensure (is_none stored) ApiError.Conflict);
  exec next_cursor.
Definition upload_finish (now : Z) (e : UploadedEvent.t) (cursor : Z) : stmt (outcome UploadAccepted.t) :=
  _ ← exec (insert_event (event_row now cursor e));
  _ ← exec (notify (UploadedEvent.group_id e));
  mret (Commit (Ok (UploadAccepted.Make cursor false))).

Section LateCommit.
Context `{C : Crypto} `{U : Unicode}.

Lemma upload_halves now e d :
  stored_event e d = None →
  run (upload_body now e) d = run (c ← upload_begin e; upload_finish now e c) d.
Proof.
  intros Hs. unfold upload_body, upload_begin.
  rewrite !(run_bind ApiError.Database) by (solve_faithful).
  rewrite upload_checks_run. destruct (upload_allowed e d) as [u|err]; [|done].
  rewrite !(run_bind ApiError.Database), !run_query by (solve_faithful). unfold stored_event in *.
  rewrite Hs. cbn [is_none ensure]. rewrite !(run_bind ApiError.Database), run_lift by (solve_faithful).
  unfold append_event. rewrite !(run_bind ApiError.Database) by (solve_faithful).
  destruct (run (exec next_cursor) d) as [[c|err] d1]; [|done].
  unfold upload_finish. rewrite !(run_bind ApiError.Database) by (solve_faithful).
  by destruct (run (exec (insert_event _)) d1) as [[n|err] d2].
Qed.

Lemma upload_begin_run_Ok e d c d1 :
  run (upload_begin e) d = (Ok c, d1) → c = event_seq d ∧ d1 = set_event_seq (event_seq d + 1) d.
Proof.
  unfold upload_begin. intros H. apply (run_bind_Ok ApiError.Database) in H; [|apply _].
  destruct H as (u & d0 & Hc & H). rewrite upload_checks_run in Hc. injection Hc as _ <-.
  api_inv H. api_inv H. apply run_execute_Ok in H. unfold next_cursor in H.
  destruct (_ <? _); [done|]. by injection H as <- <-.
Qed.

Lemma upload_finish_run_Ok now e c d o d' :
  run (upload_finish now e c) d = (Ok o, d') →
  o = Commit (Ok (UploadAccepted.Make c false))
  ∧ group_events d' = group_events d ++ [event_row now c e] ∧ group_members d' = group_members d.
Proof.
  unfold upload_finish. intros H. api_inv H. apply guarded_Ok in Ha as (_ & _ & ->).
  api_inv H. injection Ha as <- <-. by injection H as <- <-.
Qed.

(** A client never gets anything at or below the cursor it asks from. *)
Lemma follow_after fuel now x g after limit d l :
  follow fuel now x g after limit d = Some l → ∀ e, e ∈ l → after < SyncEvent.cursor e.
Proof.
  revert after l. induction fuel as [|fuel IH]; intros after l; [done|]. cbn [follow].
  rewrite sync_group_run. destruct (exists_where _ _); [|done]. cbn [fst].
  set (page := take _ _).
  assert (Hpage : ∀ r, r ∈ page → after < GroupEvent.event_cursor r).
  { intros r Hr. apply subseteq_take, elem_of_live_events in Hr. lia. }
  rewrite fmap_last. destruct (last page) as [r|] eqn:El; cbn [fmap option_fmap option_map].
  - destruct (follow fuel _ _ _ _ _ _) as [rest|] eqn:Er; [|done]. intros [= <-].
    apply last_Some_elem_of in El. specialize (Hpage r El) as Hr.
    intros e [He|He]%elem_of_app.
    + apply list_elem_of_fmap in He as (y & -> & Hy). by apply Hpage.
    + specialize (IH _ _ Er e He). cbn in IH. lia.
  - intros [= <-] e He. by apply not_elem_of_nil in He.
Qed.

(** The greatest element comes last. *)
Lemma ascending_last l e :
  ascending l → e ∈ l → (∀ x, x ∈ l → GroupEvent.event_cursor x ≤ GroupEvent.event_cursor e) →
  ∃ p, l = p ++ [e].
Proof.
  intros Ha He Hmax. apply list_elem_of_split in He as (p & q & ->). exists p. f_equal.
  destruct q as [|y q]; [done|]. exfalso.
  pose proof (ascending_after p e (y :: q) Ha) as Hq.
  assert (Hy : y ∈ y :: q) by left. rewrite <- Hq in Hy. apply elem_of_select in Hy as [Hy Hlt].
  specialize (Hmax y Hy). lia.
Qed.

(** C24: A cursor is taken before its event is visible, so cursors do not follow
    the order of commits.  When one upload has taken its cursor, a second one
    to the same group is accepted, a member synchronises, and only then the
    first upload is stored and accepted, the member has received the second
    event as its last one, and asking on from its cursor never delivers the
    first event, although that event is stored and unexpired. *)
Theorem late_commit_is_skipped now e1 e2 d c1 d1 acc2 w2 acc1 d3 x g now' limit :
  wf d → UploadedEvent.group_id e1 = g → UploadedEvent.group_id e2 = g →
  exists_where (active_member g x) (group_members d) = true →
  now' < now + seconds EVENT_TTL_SECONDS →
  run (upload_begin e1) d = (Ok c1, d1) →
  upload_event now e2 (quiet d1 []) = (Ok acc2, w2) → UploadAccepted.duplicate acc2 = false →
  run (upload_finish now e1 c1) (current w2) = (Ok (Commit (Ok acc1)), d3) →
  (∃ fuel l e, follow fuel now' x g 0 limit (current w2) = Some (l ++ [e])
     ∧ SyncEvent.event_id e = UploadedEvent.event_id e2
     ∧ SyncEvent.cursor e = UploadAccepted.cursor acc2)
  ∧ (∃ r, r ∈ group_events d3 ∧ GroupEvent.event_id r = UploadedEvent.event_id e1
       ∧ GroupEvent.event_cursor r = UploadAccepted.cursor acc1 ∧ now' < GroupEvent.expires_at r)
  ∧ ∀ fuel limit' l, follow fuel now' x g (UploadAccepted.cursor acc2) limit' d3 = Some l →
      ∀ e, e ∈ l → SyncEvent.cursor e ≠ UploadAccepted.cursor acc1.
Proof.
  intros Hwf Hg1 Hg2 Hm Hnow Hb Hu Hdup Hf.
  apply upload_begin_run_Ok in Hb as [-> ->].
  apply upload_finish_run_Ok in Hf as ([= ->] & Hev3 & _).
  assert (Hs1 : sound (quiet (set_event_seq (event_seq d + 1) d) [])).
  { split; [done|]. destruct Hwf as (? & ? & ?). cbn.
    split_and!; apply inv_seq; try done; lia. }
  pose proof (request_sound (Request.UploadEvent now e2) _ Hs1) as [_ Hwf2].
  cbn [perform] in Hwf2. rewrite Hu in Hwf2. cbn [snd] in Hwf2.
  apply (upload_Ok _ _ _ _ _ (proj1 Hs1)) in Hu as (_ & _ & Hu). apply upload_run_Ok in Hu as [_ Hu].
  destruct (stored_event e2 _) as [y|];
    [destruct Hu as [_ Hu]; destruct (same_upload e2 y); [by injection Hu as ->|done]|].
  destruct Hu as [[= ->] Hd2]. cbn [UploadAccepted.cursor event_seq set_event_seq] in *.
  set (row2 := event_row now (event_seq d + 1) e2) in *. split_and!.
  - exists (S (length (live_events (in_group g) (Z.max 0 0) now' (current w2)))).
    rewrite follow_complete; [|done|by rewrite Hd2|lia].
    destruct (ascending_last (live_events (in_group g) (Z.max 0 0) now' (current w2)) row2)
      as [p Hp].
    + apply live_events_ascending, Hwf2.
    + apply elem_of_live_events. rewrite Hd2. split_and!; try done.
      * apply elem_of_app. right. left.
      * by apply bool_decide_eq_true.
      * cbn. pose proof (range_seq _ (proj2 (proj2 Hwf))). lia.
    + intros r Hr. apply elem_of_live_events in Hr as [Hr _].
      pose proof (range_event _ (proj2 (proj2 Hwf2)) r Hr) as [Hc _].
      rewrite Hd2 in Hc. cbn in Hc. cbn. lia.
    + exists (sync_event <$> p), (sync_event row2). rewrite Hp, fmap_app. done.
  - exists (event_row now (event_seq d) e1). rewrite Hev3. split_and!; try done.
    apply elem_of_app. right. left.
  - intros fuel limit' l Hl e He. pose proof (follow_after _ _ _ _ _ _ _ _ Hl e He). lia.
Qed.
End LateCommit.

(** ** Acknowledgements *)

Section Cursors.
Context `{C : Crypto} `{U : Unicode}.

Definition stored_cursor (x g : Id) (d : Db.t) : option Z :=
  GroupCursor.cursor <$> find_where (cursor_is x g) (device_group_cursors d).
Definition regresses (x g : Id) (c : Z) (d : Db.t) : bool :=
  match stored_cursor x g d with Some v => c <? v | None => false end.
Definition last_cursor (g : Id) (d : Db.t) : Z :=
  default 0 (max_of GroupEvent.event_cursor (select_where (in_group g) (group_events d))).
Definition cursor_stored (x g : Id) (c : Z) (d : Db.t) : Db.t :=
  set_device_group_cursors
    (if exists_where (cursor_is x g) (device_group_cursors d)
     then update_where (cursor_is x g) (λ _, GroupCursor.Make x g c) (device_group_cursors d)
     else device_group_cursors d ++ [GroupCursor.Make x g c]) d.

Lemma member_exists g x d :
  wf d → exists_where (active_member g x) (group_members d) = true →
  has_device x d = true ∧ has_group g d = true.
Proof.
  intros (_ & Hr & _) (m & Hm & Ha)%exists_where_true. apply (ref_member _ Hr) in Hm.
  unfold member_fk in Hm. apply andb_true_iff in Ha as [Ha _]. apply group_member_keyed in Ha.
  injection Ha as Hg Hx. rewrite Hg, Hx in Hm. split_bools. done.
Qed.

Lemma stored_cursor_stored x g c d : stored_cursor x g (cursor_stored x g c d) = Some c.
Proof.
  unfold stored_cursor, cursor_stored. cbn.
  assert (Hk : cursor_is x g (GroupCursor.Make x g c) = true) by (by apply group_cursor_keyed).
  destruct (exists_where _ _) eqn:E; [by rewrite find_where_replaced|].
  apply find_where_None in E. by rewrite find_where_snoc, E, Hk.
Qed.

Lemma advance_cursor_run x g c d :
  wf d →
  advance_group_cursor x g c (quiet d []) =
    if negb (exists_where (active_member g x) (group_members d))
    then (Err ApiError.Unauthorized, quiet d [])
    else if regresses x g c d
    then (Err ApiError.CursorRegression, quiet d [])
    else if last_cursor g d <? c then (Err ApiError.InvalidInput, quiet d [])
    else if c <? 0 then (Err ApiError.Database, quiet d [])
    else (Ok tt, quiet (cursor_stored x g c d) []).
Proof.
  intros Hwf. unfold advance_group_cursor. rewrite pg_transaction_run by apply _. unfold advance_body.
  rewrite (run_bind ApiError.Database), assert_member_run by apply _.
  destruct (exists_where (active_member g x) _) eqn:Em; cbn [ensure negb];
    [|cbn; by rewrite seq_unchanged].
  destruct (member_exists _ _ _ Hwf Em) as [Hx Hg].
  run_next. unfold select_group_cursor. run_next. fold (stored_cursor x g d).
  replace (match stored_cursor x g d with Some v => negb (c <? v) | None => true end)
    with (negb (regresses x g c d)) by (unfold regresses; by destruct (stored_cursor x g d)).
  destruct (regresses x g c d); cbn [ensure negb];
    [cbn; by rewrite seq_unchanged|].
  run_next. unfold select_max_cursor. run_next. fold (in_group g). fold (last_cursor g d).
  destruct (Z.ltb_spec (last_cursor g d) c); cbn [ensure negb]; [cbn; by rewrite seq_unchanged|].
  run_next. unfold upsert_group_cursor. cbn [GroupCursor.device_id GroupCursor.group_id GroupCursor.cursor].
  rewrite Hx, Hg. destruct (Z.leb_spec 0 c), (Z.ltb_spec c 0); try lia; cbn [andb guarded];
    [done|cbn; by rewrite seq_unchanged].
Qed.

(** An acknowledgement moves the cursor of one device in one group, and only
    forwards: it is refused to a device that is not an active member, below the
    stored cursor, and above the last event stored in the group; an accepted one
    is what is stored, changes nothing else, and is accepted again. *)
Theorem advance_group_cursor_spec x g c d :
  wf d →
  let '(r, w) := advance_group_cursor x g c (quiet d []) in
  (r = Ok tt ↔ exists_where (active_member g x) (group_members d) = true
     ∧ 0 ≤ c ≤ last_cursor g d ∧ ∀ v, stored_cursor x g d = Some v → v ≤ c)
  ∧ (r ≠ Ok tt → current w = d)
  ∧ (r = Ok tt → current w = cursor_stored x g c d ∧ stored_cursor x g (current w) = Some c
       ∧ (advance_group_cursor x g c (quiet (current w) [])).1 = Ok tt
       ∧ ∀ c', c' < c →
           (advance_group_cursor x g c' (quiet (current w) [])).1 = Err ApiError.CursorRegression).
Proof.
  intros Hwf. pose proof (request_sound (Request.AdvanceCursor x g c) (quiet d []) (conj (conj eq_refl eq_refl) Hwf))
    as [_ Hwf1]. cbn [perform] in Hwf1. rewrite advance_cursor_run in * by done.
  destruct (exists_where (active_member g x) _) eqn:Em; cbn [negb] in *;
    [|split_and!; [by split; [|intros []]|done..]].
  destruct (regresses x g c d) eqn:Er; unfold regresses in Er.
  { destruct (stored_cursor x g d) as [v|]; [|done]. split_and!; try done.
    split; [done|]. intros (_ & _ & Hv). specialize (Hv v eq_refl). lia. }
  destruct (Z.ltb_spec (last_cursor g d) c); [split_and!; try done; split; [done|lia]|].
  destruct (Z.ltb_spec c 0); [split_and!; try done; split; [done|lia]|].
  cbn [snd] in Hwf1. split_and!; [|done|].
  - split; [|done]. intros _. split_and!; try done. intros v Hv. rewrite Hv in Er. lia.
  - intros _. split; [done|]. change (current _) with (cursor_stored x g c d).
    rewrite stored_cursor_stored. split; [done|].
    assert (Hre : ∀ c', regresses x g c' (cursor_stored x g c d) = (c' <? c))
      by (intros c'; unfold regresses; by rewrite stored_cursor_stored).
    split.
    + rewrite advance_cursor_run by done. rewrite Hre, Z.ltb_irrefl. unfold cursor_stored at 1. cbn [group_members set_device_group_cursors].
      rewrite Em. cbn [negb]. change (last_cursor g (cursor_stored x g c d)) with (last_cursor g d).
      destruct (Z.ltb_spec (last_cursor g d) c), (Z.ltb_spec c 0); lia || done.
    + intros c' Hc'. rewrite advance_cursor_run by done. rewrite Hre.
      change (group_members (cursor_stored x g c d)) with (group_members d). rewrite Em. cbn [negb].
      by destruct (Z.ltb_spec c' c); [|lia].
Qed.

Lemma delete_expired_all now limit d n d' :
  (∀ e, e ∈ group_events d → GroupEvent.expires_at e ≤ now) →
  Z.of_nat (length (group_events d)) ≤ limit →
  delete_expired now limit d = Ok (n, d') →
  group_events d' = [] ∧ device_group_cursors d' = device_group_cursors d
  ∧ group_members d' = group_members d.
Proof.
  intros Hexp Hl [= _ <-]. cbn. split_and!; [|done|done].
  assert (Hsel : select_where (λ e, GroupEvent.expires_at e <=? now) (group_events d) = group_events d).
  { apply forallb_filter_id, forallb_forall. intros e He.
    apply Z.leb_le, Hexp. by apply list_elem_of_In. }
  rewrite Hsel, take_ge by lia. destruct (delete_where _ _) as [|e l] eqn:E; [done|]. exfalso.
  assert (He : e ∈ e :: l) by left. rewrite <- E in He. apply elem_of_delete in He as [He Hn].
  apply bool_decide_eq_false in Hn. apply Hn. by apply list_elem_of_fmap_2.
Qed.

(** An acknowledgement that was accepted is refused once the events it
    covers have expired and been cleaned up, although the cursor has not
    moved. *)
Theorem ack_refused_after_cleanup x g c now batch d d1 n d2 :
  wf d → 1 ≤ c → advance_group_cursor x g c (quiet d []) = (Ok tt, quiet d1 []) →
  (∀ e, e ∈ group_events d → GroupEvent.expires_at e ≤ now) →
  Z.of_nat (length (group_events d)) ≤ clamp 1 10000 batch →
  cleanup_expired_events now batch (quiet d1 []) = (Ok n, quiet d2 []) →
  stored_cursor x g d2 = Some c
  ∧ (advance_group_cursor x g c (quiet d2 [])).1 = Err ApiError.InvalidInput.
Proof.
  intros Hwf Hc Ha Hexp Hb Hcl.
  pose proof (request_sound (Request.AdvanceCursor x g c) (quiet d []) (conj (conj eq_refl eq_refl) Hwf))
    as Hs1. cbn [perform] in Hs1. rewrite Ha in Hs1. cbn [snd] in Hs1.
  pose proof (request_sound (Request.Cleanup now batch) _ Hs1) as [_ Hwf2].
  cbn [perform] in Hwf2. rewrite Hcl in Hwf2. cbn [snd] in Hwf2. change (wf d2) in Hwf2.
  pose proof (advance_group_cursor_spec x g c d Hwf) as Hspec. rewrite Ha in Hspec.
  destruct Hspec as ([Hm _] & _ & Hok). destruct (Hm eq_refl) as (Hmem & _). clear Hm.
  destruct (Hok eq_refl) as (Hd1 & _). cbn in Hd1. subst d1. clear Hok Ha.
  unfold cleanup_expired_events in Hcl. rewrite (autocommit_run ApiError.Database), run_execute in Hcl by apply _.
  destruct (delete_expired _ _ _) as [[n' d']|] eqn:Ed; [|done]. injection Hcl as <- <-.
  apply delete_expired_all in Ed as (Hev & Hcur & Hgm); [|done|done].
  assert (Hst : stored_cursor x g d' = Some c).
  { unfold stored_cursor. rewrite Hcur. apply stored_cursor_stored. }
  split; [done|]. rewrite advance_cursor_run by done. rewrite Hgm.
  change (group_members (cursor_stored x g c d)) with (group_members d). rewrite Hmem. cbn [negb].
  unfold regresses, last_cursor. rewrite Hst, Z.ltb_irrefl, Hev.
  change (default 0 _) with 0. by destruct (Z.ltb_spec 0 c); [|lia].
Qed.
End Cursors.

(** ** Membership *)

Section MembershipTheorems.
Context `{C : Crypto} `{U : Unicode}.
Import MembershipOperation.

Lemma array_app_inj {n} (a1 a2 : array n) r1 r2 :
  arr a1 ++ r1 = arr a2 ++ r2 → a1 = a2 ∧ r1 = r2.
Proof.
  intros H. apply app_inj_1 in H as [H ->]; [|by rewrite !array_length]. split; [|done].
  by apply array_eq.
Qed.

Lemma operation_payload_inj o1 o2 :
  0 ≤ role o1 ≤ 2 → 0 ≤ role o2 ≤ 2 → operation_payload o1 = operation_payload o2 →
  arr (signature o1) = arr (signature o2) → o1 = o2.
Proof.
  intros H1 H2 Hp Hs%array_eq. unfold operation_payload, membership_operation_payload in Hp.
  apply app_inv_head in Hp. apply array_app_inj in Hp as [Ea Hp]. apply array_app_inj in Hp as [Eb Hp].
  apply array_app_inj in Hp as [Ec Hp]. apply array_app_inj in Hp as [Ed Hp].
  apply app_inj_1 in Hp as [Er Hp]; [|by rewrite !length_be_bytes].
  apply be_bytes_inj in Er; [|lia..].
  destruct o1 as [? ? ? ? ? rm1 ?], o2 as [? ? ? ? ? rm2 ?]; cbn in *. subst.
  f_equal. by destruct rm1, rm2.
Qed.
(** What an operation does to the members of its group. *)
Definition members_changed (now : Z) (o : MembershipOperation.t) (d : Db.t) (after : list GroupMember.t)
    : Prop :=
  let hit := member_is (group_id o) (target_device_id o) in
  let active := active_member (group_id o) (target_device_id o) in
  if remove o
  then exists_where active (group_members d) = true
    ∧ after = update_where active (GroupMember.set_removed now) (group_members d)
  else ∃ account, select_account (target_device_id o) d = Ok (Some account)
    ∧ let m := GroupMember.Make (group_id o) (target_device_id o) account (role o) None in
      after = if exists_where hit (group_members d)
              then update_where hit (λ _, m) (group_members d) else group_members d ++ [m].

Lemma change_member_run_Ok now o d u d' :
  run (change_member now o) d = (Ok u, d') →
  ∃ after, members_changed now o d after ∧ d' = set_group_members after d.
Proof.
  unfold change_member, members_changed. destruct (remove o).
  - intros H. api_inv H. injection Ha as <- <-. apply run_lift_Ok in H as [H ->].
    apply ensure_Ok in H. eexists. split; [split; [|reflexivity]|done].
    destruct (exists_where _ _) eqn:E; [done|]. apply count_where_zero in E. lia.
  - intros H. api_inv H. api_inv H. apply ok_or_Ok in Ha0. subst. api_inv H.
    apply guarded_Ok in Ha0 as (_ & _ & ->). injection H as <- <-. eexists. split; [|done].
    by eexists.
Qed.

(** The stored row of an operation that was applied at [now]. *)
Definition operation_row (now : Z) (o : MembershipOperation.t) : MembershipRow.t :=
  MembershipRow.Make (correlation_id o) (group_id o) (author_device_id o) (operation_payload o)
    (arr (signature o)) (Some now).
Definition stored_operation (o : MembershipOperation.t) (d : Db.t) : option MembershipRow.t :=
  find_where (operation_is (correlation_id o)) (membership_operations d).
Definition same_operation (o : MembershipOperation.t) (m : MembershipRow.t) : bool :=
  bool_decide (MembershipRow.operation m = operation_payload o)
  && bool_decide (MembershipRow.signature m = arr (signature o)).

Lemma membership_run_Ok now o d out d' :
  run (membership_body now o) d = (Ok out, d') →
  ∃ public, select_admin_key (group_id o) (author_device_id o) d = Ok (Some public)
  ∧ vk_verify public (operation_payload o) (signature o) = true
  ∧ match stored_operation o d with
    | Some m => d' = d ∧ out = if same_operation o m then Commit (Ok true) else Drop (Err ApiError.Conflict)
    | None => out = Commit (Ok false) ∧ stored_operation o d' = Some (operation_row now o)
        ∧ ∃ after, members_changed now o d after ∧ group_members d' = after
    end.
Proof.
  unfold membership_body. intros H. api_inv H. api_inv H. apply ok_or_Ok in Ha0. subst. api_inv H.
  unfold check_signature in Ha0. apply bind_Ok in Ha0 as (u & _ & Hsig). apply ensure_Ok in Hsig.
  exists a0. split_and!; [done..|]. api_inv H. injection Ha0 as <-. fold (stored_operation o d) in H.
  destruct (stored_operation o d) as [m|] eqn:Em.
  - fold (same_operation o m) in H. destruct (same_operation o m); by injection H as <- <-.
  - api_inv H. apply guarded_Ok in Ha0 as (_ & _ & ->).
    apply (run_bind_Ok ApiError.Database) in H; [|apply _]. destruct H as (u1 & d1 & Hc & H).
    apply change_member_run_Ok in Hc as (after & Hc & ->). api_inv H. injection Ha0 as <- <-.
    injection H as <- <-. split_and!; [done| |by exists after].
    unfold stored_operation in *. cbn. unfold update_where. rewrite fmap_app.
    fold (update_where (operation_is (correlation_id o)) (MembershipRow.set_applied now)
      (membership_operations d)).
    rewrite update_where_none by (by apply find_where_None). cbn.
    set (fresh := MembershipRow.Make _ _ _ _ _ None).
    assert (Hk : operation_is (correlation_id o) fresh = true) by (by apply operation_keyed).
    rewrite Hk, find_where_snoc, Em.
    by rewrite (proj2 (operation_keyed (correlation_id o) (MembershipRow.set_applied now fresh))).
Qed.

Lemma membership_Ok now o w b w1 :
  clean w → apply_membership_operation now o w = (Ok b, w1) →
  clean w1 ∧ 0 ≤ role o ≤ 2
  ∧ run (membership_body now o) (current w) = (Ok (Commit (Ok b)), current w1).
Proof.
  intros Hw. unfold apply_membership_operation. destruct (negb _) eqn:Er; [done|]. intros H.
  apply transaction_committed in H as [Hc H]; [|apply _|done|].
  - split; [done|]. split; [lia|done].
  - intros d a (p & _ & _ & E)%membership_run_Ok. destruct (stored_operation o _) as [m|];
      [destruct E as [_ E]; by destruct (same_operation o m)|by destruct E].
Qed.

Lemma select_admin_key_Some g i d public :
  select_admin_key g i d = Ok (Some public) →
  ∃ m x, m ∈ group_members d ∧ active_member g i m = true ∧ GroupMember.role m = 2
  ∧ x ∈ devices d ∧ Device.device_id x = i ∧ Device.device_public_key x = public.
Proof.
  unfold select_admin_key. intros [= H].
  destruct (find_where _ (group_members d)) as [m|] eqn:Em; [|done]. cbn in H.
  destruct (find_where _ (devices d)) as [x|] eqn:Ex; [|done]. injection H as <-.
  apply find_where_Some in Em as [Hm [Ha Hr]%andb_true_iff].
  apply find_where_Some in Ex as [Hx Hk%device_keyed]. exists m, x. split_and!; try done; [lia|].
  apply andb_true_iff in Ha as [Ha _]. apply group_member_keyed in Ha. injection Ha as _ Ha. congruence.
Qed.

(** Rows of other devices stay as they are. *)
Lemma members_changed_others now o d after m :
  members_changed now o d after → GroupMember.key m ≠ (group_id o, target_device_id o) →
  m ∈ after ↔ m ∈ group_members d.
Proof.
  intros Hc Hm.
  assert (Hhit : member_is (group_id o) (target_device_id o) m = false)
    by (by apply bool_decide_eq_false).
  assert (Hupd : ∀ p f, (∀ y, p y = true → GroupMember.key y = (group_id o, target_device_id o)) →
    (∀ y, GroupMember.key y = (group_id o, target_device_id o) →
      GroupMember.key (f y) = (group_id o, target_device_id o)) →
    m ∈ update_where p f (group_members d) ↔ m ∈ group_members d).
  { intros p f Hp Hf. rewrite elem_of_update. split.
    - intros (y & Hy & ->). destruct (p y) eqn:Ey; [|done]. by destruct Hm; auto.
    - intros Hin. exists m. split; [done|]. destruct (p m) eqn:Ep; [|done]. by destruct Hm; auto. }
  unfold members_changed in Hc. destruct (remove o).
  - destruct Hc as [_ ->]. apply Hupd; [|done]. intros y [Hy _]%andb_true_iff. by apply group_member_keyed.
  - destruct Hc as (account & _ & ->). destruct (exists_where _ _).
    + apply Hupd; [|done]. intros y Hy. by apply group_member_keyed.
    + rewrite elem_of_app, list_elem_of_singleton. split; [|by left]. intros [?|Heq]; [done|].
      subst m. by destruct Hm.
Qed.

Lemma members_changed_target now o d after :
  members_changed now o d after →
  if remove o
  then exists_where (active_member (group_id o) (target_device_id o)) after = false
  else ∃ m, m ∈ after ∧ GroupMember.role m = role o
       ∧ active_member (group_id o) (target_device_id o) m = true.
Proof.
  unfold members_changed. destruct (remove o).
  - intros [_ ->]. apply exists_where_false. intros m (y & Hy & ->)%elem_of_update.
    destruct (active_member _ _ y) eqn:Ey; [|done]. unfold active_member. cbn. apply andb_false_r.
  - intros (account & _ & ->). set (m := GroupMember.Make _ _ account _ None).
    assert (Hm : member_is (group_id o) (target_device_id o) m = true) by (by apply group_member_keyed).
    exists m. split_and!; [|done|by unfold active_member; rewrite Hm].
    destruct (exists_where _ _) eqn:E; [|apply elem_of_app; right; left].
    apply exists_where_true in E as (y & Hy & Ey). apply elem_of_update. exists y. by rewrite Ey.
Qed.

(** The operation is in the table; nothing takes it out. *)
Definition recorded (o : MembershipOperation.t) (d : Db.t) : Prop :=
  ∃ m, m ∈ membership_operations d ∧ MembershipRow.correlation_id m = correlation_id o
    ∧ same_operation o m = true.
#[local] Instance recorded_invariant o : Invariant (recorded o).
Proof. solve_frame; [by apply snoc_keeps|]. by apply update_where_keeps. Qed.
Lemma recorded_stored o d :
  wf d → recorded o d → ∃ m, stored_operation o d = Some m ∧ same_operation o m = true.
Proof.
  intros [Hk _] (m & Hm & Hid & Hsame). exists m. split; [|done]. unfold stored_operation.
  by apply (find_key MembershipRow.correlation_id _ (correlation_id o) _ _ (operation_keyed _) (key_operation _ Hk)).
Qed.
Lemma membership_sound now o w b w1 :
  sound w → apply_membership_operation now o w = (Ok b, w1) → sound w1.
Proof.
  intros Hs H. pose proof (request_sound (Request.Membership now o) w Hs) as Hw. cbn [perform] in Hw.
  by rewrite H in Hw.
Qed.

(** C22: [apply_membership_operation] acts for an administrator, and once per
    operation.  An operation that it accepts carries a valid signature, by its device key, of an
    active administrator of the group; a new one leaves a removed device inactive,
    and an added one active in its role, all other members as they were; a
    repeated one changes nothing.  Whatever core-api serves then, under any
    failures, an operation with the same correlation id that it accepts is the
    same operation again, and changes nothing. *)
Theorem membership_operation_once now o w b w1 :
  sound w → apply_membership_operation now o w = (Ok b, w1) →
  (∃ m x, m ∈ group_members (current w) ∧ active_member (group_id o) (author_device_id o) m = true
     ∧ GroupMember.role m = 2 ∧ x ∈ devices (current w) ∧ Device.device_id x = author_device_id o
     ∧ vk_verify (Device.device_public_key x) (operation_payload o) (signature o) = true)
  ∧ (if b then current w1 = current w
     else (∀ m, GroupMember.key m ≠ (group_id o, target_device_id o) →
             m ∈ group_members (current w1) ↔ m ∈ group_members (current w))
       ∧ if remove o
         then exists_where (active_member (group_id o) (target_device_id o)) (group_members (current w1))
              = false
         else ∃ m, m ∈ group_members (current w1) ∧ GroupMember.role m = role o
              ∧ active_member (group_id o) (target_device_id o) m = true)
  ∧ ∀ w' now' o' b' w2, steps w1 w' → correlation_id o' = correlation_id o →
      apply_membership_operation now' o' w' = (Ok b', w2) →
      o' = o ∧ b' = true ∧ current w2 = current w'.
Proof.
  intros Hs H. pose proof Hs as [Hc _]. pose proof (membership_sound now o w b w1 Hs H) as Hs1.
  apply membership_Ok in H as (Hc1 & Hrole & H); [|done].
  apply membership_run_Ok in H as (public & Hkey & Hsig & H).
  assert (Hstored : recorded o (current w1)).
  { destruct (stored_operation o (current w)) as [m|] eqn:Em.
    - destruct H as [-> H]. apply find_where_Some in Em as [Hm Hid%operation_keyed].
      exists m. split_and!; [done..|]. by destruct (same_operation o m).
    - destruct H as (_ & Hst & _). apply find_where_Some in Hst as [Hm Hid%operation_keyed].
      eexists. split_and!; [exact Hm|done|]. apply andb_true_iff. by rewrite !bool_decide_eq_true. }
  split_and!.
  - apply select_admin_key_Some in Hkey as (m & x & Hm & Ha & Hr & Hx & Hid & <-). by exists m, x.
  - destruct (stored_operation o (current w)) as [m|].
    + destruct H as [Hd H]. destruct (same_operation o m); [|done]. by injection H as ->.
    + destruct H as ([= ->] & _ & after & Hch & ->). split; [|by eapply members_changed_target].
      intros m. by eapply members_changed_others.
  - intros w' now' o' b' w2 Hsteps Hid H2. pose proof (requests_sound _ _ Hsteps Hs1) as Hs'.
    destruct (steps_keep (recorded o) _ _ Hsteps (conj (proj1 Hs1) Hstored)) as [_ Hrec].
    apply membership_Ok in H2 as (_ & Hrole' & H2); [|apply Hs'].
    apply membership_run_Ok in H2 as (p' & _ & _ & H2).
    destruct (recorded_stored o (current w') (proj2 Hs') Hrec) as (m & Hm & Hsame).
    unfold stored_operation in *. rewrite Hid, Hm in H2.
    destruct H2 as [-> H2]. destruct (same_operation o' m) eqn:Es; [|done]. injection H2 as ->.
    apply andb_true_iff in Hsame as [S1%bool_decide_eq_true S2%bool_decide_eq_true].
    apply andb_true_iff in Es as [S3%bool_decide_eq_true S4%bool_decide_eq_true].
    split_and!; [|done|done]. apply operation_payload_inj; [done|done|congruence..].
Qed.
End MembershipTheorems.

(** ** Witnesses *)

Lemma upload_sound `{C : Crypto} `{U : Unicode} now e w r w' :
  sound w → upload_event now e w = (r, w') → sound w'.
Proof.
  intros Hw H. pose proof (request_sound (Request.UploadEvent now e) w Hw) as Hs.
  cbn [perform] in Hs. by rewrite H in Hs.
Qed.

Section Witnesses.
Import Demo.

(** The [n]-th message of the administrator. *)
Definition message (n : Z) : UploadedEvent.t :=
  UploadedEvent.Make (fill 16 n) group admin_device (fill 16 (100 + n)) 1 [z2b n] None.
Definition uploaded : result ApiError.t UploadAccepted.t * Backend :=
  upload_event 10 (message 1) backend.
Lemma uploaded_eq : upload_event 10 (message 1) backend = (Ok (UploadAccepted.Make 1 false), uploaded.2).
Proof. unfold uploaded. apply pair_of. vm_compute. reflexivity. Qed.
#[local] Opaque uploaded.

Lemma upload_event_idempotent_witness :
  upload_event 10 (message 1) backend = (Ok (UploadAccepted.Make 1 false), uploaded.2)
  ∧ upload_event 99 (message 1) (quiet (current uploaded.2) [])
    = (Ok (UploadAccepted.Make 1 true), quiet (current uploaded.2) []).
Proof.
  split; [exact uploaded_eq|].
  exact (proj1 (proj2 (upload_event_idempotent 10 (message 1) backend _ _ backend_sound
    uploaded_eq)) 99).
Defined.

Definition uploaded_db : Db.t := current uploaded.2.
Lemma uploaded_wf : wf uploaded_db.
Proof. unfold uploaded_db. exact (proj2 (upload_sound _ _ _ _ _ backend_sound uploaded_eq)). Qed.
Lemma uploaded_member :
  exists_where (active_member group other_device) (group_members uploaded_db) = true.
Proof. vm_compute. reflexivity. Qed.
Lemma uploaded_acked :
  advance_group_cursor other_device group 1 (quiet uploaded_db [])
  = (Ok tt, quiet (cursor_stored other_device group 1 uploaded_db) []).
Proof.
  rewrite (advance_cursor_run _ _ _ _ uploaded_wf), uploaded_member. cbn [negb].
  replace (regresses other_device group 1 uploaded_db) with false by (vm_compute; reflexivity).
  by replace (last_cursor group uploaded_db) with 1 by (vm_compute; reflexivity).
Qed.
#[local] Opaque uploaded_db.

Lemma sync_pages_complete_witness :
  wf uploaded_db
  ∧ ∃ l : list GroupEvent.t,
      (∀ fuel, (length (group_events uploaded_db) < fuel)%nat →
         follow fuel 20 other_device group 0 10 uploaded_db = Some (sync_event <$> l))
      ∧ ascending l.
Proof.
  split; [exact uploaded_wf|].
  pose proof (sync_pages_complete 20 other_device group 0 10 uploaded_db uploaded_wf) as H.
  rewrite uploaded_member in H. destruct H as [_ (l & H1 & H2 & _)].
  exists l. split; [exact H1|exact H2].
Defined.

Lemma advance_group_cursor_spec_witness :
  wf uploaded_db ∧ (advance_group_cursor other_device group 1 (quiet uploaded_db [])).1 = Ok tt
  ∧ stored_cursor other_device group (cursor_stored other_device group 1 uploaded_db) = Some 1.
Proof.
  split; [exact uploaded_wf|].
  pose proof (advance_group_cursor_spec other_device group 1 uploaded_db uploaded_wf) as H.
  rewrite uploaded_acked in H. rewrite uploaded_acked. split; [reflexivity|].
  exact (proj1 (proj2 (proj2 (proj2 H) eq_refl))).
Defined.

(** A week after the upload. *)
Definition cleaned : result ApiError.t Z * Backend :=
  cleanup_expired_events 604800000010 100
    (quiet (cursor_stored other_device group 1 uploaded_db) []).
Lemma cleaned_eq :
  cleanup_expired_events 604800000010 100
    (quiet (cursor_stored other_device group 1 uploaded_db) [])
  = (Ok 1, quiet (current cleaned.2) []).
Proof. vm_compute. reflexivity. Qed.
#[local] Opaque cleaned.
Lemma uploaded_expire e : e ∈ group_events uploaded_db → GroupEvent.expires_at e ≤ 604800000010.
Proof.
  assert (H : forallb (λ e, GroupEvent.expires_at e <=? 604800000010) (group_events uploaded_db) = true)
    by (vm_compute; reflexivity).
  rewrite forallb_forall in H. rewrite list_elem_of_In. intros He. by apply Z.leb_le, H.
Qed.
Lemma uploaded_count : Z.of_nat (length (group_events uploaded_db)) ≤ clamp 1 10000 100.
Proof. by vm_compute. Qed.

Lemma ack_refused_after_cleanup_witness :
  advance_group_cursor other_device group 1 (quiet uploaded_db [])
  = (Ok tt, quiet (cursor_stored other_device group 1 uploaded_db) [])
  ∧ (advance_group_cursor other_device group 1 (quiet (current cleaned.2) [])).1
    = Err ApiError.InvalidInput.
Proof.
  split; [exact uploaded_acked|].
  exact (proj2 (ack_refused_after_cleanup other_device group 1 604800000010 100 uploaded_db _ 1 _
    uploaded_wf ltac:(lia) uploaded_acked uploaded_expire uploaded_count cleaned_eq)).
Defined.

(** The administrator removes the other device. *)
Definition removal : MembershipOperation.t :=
  let unsigned := MembershipOperation.Make (fill 16 50) group admin_device other_device 0 true
    (sk_sign (fill 32 5) []) in
  MembershipOperation.Make (fill 16 50) group admin_device other_device 0 true
    (sk_sign (fill 32 5) (operation_payload unsigned)).
Definition applied : result ApiError.t bool * Backend :=
  apply_membership_operation 10 removal backend.
Lemma applied_eq : apply_membership_operation 10 removal backend = (Ok false, applied.2).
Proof. unfold applied. apply pair_of. vm_compute. reflexivity. Qed.
#[local] Opaque applied.

Lemma membership_operation_once_witness :
  apply_membership_operation 10 removal backend = (Ok false, applied.2)
  ∧ exists_where (active_member group other_device) (group_members (current applied.2)) = false.
Proof.
  split; [exact applied_eq|].
  exact (proj2 (proj1 (proj2 (membership_operation_once 10 removal backend _ _ backend_sound applied_eq)))).
Defined.

(** The first message takes cursor 1, the second is accepted at cursor 2, and
    then the first is stored. *)
Definition begun : Db.t := (run (upload_begin (message 1)) db).2.
Lemma begun_eq : run (upload_begin (message 1)) db = (Ok 1, begun).
Proof. unfold begun. apply pair_of. vm_compute. reflexivity. Qed.
#[local] Opaque begun.
Definition overtaken : result ApiError.t UploadAccepted.t * Backend :=
  upload_event 10 (message 2) (quiet begun []).
Lemma overtaken_eq :
  upload_event 10 (message 2) (quiet begun []) = (Ok (UploadAccepted.Make 2 false), overtaken.2).
Proof. unfold overtaken. apply pair_of. vm_compute. reflexivity. Qed.
#[local] Opaque overtaken.
Definition finished : Db.t := (run (upload_finish 10 (message 1) 1) (current overtaken.2)).2.
Lemma finished_eq :
  run (upload_finish 10 (message 1) 1) (current overtaken.2)
  = (Ok (Commit (Ok (UploadAccepted.Make 1 false))), finished).
Proof. unfold finished. apply pair_of. vm_compute. reflexivity. Qed.
#[local] Opaque finished.
Lemma db_member : exists_where (active_member group other_device) (group_members db) = true.
Proof. vm_compute. reflexivity. Qed.

Lemma late_commit_is_skipped_witness :
  ∃ r, r ∈ group_events finished ∧ GroupEvent.event_cursor r = 1
  ∧ ∀ fuel l, follow fuel 20 other_device group 2 10 finished = Some l →
      ∀ e, e ∈ l → SyncEvent.cursor e ≠ 1.
Proof.
  destruct (late_commit_is_skipped 10 (message 1) (message 2) db 1 begun _ _ _ finished other_device
    group 20 10 db_wf eq_refl eq_refl db_member ltac:(unfold seconds, EVENT_TTL_SECONDS; lia)
    begun_eq overtaken_eq eq_refl finished_eq) as (_ & (r & Hr & _ & Hc & _) & Hskip).
  exists r. split; [exact Hr|]. split; [exact Hc|].
  intros fuel l Hl. exact (Hskip fuel 10 l Hl).
Defined.
End Witnesses.
