(* ===== verification/Concurrent.v ===== *)
(** * Concurrent: requests of core-api that overlap

    CoreApi runs one request after the other.  PostgreSQL runs transactions
    concurrently under READ COMMITTED, and services/core-api/src/lib.rs relies
    on row locks: [complete_challenge], [rotate_refresh], [release_username] and
    [apply_membership_operation] read the rows they depend on with SELECT .. FOR
    UPDATE, [fetch_key_package] and [fetch_welcomes] with FOR UPDATE SKIP LOCKED.
    This file models these six transactions as the locking read and the rest, any
    number of them interleaved with each other, and shows that each interleaving
    refines a service that handles one request after the other.  That service is
    CoreApi itself for the first four; a fetch, which skips what others hold, may
    there hand out any available rows, or none.  All other requests are single
    steps here, [change_username] too, although it locks a row: the overlaps of
    these with each other are not serial (Overlaps has two that go wrong). *)
From Stdlib Require Import ZArith Lia Sorting.Sorted.
From stdpp Require Import base gmap list strings relations.
From S2P Require Import Prelude Protocol Crypto DirectoryTool Sql Identity CoreDb CoreApi CoreSessions.
From S2P Require Import CoreDelivery.
Import Db.

(** ** The six transactions, from their locking read on *)

Section Rest.
Context `{C : Crypto}.

Definition complete_rest (seed : token_seed) (now : Z) (challenge_id : Id) (signature : array 64)
    (row : option (AuthChallenge.t * Device.t)) : stmt (outcome SessionTokens.t) :=
  row ← dlift (ok_or row ApiError.InvalidCredentials);
  let '(c, x) := row in
  _ ← dlift (ensure (is_none (AuthChallenge.consumed_at c)) ApiError.Replay);
  _ ← dlift (ensure (negb (AuthChallenge.expires_at c <=? now)) ApiError.Expired);
  _ ← dlift (check_signature (Device.device_public_key x)
        (auth_challenge_payload challenge_id (AuthChallenge.challenge c)) signature);
  _ ← exec (consume_challenge challenge_id now);
  tokens ← issue_tokens seed now (AuthChallenge.device_id c) None;
  mret (Commit (Ok tokens)).

Definition rotate_rest (seed : token_seed) (now : Z) (device_id : Id) (refresh_token : array 32)
    (device_signature : array 64) (row : option (RefreshSession.t * Device.t))
    : stmt (outcome SessionTokens.t) :=
  let hash := refresh_hash refresh_token in
  row ← dlift (ok_or row ApiError.InvalidCredentials);
  let '(r, x) := row in
  if negb (is_none (RefreshSession.used_at r)) || negb (is_none (RefreshSession.revoked_at r)) then
    _ ← exec (revoke_family (RefreshSession.family_id r) now);
    mret (Commit (Err ApiError.TokenReuse))
  else
    _ ← dlift (ensure (negb (RefreshSession.expires_at r <=? now)) ApiError.Expired);
    _ ← dlift (check_signature (Device.device_public_key x)
          (refresh_proof_payload refresh_token) device_signature);
    tokens ← issue_tokens seed now device_id (Some (RefreshSession.family_id r));
    _ ← exec (use_refresh hash (refresh_hash (SessionTokens.refresh_token tokens)) now);
    mret (Commit (Ok tokens)).

Definition membership_rest (now : Z) (o : MembershipOperation.t) (author : option (array 32))
    : stmt (outcome bool) :=
  public ← dlift (ok_or author ApiError.Unauthorized);
  _ ← dlift (check_signature public (operation_payload o) (MembershipOperation.signature o));
  stored ← ask (λ d, Ok (stored_operation o d));
  match stored with
  | Some m =>
      if same_operation o m then mret (Commit (Ok true)) else mret (Drop (Err ApiError.Conflict))
  | None =>
      _ ← exec (insert_operation (MembershipRow.Make (MembershipOperation.correlation_id o)
            (MembershipOperation.group_id o) (MembershipOperation.author_device_id o)
            (operation_payload o) (arr (MembershipOperation.signature o)) None));
      _ ← change_member now o;
      _ ← exec (apply_operation (MembershipOperation.correlation_id o) now);
      mret (Commit (Ok false))
  end.
End Rest.

Definition release_rest (now : Z) (account_id : array 32) (current : option text)
    : stmt (outcome unit) :=
  current ← dlift (ok_or current ApiError.InvalidInput);
  _ ← retire_name now account_id current;
  mret (Commit (Ok tt)).

Definition fetch_package_rest (now : Z) (row : option KeyPackage.t)
    : stmt (outcome (option (Id * bytes))) :=
  match row with
  | None => mret (Commit (Ok None))
  | Some k =>
      _ ← exec (consume_package (KeyPackage.package_id k) now);
      mret (Commit (Ok (Some (KeyPackage.package_id k, KeyPackage.package k))))
  end.

Definition handed_out (w : Welcome.t) : Id * Id * bytes :=
  (Welcome.welcome_id w, Welcome.group_id w, Welcome.welcome w).
Definition fetch_welcomes_rest (now : Z) (rows : list Welcome.t)
    : stmt (outcome (list (Id * Id * bytes))) :=
  _ ← dfold (λ _ w, _ ← exec (consume_welcome (Welcome.welcome_id w) now); mret tt) tt rows;
  mret (Commit (Ok (handed_out <$> rows))).

(** The operations of CoreApi are the read followed by the rest. *)
Lemma complete_split `{C : Crypto} seed now i sig :
  complete_body seed now i sig = (row ← ask (select_challenge i); complete_rest seed now i sig row).
Proof. reflexivity. Qed.
Lemma rotate_split `{C : Crypto} seed now x t sig :
  rotate_body seed now x t sig
  = (row ← ask (select_refresh (refresh_hash t) x); rotate_rest seed now x t sig row).
Proof. reflexivity. Qed.
Lemma fetch_package_split now x :
  fetch_package_body now x = (row ← ask (select_package x); fetch_package_rest now row).
Proof. reflexivity. Qed.
Lemma fetch_welcomes_split now x limit :
  fetch_welcomes_body now x limit
  = (rows ← ask (select_welcomes x now (clamp 1 MAX_SYNC_BATCH limit)); fetch_welcomes_rest now rows).
Proof. reflexivity. Qed.

Lemma membership_split `{C : Crypto} now o :
  membership_body now o
  = (author ← ask (select_admin_key (MembershipOperation.group_id o)
        (MembershipOperation.author_device_id o)); membership_rest now o author).
Proof. reflexivity. Qed.
Lemma release_split now a :
  release_body now a = (current ← ask (select_username a); release_rest now a current).
Proof. reflexivity. Qed.

(** ** Rows, requests and what a locking read returns *)

Module Row.
Inductive t := Challenge (i : Id) | Device (i : Id) | Refresh (hash : array 32)
| Package (i : Id) | Welcome (i : Id) | Member (g i : Id) | Name (n : text).
End Row.

(** The row is the same in both databases. *)
Definition untouched (r : Row.t) (d d' : Db.t) : Prop :=
  match r with
  | Row.Challenge i => find_where (challenge_is i) (auth_challenges d') = find_where (challenge_is i) (auth_challenges d)
  | Row.Device i => find_where (device_is i) (devices d') = find_where (device_is i) (devices d)
  | Row.Refresh h => find_where (refresh_is h) (refresh_sessions d') = find_where (refresh_is h) (refresh_sessions d)
  | Row.Package i => find_where (package_is i) (key_packages d') = find_where (package_is i) (key_packages d)
  | Row.Welcome i => find_where (welcome_is i) (welcome_mailbox d') = find_where (welcome_is i) (welcome_mailbox d)
  | Row.Member g i => find_where (member_is g i) (group_members d') = find_where (member_is g i) (group_members d)
  | Row.Name n => find_where (username_is n) (usernames d') = find_where (username_is n) (usernames d)
  end.

Module Locking.
Inductive request :=
| Complete (seed : token_seed) (now : Z) (challenge_id : Id) (signature : array 64)
| Rotate (seed : token_seed) (now : Z) (device_id : Id) (refresh_token : array 32)
    (signature : array 64)
| FetchPackage (now : Z) (device_id : Id)
| FetchWelcomes (now : Z) (device_id : Id) (limit : Z)
| Membership (now : Z) (o : MembershipOperation.t)
| Release (now : Z) (account_id : array 32).

Inductive reading :=
| ReadChallenge (row : option (AuthChallenge.t * Device.t))
| ReadRefresh (row : option (RefreshSession.t * Device.t))
| ReadPackage (row : option KeyPackage.t)
| ReadWelcomes (rows : list Welcome.t)
| ReadAdmin (row : option (GroupMember.t * Device.t))
| ReadName (row : option Username.t).

Inductive answer :=
| Tokens (t : SessionTokens.t)
| Handed (p : option (Id * bytes))
| Welcomed (l : list (Id * Id * bytes))
| Applied (already : bool)
| Released.
End Locking.
Import Locking.

(** FOR UPDATE without OF locks a row of each joined table. *)
Definition locked_rows (x : reading) : list Row.t :=
  match x with
  | ReadChallenge (Some (c, v)) =>
      [Row.Challenge (AuthChallenge.challenge_id c); Row.Device (Device.device_id v)]
  | ReadRefresh (Some (r, v)) =>
      [Row.Refresh (RefreshSession.token_hash r); Row.Device (Device.device_id v)]
  | ReadPackage (Some k) => [Row.Package (KeyPackage.package_id k)]
  | ReadWelcomes l => (λ w, Row.Welcome (Welcome.welcome_id w)) <$> l
  | ReadAdmin (Some (m, v)) =>
      [Row.Member (GroupMember.group_id m) (GroupMember.device_id m); Row.Device (Device.device_id v)]
  | ReadName (Some u) => [Row.Name (Username.canonical_username u)]
  | _ => []
  end.

(** Did the read return a row? *)
Definition found (x : reading) : bool :=
  match x with
  | ReadChallenge (Some _) | ReadRefresh (Some _) | ReadPackage (Some _) | ReadWelcomes (_ :: _)
  | ReadAdmin (Some _) | ReadName (Some _) => true
  | _ => false
  end.

(** The two rows of [select_admin_key]. *)
Definition select_admin (g i : Id) (d : Db.t) : option (GroupMember.t * Device.t) :=
  m ← find_where (λ m, active_member g i m && (GroupMember.role m =? 2)) (group_members d);
  x ← find_where (device_is (GroupMember.device_id m)) (devices d);
  Some (m, x).
Definition admin_key (row : GroupMember.t * Device.t) : array 32 := Device.device_public_key row.2.
Lemma select_admin_key_row g i d : select_admin_key g i d = Ok (admin_key <$> select_admin g i d).
Proof.
  unfold select_admin_key, select_admin. destruct (find_where _ (group_members d)) as [m|]; [|done]. cbn.
  by destruct (find_where _ (devices d)).
Qed.

(** The checks of an operation before its transaction begins. *)
Definition admitted (q : request) : bool :=
  match q with
  | Membership _ o => (0 <=? MembershipOperation.role o) && (MembershipOperation.role o <=? 2)
  | _ => true
  end.

Section Machine.
Context `{C : Crypto} `{U : Unicode}.

(** What the locking read of a request returns on a database.  SKIP LOCKED leaves
    out rows: [visible] has those that no other request holds and that the
    snapshot of the statement has. *)
Definition selects (q : request) (visible : Row.t → bool) (d : Db.t) : result ApiError.t reading :=
  match q with
  | Complete _ _ i _ => ReadChallenge <$> select_challenge i d
  | Rotate _ _ v t _ => ReadRefresh <$> select_refresh (refresh_hash t) v d
  | FetchPackage _ v =>
      Ok (ReadPackage (head (stable_sort older_leb
        (select_where (λ k, available_package v k && visible (Row.Package (KeyPackage.package_id k)))
          (key_packages d)))))
  | FetchWelcomes now v limit =>
      Ok (ReadWelcomes (take (Z.to_nat (clamp 1 MAX_SYNC_BATCH limit)) (stable_sort sooner_leb
        (select_where (λ w, pending_welcome v now w && visible (Row.Welcome (Welcome.welcome_id w)))
          (welcome_mailbox d)))))
  | Membership _ o =>
      Ok (ReadAdmin (select_admin (MembershipOperation.group_id o)
        (MembershipOperation.author_device_id o) d))
  | Release _ a => Ok (ReadName (find_where (active_of a) (usernames d)))
  end.

(** The rest of a request in its transaction, under any I/O failures: the answer
    and the committed database. *)
Definition answered {A} (f : A → answer) (x : result ApiError.t A * Backend)
    : result ApiError.t answer * Db.t := (f <$> x.1, current x.2).
Definition finish (q : request) (x : reading) (fl : list bool) (d : Db.t)
    : result ApiError.t answer * Db.t :=
  match q, x with
  | Complete seed now i sig, ReadChallenge o =>
      answered Tokens (pg_transaction (complete_rest seed now i sig o) (quiet d fl))
  | Rotate seed now v t sig, ReadRefresh o =>
      answered Tokens (pg_transaction (rotate_rest seed now v t sig o) (quiet d fl))
  | FetchPackage now _, ReadPackage o =>
      answered Handed (pg_transaction (fetch_package_rest now o) (quiet d fl))
  | FetchWelcomes now _ _, ReadWelcomes l =>
      answered Welcomed (pg_transaction (fetch_welcomes_rest now l) (quiet d fl))
  | Membership now o, ReadAdmin row =>
      answered Applied (pg_transaction (membership_rest now o (admin_key <$> row)) (quiet d fl))
  | Release now a, ReadName row =>
      answered (λ _, Released)
        (pg_transaction (release_rest now a (Username.canonical_username <$> row)) (quiet d fl))
  | _, _ => (Err ApiError.Database, d)
  end.

(** ** The interleavings

    A request has begun, or holds the rows it has read, or has been answered.
    Nothing of what it writes is visible before it commits, and what it reads
    after the locking read cannot change until then: the rows it holds, rows it
    has itself written, its own correlation identifier, which the unique key
    reserves for it, and devices, groups and stored operations, which no
    request changes.  So the rest can stand at the commit, or, where it is an
    error, at the statement that fails.  A unique key taken by another request
    in the meantime is a failing statement. *)
Inductive phase := Begun (q : request) | Holding (q : request) (x : reading).
Definition request_of (p : phase) : request := match p with Begun q | Holding q _ => q end.

(** What happened, in the order of the commits. *)
Inductive event :=
| Answered (q : request) (r : result ApiError.t answer)
| Other (r : Request.t) (fl : list bool).

Record state := State { database : Db.t; active : gmap nat phase; history : list event }.

Definition holds (s : state) (i : nat) (r : Row.t) : Prop :=
  ∃ q x, active s !! i = Some (Holding q x) ∧ r ∈ locked_rows x.
(** No other request than [i] holds the row. *)
Definition free (s : state) (i : nat) (r : Row.t) : Prop := ∀ j, j ≠ i → ¬ holds s j r.
(** A write of a row that another request holds waits for it. *)
Definition respects (s : state) (i : option nat) (d' : Db.t) : Prop :=
  ∀ j r, Some j ≠ i → holds s j r → untouched r (database s) d'.

Inductive interleave : state → state → Prop :=
| begin_step i q s :
    active s !! i = None → admitted q = true →
    interleave s (State (database s) (<[i := Begun q]> (active s)) (history s))
(** The read waits until the rows are free, or skips those that are not. *)
| lock_step i q visible x s :
    active s !! i = Some (Begun q) → (∀ r, visible r = true → free s i r) →
    selects q visible (database s) = Ok x → found x = true →
    (∀ r, r ∈ locked_rows x → free s i r) →
    interleave s (State (database s) (<[i := Holding q x]> (active s)) (history s))
(** Without a row there is nothing to hold and nothing to write. *)
| miss_step i q visible x fl r d' s :
    active s !! i = Some (Begun q) → (∀ r, visible r = true → free s i r) →
    selects q visible (database s) = Ok x → found x = false →
    finish q x fl (database s) = (r, d') →
    interleave s (State d' (delete i (active s)) (history s ++ [Answered q r]))
| finish_step i q x fl r d' s :
    active s !! i = Some (Holding q x) →
    finish q x fl (database s) = (r, d') → respects s (Some i) d' →
    interleave s (State d' (delete i (active s)) (history s ++ [Answered q r]))
(** A lost connection or a deadlock that PostgreSQL breaks. *)
| abort_step i p s :
    active s !! i = Some p →
    interleave s (State (database s) (delete i (active s))
      (history s ++ [Answered (request_of p) (Err ApiError.Database)]))
(** Any other request, as a whole. *)
| other_step r fl s :
    let d' := current (perform r (quiet (database s) fl)) in
    respects s None d' →
    interleave s (State d' (active s) (history s ++ [Other r fl])).
Definition interleavings : state → state → Prop := rtc interleave.

(** ** The specification: whole requests, one after the other

    A completion, a rotation, a membership operation or a release is the
    operation of CoreApi; a fetch hands out any rows that are available, at most
    as many as asked for, or none. *)
Definition consume_welcomes (now : Z) (l : list Welcome.t) (d : Db.t) : Db.t :=
  foldl (λ d w, set_welcome_mailbox (update_where (welcome_is (Welcome.welcome_id w))
    (Welcome.set_consumed now) (welcome_mailbox d)) d) d l.
Definition serves (d : Db.t) (e : event) (d' : Db.t) : Prop :=
  match e with
  | Other r fl => d' = current (perform r (quiet d fl))
  | Answered (Complete seed now i sig) r =>
      ∃ fl, (r, d') = answered Tokens (complete_challenge seed now i sig (quiet d fl))
  | Answered (Rotate seed now v t sig) r =>
      ∃ fl, (r, d') = answered Tokens (rotate_refresh seed now v t sig (quiet d fl))
  | Answered (FetchPackage now v) r =>
      d' = d ∧ (r = Err ApiError.Database ∨ r = Ok (Handed None))
      ∨ ∃ k, k ∈ key_packages d ∧ available_package v k = true
          ∧ r = Ok (Handed (Some (KeyPackage.package_id k, KeyPackage.package k)))
          ∧ d' = set_key_packages (update_where (package_is (KeyPackage.package_id k))
              (KeyPackage.set_consumed now) (key_packages d)) d
  | Answered (FetchWelcomes now v limit) r =>
      d' = d ∧ r = Err ApiError.Database
      ∨ ∃ l, NoDup (Welcome.welcome_id <$> l)
          ∧ Z.of_nat (length l) ≤ clamp 1 MAX_SYNC_BATCH limit
          ∧ Forall (λ w, w ∈ welcome_mailbox d ∧ pending_welcome v now w = true) l
          ∧ r = Ok (Welcomed (handed_out <$> l)) ∧ d' = consume_welcomes now l d
  | Answered (Membership now o) r =>
      ∃ fl, (r, d') = answered Applied (apply_membership_operation now o (quiet d fl))
  | Answered (Release now a) r =>
      ∃ fl, (r, d') = answered (λ _, Released) (release_username now a (quiet d fl))
  end.
Inductive serial (d : Db.t) : list event → Db.t → Prop :=
| serial_nil : serial d [] d
| serial_snoc h d1 e d2 : serial d h d1 → serves d1 e d2 → serial d (h ++ [e]) d2.

(** ** A locking read and its rest are the whole transaction *)

(** The schedule of the whole transaction: its read does not fail. *)
Definition unfailing_read (fl : list bool) : list bool :=
  match fl with false :: fl => false :: false :: fl | _ => fl end.

Lemma transaction_after_read {A X} (f : Db.t → result ApiError.t X) (k : X → stmt (outcome A)) x d fl :
  f d = Ok x → pg_transaction (y ← ask f; k y) (quiet d (unfailing_read fl))
    = pg_transaction (k x) (quiet d fl).
Proof.
  intros Hf. destruct fl as [|[] fl]; [|done|];
    unfold pg_transaction, autocommit, mbind, dbm_bind, query; cbn; by rewrite Hf.
Qed.

Lemma transaction_seq {A} (body : stmt (outcome A)) d fl :
  (∀ n, Preserves (λ d, event_seq d = n) body) →
  event_seq (current (pg_transaction body (quiet d fl)).2) = event_seq d.
Proof.
  intros Hs. unfold pg_transaction, begin_, quiet. cbn [faults in_tx current committed].
  rewrite orb_false_r. destruct (default false (head fl)); [done|].
  unfold autocommit. cbn [current committed in_tx faults].
  pose proof (Hs (event_seq d) d (tail fl) eq_refl) as H.
  destruct (body d (tail fl)) as [[[[r|r]|e] d1] fl1]; cbn in H; [|done..].
  unfold commit. cbn [faults]. by destruct (default false (head fl1)).
Qed.

(** A transaction that draws no identity value leaves nothing behind when it
    fails. *)
Lemma transaction_all_or_nothing {A} (body : stmt (outcome A)) d fl :
  Faithful ApiError.Database body → (∀ n, Preserves (λ d, event_seq d = n) body) →
  let '(r, w) := pg_transaction body (quiet d fl) in
  current w = d ∧ (r = Err ApiError.Database
    ∨ match (run body d).1 with
      | Err e => r = Err e | Ok (Drop r0) => r = r0 | Ok (Commit _) => False
      end)
  ∨ run body d = (Ok (Commit r), current w).
Proof.
  intros Hb Hs. pose proof (transaction_seq body d fl Hs) as Hq.
  pose proof (pg_transaction_atomic body (quiet d fl) Hb (conj eq_refl eq_refl)) as Ha.
  destruct (pg_transaction body (quiet d fl)) as [r w]. destruct Ha as [_ [[Hr H]|H]]; [left|by right].
  split; [|done]. unfold same_rows in Hr. cbn in Hr, Hq.
  rewrite <- (seq_unchanged (current w)), <- (seq_unchanged d), Hq.
  by apply (f_equal (set_event_seq (event_seq d))) in Hr.
Qed.

(** ** What a request holds stays as it read it *)

(** The reading is still good on this database. *)
Definition still (q : request) (x : reading) (d : Db.t) : Prop :=
  match q, x with
  | Complete _ _ i _, ReadChallenge o => select_challenge i d = Ok o
  | Rotate _ _ v t _, ReadRefresh o => select_refresh (refresh_hash t) v d = Ok o
  | FetchPackage _ v, ReadPackage o =>
      ∀ k, o = Some k → k ∈ key_packages d ∧ available_package v k = true
  | FetchWelcomes now v limit, ReadWelcomes l =>
      NoDup (Welcome.welcome_id <$> l) ∧ Z.of_nat (length l) ≤ clamp 1 MAX_SYNC_BATCH limit
      ∧ Forall (λ w, w ∈ welcome_mailbox d ∧ pending_welcome v now w = true) l
  | Membership _ o, ReadAdmin row =>
      select_admin (MembershipOperation.group_id o) (MembershipOperation.author_device_id o) d = row
  | Release _ a, ReadName row => find_where (active_of a) (usernames d) = row
  | _, _ => False
  end.

(** Rows that are the only ones with their key, before and after. *)
Lemma select_admin_Some g i d m v :
  select_admin g i d = Some (m, v) →
  find_where (λ m, active_member g i m && (GroupMember.role m =? 2)) (group_members d) = Some m
  ∧ find_where (device_is (GroupMember.device_id m)) (devices d) = Some v.
Proof.
  unfold select_admin. destruct (find_where _ (group_members d)) as [m'|]; [|done]. cbn.
  destruct (find_where _ (devices d)) as [v'|] eqn:Ev; [|done]. by intros [= -> ->].
Qed.
Lemma selects_still q visible d x : wf d → selects q visible d = Ok x → still q x d.
Proof.
  intros (Hk & _). destruct q; cbn [selects]; intros H; cbn in H.
  - injection H as <-. reflexivity.
  - injection H as <-. reflexivity.
  - injection H as <-. intros k Hh. apply stable_sort_head_least in Hh as [Hin _];
      [|unfold older_leb; lia..]. apply elem_of_select in Hin as [Hin [Hav _]%andb_true_iff]. done.
  - injection H as <-. set (l := select_where _ _).
    assert (Hsub : ∀ w, w ∈ take (Z.to_nat (clamp 1 MAX_SYNC_BATCH limit)) (stable_sort sooner_leb l) → w ∈ l).
    { intros w Hw. apply elem_of_take in Hw as (j & Hj & _). apply list_elem_of_lookup_2 in Hj.
      by rewrite stable_sort_perm in Hj. }
    split_and!.
    + rewrite fmap_take. eapply sublist_NoDup; [|apply sublist_take].
      rewrite (stable_sort_perm sooner_leb l). apply unique_select, Hk.
    + rewrite length_take. unfold clamp, MAX_SYNC_BATCH in *. lia.
    + apply Forall_forall. intros w [Hin [Hp _]%andb_true_iff]%Hsub%elem_of_select. done.
  - injection H as <-. reflexivity.
  - injection H as <-. reflexivity.
Qed.

Lemma admin_untouched g i d d' m v :
  wf_keys d → select_admin g i d = Some (m, v) →
  untouched (Row.Member (GroupMember.group_id m) (GroupMember.device_id m)) d d' →
  untouched (Row.Device (Device.device_id v)) d d' → select_admin g i d' = Some (m, v).
Proof.
  intros Hk [Em Ev]%select_admin_Some Hm Hv. cbn in Hm, Hv.
  apply find_where_Some in Em as [Hin [[Hi Hn]%andb_true_iff Hr]%andb_true_iff].
  pose proof Hi as E%group_member_keyed. injection E as <- <-.
  rewrite (find_key _ _ _ _ _ (group_member_keyed _ _) (key_member _ Hk) Hin eq_refl) in Hm.
  apply find_where_Some in Ev as Ev'. destruct Ev' as [_ Hd%device_keyed]. rewrite Hd, Ev in Hv.
  unfold select_admin, active_member.
  rewrite (find_where_and _ _ _ _ (find_where_and _ _ _ _ Hm Hn) Hr). cbn. by rewrite Hv.
Qed.

Lemma still_untouched q x d d' :
  wf d → wf d' → (∀ r, r ∈ locked_rows x → untouched r d d') → found x = true →
  still q x d → still q x d'.
Proof.
  intros (Hk & _) (Hk' & _) Hu Hne. destruct q, x as [o'|o'|o'|l|row|row]; cbn [still]; try done.
  - destruct o' as [[c v]|]; [|done]. unfold select_challenge. intros H.
    destruct (find_where (challenge_is challenge_id) (auth_challenges d)) as [c'|] eqn:Ec; [|done].
    cbn in H. destruct (find_where (device_is _) (devices d)) as [v'|] eqn:Ev; [|done].
    injection H as -> ->.
    pose proof (Hu (Row.Challenge (AuthChallenge.challenge_id c)) ltac:(left)) as Hc.
    pose proof (Hu (Row.Device (Device.device_id v)) ltac:(right; left)) as Hv. cbn in Hc, Hv.
    apply find_where_Some in Ec as Ec'. destruct Ec' as [_ Hi%challenge_keyed].
    apply find_where_Some in Ev as Ev'. destruct Ev' as [_ Hd%device_keyed].
    rewrite Hi, Ec in Hc. rewrite Hd, Ev in Hv. by rewrite Hc; cbn; rewrite Hv.
  - destruct o' as [[r v]|]; [|done]. unfold select_refresh. intros H.
    destruct (find_where (λ r, _ && _) (refresh_sessions d)) as [r'|] eqn:Er; [|done].
    cbn in H. destruct (find_where (device_is _) (devices d)) as [v'|] eqn:Ev; [|done].
    injection H as -> ->.
    pose proof (Hu (Row.Refresh (RefreshSession.token_hash r)) ltac:(left)) as Hr.
    pose proof (Hu (Row.Device (Device.device_id v)) ltac:(right; left)) as Hv. cbn in Hr, Hv.
    apply find_where_Some in Er as [Hin [Hh%refresh_keyed Hx]%andb_true_iff].
    rewrite Hh in Hr.
    rewrite (find_key _ _ _ _ _ (refresh_keyed _) (key_refresh _ Hk) Hin Hh) in Hr.
    apply find_where_Some in Ev as Ev'. destruct Ev' as [_ Hd%device_keyed].
    rewrite Hd, Ev in Hv. rewrite (find_where_and _ _ _ _ Hr Hx). cbn. by rewrite Hv.
  - intros H k ->. destruct (H k eq_refl) as [Hin Hav]. split; [|done].
    pose proof (Hu (Row.Package (KeyPackage.package_id k)) ltac:(left)) as Hr. cbn in Hr.
    rewrite (find_key _ _ _ _ _ (package_keyed _) (key_package _ Hk) Hin eq_refl) in Hr.
    by apply find_where_Some in Hr as [? _].
  - intros (Hn & Hlen & Hl). split_and!; [done..|]. rewrite Forall_forall in *. intros w Hw.
    destruct (Hl w Hw) as [Hin Hp]. split; [|done].
    pose proof (Hu (Row.Welcome (Welcome.welcome_id w)) ltac:(apply list_elem_of_fmap; eauto)) as Hr.
    cbn in Hr. rewrite (find_key _ _ _ _ _ (welcome_keyed _) (key_welcome _ Hk) Hin eq_refl) in Hr.
    by apply find_where_Some in Hr as [? _].
  - destruct row as [[m v]|]; [|done]. intros Hs.
    apply (admin_untouched _ _ d); [done..|apply Hu; left|apply Hu; right; left].
  - destruct row as [u|]; [|done]. intros [Hin Ha]%find_where_Some.
    pose proof (Hu (Row.Name (Username.canonical_username u)) ltac:(left)) as Hr. cbn in Hr.
    rewrite (find_key _ _ _ _ _ (username_keyed _) (key_username _ Hk) Hin eq_refl) in Hr.
    apply find_where_Some in Hr as [Hr _]. by apply find_active.
Qed.

(** ** The rest of a request is one step of the specification *)

#[export] Instance fetch_package_rest_faithful now o : faithful (fetch_package_rest now o).
Proof. unfold fetch_package_rest. solve_faithful. Qed.
#[export] Instance fetch_welcomes_rest_faithful now l : faithful (fetch_welcomes_rest now l).
Proof. unfold fetch_welcomes_rest. solve_faithful. Qed.

Lemma seq_consume_package n i now : Stable (λ d, event_seq d = n) (consume_package i now).
Proof. intros d m d' [= _ <-]. done. Qed.
Lemma seq_consume_welcome n i now : Stable (λ d, event_seq d = n) (consume_welcome i now).
Proof. intros d m d' [= _ <-]. done. Qed.
Lemma fetch_package_rest_seq now o n : Preserves (λ d, event_seq d = n) (fetch_package_rest now o).
Proof.
  unfold fetch_package_rest. destruct o; [|apply _].
  apply preserves_bind; [apply stable_preserves, seq_consume_package|apply _].
Qed.
Lemma fetch_welcomes_rest_seq now l n : Preserves (λ d, event_seq d = n) (fetch_welcomes_rest now l).
Proof.
  unfold fetch_welcomes_rest. apply preserves_bind; [|apply _]. apply preserves_dfold. intros _ w.
  apply preserves_bind; [apply stable_preserves, seq_consume_welcome|apply _].
Qed.

Lemma fetch_welcomes_rest_run now l d :
  run (fetch_welcomes_rest now l) d = (Ok (Commit (Ok (handed_out <$> l))), consume_welcomes now l d).
Proof.
  unfold fetch_welcomes_rest. rewrite (run_bind ApiError.Database) by apply _.
  assert (H : run (dfold (λ _ w, _ ← exec (consume_welcome (Welcome.welcome_id w) now); mret tt) tt l : stmt unit) d
    = (Ok tt, consume_welcomes now l d)); [|by rewrite H].
  revert d. induction l as [|w l IH]; intros d; [done|]. cbn [dfold].
  rewrite !(run_bind ApiError.Database), run_execute by apply _. cbn [consume_welcome].
  rewrite run_ret. apply IH.
Qed.

Lemma finish_serves q x fl d r d' :
  admitted q = true → still q x d → finish q x fl d = (r, d') → serves d (Answered q r) d'.
Proof.
  destruct q, x; cbn [still]; try done; cbn [finish serves]; intros Hq Hs Hf.
  - exists (unfailing_read fl). rewrite <- Hf. f_equal. unfold complete_challenge.
    rewrite complete_split. symmetry. by apply transaction_after_read.
  - exists (unfailing_read fl). rewrite <- Hf. f_equal. unfold rotate_refresh.
    rewrite rotate_split. symmetry. by apply transaction_after_read.
  - pose proof (transaction_all_or_nothing (fetch_package_rest now row) d fl _
      (fetch_package_rest_seq now row)) as H.
    destruct (pg_transaction _ _) as [r0 w]. injection Hf as <- <-. cbn [fst snd].
    destruct row as [k|].
    + unfold fetch_package_rest in H. rewrite (run_bind ApiError.Database), run_execute in H by apply _.
      cbn [consume_package] in H. rewrite run_ret in H. destruct H as [[Hw [->|[]]]|[= <- Hw]].
      * left. auto.
      * right. exists k. destruct (Hs k eq_refl). rewrite <- Hw. auto.
    + left. unfold fetch_package_rest in H. rewrite run_ret in H.
      destruct H as [[Hw [->|[]]]|[= <- Hw]]; auto.
  - pose proof (transaction_all_or_nothing (fetch_welcomes_rest now rows) d fl _
      (fetch_welcomes_rest_seq now rows)) as H.
    destruct (pg_transaction _ _) as [r0 w]. injection Hf as <- <-. cbn [fst snd].
    rewrite fetch_welcomes_rest_run in H. destruct H as [[Hw [->|[]]]|[= <- Hw]]; [left; auto|right].
    exists rows. rewrite <- Hw. by destruct_and! Hs.
  - exists (unfailing_read fl). rewrite <- Hf. f_equal. unfold apply_membership_operation.
    cbn [admitted] in Hq. rewrite Hq. cbn [negb]. rewrite membership_split. symmetry.
    apply transaction_after_read. by rewrite select_admin_key_row, Hs.
  - exists (unfailing_read fl). rewrite <- Hf. f_equal. unfold release_username.
    rewrite release_split. symmetry. apply transaction_after_read. unfold select_username. by rewrite Hs.
Qed.

(** ** Invariants of the database hold between whole requests *)

Lemma consume_welcomes_keeps P `{!Invariant P} now l d : P d → P (consume_welcomes now l d).
Proof.
  revert d. induction l as [|w l IH]; intros d Hd; [done|]. apply IH.
  by apply (inv_consume_welcome (P := P) (Welcome.welcome_id w) now d _ _ eq_refl).
Qed.

Lemma perform_quiet_keeps P `{!Invariant P} r fl d : P d → P (current (perform r (quiet d fl))).
Proof. intros Hd. by apply (perform_keeps P r (quiet d fl)). Qed.

Lemma serves_keeps P `{!Invariant P} d e d' : serves d e d' → P d → P d'.
Proof.
  destruct e as [[seed now i sig|seed now v t sig|now v|now v limit|now o|now a] r|r fl]; cbn [serves].
  - intros (fl & [= _ ->]). apply (perform_quiet_keeps P (Request.CompleteChallenge seed now i sig)).
  - intros (fl & [= _ ->]). apply (perform_quiet_keeps P (Request.RotateRefresh seed now v t sig)).
  - intros [[-> _]|(k & _ & _ & _ & ->)]; [done|].
    by apply (inv_consume_package (P := P) (KeyPackage.package_id k) now d _ _ eq_refl).
  - intros [[-> _]|(l & _ & _ & _ & _ & ->)]; [done|]. by apply consume_welcomes_keeps.
  - intros (fl & [= _ ->]). apply (perform_quiet_keeps P (Request.Membership now o)).
  - intros (fl & [= _ ->]). apply (perform_quiet_keeps P (Request.ReleaseUsername now a)).
  - intros ->. by apply perform_quiet_keeps.
Qed.

Lemma serves_wf d e d' : serves d e d' → wf d → wf d'.
Proof. intros He (? & ? & ?). split_and!; by apply (serves_keeps _ _ _ _ He). Qed.

(** ** Every interleaving is a sequence of whole requests *)

Definition coherent (d0 : Db.t) (s : state) : Prop :=
  serial d0 (history s) (database s) ∧ wf (database s)
  ∧ (∀ i p, active s !! i = Some p → admitted (request_of p) = true)
  ∧ ∀ i q x, active s !! i = Some (Holding q x) → still q x (database s) ∧ found x = true.

(** Removing a request and changing the database. *)
Lemma coherent_commit d0 s i e d' :
  coherent d0 s → serves (database s) e d' → respects s i d' →
  (∀ j q x, Some j ≠ i → active s !! j = Some (Holding q x) → still q x (database s) →
     still q x d') ∧ wf d' ∧ serial d0 (history s ++ [e]) d'.
Proof.
  intros (Hs & Hwf & _ & Hh) He Hr. pose proof (serves_wf _ _ _ He Hwf) as Hwf'. split_and!.
  - intros j q x Hj Hx Hst. destruct (Hh j q x Hx) as [_ Hne].
    eapply still_untouched; [exact Hwf|exact Hwf'| |exact Hne|exact Hst].
    intros r Hin. apply (Hr j r Hj). by exists q, x.
  - done.
  - by econstructor.
Qed.

Lemma finish_nothing q x fl d r d' : found x = false → finish q x fl d = (r, d') → d' = d.
Proof.
  assert (Hnone : ∀ A (body : stmt (outcome A)),
    (∀ fl, ∃ y fl', body d fl = (y, d, fl')) → current (pg_transaction body (quiet d fl)).2 = d).
  { intros A body Hb. unfold pg_transaction, begin_, quiet. cbn [faults in_tx current committed].
    rewrite orb_false_r. destruct (default false (head fl)); [done|].
    unfold autocommit. cbn [current committed in_tx faults].
    destruct (Hb (tail fl)) as (y & fl' & ->). destruct y as [[y|y]|e]; [|apply seq_unchanged..].
    unfold commit. cbn [faults]. destruct (default false (head fl')); [apply seq_unchanged|done]. }
  destruct q, x as [o'|o'|o'|l|row|row]; cbn [finish found]; try (by intros _ [= _ <-]); intros Hx [= _ <-].
  - destruct o' as [[c v]|]; [done|]. apply Hnone. intros fl'. by do 2 eexists.
  - destruct o' as [[c v]|]; [done|]. apply Hnone. intros fl'. by do 2 eexists.
  - destruct o'; [done|]. apply Hnone. intros fl'. by do 2 eexists.
  - destruct l; [|done]. apply Hnone. intros fl'. by do 2 eexists.
  - destruct row as [r0|]; [done|]. apply Hnone. intros fl'. by do 2 eexists.
  - destruct row; [done|]. apply Hnone. intros fl'. by do 2 eexists.
Qed.

Lemma serves_failure q d : admitted q = true → serves d (Answered q (Err ApiError.Database)) d.
Proof.
  destruct q; cbn [serves admitted]; intros Hq;
    [by exists [true]|by exists [true]|left; auto|left; auto| |by exists [true]].
  exists [true]. unfold apply_membership_operation. by rewrite Hq.
Qed.

Lemma untouched_refl r d : untouched r d d.
Proof. by destruct r. Qed.

(** Answering a request keeps the other readings good. *)
Lemma coherent_answer d0 s i e d' :
  coherent d0 s → serves (database s) e d' → respects s (Some i) d' →
  coherent d0 (State d' (delete i (active s)) (history s ++ [e])).
Proof.
  intros Hc He Hr. destruct (coherent_commit _ _ _ _ _ Hc He Hr) as (Hh & Hwf & Hs).
  destruct Hc as (_ & _ & Hadm & Hold). split_and!; [done..| |]; cbn [active database].
  - intros j p [_ Hx]%lookup_delete_Some. by apply (Hadm j).
  - intros j q x [Hj Hx]%lookup_delete_Some. destruct (Hold j q x Hx). split; [|done].
    by apply (Hh j); [congruence|..].
Qed.

Lemma interleave_coherent d0 s s' : interleave s s' → coherent d0 s → coherent d0 s'.
Proof.
  intros Hstep Hc. pose proof Hc as (Hs & Hwf & Hadm & Hh).
  destruct Hstep as [i q s Hi Hq|i q visible x s Hi Hv Hx Hne Hfree|i q visible x fl r d' s Hi Hv Hx Hnil Hf
    |i q x fl r d' s Hi Hf Hr|i p s Hi|r fl s d' Hr].
  - split_and!; [done..| |]; cbn [active database].
    + intros j p [[-> [= <-]]|[_ Hj]]%lookup_insert_Some; [done|by apply (Hadm j)].
    + intros j q' x [[-> [=]]|[_ Hj]]%lookup_insert_Some. by apply (Hh j).
  - split_and!; [done..| |]; cbn [active database].
    + intros j p [[-> [= <-]]|[_ Hj]]%lookup_insert_Some; [by apply (Hadm _ _ Hi)|by apply (Hadm j)].
    + intros j q' x' [[-> [= -> ->]]|[_ Hj]]%lookup_insert_Some; [|by apply (Hh j)].
      split; [by eapply selects_still|done].
  - pose proof (finish_nothing _ _ _ _ _ _ Hnil Hf) as ->. apply coherent_answer; [done| |].
    + by eapply finish_serves; [apply (Hadm i _ Hi)|eapply selects_still|].
    + intros j r' _ _. apply untouched_refl.
  - apply coherent_answer; [done| |done].
    eapply finish_serves; [apply (Hadm i _ Hi)|by apply (Hh i)|done].
  - apply coherent_answer; [done|apply serves_failure, (Hadm i _ Hi)|]. intros j r' _ _. apply untouched_refl.
  - destruct (coherent_commit d0 s None (Other r fl) d' Hc eq_refl Hr) as (Hst & Hwf' & Hs').
    split_and!; [done..|]. intros j q x Hj. destruct (Hh j q x Hj). split; [|done].
    by apply (Hst j).
Qed.

Lemma interleavings_coherent d0 s :
  wf d0 → interleavings (State d0 ∅ []) s → coherent d0 s.
Proof.
  intros Hwf Hs. assert (Hc : coherent d0 (State d0 ∅ [])).
  { split_and!; [constructor|done|by intros i p|]. by intros i q x. }
  remember (State d0 ∅ []) as s0 eqn:E. clear E.
  induction Hs as [s|s s1 s' Hstep _ IH]; [done|].
  by apply IH, (interleave_coherent d0 s).
Qed.

(** C3: The six transactions with locking reads may overlap.  Any number of
    them, interleaved with each other, with other requests as single steps, with
    lost connections, deadlocks and failing statements, refine a service that
    handles whole requests in the order of their commits and leaves the same
    database.  There a completion, a rotation, a membership operation and a
    release are exactly the operation of CoreApi, under some failures of its
    statements.  A fetch is less than that: it hands out and consumes rows that
    are available there, at most as many as asked for, or answers that there is
    none, even where another request holds the only one.  The overlaps of other
    requests with each other, [change_username] among them, are not covered. *)
Theorem locking_requests_refine_service d0 s :
  wf d0 → interleavings (State d0 ∅ []) s → serial d0 (history s) (database s) ∧ wf (database s).
Proof.
  intros Hwf Hs. by destruct (interleavings_coherent d0 s Hwf Hs) as (? & ? & _).
Qed.

(** ** What can be spent is spent once *)

Inductive token := SpentChallenge (i : Id) | SpentRefresh (hash : array 32)
| SpentPackage (i : Id) | SpentWelcome (i : Id) | SpentOperation (i : Id).
(** What a successful answer spends. *)
Definition spends (e : event) : list token :=
  match e with
  | Answered (Complete _ _ i _) (Ok _) => [SpentChallenge i]
  | Answered (Rotate _ _ _ t _) (Ok _) => [SpentRefresh (refresh_hash t)]
  | Answered (FetchPackage _ _) (Ok (Handed (Some (i, _)))) => [SpentPackage i]
  | Answered (FetchWelcomes _ _ _) (Ok (Welcomed l)) => (λ w, SpentWelcome w.1.1) <$> l
  | Answered (Membership _ o) (Ok (Applied false)) =>
      [SpentOperation (MembershipOperation.correlation_id o)]
  | _ => []
  end.
Definition consumed_welcome (i : Id) (d : Db.t) : Prop :=
  ∃ w, w ∈ welcome_mailbox d ∧ Welcome.welcome_id w = i ∧ Welcome.consumed_at w ≠ None.
#[local] Instance consumed_welcome_invariant i : Invariant (consumed_welcome i).
Proof.
  solve_frame; [by apply snoc_keeps|]. apply update_where_keeps; [|done]. by intros w [? _].
Qed.
(** The identifier of a membership operation is taken. *)
Definition used_correlation (i : Id) (d : Db.t) : Prop :=
  ∃ m, m ∈ membership_operations d ∧ MembershipRow.correlation_id m = i.
#[local] Instance used_correlation_invariant i : Invariant (used_correlation i).
Proof. solve_frame; [by apply snoc_keeps|]. by apply update_where_keeps. Qed.
Definition is_spent (s : token) (d : Db.t) : Prop :=
  match s with
  | SpentChallenge i => consumed_challenge i d
  | SpentRefresh h => ∃ x f, dead_token x f h d
  | SpentPackage i => consumed_package i d
  | SpentWelcome i => consumed_welcome i d
  | SpentOperation i => used_correlation i d
  end.

Lemma serves_keeps_spent s d e d' : serves d e d' → is_spent s d → is_spent s d'.
Proof.
  intros He. destruct s; cbn [is_spent].
  1,3,4,5: by apply (serves_keeps _ _ _ _ He).
  intros (x & f & Hd). exists x, f. by apply (serves_keeps _ _ _ _ He).
Qed.

Lemma complete_spends seed now i sig d fl t w :
  wf d → complete_challenge seed now i sig (quiet d fl) = (Ok t, w) →
  ¬ consumed_challenge i d ∧ consumed_challenge i (current w).
Proof.
  intros Hwf H. apply transaction_committed in H as (_ & H); [|apply _|done|]; last first.
  { intros d' a E%complete_run_Ok. by destruct E as (c & x & E); destruct_and! E. }
  cbn [current quiet] in H. split.
  { intros Hc%(complete_consumed seed now i sig); [|done]. by rewrite H in Hc. }
  apply complete_run_Ok in H as (c & x & Hf & _ & _ & _ & _ & -> & _).
  apply find_where_Some in Hf as [Hin Hid]. exists (AuthChallenge.set_consumed now c).
  split_and!; [|by apply challenge_keyed in Hid|done].
  apply elem_of_update. exists c. by rewrite Hid.
Qed.

Lemma rotate_spends seed now v t sig d fl ts w :
  wf d → rotate_refresh seed now v t sig (quiet d fl) = (Ok ts, w) →
  ¬ is_spent (SpentRefresh (refresh_hash t)) d ∧ is_spent (SpentRefresh (refresh_hash t)) (current w).
Proof.
  intros (Hk & _) H. apply transaction_committed in H as (_ & H); [|apply _|done|]; last first.
  { intros d' a E%rotate_run_Ok.
    by destruct E as (? & ? & _ & _ & _ & _ & _ & [(_ & ? & _)|(_ & _ & _ & _ & ? & _)]). }
  apply rotate_run_Ok in H as (row & dev & Hin & Hh & Hx & _ & _ &
    [(_ & ? & _)|(Hu & Hrev & _ & _ & _ & _ & Hd)]); [done|]. split.
  - intros (x & f & r & Hr & Hrh & _ & _ & Hdead).
    assert (r = row) as -> by (apply (NoDup_key_inj RefreshSession.token_hash (refresh_sessions d));
      [apply Hk|done|done|congruence]). by destruct Hdead.
  - exists v, (RefreshSession.family_id row), (RefreshSession.set_used now (refresh_hash (seed_refresh seed)) row).
    rewrite Hd. cbn. split_and!; try done; [|by left].
    apply elem_of_update. exists row. split; [apply elem_of_app; by left|].
    by rewrite (proj2 (refresh_keyed _ row) Hh).
Qed.

Lemma membership_spends now o d fl w :
  apply_membership_operation now o (quiet d fl) = (Ok false, w) →
  ¬ used_correlation (MembershipOperation.correlation_id o) d
  ∧ used_correlation (MembershipOperation.correlation_id o) (current w).
Proof.
  intros (_ & _ & H)%membership_Ok; [|done]. cbn [current quiet] in H.
  apply membership_run_Ok in H as (p & _ & _ & H).
  destruct (stored_operation o d) as [m|] eqn:E.
  { destruct H as [_ H]. by destruct (same_operation o m). }
  destruct H as (_ & Hs & _). split.
  - intros (m & Hm & Hi%operation_keyed). apply find_where_None in E.
    rewrite exists_where_false in E. by rewrite (E m Hm) in Hi.
  - apply find_where_Some in Hs as [Hin Hi%operation_keyed]. by eexists.
Qed.

(** Consuming welcomes marks each of them and no other. *)
Lemma consume_welcomes_marks now l d w :
  w ∈ l → w ∈ welcome_mailbox d → consumed_welcome (Welcome.welcome_id w) (consume_welcomes now l d).
Proof.
  revert d. induction l as [|w' l IH]; intros d; [by intros ?%not_elem_of_nil|].
  intros [->|Hw]%elem_of_cons Hin; cbn [consume_welcomes foldl].
  - apply (consume_welcomes_keeps _). exists (Welcome.set_consumed now w'). split_and!; [|done..].
    apply elem_of_update. exists w'. by rewrite (proj2 (welcome_keyed _ _) eq_refl).
  - destruct (welcome_is (Welcome.welcome_id w') w) eqn:E.
    + apply (consume_welcomes_keeps _). exists (Welcome.set_consumed now w). split_and!; [|done..].
      apply elem_of_update. exists w. by rewrite E.
    + apply IH; [done|]. apply elem_of_update. exists w. by rewrite E.
Qed.

Lemma available_unspent v k d :
  wf d → k ∈ key_packages d → available_package v k = true →
  ¬ consumed_package (KeyPackage.package_id k) d.
Proof.
  intros (Hk & _) Hin [_ Hav]%andb_true_iff (k' & Hin' & Hid & Hne).
  assert (k' = k) as -> by (apply (NoDup_key_inj KeyPackage.package_id (key_packages d));
    [apply Hk|done..]). by destruct (KeyPackage.consumed_at k).
Qed.
Lemma pending_unspent v now w d :
  wf d → w ∈ welcome_mailbox d → pending_welcome v now w = true →
  ¬ consumed_welcome (Welcome.welcome_id w) d.
Proof.
  intros (Hk & _) Hin [[_ Hp]%andb_true_iff _]%andb_true_iff (w' & Hin' & Hid & Hne).
  assert (w' = w) as -> by (apply (NoDup_key_inj Welcome.welcome_id (welcome_mailbox d));
    [apply Hk|done..]). by destruct (Welcome.consumed_at w).
Qed.

Lemma serves_spends d e d' s :
  wf d → serves d e d' → s ∈ spends e → ¬ is_spent s d ∧ is_spent s d'.
Proof.
  intros Hwf. destruct e as [[seed now i sig|seed now v t sig|now v|now v limit|now o|now a] r|r fl];
    cbn [serves spends]; [| | | | |by intros _ ?%not_elem_of_nil..].
  - intros (fl & H). destruct (complete_challenge _ _ _ _ _) as [[t|err] w] eqn:E;
      injection H as -> ->; [|by intros ?%not_elem_of_nil].
    intros ->%list_elem_of_singleton. by apply (complete_spends seed now i sig d fl t).
  - intros (fl & H). destruct (rotate_refresh _ _ _ _ _ _) as [[ts|err] w] eqn:E;
      injection H as -> ->; [|by intros ?%not_elem_of_nil].
    intros ->%list_elem_of_singleton. by apply (rotate_spends seed now v t sig d fl ts).
  - intros [[_ [->| ->]]|(k & Hin & Hav & -> & ->)]; [by intros ?%not_elem_of_nil..|].
    intros ->%list_elem_of_singleton. split; [by apply (available_unspent v)|].
    exists (KeyPackage.set_consumed now k). split_and!; [|done..].
    apply elem_of_update. exists k. by rewrite (proj2 (package_keyed _ _) eq_refl).
  - intros [[_ ->]|(l & _ & _ & Hl & -> & ->)]; [by intros ?%not_elem_of_nil|].
    rewrite <- list_fmap_compose. intros (w & -> & Hw)%list_elem_of_fmap. cbn [handed_out compose fst].
    rewrite Forall_forall in Hl. destruct (Hl w Hw) as [Hin Hp].
    split; [by apply (pending_unspent v now)|by apply consume_welcomes_marks].
  - intros (fl & H). destruct (apply_membership_operation _ _ _) as [[[|]|err] w] eqn:E;
      injection H as -> ->; [by intros ?%not_elem_of_nil| |by intros ?%not_elem_of_nil].
    intros ->%list_elem_of_singleton. by apply (membership_spends now o d fl).
Qed.

Lemma serves_spends_distinct d e d' : serves d e d' → NoDup (spends e).
Proof.
  destruct e as [[seed now i sig|seed now v t sig|now v|now v limit|now o|now a] r|r fl];
    cbn [serves spends]; try (intros _; repeat case_match; first [apply NoDup_nil_2|apply NoDup_singleton]).
  intros [[_ ->]|(l & Hn & _ & _ & -> & _)]; [apply NoDup_nil_2|].
  rewrite <- list_fmap_compose.
  change ((λ w, SpentWelcome w.1.1) ∘ handed_out) with (SpentWelcome ∘ Welcome.welcome_id).
  rewrite list_fmap_compose. apply NoDup_fmap_2; [by intros ? ? [= ->]|done].
Qed.

Lemma serial_keeps_spent s d h d' : serial d h d' → is_spent s d → is_spent s d'.
Proof. induction 1; [done|]. intros Hs. by eapply serves_keeps_spent; [|auto]. Qed.

Lemma serial_spends d h d' :
  wf d → serial d h d' →
  wf d' ∧ NoDup (h ≫= spends) ∧ ∀ s, s ∈ h ≫= spends → ¬ is_spent s d ∧ is_spent s d'.
Proof.
  intros Hwf. induction 1 as [|h d1 e d2 Hser (Hwf1 & Hn & Hs) He].
  { split_and!; [done|apply NoDup_nil_2|]. by intros s ?%not_elem_of_nil. }
  rewrite bind_app, bind_singleton. split_and!.
  - by eapply serves_wf.
  - apply NoDup_app. split_and!; [done| |by eapply serves_spends_distinct].
    intros s Hin Hin'. destruct (serves_spends _ _ _ _ Hwf1 He Hin') as [Hno _].
    by apply Hno, Hs.
  - intros s [Hin|Hin]%elem_of_app.
    + destruct (Hs s Hin). split; [done|]. by eapply serves_keeps_spent.
    + destruct (serves_spends _ _ _ _ Hwf1 He Hin) as [Hno Hyes]. split; [|done].
      intros Hd. by apply Hno, (serial_keeps_spent _ _ _ _ Hser).
Qed.

(** C4: However requests overlap, every challenge opens at most one session,
    every refresh token rotates at most once, every key package and every
    welcome is handed out at most once, every membership operation is applied at
    most once, and only if it was not spent before; what
    was answered as spent is spent in the database. *)
Theorem overlapping_requests_spend_once d0 s :
  wf d0 → interleavings (State d0 ∅ []) s →
  NoDup (history s ≫= spends)
  ∧ ∀ t, t ∈ history s ≫= spends → ¬ is_spent t d0 ∧ is_spent t (database s).
Proof.
  intros Hwf Hs. destruct (interleavings_coherent d0 s Hwf Hs) as (Hser & _).
  by apply serial_spends in Hser as (_ & ? & ?).
Qed.
(** ** Administrators that remove each other *)

Lemma members_changed_removed now o d after :
  members_changed now o d after → MembershipOperation.remove o = true →
  exists_where (active_member (MembershipOperation.group_id o) (MembershipOperation.target_device_id o))
    after = false.
Proof. intros H Hr. apply members_changed_target in H. by rewrite Hr in H. Qed.

Lemma serial_last d h e d' : serial d (h ++ [e]) d' → ∃ d1, serial d h d1 ∧ serves d1 e d'.
Proof.
  inversion 1 as [E|h1 d1 e1 d2 H1 He E]; [by destruct h|].
  apply app_inj_tail in E as [-> ->]. eauto.
Qed.
Lemma serial_last_two d h e1 e2 d' :
  serial d (h ++ [e1; e2]) d' → ∃ d1 d2, serial d h d1 ∧ serves d1 e1 d2 ∧ serves d2 e2 d'.
Proof.
  replace (h ++ [e1; e2]) with ((h ++ [e1]) ++ [e2]) by (by rewrite <- app_assoc).
  intros (d2 & H & H2)%serial_last. apply serial_last in H as (d1 & H & H1). eauto.
Qed.

(** C40: administrators cannot remove each other: when an operation that removes a
    device was applied, and the request that is answered next is an operation
    that this device signed as an administrator of the same group, it fails,
    even if both were in progress at the same time. *)
Theorem removed_admin_is_refused d0 s h now1 o1 now2 o2 r :
  wf d0 → interleavings (State d0 ∅ []) s →
  history s = h ++ [Answered (Membership now1 o1) (Ok (Applied false)); Answered (Membership now2 o2) r] →
  MembershipOperation.remove o1 = true → MembershipOperation.group_id o2 = MembershipOperation.group_id o1 →
  MembershipOperation.author_device_id o2 = MembershipOperation.target_device_id o1 →
  ∀ answer, r ≠ Ok answer.
Proof.
  intros Hwf Hs Hh Hrm Hg Ha answer ->.
  destruct (interleavings_coherent d0 s Hwf Hs) as (Hser & _). rewrite Hh in Hser.
  apply serial_last_two in Hser as (d1 & d2 & _ & (fl1 & H1) & (fl2 & H2)).
  destruct (apply_membership_operation now1 o1 _) as [[b1|] w1] eqn:E1; [|done]. injection H1 as <- ->.
  destruct (apply_membership_operation now2 o2 _) as [[b2|] w2] eqn:E2; [|done].
  apply membership_Ok in E1 as (_ & _ & E1); [|done]. apply membership_Ok in E2 as (_ & _ & E2); [|done].
  cbn [current quiet] in E1, E2. apply membership_run_Ok in E2 as (p & Hkey & _).
  apply select_admin_key_Some in Hkey as (m & x & Hm & Hact & _). rewrite Hg, Ha in Hact.
  apply membership_run_Ok in E1 as (p1 & _ & _ & E1). destruct (stored_operation o1 d1) as [m1|].
  { destruct E1 as [_ E1]. by destruct (same_operation o1 m1). }
  destruct E1 as (_ & _ & after & Hc & Hafter). apply members_changed_removed in Hc; [|done].
  rewrite <- Hafter, exists_where_false in Hc. specialize (Hc m Hm). congruence.
Qed.
End Machine.

(** ** Witnesses *)

Section Witnesses.
Import Demo.

Definition fetches : gmap nat phase :=
  <[1%nat := Begun (FetchPackage 11 other_device)]> (<[0%nat := Begun (FetchPackage 10 other_device)]> ∅).
Definition read_by (q : request) (d : Db.t) : reading :=
  match selects q (λ _, true) d with Ok x => x | Err _ => ReadPackage None end.
Definition first_read : reading := read_by (FetchPackage 10 other_device) (current backend).
Definition first_end : result ApiError.t answer * Db.t :=
  finish (FetchPackage 10 other_device) first_read [] (current backend).
Definition second_end : result ApiError.t answer * Db.t :=
  finish (FetchPackage 11 other_device) (ReadPackage None) [] (current backend).

Lemma first_found : found first_read = true.
Proof. vm_compute. reflexivity. Qed.
Lemma first_selects : selects (FetchPackage 10 other_device) (λ _, true) (current backend) = Ok first_read.
Proof. reflexivity. Qed.
Lemma second_selects :
  selects (FetchPackage 11 other_device) (λ _, false) (current backend) = Ok (ReadPackage None).
Proof. vm_compute. reflexivity. Qed.
Lemma second_end_eq : second_end = (Ok (Handed None), current backend).
Proof. vm_compute. reflexivity. Qed.
Lemma first_end_answer : first_end.1 = Ok (Handed (Some (fill 16 4, [z2b 1]))).
Proof. vm_compute. reflexivity. Qed.

(** Two devices fetch the only key package at the same time. *)
Definition both_begun : state := State (current backend) fetches [].
Definition one_holds : state :=
  State (current backend) (<[0%nat := Holding (FetchPackage 10 other_device) first_read]> fetches) [].
Definition other_missed : state :=
  State (current backend) (delete 1%nat (active one_holds))
    [Answered (FetchPackage 11 other_device) (Ok (Handed None))].
Definition after_fetches : state :=
  State first_end.2 (delete 0%nat (active other_missed))
    (history other_missed ++ [Answered (FetchPackage 10 other_device) first_end.1]).

Lemma nobody_holds d q1 q2 h i r :
  free (State d (<[1%nat := Begun q2]> (<[0%nat := Begun q1]> ∅)) h) i r.
Proof.
  intros j _ (q & x & Hj & _). cbn [active] in Hj.
  apply lookup_insert_Some in Hj as [[_ [=]]|[_ Hj]].
  apply lookup_insert_Some in Hj as [[_ [=]]|[_ Hj]]. by rewrite lookup_empty in Hj.
Qed.
Lemma nobody_else_holds d' : respects other_missed (Some 0%nat) d'.
Proof.
  intros j r Hj (q & x & Hx & _). cbn [active other_missed one_holds] in Hx.
  apply lookup_delete_Some in Hx as [Hj1 Hx]. unfold fetches in Hx.
  apply lookup_insert_Some in Hx as [[<- _]|[_ Hx]]; [done|].
  apply lookup_insert_Some in Hx as [[<- _]|[_ Hx]]; [done|].
  apply lookup_insert_Some in Hx as [[<- _]|[_ Hx]]; [done|]. by rewrite lookup_empty in Hx.
Qed.

Lemma overlapping_fetches : interleavings (State (current backend) ∅ []) after_fetches.
Proof.
  eapply rtc_l; [apply (begin_step 0 (FetchPackage 10 other_device)); done|].
  eapply rtc_l; [apply (begin_step 1 (FetchPackage 11 other_device)); done|].
  apply (rtc_l _ both_begun one_holds).
  { apply (lock_step 0 (FetchPackage 10 other_device) (λ _, true) first_read);
      [reflexivity|intros; apply nobody_holds|exact first_selects|exact first_found|
       intros; apply nobody_holds]. }
  apply (rtc_l _ one_holds other_missed).
  { eapply (miss_step 1 (FetchPackage 11 other_device) (λ _, false) (ReadPackage None) [] _ _ one_holds);
      [reflexivity|done|exact second_selects|reflexivity|exact second_end_eq]. }
  apply rtc_once, (finish_step 0 (FetchPackage 10 other_device) first_read [] first_end.1 first_end.2
    other_missed); [reflexivity|unfold first_end; by destruct (finish _ _ _ _)|apply nobody_else_holds].
Qed.

Lemma locking_requests_refine_service_witness :
  history after_fetches
  = [Answered (FetchPackage 11 other_device) (Ok (Handed None));
     Answered (FetchPackage 10 other_device) (Ok (Handed (Some (fill 16 4, [z2b 1]))))]
  ∧ serial (current backend) (history after_fetches) (database after_fetches).
Proof.
  split.
  - cbn [history after_fetches other_missed app]. by rewrite first_end_answer.
  - exact (proj1 (locking_requests_refine_service (current backend) after_fetches
      (proj2 backend_sound) overlapping_fetches)).
Defined.

Lemma overlapping_requests_spend_once_witness :
  is_spent (SpentPackage (fill 16 4)) (database after_fetches).
Proof.
  refine (proj2 (proj2 (overlapping_requests_spend_once (current backend) after_fetches
    (proj2 backend_sound) overlapping_fetches) (SpentPackage (fill 16 4)) _)).
  cbn [history after_fetches other_missed app]. rewrite first_end_answer. left.
Defined.

(** Two administrators remove each other. *)
Definition two_admins : Db.t :=
  set_group_members [GroupMember.Make group admin_device alice 2 None;
                     GroupMember.Make group other_device alice 2 None] db.
Lemma two_admins_wf : wf two_admins.
Proof.
  destruct db_wf as (Hk & Hr & Hg). split_and!.
  - destruct Hk. constructor; solve [assumption|solve_unique].
  - constructor; unfold two_admins; open_rows x Hx; reflexivity.
  - by destruct Hg; constructor.
Qed.
Definition removes (key : Z) (author target : Id) : MembershipOperation.t :=
  let o := MembershipOperation.Make (fill 16 key) group author target 0 true in
  o (sk_sign (fill 32 key) (operation_payload (o (fill 64 0)))).
Definition first_removal : request := Membership 10 (removes 5 admin_device other_device).
Definition second_removal : request := Membership 11 (removes 6 other_device admin_device).
Definition removals : gmap nat phase :=
  <[1%nat := Begun second_removal]> (<[0%nat := Begun first_removal]> ∅).
Definition admin_read : reading := read_by first_removal two_admins.
Definition removal_end : result ApiError.t answer * Db.t := finish first_removal admin_read [] two_admins.
Definition refusal_end : result ApiError.t answer * Db.t :=
  finish second_removal (ReadAdmin None) [] removal_end.2.
Lemma admin_found : found admin_read = true.
Proof. vm_compute. reflexivity. Qed.
Lemma admin_selects : selects first_removal (λ _, true) two_admins = Ok admin_read.
Proof. reflexivity. Qed.
Lemma removal_answer : removal_end.1 = Ok (Applied false).
Proof. vm_compute. reflexivity. Qed.
Lemma removed_selects : selects second_removal (λ _, false) removal_end.2 = Ok (ReadAdmin None).
Proof. vm_compute. reflexivity. Qed.
Lemma refusal_answer : refusal_end.1 = Err ApiError.Unauthorized.
Proof. vm_compute. reflexivity. Qed.
Lemma removal_end_eq : finish first_removal admin_read [] two_admins = (removal_end.1, removal_end.2).
Proof. apply surjective_pairing. Qed.
Lemma refusal_end_eq :
  finish second_removal (ReadAdmin None) [] removal_end.2 = (refusal_end.1, refusal_end.2).
Proof. apply surjective_pairing. Qed.
#[local] Opaque removal_end refusal_end admin_read.

Definition first_holds : state :=
  State two_admins (<[0%nat := Holding first_removal admin_read]> removals) [].
Definition removed_state : state :=
  State removal_end.2 (delete 0%nat (active first_holds)) [Answered first_removal removal_end.1].
Definition refused_state : state :=
  State refusal_end.2 (delete 1%nat (active removed_state))
    (history removed_state ++ [Answered second_removal refusal_end.1]).

Lemma overlapping_removals : interleavings (State two_admins ∅ []) refused_state.
Proof.
  eapply rtc_l; [apply (begin_step 0 first_removal); [done|vm_compute; reflexivity]|].
  eapply rtc_l; [apply (begin_step 1 second_removal); [done|vm_compute; reflexivity]|].
  apply (rtc_l _ (State two_admins removals []) first_holds).
  { apply (lock_step 0 first_removal (λ _, true) admin_read);
      [reflexivity|intros; apply nobody_holds|exact admin_selects|exact admin_found|
       intros; apply nobody_holds]. }
  apply (rtc_l _ first_holds removed_state).
  { apply (finish_step 0 first_removal admin_read [] removal_end.1 removal_end.2 first_holds);
      [reflexivity|exact removal_end_eq|].
    intros j r Hj (q & x & Hx & _). cbn [active first_holds] in Hx.
    apply lookup_insert_Some in Hx as [[<- _]|[_ Hx]]; [done|]. unfold removals in Hx.
    apply lookup_insert_Some in Hx as [[_ [=]]|[_ Hx]].
    apply lookup_insert_Some in Hx as [[_ [=]]|[_ Hx]]. by rewrite lookup_empty in Hx. }
  apply rtc_once, (miss_step 1 second_removal (λ _, false) (ReadAdmin None) [] refusal_end.1 refusal_end.2
    removed_state); [reflexivity|done|exact removed_selects|reflexivity|exact refusal_end_eq].
Qed.

Lemma removed_admin_is_refused_witness :
  history refused_state
  = [Answered first_removal (Ok (Applied false)); Answered second_removal (Err ApiError.Unauthorized)]
  ∧ ∀ answer, (Err ApiError.Unauthorized : result ApiError.t Locking.answer) ≠ Ok answer.
Proof.
  assert (Hh : history refused_state = [Answered first_removal (Ok (Applied false));
    Answered second_removal (Err ApiError.Unauthorized)])
    by (cbn [history refused_state removed_state app]; by rewrite removal_answer, refusal_answer).
  split; [exact Hh|].
  exact (removed_admin_is_refused two_admins refused_state [] 10 (removes 5 admin_device other_device) 11
    (removes 6 other_device admin_device) (Err ApiError.Unauthorized) two_admins_wf overlapping_removals Hh
    eq_refl eq_refl eq_refl).
Defined.
End Witnesses.
