(* ===== verification/Overlaps.v ===== *)
(** * Overlaps: requests of core-api that no row lock orders

    Concurrent shows that the transactions of services/core-api/src/lib.rs that
    lock the rows they depend on refine a service of whole requests.  Two transactions
    depend on rows they do not lock, because the rows are not there when they
    look: the first [advance_group_cursor] of a device in a group, and
    [change_username] to a name that nobody has.  This file splits both at the
    statement that looks and shows what an overlap does. *)
From Stdlib Require Import ZArith Lia.
From stdpp Require Import base list strings.
From S2P Require Import Prelude Protocol Crypto Sql Identity CoreDb CoreApi CoreSessions.
From S2P Require Import CoreDelivery.
Import Db.

(** ** First acknowledgements

    [advance_group_cursor] reads the stored cursor FOR UPDATE.  Before the first
    acknowledgement there is no row to lock: two requests can both read that
    there is none.  The second INSERT waits for the commit of the first and
    then takes ON CONFLICT DO UPDATE. *)

Definition advance_reads (device_id group_id : Id) (cursor : Z) : stmt unit :=
  _ ← assert_active_member group_id device_id;
  current ← ask (select_group_cursor device_id group_id);
  _ ← dlift (ensure (match current with Some value => negb (cursor <? value) | None => true end)
        ApiError.CursorRegression);
  available ← ask (select_max_cursor group_id);
  dlift (ensure (negb (available <? cursor)) ApiError.InvalidInput).
Definition advance_write (device_id group_id : Id) (cursor : Z) : stmt (outcome unit) :=
  _ ← exec (upsert_group_cursor (GroupCursor.Make device_id group_id cursor));
  mret (Commit (Ok tt)).

Lemma advance_split x g c d :
  run (advance_body x g c) d = run (_ ← advance_reads x g c; advance_write x g c) d.
Proof.
  unfold advance_body, advance_reads, advance_write.
  rewrite !(run_bind ApiError.Database) by solve_faithful. destruct (run (assert_active_member g x) d) as [[u|e] d1]; [|done].
  rewrite !(run_bind ApiError.Database), !run_query by solve_faithful.
  destruct (select_group_cursor x g d1) as [o|e]; [|done].
  rewrite !(run_bind ApiError.Database), !run_lift by solve_faithful. destruct (ensure _ _) as [v|e]; [|done].
  rewrite (run_bind ApiError.Database), run_query by solve_faithful.
  rewrite (run_bind ApiError.Database _ _ d1), run_query by solve_faithful.
  destruct (select_max_cursor g d1) as [z|e]; [|done].
  by rewrite (run_bind ApiError.Database), run_lift by solve_faithful.
Qed.

Section Acknowledgements.
Context `{C : Crypto} `{U : Unicode}.

Lemma advance_reads_run x g c d :
  exists_where (active_member g x) (group_members d) = true → stored_cursor x g d = None →
  c ≤ last_cursor g d → run (advance_reads x g c) d = (Ok tt, d).
Proof.
  intros Hm Hs Hc. unfold advance_reads.
  rewrite (run_bind ApiError.Database), assert_member_run, Hm by apply _. cbn [ensure].
  run_next. unfold select_group_cursor. run_next. fold (stored_cursor x g d). rewrite Hs. cbn [ensure].
  run_next. unfold select_max_cursor. fold (in_group g). fold (last_cursor g d). rewrite run_lift.
  by destruct (Z.ltb_spec (last_cursor g d) c); [lia|].
Qed.

Lemma advance_write_run x g c d :
  has_device x d = true → has_group g d = true → 0 ≤ c →
  run (advance_write x g c) d = (Ok (Commit (Ok tt)), cursor_stored x g c d).
Proof.
  intros Hx Hg Hc. unfold advance_write. run_next. unfold upsert_group_cursor.
  cbn [GroupCursor.device_id GroupCursor.group_id GroupCursor.cursor]. rewrite Hx, Hg.
  by destruct (Z.leb_spec 0 c); [|lia].
Qed.

(** When the first two acknowledgements of a device in a group overlap, both
    are accepted and the cursor can go back: the lower one, which would be
    refused as a regression if it came after the higher one, overwrites it. *)
Theorem first_acknowledgements_regress x g low high d :
  wf d → exists_where (active_member g x) (group_members d) = true →
  stored_cursor x g d = None → 0 ≤ low < high → high ≤ last_cursor g d →
  let d1 := cursor_stored x g high d in
  run (advance_reads x g high) d = (Ok tt, d) ∧ run (advance_reads x g low) d = (Ok tt, d)
  ∧ run (advance_write x g high) d = (Ok (Commit (Ok tt)), d1)
  ∧ (advance_group_cursor x g low (quiet d1 [])).1 = Err ApiError.CursorRegression
  ∧ ∃ d2, run (advance_write x g low) d1 = (Ok (Commit (Ok tt)), d2)
      ∧ stored_cursor x g d1 = Some high ∧ stored_cursor x g d2 = Some low.
Proof.
  intros Hwf Hm Hs Hlow Hhigh d1. destruct (member_exists _ _ _ Hwf Hm) as [Hx Hg].
  assert (Hseq : advance_group_cursor x g high (quiet d []) = (Ok tt, quiet d1 [])).
  { rewrite advance_cursor_run, Hm by done. unfold regresses. rewrite Hs. cbn [negb].
    destruct (Z.ltb_spec (last_cursor g d) high), (Z.ltb_spec high 0); lia || done. }
  split_and!.
  - by apply advance_reads_run.
  - apply advance_reads_run; [done..|lia].
  - apply advance_write_run; [done..|lia].
  - pose proof (request_sound (Request.AdvanceCursor x g high) (quiet d [])
      (conj (conj eq_refl eq_refl) Hwf)) as [_ Hwf1]. cbn [perform] in Hwf1. rewrite Hseq in Hwf1.
    rewrite advance_cursor_run by exact Hwf1. unfold regresses.
    change (group_members d1) with (group_members d). rewrite Hm. unfold d1. rewrite stored_cursor_stored.
    cbn [negb]. by destruct (Z.ltb_spec low high); [|lia].
  - exists (cursor_stored x g low d1). split_and!; [|apply stored_cursor_stored..].
    apply advance_write_run; [done..|lia].
Qed.
End Acknowledgements.

(** ** Changes of username

    [change_username] locks the name that the account has and then looks whether
    the requested name is available.  Until its DELETE and INSERT another account
    can claim that name and give it up again: the DELETE then removes the released
    row without looking at its cooldown. *)

Section Names.
Context `{C : Crypto} `{U : Unicode}.

Definition change_checks (now : Z) (account_id : array 32) (next : text)
    : stmt (option (option text)) :=
  current ← ask (select_username account_id);
  if bool_decide (current = Some next) then mret None
  else
    available ← ask (λ d, Ok (name_available next now d));
    _ ← dlift (ensure available ApiError.Conflict);
    mret (Some current).
Definition change_writes (now : Z) (account_id : array 32) (next : text) (current : option text)
    : stmt (outcome text) :=
  _ ← exec (delete_released next);
  _ ← match current with Some old => retire_name now account_id old | None => mret tt end;
  _ ← exec (insert_username next account_id);
  mret (Commit (Ok next)).

Lemma change_split now a n d :
  run (change_body now a n) d
  = run (checked ← change_checks now a n;
         match checked with
         | None => mret (Drop (Ok n))
         | Some current => change_writes now a n current
         end) d.
Proof.
  rewrite (run_bind ApiError.Database (change_checks now a n)) by (unfold change_checks; solve_faithful).
  unfold change_body, change_checks. rewrite !(run_bind ApiError.Database), run_query by solve_faithful.
  destruct (select_username a d) as [current|e]; [|done]. destruct (bool_decide _); [done|].
  rewrite !(run_bind ApiError.Database), !run_query by solve_faithful.
  rewrite ?(run_bind ApiError.Database), !run_lift by solve_faithful.
  by destruct (ensure _ _).
Qed.

Lemma change_checks_run now a n current d :
  select_username a d = Ok current → current ≠ Some n → name_available n now d = true →
  run (change_checks now a n) d = (Ok (Some current), d).
Proof.
  intros Hc Hn Ha. unfold change_checks. run_next. rewrite Hc, bool_decide_eq_false_2 by done.
  run_next. by rewrite Ha.
Qed.

(** Rows that a test does not match may be deleted and changed. *)
Lemma find_where_delete {R} (p q : R → bool) t :
  (∀ r, q r = true → p r = false) → find_where p (delete_where q t) = find_where p t.
Proof.
  intros Hq. induction t as [|r t IH]; [done|]. unfold delete_where in *. cbn [List.filter].
  rewrite find_where_cons. destruct (q r) eqn:E; cbn [negb]; [by rewrite (Hq r E)|].
  by rewrite find_where_cons, IH.
Qed.
Lemma find_where_update {R} (p q : R → bool) f t :
  (∀ r, r ∈ t → q r = true → p r = false ∧ p (f r) = false) →
  find_where p (update_where q f t) = find_where p t.
Proof.
  induction t as [|r t IH]; intros Hq; [done|]. unfold update_where in *. cbn [fmap list_fmap].
  rewrite !find_where_cons, IH by (intros x Hx; apply Hq; by right).
  destruct (q r) eqn:E; [|done]. by destruct (Hq r ltac:(left) E) as [-> ->].
Qed.

Lemma retire_name_run now a n d :
  has_account a d = true →
  ∃ d', run (retire_name now a n) d = (Ok tt, d')
  ∧ usernames d' = update_where (username_is n) (Username.set_released now) (usernames d)
  ∧ accounts d' = accounts d
  ∧ ∀ n' t, n' ≠ n → cooling n' t d' = cooling n' t d.
Proof.
  intros Ha. unfold retire_name. run_next. cbn [release_name]. run_next.
  unfold upsert_cooldown. cbn [Cooldown.previous_account_id].
  change (has_account a _) with (has_account a d). rewrite Ha. eexists. split_and!; [reflexivity..|].
  intros n' t Hn. unfold cooling. cbn [username_cooldowns set_username_cooldowns set_usernames].
  set (c := Cooldown.Make _ _ _). change (Cooldown.canonical_username c) with n.
  assert (Hc : ∀ x, cooldown_is n x = true → cooldown_is n' x = false).
  { intros x Hx%cooldown_keyed. apply not_true_iff_false. intros Hx'%cooldown_keyed. congruence. }
  apply eq_true_iff_eq. rewrite !exists_where_true.
  assert (Hcn : cooldown_is n' c = false) by (by apply Hc, cooldown_keyed).
  destruct (exists_where (cooldown_is n) (username_cooldowns d)).
  - split; intros (x & Hx & Hp).
    + apply elem_of_update in Hx as (y & Hy & ->). exists y. split; [done|].
      destruct (cooldown_is n y); [by rewrite Hcn in Hp|done].
    + exists x. split; [|done]. apply elem_of_update. exists x. split; [done|].
      apply andb_true_iff in Hp as [Hp _]. destruct (cooldown_is n x) eqn:E; [|done].
      by rewrite (Hc x E) in Hp.
  - setoid_rewrite elem_of_app. split; intros (x & Hx & Hp); [|by eauto].
    destruct Hx as [Hx| ->%list_elem_of_singleton]; [by eauto|by rewrite Hcn in Hp].
Qed.

(** Another account claims a name and releases it: [a] keeps its own name. *)
Lemma claim_keeps_name now a b r n d d1 :
  a ≠ b → requested_name r = Ok n → claim_username now b r (quiet d []) = (Ok n, quiet d1 []) →
  select_username a d1 = select_username a d ∧ accounts d1 = accounts d
  ∧ Username.Make n b None ∈ usernames d1.
Proof.
  intros Hab Hr H. unfold claim_username in H. rewrite Hr, pg_transaction_run in H by apply _.
  rewrite claim_run in H by (by eapply requested_name_length). set (d' := if cooling n now d then d else _) in H.
  destruct (username_conflict n b d'); [done|]. destruct (has_account b d); [|done].
  injection H as <-. split_and!; [|by unfold d'; destruct (cooling n now d)|apply elem_of_app; right; left].
  unfold select_username. cbn [usernames set_usernames]. rewrite find_where_snoc. f_equal. f_equal.
  replace (active_of a (Username.Make n b None)) with false.
  2: { symmetry. apply andb_false_iff. left. apply bool_decide_eq_false. cbn. congruence. }
  transitivity (find_where (active_of a) (usernames d')); [by destruct (find_where _ _)|].
  unfold d'. destruct (cooling n now d); [done|]. apply find_where_delete.
  intros x [_ Hx]%andb_true_iff. apply andb_false_iff. right. by destruct (Username.released_at x).
Qed.

Lemma release_keeps_name now a b n d1 d2 :
  wf d1 → a ≠ b → Username.Make n b None ∈ usernames d1 →
  release_username now b (quiet d1 []) = (Ok tt, quiet d2 []) →
  select_username a d2 = select_username a d1 ∧ accounts d2 = accounts d1
  ∧ retired n (now + seconds NAME_COOLDOWN_SECONDS) d2.
Proof.
  intros (Hk & _) Hab Hb H. apply transaction_committed in H as (_ & H); [|apply _|done|]; last first.
  { intros d' x (? & ? & _ & _ & _ & _ & _ & _ & [=])%release_run_Ok. }
  cbn [current quiet] in H.
  pose proof (release_retires _ _ _ _ _ H) as (_ & n' & Hsel & Hret).
  unfold select_username in Hsel.
  rewrite (find_active b _ _ Hk Hb) in Hsel by (unfold active_of; cbn; by rewrite bool_decide_eq_true_2).
  injection Hsel as <-. apply release_run_Ok in H as (n' & u & Hsel & _ & _ & Hus & _ & Hacc & _).
  unfold select_username in Hsel.
  rewrite (find_active b _ _ Hk Hb) in Hsel by (unfold active_of; cbn; by rewrite bool_decide_eq_true_2).
  injection Hsel as <-. split_and!; [|done..]. unfold select_username. rewrite Hus. do 2 f_equal.
  apply find_where_update. intros x Hx Hxn%username_keyed.
  assert (x = Username.Make n b None) as -> by (apply (NoDup_key_inj Username.canonical_username (usernames d1));
    [apply Hk|done|done|done]).
  split; apply andb_false_iff; [left|by right]. apply bool_decide_eq_false. cbn. congruence.
Qed.

Lemma change_writes_run now a n until current d r :
  wf d → retired n until d → select_username a d = Ok current → current ≠ Some n →
  requested_name r = Ok n → has_account a d = true →
  ∃ d', run (change_writes now a n current) d = (Ok (Commit (Ok n)), d')
  ∧ (∀ t, cooling n t d' = (t <? until)) ∧ (exact_username_lookup r (quiet d' [])).1 = Ok (Some a).
Proof.
  intros (Hk & _) (_ & Hrel & Hcool) Hcur Hne Hr Ha. unfold change_writes. run_next. cbn [delete_released].
  set (d1 := set_usernames (delete_where (released_name n) (usernames d)) d).
  assert (Hgone : ∀ x, x ∈ usernames d1 → username_is n x = false).
  { intros x [Hx Hnr]%elem_of_delete. destruct (username_is n x) eqn:Ex; [|done].
    unfold released_name in Hnr. by rewrite Ex, (Hrel x Hx Ex) in Hnr. }
  assert (Hstep : ∃ d2, run (match current with Some old => retire_name now a old | None => mret tt end) d1
    = (Ok tt, d2) ∧ accounts d2 = accounts d1 ∧ (∀ t, cooling n t d2 = cooling n t d1)
    ∧ (∀ x, x ∈ usernames d2 → username_is n x = false ∧ active_of a x = false)).
  { destruct current as [old|].
    - destruct (retire_name_run now a old d1 Ha) as (d2 & -> & Hus & Hacc & Hcd). exists d2.
      split_and!; [done..|intros t; apply Hcd; congruence|]. rewrite Hus.
      intros x (y & Hy & ->)%elem_of_update. specialize (Hgone y Hy).
      split; [by destruct (username_is old y)|].
      destruct (username_is old y) eqn:Ey; [apply andb_false_r|].
      apply not_true_iff_false. intros Hya. apply elem_of_delete in Hy as [Hy _].
      unfold select_username in Hcur. rewrite (find_active a y d Hk Hy Hya) in Hcur. injection Hcur as <-.
      apply not_true_iff_false in Ey. by apply Ey, username_keyed.
    - exists d1. split_and!; [done..|]. intros x Hx. split; [by apply Hgone|].
      injection Hcur as Hcur. apply fmap_None, find_where_None in Hcur. rewrite exists_where_false in Hcur.
      apply elem_of_delete in Hx as [Hx _]. by apply Hcur. }
  destruct Hstep as (d2 & Hrun & Hacc & Hcd & Hno).
  rewrite (run_bind ApiError.Database), Hrun by solve_faithful. run_next.
  unfold insert_username, username_conflict. rewrite (requested_name_length _ _ Hr).
  rewrite (proj2 (exists_where_false _ _) (λ x Hx, proj1 (Hno x Hx))).
  rewrite (proj2 (exists_where_false _ _) (λ x Hx, proj2 (Hno x Hx))).
  unfold has_account. rewrite Hacc. fold (has_account a d1). change (has_account a d1) with (has_account a d).
  rewrite Ha. eexists. split; [reflexivity|]. split.
  - intros t. change (cooling n t _) with (cooling n t d2). rewrite Hcd. apply Hcool.
  - rewrite (lookup_run _ n) by (by apply requested_name_canonical). cbn [usernames set_usernames].
    rewrite find_where_snoc. replace (find_where _ (usernames d2)) with (@None Username.t).
    + by rewrite (proj2 (username_keyed n (Username.Make n a None)) eq_refl).
    + symmetry. apply find_where_None, exists_where_false. intros x Hx. by destruct (Hno x Hx) as [-> _].
Qed.

(** C28: A change of username that overlaps a claim and a release of the requested
    name takes the name during its cooldown: the change looks while nobody has
    the name, another account claims the name and gives it up, and the writes of
    the change then delete the released row and take the name, although the same
    change, begun after the release, is refused. *)
Theorem change_takes_cooling_name now a b r n current d d1 d2 :
  wf d → a ≠ b → requested_name r = Ok n → select_username a d = Ok current → current ≠ Some n →
  has_account a d = true → name_available n now d = true →
  claim_username now b r (quiet d []) = (Ok n, quiet d1 []) →
  release_username now b (quiet d1 []) = (Ok tt, quiet d2 []) →
  run (change_checks now a n) d = (Ok (Some current), d)
  ∧ select_username a d2 = select_username a d
  ∧ (change_username now a r (quiet d2 [])).1 = Err ApiError.Conflict
  ∧ ∃ d3, run (change_writes now a n current) d2 = (Ok (Commit (Ok n)), d3)
      ∧ (∀ t, cooling n t d3 = (t <? now + seconds NAME_COOLDOWN_SECONDS))
      ∧ (exact_username_lookup r (quiet d3 [])).1 = Ok (Some a).
Proof.
  intros Hwf Hab Hr Hcur Hne Ha Hav Hclaim Hrelease.
  pose proof (request_sound (Request.ClaimUsername now b r) (quiet d [])
    (conj (conj eq_refl eq_refl) Hwf)) as Hs1. cbn [perform] in Hs1. rewrite Hclaim in Hs1.
  pose proof (request_sound (Request.ReleaseUsername now b) _ Hs1) as [_ Hwf2].
  cbn [perform snd] in Hwf2. rewrite Hrelease in Hwf2. destruct Hs1 as [_ Hwf1].
  destruct (claim_keeps_name now a b r n d d1 Hab Hr Hclaim) as (Hn1 & Ha1 & Hin).
  destruct (release_keeps_name now a b n d1 d2 Hwf1 Hab Hin Hrelease) as (Hn2 & Ha2 & Hret).
  split_and!.
  - by apply change_checks_run.
  - congruence.
  - apply (change_retired Hret); [done|]. unfold seconds, NAME_COOLDOWN_SECONDS. lia.
  - apply change_writes_run; try done; [by rewrite Hn2, Hn1|].
    unfold has_account. by rewrite Ha2, Ha1.
Qed.
End Names.

(** ** Witnesses *)

Section Witnesses.
Import Demo.

Lemma first_acknowledgements_regress_witness :
  stored_cursor other_device group (cursor_stored other_device group 1 uploaded_db) = Some 1
  ∧ (advance_group_cursor other_device group 0
      (quiet (cursor_stored other_device group 1 uploaded_db) [])).1 = Err ApiError.CursorRegression
  ∧ ∃ d2, run (advance_write other_device group 0) (cursor_stored other_device group 1 uploaded_db)
          = (Ok (Commit (Ok tt)), d2) ∧ stored_cursor other_device group d2 = Some 0.
Proof.
  destruct (first_acknowledgements_regress other_device group 0 1 uploaded_db uploaded_wf uploaded_member)
    as (_ & _ & _ & H & d2 & H1 & H2 & H3).
  - vm_compute. reflexivity.
  - lia.
  - replace (last_cursor group uploaded_db) with 1 by (vm_compute; reflexivity). lia.
  - split; [exact H2|]. split; [exact H|]. exists d2. split; [exact H1|exact H3].
Defined.

Definition bob : array 32 := fill 32 21.
Definition bobby : text := chars "bobby".
(** Bob has an account and no name. *)
Definition two_accounts : Db.t :=
  set_accounts [Account.Make alice (fill 32 2) None None; Account.Make bob (fill 32 22) None None] db.
Lemma two_accounts_wf : wf two_accounts.
Proof.
  destruct db_wf as (Hk & Hr & Hg). split_and!.
  - destruct Hk. constructor; solve [assumption|solve_unique].
  - constructor; unfold two_accounts; open_rows x Hx; reflexivity.
  - by destruct Hg; constructor.
Qed.

Definition claimed_name : result ApiError.t text * Backend :=
  claim_username 100 bob bobby (quiet two_accounts []).
Definition claimed_db : Db.t := current claimed_name.2.
Lemma claimed_eq : claimed_name = (Ok bobby, quiet claimed_db []).
Proof. vm_compute. reflexivity. Qed.
Definition given_up : result ApiError.t unit * Backend := release_username 100 bob (quiet claimed_db []).
Definition given_up_db : Db.t := current given_up.2.
Lemma given_up_eq : given_up = (Ok tt, quiet given_up_db []).
Proof. vm_compute. reflexivity. Qed.

Lemma change_takes_cooling_name_witness :
  (change_username 100 alice bobby (quiet given_up_db [])).1 = Err ApiError.Conflict
  ∧ ∃ d3, run (change_writes 100 alice bobby (Some (chars "alice"))) given_up_db
      = (Ok (Commit (Ok bobby)), d3) ∧ cooling bobby 101 d3 = true.
Proof.
  destruct (change_takes_cooling_name 100 alice bob bobby bobby (Some (chars "alice")) two_accounts
    claimed_db given_up_db two_accounts_wf) as (_ & _ & H & d3 & H3 & Hc & _).
  - apply (bool_decide_unpack _). vm_compute. exact I.
  - vm_compute. reflexivity.
  - vm_compute. reflexivity.
  - apply (bool_decide_unpack _). vm_compute. exact I.
  - vm_compute. reflexivity.
  - vm_compute. reflexivity.
  - exact claimed_eq.
  - exact given_up_eq.
  - split; [exact H|]. exists d3. split; [exact H3|]. rewrite Hc. vm_compute. reflexivity.
Defined.
End Witnesses.
