(* ===== verification/Dispatch.v ===== *)
(** * Dispatch: the binary frame API of core-api

    Models services/core-api/src/main.rs: the [Reader], [dispatch] with one
    handler per frame type, the mapping of errors, and [handle_binary] with its
    rate limit, counters and long poll.  The axum router and the database pool
    are I/O.  The clock of each transaction and the random
    values of a request are in its [Env]. *)
From Stdlib Require Import ZArith Lia.
From stdpp Require Import base list strings pretty relations.
From S2P Require Import Prelude Cursor Protocol Crypto Sql Identity CoreDb CoreApi.
#[export] Existing Instance FrameType.t_eq_dec.

(** ** The reader of frame bodies *)
Module Reader.
Definition t (A : Type) : Type := parser ApiError.t A.

Definition new (input : bytes) : cursor := Cursor input 0.
Definition take : Z → t bytes := ptake ApiError.InvalidInput.
Definition array (n : nat) : t (Prelude.array n) :=
  parray ApiError.InvalidInput ApiError.InvalidInput n.
Definition u8 : t Z := l ← take 1; mret (b2z (nth 0 l Init.Byte.x00)).
Definition i16 : t Z := a ← array 2; mret (as_i16 (from_be (arr a))).
Definition u64 : t Z := pbe ApiError.InvalidInput ApiError.InvalidInput 8.
(** [&self.bytes[self.position..]]; the position is within the slice. *)
Definition rest : t bytes := λ c,
  Ok (drop (Z.to_nat (cpos c)) (cbytes c), Cursor (cbytes c) (Z.of_nat (length (cbytes c)))).
Definition remaining_len : t Z := λ c,
  Ok (Z.max 0 (Z.of_nat (length (cbytes c)) - cpos c), c).
Definition finish : t unit := pfinish ApiError.InvalidInput.
(** [match body.u8()? { 0 => .., 1 => .., _ => return Err(InvalidInput) }] *)
Definition flag : t bool :=
  b ← u8;
  match b with
  | 0 => mret false
  | 1 => mret true
  | _ => plift (Err ApiError.InvalidInput)
  end.
End Reader.

(** ** Handlers

    A handler reads the body and calls the backend in any order: a failed read
    does not undo the calls before it. *)
Definition handler (A : Type) : Type := cursor → Backend → result ApiError.t (A * cursor) * Backend.

#[export] Instance handler_ret : MRet handler := λ A a c w, (Ok (a, c), w).
#[export] Instance handler_bind : MBind handler := λ A B f m c w,
  match m c w with
  | (Ok (a, c), w) => f a c w
  | (Err e, w) => (Err e, w)
  end.
Definition read {A} (p : Reader.t A) : handler A := λ c w, (p c, w).
Definition call {A} (f : api A) : handler A := λ c w,
  match f w with (Ok a, w) => (Ok (a, c), w) | (Err e, w) => (Err e, w) end.
Definition fail {A} (e : ApiError.t) : handler A := λ _ w, (Err e, w).

(** The clocks and random values of one request. *)
Record Env : Type := MakeEnv {
  auth_now : Z;
  op_now : Z;
  new_challenge_id : Id;
  new_challenge : array 32;
  new_tokens : token_seed
}.

(** The type and the body of a response. *)
Abbreviation Reply := (FrameType.t * bytes)%type.
Abbreviation InvalidInput := (ApiError.InvalidInput).

Section Handlers.
Context `{C : Crypto}.
Import Reader.

Definition handle_client_hello : handler Reply :=
  account_id ← read (array 32);
  root_public_key ← read (array 32);
  device_id ← read (array 16);
  device_public_key ← read (array 32);
  issued_at ← read u64;
  signature ← read (array 64);
  _ ← read finish;
  _ ← call (register_account_device account_id root_public_key
        (DeviceCertificate.Make device_id device_public_key issued_at signature));
  mret (FrameType.ServerHello, []).

Definition handle_auth_challenge (env : Env) : handler Reply :=
  device_id ← read (array 16);
  challenge ← call (begin_challenge (op_now env) (new_challenge_id env) (new_challenge env) device_id);
  _ ← read finish;
  mret (FrameType.AuthChallenge,
        arr (Challenge.challenge_id challenge) ++ arr (Challenge.challenge challenge)).

Definition handle_auth_response (env : Env) : handler Reply :=
  n ← read remaining_len;
  tokens ←
    (if n =? 80 then
       challenge_id ← read (array 16);
       signature ← read (array 64);
       call (complete_challenge (new_tokens env) (op_now env) challenge_id signature)
     else if n =? 112 then
       device_id ← read (array 16);
       refresh_token ← read (array 32);
       device_signature ← read (array 64);
       call (rotate_refresh (new_tokens env) (op_now env) device_id refresh_token device_signature)
     else fail InvalidInput);
  _ ← read finish;
  mret (FrameType.AuthAccepted,
        arr (SessionTokens.access_token tokens) ++ arr (SessionTokens.refresh_token tokens)).

(** The operations of [UploadEnvelope]; [message_id] is that of the frame. *)
Definition upload_operation (env : Env) (message_id author_device_id : Id) (operation : Z)
    : handler bytes :=
  match operation with
  | 1 =>
      group_id ← read (array 16);
      event_id ← read (array 16);
      event_kind ← read i16;
      correlated ← read flag;
      correlation_id ← (if (correlated : bool) then i ← read (array 16); mret (Some i) else mret None);
      ciphertext ← read rest;
      accepted ← call (upload_event (op_now env) (UploadedEvent.Make event_id group_id
        author_device_id message_id event_kind ciphertext correlation_id));
      mret (be_bytes 8 (as_u64 (UploadAccepted.cursor accepted))
            ++ [z2b (if UploadAccepted.duplicate accepted then 1 else 0)])
  | 2 =>
      package_id ← read (array 16);
      package ← read rest;
      _ ← call (publish_key_package (op_now env) author_device_id package_id package);
      mret []
  | 3 =>
      group_id ← read (array 16);
      _ ← read finish;
      account_id ← call (device_account_id author_device_id);
      _ ← call (create_group group_id author_device_id account_id);
      mret []
  | 4 =>
      correlation_id ← read (array 16);
      group_id ← read (array 16);
      target_device_id ← read (array 16);
      role ← read u8;
      remove ← read flag;
      signature ← read (array 64);
      _ ← read finish;
      replayed ← call (apply_membership_operation (op_now env) (MembershipOperation.Make
        correlation_id group_id author_device_id target_device_id role remove signature));
      mret [z2b (if (replayed : bool) then 1 else 0)]
  | 5 =>
      target ← read (array 16);
      group ← read (array 16);
      welcome_id ← read (array 16);
      welcome ← read rest;
      _ ← call (upload_welcome (op_now env) author_device_id target group welcome_id welcome);
      mret []
  | 6 =>
      recovery_identifier ← read (array 32);
      blob ← read rest;
      account_id ← call (device_account_id author_device_id);
      _ ← call (store_recovery_package account_id recovery_identifier blob);
      mret []
  | _ => fail InvalidInput
  end.

Definition authenticated (env : Env) : handler Id :=
  token ← read (array 32);
  call (authenticate_access (auth_now env) token).

Definition handle_upload (env : Env) (message_id : Id) : handler Reply :=
  author_device_id ← authenticated env;
  operation ← read u8;
  encoded ← upload_operation env message_id author_device_id operation;
  mret (FrameType.UploadAccepted, z2b operation :: encoded).

Definition sync_event_bytes (event : SyncEvent.t) : bytes :=
  be_bytes 8 (as_u64 (SyncEvent.cursor event)) ++ arr (SyncEvent.event_id event)
  ++ be_bytes 2 (SyncEvent.event_kind event)
  ++ be_bytes 4 (as_u32 (len (SyncEvent.ciphertext event))) ++ SyncEvent.ciphertext event.
Definition welcome_bytes (w : Id * Id * bytes) : bytes :=
  let '(welcome_id, group_id, welcome) := w in
  arr welcome_id ++ arr group_id ++ be_bytes 4 (as_u32 (len welcome)) ++ welcome.
(** [encoded.push(items.len() as u8)] and the items. *)
Definition batch_bytes {A} (item : A → bytes) (l : list A) : bytes :=
  z2b (Z.of_nat (length l)) :: concat (item <$> l).
(** [push(1)] and the value, or [push(0)]. *)
Definition optional_bytes (o : option bytes) : bytes :=
  match o with Some b => z2b 1 :: b | None => [z2b 0] end.

Definition sync_operation (env : Env) (device_id : Id) (operation : Z) : handler bytes :=
  match operation with
  | 0 | 1 =>
      group_id ← (if operation =? 0 then i ← read (array 16); mret (Some i) else mret None);
      after ← read u64;
      limit ← read u8;
      _ ← read finish;
      events ← call (match group_id with
        | Some g => sync_group (op_now env) device_id g (as_i64 after) limit
        | None => sync_global (op_now env) device_id (as_i64 after) limit
        end);
      mret (batch_bytes sync_event_bytes events)
  | 2 =>
      target ← read (array 16);
      _ ← read finish;
      package ← call (fetch_key_package (op_now env) target);
      mret (optional_bytes ((λ p, arr (fst p) ++ snd p) <$> package))
  | 3 =>
      limit ← read u8;
      _ ← read finish;
      welcomes ← call (fetch_welcomes (op_now env) device_id limit);
      mret (batch_bytes welcome_bytes welcomes)
  | _ => fail InvalidInput
  end.

Definition handle_sync (env : Env) : handler Reply :=
  device_id ← authenticated env;
  operation ← read u8;
  encoded ← sync_operation env device_id operation;
  mret (FrameType.SyncBatch, z2b operation :: encoded).

Definition handle_recovery : handler Reply :=
  operation ← read u8;
  _ ← (if operation =? 1 then mret tt else fail InvalidInput);
  recovery_identifier ← read (array 32);
  _ ← read finish;
  blob ← call (fetch_recovery_package recovery_identifier);
  mret (FrameType.RelayDirectoryResponse, z2b operation :: optional_bytes blob).

Definition handle_receipts (env : Env) (kind : FrameType.t) : handler Reply :=
  device_id ← authenticated env;
  count ← read u8;
  _ ← (if 50 <? count then fail InvalidInput else mret tt);
  event_ids ← read (prepeat (array 16) (Z.to_nat count));
  _ ← read finish;
  _ ← call (record_receipts device_id event_ids
        (if bool_decide (kind = FrameType.DeliveryReceiptBatch) then 1 else 2));
  mret (kind, []).

(** The arms of [match frame.kind]. *)
Definition handle (env : Env) (frame : TransportFrame.t) : handler Reply :=
  match TransportFrame.kind frame with
  | FrameType.ClientHello => handle_client_hello
  | FrameType.AuthChallenge => handle_auth_challenge env
  | FrameType.AuthResponse => handle_auth_response env
  | FrameType.UploadEnvelope => handle_upload env (TransportFrame.client_message_id frame)
  | FrameType.SyncRequest => handle_sync env
  | FrameType.RelayDirectoryRequest => handle_recovery
  | FrameType.DeliveryReceiptBatch => handle_receipts env FrameType.DeliveryReceiptBatch
  | FrameType.ReadReceiptBatch => handle_receipts env FrameType.ReadReceiptBatch
  | FrameType.Ping => mret (FrameType.Pong, TransportFrame.body frame)
  | _ => fail InvalidInput
  end.

Definition reply_frame (message_id : Id) (response : Reply) : TransportFrame.t :=
  TransportFrame.Make PROTOCOL_VERSION (fst response) message_id 0 (snd response).

Definition dispatch (env : Env) (frame : TransportFrame.t) : api TransportFrame.t := λ w,
  match handle env frame (Reader.new (TransportFrame.body frame)) w with
  | (Ok (response, _), w) => (Ok (reply_frame (TransportFrame.client_message_id frame) response), w)
  | (Err e, w) => (Err e, w)
  end.
End Handlers.

(** ** The HTTP handler *)

(** [StatusCode] is its number. *)
Module StatusCode.
Definition OK : Z := 200.
Definition BAD_REQUEST : Z := 400.
Definition UNAUTHORIZED : Z := 401.
Definition CONFLICT : Z := 409.
Definition TOO_MANY_REQUESTS : Z := 429.
Definition INTERNAL_SERVER_ERROR : Z := 500.
Definition BAD_GATEWAY : Z := 502.
Definition SERVICE_UNAVAILABLE : Z := 503.
(** [status.is_success()] *)
Definition is_success (status : Z) : bool := (200 <=? status) && (status <? 300).
End StatusCode.

Definition map_error (error : ApiError.t) : Z * ErrorCode.t :=
  match error with
  | ApiError.Expired => (StatusCode.UNAUTHORIZED, ErrorCode.Replay)
  | ApiError.Replay | ApiError.TokenReuse => (StatusCode.CONFLICT, ErrorCode.Replay)
  | ApiError.Conflict => (StatusCode.CONFLICT, ErrorCode.Duplicate)
  | ApiError.Unauthorized | ApiError.InvalidCredentials =>
      (StatusCode.UNAUTHORIZED, ErrorCode.Malformed)
  | ApiError.CursorRegression => (StatusCode.CONFLICT, ErrorCode.CursorRegression)
  | ApiError.InvalidInput => (StatusCode.BAD_REQUEST, ErrorCode.Malformed)
  | ApiError.Database => (StatusCode.INTERNAL_SERVER_ERROR, ErrorCode.Malformed)
  end.

(** The status and the body; the content type is always application/cbor. *)
Module Response.
Record t := Make { status : Z; body : bytes }.
End Response.

(** [frame.encode().unwrap_or_default()] *)
Definition cbor_response (status : Z) (frame : TransportFrame.t) : Response.t :=
  Response.Make status (match TransportFrame.encode frame with Ok b => b | Err _ => [] end).

Definition error_response (status : Z) (id : Id) (code : ErrorCode.t) : Response.t :=
  cbor_response status (reply_frame id (FrameType.Error, [z2b (ErrorCode.as_u8 code)])).
Definition zero_id : Id := fill 16 0.

Module App.
Record t := Make { backend : Backend; requests : Z; errors : Z }.
End App.

(** What one call of [handle_binary] meets: the clock of its rate limit, its
    two dispatches, whether [PgListener] could subscribe, and what the other
    requests do to the database while it waits. *)
Record Exchange : Type := MakeExchange {
  rate_now : Z;
  first_env : Env;
  retry_env : Env;
  listening : bool;
  meanwhile : Backend → Backend
}.

Section Server.
Context `{C : Crypto}.

Definition rate_scope (frame : TransportFrame.t) : bytes :=
  lit "frame/v1/" ++ arr (TransportFrame.client_message_id frame).

(** [SyncBatch] for operation 0 or 1 without an event. *)
Definition empty_page (response : TransportFrame.t) : bool :=
  bool_decide (TransportFrame.kind response = FrameType.SyncBatch)
  && match TransportFrame.body response with
     | operation :: count :: _ =>
         ((b2z operation =? 0) || (b2z operation =? 1)) && (b2z count =? 0)
     | _ => false
     end.

(** The counters are relaxed [AtomicU64]s, which wrap. *)
Definition rejected (status : Z) (id : Id) (code : ErrorCode.t) (app : App.t)
    : Response.t * App.t :=
  (error_response status id code,
   App.Make (App.backend app) (App.requests app) (as_u64 (App.errors app + 1))).
Definition refused (id : Id) (error : ApiError.t) (app : App.t) : Response.t * App.t :=
  let '(status, code) := map_error error in rejected status id code app.

Definition with_backend (app : App.t) (w : Backend) : App.t :=
  App.Make w (App.requests app) (App.errors app).

Definition handle_binary (x : Exchange) (body : bytes) (long_poll : bool) (app : App.t)
    : Response.t * App.t :=
  let app := App.Make (App.backend app) (as_u64 (App.requests app + 1)) (App.errors app) in
  match TransportFrame.decode body with
  | Err _ => rejected StatusCode.BAD_REQUEST zero_id ErrorCode.Malformed app
  | Ok frame =>
      let id := TransportFrame.client_message_id frame in
      let '(limit, w) := check_rate_limit (rate_now x) (rate_scope frame) 120 60 (App.backend app) in
      let app := with_backend app w in
      match limit with
      | Err _ => rejected StatusCode.TOO_MANY_REQUESTS id ErrorCode.RateLimited app
      | Ok _ =>
          if long_poll && negb (bool_decide (TransportFrame.kind frame = FrameType.SyncRequest))
          then rejected StatusCode.BAD_REQUEST id ErrorCode.Malformed app
          else
            let '(first, w) := dispatch (first_env x) frame (App.backend app) in
            match first with
            | Err e => refused id e (with_backend app w)
            | Ok response =>
                if empty_page response && (long_poll && listening x) then
                  let '(retried, w) := dispatch (retry_env x) frame (meanwhile x w) in
                  match retried with
                  | Ok response => (cbor_response StatusCode.OK response, with_backend app w)
                  | Err e => refused id e (with_backend app w)
                  end
                else (cbor_response StatusCode.OK response, with_backend app w)
            end
      end
  end.

Definition binary_api (x : Exchange) (body : bytes) : App.t → Response.t * App.t :=
  handle_binary x body false.
Definition binary_long_poll (x : Exchange) (body : bytes) : App.t → Response.t * App.t :=
  handle_binary x body true.

(** [SELECT 1] *)
Definition readyz (app : App.t) : Response.t * App.t :=
  let '(r, w) := autocommit (ask (λ _, Ok tt)) (App.backend app) in
  (match r with
   | Ok _ => Response.Make StatusCode.OK []
   | Err _ => error_response StatusCode.SERVICE_UNAVAILABLE zero_id ErrorCode.Malformed
   end, with_backend app w).

(** The text of [/metrics]. *)
Definition metrics (app : App.t) : bytes :=
  lit "resilient_api_up 1
resilient_api_requests_total " ++ lit (pretty (Z.to_N (App.requests app))) ++ lit "
resilient_api_errors_total " ++ lit (pretty (Z.to_N (App.errors app))) ++ lit "
".
End Server.
