(* ===== verification/Service.v ===== *)
(** * Service: what the binary frame API promises, and that dispatch keeps it

    An abstract service: the calls a client can make, their documented body
    layout (docs/BACKEND_API.md), and what the service does for each.  The
    refinement theorem states that [dispatch] of Dispatch is this service on
    the frames of calls, and refuses every other frame. *)
From Stdlib Require Import ZArith Lia.
From stdpp Require Import base list strings relations.
From S2P Require Import Prelude Cursor Protocol Crypto Sql Identity CoreDb CoreApi Dispatch.

(** ** Calls *)
Module Upload.
Inductive t :=
| Event (group_id event_id : Id) (event_kind : Z) (correlation_id : option Id) (ciphertext : bytes)
| KeyPackage (package_id : Id) (package : bytes)
| CreateGroup (group_id : Id)
| Membership (correlation_id group_id target : Id) (role : Z) (remove : bool) (signature : array 64)
| Welcome (target group_id welcome_id : Id) (welcome : bytes)
| Recovery (identifier : array 32) (blob : bytes).

Definition code (u : t) : Z :=
  match u with
  | Event _ _ _ _ _ => 1 | KeyPackage _ _ => 2 | CreateGroup _ => 3
  | Membership _ _ _ _ _ _ => 4 | Welcome _ _ _ _ => 5 | Recovery _ _ => 6
  end.

Definition flag_bytes (b : bool) : bytes := [z2b (if b then 1 else 0)].
Definition body (u : t) : bytes :=
  match u with
  | Event g e k corr ct =>
      arr g ++ arr e ++ be_bytes 2 k
      ++ match corr with Some i => flag_bytes true ++ arr i | None => flag_bytes false end ++ ct
  | KeyPackage i p => arr i ++ p
  | CreateGroup g => arr g
  | Membership i g x role rm s => arr i ++ arr g ++ arr x ++ [z2b role] ++ flag_bytes rm ++ arr s
  | Welcome x g i wl => arr x ++ arr g ++ arr i ++ wl
  | Recovery i b => arr i ++ b
  end.

(** What the field types guarantee. *)
Definition typed (u : t) : Prop :=
  match u with
  | Event _ _ k _ _ => - 2 ^ 15 ≤ k < 2 ^ 15
  | Membership _ _ _ role _ _ => in_u 8 role
  | _ => True
  end.
End Upload.

Module Sync.
Inductive t :=
| Group (group_id : Id) (after limit : Z)
| Global (after limit : Z)
| FetchKeyPackage (target : Id)
| FetchWelcomes (limit : Z).

Definition code (s : t) : Z :=
  match s with Group _ _ _ => 0 | Global _ _ => 1 | FetchKeyPackage _ => 2 | FetchWelcomes _ => 3 end.
Definition body (s : t) : bytes :=
  match s with
  | Group g after limit => arr g ++ be_bytes 8 after ++ [z2b limit]
  | Global after limit => be_bytes 8 after ++ [z2b limit]
  | FetchKeyPackage x => arr x
  | FetchWelcomes limit => [z2b limit]
  end.
Definition typed (s : t) : Prop :=
  match s with
  | Group _ after limit | Global after limit => in_u 64 after ∧ in_u 8 limit
  | FetchWelcomes limit => in_u 8 limit
  | FetchKeyPackage _ => True
  end.
End Sync.

Module Call.
Inductive t :=
| Hello (account_id root_public_key : array 32) (cert : DeviceCertificate.t)
| BeginChallenge (device_id : Id)
| Complete (challenge_id : Id) (signature : array 64)
| Rotate (device_id : Id) (refresh_token : array 32) (signature : array 64)
| Upload (token : array 32) (u : Upload.t)
| Sync (token : array 32) (s : Sync.t)
| Delivered (token : array 32) (event_ids : list Id)
| WasRead (token : array 32) (event_ids : list Id)
| FetchRecovery (identifier : array 32)
| Ping (payload : bytes).

Definition kind (c : t) : FrameType.t :=
  match c with
  | Hello _ _ _ => FrameType.ClientHello
  | BeginChallenge _ => FrameType.AuthChallenge
  | Complete _ _ | Rotate _ _ _ => FrameType.AuthResponse
  | Upload _ _ => FrameType.UploadEnvelope
  | Sync _ _ => FrameType.SyncRequest
  | Delivered _ _ => FrameType.DeliveryReceiptBatch
  | WasRead _ _ => FrameType.ReadReceiptBatch
  | FetchRecovery _ => FrameType.RelayDirectoryRequest
  | Ping _ => FrameType.Ping
  end.

Definition ids_bytes (l : list Id) : bytes := [z2b (Z.of_nat (length l))] ++ concat (arr <$> l).
Definition body (c : t) : bytes :=
  match c with
  | Hello a r cert =>
      arr a ++ arr r ++ arr (DeviceCertificate.device_id cert)
      ++ arr (DeviceCertificate.device_public_key cert)
      ++ be_bytes 8 (DeviceCertificate.issued_at cert) ++ arr (DeviceCertificate.signature cert)
  | BeginChallenge x => arr x
  | Complete i s => arr i ++ arr s
  | Rotate x t s => arr x ++ arr t ++ arr s
  | Upload t u => arr t ++ [z2b (Upload.code u)] ++ Upload.body u
  | Sync t s => arr t ++ [z2b (Sync.code s)] ++ Sync.body s
  | Delivered t l | WasRead t l => arr t ++ ids_bytes l
  | FetchRecovery i => [z2b 1] ++ arr i
  | Ping b => b
  end.

Definition typed (c : t) : Prop :=
  match c with
  | Hello _ _ cert => in_u 64 (DeviceCertificate.issued_at cert)
  | Upload _ u => Upload.typed u
  | Sync _ s => Sync.typed s
  | Delivered _ l | WasRead _ l => (length l ≤ 50)%nat
  | _ => True
  end.

(** The frame that makes the call. *)
Definition frame (message_id : Id) (ttl : Z) (c : t) : TransportFrame.t :=
  TransportFrame.Make PROTOCOL_VERSION (kind c) message_id ttl (body c).
End Call.

(** ** What the service does *)

Definition api_bind {A B} (m : api A) (f : A → api B) : api B := λ w,
  match m w with (Ok a, w) => f a w | (Err e, w) => (Err e, w) end.
Definition api_map {A B} (f : A → B) (m : api A) : api B := api_bind m (λ a w, (Ok (f a), w)).

Section Service.
Context `{C : Crypto}.

Definition serve_upload (env : Env) (message_id device_id : Id) (u : Upload.t) : api bytes :=
  match u with
  | Upload.Event g e k corr ct =>
      api_map (λ acc, be_bytes 8 (as_u64 (UploadAccepted.cursor acc))
                      ++ Upload.flag_bytes (UploadAccepted.duplicate acc))
        (upload_event (op_now env) (UploadedEvent.Make e g device_id message_id k ct corr))
  | Upload.KeyPackage i p => api_map (λ _, []) (publish_key_package (op_now env) device_id i p)
  | Upload.CreateGroup g =>
      api_bind (device_account_id device_id) (λ a, api_map (λ _, []) (create_group g device_id a))
  | Upload.Membership i g x role rm s =>
      api_map Upload.flag_bytes (apply_membership_operation (op_now env)
        (MembershipOperation.Make i g device_id x role rm s))
  | Upload.Welcome x g i wl => api_map (λ _, []) (upload_welcome (op_now env) device_id x g i wl)
  | Upload.Recovery i b =>
      api_bind (device_account_id device_id) (λ a, api_map (λ _, []) (store_recovery_package a i b))
  end.

Definition serve_sync (env : Env) (device_id : Id) (s : Sync.t) : api bytes :=
  match s with
  | Sync.Group g after limit =>
      api_map (batch_bytes sync_event_bytes) (sync_group (op_now env) device_id g (as_i64 after) limit)
  | Sync.Global after limit =>
      api_map (batch_bytes sync_event_bytes) (sync_global (op_now env) device_id (as_i64 after) limit)
  | Sync.FetchKeyPackage x =>
      api_map (λ o, optional_bytes ((λ p, arr (fst p) ++ snd p) <$> o)) (fetch_key_package (op_now env) x)
  | Sync.FetchWelcomes limit =>
      api_map (batch_bytes welcome_bytes) (fetch_welcomes (op_now env) device_id limit)
  end.

Definition session_bytes (tokens : SessionTokens.t) : bytes :=
  arr (SessionTokens.access_token tokens) ++ arr (SessionTokens.refresh_token tokens).

Definition serve (env : Env) (message_id : Id) (c : Call.t) : api Reply :=
  match c with
  | Call.Hello a r cert =>
      api_map (λ _, (FrameType.ServerHello, [])) (register_account_device a r cert)
  | Call.BeginChallenge x =>
      api_map (λ ch, (FrameType.AuthChallenge,
          arr (Challenge.challenge_id ch) ++ arr (Challenge.challenge ch)))
        (begin_challenge (op_now env) (new_challenge_id env) (new_challenge env) x)
  | Call.Complete i s =>
      api_map (λ t, (FrameType.AuthAccepted, session_bytes t))
        (complete_challenge (new_tokens env) (op_now env) i s)
  | Call.Rotate x t s =>
      api_map (λ t, (FrameType.AuthAccepted, session_bytes t))
        (rotate_refresh (new_tokens env) (op_now env) x t s)
  | Call.Upload t u =>
      api_bind (authenticate_access (auth_now env) t) (λ x,
        api_map (λ b, (FrameType.UploadAccepted, z2b (Upload.code u) :: b))
          (serve_upload env message_id x u))
  | Call.Sync t s =>
      api_bind (authenticate_access (auth_now env) t) (λ x,
        api_map (λ b, (FrameType.SyncBatch, z2b (Sync.code s) :: b)) (serve_sync env x s))
  | Call.Delivered t l =>
      api_bind (authenticate_access (auth_now env) t) (λ x,
        api_map (λ _, (FrameType.DeliveryReceiptBatch, [])) (record_receipts x l 1))
  | Call.WasRead t l =>
      api_bind (authenticate_access (auth_now env) t) (λ x,
        api_map (λ _, (FrameType.ReadReceiptBatch, [])) (record_receipts x l 2))
  | Call.FetchRecovery i =>
      api_map (λ o, (FrameType.RelayDirectoryResponse, z2b 1 :: optional_bytes o))
        (fetch_recovery_package i)
  | Call.Ping b => λ w, (Ok (FrameType.Pong, b), w)
  end.

(** The answer as a frame with the message id of the call. *)
Definition answer (env : Env) (message_id : Id) (c : Call.t) : api TransportFrame.t :=
  api_map (reply_frame message_id) (serve env message_id c).
End Service.

(** ** The body readers *)

#[export] Instance u8_codec : Codec (λ z, [z2b z]) Reader.u8 (in_u 8).
Proof.
  unfold Reader.u8, Reader.take, in_u. constructor.
  - intros pre z rest Hz Hf. unfold mbind, parser_bind. rewrite ptake_app by done. cbn.
    rewrite b2z_z2b_small by lia. done.
  - intros pre s z c (l & c1 & Ht & [= <- <-])%pbind_Ok.
    apply ptake_at_Ok in Ht as (rest & -> & -> & Hl); [|lia].
    destruct l as [|b [|? ?]]; cbn in Hl; try lia. cbn [nth].
    rewrite z2b_b2z. split; [apply b2z_range|]. eauto.
Qed.

Lemma as_i16_be z : be_bytes 2 (as_i16 z) = be_bytes 2 z.
Proof.
  rewrite <- (be_bytes_mod 2 (as_i16 z)), <- (be_bytes_mod 2 z). f_equal.
  unfold as_i16. rewrite <- Zminus_mod_idemp_l, Z.mod_mod, Zminus_mod_idemp_l by lia.
  f_equal. lia.
Qed.

#[export] Instance i16_codec : Codec (be_bytes 2) Reader.i16 (λ z, - 2 ^ 15 ≤ z < 2 ^ 15).
Proof.
  unfold Reader.i16, Reader.array. constructor.
  - intros pre z rest Hz Hf.
    destruct (try_array_Some 2 (be_bytes 2 z) (length_be_bytes 2 z)) as (a & _ & Ha).
    rewrite <- Ha in Hf |- *. unfold mbind, parser_bind. rewrite parray_app by done.
    unfold mret, parser_ret. rewrite Ha, from_be_be_bytes. do 3 f_equal. unfold as_i16.
    change (256 ^ Z.of_nat 2) with (2 ^ 16). rewrite Zplus_mod_idemp_l, Z.mod_small; lia.
  - intros pre s z c H. parse_inv H. injection H as <- <-. rewrite as_i16_be.
    rewrite be_bytes_from_be_len by apply array_length. split; [|by eauto].
    unfold as_i16. pose proof (Z.mod_pos_bound (from_be a + 2 ^ 15) (2 ^ 16)). lia.
Qed.

#[export] Instance flag_codec : Codec Upload.flag_bytes Reader.flag (λ _, True).
Proof.
  unfold Reader.flag, Upload.flag_bytes. constructor.
  - intros pre b rest _ Hf. unfold mbind, parser_bind.
    rewrite (codec_decode (enc := λ z, [z2b z]) (dec := Reader.u8) (valid := in_u 8)); by destruct b.
  - intros pre s b c H. parse_inv H.
    destruct a as [|[?|?|]|?]; try done; injection H as <- <-; eauto.
Qed.

#[export] Instance reader_array_codec n :
  Codec (arr (n := n)) (Reader.array n) (λ _, True) := array_codec _ _ n.
#[export] Instance reader_u64_codec : Codec (be_bytes 8) Reader.u64 (in_u 64) := be_codec _ _ 8.

(** ** Reading a page

    What a client does with the body of a [SyncBatch]; the repository has no
    client code for it, this reader states the layout. *)
Definition read_sync_event : Reader.t SyncEvent.t :=
  cursor ← Reader.u64;
  event_id ← Reader.array 16;
  event_kind ← Reader.i16;
  n ← pbe InvalidInput InvalidInput 4;
  ciphertext ← Reader.take n;
  mret (SyncEvent.Make cursor event_id event_kind ciphertext).
Definition read_page : Reader.t (Z * list SyncEvent.t) :=
  operation ← Reader.u8;
  n ← Reader.u8;
  events ← prepeat read_sync_event (Z.to_nat n);
  _ ← Reader.finish;
  mret (operation, events).

Definition sync_event_typed (e : SyncEvent.t) : Prop :=
  in_u 64 (SyncEvent.cursor e) ∧ - 2 ^ 15 ≤ SyncEvent.event_kind e < 2 ^ 15
  ∧ in_u 32 (len (SyncEvent.ciphertext e)).

Lemma sync_event_bytes_eq e :
  sync_event_typed e →
  sync_event_bytes e =
    be_bytes 8 (SyncEvent.cursor e) ++ arr (SyncEvent.event_id e)
    ++ be_bytes 2 (SyncEvent.event_kind e)
    ++ be_bytes 4 (len (SyncEvent.ciphertext e)) ++ SyncEvent.ciphertext e.
Proof. intros (Hc & _ & Hl). unfold sync_event_bytes. by rewrite as_u64_small, as_u32_small. Qed.

(** One reader step on what the encoder of the item wrote. *)
Lemma reader_step {A B} enc (dec : Reader.t A) valid `{!Codec enc dec valid}
    (k : A → Reader.t B) pre a rest :
  valid a → fits (pre ++ enc a ++ rest) →
  (dec ≫= k) (at_ pre (enc a ++ rest)) = k a (at_ (pre ++ enc a) rest).
Proof. intros Hv Hf. unfold mbind, parser_bind. by rewrite codec_decode by done. Qed.

#[export] Instance sync_event_codec : Codec sync_event_bytes read_sync_event sync_event_typed.
Proof.
  constructor.
  - intros pre e rest Ht Hf. rewrite (sync_event_bytes_eq e Ht) in *. destruct Ht as (Hc & Hk & Hl).
    destruct e as [cur i k ct]. cbn [SyncEvent.cursor SyncEvent.event_id SyncEvent.event_kind
      SyncEvent.ciphertext] in *. unfold read_sync_event. rewrite <- !app_assoc in *.
    rewrite (reader_step (be_bytes 8) Reader.u64 (in_u 64)) by first [done|solve_fits].
    rewrite (reader_step arr (Reader.array 16) (λ _, True)) by first [done|solve_fits].
    rewrite (reader_step (be_bytes 2) Reader.i16 (λ z, - 2 ^ 15 ≤ z < 2 ^ 15)) by first [done|solve_fits].
    rewrite (reader_step (be_bytes 4) (pbe _ _ 4) (λ z, 0 ≤ z < 256 ^ Z.of_nat 4)) by first [done|solve_fits].
    unfold mbind, parser_bind, Reader.take. rewrite ptake_app by first [done|solve_fits].
    unfold mret, parser_ret. by rewrite <- !app_assoc.
  - intros pre s e c H. unfold read_sync_event in H. do 4 parse_inv H.
    apply pbind_Ok in H as (ct & cu & Ht & [= <- <-]).
    unfold in_u in *. change (256 ^ Z.of_nat 4) with (2 ^ 32) in *.
    apply ptake_at_Ok in Ht as (rest3 & -> & -> & Hl); [|lia].
    assert (Hty : sync_event_typed (SyncEvent.Make a a0 a1 ct)).
    { unfold sync_event_typed, in_u, len. cbn. rewrite Hl. done. }
    split; [done|]. exists rest3. rewrite (sync_event_bytes_eq _ Hty).
    cbn [SyncEvent.cursor SyncEvent.event_id SyncEvent.event_kind SyncEvent.ciphertext].
    unfold len. rewrite Hl, <- !app_assoc. done.
Qed.

Lemma read_page_bytes operation events :
  in_u 8 operation → Z.of_nat (length events) < 256 → Forall sync_event_typed events →
  fits (z2b operation :: batch_bytes sync_event_bytes events) →
  run_parser read_page (z2b operation :: batch_bytes sync_event_bytes events) = Ok (operation, events).
Proof.
  intros Ho Hn Ht Hf. unfold run_parser, read_page, batch_bytes in *. rewrite at_start.
  change (z2b operation :: z2b (Z.of_nat (length events)) :: concat (sync_event_bytes <$> events))
    with ([z2b operation] ++ [z2b (Z.of_nat (length events))] ++ concat (sync_event_bytes <$> events)) in *.
  rewrite (reader_step (λ z, [z2b z]) Reader.u8 (in_u 8)) by first [done|solve_fits].
  rewrite (reader_step (λ z, [z2b z]) Reader.u8 (in_u 8)) by first [unfold in_u; lia|solve_fits].
  rewrite Nat2Z.id, <- (app_nil_r (concat (sync_event_bytes <$> events))).
  rewrite (reader_step (λ l, concat (sync_event_bytes <$> l)) (prepeat read_sync_event (length events))
    (λ l, length l = length events ∧ Forall sync_event_typed l)) by first [done|rewrite app_nil_r; solve_fits].
  unfold mbind, parser_bind, Reader.finish. by rewrite pfinish_at.
Qed.

(** ** Handlers on the frames of calls *)

Lemma read_codec {A B} enc (dec : Reader.t A) valid `{!Codec enc dec valid} (k : A → handler B)
    pre a rest w :
  valid a → fits (pre ++ enc a ++ rest) →
  (read dec ≫= k) (at_ pre (enc a ++ rest)) w = k a (at_ (pre ++ enc a) rest) w.
Proof.
  intros Hv Hf. unfold mbind, handler_bind, read. by rewrite codec_decode by done.
Qed.
Lemma read_codec_end {A B} enc (dec : Reader.t A) valid `{!Codec enc dec valid} (k : A → handler B)
    pre a w :
  valid a → fits (pre ++ enc a) →
  (read dec ≫= k) (at_ pre (enc a)) w = k a (at_ (pre ++ enc a) []) w.
Proof.
  intros Hv Hf. rewrite <- (app_nil_r (enc a)) at 1.
  apply (read_codec enc dec valid); [done|by rewrite app_nil_r].
Qed.
Lemma read_rest {B} (k : bytes → handler B) pre s w :
  (read Reader.rest ≫= k) (at_ pre s) w = k s (at_ (pre ++ s) []) w.
Proof.
  unfold mbind, handler_bind, read, Reader.rest, at_. cbn [cpos cbytes].
  by rewrite Nat2Z.id, drop_app_length, app_nil_r.
Qed.
Lemma read_finish {B} (k : unit → handler B) pre w :
  (read Reader.finish ≫= k) (at_ pre []) w = k tt (at_ pre []) w.
Proof. unfold mbind, handler_bind, read, Reader.finish. by rewrite pfinish_at. Qed.
Lemma read_remaining {B} (k : Z → handler B) pre s w :
  (read Reader.remaining_len ≫= k) (at_ pre s) w = k (len s) (at_ pre s) w.
Proof.
  unfold mbind, handler_bind, read, Reader.remaining_len, at_, len. cbn [cpos cbytes].
  rewrite length_app. do 2 f_equal. lia.
Qed.
Lemma handler_assoc {A B D} (m : handler A) (f : A → handler B) (g : B → handler D) c w :
  ((m ≫= f) ≫= g) c w = (m ≫= (λ a, f a ≫= g)) c w.
Proof. unfold mbind, handler_bind. by destruct (m c w) as [[[a c1]|e] w1]. Qed.

Lemma handler_ret_bind {A B} (a : A) (k : A → handler B) c w : (mret a ≫= k) c w = k a c w.
Proof. done. Qed.

(** Forgetting the cursor of a handler. *)
Definition answered {A} (r : result ApiError.t (A * cursor) * Backend) : result ApiError.t A * Backend :=
  match r with (Ok (a, _), w) => (Ok a, w) | (Err e, w) => (Err e, w) end.

Lemma answered_call {A B} (f : api A) (k : A → handler B) (g : A → api B) c w :
  (∀ a w, answered (k a c w) = g a w) → answered ((call f ≫= k) c w) = api_bind f g w.
Proof.
  intros H. unfold mbind, handler_bind, call, api_bind. by destruct (f w) as [[a|e] w1].
Qed.
Lemma answered_map {A D} (m : handler A) c w (g : api A) (h : A → D)
    (k : A → handler D) :
  answered (m c w) = g w → (∀ a c w, answered (k a c w) = (Ok (h a), w)) →
  answered ((m ≫= k) c w) = api_map h g w.
Proof.
  intros Hm Hk. unfold mbind, handler_bind, api_map, api_bind. rewrite <- Hm.
  destruct (m c w) as [[[a c1]|e] w1]; [apply Hk|done].
Qed.
Lemma dispatch_answered `{C : Crypto} env f w :
  dispatch env f w =
    api_map (reply_frame (TransportFrame.client_message_id f))
      (λ w, answered (handle env f (at_ [] (TransportFrame.body f)) w)) w.
Proof.
  unfold dispatch, Reader.new, api_map, api_bind. rewrite at_start.
  by destruct (handle _ _ _ _) as [[[r c]|e] w1].
Qed.

(** [reading]: read every item of the body. *)
Ltac side := first [done | assumption | unfold in_u in *; cbn; lia | solve_fits].
Ltac reading :=
  repeat first
    [ progress cbv iota beta
    | rewrite handler_assoc | rewrite handler_ret_bind
    | rewrite (read_codec arr (Reader.array _) (λ _, True)) by side
    | rewrite (read_codec_end arr (Reader.array _) (λ _, True)) by side
    | rewrite (read_codec Upload.flag_bytes Reader.flag (λ _, True)) by side
    | rewrite (read_codec (be_bytes 8) Reader.u64 (in_u 64)) by side
    | rewrite (read_codec (be_bytes 2) Reader.i16 (λ z, - 2 ^ 15 ≤ z < 2 ^ 15)) by side
    | rewrite (read_codec (λ z, [z2b z]) Reader.u8 (in_u 8)) by side
    | rewrite (read_codec_end (λ z, [z2b z]) Reader.u8 (in_u 8)) by side
    | rewrite read_rest | rewrite read_finish | rewrite read_remaining ].

Ltac calls := repeat first [ apply answered_call; intros ? ? | done ].

Section Calls.
Context `{C : Crypto}.

Lemma upload_call env mid x u pre w :
  Upload.typed u → fits (pre ++ Upload.body u) →
  answered (upload_operation env mid x (Upload.code u) (at_ pre (Upload.body u)) w)
  = serve_upload env mid x u w.
Proof.
  intros Ht Hf. destruct u as [g e k corr ct|i p|g|i g y role rm s|y g i wl|i b];
    cbn [Upload.code Upload.body Upload.typed upload_operation serve_upload] in *.
  - reading. destruct corr as [j|]; rewrite <- ?app_assoc in *; reading; calls.
  - reading; calls.
  - reading; calls.
  - reading; calls.
  - reading; calls.
  - reading; calls.
Qed.

Lemma sync_call env x s pre w :
  Sync.typed s → fits (pre ++ Sync.body s) →
  answered (sync_operation env x (Sync.code s) (at_ pre (Sync.body s)) w) = serve_sync env x s w.
Proof.
  intros Ht Hf. destruct s as [g after limit|after limit|y|limit];
    cbn [Sync.code Sync.body Sync.typed sync_operation serve_sync] in *; try destruct Ht.
  - change (0 =? 0) with true. reading; calls.
  - change (1 =? 0) with false. reading; calls.
  - reading; calls.
  - reading; calls.
Qed.

Lemma upload_code_range u : in_u 8 (Upload.code u).
Proof. by destruct u. Qed.
Lemma sync_code_range s : in_u 8 (Sync.code s).
Proof. by destruct s. Qed.

Lemma receipts_call env t l n pre w (kind : FrameType.t) :
  (length l ≤ 50)%nat → fits (pre ++ arr t ++ Call.ids_bytes l) →
  n = (if bool_decide (kind = FrameType.DeliveryReceiptBatch) then 1 else 2) →
  answered (handle_receipts env kind (at_ pre (arr t ++ Call.ids_bytes l)) w)
  = api_bind (authenticate_access (auth_now env) t) (λ x,
      api_map (λ _, (kind, [])) (record_receipts x l n)) w.
Proof.
  intros Hl Hf ->. unfold handle_receipts, authenticated, Call.ids_bytes in *. reading.
  apply answered_call. intros x w1. reading.
  replace (50 <? Z.of_nat (length l)) with false by lia. reading. rewrite Nat2Z.id.
  rewrite (read_codec_end (λ l, concat (arr <$> l)) (prepeat (Reader.array 16) (length l))
    (λ l', length l' = length l ∧ Forall (λ _, True) l')).
  - reading. calls.
  - split; [done|]. by apply Forall_true.
  - by rewrite <- !app_assoc.
Qed.

(** A frame that makes a call is answered as the service answers the call. *)
Lemma handle_call env mid ttl c w :
  Call.typed c → fits (Call.body c) →
  answered (handle env (Call.frame mid ttl c) (at_ [] (Call.body c)) w) = serve env mid c w.
Proof.
  intros Ht Hf. unfold handle, Call.frame.
  destruct c as [a r cert|x|i s|x t s|t u|t s|t l|t l|i|b];
    cbn [Call.kind Call.body Call.typed TransportFrame.kind TransportFrame.client_message_id
         TransportFrame.body serve] in *.
  - unfold handle_client_hello. reading. destruct cert. calls.
  - unfold handle_auth_challenge. reading. calls. by reading.
  - unfold handle_auth_response. reading. unfold len. rewrite length_app, !array_length.
    change (Z.of_nat (16 + 64) =? 80) with true. cbv iota. reading. calls. by reading.
  - unfold handle_auth_response. reading. unfold len. rewrite !length_app, !array_length.
    change (Z.of_nat (16 + (32 + 64)) =? 80) with false.
    change (Z.of_nat (16 + (32 + 64)) =? 112) with true. cbv iota. reading. calls. by reading.
  - unfold handle_upload, authenticated. pose proof (upload_code_range u). reading.
    apply answered_call. intros x w1. reading.
    apply answered_map; [|done]. apply upload_call; [done|solve_fits].
  - unfold handle_sync, authenticated. pose proof (sync_code_range s). reading.
    apply answered_call. intros x w1. reading.
    apply answered_map; [|done]. apply sync_call; [done|solve_fits].
  - by apply receipts_call.
  - by apply receipts_call.
  - unfold handle_recovery. reading. change (1 =? 1) with true. reading. calls.
  - done.
Qed.

Lemma dispatch_call env mid ttl c w :
  Call.typed c → fits (Call.body c) →
  dispatch env (Call.frame mid ttl c) w = answer env mid c w.
Proof.
  intros Ht Hf. rewrite dispatch_answered. unfold answer, api_map, api_bind.
  cbn [TransportFrame.body TransportFrame.client_message_id Call.frame].
  by rewrite <- (handle_call env mid ttl c w Ht Hf).
Qed.
End Calls.

(** ** Every other frame is refused *)

(** An error that leaves the database as it was. *)
Definition refuses {A} (r : result ApiError.t A * Backend) (w : Backend) : Prop :=
  ∃ e, r.1 = Err e ∧ current r.2 = current w.

Lemma refuses_read {A} (r : result ApiError.t A * Backend) w w1 :
  current w1 = current w → refuses r w1 → refuses r w.
Proof. intros H (e & ? & ?). exists e. split; congruence. Qed.

Lemma read_cases {A B} enc (dec : Reader.t A) valid `{!Codec enc dec valid} (k : A → handler B)
    pre s w :
  refuses ((read dec ≫= k) (at_ pre s) w) w
  ∨ ∃ a rest, valid a ∧ s = enc a ++ rest
    ∧ (read dec ≫= k) (at_ pre s) w = k a (at_ (pre ++ enc a) rest) w.
Proof.
  unfold mbind, handler_bind, read. destruct (dec (at_ pre s)) as [[a c]|e] eqn:E.
  - apply codec_canonical in E as (Hv & rest & -> & ->). right. eauto.
  - left. by exists e.
Qed.
Lemma finish_cases {B} (k : unit → handler B) pre s w :
  refuses ((read Reader.finish ≫= k) (at_ pre s) w) w ∨ s = [].
Proof.
  destruct s; [by right|left]. unfold mbind, handler_bind, read, Reader.finish.
  rewrite pfinish_at. by eexists.
Qed.
Lemma fail_refuses {A B} e (k : A → handler B) c w : refuses ((fail e ≫= k) c w) w.
Proof. by exists e. Qed.

Lemma autocommit_reads {D E A} (f : D → result E A) (e : E) (g : A → result E A) (w : world D) :
  current (autocommit (a ← query e f; dlift (g a)) w).2 = current w.
Proof.
  rewrite (proj2 (autocommit_current _ _)). unfold mbind, dbm_bind, query.
  destruct (default false _); [done|]. by destruct (f (current w)).
Qed.

Lemma authenticate_reads `{C : Crypto} now t w : current (authenticate_access now t w).2 = current w.
Proof.
  unfold authenticate_access. rewrite (proj2 (autocommit_current _ _)).
  unfold mbind, dbm_bind, query. destruct (default false _); [done|].
  by destruct (select_access _ _ _).
Qed.

(** [item dec]: the next item is there, or the frame is refused. *)
Ltac item dec :=
  rewrite ?handler_assoc, ?handler_ret_bind;
  let inst := constr:(_ : Codec _ dec _) in
  match goal with |- context [(read dec ≫= ?k) (at_ ?pre ?s) ?w] =>
    let Hr := fresh in let a := fresh "a" in let rest := fresh "rest" in let Hv := fresh "Hv" in
    destruct (read_cases _ dec _ (Codec0 := inst) k pre s w) as [Hr|(a & rest & Hv & -> & ->)];
    [left; exact Hr|]
  end.
Ltac the_end :=
  match goal with |- context [(read Reader.finish ≫= ?k) (at_ ?pre ?s) ?w] =>
    let Hr := fresh in
    destruct (finish_cases k pre s w) as [Hr| ->]; [left; exact Hr|]
  end.

(** [made c]: the items read are the body of the call [c]. *)
Tactic Notation "made" open_constr(c) :=
  rewrite ?app_nil_r; right; exists c; cbn [Upload.typed Upload.code Upload.body Sync.typed Sync.code Sync.body
    Call.typed Call.kind Call.body]; rewrite <- ?app_assoc; split; [|split; [|done]];
    first [done | assumption | split; assumption].

Section Refusals.
Context `{C : Crypto}.

Lemma upload_cases env mid x n pre s w :
  refuses (upload_operation env mid x n (at_ pre s) w) w
  ∨ ∃ u, Upload.typed u ∧ n = Upload.code u ∧ s = Upload.body u.
Proof.
  unfold upload_operation.
  destruct n as [|[[|[| |]|]|[[| |]|[| |]|]|]|]; try (left; by eexists).
  - item (Reader.array 16). item (Reader.array 16). item (Reader.array 16). made (Upload.Welcome _ _ _ _).
  - item (Reader.array 16). the_end. made (Upload.CreateGroup _).
  - item (Reader.array 32). made (Upload.Recovery _ _).
  - item (Reader.array 16). item (Reader.array 16). item (Reader.array 16). item Reader.u8.
    item Reader.flag. item (Reader.array 64). the_end. made (Upload.Membership _ _ _ _ _ _).
  - item (Reader.array 16). made (Upload.KeyPackage _ _).
  - item (Reader.array 16). item (Reader.array 16). item Reader.i16. item Reader.flag.
    destruct a2.
    + item (Reader.array 16). made (Upload.Event _ _ _ (Some _) _).
    + made (Upload.Event _ _ _ None _).
Qed.

Lemma sync_cases env x n pre s w :
  refuses (sync_operation env x n (at_ pre s) w) w
  ∨ ∃ c, Sync.typed c ∧ n = Sync.code c ∧ s = Sync.body c.
Proof.
  unfold sync_operation.
  destruct n as [|[[| |]|[| |]|]|]; try (left; by eexists); cbn [Z.eqb Pos.eqb].
  - item (Reader.array 16). item Reader.u64. item Reader.u8. the_end. made (Sync.Group _ _ _).
  - item Reader.u8. the_end. made (Sync.FetchWelcomes _).
  - item (Reader.array 16). the_end. made (Sync.FetchKeyPackage _).
  - item Reader.u64. item Reader.u8. the_end. made (Sync.Global _ _).
Qed.

Lemma refuses_bind {A B} (m : handler A) (k : A → handler B) c w :
  refuses (m c w) w → refuses ((m ≫= k) c w) w.
Proof.
  unfold mbind, handler_bind. intros (e & He & Hw). exists e.
  destruct (m c w) as [[[a c1]|e'] w1]; cbn in *; [done|]. split; congruence.
Qed.

(** Reading the token and asking whose it is, then the rest [k]. *)
Lemma token_cases {B} env (k : Id → handler B) (P : bytes → Prop) s w :
  (∀ x pre rest w1, refuses (k x (at_ pre rest) w1) w1 ∨ P rest) →
  refuses ((authenticated env ≫= k) (at_ [] s) w) w ∨ ∃ (t : array 32) rest, s = arr t ++ rest ∧ P rest.
Proof.
  intros Hk. unfold authenticated. item (Reader.array 32).
  pose proof (authenticate_reads (auth_now env) a w) as Hw.
  unfold mbind at 1, handler_bind at 1, call. destruct (authenticate_access _ _ _) as [[x|e] w1].
  - destruct (Hk x ([] ++ arr a) rest w1) as [H|H]; [left|right; eauto].
    by eapply refuses_read.
  - left. by exists e.
Qed.

Lemma receipts_cases env kind s w :
  refuses (handle_receipts env kind (at_ [] s) w) w
  ∨ ∃ (t : array 32) rest, s = arr t ++ rest ∧ ∃ l, (length l ≤ 50)%nat ∧ rest = Call.ids_bytes l.
Proof.
  apply token_cases. clear s w. intros x pre s w. item Reader.u8.
  destruct (Z.ltb_spec 50 a); [left; apply fail_refuses|]. rewrite handler_ret_bind.
  item (prepeat (Reader.array 16) (Z.to_nat a)). the_end. right. exists a0.
  destruct Hv0 as [Hl _]. unfold in_u in Hv. split; [lia|]. unfold Call.ids_bytes.
  rewrite Hl, Z2Nat.id, app_nil_r by lia. done.
Qed.

(** An unauthenticated challenge request is read to its end only after the
    challenge is stored. *)
Definition overlong_challenge (env : Env) (f : TransportFrame.t) (r : result ApiError.t TransportFrame.t * Backend)
    (w : Backend) : Prop :=
  ∃ (x : Id) extra, TransportFrame.kind f = FrameType.AuthChallenge ∧ extra ≠ []
    ∧ TransportFrame.body f = arr x ++ extra
    ∧ r = api_bind (begin_challenge (op_now env) (new_challenge_id env) (new_challenge env) x)
            (λ _ w, (Err InvalidInput, w)) w.

Definition makes (c : Call.t) (f : TransportFrame.t) : Prop :=
  Call.typed c ∧ TransportFrame.kind f = Call.kind c ∧ TransportFrame.body f = Call.body c.

Lemma dispatch_makes env c f w :
  makes c f → fits (TransportFrame.body f) →
  dispatch env f w = answer env (TransportFrame.client_message_id f) c w.
Proof.
  intros (Ht & Hk & Hb) Hf. rewrite Hb in Hf.
  rewrite <- (dispatch_call env _ (TransportFrame.ttl_seconds f) c w Ht Hf).
  unfold dispatch, handle. rewrite Hk, Hb. done.
Qed.

Lemma dispatch_refuses env f w :
  refuses (handle env f (at_ [] (TransportFrame.body f)) w) w → refuses (dispatch env f w) w.
Proof.
  unfold refuses, dispatch, Reader.new. rewrite at_start.
  destruct (handle _ _ _ _) as [[[r c]|e] w1]; intros (e' & He & Hw); [done|]. by exists e.
Qed.

Lemma handle_cases env f w :
  TransportFrame.kind f ≠ FrameType.AuthChallenge →
  refuses (handle env f (at_ [] (TransportFrame.body f)) w) w ∨ ∃ c, makes c f.
Proof.
  destruct f as [v k i ttl s]. unfold handle, makes.
  cbn [TransportFrame.kind TransportFrame.body TransportFrame.client_message_id]. intros Hk.
  destruct k; try done; try (left; by eexists).
  - unfold handle_client_hello. item (Reader.array 32). item (Reader.array 32).
    item (Reader.array 16). item (Reader.array 32). item Reader.u64. item (Reader.array 64). the_end.
    made (Call.Hello _ _ (DeviceCertificate.Make _ _ _ _)).
  - unfold handle_auth_response. rewrite read_remaining.
    destruct (Z.eqb_spec (len s) 80); [|destruct (Z.eqb_spec (len s) 112); [|left; apply fail_refuses]].
    + item (Reader.array 16). item (Reader.array 64).
      destruct rest0; [|unfold len in *; rewrite !length_app, !array_length in *; cbn in *; lia].
      made (Call.Complete _ _).
    + item (Reader.array 16). item (Reader.array 32). item (Reader.array 64).
      destruct rest; [|unfold len in *; rewrite !length_app, !array_length in *; cbn in *; lia].
      made (Call.Rotate _ _ _).
  - destruct (token_cases env (λ x, operation ← read Reader.u8;
        encoded ← upload_operation env i x operation;
        mret (FrameType.UploadAccepted, z2b operation :: encoded))
      (λ rest, ∃ u, Upload.typed u ∧ rest = [z2b (Upload.code u)] ++ Upload.body u) s w)
      as [H|(t & rest & -> & u & Hu & ->)]; [|by left|made (Call.Upload _ _)].
    clear s w. intros x pre s w. item Reader.u8.
    destruct (upload_cases env i x a (pre ++ [z2b a]) rest w) as [H|(u & Hu & -> & ->)];
      [left; by apply refuses_bind|right; eauto].
  - destruct (token_cases env (λ x, operation ← read Reader.u8;
        encoded ← sync_operation env x operation;
        mret (FrameType.SyncBatch, z2b operation :: encoded))
      (λ rest, ∃ c, Sync.typed c ∧ rest = [z2b (Sync.code c)] ++ Sync.body c) s w)
      as [H|(t & rest & -> & c & Hc & ->)]; [|by left|made (Call.Sync _ _)].
    clear s w. intros x pre s w. item Reader.u8.
    destruct (sync_cases env x a (pre ++ [z2b a]) rest w) as [H|(c & Hc & -> & ->)];
      [left; by apply refuses_bind|right; eauto].
  - destruct (receipts_cases env FrameType.DeliveryReceiptBatch s w)
      as [H|(t & rest & -> & l & Hl & ->)]; [by left|made (Call.Delivered _ _)].
  - destruct (receipts_cases env FrameType.ReadReceiptBatch s w)
      as [H|(t & rest & -> & l & Hl & ->)]; [by left|made (Call.WasRead _ _)].
  - unfold handle_recovery. item Reader.u8.
    destruct (Z.eqb_spec a 1) as [->|]; [|left; apply fail_refuses]. rewrite handler_ret_bind.
    item (Reader.array 32). the_end. made (Call.FetchRecovery _).
  - right. by exists (Call.Ping s).
Qed.

Lemma overlong_challenge_run env x extra pre w :
  extra ≠ [] → fits (pre ++ arr x ++ extra) →
  answered (handle_auth_challenge env (at_ pre (arr x ++ extra)) w)
  = api_bind (begin_challenge (op_now env) (new_challenge_id env) (new_challenge env) x)
      (λ _ w, (Err InvalidInput, w)) w.
Proof.
  intros Hx Hf. unfold handle_auth_challenge. reading. apply answered_call. intros a w1.
  unfold mbind, handler_bind, read, Reader.finish. rewrite pfinish_at. by destruct extra.
Qed.

Lemma challenge_cases env f w :
  fits (TransportFrame.body f) → TransportFrame.kind f = FrameType.AuthChallenge →
  refuses (dispatch env f w) w ∨ (∃ c, makes c f) ∨ overlong_challenge env f (dispatch env f w) w.
Proof.
  intros Hf Hk. pose proof (dispatch_refuses env f w) as Hr. unfold handle in Hr. rewrite Hk in Hr.
  pose proof (dispatch_answered env f w) as Hd. unfold handle in Hd. rewrite Hk in Hd.
  unfold overlong_challenge, makes. remember (TransportFrame.body f) as s eqn:Hs.
  unfold handle_auth_challenge in Hr.
  match type of Hr with refuses ((_ ≫= ?k) _ _) _ → _ =>
    destruct (read_cases arr (Reader.array 16) (λ _, True) k [] s w) as [H|(x & extra & _ & Hb & _)] end;
    [by left; apply Hr|right].
  destruct extra as [|b extra]; [left; exists (Call.BeginChallenge x)|right; exists x, (b :: extra)].
  - rewrite Hb, app_nil_r, Hk. done.
  - split_and!; [done..|]. rewrite Hd. unfold api_map. unfold api_bind at 1. subst s. rewrite Hb in *.
    rewrite (overlong_challenge_run env x (b :: extra) [] w) by done. unfold api_bind.
    by destruct (begin_challenge _ _ _ _ _) as [[?|?] ?].
Qed.

(** C9: The binary API refines the abstract service.  A frame that makes a
    well-typed call is answered as the service answers the call, under the
    message id of the frame, with the same effect on the database; every other
    frame is refused without any effect, but for a challenge request with
    bytes after the device id, which is refused after its challenge has been
    stored. *)
Theorem dispatch_refines_service env f w :
  fits (TransportFrame.body f) →
  (∀ c, makes c f → dispatch env f w = answer env (TransportFrame.client_message_id f) c w)
  ∧ ((∃ c, makes c f) ∨ refuses (dispatch env f w) w ∨ overlong_challenge env f (dispatch env f w) w).
Proof.
  intros Hf. split; [intros c Hc; by apply dispatch_makes|].
  destruct (decide (TransportFrame.kind f = FrameType.AuthChallenge)) as [Hk|Hk].
  - destruct (challenge_cases env f w Hf Hk) as [H|[H|H]]; auto.
  - destruct (handle_cases env f w Hk) as [H|H]; [|by left].
    right. left. by apply dispatch_refuses.
Qed.
End Refusals.

(** ** A concrete exchange *)

Module Sample.
Import Demo.

Definition env : Env := MakeEnv 501 502 (fill 16 60) (fill 32 61) (seed 70).
Definition token : array 32 := fill 32 20.

(** The administrator's device has completed its challenge and holds [token]. *)
Definition session : Backend :=
  perform (Request.CompleteChallenge (seed 20) 500 (fill 16 3)
     (sk_sign (fill 32 5) (auth_challenge_payload (fill 16 3) (fill 32 4)))) backend.
Lemma session_sound : sound session.
Proof. apply request_sound, backend_sound. Qed.

Definition upload : Call.t :=
  Call.Upload token (Upload.Event group (fill 16 30) 1 None [z2b 9]).
Definition upload_frame : TransportFrame.t := Call.frame (fill 16 110) 60 upload.
Definition page : Call.t := Call.Sync token (Sync.Group group 0 10).
Definition page_frame : TransportFrame.t := Call.frame (fill 16 111) 60 page.
Lemma upload_made : makes upload upload_frame.
Proof. by vm_compute. Qed.
Lemma page_made : makes page page_frame.
Proof. by vm_compute. Qed.

(** The bytes of a frame that encodes. *)
Definition encoded (f : TransportFrame.t) : bytes :=
  match TransportFrame.encode f with Ok b => b | Err _ => [] end.
End Sample.

Lemma dispatch_refines_service_witness :
  fits (TransportFrame.body Sample.upload_frame)
  ∧ ∃ g w, dispatch Sample.env Sample.upload_frame Sample.session = (Ok g, w)
      ∧ TransportFrame.kind g = FrameType.UploadAccepted.
Proof.
  assert (Hf : fits (TransportFrame.body Sample.upload_frame)) by by vm_compute.
  split; [exact Hf|]. eexists _, _. split.
  - rewrite (proj1 (dispatch_refines_service Sample.env Sample.upload_frame Sample.session Hf)
      Sample.upload Sample.upload_made).
    apply pair_of. vm_compute. reflexivity.
  - reflexivity.
Defined.
