(* ===== verification/Server.v ===== *)
(** * Server: what holds of the core-api server as a whole

    The theorems on [handle_binary] of Dispatch.v: every request keeps the
    database well-formed, every response is a frame for its request, a long
    poll answers with what is visible when it ends, and a page that does not
    fit a frame is lost. *)
From Stdlib Require Import ZArith Lia Sorting.Sorted.
From stdpp Require Import base list strings relations.
From S2P Require Import Prelude Cursor Protocol Crypto Sql Identity CoreDb.
From S2P Require Import CoreApi CoreDelivery Dispatch Service.
Import Db.

(** ** Every request keeps every invariant of the schema *)

Section Keeping.
Context `{C : Crypto} `{U : Unicode} (P : Db.t → Prop) `{!Frame P}.

Lemma keeps_refl w : keeps P w w.
Proof. by intros ?. Qed.
Lemma keeps_trans w1 w2 w3 : keeps P w1 w2 → keeps P w2 w3 → keeps P w1 w3.
Proof. unfold keeps. auto. Qed.

Definition api_keeps {A} (f : api A) : Prop := ∀ w, keeps P w (f w).2.
Definition handler_keeps {A} (m : handler A) : Prop := ∀ c w, keeps P w (m c w).2.

Lemma read_keeps {A} (p : Reader.t A) : handler_keeps (read p).
Proof. intros c w. apply keeps_refl. Qed.
Lemma fail_keeps {A} e : handler_keeps (@fail A e).
Proof. intros c w. apply keeps_refl. Qed.
Lemma ret_keeps {A} (a : A) : handler_keeps (mret a).
Proof. intros c w. apply keeps_refl. Qed.
Lemma call_keeps {A} (f : api A) : api_keeps f → handler_keeps (call f).
Proof. intros Hf c w. specialize (Hf w). unfold call. by destruct (f w) as [[a|e] w1]. Qed.
Lemma bind_keeps {A B} (m : handler A) (k : A → handler B) :
  handler_keeps m → (∀ a, handler_keeps (k a)) → handler_keeps (m ≫= k).
Proof.
  intros Hm Hk c w. specialize (Hm c w). unfold mbind, handler_bind.
  destruct (m c w) as [[[a c1]|e] w1]; [|done]. eapply keeps_trans; [exact Hm|apply Hk].
Qed.

(** The reading operations, which are not requests of their own. *)
Lemma device_account_id_keeps x : api_keeps (device_account_id x).
Proof. intros w. apply direct_keeps. solve_preserves. Qed.
Lemma fetch_recovery_keeps i : api_keeps (fetch_recovery_package i).
Proof. intros w. apply direct_keeps. solve_preserves. Qed.
Lemma sync_global_keeps now x after limit : api_keeps (sync_global now x after limit).
Proof. intros w. apply direct_keeps. solve_preserves. Qed.
Lemma sync_group_keeps now x g after limit : api_keeps (sync_group now x g after limit).
Proof.
  intros w. apply transaction_keeps; [apply _| |intros Q HQ]; unfold sync_group_body; solve_preserves.
Qed.

Tactic Notation "request" open_constr(r) := intros w; exact (perform_frame P r w eq_refl).
Lemma upload_event_keeps now e : api_keeps (upload_event now e).
Proof. request (Request.UploadEvent now e). Qed.

Ltac solve_keeps :=
  repeat first
    [ apply bind_keeps; [|intros ?] | apply read_keeps | apply ret_keeps | apply fail_keeps
    | apply call_keeps | case_match
    | apply device_account_id_keeps | apply fetch_recovery_keeps | apply sync_global_keeps
    | apply sync_group_keeps | apply upload_event_keeps
    | request (Request.Register _ _ _) | request (Request.BeginChallenge _ _ _ _)
    | request (Request.CompleteChallenge _ _ _ _) | request (Request.RotateRefresh _ _ _ _ _)
    | request (Request.Authenticate _ _) | request (Request.PublishKeyPackage _ _ _ _)
    | request (Request.CreateGroup _ _ _) | request (Request.Membership _ _)
    | request (Request.UploadWelcome _ _ _ _ _ _) | request (Request.StoreRecovery _ _ _)
    | request (Request.FetchKeyPackage _ _) | request (Request.FetchWelcomes _ _ _)
    | request (Request.Receipts _ _ _) ].

Lemma handle_keeps env f : handler_keeps (handle env f).
Proof.
  unfold handle, handle_client_hello, handle_auth_challenge, handle_auth_response, handle_upload,
    upload_operation, handle_sync, sync_operation, handle_recovery, handle_receipts, authenticated.
  solve_keeps.
Qed.

Lemma dispatch_keeps env f : api_keeps (dispatch env f).
Proof.
  intros w. pose proof (handle_keeps env f (Reader.new (TransportFrame.body f)) w) as H.
  unfold dispatch. by destruct (handle _ _ _ _) as [[[r c]|e] w1].
Qed.
Lemma rate_limit_keeps now s n m : api_keeps (check_rate_limit now s n m).
Proof. request (Request.RateLimit now s n m). Qed.
End Keeping.

(** ** The shape of every response *)

(** The message id a response carries. *)
Definition request_id (body : bytes) : Id :=
  match TransportFrame.decode body with
  | Ok f => TransportFrame.client_message_id f
  | Err _ => zero_id
  end.

Section Responses.
Context `{C : Crypto}.

Lemma map_error_status e : (map_error e).1 ≠ StatusCode.OK.
Proof. by destruct e. Qed.

Lemma handle_binary_cases x body long_poll app :
  let '(r, app') := handle_binary x body long_poll app in
  App.requests app' = as_u64 (App.requests app + 1)
  ∧ ((∃ status code, r = error_response status (request_id body) code ∧ status ≠ StatusCode.OK
        ∧ App.errors app' = as_u64 (App.errors app + 1))
     ∨ ∃ f env w g w', TransportFrame.decode body = Ok f ∧ dispatch env f w = (Ok g, w')
        ∧ r = cbor_response StatusCode.OK g ∧ App.errors app' = App.errors app).
Proof.
  unfold handle_binary, refused, rejected, request_id.
  destruct (TransportFrame.decode body) as [f|e]; [|split; [done|left; eauto]].
  destruct (check_rate_limit _ _ _ _ _) as [[u|e] w]; [|split; [done|left; eauto]].
  destruct (long_poll && _); [split; [done|left; eauto]|].
  assert (Hm : ∀ e, ∃ st co, map_error e = (st, co) ∧ st ≠ StatusCode.OK)
    by (intros e; exists (map_error e).1, (map_error e).2; split; [by destruct (map_error e)|apply map_error_status]).
  destruct (dispatch (first_env x) f _) as [[g|e] w1] eqn:E1.
  - destruct (empty_page g && _).
    + destruct (dispatch (retry_env x) f _) as [[g'|e] w2] eqn:E2.
      * split; [done|]. right. by exists f, (retry_env x), (meanwhile x w1), g', w2.
      * destruct (Hm e) as (st & co & -> & Hs). split; [done|left; eauto].
    + split; [done|]. right. by exists f, (first_env x), w, g, w1.
  - destruct (Hm e) as (st & co & -> & Hs). split; [done|left; eauto].
Qed.

Lemma code_range c : in_u 8 (ErrorCode.as_u8 c).
Proof. by destruct c. Qed.

Lemma small_frame_decodes f :
  TransportFrame.typed f → TransportFrame.version f = PROTOCOL_VERSION →
  TransportFrame.ttl_seconds f ≤ MAX_TTL_SECONDS → len (TransportFrame.body f) ≤ MAX_FRAME_SIZE - 31 →
  ∃ bs, TransportFrame.encode f = Ok bs ∧ TransportFrame.decode bs = Ok f.
Proof.
  intros Ht Hv Httl Hb. destruct (frame_length f) as [_ Hl].
  unfold MAX_FRAME_SIZE, u16_max, len in *. specialize (Hl (proj1 Ht) ltac:(lia)).
  exists (frame_bytes f). assert (He : TransportFrame.encode f = Ok (frame_bytes f)).
  { apply frame_encode_Ok. split; [done|]. unfold len, MAX_FRAME_SIZE. lia. }
  split; [exact He|]. by apply frame_decode_iff_encode.
Qed.
Lemma frame_fits i k b :
  len b ≤ MAX_FRAME_SIZE - 31 →
  ∃ bs, TransportFrame.encode (reply_frame i (k, b)) = Ok bs
    ∧ TransportFrame.decode bs = Ok (reply_frame i (k, b)).
Proof. intros Hb. by apply small_frame_decodes. Qed.

Lemma error_response_frame status i code :
  error_response status i code
  = Response.Make status (Response.body (error_response status i code))
  ∧ TransportFrame.decode (Response.body (error_response status i code))
    = Ok (reply_frame i (FrameType.Error, [z2b (ErrorCode.as_u8 code)])).
Proof.
  destruct (frame_fits i FrameType.Error [z2b (ErrorCode.as_u8 code)]) as (bs & He & Hd); [done|].
  unfold error_response, cbor_response. rewrite He. done.
Qed.

Lemma cbor_response_frame i reply :
  let r := cbor_response StatusCode.OK (reply_frame i reply) in
  TransportFrame.decode (Response.body r) = Ok (reply_frame i reply)
  ∨ Response.body r = [] ∧ TransportFrame.encode (reply_frame i reply) = Err Error.TooLarge.
Proof.
  cbn. unfold cbor_response. assert (Ht : TransportFrame.typed (reply_frame i reply)) by done.
  destruct (TransportFrame.encode _) as [b|e] eqn:E; cbn; [left|right].
  - by apply frame_decode_iff_encode.
  - split; [done|]. rewrite frame_encode_eq in E. cbn in E.
    destruct (MAX_TTL_SECONDS <? 0) eqn:E0; [done|]. do 2 (case_match; [congruence|]). done.
Qed.

(** *** What each call answers *)

Lemma api_map_Ok {A B} (h : A → B) (m : api A) w b w' :
  api_map h m w = (Ok b, w') → ∃ a, m w = (Ok a, w') ∧ b = h a.
Proof.
  unfold api_map, api_bind. destruct (m w) as [[a|e] w1]; [|done]. intros [= <- <-]. eauto.
Qed.
Lemma api_bind_Ok {A B} (m : api A) (f : A → api B) w b w' :
  api_bind m f w = (Ok b, w') → ∃ a w1, m w = (Ok a, w1) ∧ f a w1 = (Ok b, w').
Proof. unfold api_bind. destruct (m w) as [[a|e] w1]; [eauto|done]. Qed.

Ltac mapped H acc Ha :=
  first [ apply api_map_Ok in H as (acc & Ha & ->)
        | apply api_bind_Ok in H as (? & ? & _ & H); apply api_map_Ok in H as (acc & Ha & ->) ].

Lemma serve_upload_small env i x u w b w' :
  serve_upload env i x u w = (Ok b, w') → len b ≤ 9.
Proof.
  destruct u; cbn [serve_upload]; intros H;
    by mapped H acc Ha.
Qed.

Lemma serve_reply env i c w r w' :
  serve env i c w = (Ok r, w') →
  fst r ≠ FrameType.Error
  ∧ (len (snd r) ≤ 64 ∨ Call.kind c = FrameType.SyncRequest
     ∨ Call.kind c = FrameType.RelayDirectoryRequest
     ∨ c = Call.Ping (snd r) ∧ fst r = FrameType.Pong).
Proof.
  destruct c as [a ro cert|x|j s|x t s|t u|t s|t l|t l|j|b]; cbn [serve Call.kind]; intros H;
    [..|injection H as <- <-; cbn; auto 6];
    mapped H acc Ha; cbn [fst snd];
    (split; [done|]); auto; left; unfold session_bytes, len; rewrite ?length_app, ?array_length; try done.
  apply serve_upload_small in Ha. unfold len in Ha. cbn [length]. lia.
Qed.

(** A ping is answered with its own body, which came in a frame. *)
Lemma ping_fits body f b :
  TransportFrame.decode body = Ok f → TransportFrame.kind f = FrameType.Ping → TransportFrame.body f = b →
  ∃ bs, TransportFrame.encode (reply_frame (TransportFrame.client_message_id f) (FrameType.Pong, b)) = Ok bs.
Proof.
  intros Hd Hk Hb. apply frame_decode_Ok in Hd as (Hl & c & Hd).
  apply frame_canonical_body in Hd as (-> & Hv & Httl).
  exists (frame_bytes (reply_frame (TransportFrame.client_message_id f) (FrameType.Pong, b))).
  apply frame_encode_Ok. split; [done|]. split; [done|].
  eapply Z.le_trans; [|exact Hl]. unfold frame_bytes, len. rewrite !length_app, !array_length.
  cbn [reply_frame TransportFrame.version TransportFrame.kind TransportFrame.client_message_id
    TransportFrame.ttl_seconds TransportFrame.body fst snd]. rewrite Hb, Hv, Hk.
  pose proof (head_bytes_length 0 (TransportFrame.ttl_seconds f)).
  change (length (Encoder.head_bytes 0 0)) with 1%nat.
  change (length (Encoder.head_bytes 0 (FrameType.as_u64 FrameType.Pong))) with 1%nat.
  change (length (Encoder.head_bytes 0 (FrameType.as_u64 FrameType.Ping))) with 1%nat. lia.
Qed.

Lemma decode_body_fits body f : TransportFrame.decode body = Ok f → fits (TransportFrame.body f).
Proof.
  intros (Hl & c & Hd)%frame_decode_Ok. apply frame_canonical_body in Hd as (-> & _ & _).
  unfold len, fits, MAX_FRAME_SIZE, i64_max, frame_bytes in *. rewrite !length_app in Hl. lia.
Qed.

(** What is answered was a call. *)
Lemma dispatch_makes_call env body f w g w' :
  TransportFrame.decode body = Ok f → dispatch env f w = (Ok g, w') → ∃ c, makes c f.
Proof.
  intros Hd H. pose proof (decode_body_fits _ _ Hd) as Hf.
  destruct (decide (TransportFrame.kind f = FrameType.AuthChallenge)) as [Hk|Hk].
  - destruct (challenge_cases env f w Hf Hk) as [(e & He & _)|[Hc|(y & ex & _ & _ & _ & Hr)]].
    + by rewrite H in He.
    + done.
    + rewrite H in Hr. unfold api_bind in Hr. destruct (begin_challenge _ _ _ _ _) as [[?|?] ?]; done.
  - destruct (handle_cases env f w Hk) as [Hr%dispatch_refuses|Hc]; [|done].
    destruct Hr as (e & He & _). by rewrite H in He.
Qed.

(** A dispatched reply: a frame of a call. *)
Lemma dispatch_reply env body f w g w' :
  TransportFrame.decode body = Ok f → dispatch env f w = (Ok g, w') →
  ∃ reply, g = reply_frame (TransportFrame.client_message_id f) reply ∧ fst reply ≠ FrameType.Error
    ∧ (TransportFrame.encode g = Err Error.TooLarge →
       TransportFrame.kind f = FrameType.SyncRequest
       ∨ TransportFrame.kind f = FrameType.RelayDirectoryRequest).
Proof.
  intros Hd H. pose proof (decode_body_fits _ _ Hd) as Hf.
  destruct (dispatch_makes_call env body f w g w' Hd H) as [c Hc].
  rewrite (dispatch_makes env c f w Hc Hf) in H. destruct Hc as (_ & Hk & Hb).
  apply api_map_Ok in H as (reply & Hs & ->). apply serve_reply in Hs as [He Hl].
  exists reply. split_and!; [done..|]. destruct reply as [k b]. cbn [fst snd] in *. rewrite Hk.
  intros Hbig. destruct Hl as [Hl|[?|[?|[-> ->]]]]; auto.
  - destruct (frame_fits (TransportFrame.client_message_id f) k b) as (bs & Hok & _);
      [unfold MAX_FRAME_SIZE; lia|congruence].
  - destruct (ping_fits body f b Hd Hk Hb) as (bs & Hok). congruence.
Qed.

(** Every request is answered with a frame that carries its message id (the
    zero id when the request is no frame): an error frame with a status other
    than 200 or a reply with status 200.  The one exception is a reply that
    exceeds 64 KiB, which only a synchronisation or a recovery request can
    have: it is sent as an empty body with status 200.  The request counter
    advances by one, the error counter exactly on error responses. *)
Theorem responses_are_frames x body long_poll app :
  let '(r, app') := handle_binary x body long_poll app in
  ((∃ g, TransportFrame.decode (Response.body r) = Ok g
      ∧ TransportFrame.client_message_id g = request_id body
      ∧ (TransportFrame.kind g = FrameType.Error ↔ Response.status r ≠ StatusCode.OK))
   ∨ (Response.status r = StatusCode.OK ∧ Response.body r = []
      ∧ ∃ f reply, TransportFrame.decode body = Ok f
          ∧ (TransportFrame.kind f = FrameType.SyncRequest
             ∨ TransportFrame.kind f = FrameType.RelayDirectoryRequest)
          ∧ TransportFrame.encode (reply_frame (request_id body) reply) = Err Error.TooLarge))
  ∧ App.requests app' = as_u64 (App.requests app + 1)
  ∧ App.errors app' = if bool_decide (Response.status r = StatusCode.OK)
                      then App.errors app else as_u64 (App.errors app + 1).
Proof.
  pose proof (handle_binary_cases x body long_poll app) as H.
  destruct (handle_binary _ _ _ _) as [r app']. destruct H as (Hn & H). split; [|split; [done|]].
  - destruct H as [(st & co & -> & Hs & _)|(f & env & w & g & w' & Hd & Hg & -> & _)].
    + destruct (error_response_frame st (request_id body) co) as [Hr He]. left.
      eexists. split; [exact He|]. rewrite Hr. done.
    + destruct (dispatch_reply env body f w g w' Hd Hg) as (reply & -> & Hk & Hbig).
      unfold request_id. rewrite Hd.
      destruct (cbor_response_frame (TransportFrame.client_message_id f) reply) as [Hok|[Hb Hl]];
        [left|right].
      * eexists. split; [exact Hok|]. done.
      * split_and!; [done..|]. exists f, reply. auto.
  - destruct H as [(st & co & -> & Hs & ->)|(f & env & w & g & w' & Hd & Hg & -> & ->)]; cbn.
    + by rewrite bool_decide_eq_false_2.
    + done.
Qed.
End Responses.

(** ** Histories of a server *)

(** What other requests may do to the database: keep its invariants. *)
Definition harmless `{C : Crypto} (f : Backend → Backend) : Prop :=
  ∀ P, Invariant P → ∀ w, keeps P w (f w).

(** A server since its start on an empty database: the responses it gave, in
    order, under any failures of statements, with maintenance in between. *)
Inductive history `{C : Crypto} `{U : Unicode} : list Response.t → App.t → Prop :=
| history_start fl : history [] (App.Make (quiet Db.empty fl) 0 0)
| history_request rs app x body long_poll fl r app' :
    history rs app → harmless (meanwhile x) →
    handle_binary x body long_poll (with_backend app (with_faults fl (App.backend app))) = (r, app') →
    history (rs ++ [r]) app'
| history_maintenance rs app m fl :
    history rs app →
    history rs (with_backend app (perform m (with_faults fl (App.backend app)))).

Section Histories.
Context `{C : Crypto} `{U : Unicode}.

Lemma handle_binary_keeps P `{!Invariant P} x body long_poll app :
  harmless (meanwhile x) →
  keeps P (App.backend app) (App.backend (handle_binary x body long_poll app).2).
Proof.
  intros Hm. unfold handle_binary, refused, rejected.
  destruct (TransportFrame.decode body) as [f|e]; [|apply keeps_refl].
  pose proof (rate_limit_keeps P (rate_now x) (rate_scope f) 120 60 (App.backend app)) as H1.
  cbn [App.backend]. destruct (check_rate_limit _ _ _ _ _) as [[u|e] w]; [|done].
  destruct (long_poll && _); [done|].
  pose proof (dispatch_keeps P (first_env x) f w) as H2. cbn [App.backend with_backend].
  destruct (dispatch (first_env x) f w) as [[g|e] w1]; [|destruct (map_error e); by eapply keeps_trans].
  destruct (empty_page g && _); [|by eapply keeps_trans].
  pose proof (dispatch_keeps P (retry_env x) f (meanwhile x w1)) as H3.
  pose proof (Hm P _ w1) as H4.
  destruct (dispatch (retry_env x) f _) as [[g'|e] w2]; [|destruct (map_error e)];
    cbn [snd App.backend with_backend]; eauto using keeps_trans.
Qed.

Lemma sound_keeps w w' : (∀ P, Invariant P → keeps P w w') → sound w → sound w'.
Proof.
  intros H (Hc & Hk & Hr & Hg).
  destruct (H _ wf_keys_invariant (conj Hc Hk)) as [Hc' Hk'].
  destruct (H _ wf_refs_invariant (conj Hc Hr)) as [_ Hr'].
  destruct (H _ wf_ranges_invariant (conj Hc Hg)) as [_ Hg'].
  by split_and!.
Qed.


(** A success is the reply of a dispatch on a well-formed database, which left
    the database as it is after the request. *)
Lemma handle_binary_dispatched x body long_poll app :
  harmless (meanwhile x) → sound (App.backend app) →
  let '(r, app') := handle_binary x body long_poll app in
  StatusCode.is_success (Response.status r) = true →
  ∃ f env w g, TransportFrame.decode body = Ok f ∧ sound w
    ∧ dispatch env f w = (Ok g, App.backend app') ∧ r = cbor_response StatusCode.OK g.
Proof.
  intros Hm Hs. unfold handle_binary, refused, rejected.
  destruct (TransportFrame.decode body) as [f|e]; [|done]. cbn [App.backend].
  assert (H1 : sound (check_rate_limit (rate_now x) (rate_scope f) 120 60 (App.backend app)).2).
  { revert Hs. apply sound_keeps. intros P HP. apply (rate_limit_keeps P). }
  destruct (check_rate_limit _ _ _ _ _) as [[u|e] w]; [|done]. cbn [snd App.backend with_backend] in *.
  destruct (long_poll && _); [done|].
  assert (H2 : sound (dispatch (first_env x) f w).2).
  { revert H1. apply sound_keeps. intros P HP. apply (dispatch_keeps P). }
  destruct (dispatch (first_env x) f w) as [[g|e] w1] eqn:E1; [|by destruct e].
  destruct (empty_page g && _); [|intros _; by exists f, (first_env x), w, g].
  assert (H3 : sound (meanwhile x w1)).
  { revert H2. apply sound_keeps. intros P HP. by apply Hm. }
  destruct (dispatch (retry_env x) f _) as [[g'|e] w2] eqn:E2; [|by destruct e].
  intros _. by exists f, (retry_env x), (meanwhile x w1), g'.
Qed.

Definition is_error (r : Response.t) : bool := negb (bool_decide (Response.status r = StatusCode.OK)).

Lemma error_is_error status i code :
  status ≠ StatusCode.OK → is_error (error_response status i code) = true.
Proof. intros H. unfold is_error, error_response, cbor_response. by rewrite bool_decide_eq_false_2. Qed.

Lemma as_u64_succ z : as_u64 (as_u64 z + 1) = as_u64 (z + 1).
Proof. unfold as_u64, wrap. by rewrite Zplus_mod_idemp_l. Qed.

(** C16: The server keeps its database well-formed for ever: after any number of
    requests, well-formed or not, long polls interleaved with other requests,
    maintenance and failing statements, no transaction is left open and the
    database satisfies its keys, references and ranges; and the two counters
    are, modulo 2^64, the numbers of requests and of error responses. *)
Theorem server_history rs app :
  history rs app →
  sound (App.backend app)
  ∧ App.requests app = as_u64 (Z.of_nat (length rs))
  ∧ App.errors app = as_u64 (Z.of_nat (length (List.filter is_error rs))).
Proof.
  induction 1 as [fl|rs app x body lp fl r app' Hh (Hs & Hn & He) Hm Hr|rs app m fl Hh (Hs & Hn & He)].
  - split; [split; [done|apply empty_wf]|done].
  - pose proof (handle_binary_cases x body lp (with_backend app (with_faults fl (App.backend app)))) as Hc.
    pose proof (λ P (HP : Invariant P), handle_binary_keeps P x body lp (with_backend app (with_faults fl (App.backend app))) Hm) as Hk.
    rewrite Hr in Hc, Hk. cbn [snd App.requests App.errors App.backend with_backend] in *. split; [|split].
    + apply (sound_keeps (with_faults fl (App.backend app))); [intros P HP; by apply Hk|].
      revert Hs. apply sound_keeps. intros P _. apply with_faults_keeps.
    + destruct Hc as [-> _]. rewrite Hn, as_u64_succ, length_app. cbn [length]. f_equal. lia.
    + rewrite List.filter_app, length_app.
      destruct Hc as [_ [(st & co & -> & Hst & ->)|(f & env & w & g & w' & _ & _ & -> & ->)]].
      * rewrite He, as_u64_succ. cbn [List.filter]. rewrite error_is_error by done. cbn [length].
        f_equal. lia.
      * cbn. by rewrite Nat.add_0_r.
  - cbn [App.backend with_backend App.requests App.errors]. split; [|done].
    apply (request_sound m). revert Hs. apply sound_keeps. intros P _. apply with_faults_keeps.
Qed.
End Histories.

(** ** Long polls *)

Section LongPoll.
Context `{C : Crypto}.

(** The page a member gets from [sync_group] or [sync_global], as a reply. *)
Definition page_reply (operation : Z) (events : list SyncEvent.t) : Reply :=
  (FrameType.SyncBatch, z2b operation :: batch_bytes sync_event_bytes events).

Lemma empty_page_reply i operation events :
  (operation = 0 ∨ operation = 1) → (length events ≤ 50)%nat →
  empty_page (reply_frame i (page_reply operation events)) = bool_decide (events = []).
Proof.
  intros Ho Hl. unfold empty_page, page_reply, batch_bytes. cbn [reply_frame TransportFrame.kind TransportFrame.body fst snd].
  rewrite bool_decide_eq_true_2 by done. rewrite !b2z_z2b_small by lia.
  destruct events as [|e events]; [|rewrite bool_decide_eq_false_2 by done].
  - by destruct Ho as [-> | ->].
  - by destruct Ho as [-> | ->].
Qed.

Lemma pg_transaction_Ok_body {A} (body : stmt (outcome A)) w a w' :
  pg_transaction body w = (Ok a, w') →
  ∃ d fl o, (body d fl).1.1 = Ok o ∧ (o = Commit (Ok a) ∨ o = Drop (Ok a)).
Proof.
  unfold pg_transaction, begin_, autocommit. destruct (_ || _); [done|].
  cbn [current committed in_tx faults]. intros H.
  destruct (body (current w) (tail (faults w))) as [[[[r|r]|e] d1] fl1] eqn:E; [| |done].
  - exists (current w), (tail (faults w)), (Commit r). rewrite E. split; [done|left].
    unfold commit in H. destruct (default false _); [done|]. by injection H as ->.
  - exists (current w), (tail (faults w)), (Drop r). rewrite E. split; [done|right].
    by injection H as ->.
Qed.

Lemma sync_group_length now x g after limit w l w' :
  sync_group now x g after limit w = (Ok l, w') → (length l ≤ 50)%nat.
Proof.
  intros (d & fl & o & Hb & Ho)%pg_transaction_Ok_body. revert Hb.
  unfold sync_group_body, assert_active_member, mbind, dbm_bind, query, dlift.
  destruct (default false (head fl)); [done|]. destruct (ensure _ _); [|done].
  destruct (default false (head (tail fl))); [done|]. cbn. intros [= <-].
  destruct Ho as [[= <-]|[=]]. rewrite length_fmap, length_take. unfold clamp, MAX_SYNC_BATCH. lia.
Qed.

(** The page a token's device gets. *)
Definition group_page (env : Env) (t : array 32) (g : Id) (after limit : Z) : api (list SyncEvent.t) :=
  api_bind (authenticate_access (auth_now env) t) (λ x, sync_group (op_now env) x g (as_i64 after) limit).

Lemma answer_page env i t g after limit w :
  answer env i (Call.Sync t (Sync.Group g after limit)) w
  = api_map (λ l, reply_frame i (page_reply 0 l)) (group_page env t g after limit) w.
Proof.
  unfold answer, group_page, serve, serve_sync, api_map, api_bind.
  destruct (authenticate_access _ _ _) as [[x|e] w1]; [|done]. by destruct (sync_group _ _ _ _ _ _) as [[l|e] w2].
Qed.

Lemma group_page_length env t g after limit w l w' :
  group_page env t g after limit w = (Ok l, w') → (length l ≤ 50)%nat.
Proof. intros (x & w1 & _ & H)%api_bind_Ok. by apply sync_group_length in H. Qed.

Lemma sync_global_length now x after limit w l w' :
  sync_global now x after limit w = (Ok l, w') → (length l ≤ 50)%nat.
Proof.
  unfold sync_global, autocommit, mbind, dbm_bind, query.
  destruct (default false (head (faults w))); [done|]. cbn. intros [= <- _].
  rewrite length_fmap, length_take. unfold clamp, MAX_SYNC_BATCH. lia.
Qed.

(** The events of a page, as the backend gives them. *)
Definition page_events (env : Env) (x : Id) (s : Sync.t) : api (list SyncEvent.t) :=
  match s with
  | Sync.Group g after limit => sync_group (op_now env) x g (as_i64 after) limit
  | Sync.Global after limit => sync_global (op_now env) x (as_i64 after) limit
  | _ => λ w, (Err InvalidInput, w)
  end.

(** A page of events reads back.  A page that fits a frame answers the
    operation that was asked, and a client that reads it item by item gets
    exactly the events the backend selected, in order. *)
Theorem sync_page_roundtrip env message_id t s w reply w' :
  Sync.code s = 0 ∨ Sync.code s = 1 →
  answer env message_id (Call.Sync t s) w = (Ok reply, w') →
  len (TransportFrame.body reply) ≤ MAX_FRAME_SIZE →
  ∃ x w0 events, authenticate_access (auth_now env) t w = (Ok x, w0)
    ∧ page_events env x s w0 = (Ok events, w')
    ∧ (Forall sync_event_typed events →
       run_parser read_page (TransportFrame.body reply) = Ok (Sync.code s, events)).
Proof.
  intros Hc (r & Hr & ->)%api_map_Ok Hl. cbn [serve] in Hr.
  apply api_bind_Ok in Hr as (x & w0 & Ha & Hr). apply api_map_Ok in Hr as (b & Hr & ->).
  exists x, w0.
  assert (∃ events, b = batch_bytes sync_event_bytes events
    ∧ page_events env x s w0 = (Ok events, w') ∧ (length events ≤ 50)%nat) as (events & -> & Hp & Hn).
  { destruct s; cbn [Sync.code] in Hc; try (exfalso; lia); cbn [serve_sync] in Hr;
      apply api_map_Ok in Hr as (events & Hr & ->); exists events; split_and!; try done;
      [by eapply sync_group_length|by eapply sync_global_length]. }
  exists events. split_and!; [done..|]. intros Ht. cbn [TransportFrame.body reply_frame snd] in *.
  unfold MAX_FRAME_SIZE, len in Hl.
  apply read_page_bytes; [unfold in_u; lia|lia|done|unfold fits, i64_max; lia].
Qed.

(** A long poll misses nothing.  When the first page of a group is empty and
    the listener is subscribed, the poll waits and then answers with the page of
    the database as it is after the wait, so an event that was committed in
    between and is visible is in the answer; when the first page has events it
    is answered at once.  Only synchronisation requests may be polled. *)
Theorem long_poll_fresh x body app f t g after limit :
  TransportFrame.decode body = Ok f →
  (check_rate_limit (rate_now x) (rate_scope f) 120 60 (App.backend app)).1 = Ok tt →
  let id := TransportFrame.client_message_id f in
  let w := (check_rate_limit (rate_now x) (rate_scope f) 120 60 (App.backend app)).2 in
  let r := (binary_long_poll x body app).1 in
  (TransportFrame.kind f ≠ FrameType.SyncRequest →
   r = error_response StatusCode.BAD_REQUEST id ErrorCode.Malformed)
  ∧ ∀ events w1, makes (Call.Sync t (Sync.Group g after limit)) f →
      group_page (first_env x) t g after limit w = (Ok events, w1) →
      r = if bool_decide (events = []) && listening x then
            match (group_page (retry_env x) t g after limit (meanwhile x w1)).1 with
            | Ok later => cbor_response StatusCode.OK (reply_frame id (page_reply 0 later))
            | Err e => error_response (map_error e).1 id (map_error e).2
            end
          else cbor_response StatusCode.OK (reply_frame id (page_reply 0 events)).
Proof.
  intros Hd Hl id w r. subst r w id. unfold binary_long_poll, handle_binary. rewrite Hd.
  cbn [App.backend]. destruct (check_rate_limit _ _ _ _ _) as [u w]. cbn [fst snd] in *. subst u.
  split.
  - intros Hk. rewrite bool_decide_eq_false_2 by done. done.
  - intros events w1 Hm Hp. rewrite bool_decide_eq_true_2 by apply Hm. cbn [andb negb App.backend with_backend].
    assert (Hf := decode_body_fits _ _ Hd).
    rewrite (dispatch_makes _ _ f _ Hm Hf), answer_page. unfold api_map at 1, api_bind at 1. rewrite Hp.
    rewrite empty_page_reply; [|by left|by eapply group_page_length].
    destruct (bool_decide (events = []) && listening x); [|done].
    rewrite (dispatch_makes _ _ f _ Hm Hf), answer_page. unfold refused, rejected, api_map, api_bind.
    destruct (group_page (retry_env x) _ _ _ _ _) as [[later|e] w2]; [done|]. cbn. by destruct (map_error e).
Qed.
End LongPoll.

(** ** Replies that do not fit *)

Definition consumed_welcome (i : Id) (d : Db.t) : Prop :=
  ∃ w, w ∈ welcome_mailbox d ∧ Welcome.welcome_id w = i ∧ Welcome.consumed_at w ≠ None.

#[export] Instance consumed_welcome_invariant i : Invariant (consumed_welcome i).
Proof.
  solve_frame.
  - by apply snoc_keeps.
  - apply update_where_keeps; [|done]. by intros w [? _].
Qed.

Section Welcomes.
Context `{C : Crypto} `{U : Unicode}.

Definition consume_welcomes (now : Z) (rows : list Welcome.t) (t : list Welcome.t) : list Welcome.t :=
  foldl (λ t w, update_where (welcome_is (Welcome.welcome_id w)) (Welcome.set_consumed now) t) t rows.

Lemma consume_all_run now rows d :
  run (dfold (λ _ w, _ ← exec (consume_welcome (Welcome.welcome_id w) now); mret tt) tt rows) d
  = (Ok tt, set_welcome_mailbox (consume_welcomes now rows (welcome_mailbox d)) d).
Proof.
  revert d. induction rows as [|w rows IH]; intros d; cbn [dfold].
  - by destruct d.
  - rewrite (run_bind ApiError.Database) by apply _. run_next. cbn. rewrite IH. done.
Qed.

Lemma consume_welcomes_elem now rows t u :
  u ∈ t → u ∈ rows →
  ∃ u', u' ∈ consume_welcomes now rows t ∧ Welcome.welcome_id u' = Welcome.welcome_id u
    ∧ Welcome.consumed_at u' ≠ None.
Proof.
  assert (Hkeep : ∀ rows t i, (∃ u', u' ∈ t ∧ Welcome.welcome_id u' = i ∧ Welcome.consumed_at u' ≠ None) →
    ∃ u', u' ∈ consume_welcomes now rows t ∧ Welcome.welcome_id u' = i ∧ Welcome.consumed_at u' ≠ None).
  { clear. induction rows as [|w rows IH]; intros t i H; [done|]. apply IH.
    apply update_where_keeps; [|done]. by intros u [? _]. }
  revert t. induction rows as [|w rows IH]; intros t Ht Hr; [by apply not_elem_of_nil in Hr|].
  apply elem_of_cons in Hr as [<-|Hr].
  - apply (Hkeep rows). exists (Welcome.set_consumed now u). split; [|done]. apply elem_of_update.
    exists u. by rewrite (proj2 (welcome_keyed _ u)).
  - cbn. destruct (welcome_is (Welcome.welcome_id w) u) eqn:Hu.
    + apply (Hkeep rows). exists (Welcome.set_consumed now u). split; [|done]. apply elem_of_update.
      exists u. by rewrite Hu.
    + apply IH; [|done]. apply elem_of_update. exists u. by rewrite Hu.
Qed.

Lemma fetch_welcomes_run_Ok now x limit d o d' :
  run (fetch_welcomes_body now x limit) d = (Ok o, d') →
  ∃ rows, o = Commit (Ok ((λ w, (Welcome.welcome_id w, Welcome.group_id w, Welcome.welcome w)) <$> rows))
    ∧ (∀ w, w ∈ rows → w ∈ welcome_mailbox d ∧ pending_welcome x now w = true)
    ∧ d' = set_welcome_mailbox (consume_welcomes now rows (welcome_mailbox d)) d.
Proof.
  unfold fetch_welcomes_body. intros H. api_inv H. injection Ha as Ha.
  apply (run_bind_Ok ApiError.Database) in H as (u & d1 & H1 & H); [|apply faithful_dfold; intros; apply _].
  rewrite consume_all_run in H1. injection H1 as <- <-. injection H as <- <-.
  exists a. split_and!; [done| |done]. intros w Hw. subst a.
  apply elem_of_take in Hw as (i & Hi & _). apply list_elem_of_lookup_2 in Hi.
  rewrite stable_sort_perm in Hi. by apply elem_of_select in Hi.
Qed.

Definition handed_out (w : Welcome.t) : Id * Id * bytes :=
  (Welcome.welcome_id w, Welcome.group_id w, Welcome.welcome w).

Lemma fetch_welcomes_Ok now x limit w l w' :
  clean w → fetch_welcomes now x limit w = (Ok l, w') →
  ∃ rows, l = handed_out <$> rows
    ∧ (∀ u, u ∈ rows → u ∈ welcome_mailbox (current w) ∧ pending_welcome x now u = true)
    ∧ current w' = set_welcome_mailbox (consume_welcomes now rows (welcome_mailbox (current w))) (current w).
Proof.
  intros Hw H. apply transaction_committed in H as (_ & H); [|apply _|done|]; last first.
  { intros d a E%fetch_welcomes_run_Ok. by destruct E as (? & ? & _). }
  apply fetch_welcomes_run_Ok in H as (rows & [= ->] & H). eauto.
Qed.

(** Welcomes are handed out once. *)
Lemma fetched_welcomes_consumed now x limit w l w' :
  sound w → fetch_welcomes now x limit w = (Ok l, w') →
  ∃ rows, l = handed_out <$> rows ∧ ∀ u, u ∈ rows →
    u ∈ welcome_mailbox (current w) ∧ Welcome.consumed_at u = None
    ∧ ∀ w2, steps w' w2 → ∀ now' y limit' l' w3, fetch_welcomes now' y limit' w2 = (Ok l', w3) →
        Welcome.welcome_id u ∉ ((λ i, fst (fst i)) <$> l').
Proof.
  intros Hs H. pose proof (request_sound (Request.FetchWelcomes now x limit) w Hs) as Hs1.
  cbn [perform] in Hs1. rewrite H in Hs1. cbn [snd] in Hs1.
  apply fetch_welcomes_Ok in H as (rows & -> & Hrows & Hc); [|apply Hs]. exists rows. split; [done|].
  intros u Hu. destruct (Hrows u Hu) as [Hin Hp]. split; [done|].
  apply andb_true_iff in Hp as [[_ Hp]%andb_true_iff _]. split; [by destruct (Welcome.consumed_at u)|].
  intros w2 Hst now' y limit' l' w3 H2.
  assert (Hcons : consumed_welcome (Welcome.welcome_id u) (current w')).
  { rewrite Hc. by apply consume_welcomes_elem. }
  destruct (steps_keep _ _ _ Hst (conj (proj1 Hs1) Hcons)) as [Hc2 (u2 & Hu2 & Hi & Hne)].
  pose proof (requests_sound _ _ Hst Hs1) as (_ & Hkeys & _).
  apply fetch_welcomes_Ok in H2 as (rows' & -> & Hrows' & _); [|done].
  rewrite <- list_fmap_compose, list_elem_of_fmap. intros (u3 & Hid & Hu3). cbn in Hid.
  destruct (Hrows' u3 Hu3) as [Hin3 Hp3].
  assert (u3 = u2) as -> by (apply (NoDup_key_inj Welcome.welcome_id (welcome_mailbox (current w2)));
    [apply Hkeys|done|done|congruence]).
  apply andb_true_iff in Hp3 as [[_ Hp3]%andb_true_iff _]. by destruct (Welcome.consumed_at u2).
Qed.

(** An empty body is a dispatched reply that did not fit. *)
Lemma empty_body_dispatched x body app f :
  TransportFrame.decode body = Ok f →
  let '(r, app') := handle_binary x body false app in
  Response.body r = [] →
  ∃ u w1 g w2, check_rate_limit (rate_now x) (rate_scope f) 120 60 (App.backend app) = (Ok u, w1)
    ∧ dispatch (first_env x) f w1 = (Ok g, w2) ∧ App.backend app' = w2
    ∧ (∃ e, TransportFrame.encode g = Err e).
Proof.
  intros Hd. unfold handle_binary. rewrite Hd. cbn [andb App.backend].
  assert (He : ∀ st i co, Response.body (error_response st i co) ≠ []).
  { intros st i co Hb. pose proof (proj2 (error_response_frame st i co)) as H. by rewrite Hb in H. }
  destruct (check_rate_limit _ _ _ _ _) as [[u|e] w1]; [|by intros ?%He].
  cbn [App.backend with_backend]. destruct (dispatch (first_env x) f w1) as [[g|e] w2] eqn:E.
  - rewrite andb_false_r. intros Hb. exists u, w1, g, w2. split_and!; [done..|].
    unfold cbor_response in Hb. cbn in Hb. destruct (TransportFrame.encode g) eqn:Eg; [|eauto]. subst.
    apply frame_encode_Ok in Eg as (Hnil & _). destruct (frame_length g) as [Hl _].
    rewrite <- Hnil in Hl. cbn in Hl. lia.
  - unfold refused. destruct (map_error e). by intros ?%He.
Qed.

Lemma rate_limit_mailbox now s n m w :
  welcome_mailbox (current (check_rate_limit now s n m w).2) = welcome_mailbox (current w).
Proof.
  unfold check_rate_limit. case_match; [done|]. rewrite (proj2 (autocommit_current _ _)).
  unfold mbind, dbm_bind, execute. destruct (default false _); [done|].
  destruct (bump_counter s m now (current w)) as [[k d]|e] eqn:E; [|done]. unfold bump_counter in E.
  cbn. repeat case_match; try done; by injection E as _ <-.
Qed.

(** The payload of a batch of welcomes. *)
Definition welcomes_size (l : list (Id * Id * bytes)) : Z := len (concat (welcome_bytes <$> l)).

(** A batch of welcomes that does not fit a frame is lost.  When the server
    answers a request for welcomes with the empty body of an oversized reply,
    it has marked the welcomes of that batch as consumed: they were pending
    before, and whatever requests follow, none of them is ever handed out
    again. *)
Theorem oversized_welcomes_lost x body app f t limit :
  sound (App.backend app) → TransportFrame.decode body = Ok f →
  makes (Call.Sync t (Sync.FetchWelcomes limit)) f →
  let '(r, app') := handle_binary x body false app in
  Response.body r = [] →
  ∃ lost : list Welcome.t, lost ≠ []
  ∧ MAX_FRAME_SIZE - 64 < welcomes_size
      (handed_out <$> lost)
  ∧ ∀ w, w ∈ lost →
      w ∈ welcome_mailbox (current (App.backend app)) ∧ Welcome.consumed_at w = None
      ∧ ∀ w2, steps (App.backend app') w2 →
          ∀ now y limit' l w3, fetch_welcomes now y limit' w2 = (Ok l, w3) →
            Welcome.welcome_id w ∉ ((λ i, fst (fst i)) <$> l).
Proof.
  intros Hs Hd Hm. pose proof (empty_body_dispatched x body app f Hd) as H.
  destruct (handle_binary x body false app) as [r app']. intros Hb.
  destruct (H Hb) as (u & w1 & g & w2 & Hl & Hg & -> & He & Hge). clear H.
  assert (Hs1 : sound w1).
  { pose proof (request_sound (Request.RateLimit (rate_now x) (rate_scope f) 120 60) _ Hs) as H.
    cbn [perform] in H. by rewrite Hl in H. }
  pose proof (rate_limit_mailbox (rate_now x) (rate_scope f) 120 60 (App.backend app)) as Hmb.
  rewrite Hl in Hmb. cbn [snd] in Hmb.
  rewrite (dispatch_makes _ _ f _ Hm (decode_body_fits _ _ Hd)) in Hg.
  apply api_map_Ok in Hg as (reply & Hr & ->).
  cbn [serve serve_sync] in Hr. apply api_bind_Ok in Hr as (y & w0 & Ha & Hr).
  apply api_map_Ok in Hr as (b & Hr & ->). apply api_map_Ok in Hr as (l & Hr & ->).
  assert (Hs0 : sound w0).
  { pose proof (request_sound (Request.Authenticate (auth_now (first_env x)) t) _ Hs1) as H.
    cbn [perform] in H. by rewrite Ha in H. }
  pose proof (authenticate_reads (auth_now (first_env x)) t w1) as Hcur. rewrite Ha in Hcur. cbn [snd] in Hcur.
  destruct (fetched_welcomes_consumed _ _ _ _ _ _ Hs0 Hr) as (rows & -> & Hrows).
  assert (Hsize : MAX_FRAME_SIZE - 64 < welcomes_size (handed_out <$> rows)).
  { destruct (Z.ltb_spec (MAX_FRAME_SIZE - 64) (welcomes_size (handed_out <$> rows))) as [|Hsmall]; [done|].
    edestruct frame_fits as (bs & Hok & _); [|rewrite Hge in Hok; discriminate Hok].
    unfold batch_bytes, welcomes_size, len in *. cbn [length]. lia. }
  exists rows. rewrite Hcur, Hmb in Hrows. split_and!; [|done|done]. by intros ->.
Qed.
End Welcomes.

(** ** Witnesses *)

Section Witnesses.
Import Sample.

Definition idle : Exchange := MakeExchange 500 env env true (λ w, w).
Lemma idle_harmless w0 w1 b (f := MakeExchange 500 w0 w1 b (λ w, w)) : harmless (meanwhile f).
Proof. intros P HP w. apply keeps_refl. Qed.

(** While a poll waits, the administrator's device uploads an event. *)
Definition busy : Exchange := MakeExchange 500 env env true
  (perform (Request.UploadEvent 503 (message 1))).
Definition polling : App.t := App.Make session 0 0.
Definition first_poll : result ApiError.t (list SyncEvent.t) * Backend :=
  group_page (first_env busy) token Demo.group 0 10
    (check_rate_limit (rate_now busy) (rate_scope page_frame) 120 60 (App.backend polling)).2.

Lemma first_poll_eq :
  group_page (first_env busy) token Demo.group 0 10
    (check_rate_limit (rate_now busy) (rate_scope page_frame) 120 60 (App.backend polling)).2
  = (Ok [], first_poll.2).
Proof. unfold first_poll. apply pair_of. vm_compute. reflexivity. Qed.
#[local] Opaque first_poll.

Lemma page_decodes : TransportFrame.decode (encoded page_frame) = Ok page_frame.
Proof. vm_compute. reflexivity. Qed.
Lemma first_poll_counted :
  (check_rate_limit (rate_now busy) (rate_scope page_frame) 120 60 (App.backend polling)).1 = Ok tt.
Proof. vm_compute. reflexivity. Qed.

Lemma long_poll_fresh_witness :
  ∃ events, events ≠ []
    ∧ (binary_long_poll busy (encoded page_frame) polling).1
      = cbor_response StatusCode.OK (reply_frame (fill 16 111) (page_reply 0 events)).
Proof.
  exists [SyncEvent.Make 1 (fill 16 1) 1 [z2b 1]]. split; [discriminate|].
  etransitivity.
  - apply (proj2 (long_poll_fresh busy (encoded page_frame) polling page_frame token Demo.group 0 10
      page_decodes first_poll_counted) [] first_poll.2 page_made first_poll_eq).
  - vm_compute. reflexivity.
Defined.

Definition page_reply_frame : TransportFrame.t :=
  reply_frame (fill 16 111) (page_reply 0 [SyncEvent.Make 1 (fill 16 1) 1 [z2b 1]]).
Definition after_upload : Backend := perform (Request.UploadEvent 10 (message 1)) session.

Definition answered_page : result ApiError.t TransportFrame.t * Backend :=
  answer env (fill 16 111) page after_upload.
Definition recognised : result ApiError.t Id * Backend :=
  authenticate_access (auth_now env) token after_upload.
Lemma answered_page_eq :
  answer env (fill 16 111) page after_upload = (Ok page_reply_frame, answered_page.2).
Proof. unfold answered_page. apply pair_of. vm_compute. reflexivity. Qed.
Lemma recognised_eq :
  authenticate_access (auth_now env) token after_upload = (Ok Demo.admin_device, recognised.2).
Proof. unfold recognised. apply pair_of. vm_compute. reflexivity. Qed.
Lemma uploaded_page :
  (page_events env Demo.admin_device (Sync.Group Demo.group 0 10) recognised.2).1
  = Ok [SyncEvent.Make 1 (fill 16 1) 1 [z2b 1]].
Proof. vm_compute. reflexivity. Qed.
#[local] Opaque answered_page recognised.

Lemma Ok_pair_inj {E A B} (a a' : A) (b b' : B) :
  (@Ok E A a, b) = (Ok a', b') → a = a' ∧ b = b'.
Proof. by intros [= -> ->]. Qed.
Lemma Ok_fst_inj {E A B} (p : result E A * B) a a' b : p = (Ok a, b) → p.1 = Ok a' → a = a'.
Proof. by intros -> [= ->]. Qed.

Lemma sync_page_roundtrip_witness :
  ∃ events, events ≠ []
    ∧ run_parser read_page (TransportFrame.body page_reply_frame) = Ok (0, events).
Proof.
  assert (Hl : len (TransportFrame.body page_reply_frame) ≤ MAX_FRAME_SIZE)
    by (apply Z.leb_le; vm_compute; reflexivity).
  destruct (sync_page_roundtrip env (fill 16 111) token (Sync.Group Demo.group 0 10) after_upload
    page_reply_frame answered_page.2 (or_introl eq_refl) answered_page_eq Hl)
    as (x & w0 & events & H1 & H2 & H3).
  destruct (Ok_pair_inj _ _ _ _ (eq_trans (eq_sym recognised_eq) H1)) as [<- <-].
  assert (He : events = [SyncEvent.Make 1 (fill 16 1) 1 [z2b 1]])
    by exact (Ok_fst_inj _ _ _ _ H2 uploaded_page).
  exists events. rewrite He in *. split; [discriminate|].
  apply H3. apply Forall_cons_2; [|apply Forall_nil_2].
  repeat split; try (apply Z.leb_le; vm_compute; reflexivity); apply Z.ltb_lt; vm_compute; reflexivity.
Defined.

Lemma server_history_witness :
  ∃ r app, history [r] app ∧ sound (App.backend app) ∧ App.errors app = 1.
Proof.
  set (e := handle_binary idle [] false (App.Make (quiet Db.empty []) 0 0)).
  assert (H : history [e.1] e.2).
  { apply (history_request [] (App.Make (quiet Db.empty []) 0 0) idle [] false [] e.1 e.2).
    - constructor.
    - apply idle_harmless.
    - by vm_compute. }
  exists e.1, e.2. split; [exact H|]. destruct (server_history _ _ H) as (Hs & _ & He).
  split; [exact Hs|]. vm_compute. reflexivity.
Defined.

(** Two welcomes of 40000 bytes for the administrator's device. *)
Definition welcome_request (n : Z) : Request.t :=
  Request.UploadWelcome 400 Demo.admin_device Demo.admin_device Demo.group (fill 16 n)
    (replicate (Z.to_nat 40000) (z2b n)).
Definition welcomed : App.t :=
  App.Make (perform (welcome_request 82) (perform (welcome_request 81) session)) 0 0.
Definition welcomes : Call.t := Call.Sync token (Sync.FetchWelcomes 50).
Definition welcomes_frame : TransportFrame.t := Call.frame (fill 16 112) 60 welcomes.

Lemma welcomes_decode : TransportFrame.decode (encoded welcomes_frame) = Ok welcomes_frame.
Proof. vm_compute. reflexivity. Qed.
Lemma welcomes_made : makes welcomes welcomes_frame.
Proof. by vm_compute. Qed.
Lemma welcomed_sound : sound (App.backend welcomed).
Proof. apply request_sound, request_sound, session_sound. Qed.
Lemma welcomes_dropped :
  Response.body (handle_binary idle (encoded welcomes_frame) false welcomed).1 = [].
Proof. vm_compute. reflexivity. Qed.

Lemma oversized_welcomes_lost_witness :
  ∃ lost : list Welcome.t, lost ≠ [] ∧ ∀ w, w ∈ lost → Welcome.consumed_at w = None.
Proof.
  pose proof (oversized_welcomes_lost idle (encoded welcomes_frame) welcomed welcomes_frame token 50
    welcomed_sound welcomes_decode welcomes_made) as H.
  pose proof welcomes_dropped as Hb.
  destruct (handle_binary idle (encoded welcomes_frame) false welcomed) as [r app'].
  destruct (H Hb) as (lost & Hne & _ & Hl).
  exists lost. split; [exact Hne|]. intros w Hw. apply (Hl w Hw).
Defined.
End Witnesses.
