(* ===== verification/Membership.v ===== *)
(** * Membership: who changes the members of a group

    The group_members table of services/core-api decides who may post to a
    group, read it and be handed its Welcomes.  Here: of all that a client can
    send in a frame, two operations change the table, and only for those whom
    the service lets: CREATE_GROUP, which makes its caller the administrator of
    a group that had no members, and an administrator's signed membership
    operation.  [add_group_member] inserts rows without a check; no frame
    reaches it. *)
From Stdlib Require Import ZArith Lia.
From stdpp Require Import base list relations.
From S2P Require Import Prelude Cursor Protocol Crypto Sql Identity CoreDb CoreApi CoreSessions.
From S2P Require Import CoreDelivery Dispatch Service Server.
Import Db.

(** The members stay as they are. *)
Definition members_are (l : list GroupMember.t) (d : Db.t) : Prop := group_members d = l.

#[export] Instance members_are_others l : OtherTables (members_are l).
Proof.
  constructor; try (intros; frame_statement).
  - by intros d n _.
  - intros row _. apply append_event_preserves. intros d n d'.
    unfold next_cursor. destruct (_ <? _); [done|]. intros [= <- <-] Hd.
    split; [done|]. intros m d''. unfold insert_event. by intros (_ & _ & ->)%guarded_Ok.
Qed.

Section Membership.
Context `{C : Crypto} `{U : Unicode}.

(** *** Calls that leave the members alone *)

Lemma keeps_members (w w' : Backend) :
  clean w → keeps (members_are (group_members (current w))) w w' →
  clean w' ∧ group_members (current w') = group_members (current w).
Proof. intros Hc Hk. by apply Hk. Qed.

Section Keeping.
Context (P : Db.t → Prop) `{!OtherTables P}.

Lemma api_bind_keeps {A B} (m : api A) (f : A → api B) w :
  keeps P w (m w).2 → (∀ a w', keeps P w' (f a w').2) → keeps P w (api_bind m f w).2.
Proof.
  intros Hm Hf. unfold api_bind. destruct (m w) as [[a|e] w1]; [|done].
  intros Hw. by apply Hf, Hm.
Qed.
Lemma api_map_keeps {A B} (h : A → B) (m : api A) w :
  keeps P w (m w).2 → keeps P w (api_map h m w).2.
Proof. intros Hm. apply api_bind_keeps; [done|]. by intros a w' Hw. Qed.

Definition changes (c : Call.t) : bool :=
  match c with
  | Call.Upload _ (Upload.CreateGroup _) | Call.Upload _ (Upload.Membership _ _ _ _ _ _) => true
  | _ => false
  end.

Tactic Notation "other" open_constr(r) :=
  match goal with |- keeps _ ?w _ => exact (perform_others P r w eq_refl eq_refl) end.
Lemma sync_group_others now x g after limit w : keeps P w (sync_group now x g after limit w).2.
Proof.
  apply transaction_keeps; [apply _| |intros Q HQ]; unfold sync_group_body; solve_preserves.
Qed.
Lemma direct_others {A} (f : Db.t → result ApiError.t A) (w : Backend) :
  keeps P w (autocommit (query ApiError.Database f) w).2.
Proof. apply direct_keeps. apply _. Qed.

Lemma serve_others env i c w : changes c = false → keeps P w (serve env i c w).2.
Proof.
  intros Hc. destruct c as [a r cert|x|j s|x t s|t u|t s|t l|t l|j|b]; cbn [serve];
    repeat first
      [ apply api_map_keeps
      | apply api_bind_keeps; [other (Request.Authenticate _ _)|intros ? ?] ].
  - other (Request.Register _ _ _).
  - other (Request.BeginChallenge _ _ _ _).
  - other (Request.CompleteChallenge _ _ _ _).
  - other (Request.RotateRefresh _ _ _ _ _).
  - destruct u; cbn [serve_upload]; try discriminate Hc; try apply api_map_keeps.
    + other (Request.UploadEvent _ _).
    + other (Request.PublishKeyPackage _ _ _ _).
    + other (Request.UploadWelcome _ _ _ _ _ _).
    + apply api_bind_keeps; [apply direct_keeps; solve_preserves|intros ? ?]. apply api_map_keeps.
      other (Request.StoreRecovery _ _ _).
  - destruct s; cbn [serve_sync]; apply api_map_keeps.
    + apply sync_group_others.
    + apply direct_keeps. solve_preserves.
    + other (Request.FetchKeyPackage _ _).
    + other (Request.FetchWelcomes _ _ _).
  - other (Request.Receipts _ _ _).
  - other (Request.Receipts _ _ _).
  - apply direct_keeps. solve_preserves.
  - by intros Hw.
Qed.
End Keeping.

(** What a call does to the state does not depend on how its answer is encoded. *)
Lemma api_map_state {A B} (h : A → B) (m : api A) w : (api_map h m w).2 = (m w).2.
Proof. unfold api_map, api_bind. by destruct (m w) as [[a|e] w1]. Qed.
Lemma api_bind_next {A B} (m : api A) (f : A → api B) w a w1 :
  m w = (Ok a, w1) → api_bind m f w = f a w1.
Proof. unfold api_bind. by intros ->. Qed.
Lemma api_bind_stop {A B} (m : api A) (f : A → api B) w e w1 :
  m w = (Err e, w1) → api_bind m f w = (Err e, w1).
Proof. unfold api_bind. by intros ->. Qed.

(** *** The two that change them *)

(** A transaction rolls back or runs its body to a commit. *)
Lemma transaction_members {A} (body : stmt (outcome A)) w :
  Faithful ApiError.Database body → clean w →
  group_members (current (pg_transaction body w).2) = group_members (current w)
  ∨ run body (current w)
    = (Ok (Commit (pg_transaction body w).1), current (pg_transaction body w).2).
Proof.
  intros Hb Hc. pose proof (pg_transaction_atomic body w Hb Hc) as H.
  destruct (pg_transaction body w) as [r w']. cbn. destruct H as [_ [[H _]|H]]; [left|by right].
  exact (f_equal group_members H).
Qed.

(** The caller of a frame: the device of a live session. *)
Definition caller (now : Z) (t : array 32) (x : Id) (d : Db.t) : Prop :=
  (∃ s, s ∈ access_sessions d ∧ AccessSession.token_hash s = access_hash t
     ∧ AccessSession.device_id s = x ∧ now < AccessSession.expires_at s)
  ∧ exists_where (active_device x) (devices d) = true.

Lemma authenticate_caller now t w x w1 :
  clean w → authenticate_access now t w = (Ok x, w1) →
  clean w1 ∧ current w1 = current w ∧ caller now t x (current w).
Proof.
  intros Hc H.
  destruct (autocommit_idle (device ← ask (select_access (access_hash t) now);
    dlift (ok_or device ApiError.InvalidCredentials)) w ltac:(intros; apply _) Hc) as [Hc1 Hcur].
  pose proof (autocommit_current (device ← ask (select_access (access_hash t) now);
    dlift (ok_or device ApiError.InvalidCredentials)) w) as [Hr _].
  fold (authenticate_access now t w) in Hc1, Hcur, Hr. rewrite H in Hc1, Hcur, Hr. cbn in Hr.
  split; [done|]. split; [done|].
  unfold mbind, dbm_bind, query in Hr. destruct (default false _); [done|].
  unfold select_access in Hr. destruct (find_where _ _) as [s|] eqn:Es; [|done].
  cbn in Hr. injection Hr as ->. apply find_where_Some in Es as [Hs Hp].
  apply andb_true_iff in Hp as [[Hk Hl]%andb_true_iff Hd].
  split; [|done]. exists s. split_and!; [done| |done|lia]. by apply access_keyed.
Qed.

Lemma create_group_members g x a d out d' :
  run (create_group_body g x a) d = (Ok out, d') →
  has_group g d = false
  ∧ group_members d' = group_members d ++ [GroupMember.Make g x a 2 None].
Proof.
  unfold create_group_body. intros H. api_inv H. api_inv H. api_inv H.
  apply guarded_Ok in Ha1 as (Hg & _ & ->). api_inv H. apply guarded_Ok in Ha1 as (_ & _ & ->).
  apply andb_true_iff in Hg as [Hg%negb_true_iff _]. injection H as <- <-. done.
Qed.

Lemma create_group_serves g x w :
  clean w →
  let w' := (api_bind (device_account_id x) (λ a, api_map (λ _, [] : bytes) (create_group g x a)) w).2 in
  group_members (current w') = group_members (current w)
  ∨ has_group g (current w) = false
    ∧ ∃ a, group_members (current w') = group_members (current w) ++ [GroupMember.Make g x a 2 None].
Proof.
  intros Hc. cbn zeta.
  destruct (autocommit_idle (account_id ← ask (select_account x);
    dlift (ok_or account_id ApiError.Unauthorized)) w ltac:(intros; apply _) Hc) as [Hc1 Hcur].
  fold (device_account_id x w) in Hc1, Hcur.
  destruct (device_account_id x w) as [[a|e] w1] eqn:Ha; cbn in Hc1, Hcur; rewrite <- Hcur.
  2: { rewrite (api_bind_stop _ _ _ _ _ Ha). by left. }
  rewrite (api_bind_next _ _ _ _ _ Ha), api_map_state.
  unfold create_group.
  destruct (transaction_members (create_group_body g x a) w1 _ Hc1) as [H|H]; [by left|right].
  apply create_group_members in H as [Hg H]. split; [done|]. by exists a.
Qed.

Lemma membership_serves now (o : MembershipOperation.t) w :
  clean w →
  let w' := (apply_membership_operation now o w).2 in
  group_members (current w') = group_members (current w)
  ∨ (∃ m dev, m ∈ group_members (current w)
       ∧ active_member (MembershipOperation.group_id o) (MembershipOperation.author_device_id o) m = true
       ∧ GroupMember.role m = 2 ∧ dev ∈ devices (current w)
       ∧ Device.device_id dev = MembershipOperation.author_device_id o
       ∧ vk_verify (Device.device_public_key dev) (operation_payload o) (MembershipOperation.signature o) = true)
    ∧ (∀ m, GroupMember.key m ≠ (MembershipOperation.group_id o, MembershipOperation.target_device_id o) →
         m ∈ group_members (current w') ↔ m ∈ group_members (current w))
    ∧ if MembershipOperation.remove o
      then exists_where (active_member (MembershipOperation.group_id o)
             (MembershipOperation.target_device_id o)) (group_members (current w')) = false
      else ∃ m, m ∈ group_members (current w') ∧ GroupMember.role m = MembershipOperation.role o
             ∧ active_member (MembershipOperation.group_id o) (MembershipOperation.target_device_id o) m = true.
Proof.
  intros Hc. cbn zeta. unfold apply_membership_operation. destruct (negb _); [by left|].
  destruct (transaction_members (membership_body now o) w _ Hc) as [H|H]; [by left|].
  apply membership_run_Ok in H as (public & Hkey & Hsig & H).
  apply select_admin_key_Some in Hkey as (m & x & Hm & Ha & Hr & Hx & Hid & <-).
  destruct (stored_operation o (current w)) as [st|].
  { left. destruct H as [-> _]. done. }
  destruct H as (_ & _ & after & Hch & ->). right. split; [by exists m, x|].
  split; [|by eapply members_changed_target]. intros m0. by eapply members_changed_others.
Qed.

(** C20: Only those the service lets change the members of a group.  Whatever frame
    a client sends, and whatever fails meanwhile, the members of all groups stay
    exactly as they are, unless the frame creates a group or carries a membership
    operation, under the token of a live session of a device that is not
    revoked.  A created group had no members, and its only one is then its
    creator's device, as administrator.  A membership operation names the device
    of the session as its author, which is an active administrator of the group
    and whose key has signed the operation; it changes the row of its target
    only, leaving it inactive or active in the role it names. *)
Theorem members_change_by_authority env f w :
  sound w → fits (TransportFrame.body f) →
  let d := current w in
  let d' := current (dispatch env f w).2 in
  group_members d' = group_members d
  ∨ ∃ t u x, makes (Call.Upload t u) f ∧ caller (auth_now env) t x d
    ∧ match u with
      | Upload.CreateGroup g =>
          (∀ m, m ∈ group_members d → GroupMember.group_id m ≠ g)
          ∧ ∃ a, group_members d' = group_members d ++ [GroupMember.Make g x a 2 None]
      | Upload.Membership i g y role removes s =>
          (∃ m dev, m ∈ group_members d ∧ active_member g x m = true ∧ GroupMember.role m = 2
             ∧ dev ∈ devices d ∧ Device.device_id dev = x
             ∧ vk_verify (Device.device_public_key dev)
                 (membership_operation_payload i g x y role removes) s = true)
          ∧ (∀ m, GroupMember.key m ≠ (g, y) → m ∈ group_members d' ↔ m ∈ group_members d)
          ∧ (if removes then exists_where (active_member g y) (group_members d') = false
             else ∃ m, m ∈ group_members d' ∧ GroupMember.role m = role ∧ active_member g y m = true)
      | _ => False
      end.
Proof.
  intros Hs Hf. cbn zeta.
  assert ((∃ c, makes c f) ∨ refuses (dispatch env f w) w ∨ overlong_challenge env f (dispatch env f w) w)
    as [[c Hm]|[(e & _ & ->)|(y & extra & _ & _ & _ & ->)]].
  { destruct (decide (TransportFrame.kind f = FrameType.AuthChallenge)) as [Hk|Hk].
    - destruct (challenge_cases env f w Hf Hk) as [H|[H|H]]; auto.
    - destruct (handle_cases env f w Hk) as [H|H]; [|by left]. right. left. by apply dispatch_refuses. }
  2: by left.
  2: { left. apply keeps_members; [apply Hs|]. apply api_bind_keeps; [|by intros ? ? ?].
    exact (perform_others _ (Request.BeginChallenge _ _ _ _) w eq_refl eq_refl). }
  rewrite (dispatch_makes env c f w Hm Hf). unfold answer. rewrite api_map_state.
  destruct (changes c) eqn:Hc.
  2: { left. apply keeps_members; [apply Hs|]. by apply serve_others; [apply _|]. }
  destruct c as [| | | |t u| | | | |]; try discriminate Hc. cbn [serve].
  destruct (authenticate_access (auth_now env) t w) as [[x|e] w1] eqn:Ha.
  2: { left. rewrite (api_bind_stop _ _ _ _ _ Ha). pose proof (authenticate_reads (auth_now env) t w) as H.
    rewrite Ha in H. cbn in *. by rewrite H. }
  rewrite (api_bind_next _ _ _ _ _ Ha), api_map_state.
  apply authenticate_caller in Ha as (Hc1 & Hcur & Hx); [|apply Hs].
  destruct u as [|? ?|g|i g y role removes s| |]; try discriminate Hc; cbn [serve_upload].
  - edestruct (create_group_serves g x w1 Hc1) as [H|(Hg & a & H)]; rewrite H, Hcur; [by left|right].
    exists t, (Upload.CreateGroup g), x. split; [done|]. split; [exact Hx|].
    split; [|by exists a].
    intros m Hin Hmg. destruct Hs as [_ (_ & [] & _)]. specialize (ref_member m Hin).
    unfold member_fk in ref_member. rewrite Hmg in ref_member. rewrite Hcur in Hg. by rewrite Hg in ref_member.
  - rewrite api_map_state.
    edestruct (membership_serves (op_now env) (MembershipOperation.Make i g x y role removes s) w1 Hc1)
      as [H|H]; rewrite Hcur in H; [by left|right].
    exists t, (Upload.Membership i g y role removes s), x. split; [done|]. split; [exact Hx|]. exact H.
Qed.
End Membership.

(** ** Witness: the administrator removes the other device *)

Section Witness.
Import Sample.

Definition removal_frame : TransportFrame.t :=
  Call.frame (fill 16 113) 60 (Call.Upload token
    (Upload.Membership (fill 16 50) Demo.group Demo.other_device 0 true
      (MembershipOperation.signature removal))).
Definition members_left : list (option Z) := [None; Some 502].

Lemma removed_members :
  GroupMember.removed_at <$> group_members (current (dispatch env removal_frame session).2) = members_left.
Proof. vm_compute. reflexivity. Qed.
Lemma removal_changes :
  group_members (current (dispatch env removal_frame session).2) ≠ group_members (current session).
Proof.
  intros H. assert (GroupMember.removed_at <$> group_members (current session) = [None; None])
    as Hs by (vm_compute; reflexivity).
  pose proof removed_members as Hr. rewrite H, Hs in Hr. discriminate Hr.
Qed.
#[local] Opaque dispatch session removal_frame.

Lemma members_change_by_authority_witness :
  ∃ t u x, makes (Call.Upload t u) removal_frame ∧ caller (auth_now env) t x (current session).
Proof.
  assert (Hf : fits (TransportFrame.body removal_frame)) by by vm_compute.
  destruct (members_change_by_authority env removal_frame session session_sound Hf)
    as [H|(t & u & x & Hm & Hx & _)]; [destruct (removal_changes H)|by exists t, u, x].
Defined.
End Witness.
