(* ===== verification/Network.v ===== *)
(** * Network: the socket code of the client and the relay service

    Models [NetworkSender] of crates/messenger-transport/src/lib.rs and the
    stateless proxy services/relay/src/main.rs, with the outcome of every
    network operation as data: what connecting, sending and receiving give is
    the business of the interfaces [Network] and [Core]. *)
From Stdlib Require Import ZArith Lia.
From stdpp Require Import base list strings.
From S2P Require Import Prelude Cursor Protocol Crypto Directory Manager Sql CoreDb CoreApi Dispatch.

(** ** HTTP and WebSocket as their callers see them *)

Module Http.
(** No response at all, or a status and the body, unless reading it failed. *)
Inductive reply :=
| NoReply
| Reply (status : Z) (body : option bytes).
End Http.

Module Ws.
Inductive message :=
| Binary (value : bytes)
| Ping (value : bytes)
| Pong (value : bytes)
| Close
| Text (value : bytes).
(** One item of a socket's stream; the end of the stream is the end of a list. *)
Inductive item :=
| Message (m : message)
| Broken.
(** What a client's attempt to exchange one message comes to. *)
Inductive outcome :=
| NotConnected
| NotSent
| TimedOut
| Ended
| Received (i : item).
End Ws.

(** The network as [NetworkSender] uses it. *)
Class Network (S : Type) := {
  connect_send_next : S → str → bytes → Ws.outcome * S;
  https_post : S → str → bytes → Http.reply * S
}.

Module NetworkSender.
Section Sender.
Context {S : Type} `{N : Network S}.

Definition send_websocket (s : S) (endpoint : RelayEndpoint.t) (frame : bytes)
    : result TransportError.t bytes * S :=
  let '(o, s) := connect_send_next s (RelayEndpoint.websocket_url endpoint) frame in
  (match o with
   | Ws.NotConnected | Ws.NotSent | Ws.TimedOut => Err TransportError.Unavailable
   | Ws.Received (Ws.Message (Ws.Binary value)) =>
       if len value <=? MAX_FRAME_SIZE then Ok value else Err TransportError.InvalidResponse
   | _ => Err TransportError.InvalidResponse
   end, s).

Definition send_https (s : S) (endpoint : RelayEndpoint.t) (frame : bytes)
    : result TransportError.t bytes * S :=
  let '(response, s) := https_post s (RelayEndpoint.https_url endpoint) frame in
  (match response with
   | Http.NoReply => Err TransportError.Unavailable
   | Http.Reply status body =>
       if negb (StatusCode.is_success status) then Err TransportError.Unavailable
       else match body with
            | None => Err TransportError.InvalidResponse
            | Some value =>
                if MAX_FRAME_SIZE <? len value then Err TransportError.FrameTooLarge else Ok value
            end
   end, s).

#[export] Instance network_sender : EndpointSender S := {|
  Manager.send_websocket := send_websocket;
  Manager.send_https := send_https
|}.
End Sender.
End NetworkSender.

(** ** The relay *)

(** Core-api as the relay reaches it: [core_post s long_poll body]. *)
Class Core (S : Type) := core_post : S → bool → bytes → Http.reply * S.

Module Relay.
Section Relay.
Context {S : Type} `{K : Core S}.

Definition forward (body : bytes) (long_poll : bool) (s : S) : result Z bytes * S :=
  match TransportFrame.decode body with
  | Err _ => (Err StatusCode.BAD_REQUEST, s)
  | Ok _ =>
      let '(response, s) := core_post s long_poll body in
      (match response with
       | Http.NoReply => Err StatusCode.BAD_GATEWAY
       | Http.Reply status value =>
           if negb (StatusCode.is_success status) then Err StatusCode.BAD_GATEWAY
           else
             value ← ok_or value StatusCode.BAD_GATEWAY;
             _ ← map_err (λ _, StatusCode.BAD_GATEWAY) (TransportFrame.decode value);
             Ok value
       end, s)
  end.

Definition cbor_response (status : Z) (value : bytes) : Response.t := Response.Make status value.
Definition cbor_error (status : Z) : Response.t :=
  cbor_response status (z2b <$> [130; 1; Z.min status 255]).

Definition relay_https (body : bytes) (s : S) : Response.t * S :=
  let '(r, s) := forward body false s in
  (match r with
   | Ok value => cbor_response StatusCode.OK value
   | Err status => cbor_error status
   end, s).

Definition is_sync (body : bytes) : bool :=
  match TransportFrame.decode body with
  | Ok frame => bool_decide (TransportFrame.kind frame = FrameType.SyncRequest)
  | Err _ => false
  end.

(** The loop over the items of the socket.  [sends] tells which sends work (all,
    when it is exhausted); the result is what was sent, in order. *)
Fixpoint websocket_loop (incoming : list Ws.item) (sends : list bool) (s : S)
    : list Ws.message * S :=
  match incoming with
  | [] => ([], s)
  | Ws.Message (Ws.Binary value) :: incoming =>
      let '(r, s) := forward value (is_sync value) s in
      match r with
      | Ok response =>
          if default true (head sends) then
            let '(out, s) := websocket_loop incoming (tail sends) s in
            (Ws.Binary response :: out, s)
          else ([], s)
      | Err _ => (if default true (head sends) then [Ws.Close] else [], s)
      end
  | Ws.Message (Ws.Ping value) :: incoming =>
      if default true (head sends) then
        let '(out, s) := websocket_loop incoming (tail sends) s in (Ws.Pong value :: out, s)
      else ([], s)
  | Ws.Message Ws.Close :: _ | Ws.Broken :: _ => ([], s)
  | Ws.Message _ :: incoming => websocket_loop incoming sends s
  end.

(** [ready], on what the health check of core-api came to. *)
Definition ready (health : Http.reply) : Z :=
  match health with
  | Http.Reply status _ =>
      if StatusCode.is_success status then StatusCode.OK else StatusCode.SERVICE_UNAVAILABLE
  | Http.NoReply => StatusCode.SERVICE_UNAVAILABLE
  end.
End Relay.
End Relay.

(** ** What the relay does to a frame *)

Section RelayFacts.
Context {S : Type} `{K : Core S}.
Import Relay.

(** What the core answered, as far as the relay passes it on. *)
Definition passed_on (r : Http.reply) (v : bytes) : Prop :=
  ∃ status, r = Http.Reply status (Some v) ∧ StatusCode.is_success status = true
    ∧ is_ok (TransportFrame.decode v) = true.

Lemma forward_cases body long_poll s :
  let '(r, s') := forward body long_poll s in
  if is_ok (TransportFrame.decode body) then
    s' = (core_post s long_poll body).2
    ∧ match r with
      | Ok v => passed_on (core_post s long_poll body).1 v
      | Err status => status = StatusCode.BAD_GATEWAY
          ∧ ∀ v, ¬ passed_on (core_post s long_poll body).1 v
      end
  else r = Err StatusCode.BAD_REQUEST ∧ s' = s.
Proof.
  unfold forward, passed_on. destruct (TransportFrame.decode body) as [f|e]; [|done].
  cbn [is_ok]. destruct (core_post s long_poll body) as [[|status value] s']; cbn [fst snd].
  { split; [done|]. split; [done|]. by intros v (? & ? & _). }
  split; [done|]. destruct (StatusCode.is_success status) eqn:Es; cbn [negb].
  - destruct value as [value|]; cbn; [|split; [done|by intros v (? & [=] & _)]].
    destruct (TransportFrame.decode value) as [g|e] eqn:E; cbn.
    + exists status. by rewrite E.
    + split; [done|]. intros v (? & [= <- <-] & _ & H). by rewrite E in H.
  - split; [done|]. intros v (? & [= <- ->] & H & _). congruence.
Qed.

Lemma forward_error body long_poll s x :
  (forward body long_poll s).1 = Err x → StatusCode.is_success x = false.
Proof.
  pose proof (forward_cases body long_poll s) as H. destruct (forward body long_poll s) as [r s'].
  cbn. intros ->. destruct (is_ok _); [by destruct H as (_ & -> & _)|by destruct H as [[= ->] _]].
Qed.

(** The relay is transparent to frames and opaque to everything else.  A
    body that is no frame never reaches core-api; any other body is sent
    unchanged, and what core-api answers is passed on unchanged, with status
    200, exactly when it is a success whose body is a frame.  All other
    outcomes become 502. *)
Theorem relay_transparent body s :
  let '(r, s') := relay_https body s in
  if is_ok (TransportFrame.decode body) then
    let '(reply, after) := core_post s false body in
    s' = after
    ∧ ((∃ v, passed_on reply v ∧ r = Response.Make StatusCode.OK v)
       ∨ ((∀ v, ¬ passed_on reply v) ∧ r = cbor_error StatusCode.BAD_GATEWAY))
  else r = cbor_error StatusCode.BAD_REQUEST ∧ s' = s.
Proof.
  unfold relay_https. pose proof (forward_cases body false s) as H.
  destruct (forward body false s) as [r s']. destruct (is_ok _).
  - destruct (core_post s false body) as [reply after]. destruct H as [-> H]. split; [done|].
    destruct r as [v|status]; [left; eauto|right]. by destruct H as [-> H].
  - by destruct H as [-> ->].
Qed.

(** The relay's error body tells nothing.  For every client or server error
    status it is the same three bytes, and they are not a frame. *)
Theorem relay_error_uninformative status :
  400 ≤ status < 600 →
  Response.body (cbor_error status) = z2b <$> [130; 1; 255]
  ∧ ∃ e, TransportFrame.decode (Response.body (cbor_error status)) = Err e.
Proof.
  intros Hs. unfold cbor_error, cbor_response. cbn [Response.body].
  rewrite (Z.min_r status 255) by lia. split; [done|]. eexists. by vm_compute.
Qed.

(** One frame on a fresh socket is answered or the socket is closed. *)
Lemma websocket_one body s :
  let '(out, s') := websocket_loop [Ws.Message (Ws.Binary body)] [] s in
  let '(r, after) := forward body (is_sync body) s in
  s' = after ∧ out = match r with Ok v => [Ws.Binary v] | Err _ => [Ws.Close] end.
Proof.
  cbn. destruct (forward body (is_sync body) s) as [[v|e] s']; done.
Qed.
End RelayFacts.

Lemma relay_error_uninformative_witness :
  Response.body (Relay.cbor_error StatusCode.BAD_GATEWAY)
  = Response.body (Relay.cbor_error StatusCode.BAD_REQUEST).
Proof.
  destruct (relay_error_uninformative StatusCode.BAD_GATEWAY) as [H1 _].
  { unfold StatusCode.BAD_GATEWAY. lia. }
  destruct (relay_error_uninformative StatusCode.BAD_REQUEST) as [H2 _].
  { unfold StatusCode.BAD_REQUEST. lia. }
  by rewrite H1, H2.
Defined.
