(* ===== verification/Routes.v ===== *)
(** * Routes: the HTTP surface of core-api and of the relay

    The route tables, body limits and start-up of services/core-api/src/main.rs
    and services/relay/src/main.rs, the addresses by which the relay reaches
    core-api, and the two timeouts that meet in a long poll.  The router (axum)
    and the HTTP client (reqwest) are parameters with the laws that their
    documentation states. *)
From Stdlib Require Import ZArith Lia.
From stdpp Require Import base list strings.
From S2P Require Import Prelude Cursor Protocol Crypto Sql CoreDb CoreApi Dispatch Service Server Network.

(** ** Requests and route tables *)

Module Method.
Inductive t := Get | Head | Post | Other.
End Method.

Module HttpRequest.
Record t := Make { method : Method.t; path : bytes; body : bytes }.
End HttpRequest.

(** The statuses of the router. *)
Definition NOT_FOUND : Z := 404.
Definition METHOD_NOT_ALLOWED : Z := 405.
Definition PAYLOAD_TOO_LARGE : Z := 413.

(** A handler of a GET route, or of a POST route that takes the body. *)
Inductive route (S : Type) :=
| GetRoute (h : S → Response.t * S)
| PostRoute (h : bytes → S → Response.t * S).
Arguments GetRoute {S} h.
Arguments PostRoute {S} h.
Definition table (S : Type) : Type := list (bytes * route S).

Definition lookup_route {S} (t : table S) (path : bytes) : option (route S) :=
  snd <$> find_where (λ r, bool_decide (fst r = path)) t.

(** Router::route, DefaultBodyLimit and the fallbacks. *)
Class Router : Type := route_request : ∀ {S}, table S → Z → HttpRequest.t → S → Response.t * S.
Class RouterLaws (R : Router) : Prop := {
  route_get {S} (t : table S) limit path body h s :
    lookup_route t path = Some (GetRoute h) →
    route_request t limit (HttpRequest.Make Method.Get path body) s = h s;
  route_post {S} (t : table S) limit path body h s :
    lookup_route t path = Some (PostRoute h) → len body ≤ limit →
    route_request t limit (HttpRequest.Make Method.Post path body) s = h body s;
  route_too_large {S} (t : table S) limit path body h s :
    lookup_route t path = Some (PostRoute h) → limit < len body →
    ∃ b, route_request t limit (HttpRequest.Make Method.Post path body) s
      = (Response.Make PAYLOAD_TOO_LARGE b, s);
  route_unknown {S} (t : table S) limit q s :
    lookup_route t (HttpRequest.path q) = None →
    ∃ b, route_request t limit q s = (Response.Make NOT_FOUND b, s);
  route_method {S} (t : table S) limit q s :
    match lookup_route t (HttpRequest.path q), HttpRequest.method q with
    | Some (GetRoute _), (Method.Post | Method.Other) => True
    | Some (PostRoute _), (Method.Get | Method.Head | Method.Other) => True
    | _, _ => False
    end →
    ∃ b, route_request t limit q s = (Response.Make METHOD_NOT_ALLOWED b, s)
}.

(** ** core-api *)

Module CoreServer.
Definition BODY_LIMIT : Z := 64 * 1024.
Definition SYNC_PATH : bytes := lit "/v1/sync".
Definition LONG_POLL_PATH : bytes := lit "/v1/long-poll".

Section Server.
Context `{C : Crypto}.

Definition ok_status (app : App.t) : Response.t * App.t := (Response.Make StatusCode.OK [], app).
Definition routes (x : Exchange) : table App.t :=
  [(lit "/healthz", GetRoute ok_status);
   (lit "/readyz", GetRoute readyz);
   (lit "/metrics", GetRoute (λ app, (Response.Make StatusCode.OK (metrics app), app)));
   (SYNC_PATH, PostRoute (binary_api x));
   (LONG_POLL_PATH, PostRoute (binary_long_poll x))].

Definition handle `{R : Router} (x : Exchange) (q : HttpRequest.t) : App.t → Response.t * App.t :=
  route_request (routes x) BODY_LIMIT q.

(** What [main] comes to before it serves. *)
Inductive start := Exit (code : Z) | Panic | Migrated | Serving (app : App.t).
Definition main (DATABASE_URL : option bytes) (url_parses : bytes → bool) (args : list bytes)
    (MIGRATION : bytes) (w : Backend) : start * Backend :=
  match DATABASE_URL with
  | None => (Exit 2, w)
  | Some url =>
      if negb (url_parses url) then (Panic, w)
      else if bool_decide (args !! 1%nat = Some (lit "migrate")) then
        let '(r, w) := migrate MIGRATION w in
        (match r with Ok _ => Migrated | Err _ => Panic end, w)
      else (Serving (App.Make w 0 0), w)
  end.
End Server.
End CoreServer.

(** ** The relay *)

Module RelayServer.
Definition BODY_LIMIT : Z := MAX_FRAME_SIZE.
Definition REQUEST_TIMEOUT_MS : Z := 20 * 1000.

(** [trim_end_matches('/')] *)
Fixpoint drop_slashes (l : bytes) : bytes :=
  match l with
  | b :: l' => if bool_decide (b = z2b 47) then drop_slashes l' else l
  | [] => []
  end.
Definition trim_end_slashes (l : bytes) : bytes := reverse (drop_slashes (reverse l)).

Record config := Config { core_sync_url : bytes; core_long_poll_url : bytes; core_health_url : bytes }.
Definition core_base (CORE_API_URL : option bytes) : bytes :=
  trim_end_slashes (default (lit "http://core-api:8080") CORE_API_URL).
Definition configure (CORE_API_URL : option bytes) : config :=
  let core := core_base CORE_API_URL in
  Config (core ++ lit "/v1/sync") (core ++ lit "/v1/long-poll") (core ++ lit "/healthz").

Section Server.
Context {S : Type} `{K : Core S}.

(** [health] is what the check of core-api comes to.  [/v1/ws] is a GET route that
    upgrades the connection; its socket is [Relay.websocket_loop]. *)
Definition routes (health : Http.reply) (upgrade : S → Response.t * S) : table S :=
  [(lit "/healthz", GetRoute (λ s, (Response.Make StatusCode.OK [], s)));
   (lit "/readyz", GetRoute (λ s, (Response.Make (Relay.ready health) [], s)));
   (lit "/v1/relay", PostRoute Relay.relay_https);
   (lit "/v1/ws", GetRoute upgrade)].
Definition handle `{R : Router} (health : Http.reply) (upgrade : S → Response.t * S)
    (q : HttpRequest.t) : S → Response.t * S :=
  route_request (routes health upgrade) BODY_LIMIT q.
End Server.
End RelayServer.

(** ** What a route table serves *)

Section Surface.
Context `{C : Crypto} `{R : Router} (LR : RouterLaws R).

Definition core_paths : list bytes :=
  [lit "/healthz"; lit "/readyz"; lit "/metrics"; CoreServer.SYNC_PATH; CoreServer.LONG_POLL_PATH].

Lemma core_post_route x (long_poll : bool) :
  lookup_route (CoreServer.routes x) (if long_poll then CoreServer.LONG_POLL_PATH else CoreServer.SYNC_PATH)
  = Some (PostRoute (λ body, handle_binary x body long_poll)).
Proof. by destruct long_poll. Qed.

Lemma core_unknown_route x path : path ∉ core_paths → lookup_route (CoreServer.routes x) path = None.
Proof.
  intros Hp. unfold lookup_route. rewrite (proj2 (find_where_None _ _)); [done|].
  apply exists_where_false. intros [p h] Hin. apply bool_decide_eq_false. intros <-. apply Hp.
  by apply (list_elem_of_fmap_2 fst (CoreServer.routes x) (p, h)).
Qed.

(** The HTTP surface of core-api.  A POST to the sync or the long-poll path with
    a body of at most 64 KiB is answered by the frame handler, as a long poll
    exactly on the latter; a larger body is refused with 413, any other path with
    404 and any other method on these paths with 405, and none of these changes
    the server or its database. *)
Theorem core_http_surface x (long_poll : bool) method path body app :
  let served := if long_poll then CoreServer.LONG_POLL_PATH else CoreServer.SYNC_PATH in
  let respond m p := CoreServer.handle x (HttpRequest.Make m p body) app in
  (len body ≤ MAX_FRAME_SIZE → respond Method.Post served = handle_binary x body long_poll app)
  ∧ (MAX_FRAME_SIZE < len body →
     (respond Method.Post served).2 = app
     ∧ Response.status (respond Method.Post served).1 = PAYLOAD_TOO_LARGE)
  ∧ (method ≠ Method.Post →
     (respond method served).2 = app ∧ Response.status (respond method served).1 = METHOD_NOT_ALLOWED)
  ∧ (path ∉ core_paths →
     (respond method path).2 = app ∧ Response.status (respond method path).1 = NOT_FOUND).
Proof using LR.
  intros served respond. unfold respond, CoreServer.handle, served. split_and!.
  - intros Hl. by rewrite (route_post _ _ _ _ _ _ (core_post_route x long_poll) Hl).
  - intros Hl. by destruct (route_too_large _ CoreServer.BODY_LIMIT _ body _ app (core_post_route x long_poll) Hl)
      as [b ->].
  - intros Hm. destruct (route_method (CoreServer.routes x) CoreServer.BODY_LIMIT
      (HttpRequest.Make method (if long_poll then CoreServer.LONG_POLL_PATH else CoreServer.SYNC_PATH) body) app)
      as [b ->]; [|done].
    cbn [HttpRequest.path HttpRequest.method]. rewrite core_post_route. by destruct method.
  - intros Hp. by destruct (route_unknown (CoreServer.routes x) CoreServer.BODY_LIMIT
      (HttpRequest.Make method path body) app (core_unknown_route x path Hp)) as [b ->].
Qed.
End Surface.

(** ** The relay's address of core-api *)

Lemma drop_slashes_suffix l : ∃ k, l = k ++ RelayServer.drop_slashes l ∧ Forall (λ b, b = z2b 47) k.
Proof.
  induction l as [|b l (k & IH & Hk)]; [by exists []|]. cbn. case_bool_decide as Hb; [|by exists []].
  exists (b :: k). split; [cbn; by rewrite <- IH|by constructor].
Qed.
Lemma drop_slashes_head l b : head (RelayServer.drop_slashes l) = Some b → b ≠ z2b 47.
Proof.
  induction l as [|c l IH]; [done|]. cbn. case_bool_decide as Hc; [done|]. by intros [= <-].
Qed.

(** The addresses do not depend on slashes at the end of the setting, and end in
    the paths of core-api. *)
Lemma core_addresses base k :
  Forall (λ b, b = z2b 47) k →
  let c := RelayServer.configure (Some (base ++ k)) in
  c = RelayServer.configure (Some base)
  ∧ RelayServer.core_sync_url c = RelayServer.core_base (Some base) ++ CoreServer.SYNC_PATH
  ∧ RelayServer.core_long_poll_url c = RelayServer.core_base (Some base) ++ CoreServer.LONG_POLL_PATH
  ∧ last (RelayServer.core_base (Some base)) ≠ Some (z2b 47).
Proof.
  intros Hk c.
  assert (Hb : RelayServer.core_base (Some (base ++ k)) = RelayServer.core_base (Some base)).
  { unfold RelayServer.core_base, RelayServer.trim_end_slashes. cbn [from_option id].
    rewrite reverse_app. apply f_equal. assert (Hr : Forall (λ b, b = z2b 47) (reverse k)) by (by apply Forall_reverse).
    induction Hr as [|b l -> _ IH]; [done|]. cbn. exact IH. }
  unfold c, RelayServer.configure. rewrite Hb. split_and!; [done..|].
  unfold RelayServer.core_base, RelayServer.trim_end_slashes. cbn [from_option id].
  rewrite last_reverse. intros H. by apply drop_slashes_head in H.
Qed.

(** ** Two timeouts *)

(** reqwest gives up when the response is not complete in time. *)
Class HttpClient : Type := completes : Z → Z → Http.reply → Http.reply.
Class HttpClientLaws (H : HttpClient) : Prop := {
  completes_late timeout elapsed r : timeout ≤ elapsed → completes timeout elapsed r = Http.NoReply;
  completes_in_time timeout elapsed r : elapsed < timeout → completes timeout elapsed r = r
}.

(** What a request of the relay meets at core-api, and how long it takes, in
    milliseconds: before and after the wait of a long poll, and until a
    notification arrives during the wait. *)
Record hop : Type := Hop {
  meets_exchange : Exchange; before : Z; notified : option Z; after_wait : Z
}.

Section LongPoll.
Context `{C : Crypto} `{R : Router} `{H : HttpClient}.

Definition NOTIFICATION_WAIT_MS : Z := 20 * 1000.
Definition wait (notified : option Z) : Z :=
  match notified with Some t => Z.min t NOTIFICATION_WAIT_MS | None => NOTIFICATION_WAIT_MS end.

(** Does [handle_binary] wait for a notification? *)
Definition waits (x : Exchange) (body : bytes) (long_poll : bool) (app : App.t) : bool :=
  match TransportFrame.decode body with
  | Err _ => false
  | Ok f =>
      let '(limit, w) := check_rate_limit (rate_now x) (rate_scope f) 120 60 (App.backend app) in
      is_ok limit && long_poll && listening x
      && bool_decide (TransportFrame.kind f = FrameType.SyncRequest)
      && match (dispatch (first_env x) f w).1 with Ok response => empty_page response | Err _ => false end
  end.
Definition elapsed (h : hop) (body : bytes) (long_poll : bool) (app : App.t) : Z :=
  before h + (if waits (meets_exchange h) body long_poll app then wait (notified h) else 0) + after_wait h.

(** Core-api as the relay reaches it over HTTP. *)
#[export] Instance core_http : Core (hop * App.t) := λ s long_poll body,
  let '(h, app) := s in
  let path := if long_poll then CoreServer.LONG_POLL_PATH else CoreServer.SYNC_PATH in
  let '(r, app') := CoreServer.handle (meets_exchange h) (HttpRequest.Make Method.Post path body) app in
  (completes RelayServer.REQUEST_TIMEOUT_MS (elapsed h body long_poll app)
     (Http.Reply (Response.status r) (Some (Response.body r))), (h, app')).

Context (LR : RouterLaws R) (LH : HttpClientLaws H).

(** What the relay forwards is answered by the frame handler. *)
Lemma core_http_post h app long_poll body :
  is_ok (TransportFrame.decode body) = true →
  let '(r, app') := handle_binary (meets_exchange h) body long_poll app in
  core_post (h, app) long_poll body
  = (completes RelayServer.REQUEST_TIMEOUT_MS (elapsed h body long_poll app)
       (Http.Reply (Response.status r) (Some (Response.body r))), (h, app')).
Proof using LR.
  intros Hd. assert (Hl : len body ≤ MAX_FRAME_SIZE).
  { destruct (TransportFrame.decode body) as [f|e] eqn:E; [|done]. by apply frame_decode_Ok in E as [? _]. }
  unfold core_post, core_http, CoreServer.handle.
  rewrite (route_post _ _ _ _ _ _ (core_post_route (meets_exchange h) long_poll) Hl).
  by destruct (handle_binary _ _ _ _).
Qed.

(** C29: A long poll that nothing interrupts fails at the relay.  Core-api waits up to
    twenty seconds for a notification and the relay gives up on core-api after
    twenty seconds, so when nothing is committed in between the answer always
    comes too late: the relay drops it and closes the socket of the client.  An
    answer that takes less than twenty seconds in all, and is a frame with a
    success status, is passed on. *)
Theorem idle_long_poll_closes h app body f :
  TransportFrame.decode body = Ok f → TransportFrame.kind f = FrameType.SyncRequest →
  0 ≤ before h → 0 ≤ after_wait h →
  let x := meets_exchange h in
  let '(r, app') := handle_binary x body true app in
  let loop := Relay.websocket_loop [Ws.Message (Ws.Binary body)] [] (h, app) in
  (waits x body true app = true → notified h = None → loop = ([Ws.Close], (h, app')))
  ∧ (elapsed h body true app < RelayServer.REQUEST_TIMEOUT_MS →
     StatusCode.is_success (Response.status r) = true → is_ok (TransportFrame.decode (Response.body r)) = true →
     loop = ([Ws.Binary (Response.body r)], (h, app'))).
Proof using LR LH.
  intros Hd Hk Hb Ha x. pose proof (core_http_post h app true body ltac:(by rewrite Hd)) as Hp. fold x in Hp.
  destruct (handle_binary x body true app) as [r app'].
  pose proof (websocket_one body (h, app)) as Hw. unfold Relay.is_sync in Hw. rewrite Hd in Hw.
  rewrite bool_decide_eq_true_2 in Hw by done. cbv zeta.
  destruct (Relay.websocket_loop _ _ _) as [out s']. unfold Relay.forward in Hw. rewrite Hd, Hp in Hw. split.
  - intros Hwait Hn. rewrite completes_late in Hw.
    + by destruct Hw as [-> ->].
    + unfold elapsed. fold x. rewrite Hwait, Hn. unfold wait, RelayServer.REQUEST_TIMEOUT_MS, NOTIFICATION_WAIT_MS. lia.
  - intros Ht Hs Hok. rewrite completes_in_time, Hs in Hw by done. cbn [negb ok_or] in Hw.
    destruct (TransportFrame.decode (Response.body r)) as [g|e] eqn:E; [|done]. cbn in Hw. rewrite E in Hw.
    by destruct Hw as [-> ->].
Qed.
End LongPoll.

(** ** Witnesses *)

Section Witnesses.
Import Sample.

Definition plain_router : Router := λ S t limit q s,
  match lookup_route t (HttpRequest.path q), HttpRequest.method q with
  | None, _ => (Response.Make NOT_FOUND [], s)
  | Some (GetRoute h), Method.Get => h s
  | Some (GetRoute h), Method.Head => let '(r, s) := h s in (Response.Make (Response.status r) [], s)
  | Some (PostRoute h), Method.Post =>
      if limit <? len (HttpRequest.body q) then (Response.Make PAYLOAD_TOO_LARGE [], s)
      else h (HttpRequest.body q) s
  | Some _, _ => (Response.Make METHOD_NOT_ALLOWED [], s)
  end.
Lemma plain_router_laws : RouterLaws plain_router.
Proof.
  constructor; intros S t limit.
  - intros path body h s Hr. unfold route_request, plain_router. cbn. by rewrite Hr.
  - intros path body h s Hr Hl. unfold route_request, plain_router. cbn. rewrite Hr.
    by destruct (Z.ltb_spec limit (len body)); [lia|].
  - intros path body h s Hr Hl. exists []. unfold route_request, plain_router. cbn. rewrite Hr.
    by destruct (Z.ltb_spec limit (len body)); [|lia].
  - intros q s Hr. exists []. unfold route_request, plain_router. by rewrite Hr.
  - intros q s Hr. exists []. unfold route_request, plain_router.
    destruct (lookup_route t _) as [[h|h]|], (HttpRequest.method q); done.
Qed.
Definition plain_client : HttpClient := λ timeout elapsed r, if timeout <=? elapsed then Http.NoReply else r.
Lemma plain_client_laws : HttpClientLaws plain_client.
Proof.
  constructor; intros t e r Ht; unfold completes, plain_client;
    destruct (Z.leb_spec t e); lia || done.
Qed.

Lemma core_http_surface_witness :
  CoreServer.handle (R := plain_router) idle
    (HttpRequest.Make Method.Post (lit "/v1/long-poll") (encoded page_frame)) polling
  = handle_binary idle (encoded page_frame) true polling.
Proof.
  refine (proj1 (core_http_surface plain_router_laws idle true Method.Get [] (encoded page_frame) polling) _).
  apply (bool_decide_unpack _). vm_compute. exact I.
Defined.

Lemma idle_waits : waits idle (encoded page_frame) true polling = true.
Proof. vm_compute. reflexivity. Qed.
Lemma idle_long_poll_closes_witness :
  ∃ app', Relay.websocket_loop (K := core_http (R := plain_router) (H := plain_client))
    [Ws.Message (Ws.Binary (encoded page_frame))] [] (Hop idle 1 None 1, polling)
  = ([Ws.Close], (Hop idle 1 None 1, app')).
Proof.
  pose proof (idle_long_poll_closes (R := plain_router) (H := plain_client) plain_router_laws plain_client_laws
    (Hop idle 1 None 1) polling (encoded page_frame) page_frame page_decodes eq_refl ltac:(cbn; lia)
    ltac:(cbn; lia)) as H.
  cbv zeta in H. cbn [meets_exchange] in H. destruct (handle_binary idle (encoded page_frame) true polling) as [r app'].
  exists app'. exact (proj1 H idle_waits eq_refl).
Defined.
End Witnesses.
