(* ===== verification/EndToEnd.v ===== *)
(** * EndToEnd: a client's outbox, the relays and core-api together

    Composes TransportManager of Manager, NetworkSender and the relay of
    Network, and the server of Dispatch, over a network that may lose any
    request or response on either hop. *)
From Stdlib Require Import ZArith Lia.
From stdpp Require Import base gmap list strings relations.
From S2P Require Import Prelude Cursor Protocol Crypto Directory Manager Sql.
From S2P Require Import Identity CoreDb CoreApi CoreDelivery Dispatch Service Server.
From S2P Require Import Network.
Import Db.

(** ** The network *)

Inductive fate := Delivered | RequestLost | ResponseLost.

(** One attempt of a client: what happens between client and relay, between
    relay and core-api, and what core-api meets while it handles the request. *)
Record turn : Type := Turn {
  client_hop : fate; core_hop : fate; meets : Exchange; db_faults : list bool
}.

(** The server and the attempts to come; after the last one nothing connects. *)
Record stack : Type := Stack { app : App.t; script : list turn }.

Section Stack.
Context `{C : Crypto}.

Definition serve_core (t : turn) (body : bytes) (long_poll : bool) (a : App.t)
    : Response.t * App.t :=
  handle_binary (meets t) body long_poll (with_backend a (with_faults (db_faults t) (App.backend a))).

(** Core-api behind a relay, during one attempt. *)
#[export] Instance core_hop_core : Core (turn * App.t) := λ s long_poll body,
  let '(t, a) := s in
  match core_hop t with
  | RequestLost => (Http.NoReply, (t, a))
  | Delivered =>
      let '(r, a) := serve_core t body long_poll a in
      (Http.Reply (Response.status r) (Some (Response.body r)), (t, a))
  | ResponseLost => let '(_, a) := serve_core t body long_poll a in (Http.NoReply, (t, a))
  end.

#[export] Instance stack_network : Network stack := {|
  connect_send_next s _ frame :=
    match script s with
    | [] => (Ws.NotConnected, s)
    | t :: later =>
        match client_hop t with
        | RequestLost => (Ws.NotConnected, Stack (app s) later)
        | fate =>
            let '(out, (_, a)) := Relay.websocket_loop [Ws.Message (Ws.Binary frame)] [] (t, app s) in
            (match fate, out with
             | Delivered, m :: _ => Ws.Received (Ws.Message m)
             | Delivered, [] => Ws.Ended
             | _, _ => Ws.TimedOut
             end, Stack a later)
        end
    end;
  https_post s _ frame :=
    match script s with
    | [] => (Http.NoReply, s)
    | t :: later =>
        match client_hop t with
        | RequestLost => (Http.NoReply, Stack (app s) later)
        | fate =>
            let '(r, (_, a)) := Relay.relay_https frame (t, app s) in
            (match fate with
             | Delivered => Http.Reply (Response.status r) (Some (Response.body r))
             | _ => Http.NoReply
             end, Stack a later)
        end
    end
|}.
End Stack.
#[export] Existing Instance NetworkSender.network_sender.

(** ** Where the responses of a flush come from *)

Import TransportManager.

Section Replies.
Context {S : Type} `{N : EndpointSender S}.
Implicit Types m : TransportManager.t S.

Definition exchanged (s s' : S) : Prop :=
  ∃ e b, s' = (send_websocket s e b).2 ∨ s' = (send_https s e b).2.
Definition reaches : S → S → Prop := rtc exchanged.

(** [v] is what a relay answered to [b], in one exchange between [s] and [s']. *)
Definition replied (s : S) (b v : bytes) (s' : S) : Prop :=
  ∃ e s1 s2, reaches s s1 ∧ reaches s2 s'
    ∧ (send_websocket s1 e b = (Ok v, s2) ∨ send_https s1 e b = (Ok v, s2)).

Lemma replied_weaken s0 s b v s' s1 :
  reaches s0 s → reaches s' s1 → replied s b v s' → replied s0 b v s1.
Proof.
  intros H0 H1 (e & s2 & s3 & Ha & Hb & H). exists e, s2, s3. split_and!; [by etrans..|done].
Qed.

Lemma exchange_replied e b m r m' :
  exchange e b m = (r, m') →
  reaches (sender m) (sender m') ∧ ∀ v, r = Ok v → replied (sender m) b v (sender m').
Proof.
  unfold exchange. cbn [sender count].
  destruct (send_websocket (sender m) e b) as [[v|x] s] eqn:E1.
  - intros [= <- <-]. cbn. assert (Hs : reaches (sender m) s).
    { apply rtc_once. exists e, b. left. by rewrite E1. }
    split; [done|]. intros ? [= <-]. exists e, (sender m), s. split_and!; [done..|by left].
  - cbn. assert (Hs : reaches (sender m) s) by (apply rtc_once; exists e, b; left; by rewrite E1).
    destruct (send_https s e b) as [r2 s2] eqn:E2. intros [= <- <-]. cbn.
    assert (Hs2 : reaches s s2) by (apply rtc_once; exists e, b; right; by rewrite E2).
    split; [by etrans|]. intros v ->. exists e, s, s2. split_and!; [done..|by right].
Qed.

Lemma try_endpoint_replied now hp b e m :
  let r := try_endpoint now hp b e m in
  reaches (sender m) (sender r.2) ∧ ∀ v, r.1 = Some v → replied (sender m) b v (sender r.2).
Proof.
  unfold try_endpoint. destruct (now <? _); [done|].
  destruct (exchange _ _ _) as [[v|x] m1] eqn:E; apply exchange_replied in E as [Hr Hv];
    cbn [fst snd sender set_health] in *.
  - destruct (record_success_frame hp (RelayEndpoint.endpoint_id e) v m1) as (_ & _ & -> & _).
    split; [done|]. intros ? [= <-]. auto.
  - done.
Qed.

Lemma try_endpoints_replied now hp b es m :
  let r := try_endpoints now hp b es m in
  reaches (sender m) (sender r.2) ∧ ∀ v, r.1 = Some v → replied (sender m) b v (sender r.2).
Proof.
  revert m. induction es as [|e es IH]; intros m; cbn [try_endpoints]; [done|].
  destruct (try_endpoint_replied now hp b e m) as [Hr Hv].
  destruct (try_endpoint now hp b e m) as [[v|] m1]; cbn in *; [done|].
  destruct (IH m1) as [Hr1 Hv1]. split; [by etrans|]. intros v Hs.
  eapply replied_weaken; [exact Hr| |by apply Hv1]. done.
Qed.

Lemma flush_loop_replied now q rs m vs m' :
  flush_loop now q rs m = (Ok vs, m') →
  reaches (sender m) (sender m')
  ∧ ∃ vs', vs = rs ++ vs'
    ∧ Forall2 (λ x v, replied (sender m) (QueuedFrame.contents x) v (sender m')) q vs'.
Proof.
  revert rs m. induction q as [|x q IH]; intros rs m; cbn [flush_loop].
  - intros [= <- <-]. split; [done|]. exists []. by rewrite app_nil_r.
  - set (hp := _ <$> _).
    destruct (try_endpoints_replied now hp (QueuedFrame.contents x) (ordered_endpoints m) m) as [Hr Hv].
    destruct (try_endpoints _ _ _ _ _) as [[v|] m1]; [|done]. cbn in Hr, Hv.
    intros (Hr' & vs' & -> & Hall)%IH. cbn [sender set_outbox] in *. split; [by etrans|].
    exists (v :: vs'). rewrite <- app_assoc. split; [done|]. constructor.
    + apply (replied_weaken (sender m) (sender m) _ _ (sender m1) (sender m')); [done|exact Hr'|by apply Hv].
    + eapply Forall2_impl; [exact Hall|]. intros y w. by apply replied_weaken.
Qed.

Lemma flush_replied now m vs m' :
  flush now m = (Ok vs, m') →
  Forall2 (λ x v, replied (sender m) (QueuedFrame.contents x) v (sender m')) (outbox m) vs.
Proof. intros (_ & vs' & -> & H)%flush_loop_replied. done. Qed.

End Replies.

(** ** What a reply means *)

Section Meaning.
Context `{C : Crypto} `{U : Unicode}.

(** Nothing that other requests do on the way breaks the database. *)
Definition stack_ok (s : stack) : Prop :=
  sound (App.backend (app s)) ∧ Forall (λ t, harmless (meanwhile (meets t))) (script s).

(** [v] is the reply that core-api gave when it dispatched the frame [b] on a
    well-formed database, and [w'] the database after it. *)
Definition dispatched (b v : bytes) (w' : Backend) : Prop :=
  ∃ f env w g, TransportFrame.decode b = Ok f ∧ sound w ∧ dispatch env f w = (Ok g, w')
    ∧ TransportFrame.decode v = Ok g.

Lemma serve_core_ok t b lp a :
  sound (App.backend a) → harmless (meanwhile (meets t)) →
  sound (App.backend (serve_core t b lp a).2).
Proof.
  intros Hs Hm. unfold serve_core.
  apply (sound_keeps (with_faults (db_faults t) (App.backend a))).
  - intros P HP. exact (handle_binary_keeps P (meets t) b lp (with_backend a _) Hm).
  - revert Hs. apply sound_keeps. intros P _. apply with_faults_keeps.
Qed.

(** A success that decodes is a dispatched reply. *)
Lemma serve_core_success t b lp a :
  sound (App.backend a) → harmless (meanwhile (meets t)) →
  let '(r, a') := serve_core t b lp a in
  StatusCode.is_success (Response.status r) = true → is_ok (TransportFrame.decode (Response.body r)) = true →
  dispatched b (Response.body r) (App.backend a').
Proof.
  intros Hs Hm. unfold serve_core.
  assert (Hs0 : sound (with_faults (db_faults t) (App.backend a))).
  { revert Hs. apply sound_keeps. intros P _. apply with_faults_keeps. }
  revert Hs0. generalize (with_faults (db_faults t) (App.backend a)). intros w0 Hs0.
  pose proof (handle_binary_dispatched (meets t) b lp (with_backend a w0) Hm Hs0) as H.
  destruct (handle_binary _ _ _ _) as [r a']. intros Hst Hok.
  destruct (H Hst) as (f & env & w & g & Hd & Hw & Hg & Hr).
  exists f, env, w, g. split_and!; [done..|]. subst r.
  destruct (dispatch_reply env b f w g _ Hd Hg) as (reply & -> & _).
  destruct (cbor_response_frame (TransportFrame.client_message_id f) reply) as [Hb|[Hb _]]; [done|].
  by rewrite Hb in Hok.
Qed.

(** One attempt: the script is used up, the database stays sound, and a value
    that comes back is a dispatched reply. *)
Definition attempt_ok (b : bytes) (s s' : stack) (r : result TransportError.t bytes) : Prop :=
  stack_ok s' ∧ ∀ v, r = Ok v → dispatched b v (App.backend (app s')).

Lemma forward_turn b lp t a :
  sound (App.backend a) → harmless (meanwhile (meets t)) →
  let '(r, (_, a')) := Relay.forward b lp (t, a) in
  sound (App.backend a') ∧ ∀ v, r = Ok v → dispatched b v (App.backend a').
Proof.
  intros Hs Hm. pose proof (forward_cases b lp (t, a)) as H.
  pose proof (serve_core_ok t b lp a Hs Hm) as Hok.
  pose proof (serve_core_success t b lp a Hs Hm) as Hsucc.
  destruct (Relay.forward b lp (t, a)) as [r [t' a']].
  destruct (is_ok (TransportFrame.decode b)); [|destruct H as [-> [= -> ->]]; by split].
  destruct H as [Hst Hr]. unfold core_post, core_hop_core in Hst, Hr.
  destruct (serve_core t b lp a) as [resp a1]. cbn [snd] in Hok.
  destruct (core_hop t); injection Hst as -> ->; (split; [done|]); intros v ->; cbn [fst] in Hr;
    destruct Hr as (status & Hr & Hstat & Hdec); [|discriminate..].
  injection Hr as <- <-. by apply Hsucc.
Qed.

Lemma script_ok_tail t l a :
  stack_ok (Stack a (t :: l)) → harmless (meanwhile (meets t)) ∧ ∀ a', sound (App.backend a') → stack_ok (Stack a' l).
Proof. intros [_ [Ht Hl]%Forall_cons]. split; [done|]. by intros a' ?. Qed.

Lemma websocket_attempt s e b :
  stack_ok s → let '(r, s') := send_websocket s e b in attempt_ok b s s' r.
Proof.
  intros Hs. destruct s as [a [|t l]]; [by split|].
  destruct (script_ok_tail t l a Hs) as [Ht Hl]. destruct Hs as [Hs _].
  cbn [send_websocket NetworkSender.network_sender]. unfold NetworkSender.send_websocket.
  cbn [connect_send_next stack_network script app].
  pose proof (websocket_one (K := core_hop_core) b (t, a)) as H1.
  pose proof (forward_turn b (Relay.is_sync b) t a Hs Ht) as H2.
  destruct (Relay.websocket_loop _ _ _) as [out [t1 a1]].
  destruct (Relay.forward _ _ _) as [r [t2 a2]]. destruct H1 as [[= -> ->] ->]. destruct H2 as [H2 H3].
  destruct (client_hop t); [|by split; [apply Hl|]..]. split; [by apply Hl|].
  intros v. destruct r as [v'|x]; [|done]. destruct (len v' <=? _); [|done]. intros [= ->]. by apply H3.
Qed.

Lemma https_attempt s e b :
  stack_ok s → let '(r, s') := send_https s e b in attempt_ok b s s' r.
Proof.
  intros Hs. destruct s as [a [|t l]]; [by split|].
  destruct (script_ok_tail t l a Hs) as [Ht Hl]. destruct Hs as [Hs _].
  cbn [send_https NetworkSender.network_sender]. unfold NetworkSender.send_https.
  cbn [https_post stack_network script app]. unfold Relay.relay_https.
  pose proof (forward_turn b false t a Hs Ht) as H2.
  pose proof (forward_error (K := core_hop_core) b false (t, a)) as H4.
  destruct (Relay.forward _ _ _) as [r [t2 a2]]. destruct H2 as [H2 H3].
  destruct (client_hop t); [|by split; [apply Hl|]..]. split; [by apply Hl|].
  intros v. destruct r as [v'|x]; cbn [Response.status Response.body Relay.cbor_response].
  - destruct (MAX_FRAME_SIZE <? _); [done|]. intros [= ->]. by apply H3.
  - change (Response.status (Relay.cbor_error x)) with x. cbn in H4. by rewrite (H4 x eq_refl).
Qed.

Lemma reaches_ok s s' : reaches s s' → stack_ok s → stack_ok s'.
Proof.
  induction 1 as [s|s s1 s2 (e & b & H) _ IH]; [done|]. intros Hs. apply IH.
  pose proof (websocket_attempt s e b Hs) as H1. pose proof (https_attempt s e b Hs) as H2.
  destruct (send_websocket s e b), (send_https s e b). destruct H1, H2. by destruct H as [-> | ->].
Qed.

(** Every reply that a client's flush returns is a dispatched reply. *)
Lemma replied_dispatched s b v s' :
  stack_ok s → replied s b v s' →
  ∃ s1, stack_ok s1 ∧ reaches s s1 ∧ reaches s1 s' ∧ dispatched b v (App.backend (app s1)).
Proof.
  intros Hs (e & s1 & s2 & H1 & H2 & H). pose proof (reaches_ok _ _ H1 Hs) as Hs1.
  exists s2. pose proof (websocket_attempt s1 e b Hs1) as Hw. pose proof (https_attempt s1 e b Hs1) as Hh.
  assert (Hr : reaches s1 s2).
  { apply rtc_once. exists e, b. destruct H as [-> | ->]; [by left|by right]. }
  destruct H as [H|H]; rewrite H in *; [destruct Hw as [Hok Hd]|destruct Hh as [Hok Hd]];
    (split_and!; [done|by etrans|done|by apply Hd]).
Qed.

(** What a dispatched upload leaves behind. *)
Definition event_stored (f : TransportFrame.t) (author : Id) (g e : Id) (ct : bytes) (cursor : Z)
    (d : Db.t) : Prop :=
  ∃ x, x ∈ group_events d ∧ GroupEvent.author_device_id x = author
    ∧ GroupEvent.client_message_id x = TransportFrame.client_message_id f
    ∧ GroupEvent.event_id x = e ∧ GroupEvent.ciphertext x = ct ∧ GroupEvent.event_cursor x = cursor
    ∧ ∀ y, y ∈ group_events d → GroupEvent.author_device_id y = author →
        GroupEvent.client_message_id y = TransportFrame.client_message_id f → y = x.

Lemma upload_event_stored now e w acc w1 :
  sound w → upload_event now e w = (Ok acc, w1) →
  ∃ x, stored_event e (current w1) = Some x ∧ same_upload e x = true
    ∧ GroupEvent.event_cursor x = UploadAccepted.cursor acc.
Proof.
  intros [Hw _] H. apply upload_Ok in H as (_ & _ & H); [|done]. by apply upload_stores in H as [_ H].
Qed.

Lemma dispatched_upload b v w' f t g e k corr ct :
  dispatched b v w' → TransportFrame.decode b = Ok f →
  makes (Call.Upload t (Upload.Event g e k corr ct)) f →
  ∃ author cursor duplicate,
    TransportFrame.decode v = Ok (reply_frame (TransportFrame.client_message_id f)
      (FrameType.UploadAccepted, z2b 1 :: be_bytes 8 (as_u64 cursor) ++ Upload.flag_bytes duplicate))
    ∧ event_stored f author g e ct cursor (current w').
Proof.
  intros (f' & env & w & r & Hd' & Hw & Hr & Hv) Hd Hm. rewrite Hd in Hd'. injection Hd' as <-.
  assert (Hw' : sound w').
  { pose proof (λ P (HP : Invariant P), dispatch_keeps P env f w) as Hk. rewrite Hr in Hk.
    revert Hw. by apply sound_keeps. }
  rewrite (dispatch_makes _ _ f _ Hm (decode_body_fits _ _ Hd)) in Hr.
  apply api_map_Ok in Hr as (reply & Hr & ->). cbn [serve] in Hr.
  apply api_bind_Ok in Hr as (author & w0 & Ha & Hr). apply api_map_Ok in Hr as (bs & Hr & ->).
  cbn [serve_upload] in Hr. apply api_map_Ok in Hr as (acc & Hr & ->).
  assert (Hw0 : sound w0).
  { pose proof (request_sound (Request.Authenticate (auth_now env) t) _ Hw) as H.
    cbn [perform] in H. by rewrite Ha in H. }
  exists author, (UploadAccepted.cursor acc), (UploadAccepted.duplicate acc). split; [done|].
  apply upload_event_stored in Hr as (x & Hx & Hsame & Hc); [|done].
  apply find_where_Some in Hx as [Hin Hkey%dedup_keyed]. injection Hkey as H1 H2.
  apply andb_true_iff in Hsame as [H3%bool_decide_eq_true H4%bool_decide_eq_true].
  exists x. split_and!; try done. intros y Hy Hya Hyc.
  apply (NoDup_key_inj GroupEvent.dedup_key (group_events (current w'))); [apply Hw'|done..|].
  unfold GroupEvent.dedup_key in *. congruence.
Qed.

(** An upload that the client sees accepted is stored exactly once, whatever
    the network lost on the way.  When a flush returns its responses, each
    upload of the outbox was answered, at some moment during the flush, with an
    acceptance that carries its cursor, and at that moment core-api held the
    event under the device of its token and its message id, with its id and its
    ciphertext, at that cursor, and no other event under them, however many
    attempts were made over however many relays. *)
Theorem accepted_upload_stored_once now m vs m' :
  stack_ok (sender m) → flush now m = (Ok vs, m') →
  Forall2 (λ q v, ∀ f t g e k corr ct,
      TransportFrame.decode (QueuedFrame.contents q) = Ok f →
      makes (Call.Upload t (Upload.Event g e k corr ct)) f →
      ∃ s author cursor duplicate,
        reaches (sender m) s ∧ reaches s (sender m') ∧ stack_ok s
        ∧ TransportFrame.decode v = Ok (reply_frame (TransportFrame.client_message_id f)
            (FrameType.UploadAccepted, z2b 1 :: be_bytes 8 (as_u64 cursor) ++ Upload.flag_bytes duplicate))
        ∧ event_stored f author g e ct cursor (current (App.backend (app s))))
    (outbox m) vs.
Proof.
  intros Hs H%flush_replied. eapply Forall2_impl; [exact H|]. intros q v Hr f t g e k corr ct Hd Hm.
  destruct (replied_dispatched _ _ _ _ Hs Hr) as (s & Hok & H1 & H2 & Hdis).
  destruct (dispatched_upload _ _ _ _ _ _ _ _ _ _ Hdis Hd Hm) as (author & cursor & dup & Hv & Hst).
  by exists s, author, cursor, dup.
Qed.

(** ** A frame that core-api refuses *)

Lemma unserved_never_dispatched b v w' :
  (∀ f c, TransportFrame.decode b = Ok f → ¬ makes c f) → ¬ dispatched b v w'.
Proof.
  intros Hn (f & env & w & g & Hd & _ & Hg & _).
  destruct (dispatch_makes_call env b f w g w' Hd Hg) as [c Hc]. by eapply Hn.
Qed.

(** C34: A frame that makes no call of core-api blocks the outbox for ever: one
    that does not decode, or whose type or body no request has.  The relays turn
    a refusal into an unavailable relay, so a flush never gets past it: whenever
    and however often it is tried, it fails, and neither the frame nor any frame
    behind it leaves the outbox.  (A frame that does make a call may be refused
    for a time and served later.) *)
Theorem unserved_frame_blocks times m q rest :
  stack_ok (sender m) → outbox m = q :: rest →
  (∀ f c, TransportFrame.decode (QueuedFrame.contents q) = Ok f → ¬ makes c f) →
  let m' := foldl (λ m now, (flush now m).2) m times in
  outbox m' = outbox m ∧ ∀ now, (flush now m').1 = Err TransportError.Unavailable.
Proof.
  intros Hs Ho Hn. assert (Hstuck : ∀ now m, stack_ok (sender m) → outbox m = q :: rest →
    (flush now m).1 = Err TransportError.Unavailable ∧ outbox (flush now m).2 = q :: rest
    ∧ stack_ok (sender (flush now m).2)).
  { clear m Hs Ho. intros now m Hs Ho. unfold flush. rewrite Ho. cbn [flush_loop].
    set (hp := _ <$> _).
    destruct (try_endpoints_replied now hp (QueuedFrame.contents q) (ordered_endpoints m) m) as [Hr Hv].
    destruct (try_endpoints_frame now hp (QueuedFrame.contents q) (ordered_endpoints m) m) as [_ Hf].
    destruct (try_endpoints _ _ _ _ _) as [[v|] m1]; cbn [fst snd] in *.
    - destruct (replied_dispatched _ _ _ _ Hs (Hv v eq_refl)) as (s & _ & _ & _ & Hd).
      by apply unserved_never_dispatched in Hd.
    - split_and!; [done|congruence|by apply (reaches_ok _ _ Hr)]. }
  assert (Hall : outbox (foldl (λ m now, (flush now m).2) m times) = q :: rest
    ∧ stack_ok (sender (foldl (λ m now, (flush now m).2) m times))).
  { revert m Hs Ho. induction times as [|now times IH]; intros m Hs Ho; [done|]. cbn [foldl].
    destruct (Hstuck now m Hs Ho) as (_ & Ho' & Hs'). by apply IH. }
  cbn. destruct Hall as [Ho' Hs']. split; [congruence|]. intros now. by apply Hstuck.
Qed.
End Meaning.

(** *** Witnesses

    A client with one queued upload behind two relays.  The first attempt is
    handled but its response is lost between core-api and the relay; the second
    is answered. *)
Section Witnesses.
Import Sample.

Definition quiet_exchange : Exchange := MakeExchange 500 env env false (λ w, w).
Definition lossy : list turn :=
  [Turn Delivered ResponseLost quiet_exchange []; Turn Delivered Delivered quiet_exchange []].
Definition lossy_stack : stack := Stack (App.Make session 0 0) lossy.
Definition client_of (s : stack) (q : list QueuedFrame.t) : TransportManager.t stack :=
  TransportManager.Make s sample_signed (fill 32 5) q ∅ ByteCounters.zero None.
Definition queued (f : TransportFrame.t) : QueuedFrame.t :=
  QueuedFrame.Make (TransportFrame.client_message_id f) (encoded f).
Definition client : TransportManager.t stack := client_of lossy_stack [queued upload_frame].

Lemma lossy_stack_ok : stack_ok lossy_stack.
Proof.
  split; [exact session_sound|].
  repeat apply Forall_cons_2; [..|apply Forall_nil_2]; intros P HP w; apply keeps_refl.
Qed.

Definition delivered : result TransportError.t (list bytes) * TransportManager.t stack :=
  flush 500 client.
Definition acceptance : bytes := encoded (reply_frame (fill 16 110)
  (FrameType.UploadAccepted, z2b 1 :: be_bytes 8 1 ++ Upload.flag_bytes true)).
Lemma delivered_eq : flush 500 client = (Ok [acceptance], delivered.2).
Proof. unfold delivered. apply pair_of. vm_compute. reflexivity. Qed.
#[local] Opaque delivered.
Lemma upload_decodes : TransportFrame.decode (encoded upload_frame) = Ok upload_frame.
Proof. vm_compute. reflexivity. Qed.

Lemma accepted_upload_stored_once_witness :
  ∃ s author cursor, reaches lossy_stack s
    ∧ event_stored upload_frame author Demo.group (fill 16 30) [z2b 9] cursor
        (current (App.backend (app s))).
Proof.
  pose proof (accepted_upload_stored_once 500 client [acceptance] delivered.2 lossy_stack_ok
    delivered_eq) as H.
  apply Forall2_cons_1 in H as [H _].
  destruct (H upload_frame token Demo.group (fill 16 30) 1 None [z2b 9] upload_decodes upload_made)
    as (s & author & cursor & duplicate & H1 & _ & _ & _ & H2).
  exists s, author, cursor. split; [exact H1|exact H2].
Defined.

(** A greeting of a server is no request. *)
Definition greeting : TransportFrame.t :=
  TransportFrame.Make 1 FrameType.ServerHello (fill 16 113) 60 [].
Definition stuck : TransportManager.t stack :=
  client_of lossy_stack [queued greeting; queued upload_frame].

Lemma greeting_unserved f c :
  TransportFrame.decode (encoded greeting) = Ok f → ¬ makes c f.
Proof.
  assert (H0 : TransportFrame.decode (encoded greeting) = Ok greeting) by (vm_compute; reflexivity).
  rewrite H0.
  intros [= <-] H. by destruct c; destruct H as (_ & H & _).
Qed.

Lemma unserved_frame_blocks_witness :
  outbox (foldl (λ m now, (flush now m).2) stuck [500; 600; 700]) = outbox stuck.
Proof.
  destruct (unserved_frame_blocks [500; 600; 700] stuck (queued greeting) [queued upload_frame]
    lossy_stack_ok eq_refl greeting_unserved) as [H _].
  exact H.
Defined.
End Witnesses.
