(* ===== verification/Delivery.v ===== *)
(** * Delivery: from the outbox of one client to the inbox of another

    Composes EndToEnd with what core-api does afterwards: an event that a client
    saw accepted stays until it expires, and a member of its group that asks for
    one event at a time gets it in a frame.  The polling client is not in the
    repository; it states what the protocol offers to one. *)
From Stdlib Require Import ZArith Lia Sorting.Sorted.
From stdpp Require Import base list strings relations.
From S2P Require Import Prelude Cursor Protocol Crypto Directory Manager Sql.
From S2P Require Import Identity CoreDb CoreApi CoreDelivery Dispatch Service Server.
From S2P Require Import Network EndToEnd.
Import Db TransportManager.

(** ** Events stay until they expire *)

#[export] Instance event_frame x : Frame (λ d, x ∈ group_events d).
Proof.
  constructor; [constructor|..]; try (intros; frame_statement).
  - by intros d n _.
  - intros row _. apply append_event_preserves. intros d n d'.
    unfold next_cursor. destruct (_ <? _); [done|]. intros [= <- <-] Hd.
    split; [done|]. intros m d''. unfold insert_event. intros (_ & _ & ->)%guarded_Ok.
    apply elem_of_app. by left.
Qed.

(** A cursor fits PostgreSQL's bigint. *)
Definition bounded_cursors (d : Db.t) : Prop :=
  ∀ e, e ∈ group_events d → GroupEvent.event_cursor e ≤ i64_max.
#[export] Instance bounded_cursors_invariant : Invariant bounded_cursors.
Proof.
  split; [split; [constructor|..]|]; try (intros; frame_statement).
  - by intros d n _.
  - intros row Hrow. apply append_event_preserves. intros d n d'.
    unfold next_cursor. destruct (_ <? _) eqn:E; [done|]. intros [= <- <-] Hd.
    split; [done|]. intros m d''. unfold insert_event. intros (_ & _ & ->)%guarded_Ok.
    intros e [He|He%list_elem_of_singleton]%elem_of_app; [by apply Hd|]. subst e. rewrite Hrow. lia.
  - intros e [He _]%elem_of_delete. by apply Hd.
Qed.

Lemma delete_expired_keeps now limit x d n d' :
  delete_expired now limit d = Ok (n, d') → wf_keys d → now < GroupEvent.expires_at x →
  x ∈ group_events d → x ∈ group_events d'.
Proof.
  intros [= _ <-] Hk Ht Hx. cbn. apply elem_of_delete. split; [done|].
  apply bool_decide_eq_false. intros (y & Hid & Hy)%list_elem_of_fmap.
  apply elem_of_take in Hy as (j & Hj%list_elem_of_lookup_2 & _).
  apply elem_of_select in Hj as [Hj He].
  assert (y = x) as -> by (apply (NoDup_key_inj GroupEvent.event_id (group_events d)); [apply Hk|done..]).
  lia.
Qed.

Section Meantime.
Context `{C : Crypto} `{U : Unicode}.

(** What core-api does in the meantime: frames and operations under any I/O
    failures, and cleanups before [until]. *)
Inductive passes (until : Z) : Backend → Backend → Prop :=
| pass_request r fl w :
    (∀ now batch, r = Request.Cleanup now batch → now < until) →
    passes until w (perform r (with_faults fl w))
| pass_frame env f fl w : passes until w (dispatch env f (with_faults fl w)).2.
Definition meantime (until : Z) : Backend → Backend → Prop := rtc (passes until).

Lemma passes_keeps P `{!Invariant P} until w w' : passes until w w' → keeps P w w'.
Proof.
  intros [r fl w0 _|env f fl w0] Hw.
  - apply perform_keeps; [done|]. by apply with_faults_keeps.
  - apply (dispatch_keeps P env f). by apply with_faults_keeps.
Qed.
Lemma meantime_keeps P `{!Invariant P} until w w' : meantime until w w' → keeps P w w'.
Proof. induction 1 as [w|w w1 w' H _ IH]; [by intros ?|]. intros Hw. apply IH, (passes_keeps P _ _ _ H Hw). Qed.

Lemma passes_event x w w' :
  passes (GroupEvent.expires_at x) w w' → sound w → x ∈ group_events (current w) →
  x ∈ group_events (current w').
Proof.
  intros [r fl w0 Ht|env f fl w0] [Hc Hwf] Hx.
  - destruct (is_cleanup r) eqn:Hr.
    + destruct r; try done. cbn [perform]. unfold cleanup_expired_events.
      rewrite (proj2 (autocommit_current _ _)). unfold execute. cbn [faults with_faults current].
      destruct (default false (head fl)); [done|]. set (n := clamp _ _ _).
      destruct (delete_expired now n (current w0)) as [[m d']|e] eqn:E; [|done].
      apply (delete_expired_keeps now n x (current w0) m d' E (proj1 Hwf)); [by apply (Ht now batch)|done].
    + by apply (perform_frame (λ d, x ∈ group_events d) r (with_faults fl w0) Hr).
  - by apply (dispatch_keeps (λ d, x ∈ group_events d) env f (with_faults fl w0)).
Qed.

Lemma meantime_event x w w' :
  meantime (GroupEvent.expires_at x) w w' → sound w → x ∈ group_events (current w) →
  sound w' ∧ x ∈ group_events (current w').
Proof.
  induction 1 as [w|w w1 w' H _ IH]; [done|]. intros Hs Hx. apply IH; [|by eapply passes_event].
  revert Hs. apply sound_keeps. intros P HP. by apply (passes_keeps P _ _ _ H).
Qed.
End Meantime.

(** ** Polling one event at a time *)

Section Poll.
Context `{C : Crypto}.

(** The request is encoded, decoded by the server and dispatched; the reply is
    encoded, decoded by the client and read.  [None] when any of this fails. *)
Definition poll (env : Env) (message_id : Id) (t : array 32) (g : Id) (after : Z) (d : Db.t)
    : option (list SyncEvent.t) :=
  match TransportFrame.encode (Call.frame message_id 0 (Call.Sync t (Sync.Group g after 1))) with
  | Err _ => None
  | Ok body =>
      match TransportFrame.decode body with
      | Err _ => None
      | Ok f =>
          match (dispatch env f (quiet d [])).1 with
          | Err _ => None
          | Ok reply =>
              match TransportFrame.decode (Response.body (cbor_response StatusCode.OK reply)) with
              | Err _ => None
              | Ok f =>
                  match run_parser read_page (TransportFrame.body f) with
                  | Ok (_, events) => Some events
                  | Err _ => None
                  end
              end
          end
      end
  end.

(** Ask again from the last cursor until a page is empty. *)
Fixpoint poll_all (fuel : nat) (env : Env) (message_id : Id) (t : array 32) (g : Id) (after : Z)
    (d : Db.t) : option (list SyncEvent.t) :=
  match fuel with
  | O => None
  | S fuel =>
      page ← poll env message_id t g after d;
      match last page with
      | None => Some []
      | Some e => rest ← poll_all fuel env message_id t g (SyncEvent.cursor e) d; Some (page ++ rest)
      end
  end.

(** An event that a page of its own has room for. *)
Definition deliverable (e : GroupEvent.t) : Prop :=
  - 2 ^ 15 ≤ GroupEvent.event_kind e < 2 ^ 15 ∧ len (GroupEvent.ciphertext e) ≤ MAX_FRAME_SIZE - 63.

(** Every upload that comes in a frame is such an event. *)
Lemma uploaded_deliverable b f t g e k corr ct :
  TransportFrame.decode b = Ok f → makes (Call.Upload t (Upload.Event g e k corr ct)) f →
  - 2 ^ 15 ≤ k < 2 ^ 15 ∧ len ct ≤ MAX_FRAME_SIZE - 63.
Proof.
  intros (Hl & c & (-> & _)%frame_canonical_body)%frame_decode_Ok (Ht & _ & Hb). split; [exact Ht|].
  destruct (frame_length f) as [Hf _]. apply (f_equal (@length _)) in Hb.
  cbn [Call.body Upload.body] in Hb. rewrite !length_app, !array_length in Hb. cbn in Hb.
  unfold len in *. lia.
Qed.

Lemma authenticate_quiet now t d :
  authenticate_access now t (quiet d []) = ((authenticate_access now t (quiet d [])).1, quiet d []).
Proof.
  unfold authenticate_access. rewrite (autocommit_run ApiError.Database) by apply _.
  run_next. destruct (select_access _ _ _) as [o|e]; [|done]. by destruct o.
Qed.

Lemma request_frame_decodes i t g after :
  ∃ b, TransportFrame.encode (Call.frame i 0 (Call.Sync t (Sync.Group g after 1))) = Ok b
    ∧ TransportFrame.decode b = Ok (Call.frame i 0 (Call.Sync t (Sync.Group g after 1))).
Proof.
  apply small_frame_decodes; [done..|]. unfold len. cbn [Call.frame TransportFrame.body Call.body Sync.body].
  rewrite !length_app, !array_length, length_be_bytes. unfold MAX_FRAME_SIZE. cbn. lia.
Qed.

(** A page of at most one deliverable event fits a frame. *)
Lemma short_page l :
  (length l ≤ 1)%nat → Forall deliverable l → bounded_cursors (set_group_events l Db.empty) →
  Forall (λ e, 0 ≤ GroupEvent.event_cursor e) l →
  let page := z2b 0 :: batch_bytes sync_event_bytes (sync_event <$> l) in
  len page ≤ MAX_FRAME_SIZE - 31 ∧ run_parser read_page page = Ok (0, sync_event <$> l).
Proof.
  intros Hl Hd Hc H0 page.
  assert (Ht : Forall sync_event_typed (sync_event <$> l)).
  { apply Forall_fmap, Forall_forall. intros e He. rewrite Forall_forall in Hd, H0.
    destruct (Hd e He) as [Hk Hs]. specialize (Hc e He). specialize (H0 e He).
    split_and!; cbn; unfold in_u, i64_max, MAX_FRAME_SIZE, len in *; lia. }
  assert (Hlen : len page ≤ MAX_FRAME_SIZE - 31).
  { destruct l as [|e [|? ?]]; [done| |cbn in Hl; lia]. unfold page, batch_bytes, len. cbn [fmap list_fmap concat].
    apply Forall_cons in Ht as [Ht _]. rewrite (sync_event_bytes_eq _ Ht). cbn [length].
    rewrite !length_app, !length_be_bytes, !array_length. apply Forall_cons in Hd as [[_ Hd] _].
    unfold len, MAX_FRAME_SIZE in *. cbn. lia. }
  split; [done|]. apply read_page_bytes; [done|rewrite length_fmap; lia|done|].
  unfold fits, i64_max, len, MAX_FRAME_SIZE in *. unfold page in Hlen. lia.
Qed.

Lemma poll_page env i t g after d x :
  (authenticate_access (auth_now env) t (quiet d [])).1 = Ok x → 0 ≤ after ≤ i64_max →
  bounded_cursors d → wf d → (∀ e, e ∈ group_events d → GroupEvent.group_id e = g → deliverable e) →
  poll env i t g after d
  = match (sync_group (op_now env) x g after 1 (quiet d [])).1 with Ok l => Some l | Err _ => None end.
Proof.
  intros Ha Hafter Hc (_ & _ & Hg) Hd. unfold poll.
  destruct (request_frame_decodes i t g after) as (b & -> & ->).
  rewrite dispatch_call; [|cbn; unfold in_u, i64_max in *; lia|].
  2: { unfold fits, i64_max. cbn [Call.body Sync.body]. rewrite !length_app, !array_length, length_be_bytes. cbn. lia. }
  rewrite answer_page. unfold group_page, api_map, api_bind. rewrite authenticate_quiet, Ha.
  rewrite as_i64_small by (unfold in_i64, i64_max in *; lia). rewrite sync_group_run.
  destruct (exists_where _ _); [|done]. cbn [fst].
  set (l := take _ (live_events _ _ _ _)).
  assert (Hl : ∀ e, e ∈ l → e ∈ group_events d ∧ GroupEvent.group_id e = g).
  { intros e (j & Hj%list_elem_of_lookup_2 & _)%elem_of_take. apply elem_of_live_events in Hj as (He & Hin & _).
    unfold in_group in Hin. rewrite bool_decide_eq_true in Hin. done. }
  destruct (short_page l) as [Hlen Hread].
  - unfold l. rewrite length_take. unfold clamp, MAX_SYNC_BATCH. lia.
  - apply Forall_forall. intros e He. by apply Hd; apply Hl.
  - intros e He. by apply Hc, Hl.
  - apply Forall_forall. intros e He. apply Hl in He as [He _]. apply (range_event _ Hg) in He. lia.
  - destruct (frame_fits i FrameType.SyncBatch _ Hlen) as (b' & He & Hdec). unfold cbor_response, page_reply.
    rewrite He. cbn [Response.body]. rewrite Hdec. cbn [TransportFrame.body reply_frame snd]. by rewrite Hread.
Qed.
Lemma page_cursors x g after now d l e :
  wf d → bounded_cursors d → (sync_group now x g after 1 (quiet d [])).1 = Ok l → e ∈ l →
  0 ≤ SyncEvent.cursor e ≤ i64_max.
Proof.
  intros (_ & _ & Hg) Hc. rewrite sync_group_run. destruct (exists_where _ _); [|done].
  intros [= <-] (y & -> & (j & Hj%list_elem_of_lookup_2 & _)%elem_of_take)%list_elem_of_fmap.
  apply elem_of_live_events in Hj as (Hy & _). cbn. specialize (Hc y Hy).
  apply (range_event _ Hg) in Hy. lia.
Qed.

Lemma poll_all_follow fuel env i t g after d x :
  (authenticate_access (auth_now env) t (quiet d [])).1 = Ok x → 0 ≤ after ≤ i64_max →
  bounded_cursors d → wf d → (∀ e, e ∈ group_events d → GroupEvent.group_id e = g → deliverable e) →
  poll_all fuel env i t g after d = follow fuel (op_now env) x g after 1 d.
Proof.
  intros Ha Hafter Hc Hwf Hd. revert after Hafter.
  induction fuel as [|fuel IH]; intros after Hafter; [done|]. cbn [poll_all follow].
  rewrite (poll_page env i t g after d x) by done.
  destruct (sync_group (op_now env) x g after 1 (quiet d [])).1 as [page|e] eqn:E; [|done]. cbn.
  destruct (last page) as [e|] eqn:El; [|done].
  rewrite IH; [done|]. eapply page_cursors; [done|done|exact E|].
  rewrite last_lookup in El. by apply list_elem_of_lookup_2 in El.
Qed.

(** Polling ends with all unexpired events above the starting cursor, in order. *)
Lemma poll_all_complete fuel env i t g after d x :
  (authenticate_access (auth_now env) t (quiet d [])).1 = Ok x → 0 ≤ after ≤ i64_max →
  bounded_cursors d → wf d → (∀ e, e ∈ group_events d → GroupEvent.group_id e = g → deliverable e) →
  exists_where (active_member g x) (group_members d) = true →
  (length (group_events d) < fuel)%nat →
  poll_all fuel env i t g after d = Some (sync_event <$> live_events (in_group g) after (op_now env) d).
Proof.
  intros Ha Hafter Hc Hwf Hd Hm Hf. rewrite (poll_all_follow _ _ _ _ _ _ _ x) by done.
  replace after with (Z.max after 0) at 2 by lia. apply follow_complete; [done|done|].
  eapply Nat.le_lt_trans; [|exact Hf]. unfold live_events. rewrite stable_sort_perm.
  apply List.filter_length_le.
Qed.
End Poll.

(** ** From client to client *)

Section Delivered.
Context `{C : Crypto} `{U : Unicode}.

(** The identifier of an event is its own, also among the events of a page. *)
Lemma only_event d x e z :
  wf d → x ∈ group_events d → GroupEvent.event_id x = e → z ∈ group_events d → GroupEvent.event_id z = e → z = x.
Proof. intros [Hk _] Hx He Hz Hid. apply (NoDup_key_inj _ _ _ _ (key_event _ Hk)); [done..|congruence]. Qed.
Lemma found_once d x e visible after now :
  wf d → x ∈ live_events visible after now d → GroupEvent.event_id x = e →
  select_where (λ z, bool_decide (SyncEvent.event_id z = e)) (sync_event <$> live_events visible after now d)
  = [sync_event x].
Proof.
  intros [Hk _] Hx He. apply (select_key SyncEvent.event_id _ e); [by intros r; rewrite bool_decide_eq_true| | |done].
  - unfold unique. rewrite <- list_fmap_compose. change (SyncEvent.event_id ∘ sync_event) with GroupEvent.event_id.
    unfold live_events. rewrite stable_sort_perm. by apply unique_select, key_event.
  - by apply list_elem_of_fmap_2.
Qed.

(** C8: A message that core-api accepted reaches the members that ask for it.
    When a flush of the sending client returns, each upload of its outbox is stored
    at core-api as one event with its identifier and ciphertext, at the cursor that
    the client was given.  Whatever core-api then serves, under any failures and
    with any cleanup before the event expires, it is the only event with its
    identifier.  When then an active member of its group with a live session asks
    for one event at a time from a cursor before the event until a page is empty,
    before the event expires, while the database is at rest and when every event of
    the group fits in a frame: every answer can be read, and exactly
    one of the events that it gets has that identifier, and it is this event. *)
Theorem accepted_message_reaches_members now m vs m' :
  stack_ok (sender m) → flush now m = (Ok vs, m') →
  Forall2 (λ q v, ∀ f t g e k corr ct,
      TransportFrame.decode (QueuedFrame.contents q) = Ok f →
      makes (Call.Upload t (Upload.Event g e k corr ct)) f →
      ∃ s x duplicate,
        reaches (sender m) s ∧ x ∈ group_events (current (App.backend (app s)))
        ∧ GroupEvent.event_id x = e ∧ GroupEvent.ciphertext x = ct
        ∧ TransportFrame.decode v = Ok (reply_frame (TransportFrame.client_message_id f)
            (FrameType.UploadAccepted,
             z2b 1 :: be_bytes 8 (as_u64 (GroupEvent.event_cursor x)) ++ Upload.flag_bytes duplicate))
        ∧ ∀ w env i token y after fuel,
            meantime (GroupEvent.expires_at x) (App.backend (app s)) w →
            let d := current w in
            bounded_cursors d → op_now env < GroupEvent.expires_at x →
            (∀ z, z ∈ group_events d → GroupEvent.group_id z = GroupEvent.group_id x → deliverable z) →
            (authenticate_access (auth_now env) token (quiet d [])).1 = Ok y →
            exists_where (active_member (GroupEvent.group_id x) y) (group_members d) = true →
            0 ≤ after < GroupEvent.event_cursor x → (length (group_events d) < fuel)%nat →
            (∀ z, z ∈ group_events d → GroupEvent.event_id z = e → z = x)
            ∧ ∃ l, poll_all fuel env i token (GroupEvent.group_id x) after d = Some l
              ∧ select_where (λ z, bool_decide (SyncEvent.event_id z = e)) l = [sync_event x])
    (outbox m) vs.
Proof.
  intros Hs H%flush_replied. eapply Forall2_impl; [exact H|]. intros q v Hr f t g e k corr ct Hd Hm.
  destruct (replied_dispatched _ _ _ _ Hs Hr) as (s & Hok & H1 & H2 & Hdis).
  destruct (dispatched_upload _ _ _ _ _ _ _ _ _ _ Hdis Hd Hm)
    as (author & cursor & dup & Hv & x & Hx & Hxa & Hxm & Hxe & Hxc & <- & _).
  exists s, x, dup. split_and!; [done..|].
  intros w env i token y after fuel Hw d Hb Hexp Hdel Hauth Hmem Hafter Hfuel.
  destruct (meantime_event x _ w Hw (proj1 Hok) Hx) as [[_ Hwf] Hxd].
  pose proof (Hb x Hxd) as Hbx.
  assert (Hlive : x ∈ live_events (in_group (GroupEvent.group_id x)) after (op_now env) d).
  { apply elem_of_live_events. unfold in_group. split_and!; [done|by apply bool_decide_eq_true|lia|done]. }
  split; [by intros z Hz; apply (only_event d)|]. eexists. split.
  - apply (poll_all_complete fuel env i token _ after d y); [done|lia|done..].
  - by apply found_once.
Qed.
End Delivered.

(** ** Witnesses *)

Section Witnesses.
Import Sample Demo.

(** After the lossy flush of EndToEnd the group is polled in frames. *)
Definition after_flush : Db.t := current (App.backend (app (sender delivered.2))).
Definition polled : option (list SyncEvent.t) := poll_all 5 env (fill 16 120) token group 0 after_flush.
Lemma polled_eq : option_map (List.map SyncEvent.event_id) polled = Some [fill 16 30].
Proof. vm_compute. reflexivity. Qed.
Lemma token_device : ∃ y, (authenticate_access (auth_now env) token (quiet after_flush [])).1 = Ok y
  ∧ exists_where (active_member group y) (group_members after_flush) = true.
Proof. eexists. split; vm_compute; reflexivity. Qed.

Lemma accepted_message_reaches_members_witness :
  (∃ s x, reaches lossy_stack s ∧ x ∈ group_events (current (App.backend (app s)))
     ∧ GroupEvent.event_id x = fill 16 30 ∧ GroupEvent.ciphertext x = [z2b 9])
  ∧ option_map (List.map SyncEvent.event_id) polled = Some [fill 16 30].
Proof.
  split; [|exact polled_eq].
  pose proof (accepted_message_reaches_members 500 client [acceptance] delivered.2 lossy_stack_ok
    delivered_eq) as H.
  apply Forall2_cons_1 in H as [H _].
  destruct (H upload_frame token Demo.group (fill 16 30) 1 None [z2b 9] upload_decodes upload_made)
    as (s & x & duplicate & H1 & H2 & H3 & H4 & _).
  exists s, x. split; [exact H1|]. split; [exact H2|]. split; [exact H3|exact H4].
Defined.
End Witnesses.
