(* ===== verification/Mls.v ===== *)
(** * Mls: the OpenMLS boundary of messenger-crypto

    Models crates/messenger-crypto/src/lib.rs: member credentials, every
    operation of [CryptoEngine] and the encrypted snapshots of its state.
    OpenMLS is not in the repository: the class [OpenMls] lists what the code
    calls, [OpenMlsLaws] the documented behaviour it relies on.  The values of
    the storage are a map, as the code reads and replaces them itself. *)
From Stdlib Require Import ZArith Lia.
From stdpp Require Import base gmap list strings relations.
From S2P Require Import Prelude Protocol Crypto Identity.

Module CryptoError.
Inductive t :=
| OpenMls (operation : string)
| InvalidMessage | ConversationNotFound | InvalidCredential | StateAuthentication.
End CryptoError.

(** ** Member credentials *)
Module MemberCredential.
Record t := Make {
  device_id : Id; account_id : array 32; certificate_fingerprint : array 16
}.

Definition encode (m : t) : bytes :=
  z2b 1 :: arr (device_id m) ++ arr (account_id m) ++ arr (certificate_fingerprint m).

(** [value[from..from + n].try_into()] *)
Definition field (n from : nat) (value : bytes) : result CryptoError.t (array n) :=
  ok_or (try_array n (take n (drop from value))) CryptoError.InvalidCredential.

Definition decode (value : bytes) : result CryptoError.t t :=
  if negb (len value =? 65) || negb (b2z (nth 0 value Init.Byte.x00) =? 1)
  then Err CryptoError.InvalidCredential
  else
    device_id ← field 16 1 value;
    account_id ← field 32 17 value;
    certificate_fingerprint ← field 16 49 value;
    Ok (Make device_id account_id certificate_fingerprint).
#[export] Instance t_eq_dec : EqDecision t.
Proof. solve_decision. Defined.
End MemberCredential.
#[export] Existing Instance MemberCredential.t_eq_dec.

Module GroupChange.
Record t := Make { commit : bytes; welcome : option bytes }.
End GroupChange.

Module IncomingMessage.
Inductive t := Application (value : bytes) | CommitApplied | ProposalQueued.
End IncomingMessage.

(** ** OpenMLS *)

Abbreviation storage := (gmap bytes bytes).

(** The provider: the values of its storage and its randomness. *)
Record Provider (R : Type) : Type := MakeProvider { values : storage; rng : R }.
Arguments MakeProvider {R}.
Arguments values {R}.
Arguments rng {R}.

Record SenderRatchetConfiguration : Type := MakeSenderRatchet {
  out_of_order_tolerance : Z; maximum_forward_distance : Z
}.

(** An operation on a group may change the group and the provider, also when
    it fails. *)
Definition mls_op (G R A : Type) : Type := G → Provider R → option A * (G * Provider R).

Class OpenMls : Type := {
  Rng : Type;
  Ciphersuite : Type;
  MLS_128_DHKEMX25519_CHACHA20POLY1305_SHA256_Ed25519 : Ciphersuite;
  Credential : Type;
  Signer : Type;
  Group : Type;
  KeyPackage : Type;
  KeyPackageIn : Type;
  MessageIn : Type;
  MessageOut : Type;
  Welcome : Type;
  StagedWelcome : Type;
  ProtocolMessage : Type;
  StagedCommit : Type;
  Proposal : Type;

  (** [BasicCredential::new(identity).into()] and [serialized_content] *)
  basic_credential : bytes → Credential;
  serialized_content : Credential → bytes;

  (** [SignatureKeyPair]: [new(ED25519)], [store], [to_public_vec] and its codec *)
  new_signer : Rng → option Signer * Rng;
  store_signer : Signer → storage → option storage;
  to_public_vec : Signer → bytes;
  signer_serialize : Signer → option bytes;
  signer_deserialize : bytes → option Signer;

  (** [KeyPackage::builder().build(..)], the codec and [validate] *)
  build_key_package : Ciphersuite → Signer → Credential * bytes → Provider Rng →
    option KeyPackage * Provider Rng;
  key_package_serialize : KeyPackage → option bytes;
  key_package_deserialize : bytes → option KeyPackageIn;
  key_package_validate : KeyPackageIn → option KeyPackage;

  (** [MlsGroup::new_with_group_id], [StagedWelcome], [load] and [delete] *)
  new_group : Ciphersuite → bool → SenderRatchetConfiguration → Signer → bytes →
    Credential * bytes → Provider Rng → option Group * Provider Rng;
  stage_welcome : bool → SenderRatchetConfiguration → Welcome → Provider Rng →
    option StagedWelcome * Provider Rng;
  into_group : StagedWelcome → Provider Rng → option Group * Provider Rng;
  load_group : storage → bytes → option (option Group);
  delete_group : Group → storage → bool * storage;

  group_id_of : Group → bytes;
  epoch_of : Group → Z;
  members : Group → list (Z * Credential);

  add_members : Signer → list KeyPackage → mls_op Group Rng (MessageOut * MessageOut);
  propose_add_member : Signer → KeyPackage → mls_op Group Rng MessageOut;
  remove_members : Signer → list Z → mls_op Group Rng (MessageOut * option MessageOut);
  propose_remove_member : Signer → Z → mls_op Group Rng MessageOut;
  merge_pending_commit : mls_op Group Rng unit;
  create_message : Signer → bytes → mls_op Group Rng MessageOut;
  mls_self_update : Signer → mls_op Group Rng MessageOut;
  process_message : ProtocolMessage →
    mls_op Group Rng (bytes + StagedCommit + Proposal + unit);
  merge_staged_commit : StagedCommit → mls_op Group Rng unit;
  store_pending_proposal : Proposal → mls_op Group Rng unit;

  (** [MlsMessageIn::tls_deserialize_exact], [extract] and [try_into_protocol_message] *)
  message_deserialize : bytes → option MessageIn;
  extract_welcome : MessageIn → option Welcome;
  into_protocol_message : MessageIn → option ProtocolMessage;
  message_serialize : MessageOut → option bytes
}.

Section Engine.
Context `{M : OpenMls} `{C : Crypto}.

Definition CIPHERSUITE : Ciphersuite := MLS_128_DHKEMX25519_CHACHA20POLY1305_SHA256_Ed25519.
Definition STATE_AAD : bytes := lit "resilient/openmls-state/v1".
Definition ratchet : SenderRatchetConfiguration := MakeSenderRatchet 100 1000.
End Engine.

Module CryptoEngine.
Record t `{M : OpenMls} : Type := Make {
  provider : Provider Rng;
  signer : Signer;
  credential : Credential * bytes;
  groups : gmap bytes Group;
  state_key : array 32
}.
Section Fields.
Context `{M : OpenMls}.
Definition set_provider (p : Provider Rng) (e : t) : t :=
  Make _ p (signer e) (credential e) (groups e) (state_key e).
Definition set_groups (g : gmap bytes Group) (e : t) : t :=
  Make _ (provider e) (signer e) (credential e) g (state_key e).
End Fields.
End CryptoEngine.
Import CryptoEngine.

(** ** Operations *)

Section Operations.
Context `{M : OpenMls} `{C : Crypto}.

Definition credential_with_key (identity : bytes) (s : Signer) : Credential * bytes :=
  (basic_credential identity, to_public_vec s).

(** [initialize_crypto_store] with the randomness [r]. *)
Definition initialize_crypto_store (r : Rng) (member : MemberCredential.t) (key : array 32)
    : result CryptoError.t CryptoEngine.t :=
  let '(s, r) := new_signer r in
  s ← ok_or s (CryptoError.OpenMls "signature key generation");
  v ← ok_or (store_signer s ∅) (CryptoError.OpenMls "signature key storage");
  Ok (Make _ (MakeProvider v r) s (credential_with_key (MemberCredential.encode member) s) ∅ key).

Definition engine_op (A : Type) : Type :=
  CryptoEngine.t → result CryptoError.t A * CryptoEngine.t.

(** The first failure ends the iteration; the provider keeps what it did. *)
Fixpoint build_key_packages (n : nat) : engine_op (list bytes) := λ e,
  match n with
  | O => (Ok [], e)
  | S n =>
      let '(package, p) := build_key_package CIPHERSUITE (signer e) (credential e) (provider e) in
      let e := set_provider p e in
      match
        package ← ok_or package (CryptoError.OpenMls "key package generation");
        ok_or (key_package_serialize package) (CryptoError.OpenMls "key package serialization")
      with
      | Err x => (Err x, e)
      | Ok b => let '(l, e) := build_key_packages n e in (cons b <$> l, e)
      end
  end.

Definition generate_key_packages (count : Z) : engine_op (list bytes) :=
  build_key_packages (Z.to_nat (Z.min count 100)).
Definition export_public_key_packages (count : Z) : engine_op (list bytes) :=
  generate_key_packages count.

Definition create_conversation (group_id : bytes) : engine_op unit := λ e,
  if (len group_id =? 0) || (255 <? len group_id) then (Err CryptoError.InvalidMessage, e)
  else
    let '(group, p) := new_group CIPHERSUITE true ratchet (signer e) group_id (credential e) (provider e) in
    let e := set_provider p e in
    match group with
    | None => (Err (CryptoError.OpenMls "group creation"), e)
    | Some g => (Ok tt, set_groups (<[group_id := g]> (groups e)) e)
    end.

Definition join_conversation_from_welcome (welcome : bytes) : engine_op bytes := λ e,
  match message_deserialize welcome ≫= extract_welcome with
  | None => (Err CryptoError.InvalidMessage, e)
  | Some welcome =>
      let '(staged, p) := stage_welcome true ratchet welcome (provider e) in
      match staged with
      | None => (Err CryptoError.InvalidMessage, set_provider p e)
      | Some staged =>
          let '(group, p) := into_group staged p in
          let e := set_provider p e in
          match group with
          | None => (Err CryptoError.InvalidMessage, e)
          | Some g => (Ok (group_id_of g), set_groups (<[group_id_of g := g]> (groups e)) e)
          end
      end
  end.

(** *** Operations on one group

    A failure keeps what the group and the provider have become. *)
Definition group_op (A : Type) : Type :=
  Group * Provider Rng → result CryptoError.t A * (Group * Provider Rng).
#[export] Instance group_op_ret : MRet group_op := λ A a s, (Ok a, s).
#[export] Instance group_op_bind : MBind group_op := λ A B f m s,
  match m s with
  | (Ok a, s) => f a s
  | (Err e, s) => (Err e, s)
  end.
Definition attempt {A} (op : mls_op Group Rng A) (x : CryptoError.t) : group_op A := λ s,
  let '(o, s) := op (fst s) (snd s) in (ok_or o x, s).
Definition glift {A} (r : result CryptoError.t A) : group_op A := λ s, (r, s).
Definition serialized (m : MessageOut) (operation : string) : group_op bytes :=
  glift (ok_or (message_serialize m) (CryptoError.OpenMls operation)).

(** [self.groups.get_mut(group_id).ok_or(ConversationNotFound)?] and the rest. *)
Definition with_group {A} (group_id : bytes) (body : group_op A) : engine_op A := λ e,
  match groups e !! group_id with
  | None => (Err CryptoError.ConversationNotFound, e)
  | Some g =>
      let '(r, (g, p)) := body (g, provider e) in
      (r, set_groups (<[group_id := g]> (groups e)) (set_provider p e))
  end.

Definition read_key_package (b : bytes) : result CryptoError.t KeyPackage :=
  ok_or (key_package_deserialize b ≫= key_package_validate) CryptoError.InvalidMessage.

Definition commit_add_members (group_id : bytes) (key_packages : list bytes)
    : engine_op GroupChange.t := λ e,
  match collect read_key_package key_packages with
  | Err x => (Err x, e)
  | Ok packages =>
      with_group group_id
        ('(commit, welcome) ← attempt (add_members (signer e) packages)
            (CryptoError.OpenMls "add member commit");
         _ ← attempt merge_pending_commit (CryptoError.OpenMls "merge add commit");
         commit ← serialized commit "commit serialization";
         welcome ← serialized welcome "welcome serialization";
         mret (GroupChange.Make commit (Some welcome))) e
  end.

Definition propose_add_members (group_id key_package : bytes) : engine_op bytes := λ e,
  match read_key_package key_package with
  | Err x => (Err x, e)
  | Ok package =>
      with_group group_id
        (proposal ← attempt (propose_add_member (signer e) package)
            (CryptoError.OpenMls "add proposal");
         serialized proposal "proposal serialization") e
  end.

(** [group.members().find(..).map(index).ok_or(InvalidCredential)?] *)
Definition find_member (wanted : bytes) : group_op Z := λ s,
  (ok_or (fst <$> List.find (λ c, bool_decide (serialized_content (snd c) = wanted)) (members (fst s)))
     CryptoError.InvalidCredential, s).

Definition commit_remove_members (group_id : bytes) (member : MemberCredential.t)
    : engine_op GroupChange.t := λ e,
  with_group group_id
    (index ← find_member (MemberCredential.encode member);
     '(commit, welcome) ← attempt (remove_members (signer e) [index])
        (CryptoError.OpenMls "remove member commit");
     _ ← attempt merge_pending_commit (CryptoError.OpenMls "merge remove commit");
     commit ← serialized commit "commit serialization";
     welcome ← (match welcome with
                | Some w => b ← serialized w "welcome serialization"; mret (Some b)
                | None => mret None
                end);
     mret (GroupChange.Make commit welcome)) e.

Definition propose_remove_members (group_id : bytes) (member : MemberCredential.t)
    : engine_op bytes := λ e,
  with_group group_id
    (index ← find_member (MemberCredential.encode member);
     proposal ← attempt (propose_remove_member (signer e) index)
        (CryptoError.OpenMls "remove proposal");
     serialized proposal "proposal serialization") e.

Definition encrypt_application_message (group_id plaintext : bytes) : engine_op bytes := λ e,
  with_group group_id
    (m ← attempt (create_message (signer e) plaintext) (CryptoError.OpenMls "application encryption");
     serialized m "message serialization") e.

Definition process_incoming_message (group_id ciphertext : bytes) : engine_op IncomingMessage.t := λ e,
  match message_deserialize ciphertext ≫= into_protocol_message with
  | None => (Err CryptoError.InvalidMessage, e)
  | Some protocol =>
      with_group group_id
        (content ← attempt (process_message protocol) CryptoError.InvalidMessage;
         match content with
         | inl (inl (inl value)) => mret (IncomingMessage.Application value)
         | inl (inl (inr commit)) =>
             _ ← attempt (merge_staged_commit commit) (CryptoError.OpenMls "merge incoming commit");
             mret IncomingMessage.CommitApplied
         | inl (inr proposal) =>
             _ ← attempt (store_pending_proposal proposal) (CryptoError.OpenMls "store proposal");
             mret IncomingMessage.ProposalQueued
         | inr _ => glift (Err CryptoError.InvalidMessage)
         end) e
  end.

Definition self_update (group_id : bytes) : engine_op bytes := λ e,
  with_group group_id
    (update ← attempt (mls_self_update (signer e)) (CryptoError.OpenMls "self update");
     _ ← attempt merge_pending_commit (CryptoError.OpenMls "merge self update");
     serialized update "self update serialization") e.

Definition get_conversation_epoch (group_id : bytes) (e : CryptoEngine.t) : result CryptoError.t Z :=
  g ← ok_or (groups e !! group_id) CryptoError.ConversationNotFound; Ok (epoch_of g).
Definition member_count (group_id : bytes) (e : CryptoEngine.t) : result CryptoError.t Z :=
  g ← ok_or (groups e !! group_id) CryptoError.ConversationNotFound;
  Ok (Z.of_nat (length (members g))).

Definition verify_member_credential (value : bytes) (root_public_key : array 32)
    (certificate : DeviceCertificate.t) : result CryptoError.t MemberCredential.t :=
  member ← MemberCredential.decode value;
  if negb (bool_decide (MemberCredential.account_id member = account_id_from_root_public root_public_key))
     || negb (bool_decide (MemberCredential.device_id member = DeviceCertificate.device_id certificate))
     || negb (bool_decide (MemberCredential.certificate_fingerprint member
                           = device_certificate_fingerprint certificate))
     || negb (verify_device_certificate root_public_key certificate)
  then Err CryptoError.InvalidCredential
  else Ok member.

(** *** Snapshots *)

Definition encrypt_state (nonce : array 24) (key : array 32) (plain : bytes)
    : result CryptoError.t bytes :=
  c ← ok_or (aead_encrypt key nonce STATE_AAD plain) CryptoError.StateAuthentication;
  Ok (arr nonce ++ c).

Definition decrypt_state (key : array 32) (blob : bytes) : result CryptoError.t bytes :=
  if len blob <? 40 then Err CryptoError.StateAuthentication
  else
    match try_array 24 (take 24 blob) with
    | None => Err CryptoError.StateAuthentication
    | Some nonce => ok_or (aead_decrypt key nonce STATE_AAD (drop 24 blob)) CryptoError.StateAuthentication
    end.

Definition put_u32 (value : Z) : bytes := be_bytes 4 value.
Definition put_bytes (value : bytes) : bytes := put_u32 (as_u32 (len value)) ++ value.

(** Readers advance the slice they read from. *)
Definition reads (A : Type) : Type := bytes → result CryptoError.t (A * bytes).
Definition take_u32 : reads Z := λ input,
  if len input <? 4 then Err CryptoError.StateAuthentication
  else Ok (from_be (take 4 input), drop 4 input).
Definition take_bytes : reads bytes := λ input,
  '(n, input) ← take_u32 input;
  if len input <? n then Err CryptoError.StateAuthentication
  else Ok (take (Z.to_nat n) input, drop (Z.to_nat n) input).
Fixpoint take_entries (count : nat) (entries : storage) : reads storage := λ input,
  match count with
  | O => Ok (entries, input)
  | S count =>
      '(k, input) ← take_bytes input;
      '(v, input) ← take_bytes input;
      take_entries count (<[k := v]> entries) input
  end.

(** [entries.sort_by(|a, b| a.0.cmp(b.0))] on the entries in the order in which
    the hash map enumerates them. *)
Definition entry_leb (x y : bytes * bytes) : bool := bytes_leb (fst x) (fst y).
Definition put_entry (x : bytes * bytes) : bytes := put_bytes (fst x) ++ put_bytes (snd x).
Definition snapshot_plain (s identity group_id : bytes) (enumeration : list (bytes * bytes)) : bytes :=
  put_bytes s ++ put_bytes identity ++ put_bytes group_id
  ++ put_u32 (as_u32 (Z.of_nat (length enumeration)))
  ++ concat (put_entry <$> stable_sort entry_leb enumeration).

Definition export_conversation_state (nonce : array 24) (enumeration : storage → list (bytes * bytes))
    (group_id : bytes) (e : CryptoEngine.t) : result CryptoError.t bytes :=
  _ ← ok_or (groups e !! group_id) CryptoError.ConversationNotFound;
  s ← ok_or (signer_serialize (signer e)) (CryptoError.OpenMls "signer serialization");
  encrypt_state nonce (state_key e)
    (snapshot_plain s (serialized_content (fst (credential e))) group_id
       (enumeration (values (provider e)))).

(** The part of [import_conversation_state] before it changes the engine. *)
Definition read_snapshot (plain : bytes) : result CryptoError.t (Signer * bytes * bytes * storage) :=
  '(signer_bytes, input) ← take_bytes plain;
  '(identity, input) ← take_bytes input;
  '(group_id, input) ← take_bytes input;
  '(count, input) ← take_u32 input;
  s ← ok_or (signer_deserialize signer_bytes) CryptoError.StateAuthentication;
  '(entries, input) ← take_entries (Z.to_nat count) ∅ input;
  _ ← ensure (len input =? 0) CryptoError.StateAuthentication;
  Ok (s, identity, group_id, entries).

Definition import_conversation_state (encrypted : bytes) : engine_op bytes := λ e,
  match plain ← decrypt_state (state_key e) encrypted; read_snapshot plain with
  | Err x => (Err x, e)
  | Ok (s, identity, group_id, entries) =>
      let e := Make _ (MakeProvider entries (rng (provider e))) s
                 (credential_with_key identity s) (groups e) (state_key e) in
      match load_group entries group_id with
      | Some (Some g) => (Ok group_id, set_groups (<[group_id := g]> (groups e)) e)
      | _ => (Err CryptoError.StateAuthentication, e)
      end
  end.

Definition destroy_local_conversation_state (group_id : bytes) : engine_op unit := λ e,
  match groups e !! group_id with
  | None => (Err CryptoError.ConversationNotFound, e)
  | Some g =>
      let '(deleted, v) := delete_group g (values (provider e)) in
      (if deleted then Ok tt else Err (CryptoError.OpenMls "group deletion"),
       set_groups (delete group_id (groups e))
         (set_provider (MakeProvider v (rng (provider e))) e))
  end.
End Operations.

(** ** What the code relies on *)

(** [v'] holds the group [g] and otherwise the groups of [v]. *)
Definition stored `{M : OpenMls} (g : Group) (v v' : storage) : Prop :=
  load_group v' (group_id_of g) = Some (Some g)
  ∧ ∀ j, j ≠ group_id_of g → load_group v' j = load_group v j.
Definition same_groups `{M : OpenMls} (v v' : storage) : Prop :=
  ∀ j, load_group v' j = load_group v j.

(** A successful operation on a group that is in the storage keeps it there, as
    it has become, and no other group changes: OpenMLS writes the state of a
    group to the storage provider whenever it changes. *)
Definition persistent `{M : OpenMls} {A} (op : mls_op Group Rng A) : Prop :=
  ∀ g p a g' p', op g p = (Some a, (g', p')) →
    load_group (values p) (group_id_of g) = Some (Some g) →
    group_id_of g' = group_id_of g ∧ stored g' (values p) (values p').

Class OpenMlsLaws `{M : OpenMls} : Prop := {
  content_of_basic b : serialized_content (basic_credential b) = b;
  signer_codec s b : signer_serialize s = Some b → signer_deserialize b = Some s;
  build_key_package_groups c s x p r p' :
    build_key_package c s x p = (r, p') → same_groups (values p) (values p');
  new_group_stored c b k s i x p g p' :
    new_group c b k s i x p = (Some g, p') → group_id_of g = i ∧ stored g (values p) (values p');
  stage_welcome_groups b k w p r p' :
    stage_welcome b k w p = (r, p') → same_groups (values p) (values p');
  into_group_stored w p g p' :
    into_group w p = (Some g, p') → stored g (values p) (values p');
  add_members_persistent s l : persistent (add_members s l);
  propose_add_persistent s k : persistent (propose_add_member s k);
  remove_members_persistent s l : persistent (remove_members s l);
  propose_remove_persistent s i : persistent (propose_remove_member s i);
  merge_pending_persistent : persistent merge_pending_commit;
  create_message_persistent s m : persistent (create_message s m);
  self_update_persistent s : persistent (mls_self_update s);
  process_message_persistent m : persistent (process_message m);
  merge_staged_persistent c : persistent (merge_staged_commit c);
  store_proposal_persistent x : persistent (store_pending_proposal x);
  load_group_id v i g : load_group v i = Some (Some g) → group_id_of g = i;
  delete_group_gone g v v' :
    delete_group g v = (true, v') →
    load_group v' (group_id_of g) = Some None
    ∧ ∀ j, j ≠ group_id_of g → load_group v' j = load_group v j
}.

(** ** Credentials *)

Lemma field_at n (pre : bytes) (a : array n) (post : bytes) from :
  from = length pre → MemberCredential.field n from (pre ++ arr a ++ post) = Ok a.
Proof.
  intros ->. unfold MemberCredential.field. rewrite drop_app_length.
  rewrite take_app_length' by (by rewrite array_length). by rewrite try_array_arr.
Qed.

Lemma decode_encode m : MemberCredential.decode (MemberCredential.encode m) = Ok m.
Proof.
  destruct m as [d a f]. unfold MemberCredential.encode, MemberCredential.decode.
  cbn [nth MemberCredential.device_id MemberCredential.account_id MemberCredential.certificate_fingerprint].
  replace (len _) with 65 by (unfold len; cbn [length]; rewrite !length_app, !array_length; done).
  rewrite b2z_z2b_small by lia. cbn [negb orb Z.eqb Pos.eqb].
  change (z2b 1 :: ?l) with ([z2b 1] ++ l).
  rewrite (field_at 16 [z2b 1] d (arr a ++ arr f) 1) by done.
  rewrite (app_assoc [z2b 1]), (field_at 32 ([z2b 1] ++ arr d) a (arr f) 17)
    by (by rewrite length_app, array_length).
  cbn [mbind result_bind].
  rewrite (app_assoc _ (arr a)), <- (app_nil_r (arr f)),
    (field_at 16 (([z2b 1] ++ arr d) ++ arr a) f [] 49)
    by (by rewrite !length_app, !array_length).
  done.
Qed.

Lemma field_Ok n from v (a : array n) :
  MemberCredential.field n from v = Ok a → arr a = take n (drop from v).
Proof. intros H%ok_or_Ok%try_array_inv. done. Qed.

(** Member credentials are a bijection: the decoder accepts exactly the
    encodings, 65 bytes that begin with the version 1. *)
Theorem member_credential_exact v m :
  MemberCredential.decode v = Ok m ↔ v = MemberCredential.encode m.
Proof.
  split; [|intros ->; apply decode_encode]. unfold MemberCredential.decode.
  destruct (negb _ || negb _) eqn:E; [done|].
  apply orb_false_iff in E as [El%negb_false_iff%Z.eqb_eq Eb%negb_false_iff%Z.eqb_eq].
  intros (d & Hd%field_Ok & H)%bind_Ok. apply bind_Ok in H as (a & Ha%field_Ok & H).
  apply bind_Ok in H as (f & Hf%field_Ok & [= <-]). unfold MemberCredential.encode; cbn [
    MemberCredential.device_id MemberCredential.account_id MemberCredential.certificate_fingerprint].
  rewrite Hd, Ha, Hf. destruct v as [|b v]; [done|]. cbn [nth] in Eb.
  rewrite <- (z2b_b2z b), Eb. unfold len in El. cbn [length] in El. f_equal. cbn [drop].
  rewrite (firstn_all2 (n := 16) (drop 48 v)) by (rewrite length_drop; lia).
  replace (drop 48 v) with (drop 32 (drop 16 v)) by (by rewrite drop_drop).
  by rewrite !take_drop.
Qed.

Lemma encode_inj m1 m2 : MemberCredential.encode m1 = MemberCredential.encode m2 → m1 = m2.
Proof. intros H%(f_equal MemberCredential.decode). rewrite !decode_encode in H. congruence. Qed.

(** A credential is accepted exactly when it is the encoding of the account
    of the root key, the device and the fingerprint of a certificate that the
    root key has signed; everything else is InvalidCredential. *)
Theorem verify_member_credential_exact `{C : Crypto} v root cert :
  let member := MemberCredential.Make (DeviceCertificate.device_id cert)
    (account_id_from_root_public root) (device_certificate_fingerprint cert) in
  verify_member_credential v root cert
  = if bool_decide (v = MemberCredential.encode member) && verify_device_certificate root cert
    then Ok member else Err CryptoError.InvalidCredential.
Proof.
  cbn zeta. unfold verify_member_credential.
  destruct (MemberCredential.decode v) as [m|x] eqn:E; cbn [mbind result_bind].
  - apply member_credential_exact in E as ->.
    destruct (decide (m = MemberCredential.Make (DeviceCertificate.device_id cert)
      (account_id_from_root_public root) (device_certificate_fingerprint cert))) as [->|Hne].
    + rewrite !bool_decide_eq_true_2 by done. by destruct (verify_device_certificate root cert).
    + rewrite (bool_decide_eq_false_2 (MemberCredential.encode m = _)) by (intros ?%encode_inj; done).
      destruct m as [d a f]; repeat case_bool_decide; cbn in *; subst; done.
  - rewrite bool_decide_eq_false_2; cbn [andb].
    + revert E. unfold MemberCredential.decode, MemberCredential.field, ok_or, mbind, result_bind.
      repeat case_match; congruence.
    + intros ->. by rewrite decode_encode in E.
Qed.

(** ** The open groups and the storage agree *)

(** An engine's life: the calls that change it.  [import] replaces the whole
    storage, so only an import that leaves no other group open belongs here;
    what the others do is the subject of [import_orphans_conversations]. *)
Module EngineOp.
Inductive t :=
| GenerateKeyPackages (count : Z)
| CreateConversation (group_id : bytes)
| Join (welcome : bytes)
| CommitAdd (group_id : bytes) (key_packages : list bytes)
| ProposeAdd (group_id key_package : bytes)
| CommitRemove (group_id : bytes) (member : MemberCredential.t)
| ProposeRemove (group_id : bytes) (member : MemberCredential.t)
| Encrypt (group_id plaintext : bytes)
| Process (group_id ciphertext : bytes)
| SelfUpdate (group_id : bytes)
| Import (encrypted : bytes)
| Destroy (group_id : bytes).

(** The group an operation is about, when it needs one that is open. *)
Definition target (o : t) : option bytes :=
  match o with
  | CommitAdd i _ | ProposeAdd i _ | CommitRemove i _ | ProposeRemove i _
  | Encrypt i _ | Process i _ | SelfUpdate i | Destroy i => Some i
  | _ => None
  end.
Definition is_import (o : t) : bool := match o with Import _ => true | _ => false end.
End EngineOp.

Section Life.
Context `{M : OpenMls} `{C : Crypto}.

Definition outcome {A} (p : result CryptoError.t A * CryptoEngine.t) : bool * CryptoEngine.t :=
  (is_ok (fst p), snd p).
(** Whether the call succeeds, and the engine after it. *)
Definition run (o : EngineOp.t) (e : CryptoEngine.t) : bool * CryptoEngine.t :=
  match o with
  | EngineOp.GenerateKeyPackages n => outcome (generate_key_packages n e)
  | EngineOp.CreateConversation i => outcome (create_conversation i e)
  | EngineOp.Join w => outcome (join_conversation_from_welcome w e)
  | EngineOp.CommitAdd i l => outcome (commit_add_members i l e)
  | EngineOp.ProposeAdd i k => outcome (propose_add_members i k e)
  | EngineOp.CommitRemove i m => outcome (commit_remove_members i m e)
  | EngineOp.ProposeRemove i m => outcome (propose_remove_members i m e)
  | EngineOp.Encrypt i p => outcome (encrypt_application_message i p e)
  | EngineOp.Process i c => outcome (process_incoming_message i c e)
  | EngineOp.SelfUpdate i => outcome (self_update i e)
  | EngineOp.Import b => outcome (import_conversation_state b e)
  | EngineOp.Destroy i => outcome (destroy_local_conversation_state i e)
  end.

Definition in_storage (v : storage) (i : bytes) (g : Group) : Prop :=
  group_id_of g = i ∧ load_group v i = Some (Some g).
Definition in_sync (e : CryptoEngine.t) : Prop :=
  map_Forall (in_storage (values (provider e))) (groups e).
Definition credentialed (e : CryptoEngine.t) : Prop :=
  ∃ identity, credential e = credential_with_key identity (signer e).

(** Successful calls, without the imports that leave another group open beside
    the one that they load. *)
Definition succeeds (e e' : CryptoEngine.t) : Prop :=
  ∃ o, run o e = (true, e') ∧
    match o with
    | EngineOp.Import b => ∀ i, fst (import_conversation_state b e) = Ok i → dom (groups e) ⊆ {[i]}
    | _ => True
    end.

(** *** Operations on one group keep it stored *)
Context `{L : !OpenMlsLaws}.

Definition keeps {A} (m : group_op A) : Prop := ∀ g p a g' p',
  m (g, p) = (Ok a, (g', p')) → load_group (values p) (group_id_of g) = Some (Some g) →
  group_id_of g' = group_id_of g ∧ stored g' (values p) (values p').

Lemma keeps_pure {A} (m : group_op A) : (∀ s, (m s).2 = s) → keeps m.
Proof.
  intros H g p a g' p' E Hl. specialize (H (g, p)). rewrite E in H. injection H as -> ->.
  by repeat split.
Qed.
Lemma keeps_attempt {A} (op : mls_op Group Rng A) x : persistent op → keeps (attempt op x).
Proof.
  intros H g p a g' p'. unfold attempt. cbn [fst snd].
  destruct (op g p) as [[b|] [g1 p1]] eqn:E; [|done]. intros [= <- <- <-]. by eapply H.
Qed.
Lemma keeps_bind {A B} (m : group_op A) (k : A → group_op B) :
  keeps m → (∀ a, keeps (k a)) → keeps (m ≫= k).
Proof.
  intros Hm Hk g p b g' p' E Hl. unfold mbind, group_op_bind in E.
  destruct (m (g, p)) as [[a|x] [g1 p1]] eqn:E1; [|done].
  destruct (Hm _ _ _ _ _ E1 Hl) as (Hi & Hl1 & Ho). rewrite Hi in *.
  destruct (Hk _ _ _ _ _ _ E) as (Hi2 & Hl2 & Ho2); [by rewrite Hi|].
  split; [congruence|]. rewrite Hi in *. split; [congruence|].
  intros j Hj. rewrite Ho2, Ho by congruence. done.
Qed.

Lemma in_sync_insert e v p' g :
  in_sync e → stored g (values (provider e)) (values p') → v = <[group_id_of g := g]> (groups e) →
  in_sync (set_groups v (set_provider p' e)).
Proof.
  intros Hs [Hg Ho] ->. intros i h. cbn. intros [[<- <-]|[Hi Hh]]%lookup_insert_Some; [done|].
  destruct (Hs i h Hh) as [H1 H2]. split; [done|]. by rewrite Ho.
Qed.

Lemma with_group_sync {A} i (m : group_op A) e r e' :
  keeps m → in_sync e → with_group i m e = (Ok r, e') → in_sync e'.
Proof.
  intros Hm Hs. unfold with_group. destruct (groups e !! i) as [g|] eqn:Hg; [|done].
  destruct (Hs i g Hg) as [Hi Hl]. destruct (m (g, provider e)) as [r1 [g1 p1]] eqn:E.
  intros [= -> <-]. rewrite <- Hi in Hl. destruct (Hm _ _ _ _ _ E Hl) as [Hi1 Hst].
  apply in_sync_insert with (g := g1); [done|done|congruence].
Qed.

Lemma same_groups_sync e p : same_groups (values (provider e)) (values p) → in_sync e → in_sync (set_provider p e).
Proof. intros H Hs i g Hg. destruct (Hs i g Hg) as [H1 H2]. split; [done|]. cbn. by rewrite H. Qed.

Lemma build_key_packages_sync n e : in_sync e → in_sync (build_key_packages n e).2.
Proof using L.
  revert e. induction n as [|n IH]; intros e Hs; [done|]. cbn [build_key_packages].
  destruct (build_key_package _ _ _ _) as [r p] eqn:E. apply build_key_package_groups in E.
  assert (Hs1 : in_sync (set_provider p e)) by by apply same_groups_sync.
  destruct (mbind _ _) as [b|x]; [|done].
  specialize (IH _ Hs1). by destruct (build_key_packages n _).
Qed.
End Life.

Create HintDb mls.
#[export] Hint Resolve add_members_persistent propose_add_persistent remove_members_persistent
  propose_remove_persistent merge_pending_persistent create_message_persistent
  self_update_persistent process_message_persistent merge_staged_persistent
  store_proposal_persistent : mls.
Ltac solve_keeps_group :=
  repeat first
    [ apply keeps_bind; [|intros ?]
    | apply keeps_attempt; solve [eauto with mls]
    | solve [apply keeps_pure; done]
    | case_match ].

Section Sync.
Context `{M : OpenMls} `{C : Crypto} `{L : !OpenMlsLaws}.

Lemma create_conversation_sync i e e' :
  in_sync e → create_conversation i e = (Ok tt, e') → in_sync e'.
Proof using L.
  intros Hs. unfold create_conversation. destruct (_ || _); [done|].
  destruct (new_group _ _ _ _ _ _ _) as [[g|] p] eqn:E; [|done]. intros [= <-].
  apply new_group_stored in E as [Hi Hst].
  apply in_sync_insert with (g := g); [done|done|]. by rewrite Hi.
Qed.

Lemma join_sync w e i e' :
  in_sync e → join_conversation_from_welcome w e = (Ok i, e') → in_sync e'.
Proof using L.
  intros Hs. unfold join_conversation_from_welcome. destruct (_ ≫= _) as [m|]; [|done].
  destruct (stage_welcome _ _ _ _) as [[st|] p] eqn:E1; [|done].
  destruct (into_group st p) as [[g|] p1] eqn:E2; [|done]. intros [= <- <-].
  apply stage_welcome_groups in E1. apply into_group_stored in E2 as [Hg Ho].
  apply in_sync_insert with (g := g); [done| |done].
  split; [done|]. intros j Hj. by rewrite Ho, E1.
Qed.

Lemma destroy_sync i e e' :
  in_sync e → destroy_local_conversation_state i e = (Ok tt, e') → in_sync e'.
Proof using L.
  intros Hs. unfold destroy_local_conversation_state. destruct (groups e !! i) as [g|] eqn:Hg; [|done].
  destruct (delete_group _ _) as [[|] v] eqn:E; [|done]. intros [= <-].
  destruct (Hs i g Hg) as [Hi _]. apply delete_group_gone in E as [_ Ho].
  intros j h Hh. cbn in Hh. apply lookup_delete_Some in Hh as [Hj Hh]. destruct (Hs j h Hh) as [H1 H2].
  split; [done|]. cbn. rewrite Ho; [done|congruence].
Qed.

Lemma import_sync b e i e' :
  dom (groups e) ⊆ {[i]} → import_conversation_state b e = (Ok i, e') → in_sync e'.
Proof using L.
  intros Hd. unfold import_conversation_state.
  destruct (mbind _ _) as [[[[s idn] j] v]|x]; [|done].
  destruct (load_group v j) as [[g|]|] eqn:E; [|done..]. intros [= <- <-].
  intros k h Hh. cbn in Hh. apply lookup_insert_Some in Hh as [[<- <-]|[Hk Hh]].
  - split; [by eapply load_group_id|done].
  - apply elem_of_dom_2 in Hh. set_solver.
Qed.

Lemma succeeds_sync e e' : succeeds e e' → in_sync e → in_sync e'.
Proof using L.
  intros (o & Hr & Hi) Hs. destruct o; cbn [run] in Hr; unfold outcome in Hr;
    match type of Hr with (_ (fst ?p), _) = _ => destruct p as [[r|x] e1] eqn:E end;
    cbn [is_ok fst snd] in Hr; try discriminate; injection Hr as <-.
  - pose proof (build_key_packages_sync (Z.to_nat (Z.min count 100)) e Hs) as H.
    unfold generate_key_packages in E. by rewrite E in H.
  - destruct r. by eapply create_conversation_sync.
  - by eapply join_sync.
  - unfold commit_add_members in E. destruct (collect _ _); [|done].
    eapply with_group_sync; [|done|exact E]. solve_keeps_group.
  - unfold propose_add_members in E. destruct (read_key_package _); [|done].
    eapply with_group_sync; [|done|exact E]. solve_keeps_group.
  - eapply with_group_sync; [|done|exact E]. solve_keeps_group.
  - eapply with_group_sync; [|done|exact E]. solve_keeps_group.
  - eapply with_group_sync; [|done|exact E]. solve_keeps_group.
  - unfold process_incoming_message in E. destruct (_ ≫= _); [|done].
    eapply with_group_sync; [|done|exact E]. solve_keeps_group.
  - eapply with_group_sync; [|done|exact E]. solve_keeps_group.
  - eapply import_sync; [|exact E]. by apply Hi.
  - destruct r. by eapply destroy_sync.
Qed.

End Sync.

(** *** The identity of an engine *)

Section Identity.
Context `{M : OpenMls} `{C : Crypto}.

Definition same_identity (e e' : CryptoEngine.t) : Prop :=
  signer e' = signer e ∧ credential e' = credential e ∧ state_key e' = state_key e.

Lemma with_group_identity {A} i (m : group_op A) e : same_identity e (with_group i m e).2.
Proof.
  unfold with_group. destruct (groups e !! i) as [g|]; [|done]. by destruct (m (g, _)) as [r [g1 p1]].
Qed.
Lemma build_key_packages_identity n e : same_identity e (build_key_packages n e).2.
Proof.
  revert e. induction n as [|n IH]; intros e; [done|]. cbn [build_key_packages].
  destruct (build_key_package _ _ _ _) as [r p]. destruct (mbind _ _) as [b|x]; [|done].
  specialize (IH (set_provider p e)). by destruct (build_key_packages n _).
Qed.

(** Only an import changes the identity of an engine. *)
Lemma run_identity o e :
  EngineOp.is_import o = false → same_identity e (run o e).2.
Proof.
  destruct o; intros Ho; try done; cbn [run]; unfold outcome; cbn [snd];
    try apply with_group_identity.
  - apply build_key_packages_identity.
  - unfold create_conversation. destruct (_ || _); [done|].
    by destruct (new_group _ _ _ _ _ _ _) as [[g|] p].
  - unfold join_conversation_from_welcome. destruct (_ ≫= _); [|done].
    destruct (stage_welcome _ _ _ _) as [[st|] p]; [|done]. by destruct (into_group st p) as [[g|] p1].
  - unfold commit_add_members. destruct (collect _ _); [apply with_group_identity|done].
  - unfold propose_add_members. destruct (read_key_package _); [apply with_group_identity|done].
  - unfold process_incoming_message. destruct (_ ≫= _); [apply with_group_identity|done].
  - unfold destroy_local_conversation_state. destruct (groups e !! _); [|done].
    by destruct (delete_group _ _).
Qed.

Lemma run_credentialed o e : credentialed e → credentialed (run o e).2.
Proof.
  intros [idn H]. destruct (EngineOp.is_import o) eqn:Ho.
  - destruct o; try done. cbn [run]. unfold outcome, import_conversation_state; cbn [snd].
    destruct (mbind _ _) as [[[[s i] g] v]|x]; [|by exists idn]. exists i.
    by destruct (load_group v g) as [[h|]|].
  - destruct (run_identity o e Ho) as (H1 & H2 & _). exists idn. congruence.
Qed.
End Identity.

(** Calls, whatever comes of them. *)
Definition calls `{M : OpenMls} `{C : Crypto} : list EngineOp.t → CryptoEngine.t → CryptoEngine.t :=
  fold_left (λ e o, (run o e).2).

Section Reached.
Context `{M : OpenMls} `{C : Crypto}.

Lemma initialized r member key e :
  initialize_crypto_store r member key = Ok e → in_sync e ∧ credentialed e.
Proof.
  intros Hi. unfold initialize_crypto_store in Hi. destruct (new_signer r) as [s r'].
  apply bind_Ok in Hi as (s' & _ & Hi). apply bind_Ok in Hi as (v & _ & [= <-]).
  split; [apply map_Forall_empty|by eexists].
Qed.
Lemma reached_credentialed e ops : credentialed e → credentialed (calls ops e).
Proof. revert e. induction ops as [|o ops IH]; intros e He; [done|]. by apply IH, run_credentialed. Qed.
Lemma reached_in_sync `{!OpenMlsLaws} e e' : rtc succeeds e e' → in_sync e → in_sync e'.
Proof. induction 1; eauto using succeeds_sync. Qed.
Lemma imported_in_storage `{!OpenMlsLaws} b e i e' :
  import_conversation_state b e = (Ok i, e') →
  ∃ g, groups e' !! i = Some g ∧ in_storage (values (provider e')) i g.
Proof.
  unfold import_conversation_state. destruct (mbind _ _) as [[[[s idn] j] v]|x]; [|done].
  destruct (load_group v j) as [[g|]|] eqn:E; [|done..]. intros [= <- <-]. exists g. cbn.
  rewrite lookup_insert_eq. split; [done|]. split; [by eapply load_group_id|done].
Qed.
End Reached.

(** C35: The open groups of an engine and its storage agree.  After the creation
    of the engine and any successful calls, except that no import leaves another
    group open beside the one that it loads, every open group is in the storage,
    as it is, under its own identifier.  After any calls at all, successful or
    not, the credential holds the public key of the signer, and an import that
    succeeds leaves the group that it loads in agreement with the storage. *)
Theorem engine_in_sync `{M : OpenMls} `{C : Crypto} `{!OpenMlsLaws} r member key e :
  initialize_crypto_store r member key = Ok e →
  (∀ e', rtc succeeds e e' → in_sync e')
  ∧ ∀ ops, credentialed (calls ops e)
      ∧ ∀ b i e', import_conversation_state b (calls ops e) = (Ok i, e') →
          ∃ g, groups e' !! i = Some g ∧ in_storage (values (provider e')) i g.
Proof.
  intros [Hs Hc]%initialized. split; [intros e' He; by eapply reached_in_sync|].
  intros ops. split; [by apply reached_credentialed|]. intros b i e'. apply imported_in_storage.
Qed.

(** ** The snapshot codec *)

Definition fits_u32 (b : bytes) : Prop := len b < 2 ^ 32.
Definition entry_fits (x : bytes * bytes) : Prop := fits_u32 (fst x) ∧ fits_u32 (snd x).
(** Later entries of a snapshot replace earlier ones of the same key. *)
Definition insert_all (l : list (bytes * bytes)) (v : storage) : storage :=
  foldl (λ v x, <[fst x := snd x]> v) v l.

Lemma take_u32_put n r : in_u 32 n → take_u32 (put_u32 n ++ r) = Ok (n, r).
Proof.
  intros [H0 H1]. unfold take_u32, put_u32, len. rewrite length_app, length_be_bytes.
  destruct (Z.ltb_spec (Z.of_nat (4 + length r)) 4); [lia|].
  rewrite take_app_length' by (by rewrite length_be_bytes).
  rewrite drop_app_length' by (by rewrite length_be_bytes).
  rewrite from_be_be_bytes_small by (change (256 ^ Z.of_nat 4) with (2 ^ 32); lia). done.
Qed.

Lemma take_u32_Ok s n r : take_u32 s = Ok (n, r) → s = put_u32 n ++ r ∧ in_u 32 n.
Proof.
  unfold take_u32, put_u32, len. destruct (Z.ltb_spec (Z.of_nat (length s)) 4); [done|].
  intros [= <- <-]. assert (Hl : length (take 4 s) = 4%nat) by (rewrite length_take; lia).
  rewrite be_bytes_from_be_len by done. split; [by rewrite take_drop|].
  pose proof (from_be_bound (take 4 s)) as Hb. rewrite Hl in Hb. exact Hb.
Qed.

Lemma take_bytes_put v r : fits_u32 v → take_bytes (put_bytes v ++ r) = Ok (v, r).
Proof.
  unfold fits_u32, put_bytes, take_bytes. intros Hv. pose proof (Nat2Z.is_nonneg (length v)).
  rewrite as_u32_small by (unfold in_u, len in *; lia). rewrite <- app_assoc, take_u32_put by (unfold in_u, len in *; lia).
  cbn [mbind result_bind]. unfold len. rewrite length_app.
  destruct (Z.ltb_spec (Z.of_nat (length v + length r)) (Z.of_nat (length v))); [lia|].
  by rewrite Nat2Z.id, take_app_length, drop_app_length.
Qed.

Lemma take_bytes_Ok s v r : take_bytes s = Ok (v, r) → s = put_bytes v ++ r ∧ fits_u32 v.
Proof.
  unfold take_bytes. intros ([n s'] & [-> Hn]%take_u32_Ok & H)%bind_Ok. unfold in_u in Hn.
  destruct (Z.ltb_spec (len s') n); [done|]. injection H as <- <-. unfold len in *.
  assert (Hl : len (take (Z.to_nat n) s') = n) by (unfold len; rewrite length_take; lia).
  unfold put_bytes, fits_u32. rewrite Hl, as_u32_small by (unfold in_u; lia).
  rewrite <- app_assoc, take_drop. split; [done|lia].
Qed.

Lemma take_entries_put l m r :
  Forall entry_fits l →
  take_entries (length l) m (concat (put_entry <$> l) ++ r) = Ok (insert_all l m, r).
Proof.
  intros H. revert m. induction H as [|[k v] l [Hk Hv] _ IH]; intros m; [done|].
  cbn [length take_entries fmap list_fmap concat]. unfold put_entry at 1. cbn [fst snd].
  rewrite <- !app_assoc, take_bytes_put by done. cbn [mbind result_bind].
  rewrite take_bytes_put by done. cbn [mbind result_bind]. apply IH.
Qed.

Lemma take_entries_Ok n m s v r :
  take_entries n m s = Ok (v, r) →
  ∃ l, length l = n ∧ Forall entry_fits l ∧ s = concat (put_entry <$> l) ++ r ∧ v = insert_all l m.
Proof.
  revert m s. induction n as [|n IH]; intros m s; cbn [take_entries].
  { intros [= <- <-]. by exists []. }
  intros ([k s1] & [-> Hk]%take_bytes_Ok & H)%bind_Ok.
  apply bind_Ok in H as ([x s2] & [-> Hx]%take_bytes_Ok & H).
  apply IH in H as (l & <- & Hl & -> & ->). exists ((k, x) :: l). split_and!; [done|by constructor| |done].
  cbn [fmap list_fmap concat]. unfold put_entry at 2. cbn [fst snd]. by rewrite <- !app_assoc.
Qed.

Lemma insert_all_nodup l m :
  NoDup (l.*1) → insert_all l m = list_to_map l ∪ m.
Proof.
  revert m. induction l as [|[k v] l IH]; intros m; [intros _; cbn; by rewrite (left_id_L ∅ (∪))|].
  cbn [fmap list_fmap fst]. intros [Hk Hl]%NoDup_cons. cbn [insert_all foldl fst snd].
  change (foldl _ ?m l) with (insert_all l m). rewrite IH by done. cbn [list_to_map foldr].
  rewrite <- insert_union_l, insert_union_r; [done|]. by apply not_elem_of_list_to_map_1.
Qed.

(** The values come back whatever order the hash map enumerated them in. *)
Lemma insert_all_enumeration (v : storage) l :
  l ≡ₚ map_to_list v → insert_all (stable_sort entry_leb l) ∅ = v.
Proof.
  intros Hp. assert (Hs : stable_sort entry_leb l ≡ₚ map_to_list v) by by rewrite stable_sort_perm.
  assert (Hn : NoDup ((stable_sort entry_leb l).*1)).
  { rewrite Hs. apply NoDup_fst_map_to_list. }
  rewrite insert_all_nodup, (right_id_L ∅ (∪)) by done.
  rewrite (list_to_map_proper _ _ Hn Hs). apply list_to_map_to_list.
Qed.

Lemma entry_leb_total x y : entry_leb x y = true ∨ entry_leb y x = true.
Proof. apply bytes_leb_total. Qed.
Lemma entry_leb_trans x y z : entry_leb x y = true → entry_leb y z = true → entry_leb x z = true.
Proof. apply bytes_leb_trans. Qed.

(** A snapshot does not depend on the order in which the hash map of the
    storage is enumerated: sorting by key makes the exported bytes canonical. *)
Theorem snapshot_canonical (v : storage) s identity group_id l1 l2 :
  l1 ≡ₚ map_to_list v → l2 ≡ₚ map_to_list v →
  snapshot_plain s identity group_id l1 = snapshot_plain s identity group_id l2.
Proof.
  intros H1 H2. assert (H : l1 ≡ₚ l2) by by rewrite H1, H2. unfold snapshot_plain.
  rewrite (Permutation_length H). do 6 f_equal.
  apply (sorted_perm_unique entry_leb);
    [apply stable_sort_sorted; [apply entry_leb_total|apply entry_leb_trans]..|by rewrite !stable_sort_perm|].
  intros [k x] [k' y] Hx Hy Ha Hb. rewrite stable_sort_perm, H1 in Hx, Hy.
  assert (k = k') as <- by by apply bytes_leb_antisym.
  apply elem_of_map_to_list in Hx, Hy. congruence.
Qed.

(** ** Snapshots *)

Section Snapshots.
Context `{M : OpenMls} `{C : Crypto}.

Definition snapshot_layout (s identity group_id : bytes) (l : list (bytes * bytes)) : bytes :=
  put_bytes s ++ put_bytes identity ++ put_bytes group_id
  ++ put_u32 (Z.of_nat (length l)) ++ concat (put_entry <$> l).
Definition layout_fits (s identity group_id : bytes) (l : list (bytes * bytes)) : Prop :=
  fits_u32 s ∧ fits_u32 identity ∧ fits_u32 group_id
  ∧ Z.of_nat (length l) < 2 ^ 32 ∧ Forall entry_fits l.

Lemma read_layout sb s identity group_id l :
  layout_fits sb identity group_id l → signer_deserialize sb = Some s →
  read_snapshot (snapshot_layout sb identity group_id l) = Ok (s, identity, group_id, insert_all l ∅).
Proof.
  intros (H1 & H2 & H3 & H4 & H5) Hs. unfold read_snapshot, snapshot_layout.
  do 3 (rewrite take_bytes_put by done; cbn [mbind result_bind]).
  rewrite take_u32_put by (unfold in_u; lia). cbn [mbind result_bind]. rewrite Hs. cbn [ok_or mbind result_bind].
  rewrite Nat2Z.id, <- (app_nil_r (concat _)), take_entries_put by done. done.
Qed.

(** The snapshot reader accepts exactly the snapshots: a plaintext is read
    as a signer, an identity, a group and a storage exactly when it is the
    layout of their encodings with nothing after it, of which, if a key occurs
    twice, the later entry counts. *)
Theorem read_snapshot_exact plain s identity group_id v :
  read_snapshot plain = Ok (s, identity, group_id, v) ↔
  ∃ sb l, layout_fits sb identity group_id l ∧ signer_deserialize sb = Some s
    ∧ plain = snapshot_layout sb identity group_id l ∧ v = insert_all l ∅.
Proof.
  split; [|intros (sb & l & Hf & Hs & -> & ->); by apply read_layout]. unfold read_snapshot.
  intros ([sb i1] & [-> Hsb]%take_bytes_Ok & H)%bind_Ok.
  apply bind_Ok in H as ([idn i2] & [-> Hidn]%take_bytes_Ok & H).
  apply bind_Ok in H as ([gid i3] & [-> Hgid]%take_bytes_Ok & H).
  apply bind_Ok in H as ([n i4] & [-> Hn]%take_u32_Ok & H).
  apply bind_Ok in H as (s' & Hs%ok_or_Ok & H).
  apply bind_Ok in H as ([v' i5] & (l & Hl & Hfit & -> & ->)%take_entries_Ok & H).
  apply bind_Ok in H as ([] & He%ensure_Ok%Z.eqb_eq & [= <- <- <- <-]).
  destruct i5; [|by unfold len in He; cbn in He; lia].
  assert (Hln : Z.of_nat (length l) = n) by (unfold in_u in Hn; lia).
  exists sb, l. unfold layout_fits, snapshot_layout, in_u in *. rewrite Hln, app_nil_r.
  split_and!; try done; lia.
Qed.

Lemma decrypt_encrypt_state (CL : CryptoLaws C) nonce key p b :
  encrypt_state nonce key p = Ok b → decrypt_state key b = Ok p.
Proof.
  unfold encrypt_state. intros (c & Hc & [= <-])%bind_Ok. apply ok_or_Ok in Hc.
  unfold decrypt_state, len. rewrite length_app, array_length.
  pose proof (aead_length _ _ _ _ _ Hc) as Hl. unfold len in Hl.
  destruct (Z.ltb_spec (Z.of_nat (24 + length c)) 40); [lia|].
  rewrite take_app_length' by (by rewrite array_length). rewrite try_array_arr.
  rewrite drop_app_length' by (by rewrite array_length).
  by rewrite (aead_round_trip _ _ _ _ _ Hc).
Qed.

Definition enumerates (enumeration : storage → list (bytes * bytes)) : Prop :=
  ∀ v, enumeration v ≡ₚ map_to_list v.
(** The sizes that [as u32] does not truncate. *)
Definition exportable (group_id : bytes) (e : CryptoEngine.t) : Prop :=
  ∀ sb, signer_serialize (signer e) = Some sb →
    layout_fits sb (serialized_content (fst (credential e))) group_id (map_to_list (values (provider e))).

(** What an engine with the right key makes of an exported snapshot. *)
Lemma import_exported (CL : CryptoLaws C) (L : OpenMlsLaws) nonce enumeration group_id e blob e2 :
  enumerates enumeration → exportable group_id e →
  export_conversation_state nonce enumeration group_id e = Ok blob →
  state_key e2 = state_key e →
  import_conversation_state blob e2
  = let e' := Make _ (MakeProvider (values (provider e)) (rng (provider e2))) (signer e)
                (credential_with_key (serialized_content (fst (credential e))) (signer e))
                (groups e2) (state_key e) in
    match load_group (values (provider e)) group_id with
    | Some (Some g) => (Ok group_id, set_groups (<[group_id := g]> (groups e2)) e')
    | _ => (Err CryptoError.StateAuthentication, e')
    end.
Proof.
  intros Hen Hfit Hexp Hk. unfold export_conversation_state in Hexp.
  apply bind_Ok in Hexp as (g & _ & Hexp). apply bind_Ok in Hexp as (sb & Hsb%ok_or_Ok & Hexp).
  apply (decrypt_encrypt_state CL) in Hexp. unfold import_conversation_state. rewrite Hk, Hexp.
  cbn [mbind result_bind]. destruct (Hfit sb Hsb) as (H1 & H2 & H3 & H4 & H5).
  revert Hexp. generalize (Hen (values (provider e))).
  generalize (enumeration (values (provider e))). intros l Hl _.
  assert (Hp : stable_sort entry_leb l ≡ₚ map_to_list (values (provider e)))
    by by rewrite stable_sort_perm.
  assert (Hn : length (stable_sort entry_leb l) = length (map_to_list (values (provider e))))
    by by apply Permutation_length.
  assert (Hr : read_snapshot (snapshot_plain sb (serialized_content (fst (credential e))) group_id l)
    = Ok (signer e, serialized_content (fst (credential e)), group_id, values (provider e))).
  { apply read_snapshot_exact. exists sb, (stable_sort entry_leb l). split_and!.
    - repeat split; [done..|by rewrite Hn|by rewrite Hp].
    - by apply signer_codec.
    - unfold snapshot_plain, snapshot_layout. rewrite as_u32_small; [|unfold in_u; rewrite <- (Permutation_length Hl) in H4; lia].
      by rewrite Hn, (Permutation_length Hl).
    - symmetry. by apply insert_all_enumeration. }
  rewrite Hr. cbn. by destruct (load_group _ _) as [[h|]|].
Qed.

(** C36: A snapshot restores a conversation.  What an engine whose storage and
    open groups agree exports for one of its conversations is imported by any
    engine with the same state key: the storage, the signer and the credential
    become those of the exporter, and the conversation is opened with exactly
    the group that the exporter had, beside the groups that were open. *)
Theorem snapshot_roundtrip (CL : CryptoLaws C) (L : OpenMlsLaws) nonce enumeration group_id g e blob e2 :
  enumerates enumeration → in_sync e → credentialed e → exportable group_id e →
  groups e !! group_id = Some g →
  export_conversation_state nonce enumeration group_id e = Ok blob →
  state_key e2 = state_key e →
  import_conversation_state blob e2
  = (Ok group_id, Make _ (MakeProvider (values (provider e)) (rng (provider e2))) (signer e)
       (credential e) (<[group_id := g]> (groups e2)) (state_key e)).
Proof.
  intros Hen Hs [idn Hc] Hfit Hg Hexp Hk. rewrite (import_exported CL L nonce enumeration group_id e) by done.
  destruct (Hs group_id g Hg) as [_ ->]. rewrite Hc. unfold credential_with_key. cbn [fst].
  by rewrite content_of_basic.
Qed.

(** C37: An import orphans the conversations it does not bring.  A conversation
    that was open beside an import whose snapshot does not hold it still looks
    open, but it is in no storage any more: what is exported for it afterwards
    is refused by every engine, which by then has already replaced its storage,
    signer and credential. *)
Theorem import_orphans_conversations (CL : CryptoLaws C) (L : OpenMlsLaws)
    nonce enumeration b e i e' j h blob e2 :
  enumerates enumeration → import_conversation_state b e = (Ok i, e') →
  groups e !! j = Some h → j ≠ i → load_group (values (provider e')) j = Some None →
  exportable j e' → export_conversation_state nonce enumeration j e' = Ok blob →
  state_key e2 = state_key e' →
  get_conversation_epoch j e' = Ok (epoch_of h)
  ∧ let '(r, e3) := import_conversation_state blob e2 in
    r = Err CryptoError.StateAuthentication ∧ groups e3 = groups e2
    ∧ values (provider e3) = values (provider e') ∧ signer e3 = signer e'.
Proof.
  intros Hen Hi Hj Hne Hl Hfit Hexp Hk. split.
  - unfold import_conversation_state in Hi. destruct (mbind _ _) as [[[[s idn] k] v]|x]; [|done].
    destruct (load_group v k) as [[g|]|]; [|done..]. injection Hi as -> <-.
    unfold get_conversation_epoch. cbn. by rewrite lookup_insert_ne, Hj by done.
  - rewrite (import_exported CL L nonce enumeration j e') by done. by rewrite Hl.
Qed.
End Snapshots.

(** ** Conversations that are not open *)

Section Closed.
Context `{M : OpenMls} `{C : Crypto}.

Lemma with_group_closed {A} i (m : group_op A) e :
  groups e !! i = None → with_group i m e = (Err CryptoError.ConversationNotFound, e).
Proof. unfold with_group. by intros ->. Qed.

(** A conversation that is not open cannot be touched.  Every operation that
    needs an open group fails and changes nothing, and after its destruction a
    conversation is closed even when the deletion of its state has failed: the
    state is then still in the storage, and destroying it again is refused. *)
Theorem closed_conversation_untouched i e :
  (groups e !! i = None →
   ∀ o, EngineOp.target o = Some i → run o e = (false, e))
  ∧ let e' := (destroy_local_conversation_state i e).2 in
    groups e' = delete i (groups e)
    ∧ destroy_local_conversation_state i e' = (Err CryptoError.ConversationNotFound, e').
Proof.
  split.
  - intros Hg o Ho. destruct o; try done; injection Ho as ->; cbn [run]; unfold outcome,
      commit_add_members, propose_add_members, process_incoming_message, commit_remove_members,
      propose_remove_members, encrypt_application_message, self_update, destroy_local_conversation_state;
      rewrite ?Hg; rewrite ?with_group_closed by done; try done.
    + destruct (collect _ _); [by rewrite with_group_closed|done].
    + destruct (read_key_package _); [by rewrite with_group_closed|done].
    + destruct (_ ≫= _); [by rewrite with_group_closed|done].
  - unfold destroy_local_conversation_state. destruct (groups e !! i) as [g|] eqn:Hg.
    + destruct (delete_group _ _) as [d v]. cbn. split; [done|]. by rewrite lookup_delete_eq.
    + cbn. rewrite Hg. split; [|done]. symmetry. by apply delete_id.
Qed.

(** Key packages come in the requested number, at most a hundred. *)
Lemma build_key_packages_length n e l e' :
  build_key_packages n e = (Ok l, e') → length l = n ∧ groups e' = groups e.
Proof.
  revert e l. induction n as [|n IH]; intros e l; cbn [build_key_packages].
  { by intros [= <- <-]. }
  destruct (build_key_package _ _ _ _) as [r p]. destruct (mbind _ _) as [b|x]; [|done].
  destruct (build_key_packages n _) as [[k|x] e1] eqn:E; [|done]. intros [= <- <-].
  apply IH in E as [<- ->]. done.
Qed.
End Closed.

(** At most a hundred key packages are made at once: a successful call
    returns as many as were asked for, but no more than 100, and it touches no
    group. *)
Theorem key_packages_bounded `{M : OpenMls} count e l e' :
  0 ≤ count → generate_key_packages count e = (Ok l, e') →
  Z.of_nat (length l) = Z.min count 100 ∧ groups e' = groups e ∧ same_identity e e'.
Proof.
  intros Hc H. pose proof (build_key_packages_identity (Z.to_nat (Z.min count 100)) e) as Hi.
  unfold generate_key_packages in H. rewrite H in Hi.
  apply build_key_packages_length in H as [-> Hg]. split; [lia|]. by split.
Qed.

(** ** A concrete OpenMLS

    A group is its identifier and a log of what happened to it; the storage has
    the logs.  A message is a kind and a payload. *)
Module Toy.
Record group := MakeGroup { group_id : bytes; log : bytes }.
Definition key (i : bytes) : bytes := z2b 1 :: i.
Definition store {R} (g : group) (p : Provider R) : Provider R :=
  MakeProvider (<[key (group_id g) := log g]> (values p)) (rng p).
Definition load (v : storage) (i : bytes) : option (option group) :=
  Some (MakeGroup i <$> v !! key i).
(** Append [b] to the log of the group and answer [a]. *)
Definition happen {R A} (b : Z) (a : A) : mls_op group R A := λ g p,
  let g := MakeGroup (group_id g) (log g ++ [z2b b]) in (Some a, (g, store g p)).
Definition tagged (n : Z) (m : bytes) : option bytes :=
  match m with
  | b :: l => if b2z b =? n then Some l else None
  | [] => None
  end.

#[export] Instance openmls : OpenMls := {|
  Rng := Z; Ciphersuite := Z; MLS_128_DHKEMX25519_CHACHA20POLY1305_SHA256_Ed25519 := 3;
  Credential := bytes; Signer := array 32; Group := group;
  KeyPackage := bytes; KeyPackageIn := bytes; MessageIn := bytes; MessageOut := bytes;
  Welcome := bytes; StagedWelcome := bytes; ProtocolMessage := bytes;
  StagedCommit := unit; Proposal := unit;
  basic_credential b := b; serialized_content b := b;
  new_signer r := (Some (make_array 32 r), r + 1);
  store_signer s v := Some (<[[z2b 2] := arr s]> v);
  to_public_vec s := arr s; signer_serialize s := Some (arr s); signer_deserialize b := try_array 32 b;
  build_key_package _ _ x p := (Some (fst x), p);
  key_package_serialize b := Some b; key_package_deserialize b := Some b; key_package_validate b := Some b;
  new_group _ _ _ _ i _ p := let g := MakeGroup i [] in (Some g, store g p);
  stage_welcome _ _ w p := (Some w, p);
  into_group w p := let g := MakeGroup w [] in (Some g, store g p);
  load_group := load;
  delete_group g v := (true, delete (key (group_id g)) v);
  group_id_of := group_id; epoch_of g := Z.of_nat (length (log g));
  members g := imap (λ k b, (Z.of_nat k, [b])) (log g);
  add_members _ _ := happen 1 ([z2b 1], [z2b 2]);
  propose_add_member _ _ := happen 2 [z2b 4];
  remove_members _ _ := happen 3 ([z2b 3], None);
  propose_remove_member _ _ := happen 4 [z2b 4];
  merge_pending_commit := happen 5 tt;
  create_message _ m := happen 6 (z2b 2 :: m);
  mls_self_update _ := happen 7 [z2b 3];
  process_message m := happen 8
    (match tagged 2 m with
     | Some l => inl (inl (inl l))
     | None => if tagged 3 m is Some _ then inl (inl (inr tt))
             else if tagged 4 m is Some _ then inl (inr tt) else inr tt
     end);
  merge_staged_commit _ := happen 9 tt;
  store_pending_proposal _ := happen 10 tt;
  message_deserialize := Some; extract_welcome := tagged 1; into_protocol_message := Some;
  message_serialize := Some
|}.

Lemma store_stored (g : group) (p : Provider Z) :
  stored (M := openmls) g (values p) (values (store g p)).
Proof.
  split; cbn; unfold load, store; cbn [values].
  - rewrite lookup_insert_eq. by destruct g.
  - intros j Hj. rewrite lookup_insert_ne; [done|]. unfold key. congruence.
Qed.
Lemma happen_persistent {A} b (a : A) : persistent (M := openmls) (happen b a).
Proof. intros g p x g' p' [= <- <- <-] _. split; [done|]. apply store_stored. Qed.

#[export] Instance openmls_laws : OpenMlsLaws (M := openmls).
Proof.
  constructor; try (intros; apply happen_persistent).
  - done.
  - intros s b [= <-]. apply try_array_arr.
  - by intros c s x p r p' [= <- <-].
  - intros c b k s i x p g p' [= <- <-]. split; [done|]. apply store_stored.
  - by intros b k w p r p' [= <- <-].
  - intros w p g p' [= <- <-]. apply store_stored.
  - intros v i g H. injection H as H. by destruct (v !! key i); [injection H as <-|].
  - intros g v v' [= <-]. cbn. unfold load. split; [by rewrite lookup_delete_eq|].
    intros j Hj. rewrite lookup_delete_ne; [done|]. unfold key. congruence.
Qed.

Definition member : MemberCredential.t := MemberCredential.Make (fill 16 1) (fill 32 2) (fill 16 3).
Definition born : CryptoEngine.t :=
  match initialize_crypto_store (M := openmls) 7 member (fill 32 9) with Ok e => e
  | Err _ => Make _ (MakeProvider ∅ 0) (fill 32 0) ([], []) ∅ (fill 32 9) end.
Definition after (l : list EngineOp.t) (e : CryptoEngine.t) : CryptoEngine.t :=
  foldl (λ e o, (run o e).2) e l.
Definition alice : bytes := lit "alice".
Definition bob : bytes := lit "bob".
Definition talking : CryptoEngine.t :=
  after [EngineOp.CreateConversation alice; EngineOp.Encrypt alice (lit "hello")] born.
End Toy.

(** *** Witnesses *)

Section Witnesses.
Import Toy.
#[local] Abbreviation snap := (export_conversation_state (fill 24 5) map_to_list).

Lemma pair_fst {A B} (p : A * B) a : p.1 = a → p = (a, p.2).
Proof. destruct p. by intros <-. Qed.
Lemma born_ok : initialize_crypto_store (M := openmls) 7 member (fill 32 9) = Ok born.
Proof. reflexivity. Qed.
Lemma talking_succeeds : rtc succeeds born talking.
Proof.
  eapply rtc_l; [|apply rtc_once].
  - by exists (EngineOp.CreateConversation alice).
  - by exists (EngineOp.Encrypt alice (lit "hello")).
Qed.
Lemma toy_enumerates : enumerates map_to_list.
Proof. by intros v. Qed.

(** What fits is decidable. *)
Definition layout_fits_b (s identity i : bytes) (l : list (bytes * bytes)) : bool :=
  (len s <? 2 ^ 32) && (len identity <? 2 ^ 32) && (len i <? 2 ^ 32)
  && (Z.of_nat (length l) <? 2 ^ 32)
  && forallb (λ x, (len (fst x) <? 2 ^ 32) && (len (snd x) <? 2 ^ 32)) l.
Lemma layout_fits_dec s identity i l : layout_fits_b s identity i l = true → layout_fits s identity i l.
Proof.
  unfold layout_fits_b, layout_fits, fits_u32. rewrite !andb_true_iff, !Z.ltb_lt.
  intros ((((? & ?) & ?) & ?) & Hl). split_and!; try done.
  apply Forall_forall. intros x Hx. apply list_elem_of_In in Hx. rewrite forallb_forall in Hl.
  apply Hl, andb_true_iff in Hx. rewrite !Z.ltb_lt in Hx. done.
Qed.

Definition exportable_b (i : bytes) (e : CryptoEngine.t (M := openmls)) : bool :=
  match signer_serialize (signer e) with
  | Some sb => layout_fits_b sb (serialized_content (fst (credential e))) i
                 (map_to_list (values (provider e)))
  | None => true
  end.
Lemma exportable_dec i e : exportable_b i e = true → exportable i e.
Proof. unfold exportable_b. intros H sb Hsb. rewrite Hsb in H. by apply layout_fits_dec. Qed.

Lemma engine_in_sync_witness :
  (in_sync talking ∧ is_Some (groups talking !! alice))
  ∧ credentialed (calls [EngineOp.CreateConversation alice; EngineOp.Process alice []] born).
Proof.
  destruct (engine_in_sync (M := openmls) 7 member (fill 32 9) born born_ok) as [H1 H2].
  split; [split; [exact (H1 talking talking_succeeds)|by eexists]|]. apply H2.
Defined.

Lemma snapshot_canonical_witness :
  let v : storage := {[ [z2b 1] := [z2b 2]; [z2b 3] := [z2b 4] ]} in
  snapshot_plain [] [] [] [([z2b 3], [z2b 4]); ([z2b 1], [z2b 2])]
  = snapshot_plain [] [] [] [([z2b 1], [z2b 2]); ([z2b 3], [z2b 4])].
Proof.
  apply (snapshot_canonical {[ [z2b 1] := [z2b 2]; [z2b 3] := [z2b 4] ]}).
  - vm_compute. apply Permutation_swap || reflexivity.
  - vm_compute. apply Permutation_swap || reflexivity.
Defined.

Lemma talking_fits : exportable alice talking.
Proof. apply exportable_dec. vm_compute. reflexivity. Qed.
Definition backup : bytes := match snap alice talking with Ok b => b | Err _ => [] end.
Lemma backup_eq : snap alice talking = Ok backup.
Proof. vm_compute. reflexivity. Qed.
Definition other : CryptoEngine.t := set_groups ∅ (set_provider (MakeProvider ∅ 40) talking).

Lemma snapshot_roundtrip_witness :
  ∃ e, import_conversation_state backup other = (Ok alice, e)
    ∧ groups e = {[ alice := MakeGroup alice [z2b 6] ]}.
Proof.
  eexists. split.
  - apply (snapshot_roundtrip toy_crypto_laws openmls_laws (fill 24 5) map_to_list alice
      (MakeGroup alice [z2b 6]) talking backup other toy_enumerates).
    + exact (reached_in_sync _ _ talking_succeeds (proj1 (initialized 7 member (fill 32 9) born born_ok))).
    + apply (reached_credentialed born [EngineOp.CreateConversation alice; EngineOp.Encrypt alice (lit "hello")]).
      exact (proj2 (initialized 7 member (fill 32 9) born born_ok)).
    + exact talking_fits.
    + reflexivity.
    + exact backup_eq.
    + reflexivity.
  - reflexivity.
Defined.

(** Bob's conversation is opened after the backup, and then the backup is restored. *)
Definition both : CryptoEngine.t := after [EngineOp.CreateConversation bob] talking.
Definition restored : CryptoEngine.t := (import_conversation_state backup both).2.
Lemma restored_eq : import_conversation_state backup both = (Ok alice, restored).
Proof. unfold restored. apply pair_fst. vm_compute. reflexivity. Qed.
#[local] Opaque restored.
Definition lost : bytes := match snap bob restored with Ok b => b | Err _ => [] end.
Lemma lost_eq : snap bob restored = Ok lost.
Proof. vm_compute. reflexivity. Qed.
Lemma restored_fits : exportable bob restored.
Proof. apply exportable_dec. vm_compute. reflexivity. Qed.

Lemma import_orphans_conversations_witness :
  get_conversation_epoch bob restored = Ok 0
  ∧ fst (import_conversation_state lost born) = Err CryptoError.StateAuthentication.
Proof.
  destruct (import_orphans_conversations toy_crypto_laws openmls_laws (fill 24 5) map_to_list
    backup both alice restored bob (MakeGroup bob []) lost born toy_enumerates restored_eq
    eq_refl ltac:(discriminate) ltac:(vm_compute; reflexivity) restored_fits lost_eq eq_refl) as [H1 H2].
  split; [exact H1|]. destruct (import_conversation_state lost born) as [r e3]. apply H2.
Defined.

Lemma closed_conversation_untouched_witness :
  run (EngineOp.Encrypt bob (lit "hello")) talking = (false, talking).
Proof. apply (closed_conversation_untouched bob talking); reflexivity. Defined.

Definition packages : list bytes := replicate 100 (MemberCredential.encode member).
Definition supplied : result CryptoError.t (list bytes) * CryptoEngine.t :=
  generate_key_packages 1000 born.
Lemma supplied_eq : generate_key_packages 1000 born = (Ok packages, supplied.2).
Proof. unfold supplied. apply pair_fst. vm_compute. reflexivity. Qed.
#[local] Opaque supplied.

Lemma key_packages_bounded_witness : Z.of_nat (length packages) = Z.min 1000 100.
Proof.
  apply (key_packages_bounded 1000 born packages supplied.2); [lia|exact supplied_eq].
Defined.
End Witnesses.
