(* ===== verification/ReferenceMls.v ===== *)
(** * ReferenceMls: a group protocol that keeps the promises of OpenMLS

    OpenMLS is a parameter of Mls.  This file is a concrete instance of it, with
    symbolic cryptography: groups with epochs, leaves and a generation counter for
    each sender, pending commits and proposals, welcomes for key packages whose
    private part is in the storage, replay protection and the window for messages
    out of order.  A member that was removed or that is in another epoch cannot
    read.  It shows that the laws of Mls and of Conversation can hold together,
    and Conformance runs the tests of messenger-crypto on it. *)
From Stdlib Require Import ZArith Lia.
From stdpp Require Import base gmap list strings.
From S2P Require Import Prelude Protocol Crypto Identity Mls.

(** ** Values as bytes

    Prefix codes: reading a code from the front of any bytes gives the value and
    the rest. *)
Class Coded (A : Type) : Type := {
  enc : A → bytes;
  dec : bytes → option (A * bytes);
  dec_enc a r : dec (enc a ++ r) = Some (a, r)
}.

Section Codecs.
Context `{CA : Coded A} `{CB : Coded B}.

(** A positive number is its bits and an end mark. *)
Fixpoint enc_pos (p : positive) : bytes :=
  match p with
  | xH => [Init.Byte.x00]
  | xO p => Init.Byte.x01 :: enc_pos p
  | xI p => Init.Byte.x02 :: enc_pos p
  end.
Fixpoint dec_pos (b : bytes) : option (positive * bytes) :=
  match b with
  | Init.Byte.x00 :: r => Some (xH, r)
  | Init.Byte.x01 :: r => '(p, r) ← dec_pos r; Some (xO p, r)
  | Init.Byte.x02 :: r => '(p, r) ← dec_pos r; Some (xI p, r)
  | _ => None
  end.
Lemma dec_enc_pos p r : dec_pos (enc_pos p ++ r) = Some (p, r).
Proof. by induction p as [p IH|p IH|]; cbn; rewrite ?IH. Qed.

Definition enc_Z (n : Z) : bytes :=
  match n with
  | Z0 => [Init.Byte.x00]
  | Zpos p => Init.Byte.x01 :: enc_pos p
  | Zneg p => Init.Byte.x02 :: enc_pos p
  end.
Definition dec_Z (b : bytes) : option (Z * bytes) :=
  match b with
  | Init.Byte.x00 :: r => Some (Z0, r)
  | Init.Byte.x01 :: r => '(p, r) ← dec_pos r; Some (Zpos p, r)
  | Init.Byte.x02 :: r => '(p, r) ← dec_pos r; Some (Zneg p, r)
  | _ => None
  end.
Lemma dec_enc_Z n r : dec_Z (enc_Z n ++ r) = Some (n, r).
Proof. destruct n; cbn; by rewrite ?dec_enc_pos. Qed.

Definition enc_pair (x : A * B) : bytes := enc (fst x) ++ enc (snd x).
Definition dec_pair (b : bytes) : option (A * B * bytes) :=
  '(x, r) ← dec b; '(y, r) ← dec r; Some (x, y, r).
Lemma dec_enc_pair x r : dec_pair (enc_pair x ++ r) = Some (x, r).
Proof.
  unfold dec_pair, enc_pair. rewrite <- app_assoc, dec_enc. cbn [mbind option_bind].
  rewrite dec_enc. by destruct x.
Qed.

Definition enc_sum (x : A + B) : bytes :=
  match x with inl a => Init.Byte.x00 :: enc a | inr b => Init.Byte.x01 :: enc b end.
Definition dec_sum (b : bytes) : option ((A + B) * bytes) :=
  match b with
  | Init.Byte.x00 :: r => '(a, r) ← dec r; Some (inl a, r)
  | Init.Byte.x01 :: r => '(a, r) ← dec r; Some (inr a, r)
  | _ => None
  end.
Lemma dec_enc_sum x r : dec_sum (enc_sum x ++ r) = Some (x, r).
Proof. destruct x; cbn; by rewrite dec_enc. Qed.

(** A list is its elements, each after a mark, and an end mark. *)
Fixpoint enc_list (l : list A) : bytes :=
  match l with
  | [] => [Init.Byte.x00]
  | a :: l => Init.Byte.x01 :: enc a ++ enc_list l
  end.
Fixpoint dec_elements (fuel : nat) (b : bytes) : option (list A * bytes) :=
  match fuel, b with
  | S _, Init.Byte.x00 :: r => Some ([], r)
  | S fuel, Init.Byte.x01 :: r => '(a, r) ← dec r; '(l, r) ← dec_elements fuel r; Some (a :: l, r)
  | _, _ => None
  end.
Definition dec_list (b : bytes) : option (list A * bytes) := dec_elements (length b) b.
Lemma enc_list_length l : (length l < length (enc_list l))%nat.
Proof. induction l as [|a l IH]; cbn; [lia|]. rewrite length_app. lia. Qed.
Lemma dec_elements_enc l n r : (length l < n)%nat → dec_elements n (enc_list l ++ r) = Some (l, r).
Proof.
  revert n. induction l as [|a l IH]; intros [|n] Hn; cbn in Hn; try lia; [done|].
  cbn. rewrite <- app_assoc, dec_enc. cbn. by rewrite IH by lia.
Qed.
Lemma dec_enc_list l r : dec_list (enc_list l ++ r) = Some (l, r).
Proof.
  apply dec_elements_enc. rewrite length_app. pose proof (enc_list_length l). lia.
Qed.

(** A type that is described by another. *)
Definition enc_by (f : B → A) (b : B) : bytes := enc (f b).
Definition dec_by (g : A → B) (b : bytes) : option (B * bytes) := '(a, r) ← dec b; Some (g a, r).
Lemma dec_enc_by f g : (∀ b, g (f b) = b) → ∀ b r, dec_by g (enc_by f b ++ r) = Some (b, r).
Proof. intros H b r. unfold dec_by, enc_by. rewrite dec_enc. cbn. by rewrite H. Qed.
End Codecs.

#[export] Instance codec_byte : Coded Byte.byte :=
  {| enc b := [b]; dec l := match l with b :: r => Some (b, r) | [] => None end;
     dec_enc b r := eq_refl |}.
#[export] Instance codec_unit : Coded unit :=
  {| enc _ := []; dec l := Some (tt, l); dec_enc 'tt r := eq_refl |}.
#[export] Instance codec_Z : Coded Z := {| dec_enc := dec_enc_Z |}.
#[export] Instance codec_pair `{Coded A, Coded B} : Coded (A * B) := {| dec_enc := dec_enc_pair |}.
#[export] Instance codec_sum `{Coded A, Coded B} : Coded (A + B) := {| dec_enc := dec_enc_sum |}.
#[export] Instance codec_list `{Coded A} : Coded (list A) := {| dec_enc := dec_enc_list |}.

Definition codec_by `{Coded A} {B} (f : B → A) (g : A → B) (H : ∀ b, g (f b) = b) : Coded B :=
  {| enc := enc_by f; dec := dec_by g; dec_enc := dec_enc_by f g H |}.
#[export] Instance codec_bool : Coded bool.
Proof.
  refine (codec_by (λ b : bool, if b then inl tt else inr tt)
    (λ x : unit + unit, match x with inl _ => true | inr _ => false end) _). by intros [].
Defined.
#[export] Instance codec_option `{Coded A} : Coded (option A).
Proof.
  refine (codec_by (λ o : option A, match o with Some a => inl a | None => inr tt end)
    (λ x : A + unit, match x with inl a => Some a | inr _ => None end) _). by intros [].
Defined.

(** A value that fills the bytes. *)
Definition read `{Coded A} (b : bytes) : option A :=
  match dec b with Some (a, []) => Some a | _ => None end.
Lemma read_enc `{Coded A} (a : A) : read (enc a) = Some a.
Proof. unfold read. rewrite <- (app_nil_r (enc a)). by rewrite dec_enc. Qed.

(** ** Groups *)

(** A key package is identified by the public key of its owner and a number; the
    rest is the credential in it. *)
Abbreviation package_id := (bytes * Z)%type.
Abbreviation package := (package_id * bytes)%type.
(** Leaves and their credentials. *)
Abbreviation roster := (list (Z * bytes)).
Abbreviation alteration := (package + Z)%type.
(** Commits are told apart by the leaf that made them and a random number. *)
Abbreviation commit_id := (Z * Z)%type.

Module Ref.
Record group : Type := MakeGroup {
  group_id : bytes;
  (** the commits that led to the epoch *)
  history : list commit_id;
  leaves : roster;
  me : Z;
  tolerance : Z;
  forward : Z;
  (** the next generation of the own messages, and the generations read *)
  sent : Z;
  seen : list (Z * Z);
  proposals : list alteration;
  (** a commit that is not merged yet: its identifier and its leaves *)
  pending : option (commit_id * roster);
  active : bool
}.

Definition fields (g : group) :=
  (group_id g, history g, leaves g, me g, tolerance g, forward g, sent g, seen g, proposals g,
   pending g, active g).
#[export] Instance codec_group : Coded group.
Proof.
  refine (codec_by fields
    (λ '(a, b, c, d, e, f, g, h, i, j, k), MakeGroup a b c d e f g h i j k) _). by intros [].
Defined.

(** ** Messages *)
Inductive content : Type :=
| Private (generation : Z) (plaintext : bytes)
| Commit (id : commit_id) (next : roster)
| Propose (c : alteration).
Inductive message : Type :=
| Handled (gid : bytes) (epoch : list commit_id) (sender : Z) (c : content)
| Welcoming (gid : bytes) (epoch : list commit_id) (next : roster) (invited : list (package_id * Z)).

#[export] Instance codec_content : Coded content.
Proof.
  refine (codec_by
    (λ c, match c with
          | Private n p => inl (n, p)
          | Commit i r => inr (inl (i, r))
          | Propose c => inr (inr c)
          end)
    (λ x, match x with
          | inl (n, p) => Private n p
          | inr (inl (i, r)) => Commit i r
          | inr (inr c) => Propose c
          end) _). by intros [].
Defined.
#[export] Instance codec_message : Coded message.
Proof.
  refine (codec_by
    (λ m, match m with
          | Handled g e s c => inl (g, e, s, c)
          | Welcoming g e r i => inr (g, e, r, i)
          end)
    (λ x, match x with
          | inl (g, e, s, c) => Handled g e s c
          | inr (g, e, r, i) => Welcoming g e r i
          end) _). by intros [].
Defined.

(** ** Changing the members *)

Definition is_leaf (r : roster) (i : Z) : bool := existsb (λ x, fst x =? i) r.
Definition fresh (r : roster) : Z := 1 + foldr Z.max (-1) (fst <$> r).
(** An addition takes the next leaf and is noted for the welcome. *)
Definition alter (s : roster * list (package_id * Z)) (c : alteration) : roster * list (package_id * Z) :=
  let '(r, invited) := s in
  match c with
  | inl (k, credential) => (r ++ [(fresh r, credential)], invited ++ [(k, fresh r)])
  | inr i => (List.filter (λ x, negb (fst x =? i)) r, invited)
  end.

(** A group in the epoch after [id], whose members are [next]. *)
Definition advance (id : commit_id) (next : roster) (g : group) : group :=
  MakeGroup (group_id g) (history g ++ [id]) next (me g) (tolerance g) (forward g) 0 [] [] None
    (is_leaf next (me g)).
Definition set_pending (x : option (commit_id * roster)) (g : group) : group :=
  MakeGroup (group_id g) (history g) (leaves g) (me g) (tolerance g) (forward g) (sent g) (seen g)
    (proposals g) x (active g).
Definition set_proposals (l : list alteration) (g : group) : group :=
  MakeGroup (group_id g) (history g) (leaves g) (me g) (tolerance g) (forward g) (sent g) (seen g)
    l (pending g) (active g).
Definition set_sent (n : Z) (g : group) : group :=
  MakeGroup (group_id g) (history g) (leaves g) (me g) (tolerance g) (forward g) n (seen g)
    (proposals g) (pending g) (active g).
Definition set_seen (l : list (Z * Z)) (g : group) : group :=
  MakeGroup (group_id g) (history g) (leaves g) (me g) (tolerance g) (forward g) (sent g) l
    (proposals g) (pending g) (active g).

Definition letter (g : group) (c : content) : message := Handled (group_id g) (history g) (me g) c.

Definition settled (g : group) : bool := match pending g with None => true | Some _ => false end.

(** A transition reads the group and the random number, which it may use up. *)
Definition transition (A : Type) : Type := group → Z → option (A * group).

(** A commit carries the pending proposals as well; it is refused to a member
    that was removed, has a commit that is not merged, or removes itself. *)
Definition commit (changes : list alteration) : transition (message * message) := λ g r,
  let '(next, invited) := foldl alter (leaves g, []) (proposals g ++ changes) in
  if active g && settled g && is_leaf next (me g)
  then Some ((letter g (Commit (me g, r) next),
              Welcoming (group_id g) (history g ++ [(me g, r)]) next invited),
             set_pending (Some ((me g, r), next)) g)
  else None.
Definition add (l : list package) : transition (message * message) := λ g r,
  match l with [] => None | _ => commit (inl <$> l) g r end.
Definition remove (l : list Z) : transition (message * option message) := λ g r,
  match l with
  | [] => None
  | _ =>
      if forallb (is_leaf (leaves g)) l
      then '((c, _), g) ← commit (inr <$> l) g r; Some ((c, None), g)
      else None
  end.
Definition update : transition message := λ g r,
  '((c, _), g) ← commit [] g r; Some (c, g).
Definition propose (c : alteration) : transition message := λ g _,
  if active g && settled g
  then Some (letter g (Propose c), set_proposals (proposals g ++ [c]) g) else None.
Definition merge_pending : transition unit := λ g _,
  if active g
  then Some (tt, match pending g with Some (id, next) => advance id next g | None => g end)
  else None.

(** ** Messages *)

Definition send (plaintext : bytes) : transition message := λ g _,
  match proposals g with
  | [] => if active g then Some (letter g (Private (sent g) plaintext), set_sent (sent g + 1) g) else None
  | _ => None
  end.

(** The generation after the last one read from a leaf. *)
Definition expected (g : group) (i : Z) : Z :=
  1 + foldr Z.max (-1) (snd <$> List.filter (λ x, fst x =? i) (seen g)).
Definition readable (g : group) (i n : Z) : bool :=
  negb (existsb (λ x, (fst x =? i) && (snd x =? n)) (seen g))
  && (expected g i - n <=? Z.max 0 (tolerance g)) && (n - expected g i <=? Z.max 0 (forward g)).

Definition process (m : message) : transition (bytes + (commit_id * roster) + alteration + unit) := λ g _,
  match m with
  | Handled gid epoch i c =>
      if active g && bool_decide (gid = group_id g) && bool_decide (epoch = history g)
         && negb (i =? me g) && is_leaf (leaves g) i
      then
        match c with
        | Private n p =>
            if readable g i n then Some (inl (inl (inl p)), set_seen ((i, n) :: seen g) g) else None
        | Commit id next => Some (inl (inl (inr (id, next))), g)
        | Propose c => Some (inl (inr c), g)
        end
      else None
  | Welcoming _ _ _ _ => None
  end.
Definition merge_staged (c : commit_id * roster) : transition unit := λ g _,
  Some (tt, advance (fst c) (snd c) g).
Definition store_proposal (c : alteration) : transition unit := λ g _,
  Some (tt, set_proposals (proposals g ++ [c]) g).

(** ** The storage *)

Definition group_key (i : bytes) : bytes := z2b 1 :: i.
Definition private_key (k : package_id) : bytes := z2b 3 :: enc k.
Definition store (g : group) (p : Provider Z) : Provider Z :=
  MakeProvider (<[group_key (group_id g) := enc g]> (values p)) (rng p + 1).
Definition load (v : storage) (i : bytes) : option (option group) :=
  match v !! group_key i with
  | None => Some None
  | Some b =>
      match read b with
      | Some g => if bool_decide (group_id g = i) then Some (Some g) else None
      | None => None
      end
  end.

Definition run {A} (f : transition A) : mls_op group Z A := λ g p,
  match f g (rng p) with
  | Some (a, g) => (Some a, (g, store g p))
  | None => (None, (g, p))
  end.

Definition build (s : Z) (credential : bytes * bytes) (p : Provider Z) : option package * Provider Z :=
  let k := (snd credential, rng p) in
  (Some (k, fst credential), MakeProvider (<[private_key k := enc s]> (values p)) (rng p + 1)).

(** The first invitation whose private part is here; it can be used once. *)
Definition own_invitation (v : storage) (invited : list (package_id * Z)) : option (package_id * Z) :=
  List.find (λ x, bool_decide (is_Some (v !! private_key (fst x)))) invited.
Definition stage (ratchet : SenderRatchetConfiguration) (w : message) (p : Provider Z)
    : option group * Provider Z :=
  match w with
  | Welcoming gid epoch next invited =>
      match own_invitation (values p) invited with
      | Some (k, i) =>
          (Some (MakeGroup gid epoch next i (out_of_order_tolerance ratchet)
                   (maximum_forward_distance ratchet) 0 [] [] None true),
           MakeProvider (delete (private_key k) (values p)) (rng p))
      | None => (None, p)
      end
  | Handled _ _ _ _ => (None, p)
  end.
End Ref.
#[export] Existing Instances Ref.codec_group Ref.codec_message.

#[export] Instance reference_openmls : OpenMls := {|
  Rng := Z; Ciphersuite := unit; MLS_128_DHKEMX25519_CHACHA20POLY1305_SHA256_Ed25519 := tt;
  Credential := bytes; Signer := Z; Group := Ref.group;
  KeyPackage := package; KeyPackageIn := package; MessageIn := Ref.message; MessageOut := Ref.message;
  Welcome := Ref.message; StagedWelcome := Ref.group; ProtocolMessage := Ref.message;
  StagedCommit := commit_id * roster; Proposal := alteration;
  basic_credential b := b; serialized_content b := b;
  new_signer r := (Some r, r + 1);
  store_signer s v := Some (<[[z2b 2] := enc s]> v);
  to_public_vec s := enc s; signer_serialize s := Some (enc s); signer_deserialize := read;
  build_key_package _ := Ref.build;
  key_package_serialize k := Some (enc k); key_package_deserialize := read; key_package_validate := Some;
  new_group _ _ k _ i c p :=
    let g := Ref.MakeGroup i [(0, rng p)] [(0, fst c)] 0 (out_of_order_tolerance k)
               (maximum_forward_distance k) 0 [] [] None true in
    (Some g, Ref.store g p);
  stage_welcome _ := Ref.stage;
  into_group g p := (Some g, Ref.store g p);
  load_group := Ref.load;
  delete_group g v := (true, delete (Ref.group_key (Ref.group_id g)) v);
  group_id_of := Ref.group_id;
  epoch_of g := Z.of_nat (length (Ref.history g)) - 1;
  members := Ref.leaves;
  add_members _ l := Ref.run (Ref.add l);
  propose_add_member _ k := Ref.run (Ref.propose (inl k));
  remove_members _ l := Ref.run (Ref.remove l);
  propose_remove_member _ i := Ref.run (Ref.propose (inr i));
  merge_pending_commit := Ref.run Ref.merge_pending;
  create_message _ m := Ref.run (Ref.send m);
  mls_self_update _ := Ref.run Ref.update;
  process_message m := Ref.run (Ref.process m);
  merge_staged_commit c := Ref.run (Ref.merge_staged c);
  store_pending_proposal c := Ref.run (Ref.store_proposal c);
  message_deserialize := read;
  extract_welcome m := match m with Ref.Welcoming _ _ _ _ => Some m | _ => None end;
  into_protocol_message m := match m with Ref.Handled _ _ _ _ => Some m | _ => None end;
  message_serialize m := Some (enc m)
|}.

(** ** The laws of Mls *)

Lemma load_stored g (p : Provider Z) : stored g (values p) (values (Ref.store g p)).
Proof.
  split; cbn [load_group group_id_of reference_openmls]; unfold Ref.load, Ref.store; cbn [values].
  - rewrite lookup_insert_eq, read_enc. by rewrite bool_decide_eq_true_2.
  - intros j Hj. rewrite lookup_insert_ne; [done|]. unfold Ref.group_key. congruence.
Qed.

(** A transition that keeps the identifier of the group. *)
Definition names {A} (f : Ref.transition A) : Prop := ∀ g r a g',
  f g r = Some (a, g') → Ref.group_id g' = Ref.group_id g.
Lemma run_persistent {A} (f : Ref.transition A) : names f → persistent (Ref.run f).
Proof.
  intros Hf g p a g' p'. unfold Ref.run. destruct (f _ _) as [[b h]|] eqn:E; [|done].
  intros [= <- <- <-] _. split; [by eapply Hf|apply load_stored].
Qed.
Lemma commit_names l : names (Ref.commit l).
Proof.
  intros g r a g'. unfold Ref.commit. destruct (foldl _ _ _) as [next invited].
  destruct (_ && _); [|done]. by intros [= _ <-].
Qed.

#[export] Instance reference_laws : OpenMlsLaws (M := reference_openmls).
Proof.
  constructor.
  - done.
  - intros s b [= <-]. exact (read_enc (A := Z) s).
  - intros c s x p r p' [= <- <-] j. cbn [load_group reference_openmls]. unfold Ref.load, Ref.build; cbn [values].
    rewrite lookup_insert_ne; [done|]. unfold Ref.private_key, Ref.group_key. intros [=].
  - intros c b k s i x p g p' [= <- <-]. split; [done|]. apply load_stored.
  - intros b k w p r p' E j. cbn [load_group stage_welcome reference_openmls] in *. unfold Ref.stage in E. repeat case_match; simplify_eq; try done.
    unfold Ref.load; cbn [values]. rewrite lookup_delete_ne; [done|]. unfold Ref.private_key, Ref.group_key. intros [=].
  - intros w p g p' [= <- <-]. apply load_stored.
  - intros s l. apply run_persistent. intros g r a g'. unfold Ref.add. destruct l; [done|]. apply commit_names.
  - intros s k. apply run_persistent. intros g r a g'. unfold Ref.propose. destruct (_ && _); [|done].
    by intros [= _ <-].
  - intros s l. apply run_persistent. intros g r a g'. unfold Ref.remove. destruct l; [done|].
    destruct (forallb _ _); [|done]. destruct (Ref.commit _ g r) as [[[c w] h]|] eqn:E; [|done].
    intros [= _ <-]. by eapply commit_names.
  - intros s k. apply run_persistent. intros g r a g'. unfold Ref.propose. destruct (_ && _); [|done].
    by intros [= _ <-].
  - apply run_persistent. intros g r a g'. unfold Ref.merge_pending. repeat case_match; by intros [= _ <-].
  - intros s m. apply run_persistent. intros g r a g'. unfold Ref.send. repeat case_match; by intros [= _ <-].
  - intros s. apply run_persistent. intros g r a g'. unfold Ref.update.
    destruct (Ref.commit _ g r) as [[[c w] h]|] eqn:E; [|done].
    intros [= _ <-]. by eapply commit_names.
  - intros m. apply run_persistent. intros g r a g'. unfold Ref.process. repeat case_match; by intros [= _ <-].
  - intros c. apply run_persistent. by intros g r a g' [= _ <-].
  - intros x. apply run_persistent. by intros g r a g' [= _ <-].
  - intros v i g. cbn. unfold Ref.load. repeat case_match; try done. intros [= <-].
    by apply bool_decide_eq_true in H1.
  - intros g v v' [= <-]. cbn. unfold Ref.load. split; [by rewrite lookup_delete_eq|].
    intros j Hj. rewrite lookup_delete_ne; [done|]. unfold Ref.group_key. congruence.
Qed.
