(* ===== verification/Conversation.v ===== *)
(** * Conversation: several engines that share a group

    Mls is about one engine.  This file composes the engines of several devices:
    what one encrypts, the others read.  [MlsEpochs] is the interface to OpenMLS
    for it: what the members of an epoch share, the generation counters of the
    senders, and which bytes are messages, commits and welcomes; its laws are
    those of MLS (RFC 9420) as OpenMLS documents them.  The log of a conversation
    is the sequence of events that core-api keeps for a group.  ReferenceMls
    keeps the laws. *)
From Stdlib Require Import ZArith Lia.
From stdpp Require Import base gmap list strings.
From S2P Require Import Prelude Protocol Crypto Identity Mls ReferenceMls.
Import CryptoEngine.

(** ** Epochs *)

Class MlsEpochs `{M : OpenMls} : Type := {
  Epoch : Type;
  Secret : Type;
  epoch_name : Epoch → bytes;
  epoch_number : Epoch → Z;
  epoch_secret : Epoch → Secret;
  epoch_leaves : Epoch → list Z;
  (** the epoch that a group is in, its own leaf, the generation of its next
      message, and the next generation that it reads from a leaf *)
  at_epoch : Group → Epoch;
  own_leaf : Group → Z;
  next_sent : Group → Z;
  next_read : Group → Z → Z;
  (** a member with neither proposals nor a commit pending *)
  settled : Group → Prop;
  (** the private part of a key package is in the storage *)
  holds : Provider Rng → KeyPackage → Prop;
  (** the bytes are: a message of a leaf in an epoch, with its generation; a
      commit of a leaf from one epoch to the next; a welcome to an epoch *)
  is_message : bytes → Epoch → Z → Z → bytes → Prop;
  is_commit : bytes → Epoch → Z → Epoch → Prop;
  is_welcome : bytes → Epoch → list (KeyPackage * Z) → Prop
}.

Section Epochs.
Context `{M : OpenMls} `{K : !MlsEpochs}.

Definition incoming (b : bytes) : option ProtocolMessage :=
  message_deserialize b ≫= into_protocol_message.

(** Nothing has been sent or read in the epoch. *)
Definition fresh (g : Group) : Prop := settled g ∧ next_sent g = 0 ∧ ∀ i, next_read g i = 0.
Definition same_seat (g g' : Group) : Prop :=
  at_epoch g' = at_epoch g ∧ own_leaf g' = own_leaf g ∧ settled g'.

(** A group that reads nothing, ever. *)
Definition closed (g : Group) : Prop :=
  ∀ pm p, ∃ p', process_message pm g p = (None, (g, p')).

(** What a commit of [g] that is merged leads to. *)
Definition commits (g g' : Group) (commit : bytes) (E : Epoch) : Prop :=
  is_commit commit (at_epoch g) (own_leaf g) E ∧ at_epoch g' = E ∧ own_leaf g' = own_leaf g ∧ fresh g'
  ∧ epoch_name E = epoch_name (at_epoch g) ∧ epoch_number E = epoch_number (at_epoch g) + 1.
End Epochs.

Class MlsEpochLaws `{M : OpenMls} (K : MlsEpochs) : Prop := {
  settled_member g : settled g →
    group_id_of g = epoch_name (at_epoch g) ∧ own_leaf g ∈ epoch_leaves (at_epoch g);
  (** The members of an epoch see the same list of members. *)
  settled_members g g' : settled g → settled g' → at_epoch g = at_epoch g' → members g = members g';
  epoch_of_number g : epoch_of g = epoch_number (at_epoch g);
  epoch_secret_number E E' : epoch_secret E = epoch_secret E' → epoch_number E = epoch_number E';
  new_group_fresh c s i x p g p' :
    new_group c true ratchet s i x p = (Some g, p') →
    fresh g ∧ epoch_name (at_epoch g) = i ∧ epoch_leaves (at_epoch g) = [own_leaf g];

  (** A settled member can send, and the next message of its sender is read by
      every other settled member of the epoch. *)
  create_message_sends s m g p : settled g →
    ∃ out g' p' b, create_message s m g p = (Some out, (g', p')) ∧ message_serialize out = Some b
      ∧ is_message b (at_epoch g) (own_leaf g) (next_sent g) m
      ∧ same_seat g g' ∧ next_sent g' = next_sent g + 1 ∧ ∀ i, next_read g' i = next_read g i;
  process_message_reads b i n m g p :
    is_message b (at_epoch g) i n m → settled g → i ≠ own_leaf g → i ∈ epoch_leaves (at_epoch g) →
    next_read g i = n →
    ∃ pm g' p', incoming b = Some pm ∧ process_message pm g p = (Some (inl (inl (inl m))), (g', p'))
      ∧ same_seat g g' ∧ next_sent g' = next_sent g ∧ next_read g' i = n + 1
      ∧ ∀ j, j ≠ i → next_read g' j = next_read g j;
  (** A message and a commit of another epoch cannot be read, and change nothing. *)
  process_message_foreign b E i n m pm g p :
    is_message b E i n m → epoch_secret E ≠ epoch_secret (at_epoch g) → incoming b = Some pm →
    ∃ p', process_message pm g p = (None, (g, p'));
  process_commit_foreign b E i E' pm g p :
    is_commit b E i E' → epoch_secret E ≠ epoch_secret (at_epoch g) → incoming b = Some pm →
    ∃ p', process_message pm g p = (None, (g, p'));

  (** Key packages and welcomes. *)
  build_key_package_held c s x p k p' :
    build_key_package c s x p = (Some k, p') →
    holds p' k ∧ ∀ k', holds p k' → holds p' k';
  key_package_codec k b : key_package_serialize k = Some b →
    key_package_deserialize b ≫= key_package_validate = Some k;
  join_welcome b E invited k i p :
    is_welcome b E invited → NoDup (fst <$> invited) → (k, i) ∈ invited → holds p k →
    (∀ k' i', (k', i') ∈ invited → holds p k' → k' = k) →
    ∃ w st p1 g p2, message_deserialize b ≫= extract_welcome = Some w
      ∧ stage_welcome true ratchet w p = (Some st, p1) ∧ into_group st p1 = (Some g, p2)
      ∧ at_epoch g = E ∧ own_leaf g = i ∧ fresh g;

  (** Commits. *)
  add_members_commits s l g p c w g1 p1 g2 p2 cb wb : settled g →
    add_members s l g p = (Some (c, w), (g1, p1)) → merge_pending_commit g1 p1 = (Some tt, (g2, p2)) →
    message_serialize c = Some cb → message_serialize w = Some wb →
    ∃ E invited, commits g g2 cb E ∧ is_welcome wb E invited ∧ fst <$> invited = l
      ∧ epoch_leaves E = epoch_leaves (at_epoch g) ++ (snd <$> invited)
      ∧ NoDup (snd <$> invited) ∧ (∀ i, i ∈ snd <$> invited → i ∉ epoch_leaves (at_epoch g));
  remove_member_commits s x g p c w g1 p1 g2 p2 cb : settled g →
    remove_members s [x] g p = (Some (c, w), (g1, p1)) → merge_pending_commit g1 p1 = (Some tt, (g2, p2)) →
    message_serialize c = Some cb →
    ∃ E, commits g g2 cb E ∧ x ≠ own_leaf g
      ∧ ∀ i, i ∈ epoch_leaves E ↔ i ∈ epoch_leaves (at_epoch g) ∧ i ≠ x;
  self_update_commits s g p c g1 p1 g2 p2 cb : settled g →
    mls_self_update s g p = (Some c, (g1, p1)) → merge_pending_commit g1 p1 = (Some tt, (g2, p2)) →
    message_serialize c = Some cb →
    ∃ E, commits g g2 cb E ∧ epoch_leaves E = epoch_leaves (at_epoch g);
  (** The commits of two members lead to epochs of their own. *)
  competing_secrets b1 b2 E i1 i2 E1 E2 :
    is_commit b1 E i1 E1 → is_commit b2 E i2 E2 → i1 ≠ i2 → epoch_secret E1 ≠ epoch_secret E2;
  (** A member follows a commit; one that it removes reads nothing any more. *)
  process_commit b i E g p :
    is_commit b (at_epoch g) i E → settled g → i ≠ own_leaf g → i ∈ epoch_leaves (at_epoch g) →
    ∃ pm sc g1 p1 g2 p2, incoming b = Some pm
      ∧ process_message pm g p = (Some (inl (inl (inr sc))), (g1, p1))
      ∧ merge_staged_commit sc g1 p1 = (Some tt, (g2, p2))
      ∧ (own_leaf g ∈ epoch_leaves E → at_epoch g2 = E ∧ own_leaf g2 = own_leaf g ∧ fresh g2)
      ∧ (own_leaf g ∉ epoch_leaves E → closed g2)
}.

(** ** Operations that succeed *)

Section Succeed.
Context `{M : OpenMls}.

Lemma with_group_run {A} i (body : group_op A) e g r s :
  groups e !! i = Some g → body (g, provider e) = (r, s) →
  with_group i body e = (r, set_groups (<[i := fst s]> (groups e)) (set_provider (snd s) e)).
Proof. intros Hg Hb. unfold with_group. rewrite Hg. destruct s as [g1 p1]. by rewrite Hb. Qed.
Lemma attempt_then {A B} (op : mls_op Group Rng A) x (k : A → group_op B) g p a s :
  op g p = (Some a, s) → (attempt op x ≫= k) (g, p) = k a s.
Proof. intros H. unfold mbind, group_op_bind, attempt. cbn [fst snd]. by rewrite H. Qed.
Lemma attempt_fails {A B} (op : mls_op Group Rng A) x (k : A → group_op B) g p s :
  op g p = (None, s) → (attempt op x ≫= k) (g, p) = (Err x, s).
Proof. intros H. unfold mbind, group_op_bind, attempt. cbn [fst snd]. by rewrite H. Qed.
Lemma attempt_inv {A B} (op : mls_op Group Rng A) x (k : A → group_op B) g p b s :
  (attempt op x ≫= k) (g, p) = (Ok b, s) →
  ∃ a g1 p1, op g p = (Some a, (g1, p1)) ∧ k a (g1, p1) = (Ok b, s).
Proof.
  unfold mbind, group_op_bind, attempt. cbn [fst snd].
  destruct (op g p) as [[a|] [g1 p1]]; [|done]. by eauto.
Qed.
Lemma serialized_inv {B} m x (k : bytes → group_op B) s b s' :
  (serialized m x ≫= k) s = (Ok b, s') → ∃ v, message_serialize m = Some v ∧ k v s = (Ok b, s').
Proof.
  unfold mbind, group_op_bind, serialized, glift. destruct (message_serialize m); [|done]. by eauto.
Qed.
Lemma with_group_inv {A} i (body : group_op A) e a e' :
  with_group i body e = (Ok a, e') →
  ∃ g s, groups e !! i = Some g ∧ body (g, provider e) = (Ok a, s)
    ∧ e' = set_groups (<[i := fst s]> (groups e)) (set_provider (snd s) e).
Proof.
  unfold with_group. destruct (groups e !! i) as [g|]; [|done].
  destruct (body _) as [r [g' p']] eqn:E. intros [= -> <-]. by eexists _, (g', p').
Qed.
End Succeed.

(** ** The seat of an engine in an epoch *)

Section Seats.
Context `{M : OpenMls} `{K : !MlsEpochs}.

(** The engine has leaf [l] of the epoch, has sent [n] messages in it and has
    read [r i] from the leaf [i]. *)
Definition seat (E : Epoch) (l : Z) (n : Z) (r : Z → Z) (e : CryptoEngine.t) : Prop :=
  ∃ g, groups e !! epoch_name E = Some g ∧ at_epoch g = E ∧ own_leaf g = l ∧ settled g
    ∧ next_sent g = n ∧ ∀ i, next_read g i = r i.
Definition seated (E : Epoch) (l : Z) (e : CryptoEngine.t) : Prop := ∃ n r, seat E l n r e.
Definition newly_seated (E : Epoch) (l : Z) (e : CryptoEngine.t) : Prop := seat E l 0 (λ _, 0) e.

Definition read_from (i : Z) (r : Z → Z) : Z → Z := λ j, if j =? i then r i + 1 else r j.

Context `{L : !MlsEpochLaws K}.

Lemma seat_leaf E l n r e : seat E l n r e → l ∈ epoch_leaves E.
Proof using L. intros (g & _ & <- & <- & Hs & _). apply (settled_member g Hs). Qed.

Lemma encrypt_seat E l n r e t :
  seat E l n r e →
  ∃ c e', encrypt_application_message (epoch_name E) t e = (Ok c, e')
    ∧ seat E l (n + 1) r e' ∧ is_message c E l n t.
Proof using L.
  intros (g & Hg & <- & <- & Hs & <- & Hr).
  destruct (create_message_sends (signer e) t g (provider e) Hs)
    as (out & g' & p' & b & Hc & Hb & Hm & (He & Hl & Hs') & Hn & Hr').
  eexists b, _. split; [|split; [|done]].
  - apply (with_group_run _ _ _ _ (Ok b) (g', p') Hg). erewrite attempt_then by exact Hc.
    unfold serialized, glift. by rewrite Hb.
  - exists g'. cbn. rewrite lookup_insert_eq. split_and!; try done. intros i. by rewrite Hr'.
Qed.

Lemma process_run i e pm g c v s :
  groups e !! i = Some g → incoming c = Some pm →
  process_message pm g (provider e) = (Some (inl (inl (inl v))), s) →
  process_incoming_message i c e
  = (Ok (IncomingMessage.Application v), set_groups (<[i := fst s]> (groups e)) (set_provider (snd s) e)).
Proof.
  intros Hg Hpm Hp. unfold process_incoming_message. unfold incoming in Hpm. rewrite Hpm.
  apply (with_group_run _ _ _ _ (Ok (IncomingMessage.Application v)) s Hg).
  by erewrite attempt_then by exact Hp.
Qed.

Lemma process_seat E l n r e c i t :
  seat E l n r e → is_message c E i (r i) t → i ≠ l → i ∈ epoch_leaves E →
  ∃ e', process_incoming_message (epoch_name E) c e = (Ok (IncomingMessage.Application t), e')
    ∧ seat E l n (read_from i r) e'.
Proof using L.
  intros (g & Hg & <- & <- & Hs & <- & Hr) Hm Hi Hin.
  destruct (process_message_reads c i (r i) t g (provider e) Hm Hs Hi Hin (Hr i))
    as (pm & g' & p' & Hpm & Hp & (He & Hl & Hs') & Hn & Hi' & Ho).
  eexists. split; [by eapply process_run|]. exists g'. cbn. rewrite lookup_insert_eq.
  split_and!; try done.
  intros j. unfold read_from. destruct (Z.eqb_spec j i) as [->|Hj]; [by rewrite Hi'|]. by rewrite Ho, Hr.
Qed.

(** Bytes that a group refuses leave it as it is at the engine. *)
Lemma process_refused i c e g :
  groups e !! i = Some g →
  (∀ pm q, incoming c = Some pm → ∃ q', process_message pm g q = (None, (g, q'))) →
  is_ok (fst (process_incoming_message i c e)) = false
  ∧ groups (snd (process_incoming_message i c e)) !! i = Some g.
Proof.
  intros Hg H. unfold process_incoming_message.
  destruct (message_deserialize c ≫= into_protocol_message) as [pm|] eqn:Hpm; [|done].
  destruct (H pm (provider e) Hpm) as [q Hp].
  erewrite with_group_run; [|exact Hg|by eapply attempt_fails]. split; [done|]. cbn.
  by rewrite lookup_insert_eq.
Qed.

(** The bytes belong to an epoch: a message or a commit of one of its leaves. *)
Definition belongs (b : bytes) (E : Epoch) : Prop :=
  (∃ i n m, is_message b E i n m) ∨ ∃ i E', is_commit b E i E'.
Definition joined (E : Epoch) (l : Z) (e : CryptoEngine.t) : Prop :=
  ∃ g, groups e !! epoch_name E = Some g ∧ at_epoch g = E ∧ own_leaf g = l ∧ settled g.
Lemma seated_joined E l e : seated E l e ↔ joined E l e.
Proof.
  split; [intros (n & r & g & H1 & H2 & H3 & H4 & _); by exists g|].
  intros (g & H1 & H2 & H3 & H4). by exists (next_sent g), (next_read g), g.
Qed.

Lemma process_elsewhere E l e c E' :
  seated E l e → belongs c E' → epoch_secret E' ≠ epoch_secret E →
  is_ok (fst (process_incoming_message (epoch_name E) c e)) = false
  ∧ seated E l (snd (process_incoming_message (epoch_name E) c e)).
Proof using L.
  intros (g & Hg & <- & Hl & Hs)%seated_joined Hb Hne.
  destruct (process_refused (epoch_name (at_epoch g)) c e g Hg) as [H1 H2].
  - intros pm q Hpm. destruct Hb as [(i & n & m & H)|(i & E2 & H)];
      [by eapply process_message_foreign|by eapply process_commit_foreign].
  - split; [done|]. apply seated_joined. by exists g.
Qed.
End Seats.

(** ** Conversations *)

(** An event of the group as the server keeps it, with what was said. *)
Record entry : Type := Entry { author : nat; ciphertext : bytes; plaintext : bytes }.
(** A device: its engine, how far it has read the log, and what came of it. *)
Record party `{M : OpenMls} : Type := Party {
  engine : CryptoEngine.t;
  cursor : nat;
  heard : list (result CryptoError.t IncomingMessage.t)
}.
Inductive action : Type := Say (who : nat) (text : bytes) | Read (who : nat).
Definition who (a : action) : nat := match a with Say i _ | Read i => i end.

Definition by_party (i : nat) (x : entry) : bool := Nat.eqb (author x) i.
Definition count_by (i : nat) (log : list entry) : Z := Z.of_nat (length (List.filter (by_party i) log)).
Definition others (i : nat) (log : list entry) : list entry := List.filter (λ x, negb (by_party i x)) log.
Definition hears (x : entry) : result CryptoError.t IncomingMessage.t :=
  Ok (IncomingMessage.Application (plaintext x)).
Definition said (a : action) : list (nat * bytes) := match a with Say i t => [(i, t)] | Read _ => [] end.

Section Conversations.
Context `{M : OpenMls}.

(** A device does not process its own events. *)
Definition read_entry (chat : bytes) (i : nat) (x : entry) (p : party) : party :=
  if by_party i x then Party _ (engine p) (S (cursor p)) (heard p)
  else
    let '(r, e) := process_incoming_message chat (ciphertext x) (engine p) in
    Party _ e (S (cursor p)) (heard p ++ [r]).

(** [None] when there is no such device or it cannot encrypt. *)
Definition act (chat : bytes) (a : action) (w : list party * list entry) : option (list party * list entry) :=
  let '(ps, log) := w in
  p ← ps !! who a;
  match a with
  | Say i t =>
      match encrypt_application_message chat t (engine p) with
      | (Ok c, e) => Some (<[i := Party _ e (cursor p) (heard p)]> ps, log ++ [Entry i c t])
      | (Err _, _) => None
      end
  | Read i =>
      match log !! cursor p with
      | Some x => Some (<[i := read_entry chat i x p]> ps, log)
      | None => Some (ps, log)
      end
  end.
Fixpoint converse (chat : bytes) (l : list action) (w : list party * list entry)
    : option (list party * list entry) :=
  match l with
  | [] => Some w
  | a :: l => w ← act chat a w; converse chat l w
  end.
Definition start (es : list CryptoEngine.t) : list party * list entry :=
  ((λ e, Party _ e 0 []) <$> es, []).
End Conversations.

Section Counting.
Implicit Types log : list entry.
Lemma count_by_app i log x : count_by i (log ++ [x]) = count_by i log + (if by_party i x then 1 else 0).
Proof.
  unfold count_by. rewrite List.filter_app, length_app. cbn. destruct (by_party i x); cbn; lia.
Qed.
Lemma count_by_self i log c t : count_by i (log ++ [Entry i c t]) = count_by i log + 1.
Proof. rewrite count_by_app. unfold by_party. cbn. by rewrite Nat.eqb_refl. Qed.
Lemma count_by_other i j log c t : i ≠ j → count_by i (log ++ [Entry j c t]) = count_by i log.
Proof. intros H. rewrite count_by_app. unfold by_party. cbn. rewrite (proj2 (Nat.eqb_neq j i)) by done. lia. Qed.
Lemma others_app i log x : others i (log ++ [x]) = others i log ++ (if by_party i x then [] else [x]).
Proof. unfold others. rewrite List.filter_app. cbn. by destruct (by_party i x). Qed.
End Counting.

Section Heard.
Context `{M : OpenMls} `{K : !MlsEpochs} `{L : !MlsEpochLaws K}.
Context (E : Epoch) (ls : list Z) (Hnd : NoDup ls) (Hin : ∀ l, l ∈ ls → l ∈ epoch_leaves E).

(** Every event is the next message of the leaf of its author. *)
Definition told (log : list entry) : Prop := ∀ k x, log !! k = Some x →
  ∃ l, ls !! author x = Some l
    ∧ is_message (ciphertext x) E l (count_by (author x) (take k log)) (plaintext x).
(** The device has heard the others up to its cursor, has sent [n] messages and
    its engine agrees. *)
Definition has_sent (n : Z) (log : list entry) (i : nat) (l : Z) (p : party) : Prop :=
  (cursor p ≤ length log)%nat ∧ heard p = hears <$> others i (take (cursor p) log)
  ∧ ∃ r, seat E l n r (engine p)
      ∧ ∀ j l', j ≠ i → ls !! j = Some l' → r l' = count_by j (take (cursor p) log).
(** All that it has sent is in the log. *)
Definition keeps_up (log : list entry) (i : nat) : Z → party → Prop := has_sent (count_by i log) log i.
Definition in_talk (w : list party * list entry) : Prop :=
  told w.2 ∧ length w.1 = length ls
  ∧ ∀ i l p, ls !! i = Some l → w.1 !! i = Some p → keeps_up w.2 i l p.

Lemma told_app log i l c t :
  told log → ls !! i = Some l → is_message c E l (count_by i log) t → told (log ++ [Entry i c t]).
Proof.
  intros Ht Hl Hm k x [Hk|[Hlen Hk]]%lookup_app_Some.
  - destruct (Ht k x Hk) as (l' & Hl' & Hm'). exists l'. split; [done|].
    rewrite take_app_le; [done|]. apply lookup_lt_Some in Hk. lia.
  - apply list_lookup_singleton_Some in Hk as [Hz <-]. exists l. split; [done|]. cbn.
    rewrite take_app_length' by lia. done.
Qed.

(** A longer log changes nothing of what was read. *)
Lemma has_sent_app n log i l p x : has_sent n log i l p → has_sent n (log ++ [x]) i l p.
Proof.
  intros (Hc & Hh & r & Hs & Hr). unfold has_sent. rewrite take_app_le by done.
  split; [rewrite length_app; lia|]. eauto.
Qed.
Lemma keeps_up_app log i l p j c t :
  keeps_up log i l p → j ≠ i → keeps_up (log ++ [Entry j c t]) i l p.
Proof. intros H Hj. unfold keeps_up. rewrite count_by_other by done. by apply has_sent_app. Qed.

(** A message that is not in the log yet. *)
Lemma encrypt_sends n log i l p t :
  has_sent n log i l p →
  ∃ c e, encrypt_application_message (epoch_name E) t (engine p) = (Ok c, e)
    ∧ is_message c E l n t ∧ has_sent (n + 1) log i l (Party _ e (cursor p) (heard p)).
Proof using L.
  intros (Hc & Hh & r & Hs & Hr). destruct (encrypt_seat E l _ r _ t Hs) as (c & e & He & Hs' & Hm).
  exists c, e. split_and!; [done..|]. split_and!; [done..|]. by exists r.
Qed.
Lemma say_keeps log i l p t :
  keeps_up log i l p →
  ∃ c e, encrypt_application_message (epoch_name E) t (engine p) = (Ok c, e)
    ∧ is_message c E l (count_by i log) t
    ∧ keeps_up (log ++ [Entry i c t]) i l (Party _ e (cursor p) (heard p)).
Proof using L.
  intros H. destruct (encrypt_sends _ log i l p t H) as (c & e & He & Hm & Hs).
  exists c, e. split_and!; [done..|]. unfold keeps_up. rewrite count_by_self. by apply has_sent_app.
Qed.

Lemma read_entry_keeps n log i l p x :
  told log → has_sent n log i l p → ls !! i = Some l → log !! cursor p = Some x →
  has_sent n log i l (read_entry (epoch_name E) i x p).
Proof using Hin Hnd L.
  intros Ht (Hc & Hh & r & Hs & Hr) Hl Hx. pose proof (lookup_lt_Some _ _ _ Hx) as Hlt.
  destruct (Ht _ _ Hx) as (l0 & Hl0 & Hm). unfold read_entry, has_sent.
  destruct (by_party i x) eqn:Hb.
  - cbn [cursor heard engine]. rewrite (take_S_r _ _ x Hx), others_app, Hb, app_nil_r. split_and!; [lia|done|].
    exists r. split; [done|]. intros j l' Hj Hl'. rewrite count_by_app, (Hr j l' Hj Hl').
    unfold by_party in *. apply Nat.eqb_eq in Hb. rewrite (proj2 (Nat.eqb_neq _ _)); [lia|congruence].
  - assert (Ha : author x ≠ i) by (by apply Nat.eqb_neq).
    rewrite <- (Hr _ l0 Ha Hl0) in Hm.
    assert (l0 ≠ l) by (intros ->; by eapply Ha, NoDup_lookup).
    destruct (process_seat E l _ r _ _ l0 _ Hs Hm) as (e & -> & Hs'); [done|eapply Hin, list_elem_of_lookup_2, Hl0|].
    cbn [cursor heard engine]. rewrite (take_S_r _ _ x Hx), others_app, Hb, fmap_app, Hh. split_and!; [lia|done|].
    exists (read_from l0 r). split; [done|]. intros j l' Hj Hl'. rewrite count_by_app. unfold read_from, by_party.
    destruct (Z.eqb_spec l' l0) as [->|Hne].
    + assert (j = author x) as -> by (by eapply NoDup_lookup). rewrite Nat.eqb_refl.
      by rewrite (Hr _ _ Hj Hl').
    + rewrite (proj2 (Nat.eqb_neq _ _)); [|congruence]. rewrite (Hr _ _ Hj Hl'). lia.
Qed.

Definition transcript (log : list entry) : list (nat * bytes) := (λ x, (author x, plaintext x)) <$> log.

Lemma act_talks a w :
  in_talk w → (who a < length ls)%nat →
  ∃ w', act (epoch_name E) a w = Some w' ∧ in_talk w' ∧ transcript w'.2 = transcript w.2 ++ said a.
Proof using Hin Hnd L.
  destruct w as [ps log]. intros (Ht & Hlen & Hk) Hw. cbn in Hlen, Ht, Hk.
  destruct (lookup_lt_is_Some_2 ls (who a) Hw) as [l Hl].
  destruct (lookup_lt_is_Some_2 ps (who a)) as [p Hp]; [lia|]. pose proof (Hk _ _ _ Hl Hp) as Hkp.
  unfold act. rewrite Hp. destruct a as [i t|i]; cbn in *.
  - destruct (say_keeps log i l p t Hkp) as (c & e & -> & Hm & Hk').
    eexists. split; [done|]. split; [|exact (fmap_app (λ x, (author x, plaintext x)) log [_])].
    split_and!; cbn; [by eapply told_app|by rewrite length_insert|].
    intros j l' q Hl' [(-> & <- & _)|[Hj Hq]]%list_lookup_insert_Some; [by simplify_eq|].
    apply keeps_up_app; [by apply Hk|congruence].
  - destruct (log !! cursor p) as [x|] eqn:Hx; (eexists; split; [done|]; split; [|by rewrite app_nil_r]);
      split_and!; cbn; [done|by rewrite length_insert| |done..].
    intros j l' q Hl' [(-> & <- & _)|[Hj Hq]]%list_lookup_insert_Some; [|by apply Hk].
    simplify_eq. by apply read_entry_keeps.
Qed.

Lemma converse_talks acts w :
  in_talk w → Forall (λ a, (who a < length ls)%nat) acts →
  ∃ w', converse (epoch_name E) acts w = Some w' ∧ in_talk w'
    ∧ transcript w'.2 = transcript w.2 ++ concat (said <$> acts).
Proof using Hin Hnd L.
  intros Hw Ha. revert w Hw. induction Ha as [|a acts Ha _ IH]; intros w Hw; cbn.
  - exists w. by rewrite app_nil_r.
  - destruct (act_talks a w Hw Ha) as (w1 & -> & Hw1 & Hs1). cbn.
    destruct (IH w1 Hw1) as (w2 & -> & Hw2 & Hs2). exists w2. split_and!; [done..|].
    by rewrite Hs2, Hs1, app_assoc.
Qed.

Lemma start_talks es : Forall2 (newly_seated E) ls es → in_talk (start es).
Proof.
  intros H. split_and!; cbn.
  - by intros k x.
  - rewrite length_fmap. symmetry. by eapply Forall2_length.
  - intros i l p Hl Hp. apply list_lookup_fmap_Some in Hp as (e & -> & He).
    split_and!; cbn; [lia|done|]. exists (λ _, 0). split; [by apply (Forall2_lookup_lr _ _ _ _ _ _ H Hl He)|]. by intros.
Qed.
End Heard.

(** ** Commits and invitations *)

Section Commits.
Context `{M : OpenMls} `{K : !MlsEpochs} `{L : !MlsEpochLaws K}.

(** Devices with their leaves, in an epoch; newly when nothing was said in it. *)
Definition gathered (E : Epoch) (ps : list (Z * CryptoEngine.t)) : Prop :=
  NoDup (fst <$> ps) ∧ Forall (λ x, seated E (fst x) (snd x)) ps.
Definition newly_gathered (E : Epoch) (ps : list (Z * CryptoEngine.t)) : Prop :=
  NoDup (fst <$> ps) ∧ Forall (λ x, newly_seated E (fst x) (snd x)) ps.

(** The device processes an event of the conversation, or joins it. *)
Definition followed (chat c : bytes) (d : CryptoEngine.t) : CryptoEngine.t :=
  snd (process_incoming_message chat c d).
Definition applies (chat c : bytes) (d : CryptoEngine.t) : Prop :=
  fst (process_incoming_message chat c d) = Ok IncomingMessage.CommitApplied.
Definition after_event (chat c : bytes) (x : Z * CryptoEngine.t) : Z * CryptoEngine.t :=
  (fst x, followed chat c (snd x)).
Definition after_welcome (w : bytes) (d : CryptoEngine.t) : CryptoEngine.t :=
  snd (join_conversation_from_welcome w d).
Definition refuses (chat c : bytes) (d : CryptoEngine.t) : Prop :=
  is_ok (fst (process_incoming_message chat c d)) = false.

(** The device has the group, and reads nothing of it any more. *)
Definition shut_out (chat : bytes) (d : CryptoEngine.t) : Prop :=
  ∃ g, groups d !! chat = Some g ∧ closed g.
Lemma shut_out_refuses chat d b :
  shut_out chat d → refuses chat b d ∧ shut_out chat (followed chat b d).
Proof.
  intros (g & Hg & Hc). destruct (process_refused chat b d g Hg) as [H1 H2]; [by intros pm q _|].
  split; [done|]. by exists g.
Qed.

(** Each device holds the private part of its own key package and of no other. *)
Definition prepared (ds : list CryptoEngine.t) (bs : list bytes) (ks : list KeyPackage) : Prop :=
  Forall2 (λ b k, read_key_package b = Ok k) bs ks ∧ length ds = length ks
  ∧ ∀ i j d k, ds !! i = Some d → ks !! j = Some k → (holds (provider d) k ↔ i = j).

Lemma newly_seated_seated E l e : newly_seated E l e → seated E l e.
Proof. intros H. by exists 0, (λ _, 0). Qed.
Lemma newly_gathered_gathered E ps : newly_gathered E ps → gathered E ps.
Proof. intros [Hnd H]. split; [done|]. eapply Forall_impl; [exact H|]. intros x. apply newly_seated_seated. Qed.

Lemma fresh_seat E l g e :
  groups e !! epoch_name E = Some g → at_epoch g = E → own_leaf g = l → fresh g → newly_seated E l e.
Proof. intros Hg He Hl (Hs & Hn & Hr). by exists g. Qed.

(** A key package that a device generates is held by it. *)
Lemma generated_held n e l e' :
  build_key_packages n e = (Ok l, e') →
  (∀ k, holds (provider e) k → holds (provider e') k)
  ∧ Forall (λ b, ∃ k, read_key_package b = Ok k ∧ holds (provider e') k) l.
Proof using L.
  revert e l e'. induction n as [|n IH]; intros e l e'; cbn [build_key_packages]; [by intros [= <- <-]|].
  destruct (build_key_package _ _ _ _) as [o p] eqn:E.
  destruct o as [k|]; [|done]. cbn [ok_or mbind result_bind].
  destruct (build_key_package_held _ _ _ _ _ _ E) as [Hk Hm].
  destruct (key_package_serialize k) as [b|] eqn:Hb; [|done]. cbn [ok_or].
  destruct (build_key_packages n _) as [r e1] eqn:Er. destruct r as [l1|]; [|done]. intros [= <- <-].
  destruct (IH _ _ _ Er) as [H1 H2]. cbn in H1. split; [by intros k' Hk'%Hm%H1|].
  constructor; [|done]. exists k. unfold read_key_package. rewrite (key_package_codec k b Hb). split; [done|].
  by apply H1.
Qed.

Lemma create_conversation_seat i e e' :
  create_conversation i e = (Ok tt, e') → ∃ E l, epoch_name E = i ∧ newly_seated E l e'.
Proof using L.
  unfold create_conversation. destruct (_ || _); [done|].
  destruct (new_group _ _ _ _ _ _ _) as [[g|] p] eqn:E; [|done]. intros [= <-].
  destruct (new_group_fresh _ _ _ _ _ _ _ E) as (Hf & Hn & _).
  exists (at_epoch g), (own_leaf g). split; [done|]. apply (fresh_seat _ _ g); try done. cbn.
  by rewrite Hn, lookup_insert_eq.
Qed.

Lemma join_seat w E invited k i d :
  is_welcome w E invited → NoDup (fst <$> invited) → (k, i) ∈ invited → holds (provider d) k →
  (∀ k' i', (k', i') ∈ invited → holds (provider d) k' → k' = k) →
  fst (join_conversation_from_welcome w d) = Ok (epoch_name E) ∧ newly_seated E i (after_welcome w d).
Proof using L.
  intros Hw Hnd Hi Hk Hu.
  destruct (join_welcome w E invited k i (provider d) Hw Hnd Hi Hk Hu)
    as (wm & st & p1 & g & p2 & Hwm & Hst & Hg & He & Hl & Hf).
  unfold after_welcome, join_conversation_from_welcome. rewrite Hwm, Hst, Hg. cbn.
  destruct (settled_member g (proj1 Hf)) as [Hn _]. rewrite He in Hn. split; [by rewrite Hn|].
  apply (fresh_seat _ _ g); try done. cbn. by rewrite Hn, lookup_insert_eq.
Qed.

(** What a device does with a commit of another. *)
Lemma follow_commit E l e c i E' :
  seated E l e → is_commit c E i E' → i ≠ l → i ∈ epoch_leaves E → epoch_name E' = epoch_name E →
  applies (epoch_name E) c e
  ∧ (l ∈ epoch_leaves E' → newly_seated E' l (followed (epoch_name E) c e))
  ∧ (l ∉ epoch_leaves E' → shut_out (epoch_name E) (followed (epoch_name E) c e)).
Proof using L.
  intros (n & r & g & Hg & <- & <- & Hs & _) Hc Hi Hin Hn.
  destruct (process_commit c i E' g (provider e) Hc Hs Hi Hin)
    as (pm & sc & g1 & p1 & g2 & p2 & Hpm & Hp & Hm & Hstay & Hgone).
  assert (process_incoming_message (epoch_name (at_epoch g)) c e
    = (Ok IncomingMessage.CommitApplied,
       set_groups (<[epoch_name (at_epoch g) := g2]> (groups e)) (set_provider p2 e))) as Hrun.
  { unfold process_incoming_message. unfold incoming in Hpm. rewrite Hpm.
    apply (with_group_run _ _ _ _ (Ok IncomingMessage.CommitApplied) (g2, p2) Hg).
    erewrite attempt_then by exact Hp. cbn beta iota. by erewrite attempt_then by exact Hm. }
  unfold applies, followed. rewrite Hrun. cbn [fst snd]. split; [done|]. split.
  - intros Hl. destruct (Hstay Hl) as (He2 & Hl2 & Hf). apply (fresh_seat _ _ g2); try done. cbn.
    by rewrite Hn, lookup_insert_eq.
  - intros Hl. exists g2. split; [cbn; by rewrite lookup_insert_eq|]. by apply Hgone.
Qed.

Lemma followers E E' l e ps c :
  gathered E ((l, e) :: ps) → is_commit c E l E' → epoch_name E' = epoch_name E →
  Forall (λ x, applies (epoch_name E) c (snd x)) ps
  ∧ ∀ x, x ∈ ps →
      (fst x ∈ epoch_leaves E' → newly_seated E' (fst x) (followed (epoch_name E) c (snd x)))
      ∧ (fst x ∉ epoch_leaves E' → shut_out (epoch_name E) (followed (epoch_name E) c (snd x))).
Proof using L.
  intros [Hnd Hs] Hc Hn. apply Forall_cons in Hs as [Hl Hs]. cbn in Hnd.
  apply NoDup_cons in Hnd as [Hnl _].
  assert (Hin : l ∈ epoch_leaves E) by (destruct Hl as (n & r & Hl); by eapply seat_leaf).
  assert (H : ∀ x, x ∈ ps → seated E (fst x) (snd x) ∧ l ≠ fst x).
  { intros x Hx. rewrite Forall_forall in Hs. split; [by apply Hs|].
    intros ->. by apply Hnl, list_elem_of_fmap_2. }
  split.
  - apply Forall_forall. intros [j d] Hx. destruct (H _ Hx) as [Hj Hne].
    by apply (follow_commit E j d c l E').
  - intros [j d] Hx. destruct (H _ Hx) as [Hj Hne]. by apply (follow_commit E j d c l E').
Qed.

Lemma after_event_leaves chat c (ps : list (Z * CryptoEngine.t)) : fst <$> (after_event chat c <$> ps) = fst <$> ps.
Proof. rewrite <- list_fmap_compose. by apply list_fmap_ext. Qed.

(** The members that stay after a commit of the first one. *)
Lemma followers_gathered E E' l e e' ps c :
  gathered E ((l, e) :: ps) → is_commit c E l E' → epoch_name E' = epoch_name E →
  newly_seated E' l e' → (∀ x, x ∈ ps → fst x ∈ epoch_leaves E') →
  newly_gathered E' ((l, e') :: (after_event (epoch_name E) c <$> ps)).
Proof using L.
  intros Hg Hc Hn Hl Hin. destruct (followers E E' l e ps c Hg Hc Hn) as [_ H].
  destruct Hg as [Hnd _]. split; cbn in *; [by rewrite after_event_leaves|].
  constructor; [done|]. apply Forall_fmap, Forall_forall. intros x Hx. cbn.
  destruct (H x Hx) as [Hs _]. by apply Hs, Hin.
Qed.

(** The engine that commits, up to the merge of its own commit. *)
Lemma commits_seat E l e i g s E' c :
  i = epoch_name E → at_epoch g = E → own_leaf g = l → commits g (fst s) c E' →
  is_commit c E l E' ∧ epoch_name E' = epoch_name E ∧ epoch_number E' = epoch_number E + 1
  ∧ newly_seated E' l (set_groups (<[i := fst s]> (groups e)) (set_provider (snd s) e)).
Proof.
  intros -> <- <- (Hc & He & Hl & Hf & Hn & Hnum). split_and!; [done..|].
  apply (fresh_seat _ _ (fst s)); try done. cbn. by rewrite Hn, lookup_insert_eq.
Qed.

Lemma add_seat E l e bs ks ch e' :
  seated E l e → Forall2 (λ b k, read_key_package b = Ok k) bs ks →
  commit_add_members (epoch_name E) bs e = (Ok ch, e') →
  ∃ E' invited w, GroupChange.welcome ch = Some w ∧ is_welcome w E' invited ∧ fst <$> invited = ks
    ∧ epoch_leaves E' = epoch_leaves E ++ (snd <$> invited) ∧ NoDup (snd <$> invited)
    ∧ (∀ i, i ∈ snd <$> invited → i ∉ epoch_leaves E)
    ∧ is_commit (GroupChange.commit ch) E l E' ∧ epoch_name E' = epoch_name E
    ∧ epoch_number E' = epoch_number E + 1 ∧ newly_seated E' l e'.
Proof using L.
  intros (n & r & g & Hg & Hge & Hgl & Hs & _) Hks%collect_Ok. unfold commit_add_members. rewrite Hks.
  intros (g0 & s & Hg0 & H & ->)%with_group_inv. rewrite Hg in Hg0. injection Hg0 as <-.
  apply attempt_inv in H as ([c w] & g1 & p1 & Ha & H). apply attempt_inv in H as ([] & g2 & p2 & Hm & H).
  apply serialized_inv in H as (cb & Hcb & H). apply serialized_inv in H as (wb & Hwb & H).
  injection H as <- <-.
  destruct (add_members_commits _ _ _ _ _ _ _ _ _ _ _ _ Hs Ha Hm Hcb Hwb)
    as (E' & invited & Hc & Hw & Hf & Hle & Hnd & Hnew).
  destruct (commits_seat E l e _ g (g2, p2) E' cb eq_refl Hge Hgl Hc) as (H1 & H2 & H3 & H4).
  subst E. exists E', invited, wb. by split_and!.
Qed.

Lemma remove_seat E l e m ch e' :
  seated E l e → commit_remove_members (epoch_name E) m e = (Ok ch, e') →
  ∃ E' x, (∃ g, groups e !! epoch_name E = Some g
            ∧ fst (find_member (MemberCredential.encode m) (g, provider e)) = Ok x)
    ∧ x ≠ l ∧ (∀ i, i ∈ epoch_leaves E' ↔ i ∈ epoch_leaves E ∧ i ≠ x)
    ∧ is_commit (GroupChange.commit ch) E l E' ∧ epoch_name E' = epoch_name E
    ∧ epoch_number E' = epoch_number E + 1 ∧ newly_seated E' l e'.
Proof using L.
  intros (n & r & g & Hg & Hge & Hgl & Hs & _). unfold commit_remove_members.
  intros (g0 & s & Hg0 & H & ->)%with_group_inv. rewrite Hg in Hg0. injection Hg0 as <-.
  unfold mbind at 1, group_op_bind at 1 in H. cbn [fst snd] in H.
  destruct (find_member _ _) as [[x|] s0] eqn:Hx; [|done].
  assert (s0 = (g, provider e)) as -> by (unfold find_member in Hx; congruence).
  apply attempt_inv in H as ([c w] & g1 & p1 & Ha & H). apply attempt_inv in H as ([] & g2 & p2 & Hm & H).
  apply serialized_inv in H as (cb & Hcb & H).
  destruct (remove_member_commits _ _ _ _ _ _ _ _ _ _ _ Hs Ha Hm Hcb) as (E' & Hc & Hne & Hle).
  assert (s = (g2, p2) ∧ GroupChange.commit ch = cb) as [-> <-].
  { revert H. destruct w as [w|]; cbn.
    - unfold mbind, group_op_bind, serialized, glift, mret, group_op_ret.
      destruct (message_serialize w); cbn; [|done]. by intros [= <- <-].
    - by intros [= <- <-]. }
  destruct (commits_seat E l e _ g (g2, p2) E' _ eq_refl Hge Hgl Hc) as (H1 & H2 & H3 & H4).
  exists E', x. split_and!; try done; subst.
  - exists g. split; [done|]. by rewrite Hx.
  - done.
  - done.
Qed.

Lemma prepared_nodup ds bs ks : prepared ds bs ks → NoDup ks.
Proof.
  intros (_ & Hlen & Hh). apply NoDup_alt. intros i j k Hi Hj.
  destruct (lookup_lt_is_Some_2 ds i) as [d Hd]; [rewrite Hlen; by eapply lookup_lt_Some|].
  apply (Hh i j d k Hd Hj). by apply (Hh i i d k Hd Hi).
Qed.

(** Everyone who is invited joins. *)
Lemma joiners E w invited ds bs ks :
  is_welcome w E invited → fst <$> invited = ks → prepared ds bs ks →
  Forall (λ d, fst (join_conversation_from_welcome w d) = Ok (epoch_name E)) ds
  ∧ Forall2 (newly_seated E) (snd <$> invited) (after_welcome w <$> ds).
Proof using L.
  intros Hw Hf Hp. pose proof (prepared_nodup _ _ _ Hp) as Hnd. destruct Hp as (_ & Hlen & Hh).
  assert (H : ∀ i d k l, ds !! i = Some d → invited !! i = Some (k, l) →
    fst (join_conversation_from_welcome w d) = Ok (epoch_name E) ∧ newly_seated E l (after_welcome w d)).
  { intros i d k l Hd Hi. assert (Hks : ∀ j x, invited !! j = Some x → ks !! j = Some (fst x)).
    { intros j x Hj. subst ks. by rewrite list_lookup_fmap, Hj. }
    apply (join_seat w E invited k l d Hw); [by rewrite Hf|by eapply list_elem_of_lookup_2| |].
    - apply (Hh i i d k Hd); [|done]. apply (Hks i (k, l) Hi).
    - intros k' l' (j & Hj)%list_elem_of_lookup Hk'. apply (Hh i j d k' Hd (Hks j (k', l') Hj)) in Hk' as <-.
      congruence. }
  assert (Hl : length invited = length ds) by (by rewrite Hlen, <- Hf, length_fmap).
  split.
  - apply Forall_lookup. intros i d Hd.
    destruct (lookup_lt_is_Some_2 invited i) as [[k l] Hi]; [rewrite Hl; by eapply lookup_lt_Some|].
    by apply (H i d k l).
  - apply Forall2_same_length_lookup. rewrite !length_fmap. split; [done|].
    intros i l e' ([k l'] & -> & Hi)%list_lookup_fmap_Some (d & -> & Hd)%list_lookup_fmap_Some.
    by apply (H i d k l').
Qed.

Lemma Forall_zip {A B} (P : A → B → Prop) l k :
  Forall2 P l k → Forall (λ x, P (fst x) (snd x)) (zip l k).
Proof. induction 1; by constructor. Qed.
Lemma newly_gathered_app E ps js ds :
  newly_gathered E ps → Forall2 (newly_seated E) js ds → NoDup js →
  (∀ j, j ∈ js → j ∉ fst <$> ps) → newly_gathered E (ps ++ zip js ds).
Proof.
  intros [Hnd Hs] Hj Hjs Hdis. pose proof (Forall2_length _ _ _ Hj) as Hlen. split.
  - rewrite fmap_app, fst_zip by lia. apply NoDup_app. split_and!; [done| |done].
    intros j Hj1 Hj2. by apply (Hdis j).
  - apply Forall_app. split; [done|]. by apply Forall_zip.
Qed.

Lemma gathered_leaves E ps x : gathered E ps → x ∈ ps → fst x ∈ epoch_leaves E.
Proof using L.
  intros [_ Hs] Hx. rewrite Forall_forall in Hs. destruct (Hs x Hx) as (n & r & H). by eapply seat_leaf.
Qed.

(** A member adds devices: the other members follow its commit and the devices
    join with its welcome, and all of them are in the next epoch. *)
Lemma additions_gather E l e e' ps ds bs ks ch :
  gathered E ((l, e) :: ps) → prepared ds bs ks →
  commit_add_members (epoch_name E) bs e = (Ok ch, e') →
  ∃ E' w js, GroupChange.welcome ch = Some w
    ∧ Forall (λ x, applies (epoch_name E) (GroupChange.commit ch) (snd x)) ps
    ∧ Forall (λ d, fst (join_conversation_from_welcome w d) = Ok (epoch_name E)) ds
    ∧ epoch_name E' = epoch_name E ∧ epoch_number E' = epoch_number E + 1 ∧ length js = length ds
    ∧ newly_gathered E' ((l, e') :: (after_event (epoch_name E) (GroupChange.commit ch) <$> ps)
                         ++ zip js (after_welcome w <$> ds)).
Proof using L.
  intros Hg Hp Hadd. pose proof Hp as (Hbs & Hlen & _).
  assert (Hl : seated E l e) by (destruct Hg as [_ Hs]; by apply Forall_cons in Hs as [Hs _]).
  destruct (add_seat E l e bs ks ch e' Hl Hbs Hadd)
    as (E' & invited & w & Hw & Hwel & Hf & Hle & Hjs & Hnew & Hc & Hn & Hnum & Hseat).
  destruct (joiners E' w invited ds bs ks Hwel Hf Hp) as [Hjoin Hds].
  exists E', w, (snd <$> invited). split_and!; try done.
  - by apply (followers E E' l e ps _ Hg Hc Hn).
  - by rewrite <- Hn.
  - rewrite length_fmap, Hlen, <- Hf. by rewrite length_fmap.
  - rewrite app_comm_cons. apply newly_gathered_app; [|done..|].
    + apply (followers_gathered E E' l e e' ps); try done. intros x Hx. rewrite Hle. apply elem_of_app. left.
      apply (gathered_leaves E ((l, e) :: ps)); [done|]. by apply list_elem_of_further.
    + intros j Hj Hin. apply (Hnew j Hj). cbn in Hin. rewrite after_event_leaves in Hin.
      change (l :: (fst <$> ps)) with (fst <$> ((l, e) :: ps)) in Hin.
      apply list_elem_of_fmap in Hin as (x & -> & Hx). by apply (gathered_leaves E _ x Hg).
Qed.
End Commits.

(** ** What everyone hears *)

(** What the others said, in order, as the device [i] should hear it. *)
Definition spoken (i : nat) (l : list (nat * bytes)) : list (result CryptoError.t IncomingMessage.t) :=
  (λ x, Ok (IncomingMessage.Application (snd x))) <$> List.filter (λ x, negb (Nat.eqb (fst x) i)) l.
Definition all_said (acts : list action) : list (nat * bytes) := concat (said <$> acts).

Lemma spoken_others i log : hears <$> others i log = spoken i (transcript log).
Proof.
  unfold spoken, transcript, others, by_party. induction log as [|x log IH]; [done|].
  cbn [fmap list_fmap List.filter fst]. destruct (Nat.eqb (author x) i); cbn [negb fmap list_fmap]; [done|].
  f_equal. exact IH.
Qed.
Lemma spoken_take i n log : spoken i (transcript (take n log)) `prefix_of` spoken i (transcript log).
Proof.
  rewrite <- (take_drop n log) at 2. unfold spoken, transcript.
  rewrite fmap_app, List.filter_app, fmap_app. by eexists.
Qed.
Lemma said_reads i n : all_said (replicate n (Read i)) = [].
Proof. unfold all_said. by induction n. Qed.
Lemma all_said_app l k : all_said (l ++ k) = all_said l ++ all_said k.
Proof. unfold all_said. by rewrite fmap_app, concat_app. Qed.

Section Everyone.
Context `{M : OpenMls} `{K : !MlsEpochs} `{L : !MlsEpochLaws K}.

Lemma converse_app chat l k w : converse chat (l ++ k) w = converse chat l w ≫= converse chat k.
Proof.
  revert w. induction l as [|a l IH]; intros w; [done|]. cbn [converse app].
  destruct (act chat a w) as [w1|]; [apply IH|done].
Qed.

(** Reading as often as there are events leaves nothing to read. *)
Lemma reads_to_the_end chat i n ps log p :
  ps !! i = Some p → (length log <= cursor p + n)%nat →
  ∃ ps' p', converse chat (replicate n (Read i)) (ps, log) = Some (ps', log) ∧ ps' !! i = Some p'
    ∧ (length log <= cursor p')%nat.
Proof.
  revert ps p. induction n as [|n IH]; intros ps p Hp Hn; cbn.
  - exists ps, p. split_and!; [done..|lia].
  - rewrite Hp. cbn. destruct (log !! cursor p) as [x|] eqn:Hx; cbn.
    + apply (IH _ (read_entry chat i x p)).
      * rewrite list_lookup_insert_eq; [done|]. by eapply lookup_lt_Some.
      * unfold read_entry. destruct (by_party i x); cbn; [lia|].
        destruct (process_incoming_message _ _ _). cbn. lia.
    + apply (IH ps p Hp). apply lookup_ge_None in Hx. lia.
Qed.

Lemma gathered_converse E ps acts :
  newly_gathered E ps → Forall (λ a, (who a < length ps)%nat) acts →
  ∃ w, converse (epoch_name E) acts (start (snd <$> ps)) = Some w
    ∧ in_talk E (fst <$> ps) w ∧ transcript w.2 = all_said acts.
Proof using L.
  intros [Hnd Hs] Ha.
  apply (converse_talks E (fst <$> ps) Hnd); [|apply start_talks|by rewrite length_fmap].
  - intros l (x & -> & Hx)%list_elem_of_fmap. rewrite Forall_forall in Hs. by eapply seat_leaf, Hs.
  - clear Hnd Ha. induction Hs as [|x ps Hx _ IH]; cbn; by constructor.
Qed.

(** Whatever the devices say in turn and whenever each of them reads the log of
    the group, none of them fails, each has heard a prefix of what the others
    said, in the order in which it was said, and one that reads on has heard it
    all. *)
Definition hear_each_other (chat : bytes) (es : list CryptoEngine.t) : Prop := ∀ acts,
  Forall (λ a, (who a < length es)%nat) acts →
  (∃ ps log, converse chat acts (start es) = Some (ps, log) ∧ transcript log = all_said acts
    ∧ ∀ i p, ps !! i = Some p → heard p `prefix_of` spoken i (all_said acts))
  ∧ ∀ i, (i < length es)%nat → ∃ ps log p,
      converse chat (acts ++ replicate (length (all_said acts)) (Read i)) (start es) = Some (ps, log)
      ∧ ps !! i = Some p ∧ heard p = spoken i (all_said acts).

Lemma everyone_hears E ps : newly_gathered E ps → hear_each_other (epoch_name E) (snd <$> ps).
Proof using L.
  intros Hg acts Ha. rewrite length_fmap in *. assert (Hhear : ∀ w i p, in_talk E (fst <$> ps) w → w.1 !! i = Some p →
    heard p = spoken i (transcript (take (cursor p) w.2)) ∧ (cursor p ≤ length w.2)%nat).
  { intros w i p (_ & Hlen & Hk) Hp.
    destruct (lookup_lt_is_Some_2 (fst <$> ps) i) as [l Hl]; [rewrite <- Hlen; by eapply lookup_lt_Some|].
    destruct (Hk i l p Hl Hp) as (Hc & Hh & _). split; [|done]. by rewrite Hh, spoken_others. }
  destruct (gathered_converse E ps acts Hg Ha) as (w & Hw & Ht & Htr). split.
  - destruct w as [qs log]. exists qs, log. split_and!; [done..|]. intros i p Hp.
    destruct (Hhear _ i p Ht Hp) as [-> _]. rewrite <- Htr. apply spoken_take.
  - intros i Hi. set (n := length (all_said acts)).
    destruct (gathered_converse E ps (acts ++ replicate n (Read i)) Hg) as (w2 & Hw2 & Ht2 & Htr2).
    { apply Forall_app. split; [done|]. by apply Forall_replicate. }
    rewrite all_said_app, said_reads, app_nil_r in Htr2.
    destruct w as [qs log]. destruct (lookup_lt_is_Some_2 qs i) as [q Hq].
    { destruct Ht as (_ & Hlen & _). cbn in Hlen. by rewrite Hlen, length_fmap. }
    destruct (reads_to_the_end (epoch_name E) i n qs log q Hq) as (qs' & p & Hr & Hp & Hc).
    { enough (n = length log) by lia. unfold n. rewrite <- Htr. apply length_fmap. }
    pose proof Hw2 as Hrun. rewrite converse_app, Hw in Hrun. cbn in Hrun. rewrite Hr in Hrun.
    injection Hrun as <-. exists qs', log, p. split_and!; [done..|].
    destruct (Hhear _ i p Ht2 Hp) as [-> _]. rewrite take_ge by done. by rewrite <- Htr2.
Qed.

(** Two or more devices meet: one founds a conversation and adds the others with
    their key packages, and they join by the welcome. *)
Theorem invited_devices_hear_each_other chat founder founded ds bs ks ch e :
  create_conversation chat founder = (Ok tt, founded) → prepared ds bs ks →
  commit_add_members chat bs founded = (Ok ch, e) →
  ∃ w, GroupChange.welcome ch = Some w
    ∧ Forall (λ d, fst (join_conversation_from_welcome w d) = Ok chat) ds
    ∧ hear_each_other chat (e :: (after_welcome w <$> ds)).
Proof using L.
  intros (E & l & <- & Hl)%create_conversation_seat Hp Hadd.
  assert (Hg : gathered E [(l, founded)]).
  { split; [apply NoDup_singleton|]. by constructor; [apply newly_seated_seated|]. }
  destruct (additions_gather E l founded e [] ds bs ks ch Hg Hp Hadd)
    as (E' & w & js & Hw & _ & Hj & Hn & _ & Hlen & Hg').
  exists w. split_and!; [done..|]. rewrite <- Hn. apply everyone_hears in Hg'.
  cbn in Hg'. by rewrite snd_zip in Hg' by (rewrite length_fmap; lia).
Qed.
End Everyone.

(** ** The life of a conversation *)

Section Life.
Context `{M : OpenMls} `{K : !MlsEpochs}.

Definition leaf_of (chat : bytes) (d : CryptoEngine.t) : option Z := own_leaf <$> groups d !! chat.
(** The leaf of the first member that the group lists under the credential. *)
Definition listed (m : MemberCredential.t) (g : Group) (x : Z) : Prop :=
  ∃ before c after, members g = before ++ (x, c) :: after
    ∧ serialized_content c = MemberCredential.encode m
    ∧ Forall (λ y, serialized_content (snd y) ≠ MemberCredential.encode m) before.
(** The device is, in its own list of the members, the one of that credential. *)
Definition named (chat : bytes) (m : MemberCredential.t) (d : CryptoEngine.t) : Prop :=
  ∃ g, groups d !! chat = Some g ∧ listed m g (own_leaf g).

Lemma listed_found m g x :
  listed m g x
  ↔ fst <$> List.find (λ c, bool_decide (serialized_content (snd c) = MemberCredential.encode m)) (members g)
    = Some x.
Proof.
  unfold listed. split.
  - intros (before & c & after & -> & Hc & Hb). induction Hb as [|y before Hy _ IH]; cbn.
    + by rewrite bool_decide_eq_true_2.
    + by rewrite bool_decide_eq_false_2.
  - induction (members g) as [|y l IH]; cbn; [done|]. case_bool_decide as Hy.
    + intros [= <-]. exists [], (snd y), l. by destruct y.
    + intros (before & c & after & -> & Hc & Hb)%IH. exists (y :: before), c, after.
      split; [done|]. split; [done|]. by constructor.
Qed.
#[export] Instance named_dec chat m d : Decision (named chat m d).
Proof.
  destruct (groups d !! chat) as [g|] eqn:Hg; [|right; intros (g & H & _); congruence].
  destruct (decide (fst <$> List.find (λ c, bool_decide (serialized_content (snd c) = MemberCredential.encode m))
    (members g) = Some (own_leaf g))) as [H|H].
  - left. exists g. split; [done|]. by apply listed_found.
  - right. intros (g' & Hg' & Hl). rewrite Hg in Hg'. injection Hg' as <-. by apply H, listed_found.
Defined.
Definition remaining (chat : bytes) (m : MemberCredential.t) (ds : list CryptoEngine.t) : list CryptoEngine.t :=
  filter (λ d, ¬ named chat m d) ds.

(** The devices [es] have talked, and [e] is one of them; the rest are [ds]. *)
Definition talked (chat : bytes) (es : list CryptoEngine.t) (e : CryptoEngine.t)
    (ds : list CryptoEngine.t) : Prop :=
  ∃ acts ps log, Forall (λ a, (who a < length es)%nat) acts
    ∧ converse chat acts (start es) = Some (ps, log) ∧ engine <$> ps ≡ₚ e :: ds.

(** An epoch of a conversation: its devices at the beginning talk, until one of
    them commits an update, additions or a removal, the others process the commit
    and the added devices join.  This is how the next epoch begins. *)
Inductive epoch_step (chat : bytes) (es : list CryptoEngine.t) : list CryptoEngine.t → Prop :=
| epoch_updated e ds c e' :
    talked chat es e ds → self_update chat e = (Ok c, e') →
    epoch_step chat es (e' :: (followed chat c <$> ds))
| epoch_extended e ds new bs ks ch w e' :
    talked chat es e ds → prepared new bs ks →
    commit_add_members chat bs e = (Ok ch, e') → GroupChange.welcome ch = Some w →
    epoch_step chat es (e' :: (followed chat (GroupChange.commit ch) <$> ds) ++ (after_welcome w <$> new))
| epoch_reduced e ds m ch e' :
    talked chat es e ds → commit_remove_members chat m e = (Ok ch, e') →
    epoch_step chat es (e' :: (followed chat (GroupChange.commit ch) <$> remaining chat m ds)).

(** The devices of a conversation at the beginning of an epoch, the first of
    which is that of the founder alone. *)
Inductive lives (chat : bytes) : list CryptoEngine.t → Prop :=
| lives_founded e0 e : create_conversation chat e0 = (Ok tt, e) → lives chat [e]
| lives_on es es' : lives chat es → epoch_step chat es es' → lives chat es'.

(** A commit of [e] with its outcome. *)
Inductive commits_to (chat : bytes) (e : CryptoEngine.t) : bytes → CryptoEngine.t → Prop :=
| commits_update c e' : self_update chat e = (Ok c, e') → commits_to chat e c e'
| commits_addition bs ch e' : commit_add_members chat bs e = (Ok ch, e') →
    commits_to chat e (GroupChange.commit ch) e'
| commits_removal m ch e' : commit_remove_members chat m e = (Ok ch, e') →
    commits_to chat e (GroupChange.commit ch) e'.

(** The bytes that the devices send from the epoch of [es] on: what they say and
    commit in it, and in every later epoch. *)
Inductive uttered (chat : bytes) : list CryptoEngine.t → bytes → Prop :=
| uttered_message es acts ps log y :
    Forall (λ a, (who a < length es)%nat) acts → converse chat acts (start es) = Some (ps, log) →
    y ∈ log → uttered chat es (ciphertext y)
| uttered_commit es e ds c e' :
    talked chat es e ds → commits_to chat e c e' → uttered chat es c
| uttered_later es es' b : epoch_step chat es es' → uttered chat es' b → uttered chat es b.

(** What a device answers to bytes that reach it one after the other. *)
Fixpoint feed (chat : bytes) (l : list bytes) (d : CryptoEngine.t)
    : list (result CryptoError.t IncomingMessage.t) :=
  match l with
  | [] => []
  | b :: l => let '(r, d) := process_incoming_message chat b d in r :: feed chat l d
  end.

Context `{L : !MlsEpochLaws K}.

Lemma talked_gathered E qs es e ds :
  newly_gathered E qs → snd <$> qs = es → talked (epoch_name E) es e ds →
  ∃ l ps, gathered E ((l, e) :: ps) ∧ snd <$> ps = ds.
Proof using L.
  intros Hg <- (acts & ps & log & Ha & Hc & Hp). rewrite length_fmap in Ha.
  destruct (gathered_converse E qs acts Hg Ha) as (w & Hw & Ht & _).
  rewrite Hw in Hc. injection Hc as ->. destruct Ht as (_ & Hlen & Hk). cbn in Hlen, Hk.
  set (rs := zip (fst <$> qs) (engine <$> ps)).
  assert (Hf : fst <$> rs = fst <$> qs) by (apply fst_zip; rewrite !length_fmap in *; lia).
  assert (Hsnd : snd <$> rs = engine <$> ps) by (apply snd_zip; rewrite !length_fmap in *; lia).
  assert (Hrs : gathered E rs).
  { split; [rewrite Hf; apply Hg|]. apply Forall_zip, Forall2_same_length_lookup.
    split; [rewrite !length_fmap in *; lia|].
    intros i l d Hl (p & -> & Hpi)%list_lookup_fmap_Some.
    destruct (Hk i l p Hl Hpi) as (_ & _ & r & Hs & _). by exists (count_by i log), r. }
  rewrite <- Hsnd in Hp. symmetry in Hp. apply Permutation_map_inv in Hp as (ts & Hts & Hperm).
  destruct ts as [|[l d] ts]; [done|]. cbn in Hts. injection Hts as -> ->.
  exists l, ts. split; [|done]. destruct Hrs as [H1 H2]. split; by rewrite <- Hperm.
Qed.

Lemma update_seat E l e c e' :
  seated E l e → self_update (epoch_name E) e = (Ok c, e') →
  ∃ E', epoch_leaves E' = epoch_leaves E
    ∧ is_commit c E l E' ∧ epoch_name E' = epoch_name E
    ∧ epoch_number E' = epoch_number E + 1 ∧ newly_seated E' l e'.
Proof using L.
  intros (n & r & g & Hg & Hge & Hgl & Hs & _).
  intros (g0 & s & Hg0 & H & ->)%with_group_inv. rewrite Hg in Hg0. injection Hg0 as <-.
  apply attempt_inv in H as (o & g1 & p1 & Ha & H). apply attempt_inv in H as ([] & g2 & p2 & Hm & H).
  unfold serialized, glift in H. destruct (message_serialize o) as [b|] eqn:Hb; [|done].
  injection H as <- <-. destruct (self_update_commits _ _ _ _ _ _ _ _ _ Hs Ha Hm Hb) as (E' & Hc & Hle).
  destruct (commits_seat E l e _ g (g2, p2) E' b eq_refl Hge Hgl Hc) as (H1 & H2 & H3 & H4).
  subst E. exists E'. by split_and!.
Qed.

(** A commit leads to an epoch of its own. *)
Lemma commits_to_seat E l e c e' :
  seated E l e → commits_to (epoch_name E) e c e' →
  ∃ E', is_commit c E l E' ∧ epoch_name E' = epoch_name E ∧ epoch_number E' = epoch_number E + 1
    ∧ newly_seated E' l e'.
Proof using L.
  intros Hs [c' e1 H|bs ch e1 H|m ch e1 H].
  - destruct (update_seat E l e c' e1 Hs H) as (E' & _ & ? & ? & ? & ?). by exists E'.
  - pose proof H as H0. unfold commit_add_members in H0.
    destruct (collect read_key_package bs) as [ks|] eqn:Hks; [|done]. apply collect_Ok in Hks.
    destruct (add_seat E l e bs ks ch e1 Hs Hks H) as (E' & ? & ? & _ & _ & _ & _ & _ & _ & ? & ? & ? & ?).
    by exists E'.
  - destruct (remove_seat E l e m ch e1 Hs H) as (E' & x & _ & _ & _ & ? & ? & ? & ?). by exists E'.
Qed.

(** A removal takes the leaf of the device that is named. *)
Lemma named_leaf E l e l' d m x :
  seated E l e → seated E l' d →
  (∃ g, groups e !! epoch_name E = Some g
     ∧ fst (find_member (MemberCredential.encode m) (g, provider e)) = Ok x) →
  named (epoch_name E) m d ↔ l' = x.
Proof using L.
  intros (n & r & g & Hg & Hge & _ & Hs & _) (n' & r' & g' & Hg' & Hge' & <- & Hs' & _) (g0 & Hg0 & Hf).
  rewrite Hg in Hg0. injection Hg0 as <-.
  assert (listed m g x) as Hl.
  { apply listed_found. unfold find_member in Hf. cbn [fst] in Hf. by apply ok_or_Ok in Hf. }
  pose proof (settled_members g g' Hs Hs' ltac:(congruence)) as Hm.
  unfold named. split.
  - intros (g1 & Hg1 & H). rewrite Hg' in Hg1. injection Hg1 as <-.
    apply listed_found in H, Hl. rewrite Hm in Hl. congruence.
  - intros Hx. exists g'. split; [done|]. rewrite Hx. unfold listed in *. by rewrite <- Hm.
Qed.
Lemma remaining_gathered E l e ps m x :
  seated E l e → Forall (λ y, seated E (fst y) (snd y)) ps →
  (∃ g, groups e !! epoch_name E = Some g
     ∧ fst (find_member (MemberCredential.encode m) (g, provider e)) = Ok x) →
  remaining (epoch_name E) m (snd <$> ps) = snd <$> filter (λ y, fst y ≠ x) ps.
Proof using L.
  intros Hs Hps Hx. unfold remaining. induction Hps as [|y ps Hy _ IH]; [done|]. cbn [fmap list_fmap].
  pose proof (named_leaf E l e _ _ m x Hs Hy Hx) as Hn. destruct (decide (fst y = x)) as [He|Hne].
  - rewrite !filter_cons_False by (intros H; apply H; tauto). done.
  - rewrite !filter_cons_True by tauto. cbn. by f_equal.
Qed.
Lemma gathered_filter E y ps x : gathered E (y :: ps) → gathered E (y :: filter (λ z, fst z ≠ x) ps).
Proof.
  intros [Hnd Hs]. split.
  - cbn in *. apply NoDup_cons in Hnd as [Hy Hnd]. apply NoDup_cons. split.
    + intros (z & Hz & Hin)%list_elem_of_fmap. apply Hy. rewrite Hz. apply list_elem_of_filter in Hin as [_ Hin].
      by apply list_elem_of_fmap_2.
    + eapply sublist_NoDup; [exact Hnd|]. apply fmap_sublist, sublist_filter.
  - apply Forall_cons in Hs as [H1 H2]. constructor; [done|].
    rewrite Forall_forall in H2 |- *. intros z [_ Hz]%list_elem_of_filter. by apply H2.
Qed.

Lemma removal_gathers E l e e' ps m ch :
  gathered E ((l, e) :: ps) →
  commit_remove_members (epoch_name E) m e = (Ok ch, e') →
  ∃ E' qs, epoch_name E' = epoch_name E ∧ epoch_number E' = epoch_number E + 1
    ∧ snd <$> qs
      = e' :: (followed (epoch_name E) (GroupChange.commit ch) <$> remaining (epoch_name E) m (snd <$> ps))
    ∧ newly_gathered E' qs
    ∧ ∃ x, (∀ y d, seated E y d → named (epoch_name E) m d ↔ y = x)
      ∧ ∀ d, seated E x d →
          applies (epoch_name E) (GroupChange.commit ch) d
          ∧ shut_out (epoch_name E) (followed (epoch_name E) (GroupChange.commit ch) d).
Proof using L.
  intros Hg Hrem. pose proof Hg as [_ Hs]. apply Forall_cons in Hs as [Hl Hs].
  destruct (remove_seat E l e m ch e' Hl Hrem) as (E' & x & Hx & Hne & Hle & Hc & Hn & Hnum & Hseat).
  exists E', ((l, e') :: (after_event (epoch_name E) (GroupChange.commit ch) <$> filter (λ y, fst y ≠ x) ps)).
  split_and!; [done..| | |].
  - rewrite (remaining_gathered E l e ps m x Hl Hs Hx). cbn. by rewrite <- !list_fmap_compose.
  - apply (followers_gathered E E' l e e'); try done; [by apply gathered_filter|].
    intros y [Hy Hin]%list_elem_of_filter. apply Hle. split; [|done].
    apply (gathered_leaves E ((l, e) :: ps)); [done|]. by apply list_elem_of_further.
  - exists x. split; [intros y d Hd; by apply (named_leaf E l e y d m x)|]. intros d Hd.
    assert (Hin : l ∈ epoch_leaves E) by (destruct Hl as (n & r & Hl); by eapply seat_leaf).
    destruct (follow_commit E x d _ l E' Hd Hc (not_eq_sym Hne) Hin Hn) as (Ha & _ & Hgone).
    split; [done|]. apply Hgone. by intros [_ []]%Hle.
Qed.

(** Each epoch has the next number. *)
Lemma epoch_step_gathered E qs es' :
  newly_gathered E qs → epoch_step (epoch_name E) (snd <$> qs) es' →
  ∃ E' qs', epoch_name E' = epoch_name E ∧ epoch_number E' = epoch_number E + 1
    ∧ snd <$> qs' = es' ∧ newly_gathered E' qs'.
Proof using L.
  intros Hg [e ds c e' Ht H|e ds new bs ks ch w e' Ht Hp H Hw|e ds m ch e' Ht H].
  - destruct (talked_gathered E qs _ e ds Hg eq_refl Ht) as (l & ps & Hps & <-).
    assert (Hl : seated E l e) by (destruct Hps as [_ Hs]; by apply Forall_cons in Hs as [Hs _]).
    destruct (update_seat E l e c e' Hl H) as (E' & Hle & Hc & Hn & Hnum & Hs).
    exists E', ((l, e') :: (after_event (epoch_name E) c <$> ps)). split_and!; [done..| |].
    + cbn. by rewrite <- !list_fmap_compose.
    + apply (followers_gathered E E' l e e' ps); try done. intros y Hy. rewrite Hle.
      apply (gathered_leaves E ((l, e) :: ps)); [done|]. by apply list_elem_of_further.
  - destruct (talked_gathered E qs _ e ds Hg eq_refl Ht) as (l & ps & Hps & <-).
    destruct (additions_gather E l e e' ps new bs ks ch Hps Hp H)
      as (E' & w' & js & Hw' & _ & _ & Hn & Hnum & Hlen & Hg').
    rewrite Hw in Hw'. injection Hw' as <-. eexists E', _. split_and!; [done..| |exact Hg'].
    cbn. rewrite fmap_app, snd_zip by (rewrite length_fmap; lia). by rewrite <- !list_fmap_compose.
  - destruct (talked_gathered E qs _ e ds Hg eq_refl Ht) as (l & ps & Hps & <-).
    destruct (removal_gathers E l e e' ps m ch Hps H) as (E' & qs' & Hn & Hnum & Hq & Hg' & _).
    by exists E', qs'.
Qed.

Lemma lives_gathered chat es :
  lives chat es → ∃ E qs, epoch_name E = chat ∧ snd <$> qs = es ∧ newly_gathered E qs.
Proof using L.
  induction 1 as [e0 e H|es es' _ (E & qs & <- & <- & Hg) H].
  - apply create_conversation_seat in H as (E & l & Hn & Hl). exists E, [(l, e)]. split_and!; [done..|].
    split; [apply NoDup_singleton|]. by constructor.
  - destruct (epoch_step_gathered E qs es' Hg H) as (E' & qs' & Hn & _ & Hq & Hg'). by exists E', qs'.
Qed.

(** What is sent from an epoch on belongs to it or to a later one. *)
Lemma uttered_belongs E qs es b :
  newly_gathered E qs → snd <$> qs = es → uttered (epoch_name E) es b →
  ∃ E', epoch_number E ≤ epoch_number E' ∧ belongs b E'.
Proof using L.
  intros Hg Hq H. remember (epoch_name E) as chat eqn:Hchat. revert E qs Hg Hq Hchat.
  induction H as [es acts ps log y Ha Hc Hy|es e ds c e' Ht Hc|es es' b Hstep _ IH];
    intros E qs Hg <- ->.
  - rewrite length_fmap in Ha. destruct (gathered_converse E qs acts Hg Ha) as (w & Hw & (Htold & _) & _).
    rewrite Hw in Hc. injection Hc as ->. apply list_elem_of_lookup in Hy as [k Hk].
    destruct (Htold k y Hk) as (j & _ & Hm). exists E. split; [done|]. left. eauto.
  - destruct (talked_gathered E qs _ e ds Hg eq_refl Ht) as (l & ps & Hps & _).
    assert (Hl : seated E l e) by (destruct Hps as [_ Hs]; by apply Forall_cons in Hs as [Hs _]).
    destruct (commits_to_seat E l e c e' Hl Hc) as (E' & Hcm & _). exists E. split; [done|]. right. eauto.
  - destruct (epoch_step_gathered E qs es' Hg Hstep) as (E' & qs' & Hn & Hnum & Hq & Hg').
    destruct (IH E' qs' Hg' Hq (eq_sym Hn)) as (E2 & He & Hb). exists E2. split; [lia|done].
Qed.

(** C5: throughout the life of a conversation its devices hear each other: it begins
    with one device, and in each epoch the devices talk in any interleaving until
    one of them commits an update, additions or a removal.  No commit is refused
    by another member, everyone who is added can join by the welcome, and in the
    epoch that the commit leads to, whatever the members say and whenever they
    read the log, none of them fails, each has heard a prefix of what the others
    said in the order in which it was said, and one that reads on has heard it
    all. *)
Theorem conversation_hears chat es :
  lives chat es →
  hear_each_other chat es
  ∧ (∀ e ds c e', talked chat es e ds → commits_to chat e c e' → Forall (applies chat c) ds)
  ∧ ∀ e ds new bs ks ch e', talked chat es e ds → prepared new bs ks →
      commit_add_members chat bs e = (Ok ch, e') →
      ∃ w, GroupChange.welcome ch = Some w
        ∧ Forall (λ d, fst (join_conversation_from_welcome w d) = Ok chat) new.
Proof using L.
  intros (E & qs & <- & <- & Hg)%lives_gathered. split_and!; [by apply everyone_hears|..].
  - intros e ds c e' Ht Hc. destruct (talked_gathered E qs _ e ds Hg eq_refl Ht) as (l & ps & Hps & <-).
    assert (Hl : seated E l e) by (destruct Hps as [_ Hs]; by apply Forall_cons in Hs as [Hs _]).
    destruct (commits_to_seat E l e c e' Hl Hc) as (E' & Hcm & Hn & _).
    destruct (followers E E' l e ps c Hps Hcm Hn) as [H _]. by apply Forall_fmap.
  - intros e ds new bs ks ch e' Ht Hp Hadd.
    destruct (talked_gathered E qs _ e ds Hg eq_refl Ht) as (l & ps & Hps & _).
    destruct (additions_gather E l e e' ps new bs ks ch Hps Hp Hadd) as (E' & w & js & Hw & _ & Hj & _).
    by exists w.
Qed.

Lemma shut_out_feed chat (P : bytes → result CryptoError.t IncomingMessage.t → Prop) l d :
  (∀ b r, is_ok r = false → P b r) → shut_out chat d → Forall2 P l (feed chat l d).
Proof.
  intros HP. revert d. induction l as [|b l IH]; intros d Hd; cbn; [constructor|].
  destruct (shut_out_refuses chat d b Hd) as [H1 H2]. unfold refuses, followed in *.
  destruct (process_incoming_message chat b d) as [r d']. constructor; [by apply HP|by apply IH].
Qed.

(** C7: a removed device hears nothing more.  A member removes the member of a
    credential; the others follow and go on for any number of epochs, in which
    they talk, refresh, add and remove.  Whatever of all they send from then on
    reaches a device that the group listed under that credential, in whatever
    order, as often as it may be, the removal itself among it or not: the device
    applies the removal, and answers everything else with an error.  The
    remaining devices hear each other. *)
Theorem removed_member_hears_nothing chat es e ds m ch e' :
  lives chat es → talked chat es e ds → commit_remove_members chat m e = (Ok ch, e') →
  let c := GroupChange.commit ch in
  let stay := e' :: (followed chat c <$> remaining chat m ds) in
  hear_each_other chat stay
  ∧ ∀ d l, d ∈ ds → named chat m d → Forall (λ b, b = c ∨ uttered chat stay b) l →
      Forall2 (λ b r, is_ok r = false ∨ b = c ∧ r = Ok IncomingMessage.CommitApplied) l (feed chat l d).
Proof using L.
  intros (E & qs & <- & <- & Hg)%lives_gathered Ht H c stay.
  destruct (talked_gathered E qs _ e ds Hg eq_refl Ht) as (l & ps & Hps & <-).
  destruct (removal_gathers E l e e' ps m ch Hps H) as (E' & rs & Hn & Hnum & Hrs & Hg' & x & Hnamed & Hgone).
  fold c stay in Hrs, Hgone. split; [rewrite <- Hn, <- Hrs; by apply everyone_hears|].
  intros d bs ([y d'] & -> & Hin)%list_elem_of_fmap Hd Hbs. cbn [snd] in *.
  assert (Hseat : seated E y d').
  { destruct Hps as [_ Hs]. apply Forall_cons in Hs as [_ Hs]. rewrite Forall_forall in Hs. exact (Hs _ Hin). }
  apply (Hnamed y d' Hseat) in Hd as ->. clear Hin. revert d' Hseat.
  induction Hbs as [|b bs Hb _ IH]; intros d Hseat; cbn [feed]; [constructor|].
  destruct (decide (b = c)) as [->|Hbc].
  - destruct (Hgone d Hseat) as [Ha Hshut]. unfold applies, followed in Ha, Hshut.
    destruct (process_incoming_message (epoch_name E) c d) as [r d1]. cbn in Ha, Hshut.
    constructor; [by right|]. apply shut_out_feed; [by left|done].
  - destruct Hb as [->|Hb]; [done|]. rewrite <- Hn in Hb.
    destruct (uttered_belongs E' rs stay b Hg' Hrs Hb) as (E2 & He2 & Hbel).
    destruct (process_elsewhere E x d b E2 Hseat Hbel) as [H1 H2].
    { intros He%epoch_secret_number. lia. }
    destruct (process_incoming_message (epoch_name E) b d) as [r d1]. cbn in H1, H2.
    constructor; [by left|by apply IH].
Qed.


End Life.

(** ** The reference groups keep the laws *)

Module Reference.
Import Ref.

Definition at_rest (g : group) : Prop :=
  active g = true ∧ proposals g = [] ∧ pending g = None ∧ me g ∈ fst <$> leaves g.
#[export] Instance reference_epochs : MlsEpochs (M := reference_openmls) := {|
  Epoch := bytes * list commit_id * roster; Secret := bytes * list commit_id;
  epoch_secret := fst;
  epoch_name E := fst (fst E); epoch_number E := Z.of_nat (length (snd (fst E))) - 1;
  epoch_leaves E := fst <$> snd E;
  at_epoch g := (group_id g, history g, leaves g);
  own_leaf := me; next_sent := sent; next_read := expected; Conversation.settled := at_rest;
  holds p k := is_Some (values p !! private_key (fst k));
  is_message b E i n m := b = enc (Handled (fst (fst E)) (snd (fst E)) i (Private n m));
  is_commit b E i E' := ∃ r next, b = enc (Handled (fst (fst E)) (snd (fst E)) i (Commit (i, r) next))
    ∧ E' = (fst (fst E), snd (fst E) ++ [(i, r)], next);
  is_welcome b E (invited : list (package * Z)) :=
    b = enc (Welcoming (fst (fst E)) (snd (fst E)) (snd E) (prod_map fst id <$> invited))
    ∧ ∀ i, i ∈ snd <$> invited → i ∈ fst <$> snd E
|}.

Lemma is_leaf_elem r i : is_leaf r i = true ↔ i ∈ fst <$> r.
Proof.
  unfold is_leaf. rewrite existsb_exists, list_elem_of_fmap. split.
  - intros (x & Hx & <-%Z.eqb_eq). exists x. split; [done|]. by apply list_elem_of_In.
  - intros (x & -> & Hx). exists x. split; [by apply list_elem_of_In|]. apply Z.eqb_refl.
Qed.
Lemma foldr_max_ge l x : x ∈ l → x ≤ foldr Z.max (-1) l.
Proof.
  induction l as [|y l IH]; [by intros ?%elem_of_nil|].
  intros [->|H]%elem_of_cons; cbn; [lia|]. specialize (IH H). lia.
Qed.
Lemma fresh_above r i : i ∈ fst <$> r → i < fresh r.
Proof. intros H%foldr_max_ge. unfold fresh. lia. Qed.

(** The leaves that additions take. *)
Fixpoint seats (r : roster) (l : list package) : list Z :=
  match l with
  | [] => []
  | k :: l => fresh r :: seats (r ++ [(fresh r, snd k)]) l
  end.
Lemma seats_length r l : length (seats r l) = length l.
Proof. revert r. induction l as [|k l IH]; intros r; cbn; [done|]. by rewrite IH. Qed.
Lemma alter_additions r invited l :
  foldl alter (r, invited) (inl <$> l)
  = (r ++ zip (seats r l) (snd <$> l), invited ++ zip (fst <$> l) (seats r l)).
Proof.
  revert r invited. induction l as [|[k c] l IH]; intros r invited; cbn; [by rewrite !app_nil_r|].
  rewrite IH, <- !app_assoc. done.
Qed.
Lemma seats_above r l j i : j ∈ seats r l → i ∈ fst <$> r → i < j.
Proof.
  revert r. induction l as [|k l IH]; intros r; cbn; [by intros ?%elem_of_nil|].
  intros [->|Hj]%elem_of_cons Hi; [by apply fresh_above|]. apply (IH _ Hj). rewrite fmap_app.
  apply elem_of_app. by left.
Qed.
Lemma seats_nodup r l : NoDup (seats r l).
Proof.
  revert r. induction l as [|k l IH]; intros r; cbn; constructor; [|apply IH].
  intros H%(seats_above _ _ _ (fresh r)); [lia|]. rewrite fmap_app.
  apply elem_of_app. right. by apply list_elem_of_singleton.
Qed.

Lemma expected_cons g i n j l :
  expected (set_seen ((i, n) :: l) g) j
  = if j =? i then Z.max (n + 1) (expected (set_seen l g) i) else expected (set_seen l g) j.
Proof.
  unfold expected. cbn. rewrite (Z.eqb_sym i j). destruct (Z.eqb_spec j i) as [->|Hj]; cbn; [lia|done].
Qed.
Lemma unread g i n : expected g i ≤ n → existsb (λ x, (fst x =? i) && (snd x =? n)) (seen g) = false.
Proof.
  intros H. apply not_true_iff_false. intros ([j m] & Hin & [Hj Hm]%andb_true_iff)%existsb_exists.
  apply Z.eqb_eq in Hj, Hm. cbn in *. subst.
  assert (n ≤ foldr Z.max (-1) (snd <$> List.filter (λ x, fst x =? i) (seen g))).
  { apply foldr_max_ge. apply list_elem_of_fmap. exists (i, n). split; [done|]. apply list_elem_of_In.
    apply filter_In. split; [done|]. apply Z.eqb_refl. }
  unfold expected in H. lia.
Qed.
Lemma readable_next g i : readable g i (expected g i) = true.
Proof. unfold readable. rewrite unread by done. cbn. rewrite !andb_true_iff, !Z.leb_le. lia. Qed.

Lemma advance_fresh id next g :
  is_leaf next (me g) = true → Conversation.fresh (advance id next g).
Proof.
  intros H. unfold Conversation.fresh. cbn. split_and!; [|done|done]. unfold at_rest. cbn.
  split_and!; [done..|]. by apply is_leaf_elem.
Qed.

Lemma run_Some {A} (f : transition A) g p a g' :
  f g (rng p) = Some (a, g') → run f g p = (Some a, (g', store g' p)).
Proof. unfold run. by intros ->. Qed.
Lemma run_inv {A} (f : transition A) g p a g' p' :
  run f g p = (Some a, (g', p')) → f g (rng p) = Some (a, g').
Proof. unfold run. destruct (f g (rng p)) as [[b h]|]; [|done]. by intros [= -> -> _]. Qed.

Lemma incoming_handled a e i c : incoming (M := reference_openmls) (enc (Handled a e i c)) = Some (Handled a e i c).
Proof.
  unfold incoming. cbn [message_deserialize into_protocol_message reference_openmls].
  by rewrite (read_enc (A := message)).
Qed.

(** A member reads what is handled in its epoch by another leaf. *)
Lemma handled_here g i :
  at_rest g → i ≠ me g → i ∈ fst <$> leaves g →
  active g && bool_decide (group_id g = group_id g) && bool_decide (history g = history g)
  && negb (i =? me g) && is_leaf (leaves g) i = true.
Proof.
  intros (Ha & _) Hne Hi. rewrite Ha, !bool_decide_eq_true_2 by done.
  rewrite (proj2 (is_leaf_elem _ _) Hi), (proj2 (Z.eqb_neq _ _) Hne). done.
Qed.
Lemma handled_elsewhere (S : bytes * list commit_id) i c g r :
  S ≠ (group_id g, history g) → process (Handled (fst S) (snd S) i c) g r = None.
Proof.
  intros HS. unfold process. destruct (_ && _) eqn:E; [|done]. exfalso. apply HS. destruct S as [h e]. cbn [fst snd] in E.
  rewrite !andb_true_iff, !bool_decide_eq_true in E. destruct E as [[[[_ ->] ->] _] _]. done.
Qed.
Lemma inactive_refuses m g r : active g = false → process m g r = None.
Proof. intros Ha. destruct m; [|done]. unfold process. by rewrite Ha. Qed.

(** What a commit of a group at rest does, and its merge. *)
Lemma commit_inv changes g r c w g' :
  at_rest g → commit changes g r = Some ((c, w), g') →
  let next := foldl alter (leaves g, []) changes in
  is_leaf (fst next) (me g) = true ∧ c = letter g (Commit (me g, r) (fst next))
  ∧ w = Welcoming (group_id g) (history g ++ [(me g, r)]) (fst next) (snd next)
  ∧ g' = set_pending (Some ((me g, r), fst next)) g.
Proof.
  intros (Ha & Hp & Hpend & _). unfold commit, Ref.settled. rewrite Hp, Ha, Hpend. cbn [app andb].
  destruct (foldl alter _ changes) as [next invited]. destruct (is_leaf next (me g)) eqn:H; [|done].
  by intros [= <- <- <-].
Qed.
Lemma merged_commits g r next cb :
  at_rest g → is_leaf next (me g) = true → cb = enc (letter g (Commit (me g, r) next)) →
  commits g (advance (me g, r) next g) cb (group_id g, history g ++ [(me g, r)], next).
Proof.
  intros Hs Hl ->. unfold commits. split_and!; try done.
  - by exists r, next.
  - by apply advance_fresh.
  - cbn. rewrite length_app. cbn. lia.
Qed.
Lemma merge_inv g id next p g' p' :
  active g = true → run merge_pending (set_pending (Some (id, next)) g) p = (Some tt, (g', p')) →
  g' = advance id next g.
Proof. intros Ha H%run_inv. unfold merge_pending in H. cbn in H. rewrite Ha in H. by injection H as <-. Qed.

Lemma send_law s m (g : group) (p : Provider Z) : at_rest g →
  ∃ out g' p' b, create_message (OpenMls := reference_openmls) s m g p = (Some out, (g', p'))
    ∧ message_serialize out = Some b
    ∧ is_message b (at_epoch g) (own_leaf g) (next_sent g) m
    ∧ same_seat g g' ∧ next_sent g' = next_sent g + 1 ∧ ∀ i, next_read g' i = next_read g i.
Proof.
  intros Hs. pose proof Hs as (Ha & Hp & _).
  exists (letter g (Private (sent g) m)), (set_sent (sent g + 1) g), (store (set_sent (sent g + 1) g) p),
    (enc (letter g (Private (sent g) m))).
  split; [|split; [reflexivity|done]]. apply run_Some. unfold send. by rewrite Hp, Ha.
Qed.

Lemma read_law b i n m (g : group) (p : Provider Z) :
  is_message (M := reference_openmls) b (at_epoch g) i n m → at_rest g → i ≠ own_leaf g →
  i ∈ epoch_leaves (at_epoch g) → next_read g i = n →
  ∃ pm g' p', incoming b = Some pm
    ∧ process_message (OpenMls := reference_openmls) pm g p = (Some (inl (inl (inl m))), (g', p'))
    ∧ same_seat g g' ∧ next_sent g' = next_sent g ∧ next_read g' i = n + 1
    ∧ ∀ j, j ≠ i → next_read g' j = next_read g j.
Proof.
  cbn [is_message at_epoch own_leaf epoch_leaves next_read next_sent reference_epochs fst snd].
  intros -> Hs Hi Hin <-. set (g' := set_seen ((i, expected g i) :: seen g) g).
  assert (He : ∀ j, expected g' j = if j =? i then Z.max (expected g i + 1) (expected g i) else expected g j).
  { intros j. unfold g'. by rewrite expected_cons. }
  exists (Handled (group_id g) (history g) i (Private (expected g i) m)), g', (store g' p).
  split; [apply incoming_handled|]. split; [|split_and!; [done..| |]].
  - apply run_Some. unfold process. by rewrite (handled_here g i Hs Hi Hin), readable_next.
  - rewrite He, Z.eqb_refl. lia.
  - intros j Hj. rewrite He. by rewrite (proj2 (Z.eqb_neq j i)).
Qed.

Lemma join_law b E (invited : list (package * Z)) (k : package) i (p : Provider Z) :
  is_welcome (M := reference_openmls) b E invited → NoDup (fst <$> invited) → (k, i) ∈ invited →
  holds p k → (∀ k' i', (k', i') ∈ invited → holds p k' → k' = k) →
  ∃ w st p1 g p2, message_deserialize b ≫= extract_welcome = Some w
    ∧ stage_welcome true ratchet w p = (Some st, p1)
    ∧ into_group (OpenMls := reference_openmls) st p1 = (Some g, p2)
    ∧ at_epoch g = E ∧ own_leaf g = i ∧ Conversation.fresh g.
Proof.
  intros [-> Hin] Hnd Hi Hk Hu. destruct E as [[name hist] next]. cbn [fst snd] in *.
  assert (Hfind : own_invitation (values p) (prod_map fst id <$> invited) = Some (fst k, i)).
  { assert (Hsome : ∃ x, own_invitation (values p) (prod_map fst id <$> invited) = Some x).
    { destruct (own_invitation _ _) as [x|] eqn:E; [by exists x|]. exfalso.
      assert (Hx : (fst k, i) ∈ prod_map fst id <$> invited) by (apply list_elem_of_fmap; by exists (k, i)).
      apply list_elem_of_In in Hx. pose proof (find_none _ _ E _ Hx) as Hf. cbn in Hf.
      by rewrite bool_decide_eq_true_2 in Hf. }
    destruct Hsome as [x Hx]. rewrite Hx. apply find_some in Hx as [Hx Hd].
    apply list_elem_of_In, list_elem_of_fmap in Hx as ([k' i'] & -> & Hx). cbn in Hd |- *.
    apply bool_decide_eq_true in Hd. pose proof (Hu k' i' Hx Hd) as ->. do 2 f_equal.
    apply list_elem_of_lookup in Hx as [a Ha]. apply list_elem_of_lookup in Hi as [c Hc].
    assert (a = c) as -> by (apply (NoDup_lookup (fst <$> invited) a c k Hnd);
      apply list_lookup_fmap_Some; [by exists (k, i')|by exists (k, i)]). 
    assert (Some (k, i') = Some (k, i)) as [= ->]; [|done]. etrans; [symmetry; exact Ha|exact Hc]. }
  set (g := MakeGroup name hist next i (out_of_order_tolerance ratchet)
              (maximum_forward_distance ratchet) 0 [] [] None true).
  exists (Welcoming name hist next (prod_map fst id <$> invited)), g.
  eexists _, g, _. split_and!.
  - cbn [message_deserialize extract_welcome reference_openmls]. by rewrite (read_enc (A := message)).
  - cbn [stage_welcome reference_openmls]. unfold stage. by rewrite Hfind.
  - reflexivity.
  - done.
  - done.
  - unfold Conversation.fresh, g. cbn. split_and!; [|done|done]. unfold at_rest. cbn. split_and!; [done..|].
    apply Hin. by apply (list_elem_of_fmap_2 snd invited (k, i)).
Qed.

Lemma zip_ids (l : list package) (js : list Z) : prod_map fst id <$> zip l js = zip (fst <$> l) js.
Proof. revert js. induction l as [|x l IH]; intros [|j js]; cbn; [done..|]. f_equal. apply IH. Qed.
Lemma zip_seats r l :
  fst <$> zip (seats r l) (snd <$> l) = seats r l ∧ fst <$> zip l (seats r l) = l
  ∧ snd <$> zip l (seats r l) = seats r l.
Proof. split_and!; [apply fst_zip|apply fst_zip|apply snd_zip]; rewrite ?length_fmap, seats_length; done. Qed.
Lemma add_law s (l : list package) (g : group) (p : Provider Z) c w g1 p1 g2 p2 cb wb : at_rest g →
  add_members (OpenMls := reference_openmls) s l g p = (Some (c, w), (g1, p1)) →
  merge_pending_commit (OpenMls := reference_openmls) g1 p1 = (Some tt, (g2, p2)) →
  message_serialize c = Some cb → message_serialize w = Some wb →
  ∃ E (invited : list (package * Z)), commits g g2 cb E ∧ is_welcome wb E invited ∧ fst <$> invited = l
    ∧ epoch_leaves E = epoch_leaves (at_epoch g) ++ (snd <$> invited)
    ∧ NoDup (snd <$> invited) ∧ (∀ i, i ∈ snd <$> invited → i ∉ epoch_leaves (at_epoch g)).
Proof.
  intros Hs Ha Hm [= <-] [= <-]. apply run_inv in Ha. unfold add in Ha.
  assert (Hc : commit (inl <$> l) g (rng p) = Some (c, w, g1)) by (by destruct l).
  destruct (commit_inv _ _ _ _ _ _ Hs Hc) as (Hl & -> & -> & ->). rewrite alter_additions in *. cbn [fst snd app] in *.
  apply merge_inv in Hm as ->; [|apply Hs].
  destruct (zip_seats (leaves g) l) as (Z1 & Z2 & Z3).
  eexists _, (zip l (seats (leaves g) l)). split_and!.
  - by apply merged_commits.
  - split; cbn [fst snd]; [by rewrite zip_ids|]. intros i Hi. rewrite Z3 in Hi. rewrite fmap_app, Z1.
    apply elem_of_app. by right.
  - exact Z2.
  - cbn. by rewrite fmap_app, Z1, Z3.
  - rewrite Z3. apply seats_nodup.
  - intros i Hi Hin. rewrite Z3 in Hi. cbn in Hin. pose proof (seats_above _ _ _ _ Hi Hin). lia.
Qed.

Lemma remove_law s x (g : group) (p : Provider Z) c w g1 p1 g2 p2 cb : at_rest g →
  remove_members (OpenMls := reference_openmls) s [x] g p = (Some (c, w), (g1, p1)) →
  merge_pending_commit (OpenMls := reference_openmls) g1 p1 = (Some tt, (g2, p2)) →
  message_serialize c = Some cb →
  ∃ E, commits g g2 cb E ∧ x ≠ own_leaf g
    ∧ ∀ i, i ∈ epoch_leaves E ↔ i ∈ epoch_leaves (at_epoch g) ∧ i ≠ x.
Proof.
  intros Hs Ha Hm [= <-]. apply run_inv in Ha. unfold remove in Ha.
  destruct (forallb _ _); [|done]. destruct (commit _ _ _) as [[[c' w'] g']|] eqn:Hc; [|done].
  injection Ha as <- <- <-.
  destruct (commit_inv _ _ _ _ _ _ Hs Hc) as (Hl & -> & -> & ->). cbn [foldl alter fmap list_fmap fst snd] in *.
  apply merge_inv in Hm as ->; [|apply Hs].
  assert (H : ∀ i, i ∈ fst <$> List.filter (λ y, negb (fst y =? x)) (leaves g) ↔ i ∈ fst <$> leaves g ∧ i ≠ x).
  { intros i. rewrite !list_elem_of_fmap.
    split.
    - intros (y & -> & Hy). apply list_elem_of_In, filter_In in Hy as [Hy Hne].
      apply negb_true_iff, Z.eqb_neq in Hne. split; [|done]. exists y. split; [done|]. by apply list_elem_of_In.
    - intros [(y & -> & Hy) Hne]. exists y. split; [done|]. apply list_elem_of_In, filter_In.
      split; [by apply list_elem_of_In|]. by apply negb_true_iff, Z.eqb_neq. }
  eexists. split; [by apply merged_commits|]. split; [|exact H].
  intros ->. apply is_leaf_elem, H in Hl as [_ Hl]. by apply Hl.
Qed.

Lemma update_law s (g : group) (p : Provider Z) c g1 p1 g2 p2 cb : at_rest g →
  mls_self_update (OpenMls := reference_openmls) s g p = (Some c, (g1, p1)) →
  merge_pending_commit (OpenMls := reference_openmls) g1 p1 = (Some tt, (g2, p2)) →
  message_serialize c = Some cb →
  ∃ E, commits g g2 cb E ∧ epoch_leaves E = epoch_leaves (at_epoch g).
Proof.
  intros Hs Ha Hm [= <-]. apply run_inv in Ha. unfold update in Ha.
  destruct (commit _ _ _) as [[[c' w'] g']|] eqn:Hc; [|done]. injection Ha as <- <-.
  destruct (commit_inv _ _ _ _ _ _ Hs Hc) as (Hl & -> & -> & ->). cbn [foldl fst snd] in *.
  apply merge_inv in Hm as ->; [|apply Hs].
  eexists. split; [by apply merged_commits|done].
Qed.

Lemma follow_law b i E (g : group) (p : Provider Z) :
  is_commit b (at_epoch g) i E → at_rest g → i ≠ own_leaf g → i ∈ epoch_leaves (at_epoch g) →
  ∃ pm sc g1 p1 g2 p2, incoming b = Some pm
    ∧ process_message (OpenMls := reference_openmls) pm g p = (Some (inl (inl (inr sc))), (g1, p1))
    ∧ merge_staged_commit sc g1 p1 = (Some tt, (g2, p2))
    ∧ (own_leaf g ∈ epoch_leaves E → at_epoch g2 = E ∧ own_leaf g2 = own_leaf g ∧ Conversation.fresh g2)
    ∧ (own_leaf g ∉ epoch_leaves E → closed g2).
Proof.
  cbn [is_commit at_epoch own_leaf epoch_leaves reference_epochs fst snd].
  intros (r & next & -> & ->) Hs Hi Hin. cbn [fst snd].
  exists (Handled (group_id g) (history g) i (Commit (i, r) next)), ((i, r), next), g, (store g p).
  exists (advance (i, r) next g), (store (advance (i, r) next g) (store g p)).
  split; [apply incoming_handled|]. split; [|split; [done|split]].
  - apply run_Some. unfold process. by rewrite (handled_here g i Hs Hi Hin).
  - intros Hl%is_leaf_elem. split_and!; [done..|]. by apply advance_fresh.
  - intros Hl pm q. exists q. cbn [process_message reference_openmls]. unfold run.
    rewrite inactive_refuses; [done|]. cbn. apply not_true_iff_false. by intros ?%is_leaf_elem.
Qed.

#[export] Instance reference_epoch_laws : MlsEpochLaws (M := reference_openmls) reference_epochs.
Proof.
  constructor.
  - by intros g (_ & _ & _ & H).
  - intros g g' _ _. cbn. congruence.
  - done.
  - intros E E' He. cbn in *. by rewrite He.
  - intros c s i x p g p' [= <- <-]. split; [|done]. unfold Conversation.fresh. split; [|done]. cbn.
    unfold at_rest. cbn. split_and!; [done..|]. by apply list_elem_of_singleton.
  - exact send_law.
  - exact read_law.
  - intros b E i n m pm g p -> Hne Hpm. rewrite incoming_handled in Hpm. injection Hpm as <-.
    exists p. cbn [process_message reference_openmls]. unfold run. by rewrite handled_elsewhere.
  - intros b E i E' pm g p (r & next & -> & _) Hne Hpm. rewrite incoming_handled in Hpm. injection Hpm as <-.
    exists p. cbn [process_message reference_openmls]. unfold run. by rewrite handled_elsewhere.
  - intros c s x p k p' [= <- <-]. cbn. split; [rewrite lookup_insert_eq; by eexists|].
    intros k' [v Hv]. destruct (decide (private_key (snd x, rng p) = private_key k'.1)) as [<-|Hne].
    + rewrite lookup_insert_eq. by eexists.
    + rewrite lookup_insert_ne by done. by eexists.
  - intros k b [= <-]. cbn [key_package_deserialize key_package_validate reference_openmls mbind option_bind].
    pose proof (read_enc (A := package) k) as Hr. cbn in *. by rewrite Hr.
  - exact join_law.
  - exact add_law.
  - exact remove_law.
  - exact update_law.
  - intros b1 b2 E i1 i2 E1 E2 (r1 & n1 & _ & ->) (r2 & n2 & _ & ->) Hne He. cbn in He. simplify_eq.
  - exact follow_law.
Qed.
End Reference.
#[export] Existing Instances Reference.reference_epochs Reference.reference_epoch_laws.

(** ** A conversation of three *)

Section Witnesses.
Abbreviation device := (CryptoEngine.t (M := reference_openmls)).

Definition chat : bytes := lit "chat".
Definition credential_of (b : Z) : MemberCredential.t := MemberCredential.Make (fill 16 b) (fill 32 b) (fill 16 b).
Definition newborn (b : Z) : device :=
  match initialize_crypto_store (M := reference_openmls) (1000 * b) (credential_of b) (fill 32 9) with
  | Ok e => e
  | Err _ => Make _ (MakeProvider ∅ 0) 0 ([], []) ∅ (fill 32 9)
  end.
Definition supply (b : Z) : result CryptoError.t (list bytes) * device := generate_key_packages 1 (newborn b).
Definition package_of (b : Z) : bytes := match fst (supply b) with Ok [k] => k | _ => [] end.

Definition founder : device := newborn 1.
Definition founded : device := snd (create_conversation chat founder).
Definition invitees : list device := [snd (supply 2); snd (supply 3)].
Definition invitations : list bytes := [package_of 2; package_of 3].
Definition key_of (b : Z) : package :=
  match read_key_package (M := reference_openmls) (package_of b) with Ok k => k | Err _ => ([], 0, []) end.
Definition packages : list package := [key_of 2; key_of 3].
Definition added : result CryptoError.t GroupChange.t * device :=
  commit_add_members chat invitations founded.
Definition change : GroupChange.t :=
  match fst added with Ok c => c | Err _ => GroupChange.Make [] None end.
Definition welcome : bytes := default [] (GroupChange.welcome change).
Definition three : list device := snd added :: (after_welcome welcome <$> invitees).

Lemma founded_eq : create_conversation chat founder = (Ok tt, founded).
Proof. apply pair_fst. vm_compute. reflexivity. Qed.
Lemma added_eq : commit_add_members chat invitations founded = (Ok change, snd added).
Proof. apply pair_fst. vm_compute. reflexivity. Qed.
Lemma invitees_prepared : prepared invitees invitations packages.
Proof.
  split; [repeat constructor; vm_compute; reflexivity|]. split; [vm_compute; reflexivity|].
  intros i j d k Hi Hj.
  assert (Hb : ∀ p : Provider Z, is_Some (values p !! Ref.private_key (fst k))
    ↔ bool_decide (is_Some (values p !! Ref.private_key (fst k))) = true) by (intros p; by rewrite bool_decide_eq_true).
  change (is_Some (values (provider d) !! Ref.private_key (fst k)) ↔ i = j). rewrite Hb. clear Hb.
  destruct i as [|[|i]]; [injection Hi as <-|injection Hi as <-|discriminate Hi];
    (destruct j as [|[|j]]; [injection Hj as <-|injection Hj as <-|discriminate Hj]); vm_compute; done.
Qed.

(** The three talk: everyone speaks, and the third reads in between. *)
Definition talk : list action :=
  [Say 0 (lit "hello"); Say 1 (lit "hi"); Read 2; Say 2 (lit "here"); Read 0; Say 0 (lit "good")].

Lemma invited_devices_hear_each_other_witness :
  ∃ ps log p, converse chat (talk ++ replicate 4 (Read 1)) (start three) = Some (ps, log) ∧ ps !! 1%nat = Some p
    ∧ heard p = [Ok (IncomingMessage.Application (lit "hello")); Ok (IncomingMessage.Application (lit "here"));
                 Ok (IncomingMessage.Application (lit "good"))].
Proof.
  destruct (invited_devices_hear_each_other (M := reference_openmls) chat founder founded invitees invitations
    packages change (snd added) founded_eq invitees_prepared added_eq) as (w & Hw & _ & H).
  assert (w = welcome) as -> by (unfold welcome; by rewrite Hw).
  destruct (H talk) as [_ Ha]; [repeat constructor; cbn; lia|].
  destruct (Ha 1%nat) as (ps & log & p & Hc & Hp & Hh); [cbn; lia|].
  exists ps, log, p. split; [exact Hc|]. split; [exact Hp|]. rewrite Hh. vm_compute. reflexivity.
Defined.

(** After it the second device refreshes its keys, and in the next epoch it
    removes the third one. *)
Definition spoke (es : list device) (acts : list action) : list party * list entry :=
  default ([], []) (converse chat acts (start es)).
Definition nth_device (es : list device) (acts : list action) (i : nat) : device :=
  nth i (engine <$> fst (spoke es acts)) founder.
Definition goes (es : list device) (acts : list action) : bool :=
  forallb (λ a, Nat.ltb (who a) (length es)) acts
  && match converse chat acts (start es) with Some _ => true | None => false end.
Lemma goes_spoke es acts :
  goes es acts = true → converse chat acts (start es) = Some (fst (spoke es acts), snd (spoke es acts)).
Proof.
  intros [_ Hc]%andb_true_iff. unfold spoke. by destruct (converse chat acts (start es)) as [[ps log]|].
Qed.
Lemma nth_all {A} (l : list A) (d : A) : (λ n, nth n l d) <$> seq 0 (length l) = l.
Proof.
  induction l as [|x l IH]; [done|]. cbn [length seq fmap list_fmap nth]. f_equal.
  rewrite <- fmap_S_seq, <- list_fmap_compose. exact IH.
Qed.
Lemma talked_all es acts i rest :
  goes es acts = true → i :: rest ≡ₚ seq 0 (length (fst (spoke es acts))) →
  talked chat es (nth_device es acts i) (nth_device es acts <$> rest).
Proof.
  intros Hg Hp. exists acts, (fst (spoke es acts)), (snd (spoke es acts)).
  split_and!; [|by apply goes_spoke|].
  - apply andb_true_iff in Hg as [Ha _]. apply Forall_forall. intros x Hin%list_elem_of_In.
    rewrite forallb_forall in Ha. by apply Nat.ltb_lt, Ha.
  - change (nth_device es acts i :: _) with (nth_device es acts <$> i :: rest). rewrite Hp.
    unfold nth_device. rewrite <- (length_fmap engine), nth_all. done.
Qed.

Lemma three_live : lives chat three.
Proof.
  apply (lives_on chat [founded]); [apply (lives_founded chat founder), founded_eq|].
  apply (epoch_extended chat [founded] founded [] invitees invitations packages change welcome).
  - by exists [], [Party _ founded 0 []], [].
  - apply invitees_prepared.
  - apply added_eq.
  - vm_compute. reflexivity.
Qed.

Definition refreshed : result CryptoError.t bytes * device := self_update chat (nth_device three talk 1).
Definition refresh : bytes := match fst refreshed with Ok c => c | Err _ => [] end.
Lemma refreshed_eq : self_update chat (nth_device three talk 1) = (Ok refresh, snd refreshed).
Proof. apply pair_fst. vm_compute. reflexivity. Qed.
Definition again : list device :=
  snd refreshed :: (followed chat refresh <$> [nth_device three talk 0; nth_device three talk 2]).
Lemma talked_once : talked chat three (nth_device three talk 1) [nth_device three talk 0; nth_device three talk 2].
Proof.
  apply (talked_all three talk 1 [0; 2]%nat); [vm_compute; reflexivity|].
  replace (length _) with 3%nat by (vm_compute; reflexivity). apply perm_swap.
Qed.
Lemma again_live : lives chat again.
Proof.
  apply (lives_on chat three); [apply three_live|].
  apply (epoch_updated chat three (nth_device three talk 1)); [apply talked_once|apply refreshed_eq].
Qed.

Definition banter : list action := [Say 2 (lit "one"); Read 0; Say 1 (lit "two")].
Lemma talked_twice :
  talked chat again (nth_device again banter 0) [nth_device again banter 1; nth_device again banter 2].
Proof.
  apply (talked_all again banter 0 [1; 2]%nat); [vm_compute; reflexivity|].
  by replace (length _) with 3%nat by (vm_compute; reflexivity).
Qed.
Definition removed : result CryptoError.t GroupChange.t * device :=
  commit_remove_members chat (credential_of 3) (nth_device again banter 0).
Definition removal : GroupChange.t :=
  match fst removed with Ok c => c | Err _ => GroupChange.Make [] None end.
Lemma removed_eq :
  commit_remove_members chat (credential_of 3) (nth_device again banter 0) = (Ok removal, snd removed).
Proof. apply pair_fst. vm_compute. reflexivity. Qed.

Lemma conversation_hears_witness :
  (∃ ps log p, converse chat (banter ++ replicate 2 (Read 0)) (start again) = Some (ps, log)
     ∧ ps !! 0%nat = Some p
     ∧ heard p = [Ok (IncomingMessage.Application (lit "one")); Ok (IncomingMessage.Application (lit "two"))])
  ∧ Forall (applies chat (GroupChange.commit removal))
      [nth_device again banter 1; nth_device again banter 2].
Proof.
  destruct (conversation_hears (M := reference_openmls) chat again again_live) as (H & Hc & _). split.
  - destruct (H banter) as [_ Ha]; [repeat constructor; cbn; lia|].
    destruct (Ha 0%nat) as (ps & log & p & Hr & Hp & Hh); [cbn; lia|].
    exists ps, log, p. split; [exact Hr|]. split; [exact Hp|]. rewrite Hh. vm_compute. reflexivity.
  - apply (Hc _ _ _ (snd removed) talked_twice). apply (commits_removal chat _ (credential_of 3)), removed_eq.
Defined.

(** The founder removes the third device at once.  The other two go on: the
    founder speaks, then refreshes its keys, and speaks in the next epoch.  All of
    it reaches the third device, the removal too. *)
Definition silent : list action := [].
Definition expelled : result CryptoError.t GroupChange.t * device :=
  commit_remove_members chat (credential_of 3) (nth_device three silent 0).
Definition expulsion : GroupChange.t :=
  match fst expelled with Ok c => c | Err _ => GroupChange.Make [] None end.
Lemma talked_silent :
  talked chat three (nth_device three silent 0) [nth_device three silent 1; nth_device three silent 2].
Proof.
  apply (talked_all three silent 0 [1; 2]%nat); [vm_compute; reflexivity|].
  by replace (length _) with 3%nat by (vm_compute; reflexivity).
Qed.
Lemma expelled_eq :
  commit_remove_members chat (credential_of 3) (nth_device three silent 0) = (Ok expulsion, snd expelled).
Proof. change (expelled = (Ok expulsion, snd expelled)). apply (pair_fst expelled). vm_compute. reflexivity. Qed.

Definition rest : list device :=
  snd expelled :: (followed chat (GroupChange.commit expulsion)
    <$> remaining chat (credential_of 3) [nth_device three silent 1; nth_device three silent 2]).
Definition secret : list action := [Say 0 (lit "secret")].
Definition renewed : result CryptoError.t bytes * device := self_update chat (nth_device rest secret 0).
Definition renewal : bytes := match fst renewed with Ok c => c | Err _ => [] end.
Definition later : list device := snd renewed :: (followed chat renewal <$> [nth_device rest secret 1]).
Definition overheard : list bytes :=
  (ciphertext <$> snd (spoke rest secret)) ++ [GroupChange.commit expulsion; renewal]
  ++ (ciphertext <$> snd (spoke later secret)).

Lemma rest_talked : talked chat rest (nth_device rest secret 0) [nth_device rest secret 1].
Proof.
  apply (talked_all rest secret 0 [1%nat]); [vm_compute; reflexivity|].
  by replace (length _) with 2%nat by (vm_compute; reflexivity).
Qed.
Lemma renewed_eq : self_update chat (nth_device rest secret 0) = (Ok renewal, snd renewed).
Proof. change (renewed = (Ok renewal, snd renewed)). apply (pair_fst renewed). vm_compute. reflexivity. Qed.
Lemma all_uttered es acts b :
  goes es acts = true → b ∈ ciphertext <$> snd (spoke es acts) → uttered chat es b.
Proof.
  intros Hg (y & -> & Hy)%list_elem_of_fmap. pose proof (goes_spoke _ _ Hg) as Hr.
  apply andb_true_iff in Hg as [Ha _].
  apply (uttered_message chat es acts (fst (spoke es acts)) (snd (spoke es acts))); [|done..].
  apply Forall_forall. intros x Hx%list_elem_of_In. rewrite forallb_forall in Ha. by apply Nat.ltb_lt, Ha.
Qed.
Lemma secret_goes : goes rest secret = true.
Proof. vm_compute. reflexivity. Qed.
Lemma later_goes : goes later secret = true.
Proof. vm_compute. reflexivity. Qed.
Lemma overheard_uttered :
  Forall (λ b, b = GroupChange.commit expulsion ∨ uttered chat rest b) overheard.
Proof.
  apply Forall_app. split; [|apply Forall_app; split].
  - apply Forall_forall. intros b Hb. right. exact (all_uttered rest secret b secret_goes Hb).
  - constructor; [by left|]. constructor; [|constructor]. right.
    exact (uttered_commit chat rest _ _ renewal (snd renewed) rest_talked (commits_update chat _ _ _ renewed_eq)).
  - apply Forall_forall. intros b Hb. right. apply (uttered_later chat rest later).
    + exact (epoch_updated chat rest _ _ renewal (snd renewed) rest_talked renewed_eq).
    + exact (all_uttered later secret b later_goes Hb).
Qed.
Lemma third_named : named chat (credential_of 3) (nth_device three silent 2).
Proof. apply (bool_decide_unpack _). vm_compute. exact I. Qed.

Lemma removed_member_hears_nothing_witness :
  Forall2 (λ b r, is_ok r = false
       ∨ b = GroupChange.commit expulsion ∧ r = Ok IncomingMessage.CommitApplied)
      overheard (feed chat overheard (nth_device three silent 2)).
Proof.
  refine (proj2 (removed_member_hears_nothing (M := reference_openmls) chat three _ _ (credential_of 3)
    expulsion (snd expelled) three_live talked_silent expelled_eq) _ overheard _ third_named overheard_uttered).
  right. left.
Defined.
Lemma overheard_four :
  length overheard = 4%nat ∧ is_ok <$> feed chat overheard (nth_device three silent 2) = [false; true; false; false].
Proof. split; vm_compute; reflexivity. Qed.

End Witnesses.
