(* ===== verification/Messaging.v ===== *)
(** * Messaging: the engines of a conversation over core-api

    Composes Conversation and CoreDelivery.  Devices encrypt with their engines
    and upload the ciphertexts as events of a group; an upload may fail, or
    succeed without the device learning it, and is then repeated.  Devices ask
    core-api for pages of events, each from the last cursor it saw, and process
    what they get.  The log of Conversation is what core-api has stored for the
    group: this file shows that the composition keeps the promise of Conversation.
    The Rust code has the operations that such a client calls; the client itself
    is the applications'.  It encrypts a text only when the one before has been
    acknowledged. *)
From Stdlib Require Import ZArith Lia Sorting.Sorted.
From stdpp Require Import base gmap list strings relations.
From S2P Require Import Prelude Protocol Crypto Sql Identity CoreDb CoreApi CoreDelivery Dispatch Server.
From S2P Require Import Mls ReferenceMls Conversation.
Import Db.

(** A device: its engine, the last cursor that it saw, the identifiers of the
    events that it made, the event that it has made last and that has not been
    acknowledged, with its text, the texts it wrote, and what it has heard. *)
Record member `{M : OpenMls} : Type := Member {
  device_id : Id;
  own_engine : CryptoEngine.t;
  mark : Z;
  own_events : list Id;
  outgoing : option (UploadedEvent.t * bytes);
  written : list bytes;
  has_heard : list (result CryptoError.t IncomingMessage.t)
}.
(** The devices, core-api, and what was said, in the order in which core-api
    stored it. *)
Record system `{M : OpenMls} : Type := System {
  parties : list member; server : Backend; history : list entry
}.

Section System.
Context `{M : OpenMls} `{C : Crypto} `{U : Unicode}.

Definition newcomer (since : Z) (x : Id) (e : CryptoEngine.t) : member := Member _ x e since [] None [] [].

(** A text is encrypted for an event that is to be uploaded. *)
Definition write (chat : bytes) (g : Id) (i : nat) (text : bytes) (event_id client_message_id : Id)
    (kind : Z) (s : system) : option system :=
  m ← parties s !! i;
  match outgoing m with
  | Some _ => None
  | None =>
      match encrypt_application_message chat text (own_engine m) with
      | (Ok c, e) =>
          let ev := UploadedEvent.Make event_id g (device_id m) client_message_id kind c None in
          Some (System _ (<[i := Member _ (device_id m) e (mark m) (event_id :: own_events m)
                                   (Some (ev, text)) (written m ++ [text]) (has_heard m)]> (parties s))
                  (server s) (history s))
      | (Err _, _) => None
      end
  end.
Definition acknowledged (m : member) : member :=
  Member _ (device_id m) (own_engine m) (mark m) (own_events m) None (written m) (has_heard m).
(** The event is uploaded, under any failures of the database.  When the answer
    is an error or is lost, the device keeps it to upload it again. *)
Definition send (i : nat) (now : Z) (fl : list bool) (answered : bool) (s : system) : option system :=
  m ← parties s !! i;
  '(ev, text) ← outgoing m;
  let '(r, w) := upload_event now ev (with_faults fl (server s)) in
  match r with
  | Ok accepted =>
      Some (System _ (if answered then <[i := acknowledged m]> (parties s) else parties s) w
              (if UploadAccepted.duplicate accepted then history s
               else history s ++ [Entry i (UploadedEvent.ciphertext ev) text]))
  | Err _ => Some (System _ (parties s) w (history s))
  end.

(** A device skips its own events and processes the others. *)
Definition hear_event (chat : bytes) (m : member) (e : SyncEvent.t) : member :=
  if bool_decide (SyncEvent.event_id e ∈ own_events m)
  then Member _ (device_id m) (own_engine m) (SyncEvent.cursor e) (own_events m) (outgoing m) (written m)
         (has_heard m)
  else
    let '(r, en) := process_incoming_message chat (SyncEvent.ciphertext e) (own_engine m) in
    Member _ (device_id m) en (SyncEvent.cursor e) (own_events m) (outgoing m) (written m) (has_heard m ++ [r]).
(** A device asks for the page after the last cursor that it saw, under any
    failures of the database. *)
Definition pull (chat : bytes) (g : Id) (i : nat) (now limit : Z) (fl : list bool) (s : system) : option system :=
  m ← parties s !! i;
  match sync_group now (device_id m) g (mark m) limit (with_faults fl (server s)) with
  | (Ok page, w) => Some (System _ (<[i := foldl (hear_event chat) m page]> (parties s)) w (history s))
  | (Err _, w) => Some (System _ (parties s) w (history s))
  end.
Fixpoint pulls (n : nat) (chat : bytes) (g : Id) (i : nat) (now limit : Z) (s : system) : option system :=
  match n with
  | O => Some s
  | S n => s ← pull chat g i now limit [] s; pulls n chat g i now limit s
  end.

(** The events of the group after the cursor [since]. *)
Definition logged (g : Id) (since : Z) (e : GroupEvent.t) : bool :=
  in_group g e && (since <? GroupEvent.event_cursor e).
Definition group_log (g : Id) (since : Z) (d : Db.t) : list GroupEvent.t :=
  select_where (logged g since) (group_events d).
(** Nothing that a device at cursor [after] has not seen has expired. *)
Definition unexpired (g : Id) (after now : Z) (d : Db.t) : Prop := ∀ e,
  e ∈ group_events d → in_group g e = true → after < GroupEvent.event_cursor e → now < GroupEvent.expires_at e.

(** An identifier that nothing has. *)
Definition unused (i : Id) (s : system) : Prop :=
  (i ∉ (GroupEvent.event_id <$> group_events (current (server s))))
  ∧ ∀ j m, parties s !! j = Some m → i ∉ own_events m.
(** Other requests do not store events under the identifiers that devices drew. *)
Definition apart (s : system) (w : Backend) : Prop := ∀ j m e,
  parties s !! j = Some m → e ∈ group_events (current w) → GroupEvent.event_id e ∈ own_events m →
  e ∈ group_events (current (server s)).

(** The devices write, upload and pull in any order, and core-api serves any other
    requests, some of which fail, as long as they leave the events of the group
    alone. *)
Inductive system_step (chat : bytes) (g : Id) (since : Z) : system → system → Prop :=
| step_write i text event_id client_message_id kind s s' :
    unused event_id s → write chat g i text event_id client_message_id kind s = Some s' →
    system_step chat g since s s'
| step_send i now fl answered s s' :
    send i now fl answered s = Some s' → system_step chat g since s s'
| step_pull i now limit fl s s' m :
    parties s !! i = Some m → unexpired g (mark m) now (current (server s)) →
    pull chat g i now limit fl s = Some s' → system_step chat g since s s'
| step_other s w :
    steps (server s) w → group_log g since (current w) = group_log g since (current (server s)) →
    apart s w → system_step chat g since s (System _ (parties s) w (history s)).

(** ** What core-api does in a step *)

Lemma group_log_appended g c row d :
  logged g c row = true → group_log g c (event_appended row d) = group_log g c d ++ [row].
Proof. intros H. unfold group_log, select_where. cbn. rewrite List.filter_app. cbn. by rewrite H. Qed.
Lemma elem_of_group_log g c d e :
  e ∈ group_log g c d ↔ e ∈ group_events d ∧ in_group g e = true ∧ c < GroupEvent.event_cursor e.
Proof. unfold group_log. rewrite elem_of_select. unfold logged. by rewrite andb_true_iff, Z.ltb_lt. Qed.

Lemma upload_appends now c e (w w' : Backend) acc :
  sound w → c < event_seq (current w) → upload_event now e w = (Ok acc, w') →
  sound w' ∧ c < event_seq (current w')
  ∧ if UploadAccepted.duplicate acc
    then current w' = current w
      ∧ UploadedEvent.event_id e ∈ GroupEvent.event_id <$> group_events (current w)
    else ∃ row, GroupEvent.event_id row = UploadedEvent.event_id e
      ∧ GroupEvent.ciphertext row = UploadedEvent.ciphertext e
      ∧ group_events (current w') = group_events (current w) ++ [row]
      ∧ group_log (UploadedEvent.group_id e) c (current w')
        = group_log (UploadedEvent.group_id e) c (current w) ++ [row]
      ∧ c < GroupEvent.event_cursor row
      ∧ ∀ x, x ∈ group_events (current w) →
          GroupEvent.event_cursor x < GroupEvent.event_cursor row
          ∧ GroupEvent.event_id x ≠ UploadedEvent.event_id e.
Proof.
  intros Hw Hcw H. pose proof (upload_sound _ _ _ _ _ Hw H) as Hw'. destruct Hw as [Hc (_ & _ & Hg)].
  split; [done|]. apply (upload_Ok _ _ _ _ _ Hc) in H as (_ & _ & [_ H]%upload_run_Ok).
  destruct (stored_event e (current w)) as [x|] eqn:Hx.
  { destruct H as [-> H]. destruct (same_upload e x) eqn:Hsame; [|done]. injection H as ->. cbn.
    split_and!; [done..|]. apply andb_true_iff in Hsame as [<-%bool_decide_eq_true _].
    apply find_where_Some in Hx as [Hx _]. by apply list_elem_of_fmap_2. }
  destruct H as [[= Hacc] Hcur]. rewrite Hacc. cbn [UploadAccepted.duplicate].
  set (row := event_row now _ e) in Hcur. split; [rewrite Hcur; cbn; lia|]. exists row.
  split_and!; [done..| | |done|].
  - by rewrite Hcur.
  - rewrite Hcur, group_log_appended; [done|]. unfold logged, in_group. cbn.
    by rewrite bool_decide_eq_true_2, (proj2 (Z.ltb_lt _ _)).
  - intros x Hin. split; [apply (range_event _ Hg x Hin)|]. intros Hid.
    destruct Hw' as [_ (Hk & _)]. pose proof (key_event _ Hk) as Hn. rewrite Hcur in Hn.
    unfold unique, event_appended in Hn. cbn in Hn. rewrite fmap_app, NoDup_app in Hn.
    destruct Hn as (_ & Hn & _). apply (Hn (GroupEvent.event_id x)); [by apply list_elem_of_fmap_2|].
    rewrite Hid. by apply list_elem_of_singleton.
Qed.

(** What does not succeed leaves the events alone. *)
Lemma upload_fails now c e (w w' : Backend) x :
  sound w → c < event_seq (current w) → upload_event now e w = (Err x, w') →
  sound w' ∧ c < event_seq (current w') ∧ group_events (current w') = group_events (current w).
Proof.
  intros Hw Hcw H. pose proof (request_sound (Request.UploadEvent now e) w Hw) as Hs.
  pose proof (perform_keeps (λ d, Z.succ c ≤ event_seq d) (Request.UploadEvent now e) w) as Hk.
  cbn [perform] in Hs, Hk. rewrite H in Hs, Hk. cbn in Hs, Hk. split; [done|].
  split; [apply Z.le_succ_l, Hk; split; [apply Hw|lia]|].
  unfold upload_event in H. destruct (_ || _); [by injection H as _ <-|].
  pose proof (pg_transaction_atomic (upload_body now e) w _ (proj1 Hw)) as Ha. rewrite H in Ha.
  destruct Ha as [_ [[Hsame _]|Hr]]; [exact (f_equal group_events Hsame)|].
  apply upload_run_Ok in Hr as [_ Hr]. destruct (stored_event _ _); [by destruct Hr as [-> _]|].
  by destruct Hr as [? _].
Qed.
Lemma sync_fails now x g after limit c (w w' : Backend) e :
  sound w → c < event_seq (current w) → sync_group now x g after limit w = (Err e, w') →
  sound w' ∧ c < event_seq (current w') ∧ group_events (current w') = group_events (current w).
Proof.
  intros [Hc Hw] Hcw H.
  pose proof (sound_keeps w (sync_group now x g after limit w).2
    (λ P HP, sync_group_keeps P now x g after limit w) (conj Hc Hw)) as Hs.
  pose proof (sync_group_keeps (λ d, Z.succ c ≤ event_seq d) now x g after limit w) as Hk.
  rewrite H in Hs, Hk. cbn in Hs, Hk. split; [done|].
  split; [apply Z.le_succ_l, Hk; split; [done|lia]|].
  unfold sync_group in H.
  pose proof (pg_transaction_atomic (sync_group_body now x g after limit) w _ Hc) as Ha. rewrite H in Ha.
  destruct Ha as [_ [[Hsame _]|Hr]]; [exact (f_equal group_events Hsame)|].
  rewrite sync_body_run in Hr. by destruct (exists_where _ _).
Qed.

Lemma pull_page now x g after limit (w w' : Backend) page :
  sound w → sync_group now x g after limit w = (Ok page, w') →
  sound w' ∧ current w' = current w
  ∧ page = sync_event <$> take (Z.to_nat (clamp 1 MAX_SYNC_BATCH limit))
             (live_events (in_group g) (Z.max after 0) now (current w)).
Proof.
  intros [Hc Hwf] H. apply transaction_committed in H as [Hc' H]; [|apply _|done|].
  - rewrite sync_body_run in H. destruct (exists_where _ _); [|done]. injection H as <- Hw. rewrite <- Hw. unfold sound. by rewrite <- Hw.
  - intros d' l. rewrite sync_body_run. by destruct (exists_where _ _).
Qed.
End System.

(** What a device has said of what core-api has stored. *)
Definition texts (i : nat) (log : list entry) : list bytes := plaintext <$> List.filter (by_party i) log.
Lemma texts_app i log x : texts i (log ++ [x]) = texts i log ++ (if by_party i x then [plaintext x] else []).
Proof. unfold texts. rewrite List.filter_app, fmap_app. cbn. by destruct (by_party i x). Qed.
Lemma texts_self i log c t : texts i (log ++ [Entry i c t]) = texts i log ++ [t].
Proof. rewrite texts_app. unfold by_party. cbn. by rewrite Nat.eqb_refl. Qed.
Lemma texts_other i j log c t : i ≠ j → texts i (log ++ [Entry j c t]) = texts i log.
Proof.
  intros H. rewrite texts_app. unfold by_party. cbn.
  by rewrite (proj2 (Nat.eqb_neq j i)), app_nil_r by done.
Qed.

(** ** The composition follows Conversation *)

Section Following.
Context `{M : OpenMls} `{C : Crypto} `{U : Unicode} `{K : !MlsEpochs} `{L : !MlsEpochLaws K}.
Context (E : Epoch) (ls : list Z) (Hnd : NoDup ls) (Hin : ∀ l, l ∈ ls → l ∈ epoch_leaves E).
Context (g : Id) (c0 : Z) (Hc0 : 0 ≤ c0).

(** The device has seen the first [k] events. *)
Definition seen_up_to (events : list GroupEvent.t) (k : nat) (m : member) : Prop :=
  Forall (λ e, GroupEvent.event_cursor e ≤ mark m) (take k events)
  ∧ Forall (λ e, mark m < GroupEvent.event_cursor e) (drop k events)
  ∧ (mark m = c0 ∨ ∃ e, e ∈ events ∧ mark m = GroupEvent.event_cursor e).
(** It knows its own events by their identifiers. *)
Definition knows_own (log : list entry) (events : list GroupEvent.t) (i : nat) (m : member) : Prop :=
  ∀ n x e, log !! n = Some x → events !! n = Some e →
     (GroupEvent.event_id e ∈ own_events m ↔ author x = i).
(** Its engine has sent [n] messages: all that it wrote is stored, or the last is
    outgoing and either not stored yet or stored without its knowing. *)
Definition awaits (d : Db.t) (log : list entry) (events : list GroupEvent.t) (i : nat) (l : Z)
    (m : member) (n : Z) : Prop :=
  match outgoing m with
  | None => n = count_by i log ∧ written m = texts i log
  | Some (ev, t) =>
      UploadedEvent.event_id ev ∈ own_events m ∧ UploadedEvent.group_id ev = g
      ∧ (n = count_by i log + 1 ∧ written m = texts i log ++ [t]
           ∧ is_message (UploadedEvent.ciphertext ev) E l (count_by i log) t
           ∧ UploadedEvent.event_id ev ∉ (GroupEvent.event_id <$> group_events d)
         ∨ n = count_by i log ∧ written m = texts i log
           ∧ UploadedEvent.event_id ev ∈ (GroupEvent.event_id <$> events))
  end.
Definition follows_at (d : Db.t) (log : list entry) (events : list GroupEvent.t) (i : nat) (l : Z)
    (n : Z) (k : nat) (m : member) : Prop :=
  knows_own log events i m ∧ awaits d log events i l m n ∧ seen_up_to events k m
  ∧ has_sent E ls n log i l (Party _ (own_engine m) k (has_heard m)).
Definition follows (d : Db.t) (log : list entry) (events : list GroupEvent.t) (i : nat) (l : Z)
    (m : member) : Prop := ∃ n k, follows_at d log events i l n k m.
(** No two devices drew the same identifier. *)
Definition distinct (ps : list member) : Prop := ∀ i j m m' id,
  ps !! i = Some m → ps !! j = Some m' → id ∈ own_events m → id ∈ own_events m' → i = j.

Definition in_order (s : system) : Prop :=
  let d := current (server s) in
  let events := group_log g c0 d in
  (sound (server s) ∧ c0 < event_seq d) ∧ ascending events
  ∧ Forall2 (λ x e, ciphertext x = GroupEvent.ciphertext e) (history s) events
  ∧ told E ls (history s) ∧ length (parties s) = length ls ∧ distinct (parties s)
  ∧ ∀ i l m, ls !! i = Some l → parties s !! i = Some m → follows d (history s) events i l m.

Lemma ascending_snoc l e :
  ascending l → (∀ x, x ∈ l → GroupEvent.event_cursor x < GroupEvent.event_cursor e) → ascending (l ++ [e]).
Proof.
  intros Hl He. induction Hl as [|x l Hl IH Hx]; cbn; [by repeat constructor|].
  constructor; [apply IH; intros y Hy; apply He; by right|].
  apply Forall_app. split; [done|]. constructor; [|done]. apply He. by left.
Qed.

(** The events that a device has not seen, when none of them has expired. *)
Lemma unread_events events k m now d :
  events = group_log g c0 d → ascending events → wf d → seen_up_to events k m → unexpired g (mark m) now d →
  live_events (in_group g) (Z.max (mark m) 0) now d = drop k events.
Proof using Hc0.
  intros -> Ha (Hk & _ & _) (Hread & Hrest & Hmark) Hex.
  pose proof (key_cursor _ Hk) as Hu. assert (Hz : c0 ≤ mark m).
  { destruct Hmark as [->|(e & (_ & _ & He)%elem_of_group_log & ->)]; lia. }
  assert (Hsplit : ∀ e, e ∈ group_log g c0 d → (e ∈ drop k (group_log g c0 d) ↔ mark m < GroupEvent.event_cursor e)).
  { intros e He. rewrite <- (take_drop k (group_log g c0 d)) in He. apply elem_of_app in He.
    rewrite Forall_forall in Hread, Hrest. split; [apply Hrest|]. intros Hc.
    destruct He as [He|He]; [|done]. specialize (Hread e He). cbn in Hread. lia. }
  apply ascending_unique.
  - by apply live_events_ascending.
  - rewrite <- (take_drop k (group_log g c0 d)) in Ha. revert Ha. generalize (take k (group_log g c0 d)). intros p.
    induction p as [|y p IH]; cbn; [done|]. intros H. inversion H. by apply IH.
  - intros e. rewrite elem_of_live_events. split.
    + intros (He & Hg & Hc & _). apply Hsplit; [|lia]. rewrite elem_of_group_log. split_and!; [done..|lia].
    + intros He. assert (Hl : e ∈ group_log g c0 d).
      { rewrite <- (take_drop k (group_log g c0 d)). apply elem_of_app. by right. }
      pose proof (proj1 (Hsplit e Hl) He) as Hc. apply elem_of_group_log in Hl as (Hev & Hg & _).
      split_and!; [done..|lia|]. by apply Hex.
Qed.

Lemma ascending_middle p e q :
  ascending (p ++ e :: q) →
  (∀ x, x ∈ p → GroupEvent.event_cursor x < GroupEvent.event_cursor e)
  ∧ ∀ x, x ∈ q → GroupEvent.event_cursor e < GroupEvent.event_cursor x.
Proof.
  induction p as [|y p IH]; cbn; intros H; inversion H as [|? ? Hs Hy]; subst; rewrite Forall_forall in Hy.
  - split; [by intros x ?%elem_of_nil|exact Hy].
  - destruct (IH Hs) as [H1 H2]. split; [|done]. intros x [->|Hx]%elem_of_cons; [|by apply H1].
    apply Hy, elem_of_app. right. by left.
Qed.

Lemma hear_follows d log events i l n k m e :
  told E ls log → Forall2 (λ x e, ciphertext x = GroupEvent.ciphertext e) log events → ascending events →
  ls !! i = Some l → follows_at d log events i l n k m → events !! k = Some e →
  follows_at d log events i l n (S k) (hear_event (epoch_name E) m (sync_event e)).
Proof using Hin Hnd L.
  intros Ht Hm Ha Hl (Hown & Haw & Hseen & Hk) He.
  destruct (Forall2_lookup_r _ _ _ _ _ Hm He) as (x & Hx & Hc).
  pose proof (read_entry_keeps E ls Hnd Hin n log i l _ x Ht Hk Hl Hx) as Hread.
  assert (Hmid : ∀ en hs, seen_up_to events (S k)
    (Member _ (device_id m) en (GroupEvent.event_cursor e) (own_events m) (outgoing m) (written m) hs)).
  { pose proof Ha as Hmid. rewrite <- (take_drop_middle events k e He) in Hmid.
    apply ascending_middle in Hmid as [H1 H2].
    intros en hs. unfold seen_up_to. split_and!; cbn [mark].
    - rewrite (take_S_r _ _ e He). apply Forall_app. split; [|by repeat constructor].
      apply Forall_forall. intros y Hy. specialize (H1 y Hy). lia.
    - apply Forall_forall. exact H2.
    - right. exists e. split; [|done]. by eapply list_elem_of_lookup_2. }
  unfold hear_event, read_entry, follows_at in *. cbn [engine cursor heard] in Hread.
  cbn [sync_event SyncEvent.event_id SyncEvent.ciphertext SyncEvent.cursor].
  assert (Hdec : bool_decide (GroupEvent.event_id e ∈ own_events m) = by_party i x).
  { apply eq_true_iff_eq. rewrite bool_decide_eq_true. unfold by_party. rewrite Nat.eqb_eq.
    by apply (Hown k). }
  rewrite Hdec, <- Hc. destruct (by_party i x).
  - split_and!; [exact Hown|exact Haw|apply Hmid..|exact Hread].
  - destruct (process_incoming_message _ _ _) as [r en].
    split_and!; [exact Hown|exact Haw|apply Hmid..|exact Hread].
Qed.

Lemma hear_page d log events i l es n k m :
  told E ls log → Forall2 (λ x e, ciphertext x = GroupEvent.ciphertext e) log events → ascending events →
  ls !! i = Some l → follows_at d log events i l n k m → es `prefix_of` drop k events →
  follows_at d log events i l n (k + length es) (foldl (hear_event (epoch_name E)) m (sync_event <$> es)).
Proof using Hin Hnd L.
  intros Ht Hm Ha Hl. revert k m. induction es as [|e es IH]; intros k m Hf Hp; cbn [length fmap list_fmap foldl].
  - by rewrite Nat.add_0_r.
  - destruct Hp as [rest Hp]. assert (He : events !! k = Some e).
    { rewrite <- (Nat.add_0_r k), <- lookup_drop, Hp. done. }
    replace (k + S (length es))%nat with (S k + length es)%nat by lia. apply IH.
    + by apply hear_follows.
    + exists rest. rewrite (drop_S _ _ _ He) in Hp. cbn in Hp. by injection Hp.
Qed.
Lemma heard_page (es : list SyncEvent.t) m :
  let m' := foldl (hear_event (epoch_name E)) m es in
  device_id m' = device_id m ∧ own_events m' = own_events m.
Proof.
  revert m. induction es as [|e es IH]; intros m; [done|]. cbn. destruct (IH (hear_event (epoch_name E) m e)) as [-> ->].
  unfold hear_event. destruct (bool_decide _); [done|]. by destruct (process_incoming_message _ _ _).
Qed.

Lemma seen_further events k n m m' :
  seen_up_to events k m → seen_up_to events (k + n) m' → (0 < n)%nat → (k < length events)%nat →
  mark m < mark m'.
Proof.
  intros (_ & Hd & _) (Ht & _) Hn [e He]%lookup_lt_is_Some_2. rewrite Forall_forall in Hd, Ht.
  enough (mark m < GroupEvent.event_cursor e ∧ GroupEvent.event_cursor e ≤ mark m') by lia. split.
  - apply Hd. rewrite (drop_S _ _ _ He). by left.
  - apply Ht, (list_elem_of_lookup_2 _ k). by rewrite lookup_take_lt by lia.
Qed.

Lemma distinct_insert ps i m m' :
  distinct ps → ps !! i = Some m →
  (∀ id, id ∈ own_events m' → id ∈ own_events m
     ∨ ∀ j q, ps !! j = Some q → id ∉ own_events q) →
  distinct (<[i := m']> ps).
Proof.
  intros Hd Hi Hm'.
  assert (Hone : ∀ k q id, ps !! k = Some q → id ∈ own_events m' → id ∈ own_events q → i = k).
  { intros k q id Hk H1 H2. destruct (Hm' id H1) as [H|H]; [by eapply Hd|by destruct (H k q Hk)]. }
  intros a b x y id [(<- & <- & _)|[Ha Hx]]%list_lookup_insert_Some
    [(<- & <- & _)|[Hb Hy]]%list_lookup_insert_Some H1 H2; [done|by eapply Hone| |by eapply Hd].
  symmetry. by eapply Hone.
Qed.

(** A pull takes the device forward by a page, which is empty only at the end;
    one that fails leaves everything as it is. *)
Lemma pull_succeeds s i l m n k now limit fl page w :
  in_order s → ls !! i = Some l → parties s !! i = Some m →
  follows_at (current (server s)) (history s) (group_log g c0 (current (server s))) i l n k m →
  unexpired g (mark m) now (current (server s)) →
  sync_group now (device_id m) g (mark m) limit (with_faults fl (server s)) = (Ok page, w) →
  let m' := foldl (hear_event (epoch_name E)) m page in
  in_order (System _ (<[i := m']> (parties s)) w (history s)) ∧ current w = current (server s)
  ∧ device_id m' = device_id m ∧ mark m ≤ mark m'
  ∧ ∃ j, follows_at (current (server s)) (history s) (group_log g c0 (current (server s))) i l n (k + j) m'
      ∧ ((k < length (history s))%nat → (0 < j)%nat).
Proof using Hin Hnd L Hc0.
  intros ([Hs Hseq] & Ha & Hm & Ht & Hlen & Hdis & Hfol) Hl Hp Hf Hex Hsync m'.
  assert (Hs0 : sound (with_faults fl (server s))) by exact Hs.
  destruct (pull_page _ _ _ _ _ _ _ _ Hs0 Hsync) as (Hs' & Hcur & ->).
  cbn [with_faults current] in Hcur. unfold m'. clear m'.
  pose proof (unread_events _ k _ _ _ eq_refl Ha (proj2 Hs) (proj1 (proj2 (proj2 Hf))) Hex) as Hun.
  change (current (with_faults fl (server s))) with (current (server s)). rewrite Hun.
  set (events := group_log g c0 (current (server s))) in *.
  set (es := take _ (drop k events)). set (m' := foldl _ m _).
  assert (Hf' : follows_at (current (server s)) (history s) events i l n (k + length es) m').
  { apply hear_page; try done. apply prefix_take. }
  destruct (heard_page (sync_event <$> es) m) as [Hid Hown]. fold m' in Hid, Hown.
  split_and!; [|done|done| |exists (length es); split; [exact Hf'|]].
  - unfold in_order. cbn. rewrite Hcur. fold events. split_and!; try done; [by rewrite length_insert| |].
    + eapply distinct_insert; [exact Hdis|exact Hp|]. intros id. rewrite Hown. by left.
    + intros j l' q Hl' [(-> & <- & _)|[Hj Hq]]%list_lookup_insert_Some; [|by apply Hfol].
      simplify_eq. by exists n, (k + length es)%nat.
  - destruct (decide (length es = 0)%nat) as [Hz|Hz].
    + apply nil_length_inv in Hz. unfold m'. rewrite Hz. cbn. lia.
    + apply Z.lt_le_incl, (seen_further events k (length es)); [apply Hf|apply Hf'|lia|].
      unfold es in Hz. rewrite length_take, length_drop in Hz. lia.
  - apply Forall2_length in Hm. unfold es. rewrite length_take, length_drop. unfold clamp, MAX_SYNC_BATCH. lia.
Qed.

(** Nothing happened but a failure. *)
Lemma failed_in_order s w :
  in_order s → sound w ∧ c0 < event_seq (current w) ∧ group_events (current w) = group_events (current (server s)) →
  in_order (System _ (parties s) w (history s)).
Proof.
  intros (_ & Hrest) (Hw & Hseq & Hev). unfold in_order, follows, follows_at, awaits, group_log in *. cbn.
  rewrite Hev. by split.
Qed.
Lemma pull_follows s s' i m now limit fl :
  in_order s → parties s !! i = Some m → unexpired g (mark m) now (current (server s)) →
  pull (epoch_name E) g i now limit fl s = Some s' → in_order s'.
Proof using Hin Hnd L Hc0.
  intros Hs Hp Hex. pose proof Hs as ([Hw Hseq] & _ & _ & _ & Hlen & _ & Hfol).
  destruct (lookup_lt_is_Some_2 ls i) as [l Hl]; [rewrite <- Hlen; by eapply lookup_lt_Some|].
  destruct (Hfol i l m Hl Hp) as (n & k & Hf). unfold pull. rewrite Hp. cbn.
  destruct (sync_group _ _ _ _ _ _) as [[page|e] w] eqn:Hsync; intros [= <-].
  - by eapply pull_succeeds.
  - apply failed_in_order; [done|]. by eapply (sync_fails now _ g _ _ c0 (with_faults fl (server s))).
Qed.

(** An upload is one more event for everyone. *)
Definition fresh_row (events : list GroupEvent.t) (row : GroupEvent.t) : Prop :=
  c0 < GroupEvent.event_cursor row
  ∧ ∀ x, x ∈ events → GroupEvent.event_cursor x < GroupEvent.event_cursor row
      ∧ GroupEvent.event_id x ≠ GroupEvent.event_id row.

Lemma seen_up_to_app events row k m :
  fresh_row events row → (k ≤ length events)%nat → seen_up_to events k m → seen_up_to (events ++ [row]) k m.
Proof.
  intros [H1 Hrow] Hk (Ht & Hd & Hmark). unfold seen_up_to. rewrite take_app_le, drop_app_le by done.
  split_and!; [done|apply Forall_app; split; [done|]; constructor; [|done]|].
  - destruct Hmark as [->|(e & [He _]%Hrow & ->)]; lia.
  - destruct Hmark as [H|(e & He & H)]; [by left|right]. exists e. split; [|done]. apply elem_of_app. by left.
Qed.

Lemma knows_own_app log events row i j c t m :
  length log = length events → knows_own log events i m →
  (GroupEvent.event_id row ∈ own_events m ↔ j = i) →
  knows_own (log ++ [Entry j c t]) (events ++ [row]) i m.
Proof.
  intros Hlen H Hrow n x e Hx He. apply lookup_app_Some in Hx as [Hx|[Hn Hx]].
  - rewrite lookup_app_l in He by (rewrite <- Hlen; by eapply lookup_lt_Some). by eapply H.
  - apply list_lookup_singleton_Some in Hx as [Hz <-]. rewrite lookup_app_r in He by lia.
    replace (n - length events)%nat with 0%nat in He by lia. by injection He as <-.
Qed.

(** Writing a text is invisible to everyone else. *)
Lemma write_follows s s' i text event_id client_message_id kind :
  in_order s → unused event_id s →
  write (epoch_name E) g i text event_id client_message_id kind s = Some s' → in_order s'.
Proof using L.
  intros (Hs & Ha & Hm & Ht & Hlen & Hdis & Hfol) [Hev Hun]. unfold write.
  destruct (parties s !! i) as [m|] eqn:Hp; [|done]. cbn.
  destruct (lookup_lt_is_Some_2 ls i) as [l Hl]; [rewrite <- Hlen; by eapply lookup_lt_Some|].
  destruct (Hfol i l m Hl Hp) as (n & k & Hown & Haw & Hseen & Hk). unfold awaits in Haw.
  destruct (outgoing m); [done|]. destruct Haw as [-> Hwr].
  destruct (encrypt_sends E ls _ _ i l _ text Hk) as (c & e & He & Hmsg & Hk'). cbn [engine] in He. rewrite He.
  intros [= <-]. split; [exact Hs|]. split_and!; [exact Ha|exact Hm|exact Ht|by cbn; rewrite length_insert| |].
  - eapply distinct_insert; [exact Hdis|exact Hp|]. intros id. cbn. rewrite elem_of_cons.
    intros [->|H]; [right|by left]. exact Hun.
  - intros j l' q Hl' [(-> & <- & _)|[Hj Hq]]%list_lookup_insert_Some; [|by apply Hfol].
    simplify_eq. exists (count_by j (history s) + 1), k.
    split; [|split; [|split; [exact Hseen|exact Hk']]].
    + intros a x y Hx Hy. cbn. rewrite elem_of_cons, <- (Hown a x y Hx Hy). split; [|by right].
      intros [Hid|H]; [|done]. destruct Hev. rewrite <- Hid. apply list_elem_of_fmap_2.
      by apply list_elem_of_lookup_2, elem_of_group_log in Hy as [? _].
    + unfold awaits. cbn. split_and!; [by left|done|]. left. by rewrite Hwr.
Qed.

(** A stored event is one more for every device that did not make it. *)
Lemma others_follow d d' log events row i j l q c t :
  Forall2 (λ x e, ciphertext x = GroupEvent.ciphertext e) log events → fresh_row events row →
  group_events d' = group_events d ++ [row] →
  GroupEvent.event_id row ∉ own_events q → j ≠ i → follows d log events i l q →
  follows d' (log ++ [Entry j c t]) (events ++ [row]) i l q.
Proof.
  intros Hm Hrow Hd Hid Hj (n & k & Hown & Haw & Hseen & Hk). exists n, k. split_and!.
  - apply knows_own_app; [by eapply Forall2_length|done|]. split; [done|congruence].
  - unfold awaits in *. rewrite Hd, (count_by_other i), texts_other, !fmap_app by congruence.
    destruct (outgoing q) as [[ev t0]|]; [|done]. destruct Haw as (H1 & H2 & H3). split_and!; [done..|].
    destruct H3 as [(H3 & H4 & H5 & H6)|(H3 & H4 & H5)].
    + left. split_and!; [done..|]. intros [H|H%list_elem_of_singleton]%elem_of_app; [done|]. congruence.
    + right. split_and!; [done..|]. apply elem_of_app. by left.
  - apply seen_up_to_app; [done|rewrite <- (Forall2_length _ _ _ Hm); apply Hk|done].
  - by apply has_sent_app.
Qed.

(** The upload of a device stores its event, or has stored it before. *)
Lemma stored_follows s i l m n k ev text row w (answered : bool) :
  in_order s → ls !! i = Some l → parties s !! i = Some m → outgoing m = Some (ev, text) →
  follows_at (current (server s)) (history s) (group_log g c0 (current (server s))) i l n k m →
  sound w → c0 < event_seq (current w) →
  group_events (current w) = group_events (current (server s)) ++ [row] →
  group_log g c0 (current w) = group_log g c0 (current (server s)) ++ [row] →
  GroupEvent.event_id row = UploadedEvent.event_id ev →
  GroupEvent.ciphertext row = UploadedEvent.ciphertext ev →
  fresh_row (group_log g c0 (current (server s))) row →
  in_order (System _ (if answered then <[i := acknowledged m]> (parties s) else parties s) w
              (history s ++ [Entry i (UploadedEvent.ciphertext ev) text])).
Proof using L.
  intros (_ & Ha & Hm & Ht & Hlen & Hdis & Hfol) Hl Hp Hout (Hown & Haw & Hseen & Hk) Hw Hseq Hev Hlog Hid Hc Hrow.
  unfold awaits in Haw. rewrite Hout in Haw. destruct Haw as (Hin' & Hgrp & Haw).
  assert (Hnew : UploadedEvent.event_id ev ∉ (GroupEvent.event_id <$> group_log g c0 (current (server s)))).
  { intros (x & Hx & Hxin)%list_elem_of_fmap. destruct (proj2 Hrow x Hxin) as [_ []]. congruence. }
  destruct Haw as [(-> & Hwr & Hmsg & _)|(_ & _ & []%Hnew)].
  pose proof (Forall2_length _ _ _ Hm) as Hle. set (events := group_log g c0 (current (server s))) in *.
  assert (Hme : ∀ q, own_events q = own_events m → mark q = mark m → own_engine q = own_engine m →
    has_heard q = has_heard m → awaits (current w) (history s ++ [Entry i (UploadedEvent.ciphertext ev) text])
      (events ++ [row]) i l q (count_by i (history s) + 1) →
    follows (current w) (history s ++ [Entry i (UploadedEvent.ciphertext ev) text]) (events ++ [row]) i l q).
  { intros q H1 H2 H3 H4 H5. exists (count_by i (history s) + 1), k. split_and!; [|exact H5| |].
    - apply knows_own_app; [done| |by rewrite H1, Hid]. unfold knows_own. by rewrite H1.
    - apply seen_up_to_app; [done|rewrite <- Hle; apply Hk|]. unfold seen_up_to in *. by rewrite H2.
    - apply has_sent_app. by rewrite H3, H4. }
  unfold in_order. cbn. rewrite Hlog. fold events. split_and!; [done|done| | |by eapply told_app|..].
  - apply ascending_snoc; [done|]. intros x Hx. by apply Hrow.
  - apply Forall2_app; [done|]. constructor; [by cbn|done].
  - destruct answered; [by rewrite length_insert|done].
  - destruct answered; [|done]. eapply distinct_insert; [exact Hdis|exact Hp|]. by left.
  - assert (Hothers : ∀ j l' q, ls !! j = Some l' → parties s !! j = Some q → i ≠ j →
      follows (current w) (history s ++ [Entry i (UploadedEvent.ciphertext ev) text]) (events ++ [row]) j l' q).
    { intros j l' q Hl' Hq Hj. eapply others_follow; [done..| |done|by apply Hfol].
      rewrite Hid. intros H. by eapply Hj, Hdis. }
    intros j l' q Hl' Hq. destruct answered.
    + apply list_lookup_insert_Some in Hq as [(-> & <- & _)|[Hj Hq]]; [|by apply Hothers].
      simplify_eq. apply Hme; try done. unfold awaits. cbn.
      by rewrite count_by_self, texts_self.
    + destruct (decide (i = j)) as [<-|Hj]; [|by apply Hothers]. simplify_eq. apply Hme; try done.
      unfold awaits. rewrite Hout. split_and!; [done..|]. right.
      rewrite count_by_self, texts_self, fmap_app. split_and!; [done..|].
      apply elem_of_app. right. apply list_elem_of_singleton. by rewrite Hid.
Qed.

Lemma acknowledged_follows s i l m n k ev text w (answered : bool) :
  in_order s → ls !! i = Some l → parties s !! i = Some m → outgoing m = Some (ev, text) →
  follows_at (current (server s)) (history s) (group_log g c0 (current (server s))) i l n k m →
  sound w → c0 < event_seq (current w) → current w = current (server s) →
  UploadedEvent.event_id ev ∈ GroupEvent.event_id <$> group_events (current (server s)) →
  in_order (System _ (if answered then <[i := acknowledged m]> (parties s) else parties s) w (history s)).
Proof.
  intros (_ & Ha & Hm & Ht & Hlen & Hdis & Hfol) Hl Hp Hout (Hown & Haw & Hseen & Hk) Hw Hseq Hcur Hid.
  unfold awaits in Haw. rewrite Hout in Haw.
  destruct Haw as (Hin' & Hgrp & [(_ & _ & _ & [])|(-> & Hwr & Hst)]); [done|].
  unfold in_order. cbn. rewrite Hcur. split_and!; try done; [by rewrite <- Hcur| | |];
    destruct answered; try done.
  - by rewrite length_insert.
  - eapply distinct_insert; [exact Hdis|exact Hp|]. by left.
  - intros j l' q Hl' [(-> & <- & _)|[Hj Hq]]%list_lookup_insert_Some; [|by apply Hfol].
    simplify_eq. by exists (count_by j (history s)), k.
Qed.

Lemma send_follows s s' i now fl answered :
  in_order s → send i now fl answered s = Some s' → in_order s'.
Proof using L C U.
  intros Hs. pose proof Hs as ([Hw Hseq] & _ & _ & _ & Hlen & _ & Hfol). unfold send.
  destruct (parties s !! i) as [m|] eqn:Hp; [|done]. cbn.
  destruct (outgoing m) as [[ev text]|] eqn:Hout; [|done]. cbn.
  destruct (lookup_lt_is_Some_2 ls i) as [l Hl]; [rewrite <- Hlen; by eapply lookup_lt_Some|].
  destruct (Hfol i l m Hl Hp) as (n & k & Hf).
  assert (Hw0 : sound (with_faults fl (server s))) by exact Hw.
  destruct (upload_event _ _ _) as [[acc|e] w] eqn:Hup; intros [= <-].
  - destruct (upload_appends _ c0 _ _ _ _ Hw0 Hseq Hup) as (Hw' & Hseq' & H).
    change (current (with_faults fl (server s))) with (current (server s)) in H.
    destruct (UploadAccepted.duplicate acc).
    + destruct H as [Hcur Hid]. by eapply acknowledged_follows.
    + destruct H as (row & Hid & Hc & Hev & Hlog & H1 & Hnew).
      pose proof Hf as (_ & Haw & _). unfold awaits in Haw. rewrite Hout in Haw. destruct Haw as (_ & Hgrp & _).
      rewrite Hgrp in Hlog. eapply (stored_follows s i l m n k ev text row w answered); try done.
      split; [done|]. intros x [Hx _]%elem_of_group_log. rewrite Hid. by apply Hnew.
  - apply failed_in_order; [done|]. by eapply (upload_fails _ _ _ (with_faults fl (server s))).
Qed.

(** What others do without touching the events of the group. *)
Lemma other_follows s w :
  in_order s → steps (server s) w → group_log g c0 (current w) = group_log g c0 (current (server s)) →
  apart s w → in_order (System _ (parties s) w (history s)).
Proof.
  intros ([Hs Hseq] & Ha & Hm & Ht & Hlen & Hdis & Hfol) Hw Hl Hap. unfold in_order. cbn. rewrite Hl.
  split_and!; try done.
  - by eapply requests_sound.
  - apply Z.le_succ_l. apply (steps_keep (λ d, Z.succ c0 ≤ event_seq d) _ _ Hw). split; [apply Hs|lia].
  - intros i l m Hi Hp. destruct (Hfol i l m Hi Hp) as (n & k & Hown & Haw & Hrest). exists n, k.
    split; [exact Hown|split; [|exact Hrest]]. unfold awaits in *. destruct (outgoing m) as [[ev t]|]; [|done].
    destruct Haw as (H1 & H2 & H3). split_and!; [done..|]. destruct H3 as [(H3 & H4 & H5 & H6)|H3]; [left|by right].
    split_and!; [done..|]. intros (e & He & Hein)%list_elem_of_fmap. apply H6, list_elem_of_fmap.
    exists e. split; [done|]. eapply Hap; [done..|]. by rewrite <- He.
Qed.

Lemma step_follows s s' : in_order s → system_step (epoch_name E) g c0 s s' → in_order s'.
Proof using Hin Hnd L C U Hc0.
  intros Hs H. destruct H.
  - by eapply write_follows.
  - by eapply send_follows.
  - by eapply pull_follows.
  - by apply other_follows.
Qed.

(** Pulling as often as there are events leaves nothing unheard. *)
Lemma pulls_to_the_end a s d i l m n k now limit :
  in_order s → server s = quiet d [] → ls !! i = Some l → parties s !! i = Some m →
  follows_at d (history s) (group_log g c0 d) i l n k m → (length (history s) <= k + a)%nat →
  exists_where (active_member g (device_id m)) (group_members d) = true → unexpired g (mark m) now d →
  ∃ s' m', pulls a (epoch_name E) g i now limit s = Some s' ∧ history s' = history s
    ∧ parties s' !! i = Some m' ∧ has_heard m' = spoken i (transcript (history s)).
Proof using Hin Hnd L C U Hc0.
  revert s m k. induction a as [|a IH]; intros s m k Hs Hb Hl Hp Hf Hn Hm Hex.
  - exists s, m. split_and!; [done..|]. destruct Hf as (_ & _ & _ & _ & Hh & _). cbn in Hh.
    rewrite Hh, take_ge by lia. apply spoken_others.
  - assert (∃ page, sync_group now (device_id m) g (mark m) limit (with_faults [] (quiet d [])) = (Ok page, quiet d []))
      as [page Hsync].
    { change (with_faults [] (quiet d [])) with (quiet d []). rewrite sync_group_run, Hm. by eexists. }
    destruct (pull_succeeds s i l m n k now limit [] page (quiet d [])) as (Hs1 & _ & Hid & Hmark & j & Hf1 & Hj);
      rewrite ?Hb; try done. rewrite Hb in Hf1. cbn [current quiet] in Hf1. cbn in Hs1.
    set (m1 := foldl _ m page) in *.
    destruct (IH (System _ (<[i := m1]> (parties s)) (quiet d []) (history s)) m1 (k + j)%nat)
      as (s' & m' & Hps & Hh & Hp' & Hhe); cbn; rewrite ?Hid; try done.
    + apply list_lookup_insert_eq. by eapply lookup_lt_Some.
    + destruct (decide (k < length (history s))%nat) as [H|H]; [specialize (Hj H)|]; lia.
    + intros e He Hg Hc. apply Hex; [done..|lia].
    + exists s', m'. cbn [pulls]. unfold pull. rewrite Hp. cbn [mbind option_bind]. by rewrite Hb, Hsync.
Qed.
End Following.

(** ** The conversation over core-api *)

Section Messaging.
Context `{M : OpenMls} `{C : Crypto} `{U : Unicode} `{K : !MlsEpochs} `{L : !MlsEpochLaws K}.

(** The devices before anything is said in their epoch. *)
Definition opened (since : Z) (ids : list Id) (es : list CryptoEngine.t) (w : Backend) : system :=
  System _ (zip_with (newcomer since) ids es) w [].
(** core-api from here on serves every statement. *)
Definition healed (s : system) : system := System _ (parties s) (quiet (current (server s)) []) (history s).

Lemma opened_in_order E qs g c ids w :
  newly_gathered E qs → length ids = length qs → sound w → c < event_seq (current w) →
  group_log g c (current w) = [] →
  in_order E (fst <$> qs) g c (opened c ids (snd <$> qs) w).
Proof.
  intros [_ Hs] Hlen Hw Hc Hg. unfold in_order. cbn. rewrite Hg.
  assert (Hnew : ∀ i m, zip_with (newcomer c) ids (snd <$> qs) !! i = Some m →
    ∃ x e, m = newcomer c x e ∧ (snd <$> qs) !! i = Some e).
  { intros i m (x & e & -> & _ & He)%lookup_zip_with_Some. by exists x, e. }
  split; [done|]. split_and!; [constructor|constructor|by intros ?| | |].
  - rewrite length_zip_with, !length_fmap. lia.
  - intros i j m m' id (x & e & -> & _)%Hnew _ H%elem_of_nil. done.
  - intros i l m Hl (x & e & -> & He)%Hnew. exists 0, 0%nat.
    split; [by intros ???|]. split; [done|]. split; [by split_and!; [..|left]|].
    split_and!; cbn; [lia|done|]. exists (λ _, 0). split; [|by intros].
    apply list_lookup_fmap_Some in Hl as (q & -> & Hq), He as (q' & -> & Hq'). simplify_eq.
    rewrite Forall_forall in Hs. by eapply Hs, list_elem_of_lookup_2.
Qed.

Lemma reached_in_order E ls g c s s' :
  NoDup ls → (∀ l, l ∈ ls → l ∈ epoch_leaves E) → 0 ≤ c → in_order E ls g c s →
  rtc (system_step (epoch_name E) g c) s s' → in_order E ls g c s'.
Proof using L.
  intros Hnd Hin Hc Hs H. induction H as [|s s1 s' H _ IH]; [done|]. apply IH. by eapply step_follows.
Qed.

Lemma healed_in_order E ls g c s : in_order E ls g c s → in_order E ls g c (healed s).
Proof. intros (((_ & Hw) & Hseq) & Hrest). by split. Qed.

(** C6: the devices of a conversation hear each other over core-api.  In any epoch
    of its life, from a state of core-api that has no event of the group after
    some cursor, each device encrypts a text when its last one has been
    acknowledged, under an identifier that nothing has; it uploads it until an
    answer arrives: an upload may fail for the database, and its answer may be
    lost.  Each pulls pages from the last cursor it saw, at times when nothing
    that it has not seen has expired; a pull may fail.  In between core-api serves
    any other requests, also failing ones, as long as the events of the group stay
    as they are and no event is stored under an identifier of a device.  Then,
    whatever the order, what core-api has stored for the group is the messages
    in the order of the uploads: of each device every text that it wrote, once
    and in its order, but for a last one that is not acknowledged.  What each has
    heard is without error a prefix of what the others said, and it can go on
    encrypting.  While the database serves every statement, an active member, none of whose
    unseen events has expired, hears the rest by pulling as often as there are events,
    whatever the page size. *)
Theorem conversation_over_core_api chat g c ids es w s :
  lives chat es → length ids = length es → sound w →
  0 ≤ c < event_seq (current w) → group_log g c (current w) = [] →
  rtc (system_step chat g c) (opened c ids es w) s →
  GroupEvent.ciphertext <$> group_log g c (current (server s)) = ciphertext <$> history s
  ∧ ∀ i m, parties s !! i = Some m →
      has_heard m `prefix_of` spoken i (transcript (history s))
      ∧ (written m = texts i (history s)
         ∨ ∃ ev text, outgoing m = Some (ev, text) ∧ written m = texts i (history s) ++ [text])
      ∧ (∀ text, ∃ b e, encrypt_application_message chat text (own_engine m) = (Ok b, e))
      ∧ ∀ now limit,
          exists_where (active_member g (device_id m)) (group_members (current (server s))) = true →
          unexpired g (mark m) now (current (server s)) →
          ∃ s' m', pulls (length (history s)) chat g i now limit (healed s) = Some s'
            ∧ parties s' !! i = Some m' ∧ has_heard m' = spoken i (transcript (history s)).
Proof using L.
  intros (E & qs & <- & <- & Hg)%lives_gathered Hids Hw [Hc0 Hc] Hlog Hsteps. rewrite length_fmap in Hids.
  assert (Hnd : NoDup (fst <$> qs)) by apply Hg.
  assert (Hin : ∀ l, l ∈ fst <$> qs → l ∈ epoch_leaves E).
  { intros l (x & -> & Hx)%list_elem_of_fmap. apply (gathered_leaves E qs); [by apply newly_gathered_gathered|done]. }
  assert (Hs : in_order E (fst <$> qs) g c s).
  { eapply reached_in_order; [done..| |exact Hsteps]. by apply opened_in_order. }
  pose proof Hs as (_ & _ & Hm & _ & Hlen & _ & Hfol). split.
  { clear -Hm. induction Hm as [|x e log events Hx _ IH]; [done|]. cbn. by rewrite Hx, IH. }
  intros i m Hp. destruct (lookup_lt_is_Some_2 (fst <$> qs) i) as [l Hl]; [rewrite <- Hlen; by eapply lookup_lt_Some|].
  destruct (Hfol i l m Hl Hp) as (n & k & Hown & Haw & Hseen & Hk). split_and!.
  - destruct Hk as (_ & Hh & _). cbn [heard cursor] in Hh. rewrite Hh, spoken_others. apply spoken_take.
  - unfold awaits in Haw. destruct (outgoing m) as [[ev t]|]; [|by left; apply Haw].
    destruct Haw as (_ & _ & [(_ & Hwr & _)|(_ & Hwr & _)]); [right; by exists ev, t|by left].
  - intros text. destruct (encrypt_sends E _ _ _ i l _ text Hk) as (b & e & He & _). by exists b, e.
  - intros now limit Hact Hex.
    destruct (pulls_to_the_end E (fst <$> qs) Hnd Hin g c Hc0 (length (history s)) (healed s) (current (server s)) i l m n k now limit)
      as (s' & m' & H1 & _ & H2 & H3); [by apply healed_in_order|done..|cbn; lia|done|done|].
    by exists s', m'.
Qed.
End Messaging.

(** ** A concrete conversation over core-api *)

Section Witnesses.
Import Demo.

(** The administrator writes twice.  The answer to its first upload is lost; the
    other device pulls; the upload is repeated.  The second upload fails and is
    repeated. *)
Definition ids : list Id := [admin_device; other_device; fill 16 3].
Definition opening : system := opened 0 ids three backend.
Definition next (f : system → option system) (s : system) : system := default opening (f s).
Definition first_write := write chat group 0 (lit "one") (fill 16 101) (fill 16 201) 1.
Definition first_pull := pull chat group 1 20 1 [].
Definition second_write := write chat group 0 (lit "two") (fill 16 102) (fill 16 202) 1.
Definition written_one : system := next first_write opening.
Definition lost_one : system := next (send 0 10 [] false) written_one.
Definition pulled_one : system := next first_pull lost_one.
Definition sent_one : system := next (send 0 21 [] true) pulled_one.
Definition written_two : system := next second_write sent_one.
Definition failed_two : system := next (send 0 30 [true] true) written_two.
Definition sent_two : system := next (send 0 31 [] true) failed_two.

Lemma next_eq f s :
  match f s with Some _ => true | None => false end = true → f s = Some (next f s).
Proof. unfold next. by destruct (f s). Qed.
Lemma unexpired_check g after now d :
  forallb (λ e, (GroupEvent.event_cursor e <=? after) || (now <? GroupEvent.expires_at e)) (group_events d) = true →
  unexpired g after now d.
Proof.
  rewrite forallb_forall. intros H e He%list_elem_of_In%H _ Hc. apply orb_true_iff in He as [He|He]; lia.
Qed.
Lemma unused_check i s :
  forallb (λ e, negb (bool_decide (GroupEvent.event_id e = i))) (group_events (current (server s)))
    && forallb (λ m, negb (bool_decide (i ∈ own_events m))) (parties s) = true → unused i s.
Proof.
  intros [H1 H2]%andb_true_iff. rewrite forallb_forall in H1, H2. split.
  - intros (e & -> & He%list_elem_of_In%H1)%list_elem_of_fmap. by rewrite bool_decide_eq_true_2 in He.
  - intros j m Hm%list_elem_of_lookup_2%list_elem_of_In%H2 Hi. by rewrite bool_decide_eq_true_2 in Hm.
Qed.

Lemma first_write_eq : first_write opening = Some written_one.
Proof. apply next_eq. vm_compute. reflexivity. Qed.
Lemma lost_one_eq : send 0 10 [] false written_one = Some lost_one.
Proof. apply (next_eq (send 0 10 [] false)). vm_compute. reflexivity. Qed.
Lemma first_pull_eq : first_pull lost_one = Some pulled_one.
Proof. apply next_eq. vm_compute. reflexivity. Qed.
Lemma sent_one_eq : send 0 21 [] true pulled_one = Some sent_one.
Proof. apply (next_eq (send 0 21 [] true)). vm_compute. reflexivity. Qed.
Lemma second_write_eq : second_write sent_one = Some written_two.
Proof. apply next_eq. vm_compute. reflexivity. Qed.
Lemma failed_two_eq : send 0 30 [true] true written_two = Some failed_two.
Proof. apply (next_eq (send 0 30 [true] true)). vm_compute. reflexivity. Qed.
Lemma sent_two_eq : send 0 31 [] true failed_two = Some sent_two.
Proof. apply (next_eq (send 0 31 [] true)). vm_compute. reflexivity. Qed.

Lemma first_unused : unused (fill 16 101) opening.
Proof. apply unused_check. vm_compute. reflexivity. Qed.
Lemma second_unused : unused (fill 16 102) sent_one.
Proof. apply unused_check. vm_compute. reflexivity. Qed.
(** The marks of the second device before it pulls and at the end. *)
Lemma second_unread : ∃ m, parties lost_one !! 1%nat = Some m ∧ 0 = mark m.
Proof. apply fmap_Some_1. vm_compute. reflexivity. Qed.
Lemma second_halfway : ∃ m, parties sent_two !! 1%nat = Some m ∧ (1, other_device) = (mark m, device_id m).
Proof. apply (fmap_Some_1 (λ m, (mark m, device_id m))). vm_compute. reflexivity. Qed.
Lemma lost_unexpired : unexpired group 0 20 (current (server lost_one)).
Proof. apply unexpired_check. vm_compute. reflexivity. Qed.
Lemma sent_two_unexpired : unexpired group 1 40 (current (server sent_two)).
Proof. apply unexpired_check. vm_compute. reflexivity. Qed.
Lemma still_member :
  exists_where (active_member group other_device) (group_members (current (server sent_two))) = true.
Proof. vm_compute. reflexivity. Qed.
Lemma all_said_to_second :
  spoken 1 (transcript (history sent_two))
  = [Ok (IncomingMessage.Application (lit "one")); Ok (IncomingMessage.Application (lit "two"))].
Proof. vm_compute. reflexivity. Qed.
Lemma said_twice : length (history sent_two) = 2%nat.
Proof. vm_compute. reflexivity. Qed.
Lemma opening_range : 0 ≤ 0 < event_seq (current Demo.backend).
Proof. vm_compute. split; congruence. Qed.

Lemma sent_two_reached : rtc (system_step chat group 0) opening sent_two.
Proof.
  eapply rtc_l; [exact (step_write _ _ _ _ _ _ _ _ _ _ first_unused first_write_eq)|].
  eapply rtc_l; [exact (step_send _ _ _ _ _ _ _ _ _ lost_one_eq)|].
  eapply rtc_l.
  { destruct second_unread as (m & Hm & Hmark).
    refine (step_pull _ _ _ _ _ _ _ _ _ m Hm _ first_pull_eq). rewrite <- Hmark. exact lost_unexpired. }
  eapply rtc_l; [exact (step_send _ _ _ _ _ _ _ _ _ sent_one_eq)|].
  eapply rtc_l; [exact (step_write _ _ _ _ _ _ _ _ _ _ second_unused second_write_eq)|].
  eapply rtc_l; [exact (step_send _ _ _ _ _ _ _ _ _ failed_two_eq)|].
  apply rtc_once. exact (step_send _ _ _ _ _ _ _ _ _ sent_two_eq).
Qed.

Lemma conversation_over_core_api_witness :
  ∃ s m, pulls 2 chat group 1 40 50 (healed sent_two) = Some s
    ∧ parties s !! 1%nat = Some m
    ∧ has_heard m = [Ok (IncomingMessage.Application (lit "one")); Ok (IncomingMessage.Application (lit "two"))].
Proof.
  destruct (conversation_over_core_api chat group 0 ids three Demo.backend sent_two
    three_live eq_refl backend_sound opening_range eq_refl sent_two_reached) as [_ H].
  destruct second_halfway as (m & Hm & [= Hmark Hid]). destruct (H 1%nat m Hm) as (_ & _ & _ & Hp).
  rewrite <- Hmark, <- Hid, said_twice in Hp.
  destruct (Hp 40 50 still_member sent_two_unexpired) as (s & m' & Hs & Hm' & Hh).
  exists s, m'. split; [exact Hs|]. split; [exact Hm'|]. rewrite Hh. exact all_said_to_second.
Defined.
End Witnesses.
