(* ===== verification/Ffi.v ===== *)
(** * Ffi: the Swift and Kotlin API of messenger-uniffi

    Models crates/messenger-uniffi/src/lib.rs: the conversions of byte vectors
    to fixed-width values, [LocalMessenger] over the store of LocalStore and
    [MlsDevice] over the engine of Mls behind its mutex.  What the operations
    draw from the clock and the random generator is in [Draws].  At the end,
    several devices: what applications get that found a conversation, add to it
    and talk in it through [MlsDevice]. *)
From Stdlib Require Import ZArith Lia.
From stdpp Require Import base gmap list strings relations.
From S2P Require Import Prelude Protocol Crypto Sql LocalDb LocalStore Identity Mls ReferenceMls Conversation.

Module FfiError.
Inductive t := InvalidInput | Crypto | Storage.
#[export] Instance t_eq_dec : EqDecision t.
Proof. solve_decision. Defined.
End FfiError.

Module FfiMemberCredential.
Record t := Make { device_id : bytes; account_id : bytes; certificate_fingerprint : bytes }.
End FfiMemberCredential.
Module FfiDeviceCertificate.
Record t := Make {
  device_id : bytes; device_public_key : bytes; issued_at : Z; signature : bytes
}.
End FfiDeviceCertificate.
Module FfiNetworkMode.
Inductive t := Normal | Limited | Survival.
End FfiNetworkMode.
Module FfiLocalMessage.
Record t := Make {
  client_message_id : bytes; conversation_id : bytes; plaintext : str; status : string;
  created_at_ms : Z
}.
End FfiLocalMessage.
Module FfiPendingUpload.
Record t := Make {
  client_message_id : bytes; conversation_id : bytes; encrypted_payload : bytes; attempts : Z
}.
End FfiPendingUpload.
Module FfiNetworkDiagnostics.
Record t := Make { mode : FfiNetworkMode.t; pending_uploads : Z; last_cursor : Z }.
End FfiNetworkDiagnostics.
Module FfiConversation.
Record t := Make { conversation_id : bytes; updated_at_ms : Z }.
End FfiConversation.
Module FfiIncomingEvent.
Record t := Make { event_id : bytes; conversation_id : bytes; encrypted_event : bytes }.
End FfiIncomingEvent.

(** ** Conversions *)

(** [value.try_into().map_err(|_| FfiError::InvalidInput)] *)
Definition fixed (n : nat) (value : bytes) : result FfiError.t (array n) :=
  ok_or (try_array n value) FfiError.InvalidInput.
Definition storage_error {A} (r : result CoreError.t A) : result FfiError.t A :=
  map_err (λ _, FfiError.Storage) r.
Definition crypto_error {A} (r : result CryptoError.t A) : result FfiError.t A :=
  map_err (λ _, FfiError.Crypto) r.

Definition protocol_round_trip (frame : bytes) : result FfiError.t bytes :=
  decoded ← map_err (λ _, FfiError.InvalidInput) (TransportFrame.decode frame);
  map_err (λ _, FfiError.InvalidInput) (TransportFrame.encode decoded).

Definition try_from_member (value : FfiMemberCredential.t) : result FfiError.t MemberCredential.t :=
  device_id ← fixed 16 (FfiMemberCredential.device_id value);
  account_id ← fixed 32 (FfiMemberCredential.account_id value);
  certificate_fingerprint ← fixed 16 (FfiMemberCredential.certificate_fingerprint value);
  Ok (MemberCredential.Make device_id account_id certificate_fingerprint).



(** ** LocalMessenger *)


Module LocalMessenger.
(** [LocalMessenger] has the core as its only field. *)
Definition method (A : Type) : Type := MessengerCore.t → result FfiError.t A * MessengerCore.t.
#[export] Instance method_ret : MRet method := λ A a c, (Ok a, c).

Definition open_ (fl : list bool) (stored : Db.t) (master_key : bytes)
    : result FfiError.t MessengerCore.t * Db.t :=
  let '(r, stored) := LocalStore.open_ fl stored master_key in (storage_error r, stored).

Section Methods.
Context `{C : Crypto}.














End Methods.
End LocalMessenger.

(** ** MlsDevice *)

Module MlsDevice.
Record t `{M : OpenMls} : Type := Make { poisoned : bool; engine : CryptoEngine.t }.

Section Methods.
Context `{M : OpenMls} `{C : Crypto}.

(** A call may convert its arguments, before or after it takes the lock. *)
Definition method (A : Type) : Type := MlsDevice.t → result FfiError.t A * MlsDevice.t.

(** [self.engine.lock().map_err(|_| Crypto)?] and an operation of the engine. *)
Definition locked {A} (f : engine_op A) : method A := λ d,
  if poisoned d then (Err FfiError.Crypto, d)
  else let '(r, e) := f (engine d) in (crypto_error r, Make _ (poisoned d) e).
Definition converted {A B} (r : result FfiError.t A) (k : A → method B) : method B := λ d,
  match r with Ok a => k a d | Err e => (Err e, d) end.
(** The lock is taken before the argument is converted. *)
Definition locked_converted {A B} (r : result FfiError.t A) (k : A → method B) : method B := λ d,
  if poisoned d then (Err FfiError.Crypto, d) else converted r k d.
Definition mapped {A B} (f : A → B) (m : method A) : method B := λ d,
  let '(r, d) := m d in (f <$> r, d).
(** A reading operation of the engine. *)
Definition reading {A} (f : CryptoEngine.t → result CryptoError.t A) : engine_op A := λ e, (f e, e).

Definition initialize_crypto_store (r : Rng) (member : FfiMemberCredential.t) (state_key : bytes)
    : result FfiError.t MlsDevice.t :=
  state_key ← fixed 32 state_key;
  member ← try_from_member member;
  engine ← crypto_error (Mls.initialize_crypto_store r member state_key);
  Ok (Make _ false engine).

Definition generate_key_packages (count : Z) : method (list bytes) :=
  locked (Mls.generate_key_packages count).
Definition export_public_key_packages (count : Z) : method (list bytes) :=
  locked (Mls.export_public_key_packages count).
Definition create_conversation (group_id : bytes) : method unit :=
  locked (Mls.create_conversation group_id).

(** [vec![change.commit, change.welcome.unwrap_or_default()]] *)
Definition change_bytes (change : GroupChange.t) : list bytes :=
  [GroupChange.commit change; default [] (GroupChange.welcome change)].
Definition commit_add_member (group_id key_package : bytes) : method (list bytes) :=
  mapped change_bytes (locked (Mls.commit_add_members group_id [key_package])).
Definition propose_add_member (group_id key_package : bytes) : method bytes :=
  locked (Mls.propose_add_members group_id key_package).
Definition commit_remove_member (group_id : bytes) (member : FfiMemberCredential.t)
    : method (list bytes) :=
  mapped change_bytes (locked_converted (try_from_member member)
    (λ member, locked (Mls.commit_remove_members group_id member))).
Definition propose_remove_member (group_id : bytes) (member : FfiMemberCredential.t) : method bytes :=
  locked_converted (try_from_member member)
    (λ member, locked (Mls.propose_remove_members group_id member)).
Definition join_conversation_from_welcome (welcome : bytes) : method bytes :=
  locked (Mls.join_conversation_from_welcome welcome).
Definition encrypt_application_message (group_id plaintext : bytes) : method bytes :=
  locked (Mls.encrypt_application_message group_id plaintext).

(** Only the bytes of an application message cross. *)
Definition incoming_bytes (m : IncomingMessage.t) : bytes :=
  match m with IncomingMessage.Application value => value | _ => [] end.
Definition process_incoming_message (group_id ciphertext : bytes) : method bytes :=
  mapped incoming_bytes (locked (Mls.process_incoming_message group_id ciphertext)).

Definition export_conversation_state (nonce : array 24)
    (enumeration : storage → list (bytes * bytes)) (group_id : bytes) : method bytes :=
  locked (reading (Mls.export_conversation_state nonce enumeration group_id)).
Definition import_conversation_state (snapshot : bytes) : method bytes :=
  locked (Mls.import_conversation_state snapshot).
Definition get_conversation_epoch (group_id : bytes) : method Z :=
  locked (reading (Mls.get_conversation_epoch group_id)).
Definition self_update (group_id : bytes) : method bytes := locked (Mls.self_update group_id).

Definition convert_certificate (c : FfiDeviceCertificate.t) : result FfiError.t DeviceCertificate.t :=
  device_id ← fixed 16 (FfiDeviceCertificate.device_id c);
  device_public_key ← fixed 32 (FfiDeviceCertificate.device_public_key c);
  signature ← fixed 64 (FfiDeviceCertificate.signature c);
  Ok (DeviceCertificate.Make device_id device_public_key (FfiDeviceCertificate.issued_at c) signature).
Definition ffi_member (m : MemberCredential.t) : FfiMemberCredential.t :=
  FfiMemberCredential.Make (arr (MemberCredential.device_id m)) (arr (MemberCredential.account_id m))
    (arr (MemberCredential.certificate_fingerprint m)).
Definition verify_member_credential (encoded root_public_key : bytes)
    (certificate : FfiDeviceCertificate.t) : method FfiMemberCredential.t :=
  converted (root ← fixed 32 root_public_key; c ← convert_certificate certificate; Ok (root, c))
    (λ x, mapped ffi_member (locked (reading (λ _,
       Mls.verify_member_credential encoded (fst x) (snd x))))).

Definition destroy_local_conversation_state (group_id : bytes) : method unit :=
  locked (Mls.destroy_local_conversation_state group_id).
End Methods.
End MlsDevice.

(** ** Frames pass through unchanged *)

(** [protocol_round_trip] is the identity on the frames and refuses
    everything else as invalid input. *)
Theorem protocol_round_trip_identity frame :
  protocol_round_trip frame
  = if is_ok (TransportFrame.decode frame) then Ok frame else Err FfiError.InvalidInput.
Proof.
  unfold protocol_round_trip. destruct (TransportFrame.decode frame) as [f|e] eqn:E; [|done].
  apply frame_decode_Ok in E as (Hl & c & (-> & _ & Ht)%frame_canonical_body).
  cbn. by rewrite (proj2 (frame_encode_Ok f (frame_bytes f))) by (by destruct Ht).
Qed.

(** ** Calls of LocalMessenger *)

Module LocalCall.
Inductive t :=
| CreateMessage (conversation_id : bytes) (plaintext : str)
| ListMessages (conversation_id : bytes)
| ListConversations
| Observe (after_revision : Z)
| CreateGroup (group_id : bytes)
| AddMember (group_id device_id account_id : bytes)
| RemoveMember (group_id device_id : bytes)
| PendingUploads
| Accepted (message_id : bytes)
| Retry (message_id : bytes)
| Cancel (message_id : bytes)
| Ingest (event_id conversation_id ciphertext : bytes)
| IngestBatch (events : list FfiIncomingEvent.t)
| Delivered (message_id : bytes)
| WasRead (message_id : bytes)
| Block (account_id : bytes)
| Unblock (account_id : bytes)
| SetMode (mode : FfiNetworkMode.t)
| Diagnostics
| CacheRelay (version : Z) (signed_directory : bytes) (expires_at_ms : Z)
| Rotate (new_key : bytes) (new_version : Z)
| Wipe.

End LocalCall.

Section LocalCalls.
Context `{C : Crypto}.
Import LocalMessenger MessengerCore.









End LocalCalls.

(** ** Calls of MlsDevice *)

(** A device as an application uses it: how far it has read the log of the group,
    and what [process_incoming_message] answered. *)
Record user `{M : OpenMls} : Type := User {
  handset : MlsDevice.t;
  place : nat;
  inbox : list (result FfiError.t bytes)
}.

Section DeviceCalls.
Context `{M : OpenMls} `{C : Crypto}.
Import MlsDevice.

(** One device founds a conversation; any device in it may add another one, with
    one key package that this device generated: the others process the first
    answer of [commit_add_member], and the new device joins by the second. *)
Inductive assembled (chat : bytes) : list MlsDevice.t → Prop :=
| assembled_founded d d' :
    poisoned d = false → create_conversation chat d = (Ok tt, d') → assembled chat [d']
| assembled_added d ds d' x x' k commit welcome :
    assembled chat (d :: ds) → poisoned x = false → generate_key_packages 1 x = (Ok [k], x') →
    commit_add_member chat k d = (Ok [commit; welcome], d') →
    assembled chat (d' :: (snd ∘ process_incoming_message chat commit <$> ds)
                    ++ [(join_conversation_from_welcome welcome x').2])
| assembled_order ds es : assembled chat ds → ds ≡ₚ es → assembled chat es.

(** The applications send what they encrypt to a log that all read. *)
Definition read_mail (chat : bytes) (i : nat) (x : nat * bytes) (u : user) : user :=
  if Nat.eqb x.1 i then User _ (handset u) (S (place u)) (inbox u)
  else
    let '(r, d) := process_incoming_message chat x.2 (handset u) in
    User _ d (S (place u)) (inbox u ++ [r]).
Definition use (chat : bytes) (a : action) (w : list user * list (nat * bytes))
    : option (list user * list (nat * bytes)) :=
  let '(us, log) := w in
  u ← us !! who a;
  match a with
  | Say i t =>
      match encrypt_application_message chat t (handset u) with
      | (Ok c, d) => Some (<[i := User _ d (place u) (inbox u)]> us, log ++ [(i, c)])
      | (Err _, _) => None
      end
  | Read i =>
      match log !! place u with
      | Some x => Some (<[i := read_mail chat i x u]> us, log)
      | None => Some (us, log)
      end
  end.
Fixpoint use_all (chat : bytes) (l : list action) (w : list user * list (nat * bytes))
    : option (list user * list (nat * bytes)) :=
  match l with
  | [] => Some w
  | a :: l => w ← use chat a w; use_all chat l w
  end.
Definition unopened (ds : list MlsDevice.t) : list user * list (nat * bytes) :=
  ((λ d, User _ d 0 []) <$> ds, []).
(** What the others said, as a device should be given it. *)
Definition letters (i : nat) (l : list (nat * bytes)) : list (result FfiError.t bytes) :=
  (λ x, Ok x.2) <$> List.filter (λ x, negb (Nat.eqb x.1 i)) l.

(** *** A device whose lock is not poisoned is its engine *)

Definition intact (e : CryptoEngine.t) : MlsDevice.t := Make _ false e.
Definition answer (r : result CryptoError.t IncomingMessage.t) : result FfiError.t bytes :=
  incoming_bytes <$> crypto_error r.
Definition shown (p : party) : user := User _ (intact (Conversation.engine p)) (cursor p) (answer <$> heard p).
Definition sent (x : entry) : nat * bytes := (author x, ciphertext x).

Lemma intact_eq d : poisoned d = false → d = intact (engine d).
Proof. by destruct d as [[] e]. Qed.
Lemma locked_intact {A} (f : engine_op A) e :
  locked f (intact e) = (crypto_error (f e).1, intact (f e).2).
Proof. unfold locked. cbn. by destruct (f e). Qed.
Lemma process_intact chat c e :
  process_incoming_message chat c (intact e)
  = (answer (Mls.process_incoming_message chat c e).1, intact (Mls.process_incoming_message chat c e).2).
Proof. unfold process_incoming_message, mapped. by rewrite locked_intact. Qed.
Lemma crypto_Ok {A} (r : result CryptoError.t A) a : crypto_error r = Ok a → r = Ok a.
Proof. by destruct r; cbn; intros [= <-]. Qed.

Lemma read_shown chat i x p : read_mail chat i (sent x) (shown p) = shown (read_entry chat i x p).
Proof.
  unfold read_mail, read_entry, by_party. cbn [sent fst snd shown handset].
  destruct (Nat.eqb _ _); [done|]. rewrite process_intact.
  destruct (Mls.process_incoming_message _ _ _) as [r e]. unfold shown. cbn. by rewrite fmap_app.
Qed.
Lemma use_shown chat a ps log w :
  act chat a (ps, log) = Some w →
  use chat a (shown <$> ps, sent <$> log) = Some (shown <$> w.1, sent <$> w.2).
Proof.
  unfold act, use. rewrite list_lookup_fmap. destruct (ps !! who a) as [p|]; [|done]. cbn [fmap option_fmap option_map mbind option_bind].
  destruct a as [i t|i].
  - unfold encrypt_application_message. cbn [shown handset]. rewrite locked_intact.
    destruct (Mls.encrypt_application_message _ _ _) as [[c|x] e]; [|done]. intros [= <-]. cbn.
    by rewrite list_fmap_insert, fmap_app.
  - rewrite list_lookup_fmap. cbn [shown place]. destruct (log !! cursor p) as [x|]; intros [= <-]; [|done].
    cbn [fmap option_fmap option_map fst snd]. by rewrite list_fmap_insert, <- read_shown.
Qed.
Lemma use_all_shown chat l ps log qs log' :
  converse chat l (ps, log) = Some (qs, log') →
  use_all chat l (shown <$> ps, sent <$> log) = Some (shown <$> qs, sent <$> log').
Proof.
  revert ps log. induction l as [|a l IH]; intros ps log; cbn [converse use_all]; [by intros [= <- <-]|].
  destruct (act chat a (ps, log)) as [[ps1 log1]|] eqn:Ha; [|done]. cbn [mbind option_bind].
  rewrite (use_shown _ _ _ _ _ Ha). apply IH.
Qed.
Lemma unopened_shown es : unopened (intact <$> es) = (shown <$> (start es).1, sent <$> (start es).2).
Proof. unfold unopened, start. cbn. by rewrite <- !list_fmap_compose. Qed.
Lemma answers_spoken i l : answer <$> spoken i l = letters i l.
Proof. unfold spoken, letters. rewrite <- list_fmap_compose. by apply list_fmap_ext. Qed.

(** An application cannot tell what it received.  The empty answer of
    [process_incoming_message] stands for a commit that was applied, a proposal
    that was queued and an application message without content alike. *)
Theorem process_answer_ambiguous group_id ciphertext d d' :
  poisoned d = false →
  process_incoming_message group_id ciphertext d = (Ok [], d') ↔
  ∃ m e, Mls.process_incoming_message group_id ciphertext (engine d) = (Ok m, e) ∧ d' = Make _ false e
    ∧ (m = IncomingMessage.Application [] ∨ m = IncomingMessage.CommitApplied
       ∨ m = IncomingMessage.ProposalQueued).
Proof.
  intros Hp. unfold process_incoming_message, mapped, locked. rewrite Hp.
  destruct (Mls.process_incoming_message _ _ _) as [[m|x] e]; cbn.
  - split.
    + intros [= Hm <-]. exists m, e. destruct m; cbn in Hm; subst; auto.
    + intros (m' & e' & [= <- <-] & -> & [->|[->| ->]]); done.
  - split; [done|]. by intros (m & e' & [=] & _).
Qed.

(** *** Devices that meet *)
Context `{K : !MlsEpochs} `{L : !MlsEpochLaws K}.

(** The devices are in one epoch that has just begun. *)
Definition met (chat : bytes) (ds : list MlsDevice.t) : Prop :=
  ∃ E qs, epoch_name E = chat ∧ newly_gathered E qs ∧ ds = intact <$> (snd <$> qs).

Lemma generated_prepared x k x' :
  poisoned x = false → generate_key_packages 1 x = (Ok [k], x') →
  ∃ p, x' = intact (engine x') ∧ prepared [engine x'] [k] [p].
Proof using L.
  intros Hx. rewrite (intact_eq x Hx). unfold generate_key_packages. rewrite locked_intact.
  intros [= Hr%crypto_Ok <-]. unfold Mls.generate_key_packages in Hr.
  destruct (build_key_packages _ _) as [r e] eqn:E. cbn in Hr. subst r.
  destruct (generated_held _ _ _ _ E) as [_ [(p & Hk & Hp) _]%Forall_cons].
  exists p. split; [done|]. unfold Mls.generate_key_packages. rewrite E. split; [by repeat constructor|].
  split; [done|]. intros [|i] [|j] d q; try done. by intros [= <-] [= <-].
Qed.

Lemma met_added chat d ds x x' k l d' :
  met chat (d :: ds) → poisoned x = false → generate_key_packages 1 x = (Ok [k], x') →
  commit_add_member chat k d = (Ok l, d') →
  ∃ commit welcome, l = [commit; welcome]
    ∧ Forall (λ y, (process_incoming_message chat commit y).1 = Ok []) ds
    ∧ (join_conversation_from_welcome welcome x').1 = Ok chat
    ∧ met chat (d' :: (snd ∘ process_incoming_message chat commit <$> ds)
                ++ [(join_conversation_from_welcome welcome x').2]).
Proof using L.
  intros (E & qs & <- & Hg & Hds) Hx (p & Hx' & Hp)%generated_prepared Hadd; [|done].
  destruct qs as [|[la a] qs]; [done|]. injection Hds as -> ->. cbn [snd] in Hadd.
  unfold commit_add_member, mapped in Hadd. rewrite locked_intact in Hadd.
  destruct (commit_add_members _ _ a) as [r a'] eqn:Hcom. destruct r as [ch|]; [|done].
  cbn in Hadd. injection Hadd as <- <-.
  destruct (additions_gather E la a a' qs [engine x'] [k] [p] ch (newly_gathered_gathered _ _ Hg) Hp Hcom)
    as (E' & w & js & Hw & Hap & Hjoin & Hn & _ & Hlen & Hg').
  rewrite Forall_singleton in Hjoin. destruct js as [|j [|]]; try done.
  assert (Hj : join_conversation_from_welcome w x' = (Ok (epoch_name E), intact (after_welcome w (engine x')))).
  { rewrite Hx'. unfold join_conversation_from_welcome. rewrite locked_intact. cbn [engine intact].
    unfold after_welcome. by rewrite Hjoin. }
  exists (GroupChange.commit ch), w. split; [unfold change_bytes; by rewrite Hw|].
  rewrite Hj. split_and!; [|done|].
  - apply Forall_fmap, Forall_fmap. eapply Forall_impl; [exact Hap|]. intros q Hq. cbn.
    rewrite process_intact. unfold applies in Hq. by rewrite Hq.
  - exists E', ((la, a') :: (after_event (epoch_name E) (GroupChange.commit ch) <$> qs)
                ++ zip [j] (after_welcome w <$> [engine x'])).
    split; [done|]. split; [exact Hg'|]. cbn [fmap list_fmap snd]. rewrite !fmap_app. cbn. f_equal. f_equal.
    rewrite <- !list_fmap_compose. apply list_fmap_ext. intros n q _. cbn. by rewrite process_intact.
Qed.

Lemma assembled_met chat ds : assembled chat ds → met chat ds.
Proof using L.
  induction 1 as [d d' Hd Hnew|d ds d' x x' k commit welcome _ IH Hx Hk Hadd|ds es _ (E & qs & Hn & [Hnd Hg] & ->) Hp].
  - rewrite (intact_eq d Hd) in Hnew. unfold create_conversation in Hnew. rewrite locked_intact in Hnew.
    destruct (Mls.create_conversation chat (engine d)) as [r e] eqn:E. injection Hnew as Hr <-.
    apply crypto_Ok in Hr. cbn in Hr. subst r. apply create_conversation_seat in E as (E & l & Hn & Hl).
    exists E, [(l, e)]. split_and!; [done| |done]. split; [apply NoDup_singleton|]. by constructor.
  - destruct (met_added chat d ds x x' k _ d' IH Hx Hk Hadd) as (c & w & [= <- <-] & _ & _ & H). exact H.
  - rewrite <- list_fmap_compose in Hp. symmetry in Hp. apply Permutation_map_inv in Hp as (rs & -> & Hp).
    exists E, rs. split_and!; [done| |by rewrite <- list_fmap_compose]. split; by rewrite <- Hp.
Qed.

(** C39: Devices that applications put together hear each other.  One founds a
    conversation, and before anything is said any of them adds others, one by one,
    with the calls of MlsDevice.  Then [commit_add_member] answers a commit and a
    welcome in this order: every other device that is given the commit answers the
    empty vector, and the new device that is given the welcome answers the
    identifier of the conversation.  And when all have joined, whatever they
    encrypt in turn and whenever each of them is given the log: no call fails, each
    was answered a prefix of the texts that the others encrypted, byte for byte and
    in the order of the log, and one that reads on is answered all of them. *)
Theorem devices_meet chat ds :
  assembled chat ds →
  (∀ d rest x k x' l d',
      ds = d :: rest → poisoned x = false → generate_key_packages 1 x = (Ok [k], x') →
      commit_add_member chat k d = (Ok l, d') →
      ∃ commit welcome, l = [commit; welcome]
        ∧ Forall (λ y, (process_incoming_message chat commit y).1 = Ok []) rest
        ∧ (join_conversation_from_welcome welcome x').1 = Ok chat)
  ∧ ∀ acts, Forall (λ a, (who a < length ds)%nat) acts →
      (∃ us log, use_all chat acts (unopened ds) = Some (us, log)
        ∧ ∀ i u, us !! i = Some u → inbox u `prefix_of` letters i (all_said acts))
      ∧ ∀ i, (i < length ds)%nat → ∃ us log u,
          use_all chat (acts ++ replicate (length (all_said acts)) (Read i)) (unopened ds) = Some (us, log)
          ∧ us !! i = Some u ∧ inbox u = letters i (all_said acts).
Proof using L.
  intros H%assembled_met. split.
  { intros d rest x k x' l d' -> Hx Hk Hadd.
    destruct (met_added chat d rest x x' k l d' H Hx Hk Hadd) as (c & w & H1 & H2 & H3 & _). by exists c, w. }
  destruct H as (E & qs & <- & Hg & ->). intros acts Hacts. rewrite !length_fmap in *.
  destruct (everyone_hears E qs Hg acts) as [(ps & log & Hc & _ & Hh) Hall]; [by rewrite length_fmap|].
  rewrite unopened_shown. split.
  - exists (shown <$> ps), (sent <$> log). split; [by apply use_all_shown|].
    intros i u (p & -> & Hp)%list_lookup_fmap_Some. cbn. rewrite <- answers_spoken.
    destruct (Hh i p Hp) as [rest ->]. rewrite fmap_app. by eexists.
  - intros i Hi. destruct (Hall i) as (ps' & log' & p & Hc' & Hp & Hheard); [by rewrite length_fmap|].
    exists (shown <$> ps'), (sent <$> log'), (shown p). split; [by apply use_all_shown|].
    split; [by rewrite list_lookup_fmap, Hp|]. cbn. by rewrite Hheard, answers_spoken.
Qed.
End DeviceCalls.

(** *** Witnesses *)

Section Witnesses.
Import Mls.Toy.

Definition device : MlsDevice.t (M := openmls) := MlsDevice.Make _ false talking.

(** A commit from the group, after which the answer is empty. *)
Lemma process_answer_ambiguous_witness :
  fst (MlsDevice.process_incoming_message alice [z2b 3] device) = Ok [].
Proof.
  set (p := Mls.process_incoming_message alice [z2b 3] talking).
  assert (Hp : p = (Ok IncomingMessage.CommitApplied, p.2)).
  { apply pair_fst. vm_compute. reflexivity. }
  pose proof (proj2 (process_answer_ambiguous alice [z2b 3] device (MlsDevice.Make _ false p.2) eq_refl)) as H.
  rewrite H; [reflexivity|]. exists IncomingMessage.CommitApplied, p.2.
  split; [exact Hp|]. split; [reflexivity|]. right. left. reflexivity.
Defined.
End Witnesses.

(** Three devices over the reference OpenMLS: the first founds the conversation and
    adds the second, which adds the third. *)
Section Meeting.
Abbreviation phone := (MlsDevice.t (M := reference_openmls)).
Import MlsDevice.

Definition given {A} (d : A) (p : result FfiError.t A * phone) : A := match p.1 with Ok a => a | Err _ => d end.
Definition blank (b : Z) : phone := Make _ false (newborn b).
Definition invited (b : Z) : result FfiError.t (list bytes) * phone := generate_key_packages 1 (blank b).
Definition invitation (b : Z) : bytes := nth 0 (given [] (invited b)) [].
Definition host : phone := (create_conversation chat (blank 1)).2.
Definition adds (b : Z) (d : phone) : result FfiError.t (list bytes) * phone :=
  commit_add_member chat (invitation b) d.
Definition part (n : nat) (b : Z) (d : phone) : bytes := nth n (given [] (adds b d)) [].
Definition couple : list phone :=
  [(adds 2 host).2; (join_conversation_from_welcome (part 1 2 host) (invited 2).2).2].
Definition inviter : phone := nth 1 couple host.
Definition trio : list phone :=
  [(adds 3 inviter).2; (process_incoming_message chat (part 0 3 inviter) (nth 0 couple host)).2;
   (join_conversation_from_welcome (part 1 3 inviter) (invited 3).2).2].

Lemma host_eq : create_conversation chat (blank 1) = (Ok tt, host).
Proof. apply pair_fst. vm_compute. reflexivity. Qed.
Lemma invited_eq b : b = 2 ∨ b = 3 →
  generate_key_packages 1 (blank b) = (Ok [invitation b], (invited b).2).
Proof. intros [-> | ->]; apply pair_fst; vm_compute; reflexivity. Qed.
Lemma pair_added : adds 2 host = (Ok [part 0 2 host; part 1 2 host], (adds 2 host).2).
Proof. apply pair_fst. vm_compute. reflexivity. Qed.
Lemma trio_added : adds 3 inviter = (Ok [part 0 3 inviter; part 1 3 inviter], (adds 3 inviter).2).
Proof. apply pair_fst. vm_compute. reflexivity. Qed.

Lemma trio_assembled : assembled chat trio.
Proof.
  assert (H1 : assembled chat couple).
  { apply (assembled_added chat host [] (adds 2 host).2 (blank 2) (invited 2).2 (invitation 2)
      (part 0 2 host) (part 1 2 host)); [|reflexivity|by apply invited_eq; auto|exact pair_added].
    exact (assembled_founded chat (blank 1) host eq_refl host_eq). }
  apply (assembled_added chat inviter [nth 0 couple host] (adds 3 inviter).2 (blank 3) (invited 3).2 (invitation 3)
    (part 0 3 inviter) (part 1 3 inviter)); [|reflexivity|by apply invited_eq; auto|exact trio_added].
  apply (assembled_order chat couple); [exact H1|]. apply Permutation_swap.
Qed.

Definition chatter : list action := [Say 0 (lit "hello"); Read 2; Say 2 (lit "here"); Say 1 (lit "hi")].
Lemma devices_meet_witness :
  ∃ us log u, use_all chat (chatter ++ replicate 3 (Read 2)) (unopened trio) = Some (us, log)
    ∧ us !! 2%nat = Some u ∧ inbox u = [Ok (lit "hello"); Ok (lit "hi")].
Proof.
  destruct (devices_meet (M := reference_openmls) chat trio trio_assembled) as [_ H].
  destruct (H chatter) as [_ Ha]; [repeat constructor; cbn; lia|].
  destruct (Ha 2%nat) as (us & log & u & Hu & H1 & H2); [cbn; lia|].
  exists us, log, u. split; [exact Hu|]. split; [exact H1|]. rewrite H2. vm_compute. reflexivity.
Defined.
End Meeting.
