(* ===== verification/Text.v ===== *)
(** * Text: the string operations of the Rust standard library that the
    command-line tools use

    [str::lines], [str::trim], [str::split_whitespace] and the parsing of
    unsigned integers, on the UTF-8 bytes of a string.  White space is the
    Unicode property, recognised in its encoding. *)
From Stdlib Require Import ZArith Lia.
From stdpp Require Import base list strings.
From S2P Require Import Prelude.

(** ** White space *)

(** The length of the white-space character at the head of [l], or 0. *)
Definition ws_len (l : bytes) : nat :=
  let at_ i := b2z (nth i l Init.Byte.x00) in
  match l with
  | [] => 0
  | _ =>
      if ((9 <=? at_ 0%nat) && (at_ 0%nat <=? 13)) || (at_ 0%nat =? 32) then 1
      else if (at_ 0%nat =? 194) && ((at_ 1%nat =? 133) || (at_ 1%nat =? 160)) then 2
      else if (at_ 0%nat =? 225) && (at_ 1%nat =? 154) && (at_ 2%nat =? 128) then 3
      else if (at_ 0%nat =? 226) && (at_ 1%nat =? 128)
              && (((128 <=? at_ 2%nat) && (at_ 2%nat <=? 138))
                  || (at_ 2%nat =? 168) || (at_ 2%nat =? 169) || (at_ 2%nat =? 175)) then 3
      else if (at_ 0%nat =? 226) && (at_ 1%nat =? 129) && (at_ 2%nat =? 159) then 3
      else if (at_ 0%nat =? 227) && (at_ 1%nat =? 128) && (at_ 2%nat =? 128) then 3
      else 0
  end.

(** Each byte, and whether it belongs to a white-space character; [skip] bytes
    of the current one are still to come. *)
Fixpoint marks (skip : nat) (l : bytes) : list (bool * byte) :=
  match l with
  | [] => []
  | b :: l' =>
      match skip with
      | S skip => (true, b) :: marks skip l'
      | O =>
          match ws_len l with
          | O => (false, b) :: marks 0 l'
          | S skip => (true, b) :: marks skip l'
          end
      end
  end.

Fixpoint drop_ws (l : list (bool * byte)) : list (bool * byte) :=
  match l with
  | (true, _) :: l => drop_ws l
  | _ => l
  end.
(** [str::trim] *)
Definition trim (l : bytes) : bytes := snd <$> rev (drop_ws (rev (drop_ws (marks 0 l)))).

Definition flush_field (cur : bytes) : list bytes := match cur with [] => [] | _ => [cur] end.
Fixpoint fields_from (cur : bytes) (l : list (bool * byte)) : list bytes :=
  match l with
  | [] => flush_field cur
  | (true, _) :: l => flush_field cur ++ fields_from [] l
  | (false, b) :: l => fields_from (cur ++ [b]) l
  end.
(** [str::split_whitespace] *)
Definition split_whitespace (l : bytes) : list bytes := fields_from [] (marks 0 l).

(** ** Lines *)

Definition LF : byte := z2b 10.
Definition CR : byte := z2b 13.
Definition strip_cr (line : bytes) : bytes :=
  match rev line with
  | b :: l => if bool_decide (b = CR) then rev l else line
  | [] => line
  end.
Fixpoint lines_from (cur : bytes) (l : bytes) : list bytes :=
  match l with
  | [] => flush_field cur
  | b :: l => if bool_decide (b = LF) then strip_cr cur :: lines_from [] l else lines_from (cur ++ [b]) l
  end.
(** [str::lines]: a carriage return counts only before a line feed. *)
Definition lines (l : bytes) : list bytes := lines_from [] l.

(** ** Unsigned integers *)

Fixpoint digits (maximum acc : Z) (l : bytes) : option Z :=
  match l with
  | [] => Some acc
  | b :: l =>
      let d := b2z b - 48 in
      if (0 <=? d) && (d <=? 9) then
        let acc := acc * 10 + d in
        if maximum <? acc then None else digits maximum acc l
      else None
  end.
(** [parse] of an unsigned type: an optional plus and at least one digit. *)
Definition parse_uint (maximum : Z) (l : bytes) : option Z :=
  match l with
  | [] => None
  | b :: (_ :: _) as rest => if b2z b =? 43 then digits maximum 0 (tail l) else digits maximum 0 l
  | _ => digits maximum 0 l
  end.

Example parse_samples :
  parse_uint 65535 (lit "65535") = Some 65535 ∧ parse_uint 65535 (lit "65536") = None
  ∧ parse_uint 65535 (lit "+7") = Some 7 ∧ parse_uint 65535 (lit "+") = None
  ∧ parse_uint 65535 (lit "-1") = None ∧ parse_uint 65535 [] = None.
Proof. by vm_compute. Qed.
Example split_samples :
  split_whitespace (lit " a  bc ") = [lit "a"; lit "bc"] ∧ trim (lit "  a b ") = lit "a b"
  ∧ lines (lit "a" ++ [CR; LF; LF] ++ lit "b" ++ [CR]) = [lit "a"; []; lit "b" ++ [CR]].
Proof. by vm_compute. Qed.

(** ** Digits *)

Definition is_digit (b : byte) : Prop := 48 ≤ b2z b ≤ 57.
Definition decimal (l : bytes) : Z := foldl (λ acc b, acc * 10 + (b2z b - 48)) 0 l.

Lemma digits_mono l acc :
  0 ≤ acc → Forall is_digit l → acc ≤ foldl (λ acc b, acc * 10 + (b2z b - 48)) acc l.
Proof.
  revert acc. induction l as [|b l IH]; intros acc Ha Hl; [cbn; lia|].
  apply Forall_cons in Hl as [Hb Hl]. unfold is_digit in Hb. cbn.
  specialize (IH (acc * 10 + (b2z b - 48)) ltac:(lia) Hl). lia.
Qed.

Lemma digits_exact maximum acc l n :
  0 ≤ acc ≤ maximum →
  digits maximum acc l = Some n ↔
  Forall is_digit l ∧ foldl (λ acc b, acc * 10 + (b2z b - 48)) acc l = n ∧ n ≤ maximum.
Proof.
  revert acc. induction l as [|b l IH]; intros acc Ha; cbn [digits foldl].
  - split; [intros [= <-]; split_and!; [constructor|done|lia]|]. by intros (_ & -> & _).
  - destruct (Z.leb_spec 0 (b2z b - 48)), (Z.leb_spec (b2z b - 48) 9); cbn [andb];
      try (split; [done|]; intros ([Hb _]%Forall_cons & _); unfold is_digit in Hb; lia).
    destruct (Z.ltb_spec maximum (acc * 10 + (b2z b - 48))).
    + split; [done|]. intros ([_ Hl]%Forall_cons & <- & Hn).
      pose proof (digits_mono l (acc * 10 + (b2z b - 48)) ltac:(lia) Hl). lia.
    + rewrite IH by lia. rewrite Forall_cons. unfold is_digit at 2. split; [intros (? & ? & ?)|intros ([_ ?] & ? & ?)];
        split_and!; try done; try (split; [lia|done]); lia.
Qed.

(** A numeral: digits, at least one, after an optional plus. *)
Definition numeral (maximum : Z) (l : bytes) (n : Z) : Prop :=
  ∃ sign ds, l = sign ++ ds ∧ (sign = [] ∨ sign = [z2b 43]) ∧ ds ≠ [] ∧ Forall is_digit ds
    ∧ decimal ds = n ∧ n ≤ maximum.

Lemma numeral_range maximum l n : numeral maximum l n → 0 ≤ n ≤ maximum.
Proof. intros (sign & ds & _ & _ & _ & Hd & <- & Hn). split; [by apply digits_mono|done]. Qed.

Lemma numeral_unsigned maximum l n :
  l ≠ [] → 0 ≤ maximum → (∀ r, l = z2b 43 :: r → r = []) →
  digits maximum 0 l = Some n ↔ numeral maximum l n.
Proof.
  intros Hl Hm Hplus. rewrite digits_exact by lia. unfold numeral, decimal. split.
  - intros (Hd & Hn & Hle). exists [], l. split_and!; auto.
  - intros (sign & ds & -> & [->| ->] & Hne & Hd & Hn & Hle); [done|].
    by destruct (Hne (Hplus ds eq_refl)).
Qed.

(** The parser accepts exactly the numerals that do not exceed the maximum. *)
Lemma parse_uint_exact maximum l n :
  0 ≤ maximum → parse_uint maximum l = Some n ↔ numeral maximum l n.
Proof.
  intros Hm. destruct l as [|b [|c r]]; cbn [parse_uint].
  - split; [done|]. intros (sign & ds & H & _ & Hne & _). symmetry in H. by apply app_eq_nil in H as [_ ->].
  - apply numeral_unsigned; [done..|]. by intros r [= _ <-].
  - destruct (Z.eqb_spec (b2z b) 43) as [Hb|Hb].
    + assert (b = z2b 43) as -> by (rewrite <- (z2b_b2z b); by rewrite Hb). cbn [tail].
      rewrite digits_exact by lia. unfold numeral, decimal. split.
      * intros (Hd & Hn & Hle). exists [z2b 43], (c :: r). split_and!; auto.
      * intros (sign & ds & H & [->| ->] & Hne & Hd & Hn & Hle).
        { cbn in H. subst ds. apply Forall_cons in Hd as [Hd _]. unfold is_digit in Hd.
          rewrite b2z_z2b_small in Hd; lia. }
        injection H as <-. done.
    + apply numeral_unsigned; [done..|]. intros r' [= -> _]. by rewrite b2z_z2b_small in Hb by lia.
Qed.

(** ** Fields between blanks *)

(** Text without white space, and spaces and tabs. *)
Definition solid (l : bytes) : Prop := l ≠ [] ∧ Forall (λ x, fst x = false) (marks 0 l).
Definition blank (l : bytes) : Prop := Forall (λ b, b = z2b 32 ∨ b = z2b 9) l.

(** What follows a field cannot complete a white-space character in it. *)
Definition ascii_head (r : bytes) : Prop := b2z (nth 0 r Init.Byte.x00) < 128.

(** Decide the comparisons of bytes in [ws_len]. *)
Ltac byte_cases :=
  repeat match goal with
  | |- context [?x =? ?y] => destruct (Z.eqb_spec x y) in *; cbn [andb orb] in *; try lia
  | |- context [?x <=? ?y] => destruct (Z.leb_spec x y) in *; cbn [andb orb] in *; try lia
  end; try done.

Lemma ws_len_app u r :
  u ≠ [] → ascii_head r → (ws_len u = 0)%nat → (ws_len (u ++ r) = 0)%nat.
Proof.
  intros Hu Hr. destruct u as [|a [|b [|c u]]]; [done|..]; unfold ws_len; cbn [app nth].
  - intros H. unfold ascii_head in Hr. destruct r as [|d r]; [done|]. cbn [nth] in Hr |- *.
    change (b2z Init.Byte.x00) with 0 in H.
    byte_cases.
  - intros H. unfold ascii_head in Hr. destruct r as [|d r]; [done|]. cbn [nth] in Hr |- *.
    change (b2z Init.Byte.x00) with 0 in H.
    byte_cases.
  - done.
Qed.

Definition content (u : bytes) : list (bool * byte) := pair false <$> u.
Definition gap (s : bytes) : list (bool * byte) := pair true <$> s.

Lemma marks_content u r :
  Forall (λ x, fst x = false) (marks 0 u) → ascii_head r → marks 0 (u ++ r) = content u ++ marks 0 r.
Proof.
  intros Hu Hr. induction u as [|b u IH]; [done|].
  change ((b :: u) ++ r) with (b :: (u ++ r)). cbn [marks] in *.
  destruct (ws_len (b :: u)) as [|k] eqn:E; [|by apply Forall_cons in Hu as [[=] _]].
  change (b :: u ++ r) with ((b :: u) ++ r). rewrite ws_len_app by done. cbn [content fmap list_fmap app].
  f_equal. apply IH. by apply Forall_cons in Hu as [_ Hu].
Qed.

Lemma marks_gap s r : blank s → marks 0 (s ++ r) = gap s ++ marks 0 r.
Proof.
  induction 1 as [|b s Hb _ IH]; [done|]. cbn [app marks gap fmap list_fmap].
  destruct Hb as [-> | ->]; cbn [ws_len nth]; rewrite !b2z_z2b_small by lia; cbn; by rewrite IH.
Qed.

Lemma blank_head s r : blank s → s ≠ [] → ascii_head (s ++ r).
Proof.
  intros Hs Hne. destruct s as [|b s]; [done|]. apply Forall_cons in Hs as [Hb _].
  unfold ascii_head. cbn [app nth]. destruct Hb as [-> | ->]; rewrite b2z_z2b_small by lia; lia.
Qed.
Lemma blank_head_nil s : blank s → ascii_head s.
Proof.
  intros Hs. destruct (decide (s = [])) as [->|Hne]; [by vm_compute|].
  rewrite <- (app_nil_r s). by apply blank_head.
Qed.

Lemma fields_content cur u m : fields_from cur (content u ++ m) = fields_from (cur ++ u) m.
Proof.
  revert cur. induction u as [|b u IH]; intros cur; [by rewrite app_nil_r|].
  cbn [content fmap list_fmap app fields_from].
  change (pair false <$> u) with (content u). by rewrite IH, <- app_assoc.
Qed.
Lemma fields_gap cur s m : s ≠ [] → fields_from cur (gap s ++ m) = flush_field cur ++ fields_from [] m.
Proof.
  intros Hs. destruct s as [|b s]; [done|]. clear Hs. revert cur b.
  induction s as [|c s IH]; intros cur b; [done|].
  cbn [gap fmap list_fmap app fields_from] in *. by rewrite IH.
Qed.
Lemma flush_solid u : u ≠ [] → flush_field u = [u].
Proof. by destruct u. Qed.

(** A field and a gap are read off the text. *)
Lemma fields_step f s r :
  solid f → blank s → s ≠ [] → fields_from [] (marks 0 (f ++ s ++ r)) = f :: fields_from [] (marks 0 r).
Proof.
  intros [Hne Hf] Hs Hs0. rewrite marks_content by (try done; by apply blank_head).
  rewrite marks_gap by done. rewrite fields_content, fields_gap by done. cbn [app].
  by rewrite flush_solid.
Qed.
Lemma fields_last f : solid f → fields_from [] (marks 0 f) = [f].
Proof.
  intros [Hne Hf]. rewrite <- (app_nil_r f), marks_content by (try done; by vm_compute).
  rewrite fields_content. cbn [app marks fields_from]. rewrite app_nil_r. by apply flush_solid.
Qed.

(** *** Trimming *)

Lemma drop_ws_gap s m : drop_ws (gap s ++ m) = drop_ws m.
Proof. by induction s. Qed.
Lemma drop_ws_content u m : u ≠ [] → drop_ws (content u ++ m) = content u ++ m.
Proof. by destruct u. Qed.
Lemma rev_fmap {A B} (f : A → B) l : rev (f <$> l) = f <$> rev l.
Proof. induction l as [|x l IH]; [done|]. cbn. by rewrite IH, fmap_app. Qed.
Lemma rev_gap s : rev (gap s) = gap (rev s).
Proof. apply rev_fmap. Qed.
Lemma rev_content s : rev (content s) = content (rev s).
Proof. apply rev_fmap. Qed.
Lemma snd_content u : snd <$> content u = u.
Proof. unfold content. rewrite <- list_fmap_compose. apply list_fmap_id. Qed.
Lemma snd_gap u : snd <$> gap u = u.
Proof. unfold gap. rewrite <- list_fmap_compose. apply list_fmap_id. Qed.

(** A text that starts and ends with a field. *)
Lemma trim_between p q f g m :
  f ≠ [] → g ≠ [] →
  snd <$> rev (drop_ws (rev (drop_ws (gap p ++ (content f ++ m ++ content g) ++ gap q))))
  = f ++ (snd <$> m) ++ g.
Proof.
  intros Hf Hg. rewrite drop_ws_gap, <- app_assoc, drop_ws_content by done.
  rewrite <- !app_assoc, !rev_app_distr, rev_gap, <- !app_assoc, drop_ws_gap, rev_content,
    drop_ws_content by (intros H; apply Hg; by apply (f_equal (@rev byte)) in H; rewrite rev_involutive in H).
  rewrite !rev_app_distr, rev_involutive. rewrite <- !rev_content, !rev_involutive.
  by rewrite !fmap_app, !snd_content, <- !app_assoc.
Qed.

(** What [trim] leaves of it, with the gaps around it. *)
Lemma trim_text p q f g m t :
  blank p → blank q → f ≠ [] → g ≠ [] →
  marks 0 (t ++ q) = (content f ++ m ++ content g) ++ gap q → t = f ++ (snd <$> m) ++ g →
  trim (p ++ t ++ q) = t.
Proof.
  intros Hp Hq Hf Hg Hm ->. unfold trim. rewrite marks_gap, Hm by done. by apply trim_between.
Qed.
Lemma trim_solid f : solid f → trim f = f.
Proof.
  intros [Hne Hf]. unfold trim. rewrite <- (app_nil_r f) at 1. rewrite marks_content by (try done; by vm_compute).
  cbn [marks]. rewrite drop_ws_content, app_nil_r, rev_content by done.
  rewrite <- (app_nil_r (content (rev f))), drop_ws_content by (intros H; apply Hne; by apply (f_equal (@rev byte)) in H; rewrite rev_involutive in H).
  by rewrite app_nil_r, rev_content, rev_involutive, snd_content.
Qed.

Lemma trim_blank s : blank s → trim s = [].
Proof.
  intros Hs. unfold trim. rewrite <- (app_nil_r s), marks_gap, drop_ws_gap by done. done.
Qed.

Lemma drop_ws_last l b : ∃ k, drop_ws (l ++ [(false, b)]) = k ++ [(false, b)].
Proof.
  induction l as [|[[|] c] l [k IH]]; cbn; [by exists []|by exists k|by exists ((false, c) :: l)].
Qed.
(** A visible ASCII character at the beginning stays there. *)
Lemma trim_starts p b r :
  blank p → 32 < b2z b < 128 → ∃ k, trim (p ++ b :: r) = b :: k.
Proof.
  intros Hp Hb. unfold trim. rewrite marks_gap, drop_ws_gap by done. cbn [marks].
  assert (ws_len (b :: r) = 0%nat) as ->.
  { unfold ws_len. cbn [nth].
    byte_cases. }
  cbn [drop_ws]. cbn [rev]. destruct (drop_ws_last (rev (marks 0 r)) b) as [k ->].
  rewrite rev_app_distr. cbn. by eexists.
Qed.

(** *** Lines *)

Lemma lines_from_line cur l rest :
  LF ∉ l → lines_from cur (l ++ LF :: rest) = strip_cr (cur ++ l) :: lines_from [] rest.
Proof.
  revert cur. induction l as [|b l IH]; intros cur Hl; cbn [app lines_from].
  - rewrite bool_decide_eq_true_2 by done. by rewrite app_nil_r.
  - apply not_elem_of_cons in Hl as [Hb Hl].
    rewrite bool_decide_eq_false_2 by congruence. rewrite IH by done. by rewrite <- app_assoc.
Qed.
(** A text of terminated lines. *)
Lemma lines_concat ls :
  Forall (λ l, LF ∉ l) ls → lines (concat ((.++ [LF]) <$> ls)) = strip_cr <$> ls.
Proof.
  unfold lines. induction 1 as [|l ls Hl _ IH]; [done|]. cbn [fmap list_fmap concat].
  rewrite <- app_assoc. cbn [app]. rewrite lines_from_line by done. cbn. by rewrite <- IH.
Qed.

Lemma strip_cr_id l : CR ∉ l → strip_cr l = l.
Proof.
  intros Hl. unfold strip_cr. destruct (rev l) as [|b k] eqn:E; [done|].
  rewrite bool_decide_eq_false_2; [done|]. intros ->. apply Hl, list_elem_of_In, in_rev. rewrite E. by left.
Qed.
Lemma strip_cr_suffix l : ∃ k, l = strip_cr l ++ k ∧ (k = [] ∨ k = [CR]).
Proof.
  unfold strip_cr. destruct (rev l) as [|b k] eqn:E; [exists []; rewrite app_nil_r; auto|].
  case_bool_decide as Hb; [subst b|exists []; rewrite app_nil_r; auto].
  exists [CR]. split; [|auto]. rewrite <- (rev_involutive l), E. done.
Qed.

Lemma solid_without c l :
  (∀ k, ws_len (c :: k) ≠ 0%nat) → Forall (λ x, fst x = false) (marks 0 l) → c ∉ l.
Proof.
  intros Hc. induction l as [|b l IH]; intros H; [apply not_elem_of_nil|]. cbn [marks] in H.
  destruct (ws_len (b :: l)) eqn:E; [|by apply Forall_cons in H as [[=] _]].
  apply Forall_cons in H as [_ H]. apply not_elem_of_cons. split; [|by apply IH].
  intros <-. by apply (Hc l).
Qed.
Lemma solid_no_LF l : Forall (λ x, fst x = false) (marks 0 l) → LF ∉ l.
Proof. apply solid_without. intros k. unfold ws_len, LF. cbn [nth]. by rewrite b2z_z2b_small by lia. Qed.
Lemma solid_no_CR l : Forall (λ x, fst x = false) (marks 0 l) → CR ∉ l.
Proof. apply solid_without. intros k. unfold ws_len, CR. cbn [nth]. by rewrite b2z_z2b_small by lia. Qed.
Lemma blank_no_LF s : blank s → LF ∉ s.
Proof. unfold blank. rewrite Forall_forall. intros H [Hx|Hx]%H; by vm_compute in Hx. Qed.
Lemma blank_no_CR s : blank s → CR ∉ s.
Proof. unfold blank. rewrite Forall_forall. intros H [Hx|Hx]%H; by vm_compute in Hx. Qed.

(** Visible ASCII is solid. *)
Lemma ascii_solid l : l ≠ [] → Forall (λ b, 32 < b2z b < 128) l → solid l.
Proof.
  intros Hne Hl. split; [done|]. clear Hne. induction Hl as [|b l Hb _ IH]; [constructor|].
  cbn [marks]. assert (ws_len (b :: l) = 0%nat) as ->.
  { unfold ws_len. cbn [nth].
    byte_cases. }
  by constructor.
Qed.
