(* ===== verification/DirectoryCli.v ===== *)
(** * DirectoryCli: the command line of the relay-directory tool

    Models [main] and [read_endpoints] of
    tools/network-lab/src/bin/relay-directory.rs over a file system: which files
    a command reads and writes, in which order, and what it reports.  The hex
    codec and the two commands proper are those of DirectoryTool. *)
From Stdlib Require Import ZArith Lia.
From stdpp Require Import base gmap list strings.
From S2P Require Import Prelude Cursor Crypto Directory DirectoryTool Text.
Import SignedRelayDirectory.

Module ToolError.
Inductive t :=
| Io
| InvalidUtf8
| KeyLength | FourFields (line_number : Z) | EndpointIdLength | NoEndpoints | PublicKeyLength
| Hex (e : HexError.t)
| Parse
| Directory (e : TransportError.t).
End ToolError.

(** Paths are their bytes; a path that is not writable cannot be opened for
    writing. *)
Record FileSystem : Type := MakeFileSystem {
  contents : gmap bytes bytes; writable : bytes → bool
}.

Definition fs_read (path : bytes) (fs : FileSystem) : result ToolError.t bytes :=
  ok_or (contents fs !! path) ToolError.Io.
Definition fs_read_to_string (path : bytes) (fs : FileSystem) : result ToolError.t bytes :=
  value ← fs_read path fs;
  _ ← ensure (utf8_valid value) ToolError.InvalidUtf8;
  Ok value.
Definition fs_write (path value : bytes) (fs : FileSystem) : result ToolError.t unit * FileSystem :=
  if writable fs path
  then (Ok tt, MakeFileSystem (<[path := value]> (contents fs)) (writable fs))
  else (Err ToolError.Io, fs).
(** [create_new(true)]: an existing file is an error. *)
Definition write_secret (path value : bytes) (fs : FileSystem) : result ToolError.t unit * FileSystem :=
  if bool_decide (is_Some (contents fs !! path)) then (Err ToolError.Io, fs)
  else fs_write path value fs.

(** ** The endpoints file *)

Definition hex_bytes (text : bytes) : result ToolError.t bytes :=
  map_err ToolError.Hex (decode_hex text).
Definition parse (maximum : Z) (text : bytes) : result ToolError.t Z :=
  ok_or (parse_uint maximum text) ToolError.Parse.
(** [to_owned] of a field, which is a string as the line is one. *)
Definition owned (text : bytes) : result ToolError.t str := ok_or (from_utf8 text) ToolError.InvalidUtf8.

Definition read_endpoint (line_number : Z) (fields : list bytes) : result ToolError.t RelayEndpoint.t :=
  match fields with
  | [id; priority; websocket_url; https_url] =>
      id ← hex_bytes id;
      endpoint_id ← ok_or (try_array 16 id) ToolError.EndpointIdLength;
      priority ← parse u16_max priority;
      websocket_url ← owned websocket_url;
      https_url ← owned https_url;
      Ok (RelayEndpoint.Make endpoint_id websocket_url https_url priority)
  | _ => Err (ToolError.FourFields (line_number + 1))
  end.

Fixpoint read_lines (line_number : Z) (ls : list bytes) : result ToolError.t (list RelayEndpoint.t) :=
  match ls with
  | [] => Ok []
  | line :: ls =>
      let line := trim line in
      if (len line =? 0) || starts_with (lit "#") line then read_lines (line_number + 1) ls
      else
        e ← read_endpoint line_number (split_whitespace line);
        endpoints ← read_lines (line_number + 1) ls;
        Ok (e :: endpoints)
  end.

Definition read_endpoints (path : bytes) (fs : FileSystem) : result ToolError.t (list RelayEndpoint.t) :=
  text ← fs_read_to_string path fs;
  endpoints ← read_lines 0 (lines text);
  if bool_decide (endpoints = []) then Err ToolError.NoEndpoints else Ok endpoints.

(** ** The commands *)

Module Outcome.
(** The message that is printed, the error, or the usage and exit code 2. *)
Inductive t := Generated | Signed (version : Z) | Valid (version : Z) | Failed (e : ToolError.t) | Usage.
End Outcome.

Definition settled {A} (f : A → Outcome.t) (r : result ToolError.t A) : Outcome.t :=
  match r with Ok a => f a | Err e => Outcome.Failed e end.

Section Main.
Context `{C : Crypto}.

(** [key] is what [SigningKey::generate] draws. *)
Definition generate_key (key : array 32) (secret public : bytes) (fs : FileSystem)
    : Outcome.t * FileSystem :=
  let '(r, fs) := write_secret secret (arr key) fs in
  match r with
  | Err e => (Outcome.Failed e, fs)
  | Ok _ =>
      let '(r, fs) := fs_write public (encode_hex (arr (sk_public key))) fs in
      (settled (λ _, Outcome.Generated) r, fs)
  end.

Definition signed_file (secret version issued_at expires_at endpoints : bytes) (fs : FileSystem)
    : result ToolError.t (Z * bytes) :=
  key ← fs_read secret fs;
  key ← ok_or (try_array 32 key) ToolError.KeyLength;
  version ← parse u64_max version;
  issued_at ← parse u64_max issued_at;
  expires_at ← parse u64_max expires_at;
  endpoints ← read_endpoints endpoints fs;
  file ← map_err ToolError.Directory (sign_command key version issued_at expires_at endpoints);
  Ok (version, file).
Definition sign (secret output version issued_at expires_at endpoints : bytes) (fs : FileSystem)
    : Outcome.t * FileSystem :=
  match signed_file secret version issued_at expires_at endpoints fs with
  | Err e => (Outcome.Failed e, fs)
  | Ok (version, file) =>
      let '(r, fs) := fs_write output file fs in
      (settled (λ _, Outcome.Signed version) r, fs)
  end.

(** The clock and the minimum are parsed after the directory was decoded. *)
Definition verify_file (public input now minimum : bytes) (fs : FileSystem) : result ToolError.t Z :=
  public_text ← fs_read_to_string public fs;
  public_key ← hex_bytes (trim public_text);
  public_key ← ok_or (try_array 32 public_key) ToolError.PublicKeyLength;
  file ← fs_read input fs;
  directory ← map_err ToolError.Directory (SignedRelayDirectory.decode file);
  now ← parse u64_max now;
  minimum ← parse u64_max minimum;
  _ ← map_err ToolError.Directory (verify directory public_key now minimum);
  Ok (version directory).

Definition main (key : array 32) (args : list bytes) (fs : FileSystem) : Outcome.t * FileSystem :=
  match args with
  | [command; secret; public] =>
      if bool_decide (command = lit "generate-key") then generate_key key secret public fs
      else (Outcome.Usage, fs)
  | [command; secret; output; version; issued_at; expires_at; endpoints] =>
      if bool_decide (command = lit "sign")
      then sign secret output version issued_at expires_at endpoints fs
      else (Outcome.Usage, fs)
  | [command; public; input; now; minimum] =>
      if bool_decide (command = lit "verify")
      then (settled Outcome.Valid (verify_file public input now minimum fs), fs)
      else (Outcome.Usage, fs)
  | _ => (Outcome.Usage, fs)
  end.
End Main.

(** ** Reading the endpoints file *)

(** A line of the file: blank, a comment, or an endpoint between gaps. *)
Record Row : Type := MakeRow {
  indent : bytes; id_text : bytes; gap1 : bytes; priority_text : bytes; gap2 : bytes;
  websocket : str; gap3 : bytes; https : str; trailing : bytes;
  endpoint_id : array 16; priority : Z
}.
Definition row_text (r : Row) : bytes :=
  indent r ++ (id_text r ++ gap1 r ++ priority_text r ++ gap2 r ++ str_bytes (websocket r)
    ++ gap3 r ++ str_bytes (https r)) ++ trailing r.
Definition separates (s : bytes) : Prop := blank s ∧ s ≠ [].
Definition row_ok (r : Row) : Prop :=
  blank (indent r) ∧ separates (gap1 r) ∧ separates (gap2 r) ∧ separates (gap3 r) ∧ blank (trailing r)
  ∧ solid (id_text r) ∧ decode_hex (id_text r) = Ok (arr (endpoint_id r))
  ∧ solid (priority_text r) ∧ numeral u16_max (priority_text r) (priority r)
  ∧ solid (websocket r) ∧ solid (https r).
Definition row_endpoint (r : Row) : RelayEndpoint.t :=
  RelayEndpoint.Make (endpoint_id r) (websocket r) (https r) (priority r).

Inductive Line := Blank (s : bytes) | Comment (s text : bytes) | Endpoint (r : Row).
Definition line_text (l : Line) : bytes :=
  match l with
  | Blank s => s
  | Comment s text => s ++ lit "#" ++ text
  | Endpoint r => row_text r
  end.
Definition line_ok (l : Line) : Prop :=
  match l with
  | Blank s => blank s
  | Comment s text => blank s ∧ LF ∉ text
  | Endpoint r => row_ok r
  end.
Definition line_endpoints (l : Line) : list RelayEndpoint.t :=
  match l with Endpoint r => [row_endpoint r] | _ => [] end.
Definition file_text (ls : list Line) : bytes := concat ((.++ [LF]) <$> (line_text <$> ls)).

Definition row_body (r : Row) : bytes :=
  id_text r ++ gap1 r ++ priority_text r ++ gap2 r ++ str_bytes (websocket r)
  ++ gap3 r ++ str_bytes (https r).

Lemma trim_row r : row_ok r → trim (row_text r) = row_body r.
Proof.
  intros (H0 & [H1 H1'] & [H2 H2'] & [H3 H3'] & H4 & [Hi' Hi] & _ & [Hp' Hp] & _ & [Hw' Hw] & [Hh' Hh]).
  apply (trim_text _ _ (id_text r) (str_bytes (https r)) (gap (gap1 r) ++ content (priority_text r)
    ++ gap (gap2 r) ++ content (str_bytes (websocket r)) ++ gap (gap3 r))); try done.
  - unfold row_body. rewrite <- !app_assoc.
    do 3 (rewrite marks_content by (done || by apply blank_head); rewrite marks_gap by done).
    rewrite marks_content by (done || by apply blank_head_nil).
    rewrite <- (app_nil_r (trailing r)), marks_gap by done. cbn [marks].
    by rewrite !app_nil_r.
  - unfold row_body. by rewrite !fmap_app, !snd_content, !snd_gap, <- !app_assoc.
Qed.

Lemma split_row r : row_ok r →
  split_whitespace (row_body r)
  = [id_text r; priority_text r; str_bytes (websocket r); str_bytes (https r)].
Proof.
  intros (_ & [H1 H1'] & [H2 H2'] & [H3 H3'] & _ & Hi & _ & Hp & _ & Hw & Hh).
  unfold split_whitespace, row_body. rewrite !fields_step by done. by rewrite fields_last.
Qed.


(** A row begins with a hexadecimal digit, so it is no comment. *)
Lemma hex_head text (i : array 16) :
  decode_hex text = Ok (arr i) → ∃ b l, text = b :: l ∧ b ≠ z2b 35.
Proof.
  unfold decode_hex. destruct (negb _); [done|]. destruct text as [|h [|l text]]; cbn [decode_chunks].
  - intros [= H]. apply (f_equal length) in H. by rewrite array_length in H.
  - intros [= H]. apply (f_equal length) in H. by rewrite array_length in H.
  - intros (x & Hx & _)%bind_Ok. eexists _, _. split; [done|]. intros ->. by vm_compute in Hx.
Qed.

Lemma not_comment b l : b ≠ z2b 35 → starts_with (lit "#") (b :: l) = false.
Proof.
  intros Hb. change (lit "#") with [z2b 35]. cbn [starts_with].
  apply andb_false_iff. left. by apply bool_decide_eq_false_2.
Qed.

Lemma len_cons (b : byte) l : (len (b :: l) =? 0) = false.
Proof. unfold len. cbn [length]. apply Z.eqb_neq. lia. Qed.

Lemma read_endpoint_row n r : row_ok r →
  read_endpoint n (split_whitespace (row_body r)) = Ok (row_endpoint r).
Proof.
  intros Hr. rewrite split_row by done.
  destruct Hr as (_ & _ & _ & _ & _ & _ & Hid & _ & Hn & _ & _).
  unfold read_endpoint, hex_bytes, parse, owned. rewrite Hid. cbn [map_err mbind result_bind].
  rewrite try_array_arr. cbn [ok_or mbind result_bind].
  rewrite (proj2 (parse_uint_exact u16_max _ _ ltac:(unfold u16_max; lia)) Hn).
  cbn [ok_or mbind result_bind]. by rewrite !from_utf8_str.
Qed.

Lemma row_head r : row_ok r → ∃ b l, row_body r = b :: l ∧ b ≠ z2b 35.
Proof.
  intros (_ & _ & _ & _ & _ & _ & Hid & _). destruct (hex_head _ _ Hid) as (b & l & E & Hb).
  unfold row_body. rewrite E. by eexists _, _.
Qed.

Lemma row_no c r : row_ok r →
  (∀ l, Forall (λ x, fst x = false) (marks 0 l) → c ∉ l) → (∀ s, blank s → c ∉ s) → c ∉ row_text r.
Proof.
  intros (H0 & [H1 _] & [H2 _] & [H3 _] & H4 & [_ Hi] & _ & [_ Hp] & _ & [_ Hw] & [_ Hh]) Hs Hb.
  unfold row_text. rewrite !not_elem_of_app. split_and!; auto.
Qed.

(** What the reader makes of one line. *)
Lemma read_line n l ls : line_ok l →
  read_lines n (strip_cr (line_text l) :: ls) = (λ es, line_endpoints l ++ es) <$> read_lines (n + 1) ls.
Proof.
  destruct l as [s|s text|r]; cbn [line_ok line_text line_endpoints read_lines].
  - intros Hs. rewrite strip_cr_id by (by apply blank_no_CR). rewrite trim_blank by done.
    cbn. by destruct (read_lines _ _).
  - intros [Hs Ht]. destruct (strip_cr_suffix (s ++ lit "#" ++ text)) as (k & E & Hk).
    revert E. generalize (strip_cr (s ++ lit "#" ++ text)). intros z E.
    assert (∃ t, z = s ++ z2b 35 :: t) as [t ->].
    { change (lit "#") with [z2b 35] in *. destruct Hk as [->| ->].
      - rewrite app_nil_r in E. by exists text.
      - destruct text as [|b t] using rev_ind.
        + cbn [app] in E. apply app_inj_tail in E as [_ H]. by vm_compute in H.
        + change ([z2b 35] ++ (t ++ [b])) with ((z2b 35 :: t) ++ [b]) in E.
          rewrite app_assoc in E. apply app_inj_tail in E as [E _]. by exists t. }
    destruct (trim_starts s (z2b 35) t Hs) as [k' ->]; [rewrite b2z_z2b_small; lia|].
    rewrite len_cons. cbn. by destruct (read_lines _ _).
  - intros Hr. rewrite strip_cr_id by (apply row_no; [done|apply solid_no_CR|apply blank_no_CR]).
    rewrite trim_row by done. destruct (row_head r Hr) as (b & t & E & Hb).
    replace (len (row_body r) =? 0) with false by (rewrite E; by rewrite len_cons).
    replace (starts_with (lit "#") (row_body r)) with false by (rewrite E; by rewrite not_comment).
    cbn [orb]. rewrite read_endpoint_row by done. cbn [mbind result_bind].
    by destruct (read_lines _ _).
Qed.

Lemma read_file n ls : Forall line_ok ls →
  read_lines n (strip_cr <$> (line_text <$> ls)) = Ok (concat (line_endpoints <$> ls)).
Proof.
  intros H. revert n. induction H as [|l ls Hl _ IH]; intros n; [done|].
  cbn [fmap list_fmap]. rewrite read_line by done. rewrite IH. done.
Qed.

Lemma line_no_LF l : line_ok l → LF ∉ line_text l.
Proof.
  destruct l as [s|s text|r]; cbn [line_ok line_text].
  - apply blank_no_LF.
  - intros [Hs Ht]. rewrite !not_elem_of_app. split_and!; [by apply blank_no_LF| |done].
    change (lit "#") with [z2b 35]. by intros H%list_elem_of_singleton.
  - intros Hr. apply row_no; [done|apply solid_no_LF|apply blank_no_LF].
Qed.

(** The endpoints file means what it says.  A text of blank lines, comments
    and endpoint lines, in any indentation and with any spaces and tabs between
    the four fields, any spelling of the hexadecimal identifier and of the
    priority, is read as exactly its endpoints in their order; without any
    endpoint it is refused. *)
Theorem read_endpoints_exact path fs ls :
  contents fs !! path = Some (file_text ls) → utf8_valid (file_text ls) = true →
  Forall line_ok ls →
  read_endpoints path fs
  = if bool_decide (concat (line_endpoints <$> ls) = []) then Err ToolError.NoEndpoints
    else Ok (concat (line_endpoints <$> ls)).
Proof.
  intros Hf Hu Hl. unfold read_endpoints, fs_read_to_string, fs_read. rewrite Hf.
  cbn [ok_or mbind result_bind]. rewrite Hu. cbn [ensure mbind result_bind].
  unfold file_text. rewrite lines_concat.
  - by rewrite read_file.
  - apply Forall_fmap. eapply Forall_impl; [exact Hl|]. intros l. apply line_no_LF.
Qed.

(** ** The three commands in a row *)

Lemma ascii_utf8 l : Forall (λ b, 0 ≤ b2z b < 128) l → utf8_valid l = true.
Proof.
  induction 1 as [|b l Hb _ IH]; [done|]. cbn [utf8_valid].
  replace (in_range 0 127 b) with true; [done|]. unfold in_range. lia.
Qed.

Lemma hex_digit_visible n : 0 ≤ n < 16 → 48 ≤ b2z (hex_digit n) ≤ 102.
Proof.
  intros Hn. assert (n ∈ seqZ 0 16) as H by (apply elem_of_seqZ; lia). revert H.
  assert (Forall (λ n, 48 ≤ b2z (hex_digit n) ≤ 102) (seqZ 0 16)) as Hall
    by (apply (bool_decide_unpack _); vm_compute; exact I).
  rewrite Forall_forall in Hall. apply Hall.
Qed.
Lemma encode_hex_visible l : Forall (λ b, 32 < b2z b < 128) (encode_hex l).
Proof.
  unfold encode_hex. induction l as [|b l IH]; [constructor|]. cbn [fmap list_fmap concat app].
  pose proof (b2z_range b). pose proof (hex_digit_visible (Z.shiftr (b2z b) 4)) as H1.
  pose proof (hex_digit_visible (Z.land (b2z b) 15)) as H2.
  rewrite Z.shiftr_div_pow2 in * by lia. change (2 ^ 4) with 16 in *.
  change 15 with (Z.ones 4) in *. rewrite Z.land_ones in * by lia. change (2 ^ 4) with 16 in *.
  assert (0 ≤ b2z b / 16 < 16) by (split; [apply Z.div_pos; lia|apply Z.div_lt_upper_bound; lia]).
  pose proof (Z.mod_pos_bound (b2z b) 16 ltac:(lia)).
  apply Forall_cons; split; [specialize (H1 ltac:(lia)); lia|].
  apply Forall_cons; split; [specialize (H2 ltac:(lia)); lia|done].
Qed.

Section Chain.
Context `{C : Crypto}.

Lemma parse_numeral maximum text n : 0 ≤ maximum → numeral maximum text n → parse maximum text = Ok n.
Proof. intros H0 H. unfold parse. by rewrite (proj2 (parse_uint_exact _ _ _ H0) H). Qed.

Lemma verify_file_command pk public input now_text minimum_text now minimum file fs :
  contents fs !! public = Some (encode_hex (arr pk)) → contents fs !! input = Some file →
  numeral u64_max now_text now → numeral u64_max minimum_text minimum →
  verify_file public input now_text minimum_text fs
  = map_err ToolError.Directory (verify_command pk file now minimum).
Proof.
  intros Hp Hi Hn Hm. unfold verify_file, fs_read_to_string, fs_read. rewrite Hp, Hi.
  cbn [ok_or mbind result_bind]. pose proof (encode_hex_visible (arr pk)) as Hv.
  rewrite ascii_utf8 by (eapply Forall_impl; [exact Hv|]; cbn; intros; lia).
  cbn [ensure mbind result_bind]. rewrite trim_solid.
  2: { apply ascii_solid; [|done]. intros H. apply (f_equal length) in H.
       rewrite encode_hex_length, array_length in H. done. }
  unfold hex_bytes. rewrite (proj1 (hex_roundtrip (arr pk))). cbn [map_err mbind result_bind].
  rewrite try_array_arr. cbn [ok_or mbind result_bind]. unfold verify_command.
  destruct (SignedRelayDirectory.decode file) as [d|e]; [|done]. cbn [map_err mbind result_bind].
  rewrite (parse_numeral u64_max now_text now), (parse_numeral u64_max minimum_text minimum)
    by (done || by vm_compute).
  cbn [ok_or mbind result_bind]. by destruct (verify d pk now minimum).
Qed.

Lemma read_endpoints_same path fs1 fs2 :
  contents fs1 !! path = contents fs2 !! path → read_endpoints path fs1 = read_endpoints path fs2.
Proof. intros H. unfold read_endpoints, fs_read_to_string, fs_read. by rewrite H. Qed.

Lemma numeral_u64 text n : numeral u64_max text n → in_u 64 n ∧ parse u64_max text = Ok n.
Proof.
  intros H. split; [|apply parse_numeral; [by vm_compute|done]].
  apply numeral_range in H. unfold u64_max in H. unfold in_u. lia.
Qed.

(** The operator's commands fit together.  After generating a key pair into
    new files, signing the endpoints of a file succeeds, and verifying the
    signed directory under the public key reports the version exactly when it
    is not below the minimum and the clock is in the window; otherwise it
    reports a rollback or an expiry, never a bad signature. *)
Theorem operator_commands_chain (L : CryptoLaws C) key other fs secret public output endpoints es
    vt it xt nt mt v i x now minimum :
  contents fs !! secret = None →
  writable fs secret = true → writable fs public = true → writable fs output = true →
  public ≠ secret → output ≠ public → endpoints ≠ secret → endpoints ≠ public →
  read_endpoints endpoints fs = Ok es → (length es ≤ 32)%nat → Forall endpoint_valid es →
  numeral u64_max vt v → numeral u64_max it i → numeral u64_max xt x →
  numeral u64_max nt now → numeral u64_max mt minimum →
  let '(r1, fs1) := main key [lit "generate-key"; secret; public] fs in
  let '(r2, fs2) := main other [lit "sign"; secret; output; vt; it; xt; endpoints] fs1 in
  r1 = Outcome.Generated ∧ r2 = Outcome.Signed v
  ∧ (main other [lit "verify"; public; output; nt; mt] fs2).1
    = if v <? minimum then Outcome.Failed (ToolError.Directory TransportError.DirectoryRollback)
      else if (saturating_add u64_max now 300 <? i) || (x <=? now) || (x <=? i)
      then Outcome.Failed (ToolError.Directory TransportError.ExpiredDirectory)
      else Outcome.Valid v.
Proof.
  intros Hs Hws Hwp Hwo Hps Hop Hes Hep Hread Hlen Hval Hv Hi Hx Hn Hm.
  apply numeral_u64 in Hv as [Uv Pv], Hi as [Ui Pi], Hx as [Ux Px].
  destruct (sign_then_verify L key v i x es now minimum Uv Ui Ux Hlen Hval) as (file & Hsign & Hverify).
  cbn [main]. rewrite !bool_decide_eq_true_2 by done.
  unfold generate_key, write_secret. rewrite Hs, bool_decide_eq_false_2 by (by intros []).
  unfold fs_write at 1. rewrite Hws. cbn [writable contents]. unfold fs_write at 1. cbn [writable contents].
  rewrite Hwp. cbn [settled]. unfold sign, signed_file.
  rewrite (read_endpoints_same endpoints _ fs) by (cbn [contents]; by rewrite !lookup_insert_ne).
  unfold fs_read. cbn [contents]. rewrite lookup_insert_ne, lookup_insert_eq by done.
  cbn [ok_or mbind result_bind]. rewrite try_array_arr. cbn [ok_or mbind result_bind].
  rewrite Pv, Pi, Px, Hread. cbn [mbind result_bind]. rewrite Hsign. cbn [map_err mbind result_bind].
  unfold fs_write. cbn [writable]. rewrite Hwo. cbn [settled]. split_and!; [done..|]. cbn [fst].
  rewrite (verify_file_command (sk_public key) public output nt mt now minimum file);
    [|cbn [contents]; by rewrite lookup_insert_ne, lookup_insert_eq by done
     |cbn [contents]; by rewrite lookup_insert_eq|done..].
  rewrite Hverify. destruct (v <? minimum); [done|]. by destruct (_ || _).
Qed.
End Chain.

(** *** Witnesses *)

Section Witnesses.

Definition sample_row : Row :=
  MakeRow (lit " ") (encode_hex (arr (make_array 16 1))) (lit "  ") (lit "+07") (lit " ")
    (RelayEndpoint.websocket_url (sample_endpoint 1 7)) (lit " ")
    (RelayEndpoint.https_url (sample_endpoint 1 7)) [] (make_array 16 1) 7.
Definition sample_lines : list Line := [Comment [] (lit " relays"); Blank (lit "  "); Endpoint sample_row].

Definition visible_b (b : byte) : bool := (32 <? b2z b) && (b2z b <? 128).
Lemma solid_dec l : l ≠ [] → forallb visible_b l = true → solid l.
Proof.
  intros Hne H. apply ascii_solid; [done|]. apply Forall_forall. intros b Hb.
  rewrite forallb_forall in H. apply list_elem_of_In, H in Hb. unfold visible_b in Hb. lia.
Qed.
Definition blank_b (b : byte) : bool := bool_decide (b = z2b 32) || bool_decide (b = z2b 9).
Lemma blank_dec l : forallb blank_b l = true → blank l.
Proof.
  intros H. apply Forall_forall. intros b Hb. rewrite forallb_forall in H.
  apply list_elem_of_In, H in Hb. unfold blank_b in Hb. apply orb_true_iff in Hb.
  by rewrite !bool_decide_eq_true in Hb.
Qed.

Lemma sample_numeral : numeral u16_max (lit "+07") 7.
Proof. apply parse_uint_exact; [by vm_compute|]. vm_compute. reflexivity. Qed.
Lemma sample_lines_ok : Forall line_ok sample_lines.
Proof.
  apply Forall_cons; split; [|apply Forall_cons; split; [|apply Forall_cons; split; [|constructor]]].
  - split; [constructor|]. apply (bool_decide_unpack _). by vm_compute.
  - by apply blank_dec.
  - repeat split; try (by apply blank_dec); try done; try (by apply solid_dec); try by vm_compute.
    exact sample_numeral.
Qed.
Definition sample_fs : FileSystem :=
  MakeFileSystem {[ lit "relays.txt" := file_text sample_lines ]} (λ _, true).

Lemma read_endpoints_exact_witness :
  read_endpoints (lit "relays.txt") sample_fs = Ok [sample_endpoint 1 7].
Proof.
  rewrite (read_endpoints_exact (lit "relays.txt") sample_fs sample_lines).
  - vm_compute. reflexivity.
  - vm_compute. reflexivity.
  - vm_compute. reflexivity.
  - exact sample_lines_ok.
Defined.

Lemma decided_numeral text n : parse_uint u64_max text = Some n → numeral u64_max text n.
Proof. apply parse_uint_exact. by vm_compute. Qed.
Definition key_file : bytes := lit "secret.bin".
Definition public_file : bytes := lit "public.hex".
Definition directory_file : bytes := lit "directory.bin".

Lemma operator_commands_chain_witness :
  let '(r1, fs1) := main (C := toy_crypto) (fill 32 5) [lit "generate-key"; key_file; public_file] sample_fs in
  let '(r2, fs2) := main (C := toy_crypto) (fill 32 6)
    [lit "sign"; key_file; directory_file; lit "3"; lit "100"; lit "900"; lit "relays.txt"] fs1 in
  fst (main (C := toy_crypto) (fill 32 6)
    [lit "verify"; public_file; directory_file; lit "500"; lit "2"] fs2) = Outcome.Valid 3.
Proof.
  pose proof (operator_commands_chain (C := toy_crypto) toy_crypto_laws (fill 32 5) (fill 32 6) sample_fs
    key_file public_file directory_file (lit "relays.txt") [sample_endpoint 1 7]
    (lit "3") (lit "100") (lit "900") (lit "500") (lit "2") 3 100 900 500 2
    ltac:(vm_compute; reflexivity) eq_refl eq_refl eq_refl
    ltac:(by apply (bool_decide_unpack _)) ltac:(by apply (bool_decide_unpack _))
    ltac:(by apply (bool_decide_unpack _)) ltac:(by apply (bool_decide_unpack _))
    ltac:(vm_compute; reflexivity) ltac:(cbn; lia)
    ltac:(repeat constructor; vm_compute; congruence)
    (decided_numeral (lit "3") 3 eq_refl) (decided_numeral (lit "100") 100 eq_refl)
    (decided_numeral (lit "900") 900 eq_refl) (decided_numeral (lit "500") 500 eq_refl)
    (decided_numeral (lit "2") 2 eq_refl)) as H.
  destruct (main (fill 32 5) _ sample_fs) as [r1 fs1].
  destruct (main (fill 32 6) _ fs1) as [r2 fs2]. destruct H as (_ & _ & ->). reflexivity.
Defined.
End Witnesses.
