(* ===== verification/Lab.v ===== *)
(** * Lab: the demonstration programs of the repository

    Models tools/network-lab/src/main.rs, the failover demonstration that drives
    the transport manager over two relays of which only the second answers over
    HTTPS, and the loop of tools/load-generator/src/main.rs.  A failed [expect]
    is [None]. *)
From Stdlib Require Import ZArith Lia.
From stdpp Require Import base gmap list strings.
From S2P Require Import Prelude Cursor Protocol Crypto Directory Manager Text.
Import SignedRelayDirectory TransportManager.

Definition expect {E A} (r : result E A) : option A := match r with Ok a => Some a | Err _ => None end.

Module LabSender.
Definition lab_sender : EndpointSender unit := {|
  send_websocket s _ _ := (Err TransportError.Unavailable, s);
  send_https s endpoint frame :=
    if bool_decide (RelayEndpoint.endpoint_id endpoint = fill 16 1)
    then (Err TransportError.Unavailable, s) else (Ok frame, s)
|}.
#[export] Existing Instance lab_sender.
End LabSender.
Import LabSender.

Definition relay_a : RelayEndpoint.t :=
  RelayEndpoint.Make (fill 16 1) (Str (lit "wss://blocked-a.invalid/v1/ws") eq_refl)
    (Str (lit "https://blocked-a.invalid/v1/relay") eq_refl) 1.
Definition relay_b : RelayEndpoint.t :=
  RelayEndpoint.Make (fill 16 2) (Str (lit "wss://blocked-websocket.invalid/v1/ws") eq_refl)
    (Str (lit "https://relay-b.invalid/v1/relay") eq_refl) 2.
Definition lab_frame : TransportFrame.t :=
  TransportFrame.Make PROTOCOL_VERSION FrameType.UploadEnvelope (fill 16 9) 60 (lit "opaque MLS event").

(** [now.saturating_sub(1)] and [now + 3600], which wraps in a release build. *)
Definition lab_directory (now : Z) (signature : array 64) : SignedRelayDirectory.t :=
  SignedRelayDirectory.Make 1 (Z.max 0 (now - 1)) (as_u64 (now + 3600)) [relay_a; relay_b] signature.

(** The numbers that are printed: pending frames, replies and the counters. *)
Definition lab_main `{C : Crypto} (now : Z) (key : array 32) : option (nat * nat * ByteCounters.t) :=
  message ← expect (signing_bytes (lab_directory now (fill 64 0)));
  manager ← expect (TransportManager.new tt (lab_directory now (sk_sign key message)) (sk_public key) now);
  let '(r, manager) := enqueue lab_frame manager in
  _ ← expect r;
  let '(r, manager) := flush now manager in
  response ← expect r;
  Some (pending_count manager, length response, counters manager).

(** The load generator: how many frames it decoded, and the length of one. *)
Definition load_frame : TransportFrame.t :=
  TransportFrame.Make PROTOCOL_VERSION FrameType.UploadEnvelope (fill 16 4) 604800 (replicate 144 (z2b 165)).
Definition load_events (args : list bytes) : Z :=
  Z.max 1 (default 100000 (args !! 1%nat ≫= parse_uint u64_max)).
Fixpoint decode_times (n : nat) (encoded : bytes) : option unit :=
  match n with
  | O => Some tt
  | S n => _ ← expect (TransportFrame.decode encoded); decode_times n encoded
  end.
Definition load_main (args : list bytes) : option (Z * Z) :=
  encoded ← expect (TransportFrame.encode load_frame);
  _ ← decode_times (Z.to_nat (load_events args)) encoded;
  Some (load_events args, len encoded).

Definition lab_contents : bytes := default [] (expect (TransportFrame.encode lab_frame)).
Definition relay_a_down (now : Z) : gmap (array 16) Health.t :=
  <[fill 16 1 := backoff now relay_a Health.default_health]> (<[fill 16 1 := Health.default_health]> ∅).

(** The first relay refuses both carriers and goes into backoff. *)
Lemma lab_relay_a now hp d key q p :
  0 ≤ now →
  try_endpoint now hp lab_contents relay_a (TransportManager.Make tt d key q ∅ ByteCounters.zero p)
  = (None, TransportManager.Make tt d key q (relay_a_down now) (ByteCounters.Make 80 0 2 1 1 0) p).
Proof.
  intros Hn. unfold try_endpoint, health_of. cbn [health RelayEndpoint.endpoint_id relay_a].
  rewrite lookup_empty. cbn [default from_option Health.retry_after Health.default_health].
  replace (now <? 0) with false by (symmetry; by apply Z.ltb_ge).
  unfold exchange, send_websocket, send_https, lab_sender, record_failure, relay_a_down.
  reflexivity.
Qed.

(** The second relay has no history; it answers over HTTPS. *)
Lemma lab_relay_b now d key q :
  0 ≤ now →
  ∃ m, try_endpoint now (Some (fill 16 1)) lab_contents relay_b
      (TransportManager.Make tt d key q (relay_a_down now) (ByteCounters.Make 80 0 2 1 1 0) None)
    = (Some lab_contents, m) ∧ counters m = ByteCounters.Make 160 40 4 2 1 1.
Proof.
  intros Hn. unfold try_endpoint, health_of, relay_a_down. cbn [health RelayEndpoint.endpoint_id relay_b].
  rewrite !lookup_insert_ne, lookup_empty by (intros [=]).
  cbn [default from_option Health.retry_after Health.default_health].
  replace (now <? 0) with false by (symmetry; by apply Z.ltb_ge).
  eexists. split; [reflexivity|]. vm_compute. reflexivity.
Qed.

Lemma lab_flush now d key :
  0 ≤ now → endpoints d = [relay_a; relay_b] →
  ∃ m, flush now (TransportManager.Make tt d key
      [QueuedFrame.Make (fill 16 9) lab_contents] ∅ ByteCounters.zero None)
    = (Ok [lab_contents], m) ∧ outbox m = [] ∧ counters m = ByteCounters.Make 160 40 4 2 1 1.
Proof.
  intros Hn Hd. unfold flush. cbn [outbox flush_loop].
  unfold ordered_endpoints. cbn [directory preferred_endpoint]. rewrite Hd.
  change (stable_sort (order_leb None) [relay_a; relay_b]) with [relay_a; relay_b].
  cbn [head fmap option_fmap option_map try_endpoints QueuedFrame.contents].
  rewrite lab_relay_a by done.
  destruct (lab_relay_b now d key [QueuedFrame.Make (fill 16 9) lab_contents] Hn) as (m & Hm & Hc).
  cbn [RelayEndpoint.endpoint_id relay_a]. rewrite Hm. eauto.
Qed.

(** The failover demonstration succeeds at every clock: whatever the key,
    if the clock is a Unix time whose next hour fits in 64 bits, the signed
    directory is accepted, the first relay fails over both carriers, the second
    answers over HTTPS, nothing stays queued, one reply is returned, and the
    counters show four attempts of forty bytes, two failed WebSocket attempts,
    one failed HTTPS attempt and one switch of relay. *)
Theorem lab_failover `{C : Crypto} (L : CryptoLaws C) now key
    (Hn : 0 ≤ now) (Hu : now + 3600 < 2 ^ 64) :
  lab_main now key = Some (0%nat, 1%nat, ByteCounters.Make 160 40 4 2 1 1).
Proof.
  assert (as_u64 (now + 3600) = now + 3600) as Hx by (apply Z.mod_small; lia).
  assert (∀ s, signing_bytes (lab_directory now s)
    = Ok (signed_part (sorted_directory (lab_directory now (fill 64 0))))) as Hm.
  { intros s. apply signing_bytes_Ok. split; [|done]. apply valid_encodable.
    unfold valid_directory, typed, lab_directory, in_u. rewrite Hx.
    cbn [version issued_at expires_at endpoints]. split_and!; try lia.
    - by repeat constructor.
    - simpl; lia.
    - by repeat constructor. }
  unfold lab_main. rewrite Hm. cbn [expect mbind option_bind].
  set (sd := lab_directory now (sk_sign key _)).
  assert (TransportManager.new tt sd (sk_public key) now
    = Ok (TransportManager.Make tt sd (sk_public key) [] ∅ ByteCounters.zero None)) as ->.
  { unfold new, verify. rewrite sk_public_valid. rewrite (Hm _ : signing_bytes sd = _).
    cbn [version issued_at expires_at sd lab_directory]. rewrite Hx.
    replace (1 <? 0) with false by done.
    replace (saturating_add u64_max now 300 <? Z.max 0 (now - 1)) with false
      by (symmetry; apply Z.ltb_ge; unfold saturating_add, u64_max; lia).
    replace (now + 3600 <=? now) with false by (symmetry; apply Z.leb_gt; lia).
    replace (now + 3600 <=? Z.max 0 (now - 1)) with false by (symmetry; apply Z.leb_gt; lia).
    cbn [orb negb mbind result_bind signature sd lab_directory]. by rewrite sk_sign_verify. }
  cbn [expect mbind option_bind].
  change (enqueue lab_frame _) with
    (@Ok TransportError.t _ tt, TransportManager.Make tt sd (sk_public key)
      [QueuedFrame.Make (fill 16 9) lab_contents] ∅ ByteCounters.zero None).
  cbn [expect mbind option_bind].
  destruct (lab_flush now sd (sk_public key) Hn eq_refl) as (m & -> & Ho & Hc).
  cbn [expect mbind option_bind]. unfold pending_count. by rewrite Ho, Hc.
Qed.

Lemma lab_failover_witness :
  lab_main (C := toy_crypto) 1000 (fill 32 5) = Some (0%nat, 1%nat, ByteCounters.Make 160 40 4 2 1 1).
Proof. apply (lab_failover toy_crypto_laws); lia. Defined.

Lemma decode_times_Ok n encoded f :
  TransportFrame.decode encoded = Ok f → decode_times n encoded = Some tt.
Proof. intros H. induction n as [|n IH]; [done|]. cbn [decode_times]. by rewrite H. Qed.

(** The load generator always finishes: with any argument the frame decodes in
    every round, at least one round runs, and the frame is 172 bytes long. *)
Theorem load_generator_total args :
  load_main args = Some (load_events args, 172) ∧ 1 ≤ load_events args.
Proof.
  split; [|unfold load_events; lia]. unfold load_main.
  destruct (TransportFrame.encode load_frame) as [b|e] eqn:E; [|by vm_compute in E].
  assert (b = default [] (expect (TransportFrame.encode load_frame))) as -> by (by rewrite E).
  cbn [expect mbind option_bind].
  rewrite (decode_times_Ok _ _ load_frame) by (by vm_compute). by vm_compute.
Qed.
