(* ===== verification/Conformance.v ===== *)
(** * Conformance: the repository's own tests, run on the model

    The unit tests of messenger-protocol, messenger-transport, messenger-core,
    messenger-identity, messenger-crypto, messenger-uniffi and relay-directory,
    the PostgreSQL test of core-api (services/core-api/tests/postgres.rs) and the
    examples size_report.rs, identity_harness.rs and crypto_report.rs, statement
    by statement, over the definitions that the other files prove theorems about.
    An [unwrap] that fails or an assertion that does not hold is [None].  The
    clock, the random bytes and the generated keys are fixed values, the
    cryptography is [toy_crypto], the network of the socket test echoes, and the
    groups are those of ReferenceMls: the tests show that the calls fit together
    and not what OpenMLS does.

    Left out: assertions that look for a plaintext in a ciphertext or a file,
    since the ciphertexts of [toy_crypto] contain the plaintext, with the recovery
    test that is about one; the test with ten thousand messages and threads; and
    the tests that only look for a panic in a decoder, which is total here. *)
From Stdlib Require Import ZArith Lia.
From stdpp Require Import base gmap list strings pretty.
From S2P Require Import Prelude Cursor Protocol Crypto Directory DirectoryTool Manager.
From S2P Require Import Sql LocalDb LocalStore Identity CoreDb CoreApi Dispatch Network Mls ReferenceMls Ffi Lab.

(** ** Test scripts

    A test runs operations on a state [S] and stops at the first failure. *)
Definition script (S A : Type) : Type := S → option (A * S).
#[export] Instance script_ret S : MRet (script S) := λ A a s, Some (a, s).
#[export] Instance script_bind S : MBind (script S) := λ A B f m s,
  match m s with Some (a, s) => f a s | None => None end.

Section Steps.
Context {S E A : Type}.
Implicit Types op : S → result E A * S.

(** [op(..).unwrap()] *)
Definition unwrap op : script S A := λ s,
  match op s with (Ok a, s) => Some (a, s) | (Err _, _) => None end.
(** [assert!(matches!(op(..), Err(e)))] *)
Definition refused `{EqDecision E} (e : E) op : script S unit := λ s,
  match op s with (Err x, s) => if bool_decide (x = e) then Some (tt, s) else None | _ => None end.
(** [assert!(op(..).is_err())] *)
Definition fails op : script S unit := λ s,
  match op s with (Err _, s) => Some (tt, s) | _ => None end.
(** The result itself, for the caller to inspect. *)
Definition outcome_of op : script S (result E A) := λ s, Some (op s).
End Steps.

Definition expected {S A} (a : option A) : script S A := λ s, a ≫= λ a, Some (a, s).
Definition assert_ {S} (b : bool) : script S unit := λ s, if b then Some (tt, s) else None.
Definition assert_eq {S A} `{EqDecision A} (x y : A) : script S unit := assert_ (bool_decide (x = y)).
Definition observe {S A} (f : S → A) : script S A := λ s, Some (f s, s).
Definition change {S} (f : S → S) : script S unit := λ s, Some (tt, f s).
Definition passes_from {S A} (s : S) (t : script S A) : option A := fst <$> t s.
(** [assert!(matches!(r, Err(e)))] for a pure function. *)
Definition error_is {S E A} `{EqDecision E} (e : E) (r : result E A) : script S unit :=
  assert_ match r with Err x => bool_decide (x = e) | Ok _ => false end.
Definition is_err {E A} (r : result E A) : bool := match r with Err _ => true | Ok _ => false end.

#[export] Instance protocol_error_eq_dec : EqDecision Protocol.Error.t.
Proof. solve_decision. Defined.
#[export] Instance frame_type_eq_dec : EqDecision FrameType.t.
Proof. solve_decision. Defined.
#[export] Instance frame_eq_dec : EqDecision TransportFrame.t.
Proof. solve_decision. Defined.
#[export] Instance application_type_eq_dec : EqDecision ApplicationType.t.
Proof. solve_decision. Defined.
#[export] Instance envelope_eq_dec : EqDecision ApplicationEnvelope.t.
Proof. solve_decision. Defined.
#[export] Instance endpoint_eq_dec : EqDecision RelayEndpoint.t.
Proof. solve_decision. Defined.
#[export] Instance directory_eq_dec : EqDecision SignedRelayDirectory.t.
Proof. solve_decision. Defined.
#[export] Instance incoming_message_eq_dec : EqDecision IncomingMessage.t.
Proof. solve_decision. Defined.

#[export] Existing Instances TransportError.t_eq_dec CoreError.t_eq_dec ApiError.t_eq_dec.

(** A whole test, run from nothing. *)
Abbreviation test := (script unit unit).

(** ** messenger-protocol *)
Module ProtocolTests.
Definition id : Id := fill 16 7.
Definition frame : TransportFrame.t := TransportFrame.Make 1 FrameType.Ping id 0 [].
Definition hex (b : bytes) : bytes := encode_hex b.

(** The files of docs/protocol-vectors, trimmed. *)
Definition v1_ping : bytes := lit "8601010e50070707070707070707070707070707070040".
Definition v1_text_message : bytes :=
  lit "85020150070707070707070707070707070707075007070707070707070707070707070707420102".
Definition v1_upload_envelope : bytes :=
  lit "8601010650070707070707070707070707070707071a00093a80420102".

Definition deterministic_round_trip : test :=
  a ← expected (expect (TransportFrame.encode frame));
  b ← expected (expect (TransportFrame.encode frame));
  _ ← assert_eq a b;
  decoded ← expected (expect (TransportFrame.decode a));
  _ ← assert_eq decoded frame;
  _ ← assert_eq (hex a) (lit "8601010e50070707070707070707070707070707070040");
  assert_eq (hex a) v1_ping.

Definition rejects_malformed_truncated_oversized_and_map : test :=
  _ ← error_is Error.Truncated (TransportFrame.decode [z2b 134]);
  _ ← error_is Error.Malformed (TransportFrame.decode [z2b 161; z2b 0; z2b 0]);
  _ ← error_is Error.TooLarge (TransportFrame.decode (replicate (Z.to_nat (MAX_FRAME_SIZE + 1)) (z2b 0)));
  _ ← error_is Error.NonCanonical (TransportFrame.decode [z2b 134; z2b 24; z2b 1]);
  trailing ← expected (expect (TransportFrame.encode frame));
  _ ← error_is Error.TrailingBytes (TransportFrame.decode (trailing ++ [z2b 0]));
  let excessive_ttl := TransportFrame.Make 1 FrameType.Ping id (MAX_TTL_SECONDS + 1) [] in
  assert_ match TransportFrame.encode excessive_ttl with
          | Err Error.FieldOutOfRange | Err Error.TooLarge => true
          | _ => false
          end.

Definition app_round_trip : test :=
  let x := ApplicationEnvelope.Make ApplicationType.TextMessage id id [z2b 1; z2b 2] in
  encoded ← expected (expect (ApplicationEnvelope.encode x));
  decoded ← expected (expect (ApplicationEnvelope.decode encoded));
  _ ← assert_eq decoded x;
  _ ← assert_eq (hex encoded) v1_text_message;
  let upload := TransportFrame.Make PROTOCOL_VERSION FrameType.UploadEnvelope id DEFAULT_TTL_SECONDS
    [z2b 1; z2b 2] in
  uploaded ← expected (expect (TransportFrame.encode upload));
  assert_eq (hex uploaded) v1_upload_envelope.

Definition duplicate_map_keys_and_unknown_fields_are_rejected : test :=
  _ ← error_is Error.Malformed (TransportFrame.decode [z2b 162; z2b 1; z2b 1; z2b 1; z2b 2]);
  extended ← expected (expect (TransportFrame.encode frame));
  error_is Error.Malformed (TransportFrame.decode (z2b 135 :: drop 1 extended ++ [z2b 0])).

Definition compression_requires_real_saving : test :=
  _ ← assert_eq (choose_compressed_body [z2b 1; z2b 2] [z2b 1; z2b 2]) None;
  assert_eq (choose_compressed_body [z2b 1; z2b 2; z2b 3] [z2b 9]) (Some [z2b 9]).

(** The body of the property-based test, for one choice of its inputs. *)
Definition arbitrary_canonical_frames_round_trip (kind ttl : Z) (body : bytes) (id : Id) : test :=
  kind ← expected (expect (FrameType.parse kind));
  let frame := TransportFrame.Make PROTOCOL_VERSION kind id ttl body in
  encoded ← expected (expect (TransportFrame.encode frame));
  decoded ← expected (expect (TransportFrame.decode encoded));
  assert_eq decoded frame.

(** ** crates/messenger-protocol/examples/size_report.rs: what it prints *)
Definition text_envelope (content : bytes) : ApplicationEnvelope.t :=
  ApplicationEnvelope.Make ApplicationType.TextMessage (fill 16 1) (fill 16 2) content.
Definition row (name : string) (e : ApplicationEnvelope.t) : option (string * Z) :=
  b ← expect (ApplicationEnvelope.encode e); Some (name, len b).
Definition size_report : option (list (string * Z)) :=
  ok ← row "OK" (text_envelope (lit "OK"));
  home ← row "Я дома" (text_envelope (lit "Я дома"));
  where_ ← row "Привет, ты где?" (text_envelope (lit "Привет, ты где?"));
  ascii ← row "160 ASCII" (text_envelope (replicate 160 (z2b 97)));
  russian ← row "160 Russian" (text_envelope (concat (replicate 160 (lit "я"))));
  let ack := ApplicationEnvelope.Make ApplicationType.DeliveryReceipt (fill 16 1) (fill 16 2) [] in
  body ← expect (ApplicationEnvelope.encode ack);
  meta ← row "group metadata update" (ApplicationEnvelope.Make ApplicationType.GroupMetadataUpdate
    (fill 16 1) (fill 16 2) (replicate 32 (z2b 0)));
  frame ← expect (TransportFrame.encode
    (TransportFrame.Make 1 FrameType.UploadEnvelope (fill 16 3) 604800 body));
  Some [ok; home; where_; ascii; russian; ("one delivery ACK"%string, len body);
        ("batch of 50 ACK"%string, len body * 50); meta; ("ACK transport envelope"%string, len frame)].
(** The table of docs/PROTOCOL_BUDGETS.md. *)
Definition documented_sizes : list (string * Z) :=
  [("OK", 40); ("Я дома", 49); ("Привет, ты где?", 65); ("160 ASCII", 199); ("160 Russian", 360);
   ("one delivery ACK", 38); ("batch of 50 ACK", 1900); ("group metadata update", 71);
   ("ACK transport envelope", 66)]%string.

Lemma arbitrary_frame_passes kind ttl body id :
  1 ≤ kind ≤ 17 → 0 ≤ ttl ≤ MAX_TTL_SECONDS → len body < 2048 →
  passes_from tt (arbitrary_canonical_frames_round_trip kind ttl body id) = Some tt.
Proof.
  intros Hk Ht Hb. unfold arbitrary_canonical_frames_round_trip, passes_from.
  assert (∃ k, FrameType.parse kind = Ok k) as [k Hp].
  { assert (∀ n, (1 ≤ n ≤ 17)%nat → ∃ k, FrameType.parse (Z.of_nat n) = Ok k) as H.
    { intros n Hn. do 18 (destruct n as [|n]; [first [exfalso; lia | by eexists]|]). exfalso. lia. }
    destruct (H (Z.to_nat kind) ltac:(lia)) as [k Hp]. rewrite Z2Nat.id in Hp by lia. eauto. }
  set (f := TransportFrame.Make PROTOCOL_VERSION k id ttl body).
  assert (TransportFrame.typed f) as Hf.
  { split; unfold in_u; [by vm_compute|]. change MAX_TTL_SECONDS with 2592000 in Ht. cbn. lia. }
  assert (TransportFrame.encode f = Ok (frame_bytes f)) as He.
  { apply frame_encode_Ok. destruct (frame_length f) as [_ Hl]. cbn [f TransportFrame.body] in Hl.
    split_and!; [done|apply Ht|].
    assert (len body ≤ u16_max) by (unfold u16_max; lia).
    specialize (Hl (proj1 Hf) ltac:(done)). unfold len, MAX_FRAME_SIZE in *. lia. }
  assert (TransportFrame.decode (frame_bytes f) = Ok f) as Hd by (by apply frame_decode_iff_encode).
  unfold mbind, script_bind, expected. rewrite Hp. cbn [expect mbind option_bind fst snd].
  fold f. rewrite He. cbn [expect mbind option_bind]. rewrite Hd. cbn [expect mbind option_bind].
  unfold assert_eq, assert_. by rewrite bool_decide_eq_true_2.
Qed.

Definition suite : list test :=
  [ deterministic_round_trip; rejects_malformed_truncated_oversized_and_map; app_round_trip;
    duplicate_map_keys_and_unknown_fields_are_rejected; compression_requires_real_saving ].
End ProtocolTests.

(** ** messenger-transport *)
Module FakeSender.
Record t := Make { attempts : list (Id * string); fail_a : bool; fail_ws : bool }.
Definition attempt (e : RelayEndpoint.t) (carrier : string) (s : t) : t :=
  Make (attempts s ++ [(RelayEndpoint.endpoint_id e, carrier)]) (fail_a s) (fail_ws s).
Definition fake_sender : EndpointSender t := {|
  send_websocket s endpoint frame :=
    (if fail_ws s || (fail_a s && bool_decide (RelayEndpoint.endpoint_id endpoint = fill 16 1))
     then Err TransportError.Unavailable else Ok frame, attempt endpoint "ws" s);
  send_https s endpoint frame :=
    (if fail_a s && bool_decide (RelayEndpoint.endpoint_id endpoint = fill 16 1)
     then Err TransportError.Unavailable else Ok frame, attempt endpoint "https" s)
|}.
#[export] Existing Instance fake_sender.
End FakeSender.
(** The two routes of the server that echoes; every other path has no answer. *)
Module Echo.
Definition ws_echo (url : str) (frame : bytes) : Ws.outcome :=
  if bool_decide (str_bytes url = lit "ws://127.0.0.1:9000/ws")
  then Ws.Received (Ws.Message (Ws.Binary frame)) else Ws.NotConnected.
Definition https_echo (url : str) (body : bytes) : Http.reply :=
  if bool_decide (str_bytes url = lit "http://127.0.0.1:9000/sync")
  then Http.Reply StatusCode.OK (Some body) else Http.Reply 404 (Some []).
Definition echo : Network unit := {|
  connect_send_next _ url frame := (ws_echo url frame, tt);
  https_post _ url body := (https_echo url body, tt)
|}.
#[export] Existing Instance echo.
End Echo.
Module TransportTests.
Import TransportManager.

Import FakeSender Echo.

Section Tests.
Context `{C : Crypto}.

Definition relay_a : RelayEndpoint.t :=
  RelayEndpoint.Make (fill 16 1) (Str (lit "wss://a/ws") eq_refl) (Str (lit "https://a/sync") eq_refl) 1.
Definition relay_b : RelayEndpoint.t :=
  RelayEndpoint.Make (fill 16 2) (Str (lit "wss://b/ws") eq_refl) (Str (lit "https://b/sync") eq_refl) 2.

(** [value.signature = key.sign(&value.signing_bytes().unwrap())] *)
Definition signed (key : array 32) (value : SignedRelayDirectory.t) : option SignedRelayDirectory.t :=
  m ← expect (SignedRelayDirectory.signing_bytes value);
  Some (SignedRelayDirectory.Make (SignedRelayDirectory.version value)
    (SignedRelayDirectory.issued_at value) (SignedRelayDirectory.expires_at value)
    (SignedRelayDirectory.endpoints value) (sk_sign key m)).
Definition signed_directory (key : array 32) (now : Z) : option SignedRelayDirectory.t :=
  signed key (SignedRelayDirectory.Make 2 (now - 1) (now + 3600) [relay_a; relay_b] (fill 64 0)).

Definition frame (i : Z) : TransportFrame.t :=
  TransportFrame.Make PROTOCOL_VERSION FrameType.UploadEnvelope (fill 16 i) 60 (lit "opaque").

(** [TransportManager::new(sender, signed_directory(&key, now), ..).unwrap()] *)
Definition manager (sender : FakeSender.t) (key : array 32) (now : Z)
    : option (TransportManager.t FakeSender.t) :=
  directory ← signed_directory key now;
  expect (TransportManager.new sender directory (sk_public key) now).

Definition attempted (m : TransportManager.t FakeSender.t) : list (Id * string) := attempts (sender m).

Definition relay_a_failure_switches_to_b_without_losing_or_duplicating_outbox (key : array 32) : test := λ _,
  let now := 1000000 in
  m ← manager (FakeSender.Make [] true false) key now;
  _ ← passes_from m (
    _ ← unwrap (enqueue (frame 8));
    _ ← unwrap (enqueue (frame 8));
    pending ← observe pending_count;
    _ ← assert_eq pending 1%nat;
    replies ← unwrap (flush now);
    _ ← assert_eq (length replies) 1%nat;
    pending ← observe pending_count;
    _ ← assert_eq pending 0%nat;
    totals ← observe counters;
    _ ← assert_eq (ByteCounters.relay_switches totals) 1;
    attempts ← observe attempted;
    _ ← assert_eq (fst <$> attempts) [fill 16 1; fill 16 1; fill 16 2];
    _ ← unwrap (enqueue (frame 9));
    _ ← unwrap (flush (now + 60));
    attempts ← observe attempted;
    _ ← assert_eq (fst <$> last attempts) (Some (fill 16 2));
    change notify_network_change);
  Some (tt, tt).

Definition set_priority (p : Z) (e : RelayEndpoint.t) : RelayEndpoint.t :=
  RelayEndpoint.Make (RelayEndpoint.endpoint_id e) (RelayEndpoint.websocket_url e)
    (RelayEndpoint.https_url e) p.

Definition websocket_blocked_uses_https_and_invalid_directory_is_rejected (key : array 32) : test := λ _,
  let now := 2000000 in
  m ← manager (FakeSender.Make [] false true) key now;
  _ ← passes_from m (
    directory ← observe directory;
    encoded_directory ← expected (expect (SignedRelayDirectory.encode directory));
    decoded ← expected (expect (SignedRelayDirectory.decode encoded_directory));
    _ ← assert_eq decoded directory;
    _ ← unwrap (enqueue (frame 8));
    replies ← unwrap (flush now);
    _ ← assert_eq (length replies) 1%nat;
    good ← expected (signed_directory key now);
    let tampered := SignedRelayDirectory.Make (SignedRelayDirectory.version good)
      (SignedRelayDirectory.issued_at good) (SignedRelayDirectory.expires_at good)
      (match SignedRelayDirectory.endpoints good with
       | e :: l => set_priority 9 e :: l
       | [] => []
       end) (SignedRelayDirectory.signature good) in
    _ ← refused TransportError.InvalidDirectorySignature (update_directory tampered now);
    expired ← expected (signed key (SignedRelayDirectory.Make (SignedRelayDirectory.version good)
      (SignedRelayDirectory.issued_at good) now (SignedRelayDirectory.endpoints good) (fill 64 0)));
    refused TransportError.ExpiredDirectory (update_directory expired now));
  Some (tt, tt).

Definition real_websocket_and_https_binary_transports_round_trip : test := λ _,
  let endpoint := RelayEndpoint.Make (fill 16 7) (Str (lit "ws://127.0.0.1:9000/ws") eq_refl)
    (Str (lit "http://127.0.0.1:9000/sync") eq_refl) 1 in
  _ ← passes_from tt (
    encoded ← expected (expect (TransportFrame.encode (frame 8)));
    reply ← unwrap (λ s, NetworkSender.send_websocket s endpoint encoded);
    _ ← assert_eq reply encoded;
    reply ← unwrap (λ s, NetworkSender.send_https s endpoint encoded);
    assert_eq reply encoded);
  Some (tt, tt).

Definition suite (key : array 32) : list test :=
  [ relay_a_failure_switches_to_b_without_losing_or_duplicating_outbox key;
    websocket_blocked_uses_https_and_invalid_directory_is_rejected key;
    real_websocket_and_https_binary_transports_round_trip ].
End Tests.
End TransportTests.

(** ** messenger-core

    [now] is the reading of the clock.  The two ways in which the test makes the
    database fail are schedules: a lock held by another connection fails the
    BEGIN, [query_only] the first statement that writes. *)
Module CoreTests.
Import MessengerCore.
Section Tests.
Context `{C : Crypto} (now : Z).
Local Abbreviation core_test A := (script MessengerCore.t A).

Definition key (b : Z) : bytes := replicate 32 (z2b b).
Definition nonce (n : Z) : array 24 := make_array 24 n.
(** [MessengerCore::open(&path, key)] on the file that the core before wrote. *)
Definition reopen (k : bytes) : core_test unit := λ c,
  match (LocalStore.open_ [] (committed (db c)) k).1 with Ok c => Some (tt, c) | Err _ => None end.
Definition opened {A} (d : LocalDb.Db.t) (k : bytes) (t : core_test A) : option A :=
  c ← expect (LocalStore.open_ [] d k).1; passes_from c t.
Definition in_memory {A} (k : bytes) (t : core_test A) : test := λ _,
  _ ← opened LocalDb.Db.empty k t; Some (tt, tt).

Definition send_is_durable_before_network_and_survives_restart : test := λ _,
  let conversation := fill 16 3 in
  let text := Str (lit "Я дома") eq_refl in
  _ ← opened LocalDb.Db.empty (key 7) (
    id ← unwrap (LocalStore.create_message (fill 16 1) (nonce 1) now conversation text);
    _ ← reopen (key 7);
    pending ← unwrap (LocalStore.get_pending_uploads 50 now);
    _ ← assert_eq (PendingUpload.client_message_id <$> head pending) (Some id);
    messages ← unwrap (LocalStore.list_messages conversation);
    assert_eq (LocalMessage.plaintext <$> head messages) (Some text));
  Some (tt, tt).

(** The last assertion of [database_never_contains_plaintext_and_wrong_key_fails]. *)
Definition wrong_key_fails : core_test unit :=
  _ ← reopen (key 9);
  refused CoreError.Authentication (LocalStore.list_messages (fill 16 2)).

Definition incoming_and_acceptance_are_idempotent_and_cursors_monotonic : test :=
  in_memory (key 4) (
    id ← unwrap (LocalStore.create_message (fill 16 1) (nonce 1) now (fill 16 5) (Str (lit "OK") eq_refl));
    _ ← unwrap (LocalStore.mark_upload_accepted id);
    _ ← unwrap (LocalStore.mark_upload_accepted id);
    let event := IncomingEvent.Make (fill 16 6) (fill 16 5) (lit "ciphertext") in
    first ← unwrap (LocalStore.ingest_server_event event now);
    _ ← assert_ first;
    second ← unwrap (LocalStore.ingest_server_event event now);
    _ ← assert_ (negb second);
    _ ← unwrap (LocalStore.set_sync_cursor (fill 16 5) 42);
    refused CoreError.InvalidTransition (LocalStore.set_sync_cursor (fill 16 5) 41)).

Definition migration_and_cancel_are_safe : test :=
  in_memory (key 8) (
    version ← unwrap LocalStore.schema_version;
    _ ← assert_eq version SCHEMA_VERSION;
    id ← unwrap (LocalStore.create_message (fill 16 2) (nonce 1) now (fill 16 1)
      (Str (lit "cancel me") eq_refl));
    _ ← unwrap (LocalStore.cancel_pending_message id);
    pending ← unwrap (LocalStore.get_pending_uploads 50 now);
    assert_ (Nat.eqb (length pending) 0)).

Definition locked_database_and_write_failure_do_not_report_send_success : test :=
  let send n text := LocalStore.create_message (fill 16 n) (nonce n) now (fill 16 2) text in
  in_memory (key 7) (
    _ ← change (LocalStore.with_faults [true]);
    _ ← refused CoreError.Database (send 1 (Str (lit "must not be acknowledged") eq_refl));
    pending ← unwrap (LocalStore.get_pending_uploads 50 now);
    _ ← assert_ (Nat.eqb (length pending) 0);
    _ ← change (LocalStore.with_faults [false; true]);
    _ ← refused CoreError.Database (send 2 (Str (lit "disk write failure") eq_refl));
    pending ← unwrap (LocalStore.get_pending_uploads 50 now);
    assert_ (Nat.eqb (length pending) 0)).

Definition v1_database_migrates_forward_and_group_state_is_observable : test := λ _,
  let '(r, w) := LocalStore.migrate (quiet (LocalDb.Db.set_user_version 1 LocalDb.Db.empty) []) in
  _ ← expect r;
  _ ← (if LocalDb.Db.user_version (committed w) =? SCHEMA_VERSION then Some tt else None);
  in_memory (key 5) (
    revision ← unwrap (LocalStore.observe_conversation_changes 0);
    _ ← unwrap (LocalStore.create_group (fill 16 20) now);
    _ ← unwrap (LocalStore.add_member (fill 16 20) (fill 16 21) (fill 32 22));
    next ← unwrap (LocalStore.observe_conversation_changes revision);
    _ ← assert_ (revision <? next);
    conversations ← unwrap LocalStore.list_conversations;
    _ ← assert_eq (length conversations) 1%nat;
    unwrap (LocalStore.remove_member (fill 16 20) (fill 16 21) now)) tt.

Definition server_batches_and_relay_cache_are_idempotent_and_monotonic : test :=
  let events := [ (IncomingEvent.Make (fill 16 1) (fill 16 2) (replicate 32 (z2b 3)), now);
                  (IncomingEvent.Make (fill 16 4) (fill 16 2) (replicate 32 (z2b 5)), now) ] in
  in_memory (key 6) (
    inserted ← unwrap (LocalStore.ingest_server_batch events);
    _ ← assert_eq inserted 2;
    inserted ← unwrap (LocalStore.ingest_server_batch events);
    _ ← assert_eq inserted 0;
    _ ← unwrap (LocalStore.cache_relay_directory
      (RelayCache.Make 7 (replicate 128 (z2b 8)) (now + 60000)));
    relay ← unwrap LocalStore.last_relay_directory;
    _ ← assert_eq (RelayCache.version <$> relay) (Some 7);
    refused CoreError.InvalidTransition (LocalStore.cache_relay_directory
      (RelayCache.Make 6 (replicate 128 (z2b 9)) (now + 60000)))).

(** [UPDATE messages SET body_ciphertext=X'00' WHERE client_message_id=?1] *)
Definition corrupt (id : Id) (c : MessengerCore.t) : result CoreError.t Z * MessengerCore.t :=
  LocalStore.direct (execute CoreError.Database (update_body id [z2b 0])) c.
Definition key_rotation_reencrypts_rows_and_corruption_is_detected : test :=
  let conversation := fill 16 8 in
  let text := Str (lit "rotate safely") eq_refl in
  in_memory (key 1) (
    id ← unwrap (LocalStore.create_message (fill 16 1) (nonce 1) now conversation text);
    _ ← unwrap (LocalStore.rotate_master_key (key 2) 2 (λ n, nonce (Z.of_nat n + 2)));
    messages ← unwrap (LocalStore.list_messages conversation);
    _ ← assert_eq (LocalMessage.plaintext <$> head messages) (Some text);
    _ ← unwrap (corrupt id);
    refused CoreError.Authentication (LocalStore.list_messages conversation)).

Definition suite : list test :=
  [ send_is_durable_before_network_and_survives_restart;
    in_memory (key 1) (
      _ ← unwrap (LocalStore.create_message (fill 16 1) (nonce 1) now (fill 16 2)
        (Str (lit "unique-private-needle") eq_refl));
      wrong_key_fails);
    incoming_and_acceptance_are_idempotent_and_cursors_monotonic;
    migration_and_cancel_are_safe;
    locked_database_and_write_failure_do_not_report_send_success;
    v1_database_migrates_forward_and_group_state_is_observable;
    server_batches_and_relay_cache_are_idempotent_and_monotonic;
    key_rotation_reencrypts_rows_and_corruption_is_detected ].
End Tests.
End CoreTests.

(** ** messenger-identity and the credentials of messenger-crypto

    [root] and [device] are the keys that [create_account] draws. *)
Module IdentityTests.
Section Tests.
Context `{C : Crypto} `{U : Unicode} `{B : Bip39}.

Definition flip (i : nat) (b : bytes) : bytes :=
  match b !! i with Some x => <[i := z2b (Z.lxor (b2z x) 1)]> b | None => b end.
Definition flip_array {n} (i : nat) (a : array n) : array n := default a (try_array n (flip i (arr a))).

Definition identity_and_recovery (root device entropy : array 32) (id : Id) (nonce : array 24) (now : Z) : test :=
  let '(r, _, c) := create_account root device id now in
  _ ← assert_ (verify_device_certificate (sk_public r) c);
  let p := generate_recovery_phrase entropy in
  x ← expected (expect (encrypt_recovery_blob nonce p (lit "root key backup")));
  plain ← expected (expect (decrypt_recovery_blob p x));
  _ ← assert_eq plain (lit "root key backup");
  _ ← expected (expect (canonical_username (chars "Test_Name")));
  name ← expected (expect (canonical_username (chars "teSt")));
  assert_eq name (chars "test").

Definition tampering_fails (root : array 32) : test :=
  let i := sign_invite root None in
  let i := SignedInvite.Make (SignedInvite.version i) (flip_array 0 (SignedInvite.account_id i))
    (SignedInvite.fingerprint i) (SignedInvite.expires_at i) (SignedInvite.signature i) in
  assert_ (negb (verify_invite (sk_public root) i 0)).

Definition qr_round_trip_and_tamper_rejection (root : array 32) (now : Z) : test :=
  let invite := sign_invite root (Some (now + 60)) in
  payload ← expected (expect (encode_qr_payload root invite));
  decoded ← expected (expect (decode_and_verify_qr_payload payload now));
  _ ← assert_eq (SignedInvite.account_id (snd decoded)) (account_id root);
  assert_ (is_err (decode_and_verify_qr_payload (flip 70 payload) now)).

(** The engine that the test creates plays no part in the check. *)
Definition credential_requires_a_valid_root_signed_device_certificate (root device : array 32) (id : Id)
    (now : Z) : test :=
  let '(root, _, certificate) := create_account root device id now in
  let member := MemberCredential.Make (DeviceCertificate.device_id certificate) (account_id root)
    (device_certificate_fingerprint certificate) in
  verified ← expected (expect (Mls.verify_member_credential (MemberCredential.encode member)
    (sk_public root) certificate));
  _ ← assert_eq verified member;
  let tampered := DeviceCertificate.Make (DeviceCertificate.device_id certificate)
    (DeviceCertificate.device_public_key certificate) (DeviceCertificate.issued_at certificate)
    (flip_array 0 (DeviceCertificate.signature certificate)) in
  assert_ (is_err (Mls.verify_member_credential (MemberCredential.encode member)
    (sk_public root) tampered)).

(** crates/messenger-identity/examples/identity_harness.rs *)
Definition identity_harness (alice bob entropy : array 32) (nonce : array 24) : test :=
  alice_name ← expected (expect (canonical_username (chars "Alice_01")));
  bob_name ← expected (expect (canonical_username (chars "Bob_01")));
  alice_qr ← expected (expect (encode_qr_payload alice (sign_invite alice None)));
  bob_qr ← expected (expect (encode_qr_payload bob (sign_invite bob None)));
  _ ← expected (expect (decode_and_verify_qr_payload alice_qr 0));
  _ ← expected (expect (decode_and_verify_qr_payload bob_qr 0));
  recovery ← expected (expect (create_recovery_package entropy nonce alice));
  restored ← expected (expect (restore_account_root (to_string (phrase recovery))
    (encrypted_root recovery)));
  _ ← assert_eq (account_id alice) (account_id restored);
  assert_eq (alice_name, bob_name) (chars "alice_01", chars "bob_01").

Definition suite (root device entropy : array 32) (id : Id) (nonce : array 24) (now : Z) : list test :=
  [ identity_and_recovery root device entropy id nonce now; tampering_fails root;
    qr_round_trip_and_tamper_rejection root now; identity_harness root device entropy nonce;
    credential_requires_a_valid_root_signed_device_certificate root device id now ].
End Tests.
End IdentityTests.

(** ** messenger-crypto

    A test moves between the engines of two people.  [random] gives each engine
    its source of randomness. *)
Module CryptoTests.
Section Tests.
Context `{M : OpenMls} `{C : Crypto}.
Context (random : Z → Rng) (nonce : array 24) (enumeration : Mls.storage → list (bytes * bytes)).

Definition member (seed : Z) : MemberCredential.t :=
  MemberCredential.Make (fill 16 seed) (fill 32 seed) (fill 16 seed).
Definition initialize (draw seed key : Z) : option CryptoEngine.t :=
  expect (Mls.initialize_crypto_store (random draw) (member seed) (fill 32 key)).

Abbreviation people := (CryptoEngine.t * CryptoEngine.t)%type.
Definition alice {E A} (op : CryptoEngine.t → result E A * CryptoEngine.t) (s : people)
    : result E A * people :=
  let '(r, e) := op (fst s) in (r, (e, snd s)).
Definition bob {E A} (op : CryptoEngine.t → result E A * CryptoEngine.t) (s : people)
    : result E A * people :=
  let '(r, e) := op (snd s) in (r, (fst s, e)).
Definition reading {A} (f : CryptoEngine.t → result CryptoError.t A) : engine_op A := λ e, (f e, e).
Definition between {A} (x y : option CryptoEngine.t) (t : script people A) : test := λ _,
  x ← x; y ← y; _ ← passes_from (x, y) t; Some (tt, tt).
(** [generate_key_packages(1).unwrap().remove(0)] *)
Definition one_package {S} (who : engine_op (list bytes) → S → result CryptoError.t (list bytes) * S)
    : script S bytes :=
  packages ← unwrap (who (generate_key_packages 1)); expected (head packages).

Definition alice_and_bob_exchange_real_mls_messages_and_reject_replay : test :=
  let chat := lit "alice-bob" in
  between (initialize 1000 1 8) (initialize 2000 2 9) (
    bob_package ← one_package bob;
    _ ← unwrap (alice (create_conversation chat));
    change ← unwrap (alice (commit_add_members chat [bob_package]));
    welcome ← expected (GroupChange.welcome change);
    _ ← unwrap (bob (join_conversation_from_welcome welcome));
    ciphertext ← unwrap (alice (encrypt_application_message chat (lit "private hello")));
    received ← unwrap (bob (process_incoming_message chat ciphertext));
    _ ← assert_eq received (IncomingMessage.Application (lit "private hello"));
    _ ← fails (bob (process_incoming_message chat ciphertext));
    reply ← unwrap (bob (encrypt_application_message chat (lit "reply")));
    received ← unwrap (alice (process_incoming_message chat reply));
    assert_eq received (IncomingMessage.Application (lit "reply"))).

(** The snapshot is taken by [first]; [restored] and [wrong] are the people. *)
Definition encrypted_state_survives_restart_and_wrong_key_fails : test :=
  let chat := lit "persistent" in
  match initialize 1000 3 7 with
  | None => λ _, None
  | Some first =>
      let '(r, first) := create_conversation chat first in
      _ ← expected (expect r);
      snapshot ← expected (expect (export_conversation_state nonce enumeration chat first));
      between (initialize 2000 3 7) (initialize 3000 3 6) (
        imported ← unwrap (alice (import_conversation_state snapshot));
        _ ← assert_eq imported chat;
        epoch ← unwrap (alice (reading (get_conversation_epoch chat)));
        _ ← assert_eq epoch 0;
        fails (bob (import_conversation_state snapshot)))
  end.

(** The packages of the participants [index], [index + 1], ... *)
Fixpoint participants (n : nat) (index : Z) : option (list bytes) :=
  match n with
  | O => Some []
  | S n =>
      participant ← initialize (1000 + index) (index mod 250 + 2) index;
      package ← one_package (λ op e, op e) participant;
      rest ← participants n (index + 1);
      Some (fst package :: rest)
  end.
Definition ten_and_hundred_member_groups_are_real_openmls_groups (count : nat) : test :=
  let chat := lit "group-" ++ lit (pretty count) in
  between (initialize 1 1 5) (initialize 1 1 5) (
    _ ← unwrap (alice (create_conversation chat));
    packages ← expected (participants (count - 1) 1);
    change ← unwrap (alice (commit_add_members chat packages));
    _ ← assert_ (negb (is_none (GroupChange.welcome change)));
    members ← unwrap (alice (reading (member_count chat)));
    _ ← assert_eq members (Z.of_nat count);
    ciphertext ← unwrap (alice (encrypt_application_message chat (lit "group message")));
    assert_ (negb (len ciphertext =? 0))).

Definition out_of_order_and_removed_member_rules_hold : test :=
  let chat := lit "ordering" in
  between (initialize 1000 10 1) (initialize 2000 11 2) (
    bob_package ← one_package bob;
    _ ← unwrap (alice (create_conversation chat));
    change ← unwrap (alice (commit_add_members chat [bob_package]));
    welcome ← expected (GroupChange.welcome change);
    _ ← unwrap (bob (join_conversation_from_welcome welcome));
    first ← unwrap (alice (encrypt_application_message chat (lit "first")));
    second ← unwrap (alice (encrypt_application_message chat (lit "second")));
    received ← unwrap (bob (process_incoming_message chat second));
    _ ← assert_eq received (IncomingMessage.Application (lit "second"));
    received ← unwrap (bob (process_incoming_message chat first));
    _ ← assert_eq received (IncomingMessage.Application (lit "first"));
    removal ← unwrap (alice (commit_remove_members chat (member 11)));
    received ← unwrap (bob (process_incoming_message chat (GroupChange.commit removal)));
    _ ← assert_eq received IncomingMessage.CommitApplied;
    after ← unwrap (alice (encrypt_application_message chat (lit "after removal")));
    fails (bob (process_incoming_message chat after))).

Definition delayed_welcome_works_and_simultaneous_commits_are_detected : test :=
  let chat := lit "delayed-welcome" in
  between (initialize 1000 20 20) (initialize 2000 21 21) (
    bob_package ← one_package bob;
    _ ← unwrap (alice (create_conversation chat));
    change ← unwrap (alice (commit_add_members chat [bob_package]));
    queued_while_offline ← unwrap (alice (encrypt_application_message chat
      (lit "after welcome was queued")));
    welcome ← expected (GroupChange.welcome change);
    _ ← unwrap (bob (join_conversation_from_welcome welcome));
    received ← unwrap (bob (process_incoming_message chat queued_while_offline));
    _ ← assert_eq received (IncomingMessage.Application (lit "after welcome was queued"));
    alice_commit ← unwrap (alice (self_update chat));
    bob_commit ← unwrap (bob (self_update chat));
    _ ← fails (alice (process_incoming_message chat bob_commit));
    _ ← fails (bob (process_incoming_message chat alice_commit));
    alice_epoch ← unwrap (alice (reading (get_conversation_epoch chat)));
    bob_epoch ← unwrap (bob (reading (get_conversation_epoch chat)));
    assert_eq alice_epoch bob_epoch).

Definition suite : list test :=
  [ alice_and_bob_exchange_real_mls_messages_and_reject_replay;
    encrypted_state_survives_restart_and_wrong_key_fails;
    ten_and_hundred_member_groups_are_real_openmls_groups 10;
    ten_and_hundred_member_groups_are_real_openmls_groups 100;
    out_of_order_and_removed_member_rules_hold;
    delayed_welcome_works_and_simultaneous_commits_are_detected ].
End Tests.
End CryptoTests.

(** crates/messenger-crypto/examples/crypto_report.rs.  The rows that it prints,
    without the times; the sizes depend on OpenMLS. *)
Module CryptoReport.
Section Report.
Context `{M : OpenMls} `{C : Crypto}.
Context (random : Z → Rng) (nonce : array 24) (enumeration : Mls.storage → list (bytes * bytes)).

(** The artifact, the participants and the bytes. *)
Abbreviation row := (string * nat * Z)%type.

Definition measure (participants : nat) : option (list row) :=
  let chat := lit "measurement-" ++ lit (pretty participants) in
  owner ← CryptoTests.initialize random 1 1 8;
  passes_from owner (
    _ ← unwrap (create_conversation chat);
    packages ← expected (CryptoTests.participants random (participants - 1) 1);
    change ← unwrap (commit_add_members chat packages);
    ciphertext ← unwrap (encrypt_application_message chat (lit "OK"));
    state ← unwrap (CryptoTests.reading (export_conversation_state nonce enumeration chat));
    mret ((match packages with
           | package :: _ => [("KeyPackage"%string, participants, len package)]
           | [] => []
           end) ++
      [ ("commit"%string, participants, len (GroupChange.commit change));
        ("Welcome"%string, participants, from_option len 0 (GroupChange.welcome change));
        ("steady-state ciphertext"%string, participants, len ciphertext);
        ("encrypted state"%string, participants, len state) ])).
Definition crypto_report : option (list row) :=
  two ← measure 2; ten ← measure 10; hundred ← measure 100; Some (two ++ ten ++ hundred).
End Report.

(** What the rows are about. *)
Definition artifacts : list (string * nat) :=
  count ← [2; 10; 100]%nat;
  (λ artifact : string, (artifact, count)) <$>
    ["KeyPackage"; "commit"; "Welcome"; "steady-state ciphertext"; "encrypted state"]%string.
End CryptoReport.

(** ** messenger-uniffi *)
Module FfiTests.
Section Tests.
Context `{M : OpenMls} `{C : Crypto}.
Context (random : Z → Rng).

Definition member (seed : Z) : FfiMemberCredential.t :=
  FfiMemberCredential.Make (replicate 16 (z2b seed)) (replicate 32 (z2b seed)) (replicate 16 (z2b seed)).
Abbreviation devices := (MlsDevice.t * MlsDevice.t)%type.
Definition alice {A} (op : MlsDevice.method A) (s : devices) : result FfiError.t A * devices :=
  let '(r, d) := op (fst s) in (r, (d, snd s)).
Definition bob {A} (op : MlsDevice.method A) (s : devices) : result FfiError.t A * devices :=
  let '(r, d) := op (snd s) in (r, (fst s, d)).
Definition hex (value : bytes) : option bytes := expect (decode_hex value).

Definition ffi_surface_calls_real_openmls : test := λ _,
  let chat := lit "ffi-test" in
  x ← expect (MlsDevice.initialize_crypto_store (random 1000) (member 1) (replicate 32 (z2b 1)));
  y ← expect (MlsDevice.initialize_crypto_store (random 2000) (member 2) (replicate 32 (z2b 2)));
  _ ← passes_from (x, y) (
    packages ← unwrap (bob (MlsDevice.generate_key_packages 1));
    package ← expected (head packages);
    _ ← unwrap (alice (MlsDevice.create_conversation chat));
    change ← unwrap (alice (MlsDevice.commit_add_member chat package));
    welcome ← expected (change !! 1%nat);
    _ ← unwrap (bob (MlsDevice.join_conversation_from_welcome welcome));
    encrypted ← unwrap (alice (MlsDevice.encrypt_application_message chat (lit "real MLS")));
    received ← unwrap (bob (MlsDevice.process_incoming_message chat encrypted));
    _ ← assert_eq received (lit "real MLS");
    ping ← expected (hex (lit "8601010e50070707070707070707070707070707070040"));
    same ← expected (expect (protocol_round_trip ping));
    assert_eq same ping);
  Some (tt, tt).
End Tests.
End FfiTests.

(** ** relay-directory *)
Module ToolTests.
Definition hex_round_trip_and_rejects_invalid : test :=
  let value := [z2b 0; z2b 171; z2b 255] in
  decoded ← expected (expect (decode_hex (encode_hex value)));
  _ ← assert_eq decoded value;
  _ ← assert_ (is_err (decode_hex (lit "0")));
  assert_ (is_err (decode_hex (lit "zz"))).
End ToolTests.

(** ** core-api: services/core-api/tests/postgres.rs

    [alice] and [bob] are root keys, [alice_device] a device key; the accounts
    of the large group get theirs from a counter.  The clock stands still. *)
Module ApiTests.
Import CoreApi.
Section Tests.
Context `{C : Crypto} `{U : Unicode} `{B : Bip39} (now : Z).
Local Abbreviation api_test A := (script Backend A).

Definition key (n : Z) : array 32 := make_array 32 n.
Definition id (n : Z) : Id := make_array 16 n.
Definition alice_root := key 1.
Definition alice_device := key 2.
Definition bob_root := key 3.
Definition account (root device : array 32) (i : Id) : DeviceCertificate.t :=
  snd (create_account root device i (now / 1000000)).
Definition alice_cert := account alice_root alice_device (id 1001).
Definition bob_cert := account bob_root (key 4) (id 1002).
Definition alice_id := account_id alice_root.
Definition bob_id := account_id bob_root.
Definition register (root : array 32) (cert : DeviceCertificate.t) : api unit :=
  register_account_device (account_id root) (sk_public root) cert.
Definition alice := DeviceCertificate.device_id alice_cert.
Definition bob := DeviceCertificate.device_id bob_cert.
Definition seed (n : Z) : token_seed := TokenSeed (key (100 + 2 * n)) (key (101 + 2 * n)) (id n).

Definition on_current (f : CoreDb.Db.t → CoreDb.Db.t) (w : Backend) : Backend :=
  World (f (committed w)) (f (current w)) (in_tx w) (faults w).
(** [UPDATE auth_challenges SET expires_at=now()-interval '1 second' WHERE challenge_id=$1] *)
Definition expire_challenge (i : Id) (d : CoreDb.Db.t) : CoreDb.Db.t :=
  CoreDb.Db.set_auth_challenges (update_where (λ c, bool_decide (AuthChallenge.challenge_id c = i))
    (λ c, AuthChallenge.Make (AuthChallenge.challenge_id c) (AuthChallenge.device_id c)
      (AuthChallenge.challenge c) (now - seconds 1) (AuthChallenge.consumed_at c))
    (CoreDb.Db.auth_challenges d)) d.

Definition migrations (MIGRATION : bytes) : api_test unit :=
  _ ← unwrap (migrate MIGRATION);
  unwrap (migrate MIGRATION).

Definition registration : api_test unit :=
  _ ← unwrap (register alice_root alice_cert);
  _ ← refused ApiError.Replay (register alice_root alice_cert);
  name ← unwrap (claim_username now alice_id (chars "Alice_01"));
  assert_eq name (chars "alice_01").

Definition authentication : api_test SessionTokens.t :=
  challenge ← unwrap (begin_challenge now (id 2001) (key 5) alice);
  let signature := sk_sign alice_device
    (auth_challenge_payload (Challenge.challenge_id challenge) (Challenge.challenge challenge)) in
  tokens ← unwrap (complete_challenge (seed 1) now (Challenge.challenge_id challenge) signature);
  _ ← refused ApiError.Replay
    (complete_challenge (seed 2) now (Challenge.challenge_id challenge) signature);
  bad ← unwrap (begin_challenge now (id 2002) (key 6) alice);
  _ ← refused ApiError.InvalidCredentials
    (complete_challenge (seed 3) now (Challenge.challenge_id bad) (fill 64 0));
  _ ← change (on_current (expire_challenge (Challenge.challenge_id bad)));
  _ ← refused ApiError.Expired
    (complete_challenge (seed 4) now (Challenge.challenge_id bad) (fill 64 0));
  mret tokens.

Definition refreshing (tokens : SessionTokens.t) : api_test unit :=
  let old := SessionTokens.refresh_token tokens in
  let proof := sk_sign alice_device (refresh_proof_payload old) in
  _ ← refused ApiError.InvalidCredentials (rotate_refresh (seed 5) now alice old (fill 64 0));
  rotated ← unwrap (rotate_refresh (seed 6) now alice old proof);
  _ ← assert_ (negb (bool_decide (SessionTokens.refresh_token rotated = old)));
  refused ApiError.TokenReuse (rotate_refresh (seed 7) now alice old proof).

(** The two claims that the test joins run in either order. *)
Definition usernames (alice_first : bool) : api_test unit :=
  _ ← unwrap (register bob_root bob_cert);
  _ ← refused ApiError.Conflict (claim_username now bob_id (chars "ALICE_01"));
  _ ← unwrap (release_username now alice_id);
  _ ← refused ApiError.Conflict (claim_username now bob_id (chars "alice_01"));
  let '(first, second) := if alice_first then (alice_id, bob_id) else (bob_id, alice_id) in
  r1 ← outcome_of (claim_username now first (chars "race_name"));
  r2 ← outcome_of (claim_username now second (chars "race_name"));
  assert_eq (length (filter (λ r, is_err r = false) [r1; r2])) 1%nat.

Definition recovery_and_key_packages : api_test unit :=
  recovery ← expected (expect (create_recovery_package (key 7) (fill 24 1) alice_root));
  _ ← unwrap (store_recovery_package alice_id (package_identifier recovery) (encrypted_root recovery));
  blob ← unwrap (fetch_recovery_package (package_identifier recovery));
  _ ← assert_eq blob (Some (encrypted_root recovery));
  let package_id := fill 16 31 in
  let package := lit "opaque OpenMLS KeyPackage" in
  _ ← unwrap (publish_key_package now bob package_id package);
  found ← unwrap (fetch_key_package now bob);
  _ ← assert_eq found (Some (package_id, package));
  none ← unwrap (fetch_key_package now bob);
  assert_ (is_none none).

Definition group : Id := fill 16 40.
Definition groups_and_welcomes : api_test unit :=
  _ ← unwrap (create_group group alice alice_id);
  _ ← unwrap (add_group_member group bob bob_id 0);
  _ ← unwrap (upload_welcome now alice bob group (fill 16 39) (lit "opaque MLS Welcome"));
  welcomes ← unwrap (fetch_welcomes now bob 50);
  assert_eq (length welcomes) 1%nat.

Definition stored_events : api_test nat := observe (λ w, length (CoreDb.Db.group_events (current w))).
Definition stored_members : api_test nat := observe (λ w, length (CoreDb.Db.group_members (current w))).

Definition delivery : api_test unit :=
  let event := UploadedEvent.Make (fill 16 41) group alice (fill 16 42) 3
    (lit "opaque MLS application data") None in
  first ← unwrap (upload_event now event);
  notification ← observe (λ w, last (CoreDb.Db.notifications (current w)));
  _ ← assert_eq notification (Some (lit "28282828282828282828282828282828"));
  _ ← assert_ (negb (UploadAccepted.duplicate first));
  duplicate ← unwrap (upload_event now event);
  _ ← assert_ (UploadAccepted.duplicate duplicate);
  _ ← assert_eq (UploadAccepted.cursor first) (UploadAccepted.cursor duplicate);
  count ← stored_events;
  _ ← assert_eq count 1%nat;
  synced ← unwrap (sync_group now bob group 0 50);
  _ ← assert_eq (length synced) 1%nat;
  _ ← assert_eq (SyncEvent.ciphertext <$> head synced) (Some (UploadedEvent.ciphertext event));
  global ← unwrap (sync_global now bob 0 50);
  _ ← assert_eq (length global) 1%nat;
  receipts ← unwrap (record_receipts bob [UploadedEvent.event_id event] 1);
  _ ← assert_eq receipts 1;
  receipts ← unwrap (record_receipts bob [UploadedEvent.event_id event] 1);
  _ ← assert_eq receipts 0;
  _ ← refused ApiError.Unauthorized (sync_group now (fill 16 99) group 0 50);
  _ ← unwrap (advance_group_cursor bob group (UploadAccepted.cursor first));
  _ ← refused ApiError.CursorRegression
    (advance_group_cursor bob group (UploadAccepted.cursor first - 1));
  before ← stored_members;
  _ ← fails (add_group_member (fill 16 88) bob bob_id 0);
  after ← stored_members;
  assert_eq before after.

Definition large_group : Id := fill 16 70.
Fixpoint enrol (n : nat) (last_device : Id) : api_test Id :=
  match n with
  | O => mret last_device
  | S n =>
      let root := key (5000 + Z.of_nat n) in
      let cert := account root (key (6000 + Z.of_nat n)) (id (7000 + Z.of_nat n)) in
      _ ← unwrap (register root cert);
      _ ← unwrap (add_group_member large_group (DeviceCertificate.device_id cert) (account_id root) 0);
      enrol n (DeviceCertificate.device_id cert)
  end.
Definition one_hundred_members : api_test unit :=
  _ ← unwrap (create_group large_group alice alice_id);
  _ ← unwrap (add_group_member large_group bob bob_id 0);
  last_device ← enrol 98 bob;
  _ ← unwrap (upload_event now (UploadedEvent.Make (fill 16 71) large_group alice (fill 16 72) 3
    (lit "one ciphertext for one hundred members") None));
  events ← observe (λ w, length (select_where (in_group large_group) (CoreDb.Db.group_events (current w))));
  _ ← assert_eq events 1%nat;
  members ← observe (λ w, length (select_where (λ m, bool_decide (GroupMember.group_id m = large_group)
    && is_none (GroupMember.removed_at m)) (CoreDb.Db.group_members (current w))));
  _ ← assert_eq members 100%nat;
  synced ← unwrap (sync_group now last_device large_group 0 50);
  assert_eq (length synced) 1%nat.

Definition removal : api_test unit :=
  let correlation := fill 16 55 in
  let operation := membership_operation_payload correlation group alice bob 0 true in
  let signed := MembershipOperation.Make correlation group alice bob 0 true
    (sk_sign alice_device operation) in
  replayed ← unwrap (apply_membership_operation now signed);
  _ ← assert_ (negb replayed);
  replayed ← unwrap (apply_membership_operation now signed);
  _ ← assert_ replayed;
  _ ← unwrap (upload_event now (UploadedEvent.Make (fill 16 56) group alice (fill 16 57)
    EVENT_KIND_MLS_COMMIT (lit "opaque correlated MLS commit") (Some correlation)));
  refused ApiError.Unauthorized (sync_group now bob group 0 50).

Definition authentication_identity_delivery_and_migrations (MIGRATION : bytes) (alice_first : bool) : test :=
  λ _,
  _ ← passes_from (quiet CoreDb.Db.empty []) (
    _ ← migrations MIGRATION;
    _ ← registration;
    tokens ← authentication;
    _ ← refreshing tokens;
    _ ← usernames alice_first;
    _ ← recovery_and_key_packages;
    _ ← groups_and_welcomes;
    _ ← delivery;
    _ ← one_hundred_members;
    removal);
  Some (tt, tt).
End Tests.
End ApiTests.

Definition all_pass (l : list test) : bool := forallb (λ t : test, bool_decide (passes_from tt t = Some tt)) l.

(** ** The tests pass *)

Lemma all_pass_app l k : all_pass (l ++ k) = all_pass l && all_pass k.
Proof. apply forallb_app. Qed.

Lemma protocol_suite_passes :
  all_pass ProtocolTests.suite = true
  ∧ ProtocolTests.size_report = Some ProtocolTests.documented_sizes.
Proof. split; vm_compute; reflexivity. Qed.
Lemma transport_suite_passes : all_pass (TransportTests.suite (C := toy_crypto) (fill 32 5)) = true.
Proof. vm_compute. reflexivity. Qed.
Lemma core_suite_passes : all_pass (CoreTests.suite (C := toy_crypto) 1700000000000) = true.
Proof. vm_compute. reflexivity. Qed.
Lemma identity_suite_passes :
  all_pass (IdentityTests.suite (C := toy_crypto) (B := toy_bip39) (fill 32 5) (fill 32 6) (fill 32 7)
    (fill 16 8) (fill 24 9) 1700000000) = true.
Proof. vm_compute. reflexivity. Qed.

(** The tests that need OpenMLS, on the instance of ReferenceMls. *)
Lemma openmls_suites_pass :
  all_pass (CryptoTests.suite (M := reference_openmls) (C := toy_crypto) (λ draw : Z, draw) (fill 24 5)
      map_to_list
    ++ [FfiTests.ffi_surface_calls_real_openmls (M := reference_openmls) (λ draw : Z, draw);
        ToolTests.hex_round_trip_and_rejects_invalid]) = true.
Proof. vm_compute. reflexivity. Qed.
Lemma crypto_report_rows :
  option_map (List.map fst) (CryptoReport.crypto_report (M := reference_openmls) (C := toy_crypto)
    (λ draw : Z, draw) (fill 24 5) map_to_list) = Some CryptoReport.artifacts.
Proof. vm_compute. reflexivity. Qed.
Lemma api_suite_passes alice_first :
  all_pass [ApiTests.authentication_identity_delivery_and_migrations (C := toy_crypto) (B := toy_bip39)
    1700000000000000 (lit "CREATE TABLE accounts") alice_first] = true.
Proof. destruct alice_first; vm_compute; reflexivity. Qed.

(** The repository's own tests pass on the model: the unit tests of the
    codec with the recorded protocol vectors, the failover and socket tests of
    the transport, the tests of the local store, the identity tests, and the
    database test of core-api from the migration to the removal of a member of
    a group of a hundred, whichever of its two racing claims comes first; over
    the reference groups, the tests of the MLS engine and of its foreign
    interface, and the report of the engine up to its sizes; the sizes that the
    report of the codec prints are those of the documentation; and the
    property-based test of the codec passes for every choice of its inputs. *)
Theorem repository_tests_pass :
  all_pass (ProtocolTests.suite ++ TransportTests.suite (C := toy_crypto) (fill 32 5)
    ++ CoreTests.suite (C := toy_crypto) 1700000000000
    ++ IdentityTests.suite (C := toy_crypto) (B := toy_bip39) (fill 32 5) (fill 32 6) (fill 32 7)
         (fill 16 8) (fill 24 9) 1700000000) = true
  ∧ (∀ alice_first, all_pass
      [ApiTests.authentication_identity_delivery_and_migrations (C := toy_crypto) (B := toy_bip39)
        1700000000000000 (lit "CREATE TABLE accounts") alice_first] = true)
  ∧ all_pass (CryptoTests.suite (M := reference_openmls) (C := toy_crypto) (λ draw : Z, draw) (fill 24 5)
        map_to_list
      ++ [FfiTests.ffi_surface_calls_real_openmls (M := reference_openmls) (λ draw : Z, draw);
          ToolTests.hex_round_trip_and_rejects_invalid]) = true
  ∧ option_map (List.map fst) (CryptoReport.crypto_report (M := reference_openmls) (C := toy_crypto)
      (λ draw : Z, draw) (fill 24 5) map_to_list) = Some CryptoReport.artifacts
  ∧ ProtocolTests.size_report = Some ProtocolTests.documented_sizes
  ∧ ∀ kind ttl body id, 1 ≤ kind ≤ 17 → 0 ≤ ttl ≤ MAX_TTL_SECONDS → len body < 2048 →
      passes_from tt (ProtocolTests.arbitrary_canonical_frames_round_trip kind ttl body id) = Some tt.
Proof.
  refine (conj _ (conj api_suite_passes (conj openmls_suites_pass (conj crypto_report_rows
    (conj (proj2 protocol_suite_passes) ProtocolTests.arbitrary_frame_passes))))).
  rewrite !all_pass_app, (proj1 protocol_suite_passes), transport_suite_passes, core_suite_passes,
    identity_suite_passes. reflexivity.
Qed.
Lemma repository_tests_pass_witness :
  passes_from tt (ProtocolTests.arbitrary_canonical_frames_round_trip 14 0 [] (fill 16 7)) = Some tt.
Proof. apply (proj2 (proj2 (proj2 (proj2 (proj2 repository_tests_pass))))); by vm_compute. Defined.
